(* ===== verification/_CoqProject ===== *)
-Q . S2P
Prelude.v
RustStr.v
RustNet.v
Config.v
Routing.v
Auth.v
Io.v
Http1.v
Http1Body.v
Relay.v
RelayClock.v
Challenge.v
Server.v
Base64.v
Scenario.v
Errors.v
Handshake.v
Tunnel.v
Wire.v
Protocol.v
Direct.v
Client.v
Grant.v
Finite.v
Isolation.v
Resume.v
Mirror.v
Sspi.v
Provider.v
Serve.v
System.v
Main.v
Launch.v
BenchPeers.v
Mock.v
Session.v
Transparent.v
BenchRun.v
Bench.v
Tests.v
