(* ===== verification/Prelude.v ===== *)
(** * fastpx: verification of a CONNECT proxy with SSPI authentication

    fastpx is a local HTTP proxy written in Rust.  A client asks it with
    CONNECT for a tunnel to [host:port]; the proxy either connects directly
    (internal destinations, in automatic routing) or opens the tunnel through
    a corporate upstream proxy, answering its NTLM or Negotiate challenges
    with tokens of the operating system, and then relays bytes both ways.

    ** Parts of the program and where they are modelled

    - src/config.rs is [Config]: [AuthMode], [RoutingMode], [ProxyConfig],
      CIDR networks ([IpCidr_from_str], [IpCidr_contains], [IpCidr_fmt]) and
      endpoints ([Endpoint_from_str], [Endpoint_fmt]).
    - src/routing.rs is [Routing]: [is_direct_address] and the default ranges.
    - src/http1.rs is [Http1] (heads: [read_request_head],
      [read_response_head], [find_header_end], the header queries) and
      [Http1Body] ([drain_response_body], [discard_exact], [read_line],
      [drain_chunked]).
    - src/auth.rs is [Auth] (schemes, errors, the traits as the class
      [AuthFactory], the provider of other platforms) and [Sspi] (the Windows
      [SspiContext] with [new], [step] and [Drop]).
    - src/server.rs is [Challenge] ([choose_scheme], [find_challenge],
      [decode_challenge]), [Server] (messages, connecting, the exchange
      [establish_upstream_tunnel], [establish_tunnel], [handle_client]),
      [Serve] (the accept loop [serve_until] with its semaphore), [System]
      (the loops and the tasks of all clients, interleaved) and [Errors] (the
      texts of its errors, with those of src/auth.rs and src/http1.rs).
    - src/relay.rs is [Relay]: both pumps and the idle watchdog; [RelayClock]
      has the watchdog's additions with the range of the clock, [Transparent]
      the relay between two arbitrary peers.
    - src/main.rs is [Main], the checks of the arguments and the start, and
      [Launch], the process from there to its exit.
    - src/bin/fastpx-bench.rs: the provider [MockFactory] is in [Scenario];
      [BenchPeers] has the arguments, the configuration and the two peers,
      [run_client] and [handle_mock_upstream] with [read_head], as programs
      on a socket; [Mock] puts the proxy between them, [Session] is the relay
      phase and [BenchRun] one whole connection; [Bench] has the start of
      the proxy, the workers with their shared counter, the joining of their
      results, the stop of the proxy and the report.
    - The unit tests of the modules and tests/connect.rs are [Tests].

    [RustStr] and [RustNet] model what the sources use of the standard
    library: UTF-8, trimming, splitting, integer parsing and printing, the
    IP address types with their parser and printer.  [Io] has the effects:
    an abstract world with sockets (class [Network]), and a state-and-error
    monad [M] that also logs every external action, so that theorems can
    speak about the order of requests, connections and provider calls.
    [Prelude] has the shared notation, tactics and lemmas.

    ** How the code corresponds to the definitions

    One definition per function, under the name it has in the sources
    ([Type_method] for methods).  [?] is the bind of the result or effect
    monad, [await] on a socket is an action of the world, [&mut self] is
    passed and returned, a loop is a [Fixpoint] on fuel whose exhaustion is
    the separate outcome [NoFuel], an enum is an inductive type with the
    source's constructors.  Unsigned integers are [Z] with the wrap-around of
    the release profile written out where it can occur; [usize] has 64 bits.
    Bytes and characters are lists of [Z].  The relay and the accept loop are
    concurrent, so they are step functions on the completions the runtime
    delivers, and their theorems hold for every order of them; so are the
    benchmark's workers.  A client task of the whole server is [handle_client]
    suspended at an [await]: the answers it has got so far, against which the
    same code is run again up to the request it makes next ([Resume] proves
    that a longer list of answers continues the same run, [Mirror] that the
    answers of a real world lead to the run in that world).  The benchmark's
    peers are trees of reads, writes and
    shutdowns ([Prog]), so that they can run inside the world of the proxy.

    Code outside the repository is a parameter: the network ([Network]), the
    httparse crate ([Httparse]), the base64 crate ([Base64], its laws in
    [Base64Laws]), the security provider ([AuthFactory]), the Windows API
    ([SspiApi]) and the texts of library errors ([LibraryTexts]).  Hypotheses about them are named classes: [BoundedReads] (a
    read returns at most what was asked), [ReliableReads] (a finite stream
    without read errors, cut into reads in any way), [ReliableWrites],
    [FiniteWorld] (finitely many bytes in all), [LocalProvider] (a provider
    with all its state in the context), [Upstreams] (peers that answer each
    request with one response), [U16Codes] (httparse's status codes are u16),
    [ByteTokens] and [ByteBuffers] (tokens and native buffers are bytes),
    [OneLineTexts] and [OneLineApi] (error texts of libraries and of Windows
    are single lines), [OneLineProvider] (so are a provider's; [Provider]
    proves it of the Windows provider) and [BenchCrates] (what httparse and
    base64 make of the benchmark's fixed texts).  Executable instances, the scripted
    world of [Io], the answering peers of [Protocol], the world of [Mock], the
    line parser of [Http1], the RFC 4648 codec of [Base64] and the provider
    of [Sspi], show that they can hold and evaluate the witnesses and [Tests].

    ** What the theorems show

    - The exchange ([Handshake], [Grant], [Wire]): tokens are only ever sent
      on one socket, at most four of them; a tunnel is handed out only after
      a 2xx response, read off the bytes received since the last request;
      without authentication the provider is never called.  Everything
      written is a request of fixed lines, and a receiver that reads it gets
      every token back.
    - The exchange on messages ([Protocol]): an abstract protocol without
      bytes, buffers or framing, and the proof that the code refines it
      against every upstream with the promise of [Upstreams]: same requests,
      same tunnel, same error.  Hence a cooperating upstream always yields a
      tunnel.
    - A client ([Client], [Direct], [Tunnel]): nothing is contacted before a
      valid CONNECT was received; the answer on every branch; bytes read
      ahead are passed on; which addresses may be connected to directly, and
      that anything else goes through the upstream; error texts announce the
      length of their body.
    - All clients together ([Isolation], [System]): in every interleaving of
      the accept loops, the client tasks and the outside world, a task acts
      only on its own sockets and no other task owns them, every task keeps
      the theorems of a single client, and at most max_connections run; an
      uninterrupted run of the code is one of the interleavings.
    - The process ([Main], [Launch]): it serves only with a valid
      configuration, keeps the properties of the server while it is up, and
      exits by Ctrl-C or by an error of accepting, never otherwise.
    - The log ([Errors]): no client and no upstream proxy can break a line of
      it by what they send.
    - Termination ([Finite]): with finitely many bytes from the peers every
      exchange returns.
    - Message framing ([Http1], [Http1Body]): heads are found at the first
      blank line within the limit and bodies are skipped exactly, however the
      stream is cut into reads.
    - The relay ([Relay]): bytes are delivered in order and completely, and
      the watchdog ends a tunnel only when it has been idle for the timeout,
      and then it does; [RelayClock]: a timeout out of the clock's range
      panics in the first poll of the relay unless the transfers end in it,
      one within the range never does.
    - The tunnel ([Transparent]): with any two peers, any cutting, partial
      writes, failures and timeouts, the relay refines a direct connection of
      the peers, it can always bring to the wire what a direct connection
      could deliver, and a relay that ends well has delivered everything.
    - The accept loop ([Serve]): permits are conserved, so the connection
      limit holds; every accepted client has one task; shutdown ends accepting.
    - The Windows provider ([Sspi]): every life of a context follows the
      protocol of the API, with every handle and buffer released once.
      [Provider] runs the exchange over it: whatever the upstream does, an
      exchange steps one context at most four times and leaks nothing.
    - The benchmark ([Mock], [Session], [BenchRun], [Bench]): its mock
      upstream keeps the promise of [Upstreams]; the proxy serving its client
      holds exactly the mock's exchange and starts the relay; in every
      interleaving of relay and peers the payload comes back, or the idle
      watchdog ends the tunnel, and there is always a next completion; every
      connection is made by one worker, the proxy stops when it is told to,
      and the report cannot panic.
    - Parsing ([Config], [Routing], [Challenge]): exactly which endpoints are
      accepted, printing and parsing are inverse, masks mean equal prefixes,
      the default ranges are the documented networks, and schemes are chosen
      by preference.

    ** Fuel and bounds

    A loop that reads needs one unit per read and every read that does not
    end it yields a byte: fuel above [max_header_bytes] is enough for a head
    (shown in [Http1]) and fuel above the bytes still to come is enough for
    everything before the relay (shown in [Finite]).  The
    authentication rounds need none: [MAX_AUTH_ROUNDS] is 4.  The benchmark's
    [read_head] has fuel for its own limit of 32 KiB, and its [read_to_end]
    for more than a payload.

    ** What is not modelled

    The tokio runtime below completions of futures, the writing of the log,
    clap's parsing of the command line, the benchmark's clock, rate and
    printing, and allocations that fail for want of memory.  The closing of
    sockets on drop is not an action: a task that ends gives its handles up, and what the peers see when
    a failed relay drops its sockets is left open.  An operation of the
    network is one that completes; a peer that stays silent is a task of
    [System] that is never answered.  The panic of an idle timeout out of the
    clock's range is only in [RelayClock].  In [System] a relay is one
    action of its task; its inside, with the two peers, is [Relay],
    [Session] and [Transparent].  What is left of src/ are imports,
    attributes, accessors of fields and doc comments; src/lib.rs only
    re-exports; the scripts and workflows have no program logic. *)

From stdpp Require Export base tactics list numbers strings option sets.
From Stdlib Require Export ZArith Lia.
From Stdlib Require Import Ascii.

(** ** Scope, literals and machine integers *)

Declare Scope fastpx_scope.
Delimit Scope fastpx_scope with fastpx.
Global Open Scope fastpx_scope.
Global Open Scope Z_scope.

(** A byte is an integer of [0, 256); a [str] is a list of Unicode scalar
    values.  Both are lists of [Z]; [as_bytes] and [from_utf8] of [RustStr]
    convert between them. *)
Abbreviation bytes := (list Z).
Abbreviation str := (list Z).

Definition lit (s : string) : list Z :=
  map (fun c => Z.of_N (N_of_ascii c)) (String.list_ascii_of_string s).

(** The length of a slice or [Vec], as the [usize] the code compares. *)
Definition len {A} (l : list A) : Z := Z.of_nat (length l).

Definition is_u8 (b : Z) : Prop := 0 <= b < 256.

(** Unsigned machine arithmetic of the release profile: results are taken
    modulo the width and shift amounts are masked. *)
Definition wrap (w x : Z) : Z := x mod 2 ^ w.
Definition uint_max (w : Z) : Z := 2 ^ w - 1.
Definition uint_sub (w a b : Z) : Z := wrap w (a - b).
Definition uint_add (w a b : Z) : Z := wrap w (a + b).
Definition uint_mul (w a b : Z) : Z := wrap w (a * b).
Definition uint_shl (w a s : Z) : Z := wrap w (Z.shiftl a (s mod w)).

(** ** Results

    Rust's [Result<A, E>], as a monad in stdpp's notation. *)
Inductive result (E A : Type) : Type :=
| Ok (a : A)
| Err (e : E).
Arguments Ok {E A} a.
Arguments Err {E A} e.

Global Instance result_ret E : MRet (result E) := fun A a => Ok a.
Global Instance result_bind E : MBind (result E) := fun A B f r =>
  match r with Ok a => f a | Err e => Err e end.
Global Instance result_fmap E : FMap (result E) := fun A B f r =>
  match r with Ok a => Ok (f a) | Err e => Err e end.

Definition map_err {E F A} (f : E -> F) (r : result E A) : result F A :=
  match r with Ok a => Ok a | Err e => Err (f e) end.

Definition ok_or {E A} (e : E) (o : option A) : result E A :=
  match o with Some a => Ok a | None => Err e end.

(** [Option<Result<A, E>>::transpose]. *)
Definition transpose {E A} (o : option (result E A)) : result E (option A) :=
  match o with
  | None => Ok None
  | Some (Ok a) => Ok (Some a)
  | Some (Err e) => Err e
  end.

(** ** Slices *)

(** [slice.windows(k)]: the contiguous sub-slices of length [k]. *)
Fixpoint windows (k : nat) (l : bytes) : list bytes :=
  match l with
  | [] => []
  | _ :: l' => if decide (length (take k l) = k) then take k l :: windows k l' else []
  end.

(** [iterator.position(p)]. *)
Fixpoint position {A} (p : A -> bool) (l : list A) : option nat :=
  match l with
  | [] => None
  | x :: l' => if p x then Some 0%nat else S <$> position p l'
  end.

(** [pat] occurs in [l] at offset [i], and at no smaller offset. *)
Definition occurs_at (pat l : bytes) (i : nat) : Prop := take (length pat) (drop i l) = pat.
Definition first_at (pat l : bytes) (i : nat) : Prop :=
  occurs_at pat l i /\ forall j, (j < i)%nat -> ~ occurs_at pat l j.

Global Instance occurs_at_dec pat l i : Decision (occurs_at pat l i).
Proof. unfold occurs_at. apply _. Defined.

(** ** Tactics and hint databases *)

Create HintDb fastpx discriminated.
Create Rewrite HintDb fastpx.

(** Lengths as integers: push [len] through the list constructors. *)
Lemma len_nil {A} : len (@nil A) = 0.
Proof. done. Qed.
Lemma len_cons {A} (x : A) l : len (x :: l) = 1 + len l.
Proof. unfold len. simpl. lia. Qed.
Lemma len_app {A} (l k : list A) : len (l ++ k) = len l + len k.
Proof. unfold len. rewrite length_app. lia. Qed.
Lemma len_nonneg {A} (l : list A) : 0 <= len l.
Proof. unfold len. lia. Qed.
Lemma len_zero {A} (l : list A) : len l = 0 -> l = [].
Proof. unfold len. destruct l; simpl; [done|lia]. Qed.
Lemma len_take {A} (l : list A) n : 0 <= n <= len l -> len (take (Z.to_nat n) l) = n.
Proof. unfold len. rewrite length_take. lia. Qed.
#[export] Hint Rewrite @len_nil @len_cons @len_app : fastpx.
#[export] Hint Resolve len_nonneg : fastpx.

(** [len_lia] decides linear goals about slice lengths. *)
Ltac len_lia :=
  autorewrite with fastpx in *;
  repeat match goal with
  | |- context [@len ?A ?l] => lazymatch goal with H : 0 <= len l |- _ => fail | _ => pose proof (@len_nonneg A l) end
  | H : context [@len ?A ?l] |- _ => lazymatch goal with H' : 0 <= len l |- _ => fail | _ => pose proof (@len_nonneg A l) end
  end; unfold len in *; try lia.

(** Split the boolean tests of the code into propositions. *)
Ltac destr_bool :=
  repeat match goal with
  | H : (_ && _)%bool = true |- _ => apply andb_true_iff in H; destruct H
  | H : (_ || _)%bool = false |- _ => apply orb_false_iff in H; destruct H
  | H : negb _ = true |- _ => apply negb_true_iff in H
  | H : negb _ = false |- _ => apply negb_false_iff in H
  | H : (_ =? _) = true |- _ => apply Z.eqb_eq in H
  | H : (_ =? _) = false |- _ => apply Z.eqb_neq in H
  | H : (_ <? _) = true |- _ => apply Z.ltb_lt in H
  | H : (_ <? _) = false |- _ => apply Z.ltb_ge in H
  | H : (_ <=? _) = true |- _ => apply Z.leb_le in H
  | H : (_ <=? _) = false |- _ => apply Z.leb_gt in H
  end.

(** ** Shared lemmas *)

(** *** Machine integers *)

Lemma wrap_small w x : 0 <= x < 2 ^ w -> wrap w x = x.
Proof. intros. unfold wrap. by apply Z.mod_small. Qed.

Lemma wrap_bound w x : 0 <= w -> 0 <= wrap w x < 2 ^ w.
Proof. intros. unfold wrap. apply Z.mod_pos_bound. lia. Qed.

Lemma testbit_high w x i : 0 <= w -> 0 <= x < 2 ^ w -> w <= i -> Z.testbit x i = false.
Proof.
  intros Hw Hx Hi. rewrite <-(Z.mod_small x (2 ^ w)) by done.
  by apply Z.mod_pow2_bits_high.
Qed.

Lemma wrap_testbit w x i : 0 <= w -> 0 <= i -> Z.testbit (wrap w x) i = bool_decide (i < w) && Z.testbit x i.
Proof.
  intros Hw Hi. unfold wrap. case_bool_decide; simpl.
  - by apply Z.mod_pow2_bits_low.
  - apply Z.mod_pow2_bits_high. lia.
Qed.

(** *** Searching a slice *)

Lemma drop_app_cons {A} (l r : list A) x : drop (length l + 1) (l ++ x :: r) = r.
Proof. induction l as [|y l IH]; [done|]. apply IH. Qed.

Lemma occurs_at_bound pat l i : pat <> [] -> occurs_at pat l i -> (i + length pat <= length l)%nat.
Proof.
  intros Hpat Ho. unfold occurs_at in Ho.
  assert (length pat <= length l - i)%nat as Hle.
  { rewrite <-Ho at 1. rewrite length_take, length_drop. lia. }
  assert (length pat <> 0)%nat by (by destruct pat). lia.
Qed.

Lemma occurs_at_app pat l k i :
  pat <> [] -> occurs_at pat l i -> occurs_at pat (l ++ k) i.
Proof.
  intros Hpat Ho. pose proof (occurs_at_bound _ _ _ Hpat Ho). unfold occurs_at in *.
  rewrite drop_app_le by lia. rewrite take_app_le; [done|]. rewrite length_drop. lia.
Qed.

Lemma occurs_at_app_inv pat l k i :
  (i + length pat <= length l)%nat -> occurs_at pat (l ++ k) i -> occurs_at pat l i.
Proof.
  intros Hle Ho. unfold occurs_at in *.
  rewrite drop_app_le in Ho by lia. rewrite take_app_le in Ho; [done|]. rewrite length_drop. lia.
Qed.

Lemma first_at_unique pat l i j : first_at pat l i -> first_at pat l j -> i = j.
Proof.
  intros [Hi Hi'] [Hj Hj'].
  destruct (lt_eq_lt_dec i j) as [[Hlt|]|Hlt]; [|done|].
  - by destruct (Hj' i Hlt).
  - by destruct (Hi' j Hlt).
Qed.

(** The [windows].[position] idiom returns the least offset of the pattern. *)
Lemma windows_position_some pat l i :
  pat <> [] ->
  position (fun w => bool_decide (w = pat)) (windows (length pat) l) = Some i <-> first_at pat l i.
Proof.
  intros Hpat. revert i. induction l as [|x l IH]; intros i.
  { simpl. split; [done|]. intros [Ho _]. apply occurs_at_bound in Ho; [|done].
    simpl in Ho. assert (length pat <> 0)%nat by (by destruct pat). lia. }
  cbn [windows]. case_decide as Hlen.
  - cbn [position]. case_bool_decide as Heq.
    + split.
      * intros [= <-]. split; [exact Heq|lia].
      * intros Hf. f_equal. eapply first_at_unique; [|exact Hf]. split; [exact Heq|lia].
    + destruct (position _ (windows _ l)) as [k|] eqn:Hk; simpl.
      * specialize (proj1 (IH k) eq_refl) as [Ho Hmin]. split.
        -- intros [= <-]. split; [exact Ho|]. intros [|j] Hj; [exact Heq|].
           apply Hmin. lia.
        -- intros Hf. f_equal. eapply first_at_unique; [|exact Hf].
           split; [exact Ho|]. intros [|j] Hj; [exact Heq|]. apply Hmin. lia.
      * split; [done|]. intros [Ho Hmin]. destruct i as [|i]; [by destruct Heq|].
        enough (None = Some i) by done. apply IH. split; [exact Ho|].
        intros j Hj. apply (Hmin (S j)). lia.
  - simpl. split; [done|]. intros [Ho _].
    apply occurs_at_bound in Ho; [|done]. rewrite length_take in Hlen. simpl in *. lia.
Qed.

Lemma first_at_exists pat l i : occurs_at pat l i -> exists j, first_at pat l j /\ (j <= i)%nat.
Proof.
  induction i as [i IH] using lt_wf_ind. intros Ho.
  destruct (decide (Exists (occurs_at pat l) (seq 0 i))) as [Hex|Hno].
  - apply Exists_exists in Hex as (j & Hj & Hoj). apply elem_of_seq in Hj.
    destruct (IH j) as (k & ? & ?); [lia|done|]. exists k. split; [done|lia].
  - exists i. split; [|lia]. split; [done|]. intros j Hj Hoj. apply Hno.
    apply Exists_exists. exists j. split; [|done]. apply elem_of_seq. lia.
Qed.

Lemma windows_position_none pat l :
  pat <> [] ->
  position (fun w => bool_decide (w = pat)) (windows (length pat) l) = None <->
  forall i, ~ occurs_at pat l i.
Proof.
  intros Hpat. split.
  - intros Hn i Ho. apply first_at_exists in Ho as (j & Hj & _).
    apply windows_position_some in Hj; [|done]. by rewrite Hn in Hj.
  - intros Hno. destruct (position _ _) as [i|] eqn:E; [|done].
    apply windows_position_some in E as [Ho _]; [|done]. by destruct (Hno i).
Qed.
