(* ===== verification/RustStr.v ===== *)
(** * RustStr: the part of [core::str], [char] and integer formatting and
    parsing that the sources of fastpx call

    A [str] is the list of its Unicode scalar values.  [from_utf8] and
    [as_bytes] relate it to the UTF-8 bytes on the wire; the searching and
    trimming functions work on characters, as the [&str] methods do. *)

From S2P Require Import Prelude.

(** ** UTF-8 *)

Definition utf8_cont (b : Z) : bool := (128 <=? b) && (b <=? 191).

(** [char::encode_utf8]. *)
Definition encode_char (c : Z) : bytes :=
  if c <? 128 then [c]
  else if c <? 2048 then [192 + c / 64; 128 + c mod 64]
  else if c <? 65536 then [224 + c / 4096; 128 + (c / 64) mod 64; 128 + c mod 64]
  else [240 + c / 262144; 128 + (c / 4096) mod 64; 128 + (c / 64) mod 64; 128 + c mod 64].

(** [str::as_bytes]. *)
Definition as_bytes (s : str) : bytes := s ≫= encode_char.

(** The second byte of a three- or four-byte sequence is restricted, which
    excludes overlong forms, surrogates and values above 0x10FFFF. *)
Definition utf8_second3 (b0 b1 : Z) : bool :=
  ((b0 =? 224) && (160 <=? b1) && (b1 <=? 191)) ||
  ((225 <=? b0) && (b0 <=? 236) && utf8_cont b1) ||
  ((b0 =? 237) && (128 <=? b1) && (b1 <=? 159)) ||
  ((238 <=? b0) && (b0 <=? 239) && utf8_cont b1).

Definition utf8_second4 (b0 b1 : Z) : bool :=
  ((b0 =? 240) && (144 <=? b1) && (b1 <=? 191)) ||
  ((241 <=? b0) && (b0 <=? 243) && utf8_cont b1) ||
  ((b0 =? 244) && (128 <=? b1) && (b1 <=? 143)).

(** [str::from_utf8], strict as the standard library's. *)
Fixpoint from_utf8 (bs : bytes) : option str :=
  match bs with
  | [] => Some []
  | b0 :: r0 =>
    if (0 <=? b0) && (b0 <? 128) then cons b0 <$> from_utf8 r0
    else match r0 with
    | [] => None
    | b1 :: r1 =>
      if (194 <=? b0) && (b0 <=? 223) && utf8_cont b1
      then cons ((b0 - 192) * 64 + (b1 - 128)) <$> from_utf8 r1
      else match r1 with
      | [] => None
      | b2 :: r2 =>
        if utf8_second3 b0 b1 && utf8_cont b2
        then cons ((b0 - 224) * 4096 + (b1 - 128) * 64 + (b2 - 128)) <$> from_utf8 r2
        else match r2 with
        | [] => None
        | b3 :: r3 =>
          if utf8_second4 b0 b1 && utf8_cont b2 && utf8_cont b3
          then cons ((b0 - 240) * 262144 + (b1 - 128) * 4096 + (b2 - 128) * 64 + (b3 - 128))
                 <$> from_utf8 r3
          else None
        end
      end
    end
  end.

(** ** Characters *)

(** [char::is_whitespace]: the Unicode White_Space property. *)
Definition is_whitespace (c : Z) : bool :=
  ((9 <=? c) && (c <=? 13)) || (c =? 32) || (c =? 133) || (c =? 160) || (c =? 5760) ||
  ((8192 <=? c) && (c <=? 8202)) || (c =? 8232) || (c =? 8233) || (c =? 8239) ||
  (c =? 8287) || (c =? 12288).

(** [u8::is_ascii_whitespace]: space, tab, line feed, form feed, return. *)
Definition is_ascii_whitespace (b : Z) : bool :=
  (b =? 32) || (b =? 9) || (b =? 10) || (b =? 12) || (b =? 13).

Definition to_ascii_lowercase (c : Z) : Z := if (65 <=? c) && (c <=? 90) then c + 32 else c.

Definition eq_ignore_ascii_case (s t : str) : bool :=
  bool_decide (to_ascii_lowercase <$> s = to_ascii_lowercase <$> t).

(** [char::to_digit]. *)
Definition to_digit (radix c : Z) : option Z :=
  let d := if (48 <=? c) && (c <=? 57) then c - 48
           else if (97 <=? c) && (c <=? 122) then c - 87
           else if (65 <=? c) && (c <=? 90) then c - 55
           else radix in
  if d <? radix then Some d else None.

(** The lower-case digit character used by the integer formatters. *)
Definition from_digit (d : Z) : Z := if d <? 10 then 48 + d else 87 + d.

(** ** Searching, splitting, trimming *)

Fixpoint trim_start (s : str) : str :=
  match s with
  | [] => []
  | c :: s' => if is_whitespace c then trim_start s' else s
  end.

Definition trim_end (s : str) : str := reverse (trim_start (reverse s)).
Definition trim (s : str) : str := trim_end (trim_start s).

(** [s.contains(c)] for a character pattern. *)
Definition contains_char (c : Z) (s : str) : bool := existsb (Z.eqb c) s.

(** [s.find(c)]; the index counts characters, which is what slicing at the
    position found amounts to for a one-byte separator. *)
Definition find_char (c : Z) (s : str) : option nat := position (Z.eqb c) s.

(** [s.strip_prefix(c)]. *)
Definition strip_prefix_char (c : Z) (s : str) : option str :=
  match s with
  | x :: s' => if x =? c then Some s' else None
  | [] => None
  end.

(** [s.split(c)]: never empty. *)
Fixpoint split_char (c : Z) (s : str) : list str :=
  match s with
  | [] => [[]]
  | x :: s' =>
    if x =? c then [] :: split_char c s'
    else match split_char c s' with
         | [] => [[x]]
         | p :: ps => (x :: p) :: ps
         end
  end.

(** [s.split_once(c)]: at the first occurrence. *)
Fixpoint split_once (c : Z) (s : str) : option (str * str) :=
  match s with
  | [] => None
  | x :: s' =>
    if x =? c then Some ([], s')
    else match split_once c s' with
         | Some (a, b) => Some (x :: a, b)
         | None => None
         end
  end.

(** [s.rsplit_once(c)]: at the last occurrence. *)
Definition rsplit_once (c : Z) (s : str) : option (str * str) :=
  match split_once c (reverse s) with
  | Some (a, b) => Some (reverse b, reverse a)
  | None => None
  end.

(** [s.split_whitespace()]: the maximal runs of non-whitespace characters. *)
Fixpoint split_whitespace_acc (acc : str) (s : str) : list str :=
  match s with
  | [] => match acc with [] => [] | _ => [reverse acc] end
  | c :: s' =>
    if is_whitespace c
    then match acc with
         | [] => split_whitespace_acc [] s'
         | _ => reverse acc :: split_whitespace_acc [] s'
         end
    else split_whitespace_acc (c :: acc) s'
  end.
Definition split_whitespace (s : str) : list str := split_whitespace_acc [] s.

(** ** Integers *)

(** [core::num::IntErrorKind], for unsigned types. *)
Inductive ParseIntError := IntEmpty | IntInvalidDigit | IntPosOverflow.

Fixpoint parse_digits (radix max : Z) (acc : Z) (s : str) : result ParseIntError Z :=
  match s with
  | [] => Ok acc
  | c :: s' =>
    match to_digit radix c with
    | None => Err IntInvalidDigit
    | Some d =>
      if max <? acc * radix then Err IntPosOverflow
      else if max <? acc * radix + d then Err IntPosOverflow
      else parse_digits radix max (acc * radix + d) s'
    end
  end.

(** [uN::from_str_radix] with [max = uN::MAX].  A leading plus sign is
    accepted; a lone sign and a leading minus sign are invalid digits. *)
Definition from_str_radix (radix max : Z) (s : str) : result ParseIntError Z :=
  match s with
  | [] => Err IntEmpty
  | c :: s' =>
    if c =? 43 (* + *)
    then match s' with [] => Err IntInvalidDigit | _ => parse_digits radix max 0 s' end
    else parse_digits radix max 0 s
  end.

Definition parse_u8 (s : str) := from_str_radix 10 (uint_max 8) s.
Definition parse_u16 (s : str) := from_str_radix 10 (uint_max 16) s.
Definition parse_usize (s : str) := from_str_radix 10 (uint_max 64) s.

(** The [Display] and [LowerHex] forms of an unsigned integer. *)
Fixpoint fmt_radix_loop (fuel : nat) (radix n : Z) (acc : str) : str :=
  match fuel with
  | O => acc
  | S fuel' =>
    if n <? radix then from_digit n :: acc
    else fmt_radix_loop fuel' radix (n / radix) (from_digit (n mod radix) :: acc)
  end.
Definition fmt_radix (radix n : Z) : str := fmt_radix_loop (S (Z.to_nat (Z.log2 n))) radix n [].
Definition fmt_u (n : Z) : str := fmt_radix 10 n.
Definition fmt_x (n : Z) : str := fmt_radix 16 n.

(** ** Sanity examples *)

Example trim_ex : trim (lit "  close	") = lit "close".
Proof. reflexivity. Qed.
Example split_ex : split_char 44 (lit "a,,b") = [lit "a"; []; lit "b"].
Proof. reflexivity. Qed.
Example split_ws_ex : split_whitespace (lit "  NTLM   abc ") = [lit "NTLM"; lit "abc"].
Proof. reflexivity. Qed.
Example rsplit_ex : rsplit_once 58 (lit "a:b:80") = Some (lit "a:b", lit "80").
Proof. reflexivity. Qed.
Example fmt_ex : fmt_u 8080 = lit "8080" /\ fmt_x 48879 = lit "beef" /\ fmt_u 0 = lit "0".
Proof. repeat split. Qed.
Example plus_ex : parse_u16 (lit "+443") = Ok 443.
Proof. reflexivity. Qed.
Example overflow_ex : parse_u16 (lit "65536") = Err IntPosOverflow.
Proof. reflexivity. Qed.
Example utf8_ex : from_utf8 [226; 130; 172] = Some [8364] /\ from_utf8 [192; 128] = None.
Proof. split; reflexivity. Qed.

(** ** Integer formatting and parsing are inverse *)

Lemma to_digit_from_digit radix d :
  2 <= radix <= 36 -> 0 <= d < radix -> to_digit radix (from_digit d) = Some d.
Proof.
  intros Hr Hd. unfold to_digit, from_digit.
  repeat (case_match; destr_bool; try lia); f_equal; lia.
Qed.

Lemma to_digit_bound radix c d : 0 < radix -> to_digit radix c = Some d -> 0 <= d < radix.
Proof.
  intros Hr. unfold to_digit. repeat (case_match; destr_bool; try lia); intros [= <-]; lia.
Qed.

Lemma fmt_radix_loop_parse fuel radix max n acc :
  2 <= radix <= 36 -> 0 <= n <= max -> n < 2 ^ Z.of_nat fuel ->
  parse_digits radix max 0 (fmt_radix_loop fuel radix n acc) = parse_digits radix max n acc.
Proof.
  intros Hr. revert n acc. induction fuel as [|fuel IH]; intros n acc Hn Hf.
  { simpl in Hf. assert (n = 0) as -> by lia. done. }
  cbn [fmt_radix_loop]. case_match; destr_bool.
  - cbn [parse_digits]. rewrite to_digit_from_digit by lia.
    replace (0 * radix) with 0 by lia. rewrite Z.add_0_l.
    rewrite !(proj2 (Z.ltb_ge _ _)) by lia. done.
  - rewrite Nat2Z.inj_succ, Z.pow_succ_r in Hf by lia.
    assert (0 <= n / radix <= n) by (split; [apply Z.div_pos|apply Z.div_le_upper_bound]; nia).
    rewrite IH; [|lia|apply Z.div_lt_upper_bound; nia].
    cbn [parse_digits]. pose proof (Z.mod_pos_bound n radix ltac:(lia)).
    rewrite to_digit_from_digit by lia.
    pose proof (Z.div_mod n radix ltac:(lia)).
    replace (n / radix * radix + n mod radix) with n by lia.
    rewrite !(proj2 (Z.ltb_ge _ _)) by lia. done.
Qed.

Lemma fmt_radix_loop_digits fuel radix n acc :
  2 <= radix <= 36 -> 0 <= n ->
  Forall (fun c => is_Some (to_digit radix c)) acc ->
  Forall (fun c => is_Some (to_digit radix c)) (fmt_radix_loop fuel radix n acc).
Proof.
  intros Hr. revert n acc. induction fuel as [|fuel IH]; intros n acc Hn Hacc; [done|].
  cbn [fmt_radix_loop]. case_match; destr_bool.
  - constructor; [|done]. rewrite to_digit_from_digit by lia. done.
  - apply IH; [apply Z.div_pos; lia|]. constructor; [|done].
    pose proof (Z.mod_pos_bound n radix ltac:(lia)).
    rewrite to_digit_from_digit by lia. done.
Qed.

Lemma fmt_radix_digits radix n :
  2 <= radix <= 36 -> 0 <= n -> Forall (fun c => is_Some (to_digit radix c)) (fmt_radix radix n).
Proof. intros. by apply fmt_radix_loop_digits. Qed.

Lemma fmt_radix_loop_length fuel radix n acc :
  (length acc <= length (fmt_radix_loop fuel radix n acc))%nat.
Proof.
  revert n acc. induction fuel as [|fuel IH]; intros n acc; simpl; [lia|].
  case_match; simpl; [lia|]. etrans; [|apply IH]. simpl. lia.
Qed.

Lemma fmt_radix_nonempty radix n : fmt_radix radix n <> [].
Proof.
  unfold fmt_radix. cbn [fmt_radix_loop]. case_match; [done|].
  intros Hnil. pose proof (fmt_radix_loop_length (Z.to_nat (Z.log2 n)) radix (n / radix)
    [from_digit (n mod radix)]) as Hl. rewrite Hnil in Hl. simpl in Hl. lia.
Qed.

Lemma fmt_radix_parse radix max n :
  2 <= radix <= 36 -> 0 <= n <= max -> parse_digits radix max 0 (fmt_radix radix n) = Ok n.
Proof.
  intros Hr Hn. unfold fmt_radix. rewrite fmt_radix_loop_parse; [done|done|done|].
  rewrite Nat2Z.inj_succ, Z2Nat.id by apply Z.log2_nonneg.
  destruct (decide (n = 0)) as [->|]; [by vm_compute|]. apply Z.log2_spec. lia.
Qed.

Lemma from_str_radix_digits radix max s :
  s <> [] -> Forall (fun c => is_Some (to_digit radix c)) s -> 2 <= radix <= 36 ->
  from_str_radix radix max s = parse_digits radix max 0 s.
Proof.
  intros Hne Hd Hr. destruct s as [|c s]; [done|]. simpl.
  case_match; [|done]. destr_bool. subst. inversion Hd as [|? ? [d Hc] ?]; subst.
  exfalso. clear -Hc Hr. unfold to_digit in Hc. simpl in Hc. case_match; destr_bool; [lia|done].
Qed.

Lemma from_str_radix_fmt radix max n :
  2 <= radix <= 36 -> 0 <= n <= max -> from_str_radix radix max (fmt_radix radix n) = Ok n.
Proof.
  intros Hr Hn. rewrite from_str_radix_digits; [by apply fmt_radix_parse|..|done].
  - apply fmt_radix_nonempty.
  - apply fmt_radix_digits; lia.
Qed.

Lemma parse_digits_bound radix max acc s n :
  0 < radix -> 0 <= acc <= max -> parse_digits radix max acc s = Ok n -> 0 <= n <= max.
Proof.
  intros Hr. revert acc. induction s as [|c s IH]; intros acc Ha; simpl; [by intros [= <-]|].
  destruct (to_digit radix c) as [d|] eqn:Hd; [|done].
  apply to_digit_bound in Hd; [|done]. repeat (case_match; [done|]). destr_bool.
  apply IH. nia.
Qed.

Lemma from_str_radix_bound radix max s n :
  0 < radix -> 0 <= max -> from_str_radix radix max s = Ok n -> 0 <= n <= max.
Proof.
  intros Hr Hm. unfold from_str_radix. destruct s as [|c s]; [done|].
  case_match; [destruct s; [done|]|]; intros H'; eapply parse_digits_bound; try eassumption; lia.
Qed.

(** ** Splitting and searching *)

Lemma contains_char_spec c s : contains_char c s = true <-> c ∈ s.
Proof.
  unfold contains_char. rewrite existsb_exists. setoid_rewrite Z.eqb_eq.
  rewrite list_elem_of_In. naive_solver.
Qed.

Lemma contains_char_false c s : contains_char c s = false <-> c ∉ s.
Proof. rewrite <-contains_char_spec. by destruct (contains_char c s); split; try done; intros []. Qed.

Lemma split_once_some c s a b : split_once c s = Some (a, b) <-> s = a ++ c :: b /\ c ∉ a.
Proof.
  revert a b. induction s as [|x s IH]; intros a b; simpl.
  { split; [done|]. intros [Heq _]. by destruct a. }
  case_match; destr_bool.
  - subst. split; [intros [= <- <-]; split; [done|set_solver]|].
    intros [Heq Hin]. destruct a as [|y a]; simplify_eq/=; [done|set_solver].
  - destruct (split_once c s) as [[a' b']|] eqn:E.
    + specialize (proj1 (IH a' b') eq_refl) as [-> Hni]. split.
      * intros [= <- <-]. split; [done|set_solver].
      * intros [Heq Hin]. destruct a as [|y a]; simplify_eq/=.
        enough (Some (a', b') = Some (a, b)) by congruence.
        apply IH. split; [done|set_solver].
    + split; [done|]. intros [Heq Hin]. destruct a as [|y a]; simplify_eq/=.
      enough (None = Some (a, b)) by done. apply IH. split; [done|set_solver].
Qed.

Lemma split_once_none c s : split_once c s = None <-> c ∉ s.
Proof.
  split.
  - intros Hn Hin. apply list_elem_of_split in Hin as (l1 & l2 & ->).
    revert Hn. induction l1 as [|x l1 IH]; simpl; [by rewrite Z.eqb_refl|].
    case_match; [done|]. destruct (split_once c (l1 ++ c :: l2)) as [[??]|]; [done|]. auto.
  - intros Hni. destruct (split_once c s) as [[a b]|] eqn:E; [|done].
    apply split_once_some in E as [-> _]. set_solver.
Qed.

Lemma rsplit_once_some c s a b : rsplit_once c s = Some (a, b) <-> s = a ++ c :: b /\ c ∉ b.
Proof.
  unfold rsplit_once. destruct (split_once c (reverse s)) as [[x y]|] eqn:E.
  - apply split_once_some in E as [Hs Hx]. apply (f_equal reverse) in Hs.
    rewrite reverse_involutive, reverse_app, reverse_cons in Hs. subst s. split.
    + intros [= <- <-]. split; [by rewrite <-app_assoc|]. by rewrite elem_of_reverse.
    + intros [Heq Hb]. apply (f_equal reverse) in Heq.
      rewrite !reverse_app, !reverse_cons in Heq. simpl in Heq.
      rewrite !reverse_involutive, <-!app_assoc in Heq. simpl in Heq.
      assert (split_once c (x ++ c :: y) = Some (x, y)) as H1 by (by apply split_once_some).
      assert (split_once c (x ++ c :: y) = Some (reverse b, reverse a)) as H2.
      { apply split_once_some. split; [exact Heq|by rewrite elem_of_reverse]. }
      rewrite H1 in H2. injection H2 as -> ->. by rewrite !reverse_involutive.
  - apply split_once_none in E. rewrite elem_of_reverse in E.
    split; [done|]. intros [-> _]. set_solver.
Qed.

Lemma find_char_some c s i : find_char c s = Some i <-> exists a b, (s = a ++ c :: b) /\ c ∉ a /\ length a = i.
Proof.
  unfold find_char. revert i. induction s as [|x s IH]; intros i; simpl.
  { split; [done|]. intros (a & b & Heq & _). by destruct a. }
  case_match; destr_bool.
  - subst x. split.
    + intros [= <-]. exists [], s. split_and!; [done|set_solver|done].
    + intros (a & b & Heq & Hni & <-). destruct a; simplify_eq/=; [done|set_solver].
  - destruct (position _ s) as [k|] eqn:E; simpl.
    + specialize (proj1 (IH k) eq_refl) as (a & b & -> & Hni & <-). split.
      * intros [= <-]. exists (x :: a), b. split_and!; [done|set_solver|done].
      * intros (a' & b' & Heq & Hni' & <-). destruct a' as [|y a']; simplify_eq/=. f_equal.
        enough (Some (length a) = Some (length a')) by congruence.
        apply IH. exists a', b'. split_and!; [done|set_solver|done].
    + split; [done|]. intros (a' & b' & Heq & Hni' & <-). destruct a' as [|y a']; simplify_eq/=.
      enough (None = Some (length a')) by done.
      apply IH. exists a', b'. split_and!; [done|set_solver|done].
Qed.

Lemma split_char_nosep c s : c ∉ s -> split_char c s = [s].
Proof.
  induction s as [|x s IH]; intros Hni; [done|]. simpl.
  rewrite not_elem_of_cons in Hni. destruct Hni as [Hne Hni].
  case_match; destr_bool; [congruence|]. by rewrite IH.
Qed.

Lemma split_char_app c a s : c ∉ a -> split_char c (a ++ c :: s) = a :: split_char c s.
Proof.
  induction a as [|x a IH]; intros Hni; simpl; [by rewrite Z.eqb_refl|].
  rewrite not_elem_of_cons in Hni. destruct Hni as [Hne Hni].
  case_match; destr_bool; [congruence|]. by rewrite IH.
Qed.

(** ** UTF-8 encodings *)

Lemma as_bytes_app s t : as_bytes (s ++ t) = as_bytes s ++ as_bytes t.
Proof. unfold as_bytes. by rewrite bind_app. Qed.

Lemma as_bytes_ascii s : Forall (fun c => c < 128) s -> as_bytes s = s.
Proof.
  induction 1 as [|c s Hc Hs IH]; [done|].
  unfold as_bytes in *. cbn [mbind list_bind]. rewrite IH. unfold encode_char.
  rewrite (proj2 (Z.ltb_lt _ _)) by done. done.
Qed.

(** ASCII bytes of an encoded string are exactly its ASCII characters. *)
Lemma encode_char_ascii c b : 0 <= c -> b ∈ encode_char c -> b < 128 -> b = c.
Proof.
  intros Hc Hin Hb. unfold encode_char in Hin.
  assert (forall x, 128 + x mod 64 < 128 -> False) as Hmod.
  { intros x ?. pose proof (Z.mod_pos_bound x 64 ltac:(lia)). lia. }
  repeat case_match; destr_bool;
    rewrite ?elem_of_cons, elem_of_nil in Hin;
    destruct_or! Hin; try done; subst; exfalso;
    try (by eapply Hmod); Z.to_euclidean_division_equations; lia.
Qed.

Lemma as_bytes_ascii_elem s b :
  Forall (fun c => 0 <= c) s -> b < 128 -> b ∈ as_bytes s -> b ∈ s.
Proof.
  intros Hs Hb Hin. unfold as_bytes in Hin. apply list_elem_of_bind in Hin as (c & Hin & Hc).
  rewrite Forall_forall in Hs. apply encode_char_ascii in Hin; [by subst| |done].
  by apply Hs.
Qed.
