(* ===== verification/RustNet.v ===== *)
(** * RustNet: the part of [std::net] that the sources of fastpx call

    IPv4 and IPv6 addresses are their 32- and 128-bit values in network
    order ([u32::from], [u128::from]); octets and segments are computed from
    them.  The textual parser follows [std::net]'s recursive-descent parser
    function by function, so that the accepted syntax is the library's. *)

From stdpp Require Import countable gmap.
From S2P Require Import Prelude RustStr.

(** ** Addresses *)

Inductive IpAddr :=
| V4 (address : Z)
| V6 (address : Z).

Inductive SocketAddr :=
| SocketV4 (ip port : Z)
| SocketV6 (ip port flowinfo scope_id : Z).

(** [SocketAddr::ip]. *)
Definition SocketAddr_ip (a : SocketAddr) : IpAddr :=
  match a with
  | SocketV4 ip _ => V4 ip
  | SocketV6 ip _ _ _ => V6 ip
  end.

Global Instance IpAddr_eq_dec : EqDecision IpAddr.
Proof. solve_decision. Defined.
Global Instance SocketAddr_eq_dec : EqDecision SocketAddr.
Proof. solve_decision. Defined.

(** [HashSet<SocketAddr>] is a [gset]: socket addresses are countable. *)
Global Program Instance SocketAddr_countable : Countable SocketAddr :=
  inj_countable'
    (fun a => match a with
              | SocketV4 ip p => inl (ip, p)
              | SocketV6 ip p f s => inr (ip, p, f, s)
              end)
    (fun t => match t with
              | inl (ip, p) => SocketV4 ip p
              | inr (ip, p, f, s) => SocketV6 ip p f s
              end) _.
Next Obligation. by intros []. Qed.

Definition is_u32 (a : Z) : Prop := 0 <= a < 2 ^ 32.
Definition is_u128 (a : Z) : Prop := 0 <= a < 2 ^ 128.

Definition ip_valid (a : IpAddr) : Prop :=
  match a with V4 x => is_u32 x | V6 x => is_u128 x end.

(** The [w]-bit group of [a] that starts [k] bits above the least significant. *)
Definition field (w k a : Z) : Z := (a / 2 ^ k) mod 2 ^ w.

(** [Ipv4Addr::octets] and [Ipv6Addr::segments], most significant first. *)
Definition octets_v4 (a : Z) : list Z := [field 8 24 a; field 8 16 a; field 8 8 a; field 8 0 a].
Definition segments_v6 (a : Z) : list Z :=
  [field 16 112 a; field 16 96 a; field 16 80 a; field 16 64 a;
   field 16 48 a; field 16 32 a; field 16 16 a; field 16 0 a].

(** Big-endian composition ([from([u8; 4])], [from([u16; 8])]). *)
Definition of_groups (w : Z) (gs : list Z) : Z := foldl (fun acc g => acc * 2 ^ w + g) 0 gs.

(** ** Address predicates *)

Definition v4_is_loopback (a : Z) : bool := field 8 24 a =? 127.

Definition v4_is_private (a : Z) : bool :=
  match octets_v4 a with
  | o0 :: o1 :: _ =>
    (o0 =? 10) || ((o0 =? 172) && (16 <=? o1) && (o1 <=? 31)) || ((o0 =? 192) && (o1 =? 168))
  | _ => false
  end.

Definition v4_is_link_local (a : Z) : bool :=
  match octets_v4 a with
  | o0 :: o1 :: _ => (o0 =? 169) && (o1 =? 254)
  | _ => false
  end.

Definition v6_is_loopback (a : Z) : bool := a =? 1.

Definition v6_is_unicast_link_local (a : Z) : bool := Z.land (field 16 112 a) 65472 =? 65152.

(** [IpAddr::is_loopback]. *)
Definition ip_is_loopback (a : IpAddr) : bool :=
  match a with V4 x => v4_is_loopback x | V6 x => v6_is_loopback x end.

(** ** The textual parser *)

Definition parser (A : Type) : Type := str -> option (A * str).

Definition read_given_char (c : Z) : parser unit := fun s =>
  match s with
  | x :: s' => if x =? c then Some (tt, s') else None
  | [] => None
  end.

(** [Parser::read_separator]: the separator is expected from index 1 on. *)
Definition read_separator {A} (sep : Z) (index : nat) (inner : parser A) : parser A := fun s =>
  match index with
  | O => inner s
  | S _ => match read_given_char sep s with
           | Some (_, s') => inner s'
           | None => None
           end
  end.

(** The digit loop of [Parser::read_number]: value, number of digits, rest. *)
Fixpoint read_digits (radix : Z) (max_digits count : nat) (acc : Z) (s : str) : option (Z * nat * str) :=
  match s with
  | [] => Some (acc, count, [])
  | c :: s' =>
    match to_digit radix c with
    | None => Some (acc, count, s)
    | Some d =>
      if (max_digits <? S count)%nat then None
      else read_digits radix max_digits (S count) (acc * radix + d) s'
    end
  end.

Definition read_number (radix : Z) (max_digits : nat) (allow_zero_prefix : bool) (max : Z) : parser Z :=
  fun s =>
  let has_leading_zero := match s with c :: _ => c =? 48 | [] => false end in
  match read_digits radix max_digits 0 0 s with
  | None => None
  | Some (n, count, rest) =>
    if (count =? 0)%nat then None
    else if negb allow_zero_prefix && has_leading_zero && (1 <? count)%nat then None
    else if n <=? max then Some (n, rest) else None
  end.

Definition read_octet : parser Z := read_number 10 3 false 255.

Definition read_ipv4_addr : parser Z := fun s =>
  '(a, s) ← read_separator 46 0 read_octet s;
  '(b, s) ← read_separator 46 1 read_octet s;
  '(c, s) ← read_separator 46 2 read_octet s;
  '(d, s) ← read_separator 46 3 read_octet s;
  Some (of_groups 8 [a; b; c; d], s).

Definition read_hextet : parser Z := read_number 16 4 true 65535.

(** [read_groups] of [Parser::read_ipv6_addr]: [n] groups are still wanted,
    [i] have been read; the flag tells that a trailing IPv4 address was read. *)
Fixpoint read_groups (n i : nat) (s : str) : list Z * bool * str :=
  match n with
  | O => ([], false, s)
  | S n' =>
    let ipv4 := match n' with
                | O => None
                | S _ => read_separator 58 i read_ipv4_addr s
                end in
    match ipv4 with
    | Some (a, s') => ([a / 2 ^ 16; a mod 2 ^ 16], true, s')
    | None =>
      match read_separator 58 i read_hextet s with
      | Some (g, s') => let '(gs, v4, s'') := read_groups n' (S i) s' in (g :: gs, v4, s'')
      | None => ([], false, s)
      end
    end
  end.

Definition read_ipv6_addr : parser Z := fun s =>
  let '(head, head_ipv4, s1) := read_groups 8 0 s in
  if (length head =? 8)%nat then Some (of_groups 16 head, s1)
  else if head_ipv4 then None
  else
    '(_, s2) ← read_given_char 58 s1;
    '(_, s3) ← read_given_char 58 s2;
    let '(tail, _, s4) := read_groups (8 - (length head + 1)) 0 s3 in
    Some (of_groups 16 (head ++ replicate (8 - length head - length tail) 0 ++ tail), s4).

Definition read_ip_addr : parser IpAddr := fun s =>
  match read_ipv4_addr s with
  | Some (a, s') => Some (V4 a, s')
  | None => match read_ipv6_addr s with
            | Some (a, s') => Some (V6 a, s')
            | None => None
            end
  end.

(** [AddrParseError]: the library reports no detail. *)
Inductive AddrParseError := AddrError.

(** [str::parse::<IpAddr>]: the whole input must be consumed. *)
Definition parse_ip_addr (s : str) : result AddrParseError IpAddr :=
  match read_ip_addr s with
  | Some (a, []) => Ok a
  | _ => Err AddrError
  end.

(** ** The textual form *)

Definition fmt_v4 (a : Z) : str :=
  fmt_u (field 8 24 a) ++ 46 :: fmt_u (field 8 16 a) ++ 46 :: fmt_u (field 8 8 a) ++ 46 ::
  fmt_u (field 8 0 a).

(** The scan for the longest run of zero segments in [Display for Ipv6Addr]. *)
Record Span := { start : nat; span_len : nat }.

Fixpoint longest_zeroes (i : nat) (segs : list Z) (longest current : Span) : Span :=
  match segs with
  | [] => longest
  | g :: segs' =>
    if g =? 0 then
      let current := {| start := if (span_len current =? 0)%nat then i else start current;
                        span_len := S (span_len current) |} in
      longest_zeroes (S i) segs'
        (if (span_len longest <? span_len current)%nat then current else longest) current
    else longest_zeroes (S i) segs' longest {| start := 0; span_len := 0 |}
  end.

(** [fmt_subslice]. *)
Fixpoint fmt_subslice (chunk : list Z) : str :=
  match chunk with
  | [] => []
  | [g] => fmt_x g
  | g :: chunk' => fmt_x g ++ 58 :: fmt_subslice chunk'
  end.

(** [Ipv6Addr::to_ipv4_mapped]: ::ffff:a.b.c.d. *)
Definition is_ipv4_mapped (a : Z) : bool := a / 2 ^ 32 =? 65535.

Definition fmt_v6 (a : Z) : str :=
  if is_ipv4_mapped a then lit "::ffff:" ++ fmt_v4 (a mod 2 ^ 32)
  else
    let segs := segments_v6 a in
    let zeroes := longest_zeroes 0 segs {| start := 0; span_len := 0 |} {| start := 0; span_len := 0 |} in
    if (1 <? span_len zeroes)%nat
    then fmt_subslice (take (start zeroes) segs) ++ lit "::" ++
         fmt_subslice (drop (start zeroes + span_len zeroes) segs)
    else fmt_subslice segs.

(** [Display for IpAddr]. *)
Definition fmt_ip (a : IpAddr) : str := match a with V4 x => fmt_v4 x | V6 x => fmt_v6 x end.

Example parse_v4_ex : parse_ip_addr (lit "10.20.30.40") = Ok (V4 169090600).
Proof. reflexivity. Qed.
Example parse_v4_bad : parse_ip_addr (lit "10.20.30.040") = Err AddrError.
Proof. reflexivity. Qed.
Example fmt_v6_ex :
  (fmt_ip <$> parse_ip_addr (lit "2001:db8:0:0:1:0:0:1")) = Ok (lit "2001:db8::1:0:0:1").
Proof. vm_compute. reflexivity. Qed.
Example fmt_v6_mapped :
  (fmt_ip <$> parse_ip_addr (lit "::ffff:192.168.0.1")) = Ok (lit "::ffff:192.168.0.1").
Proof. vm_compute. reflexivity. Qed.
Example parse_v6_short : parse_ip_addr (lit "::1") = Ok (V6 1) /\ parse_ip_addr (lit "::") = Ok (V6 0).
Proof. split; reflexivity. Qed.

(** ** Groups and addresses *)

Lemma field_bound w k a : 0 <= w -> 0 <= field w k a < 2 ^ w.
Proof. intros. apply Z.mod_pos_bound. lia. Qed.

Lemma of_groups_snoc w gs g : of_groups w (gs ++ [g]) = of_groups w gs * 2 ^ w + g.
Proof. unfold of_groups. by rewrite foldl_app. Qed.

Lemma of_groups_bound w gs :
  0 <= w -> Forall (fun g => 0 <= g < 2 ^ w) gs -> 0 <= of_groups w gs < 2 ^ (w * len gs).
Proof.
  intros Hw. induction gs as [|g gs IH] using rev_ind; intros Hgs.
  { unfold of_groups, len. simpl. rewrite Z.mul_0_r. simpl. lia. }
  apply Forall_app in Hgs as [Hgs Hg]. inversion Hg; subst. specialize (IH Hgs).
  rewrite of_groups_snoc, len_app. change (len [g]) with 1.
  replace (w * (len gs + 1)) with (w * len gs + w) by lia.
  rewrite Z.pow_add_r by (pose proof (len_nonneg gs); nia). nia.
Qed.

(** An address is the composition of its octets or segments. *)
Lemma field_step w k a : 0 <= w -> 0 <= k -> (a / 2 ^ (k + w)) * 2 ^ w + field w k a = a / 2 ^ k.
Proof.
  intros Hw Hk. unfold field. rewrite Z.pow_add_r, <-Z.div_div by lia.
  rewrite Z.mul_comm. symmetry. apply Z.div_mod. lia.
Qed.

Lemma of_groups_octets a : is_u32 a -> of_groups 8 (octets_v4 a) = a.
Proof.
  intros Ha. unfold octets_v4, of_groups, is_u32 in *. cbn [foldl].
  pose proof (field_step 8 24 a). pose proof (field_step 8 16 a).
  pose proof (field_step 8 8 a). pose proof (field_step 8 0 a).
  change (24 + 8) with 32 in *. change (16 + 8) with 24 in *.
  change (8 + 8) with 16 in *. change (0 + 8) with 8 in *.
  change (2 ^ 0) with 1 in *. rewrite Z.div_1_r in *.
  rewrite (Z.div_small a (2 ^ 32)) in * by lia. lia.
Qed.

Lemma of_groups_segments a : is_u128 a -> of_groups 16 (segments_v6 a) = a.
Proof.
  intros Ha. unfold segments_v6, of_groups, is_u128 in *. cbn [foldl].
  pose proof (field_step 16 112 a). pose proof (field_step 16 96 a).
  pose proof (field_step 16 80 a). pose proof (field_step 16 64 a).
  pose proof (field_step 16 48 a). pose proof (field_step 16 32 a).
  pose proof (field_step 16 16 a). pose proof (field_step 16 0 a).
  change (112 + 16) with 128 in *. change (96 + 16) with 112 in *.
  change (80 + 16) with 96 in *. change (64 + 16) with 80 in *.
  change (48 + 16) with 64 in *. change (32 + 16) with 48 in *.
  change (16 + 16) with 32 in *. change (0 + 16) with 16 in *.
  change (2 ^ 0) with 1 in *. rewrite Z.div_1_r in *.
  rewrite (Z.div_small a (2 ^ 128)) in * by lia. lia.
Qed.

Lemma segments_bound a : Forall (fun g => 0 <= g < 2 ^ 16) (segments_v6 a).
Proof. unfold segments_v6. repeat constructor; apply field_bound; lia. Qed.

(** ** The parser returns addresses in range *)

Lemma read_digits_nonneg radix m count acc s n k rest :
  0 < radix -> 0 <= acc -> read_digits radix m count acc s = Some (n, k, rest) -> 0 <= n.
Proof.
  intros Hr. revert count acc. induction s as [|c s IH]; intros count acc Ha; simpl.
  { by intros [= <- _ _]. }
  destruct (to_digit radix c) as [d|] eqn:Hd; [|by intros [= <- _ _]].
  apply to_digit_bound in Hd; [|done]. case_match; [done|]. apply IH. nia.
Qed.

Lemma read_number_bound radix m z max s n rest :
  0 < radix -> read_number radix m z max s = Some (n, rest) -> 0 <= n <= max.
Proof.
  intros Hr. unfold read_number. destruct (read_digits _ _ _ _ _) as [[[n' k] r]|] eqn:E; [|done].
  repeat (case_match; try done); intros [= <- <-]; destr_bool;
    apply read_digits_nonneg in E; lia.
Qed.

Lemma read_separator_some {A} sep i (inner : parser A) s r :
  read_separator sep i inner s = Some r -> exists s', inner s' = Some r /\ suffix s' s.
Proof.
  destruct i; simpl; [intros; exists s; split; [done|by exists []]|].
  unfold read_given_char. destruct s as [|x s]; [done|].
  destruct (x =? sep); [|done]. intros Hi. exists s. split; [done|]. by exists [x].
Qed.

Lemma read_ipv4_addr_valid s a rest : read_ipv4_addr s = Some (a, rest) -> is_u32 a.
Proof.
  unfold read_ipv4_addr. intros H'.
  repeat match goal with
  | H : (_ ≫= _) = Some _ |- _ => apply bind_Some in H as ([? ?] & ? & H)
  end. simplify_eq.
  repeat match goal with
  | H : read_separator _ _ _ _ = Some _ |- _ =>
    apply read_separator_some in H as (? & H & _); apply read_number_bound in H; [|lia]
  end.
  apply (of_groups_bound 8); [lia|]. repeat constructor; lia.
Qed.

Lemma read_groups_spec n i s gs v4 rest :
  read_groups n i s = (gs, v4, rest) ->
  Forall (fun g => 0 <= g < 2 ^ 16) gs /\ (length gs <= n)%nat.
Proof.
  revert i s gs v4 rest. induction n as [|n IH]; intros i s gs v4 rest; cbn [read_groups].
  { intros [= <- <- <-]. by split. }
  destruct (match n with O => None | S _ => _ end) as [[a s']|] eqn:E4.
  - intros [= <- <- <-]. destruct n; [done|].
    apply read_separator_some in E4 as (? & E4 & _). apply read_ipv4_addr_valid in E4.
    unfold is_u32 in E4. split; [|simpl; lia].
    repeat constructor; Z.to_euclidean_division_equations; lia.
  - destruct (read_separator 58 i read_hextet s) as [[g s']|] eqn:E6.
    + destruct (read_groups n (S i) s') as [[gs' v4'] s''] eqn:Er. intros [= <- <- <-].
      apply read_separator_some in E6 as (? & E6 & _). apply read_number_bound in E6; [|lia].
      apply IH in Er as [Hf Hl]. split; [constructor; [lia|done]|simpl; lia].
    + intros [= <- <- <-]. split; [done|simpl; lia].
Qed.

Lemma read_ipv6_addr_valid s a rest : read_ipv6_addr s = Some (a, rest) -> is_u128 a.
Proof.
  unfold read_ipv6_addr. destruct (read_groups 8 0 s) as [[hd h4] s1] eqn:Eh.
  apply read_groups_spec in Eh as [Hh Hl]. case_match eqn:E8.
  - intros [= <- <-]. apply Nat.eqb_eq in E8.
    pose proof (of_groups_bound 16 hd ltac:(lia) Hh) as Hb. unfold len in Hb. rewrite E8 in Hb.
    exact Hb.
  - case_match; [done|]. intros H'.
    apply bind_Some in H' as ([? s2] & _ & H'). apply bind_Some in H' as ([? s3] & _ & H').
    destruct (read_groups _ 0 s3) as [[tl ?] s4] eqn:Et. apply read_groups_spec in Et as [Ht Hlt].
    injection H' as <- <-. apply Nat.eqb_neq in E8.
    match goal with |- is_u128 (of_groups 16 ?l) =>
      pose proof (of_groups_bound 16 l ltac:(lia)) as Hb;
      assert (len l = 8) as Hlen by (unfold len; rewrite !length_app, length_replicate; lia)
    end.
    rewrite Hlen in Hb. apply Hb. repeat apply Forall_app_2; [done| |done].
    apply Forall_replicate. lia.
Qed.

Lemma parse_ip_addr_valid s a : parse_ip_addr s = Ok a -> ip_valid a.
Proof.
  unfold parse_ip_addr, read_ip_addr.
  destruct (read_ipv4_addr s) as [[a4 s4]|] eqn:E4.
  { destruct s4; [|done]. intros [= <-]. by eapply read_ipv4_addr_valid. }
  destruct (read_ipv6_addr s) as [[a6 s6]|] eqn:E6; [|done].
  destruct s6; [|done]. intros [= <-]. by eapply read_ipv6_addr_valid.
Qed.

(** ** Printing and parsing numbers inside an address *)

Definition no_digit_head (radix : Z) (s : str) : Prop :=
  match s with c :: _ => to_digit radix c = None | [] => True end.

Lemma read_digits_parse radix m max ds n rest count acc :
  parse_digits radix max acc ds = Ok n -> (count + length ds <= m)%nat ->
  no_digit_head radix rest ->
  read_digits radix m count acc (ds ++ rest) = Some (n, (count + length ds)%nat, rest).
Proof.
  intros Hp Hl Hr. revert count acc Hp Hl.
  induction ds as [|c ds IH]; intros count acc; simpl; intros Hp Hl.
  { injection Hp as ->. rewrite Nat.add_0_r. destruct rest as [|c rest]; [done|].
    simpl in *. by rewrite Hr. }
  destruct (to_digit radix c) as [d|]; [|done].
  repeat (destruct (max <? _); [done|]).
  rewrite (proj2 (Nat.ltb_ge _ _)) by lia. rewrite IH by (done || lia). by rewrite Nat.add_succ_r.
Qed.

Lemma fmt_radix_loop_length_le fuel radix n acc k :
  2 <= radix -> 0 <= n < radix ^ Z.of_nat k -> (1 <= k)%nat ->
  (length (fmt_radix_loop fuel radix n acc) <= length acc + k)%nat.
Proof.
  intros Hr. revert n acc k. induction fuel as [|fuel IH]; intros n acc k Hn Hk; simpl; [lia|].
  case_match; destr_bool; [simpl; lia|]. destruct k as [|k]; [lia|].
  rewrite Nat2Z.inj_succ, Z.pow_succ_r in Hn by lia.
  destruct k as [|k]; [simpl in Hn; lia|].
  etrans; [apply (IH _ _ (S k))|simpl; lia]; [|lia].
  split; [apply Z.div_pos; lia|apply Z.div_lt_upper_bound; lia].
Qed.

Lemma fmt_radix_length_le radix n k :
  2 <= radix -> 0 <= n < radix ^ Z.of_nat k -> (1 <= k)%nat -> (length (fmt_radix radix n) <= k)%nat.
Proof. intros. etrans; [by apply fmt_radix_loop_length_le|]. simpl. lia. Qed.

Lemma fmt_radix_loop_head fuel radix n acc :
  2 <= radix <= 36 -> 1 <= n -> n < 2 ^ Z.of_nat fuel ->
  head (fmt_radix_loop fuel radix n acc) <> Some 48.
Proof.
  intros Hr. revert n acc. induction fuel as [|fuel IH]; intros n acc Hn Hf; [simpl in Hf; lia|].
  simpl. case_match; destr_bool.
  - simpl. unfold from_digit. case_match; destr_bool; intros [=]; lia.
  - rewrite Nat2Z.inj_succ, Z.pow_succ_r in Hf by lia.
    apply IH; [apply Z.div_le_lower_bound; lia|apply Z.div_lt_upper_bound; nia].
Qed.

Lemma fmt_radix_head radix n :
  2 <= radix <= 36 -> 1 <= n -> head (fmt_radix radix n) <> Some 48.
Proof.
  intros Hr Hn. apply fmt_radix_loop_head; [done|done|].
  rewrite Nat2Z.inj_succ, Z2Nat.id by apply Z.log2_nonneg. apply Z.log2_spec. lia.
Qed.

Lemma read_number_fmt radix k z max n rest :
  2 <= radix <= 36 -> 0 <= n <= max -> n < radix ^ Z.of_nat k -> (1 <= k)%nat ->
  no_digit_head radix rest ->
  read_number radix k z max (fmt_radix radix n ++ rest) = Some (n, rest).
Proof.
  intros Hr Hn Hk Hk1 Hrest. unfold read_number.
  pose proof (fmt_radix_length_le radix n k ltac:(lia) ltac:(lia) Hk1) as Hl.
  rewrite (read_digits_parse radix k max _ n) by (done || by apply fmt_radix_parse).
  pose proof (fmt_radix_nonempty radix n) as Hne.
  destruct (fmt_radix radix n) as [|c ds] eqn:Ef; [done|]. simpl length. simpl app.
  destruct (_ && _ && _) eqn:Eb.
  - exfalso. destr_bool. subst c.
    assert (n = 0) as ->.
    { destruct (decide (n = 0)); [done|]. exfalso.
      apply (fmt_radix_head radix n); [done|lia|]. by rewrite Ef. }
    unfold fmt_radix in Ef. simpl in Ef. destruct (0 <? radix) eqn:E0; destr_bool; [|lia].
    injection Ef as <-. done.
  - simpl. rewrite (proj2 (Z.leb_le _ _)) by lia. done.
Qed.

Lemma read_octet_fmt n rest :
  0 <= n < 2 ^ 8 -> no_digit_head 10 rest -> read_octet (fmt_u n ++ rest) = Some (n, rest).
Proof. intros. apply read_number_fmt; simpl; done || lia. Qed.

Lemma read_hextet_fmt n rest :
  0 <= n < 2 ^ 16 -> no_digit_head 16 rest -> read_hextet (fmt_x n ++ rest) = Some (n, rest).
Proof. intros. apply read_number_fmt; simpl; done || lia. Qed.

(** ** IPv4 round trip *)

Lemma read_given_char_cons c s : read_given_char c (c :: s) = Some (tt, s).
Proof. unfold read_given_char. by rewrite Z.eqb_refl. Qed.

Lemma read_separator_cons {A} c i (inner : parser A) s :
  read_separator c (S i) inner (c :: s) = inner s.
Proof. unfold read_separator, read_given_char. by rewrite Z.eqb_refl. Qed.

Lemma read_ipv4_addr_fmt a rest :
  is_u32 a -> no_digit_head 10 rest -> read_ipv4_addr (fmt_v4 a ++ rest) = Some (a, rest).
Proof.
  intros Ha Hr. unfold read_ipv4_addr, fmt_v4.
  repeat (rewrite <-app_assoc; cbn [app]).
  change (read_separator 46 0 read_octet) with read_octet.
  rewrite read_octet_fmt by (done || by apply field_bound). cbn [mbind option_bind].
  do 3 (rewrite read_separator_cons, read_octet_fmt by (done || by apply field_bound);
        cbn [mbind option_bind]).
  do 2 f_equal. by apply of_groups_octets.
Qed.

(** Text without a dot holds no IPv4 address. *)
Lemma read_digits_suffix radix m c acc s n k rest :
  read_digits radix m c acc s = Some (n, k, rest) -> suffix rest s.
Proof.
  revert c acc. induction s as [|x s IH]; intros c acc; simpl.
  { intros [= _ _ <-]. by exists []. }
  destruct (to_digit radix x); [|intros [= _ _ <-]; by exists []].
  case_match; [done|]. intros [l ->]%IH. by exists (x :: l).
Qed.

Lemma read_number_suffix radix m z max s n rest :
  read_number radix m z max s = Some (n, rest) -> suffix rest s.
Proof.
  unfold read_number. destruct (read_digits _ _ _ _ _) as [[[n' k] r]|] eqn:E; [|done].
  apply read_digits_suffix in E.
  repeat (destruct (_ : bool); [done|]). by destruct (n' <=? max); [intros [= _ <-]|].
Qed.

Lemma read_ipv4_addr_dot s a rest : read_ipv4_addr s = Some (a, rest) -> 46 ∈ s.
Proof.
  unfold read_ipv4_addr. change (read_separator 46 0 read_octet) with read_octet.
  intros ([n s1] & H1 & H2)%bind_Some. apply bind_Some in H2 as ([m s2] & H2 & _).
  apply read_number_suffix in H1 as [l ->]. unfold read_separator, read_given_char in H2.
  destruct s1 as [|x s1]; [done|]. destruct (x =? 46) eqn:E; [|done].
  apply Z.eqb_eq in E as ->. set_solver.
Qed.

Lemma read_ipv4_addr_nodot s : 46 ∉ s -> read_ipv4_addr s = None.
Proof.
  intros Hni. destruct (read_ipv4_addr s) as [[a rest]|] eqn:E; [|done].
  by apply read_ipv4_addr_dot in E.
Qed.

(** ** IPv6 round trip *)

Definition colon_groups (gs : list Z) : str := gs ≫= (fun g => 58 :: fmt_x g).

Lemma fmt_subslice_cons g gs : fmt_subslice (g :: gs) = fmt_x g ++ colon_groups gs.
Proof.
  revert g. induction gs as [|g' gs IH]; intros g; [by rewrite app_nil_r|].
  change (fmt_subslice (g :: g' :: gs)) with (fmt_x g ++ 58 :: fmt_subslice (g' :: gs)).
  by rewrite (IH g').
Qed.

(** Characters of hexadecimal text are never separators. *)
Lemma fmt_x_chars g c : 0 <= g -> c ∈ fmt_x g -> is_Some (to_digit 16 c).
Proof.
  intros Hg Hin. pose proof (fmt_radix_digits 16 g ltac:(lia) Hg) as Hf.
  rewrite Forall_forall in Hf. auto.
Qed.

Lemma colon_groups_nodot gs : Forall (fun g => 0 <= g < 2 ^ 16) gs -> 46 ∉ colon_groups gs.
Proof.
  intros Hgs Hin. unfold colon_groups in Hin. apply list_elem_of_bind in Hin as (g & Hin & Hg).
  rewrite Forall_forall in Hgs. specialize (Hgs g Hg).
  apply elem_of_cons in Hin as [?|Hin]; [done|]. by apply fmt_x_chars in Hin as [? ?]; [|lia].
Qed.

(** Where a run of groups ends: at the end of input or before [::]. *)
Definition groups_end (rest : str) : Prop := rest = [] \/ exists r, rest = 58 :: 58 :: r.

Lemma colon_groups_head gs rest :
  groups_end rest -> no_digit_head 16 (colon_groups gs ++ rest).
Proof. intros [->|[r ->]]; by destruct gs. Qed.

Lemma read_groups_end n i rest : groups_end rest -> read_groups n i rest = ([], false, rest).
Proof. intros [->|[r ->]]; destruct n as [|[|n]], i; done. Qed.

Lemma read_groups_colon gs n i rest :
  Forall (fun g => 0 <= g < 2 ^ 16) gs -> (length gs <= n)%nat -> groups_end rest -> 46 ∉ rest ->
  read_groups n (S i) (colon_groups gs ++ rest) = (gs, false, rest).
Proof.
  intros Hgs. revert n i. induction Hgs as [|g gs Hg Hgs IH]; intros n i Hn He Hd.
  { by apply read_groups_end. }
  destruct n as [|n]; [simpl in Hn; lia|]. simpl in Hn.
  pose proof (colon_groups_nodot gs Hgs) as Hnd.
  assert (46 ∉ fmt_x g) as Hg'.
  { intros Hin. by apply fmt_x_chars in Hin as [? ?]; [|lia]. }
  unfold colon_groups at 1. cbn [mbind list_bind]. fold (colon_groups gs).
  cbn [app]. rewrite <-app_assoc. cbn [read_groups].
  rewrite !read_separator_cons, read_hextet_fmt by (done || by apply colon_groups_head).
  rewrite IH by (done || lia).
  destruct n; [done|]. rewrite read_ipv4_addr_nodot; [done|]. set_solver.
Qed.

Lemma read_groups_fmt gs n rest :
  Forall (fun g => 0 <= g < 2 ^ 16) gs -> (length gs <= n)%nat -> groups_end rest -> 46 ∉ rest ->
  read_groups n 0 (fmt_subslice gs ++ rest) = (gs, false, rest).
Proof.
  intros Hgs Hn He Hd. destruct gs as [|g gs]; [by apply read_groups_end|].
  destruct n as [|n]; [simpl in Hn; lia|]. simpl in Hn.
  inversion Hgs as [|? ? Hg Hgs']; subst.
  pose proof (colon_groups_nodot gs Hgs') as Hnd.
  assert (46 ∉ fmt_x g) as Hg'.
  { intros Hin. by apply fmt_x_chars in Hin as [? ?]; [|lia]. }
  rewrite fmt_subslice_cons, <-app_assoc. cbn [read_groups read_separator].
  rewrite read_hextet_fmt by (done || by apply colon_groups_head).
  rewrite read_groups_colon by (done || lia).
  destruct n; [done|]. rewrite read_ipv4_addr_nodot; [done|]. set_solver.
Qed.

(** A span covers zero segments of the part of the address already scanned. *)
Definition zero_span (pre : list Z) (z : Span) : Prop :=
  (start z + span_len z <= length pre)%nat /\
  take (span_len z) (drop (start z) pre) = replicate (span_len z) 0.

Lemma zero_span_extend pre z k : zero_span pre z -> zero_span (pre ++ k) z.
Proof.
  intros [Hb Hz]. split; [rewrite length_app; lia|].
  rewrite drop_app_le by lia. rewrite take_app_le; [done|]. rewrite length_drop. lia.
Qed.

Lemma longest_zeroes_spec segs pre longest current :
  zero_span pre longest -> zero_span pre current ->
  (span_len current <> 0 -> start current + span_len current = length pre)%nat ->
  zero_span (pre ++ segs) (longest_zeroes (length pre) segs longest current).
Proof.
  revert pre longest current. induction segs as [|g segs IH]; intros pre longest current Hl Hc Hend.
  { by rewrite app_nil_r. }
  simpl. replace (pre ++ g :: segs) with ((pre ++ [g]) ++ segs) by (by rewrite <-app_assoc).
  replace (S (length pre)) with (length (pre ++ [g])) by (rewrite length_app; simpl; lia).
  destruct (g =? 0) eqn:Eg; destr_bool.
  - subst g. set (cur := {| start := _; span_len := _ |}).
    assert (zero_span (pre ++ [0]) cur /\ (start cur + span_len cur)%nat = length (pre ++ [0]))
      as [Hcur Hcend].
    { subst cur. unfold zero_span. simpl. rewrite length_app. simpl.
      destruct (span_len current =? 0)%nat eqn:E0.
      - apply Nat.eqb_eq in E0. rewrite E0. split; [|lia]. split; [lia|].
        by rewrite drop_app_length.
      - apply Nat.eqb_neq in E0. specialize (Hend E0). destruct Hc as [Hb Hz].
        split; [|lia]. split; [lia|].
        rewrite drop_app_le by lia.
        assert (length (drop (start current) pre) = span_len current) as Hd
          by (rewrite length_drop; lia).
        rewrite take_ge in Hz by lia. rewrite Hz.
        rewrite take_ge by (rewrite length_app, length_replicate; simpl; lia).
        by rewrite <-replicate_S_end. }
    apply IH; [|done|done]. destruct (_ <? _)%nat; [done|by apply zero_span_extend].
  - apply IH; [by apply zero_span_extend| |simpl; lia]. split; [simpl; lia|done].
Qed.

(** The address text parses back to the address. *)
Lemma zero_span_split segs z :
  zero_span segs z ->
  segs = take (start z) segs ++ replicate (span_len z) 0 ++ drop (start z + span_len z) segs.
Proof.
  intros [Hb Hz]. rewrite <-Hz, <-drop_drop, take_drop, take_drop. done.
Qed.

Lemma fmt_subslice_nodot gs : Forall (fun g => 0 <= g < 2 ^ 16) gs -> 46 ∉ fmt_subslice gs.
Proof.
  intros Hgs. destruct gs as [|g gs]; [set_solver|]. inversion Hgs; subst.
  rewrite fmt_subslice_cons. intros [Hin|Hin]%elem_of_app.
  - by apply fmt_x_chars in Hin as [? ?]; [|lia].
  - by apply colon_groups_nodot in Hin.
Qed.

Lemma read_ipv6_addr_compressed hd tl :
  Forall (fun g => 0 <= g < 2 ^ 16) hd -> Forall (fun g => 0 <= g < 2 ^ 16) tl ->
  (length hd + length tl <= 6)%nat ->
  read_ipv6_addr (fmt_subslice hd ++ lit "::" ++ fmt_subslice tl) =
    Some (of_groups 16 (hd ++ replicate (8 - length hd - length tl) 0 ++ tl), []).
Proof.
  intros Hh Ht Hl. unfold read_ipv6_addr. change (lit "::") with [58; 58]. cbn [app].
  rewrite read_groups_fmt; [|done|lia|right; eauto|].
  2:{ pose proof (fmt_subslice_nodot tl Ht). set_solver. }
  rewrite (proj2 (Nat.eqb_neq _ _)) by lia.
  rewrite read_given_char_cons. cbn [mbind option_bind].
  rewrite read_given_char_cons. cbn [mbind option_bind].
  pose proof (read_groups_fmt tl (8 - (length hd + 1)) []) as Hr.
  rewrite app_nil_r in Hr. rewrite Hr; [done|done|lia|by left|set_solver].
Qed.

Lemma read_ipv6_addr_mapped b :
  is_u32 b -> read_ipv6_addr (lit "::ffff:" ++ fmt_v4 b) = Some (65535 * 2 ^ 32 + b, []).
Proof.
  intros Hb. change (lit "::ffff:") with ([58; 58] ++ fmt_x 65535 ++ [58]).
  rewrite <-!app_assoc. cbn [app]. unfold read_ipv6_addr.
  rewrite read_groups_end by (right; eauto). cbn [length Nat.eqb].
  rewrite read_given_char_cons. cbn [mbind option_bind].
  rewrite read_given_char_cons. cbn [mbind option_bind].
  cbn [Nat.sub Nat.add]. set (text := fmt_x 65535 ++ 58 :: fmt_v4 b).
  assert (read_groups 7 0 text = ([65535; b / 2 ^ 16; b mod 2 ^ 16], true, [])) as ->.
  { cbn [read_groups]. change (read_separator 58 0 read_ipv4_addr) with read_ipv4_addr.
    change (read_separator 58 0 read_hextet) with read_hextet.
    assert (read_ipv4_addr text = None) as -> by reflexivity.
    subst text. rewrite read_hextet_fmt by (done || lia). rewrite read_separator_cons.
    pose proof (read_ipv4_addr_fmt b []) as Hr. rewrite app_nil_r in Hr. by rewrite Hr. }
  cbn [length replicate Nat.sub app]. do 2 f_equal. unfold of_groups. cbn [foldl].
  pose proof (Z.div_mod b (2 ^ 16)). lia.
Qed.

Lemma fmt_v6_parse a : is_u128 a -> read_ipv6_addr (fmt_v6 a) = Some (a, []).
Proof.
  intros Ha. unfold fmt_v6, is_ipv4_mapped. destruct (a / 2 ^ 32 =? 65535) eqn:Em; destr_bool.
  { rewrite read_ipv6_addr_mapped by (apply Z.mod_pos_bound; lia). do 2 f_equal.
    pose proof (Z.div_mod a (2 ^ 32)). lia. }
  pose proof (segments_bound a) as Hs.
  pose proof (longest_zeroes_spec (segments_v6 a) [] {| start := 0; span_len := 0 |}
    {| start := 0; span_len := 0 |}) as Hz.
  cbn [length app] in Hz.
  set (z := longest_zeroes _ _ _ _) in *.
  destruct (1 <? span_len z)%nat eqn:E1.
  - assert (zero_span (segments_v6 a) z) as Hzs by (apply Hz; done || split; simpl; done || lia).
    pose proof (zero_span_split _ _ Hzs) as Hsplit. destruct Hzs as [Hb _].
    apply Nat.ltb_lt in E1. change (length (segments_v6 a)) with 8%nat in Hb.
    rewrite read_ipv6_addr_compressed.
    + do 2 f_equal. transitivity (of_groups 16 (segments_v6 a)); [|by apply of_groups_segments].
      f_equal. rewrite Hsplit at 5. do 3 f_equal. rewrite length_take, length_drop.
      change (length (segments_v6 a)) with 8%nat. lia.
    + by apply Forall_take.
    + by apply Forall_drop.
    + rewrite length_take, length_drop. change (length (segments_v6 a)) with 8%nat. lia.
  - unfold read_ipv6_addr.
    pose proof (read_groups_fmt (segments_v6 a) 8 []) as Hr. rewrite app_nil_r in Hr.
    rewrite Hr; [|done|done|by left|set_solver].
    change (length (segments_v6 a) =? 8)%nat with true. cbn beta iota.
    do 2 f_equal. by apply of_groups_segments.
Qed.

Lemma read_ipv4_addr_fmt_v6 a : read_ipv4_addr (fmt_v6 a) = None.
Proof.
  unfold fmt_v6. case_match; [done|]. pose proof (segments_bound a) as Hs.
  apply read_ipv4_addr_nodot. case_match; [|by apply fmt_subslice_nodot].
  set (z := longest_zeroes _ _ _ _).
  pose proof (fmt_subslice_nodot (take (start z) (segments_v6 a)) ltac:(by apply Forall_take)).
  pose proof (fmt_subslice_nodot (drop (start z + span_len z) (segments_v6 a))
    ltac:(by apply Forall_drop)).
  change (lit "::") with [58; 58]. set_solver.
Qed.

Lemma parse_fmt_ip a : ip_valid a -> parse_ip_addr (fmt_ip a) = Ok a.
Proof.
  intros Ha. unfold parse_ip_addr, read_ip_addr. destruct a as [x|x]; simpl in *.
  - pose proof (read_ipv4_addr_fmt x []) as Hr. rewrite app_nil_r in Hr. by rewrite Hr.
  - by rewrite read_ipv4_addr_fmt_v6, fmt_v6_parse.
Qed.

(** Address text never contains the slash that ends it in a CIDR. *)
Lemma fmt_u_chars n c : 0 <= n -> c ∈ fmt_u n -> is_Some (to_digit 10 c).
Proof.
  intros Hn Hin. pose proof (fmt_radix_digits 10 n ltac:(lia) Hn) as Hf.
  rewrite Forall_forall in Hf. auto.
Qed.

Lemma fmt_v4_noslash a : 47 ∉ fmt_v4 a.
Proof.
  unfold fmt_v4. rewrite !elem_of_app, !elem_of_cons, !elem_of_app, !elem_of_cons, !elem_of_app, !elem_of_cons.
  assert (forall k, 47 ∉ fmt_u (field 8 k a)) as Hn.
  { intros k Hin. apply fmt_u_chars in Hin as [? ?]; [done|]. by apply field_bound. }
  intros H'. destruct_or! H'; try done; by eapply Hn.
Qed.

Lemma fmt_subslice_noslash gs : Forall (fun g => 0 <= g < 2 ^ 16) gs -> 47 ∉ fmt_subslice gs.
Proof.
  intros Hgs. destruct gs as [|g gs]; [set_solver|]. rewrite fmt_subslice_cons.
  inversion Hgs as [|? ? Hg Hgs']; subst. intros [Hin|Hin]%elem_of_app.
  { by apply fmt_x_chars in Hin as [? ?]; [|lia]. }
  unfold colon_groups in Hin. apply list_elem_of_bind in Hin as (g' & Hin & Hg').
  rewrite Forall_forall in Hgs'. specialize (Hgs' g' Hg').
  apply elem_of_cons in Hin as [?|Hin]; [done|]. by apply fmt_x_chars in Hin as [? ?]; [|lia].
Qed.

Lemma fmt_ip_noslash a : 47 ∉ fmt_ip a.
Proof.
  destruct a as [x|x]; [apply fmt_v4_noslash|]. simpl. unfold fmt_v6.
  pose proof (segments_bound x) as Hs. repeat case_match.
  - pose proof (fmt_v4_noslash (x mod 2 ^ 32)). change (lit "::ffff:") with [58;58;102;102;102;102;58].
    set_solver.
  - set (z := longest_zeroes _ _ _ _).
    pose proof (fmt_subslice_noslash (take (start z) (segments_v6 x)) ltac:(by apply Forall_take)).
    pose proof (fmt_subslice_noslash (drop (start z + span_len z) (segments_v6 x))
      ltac:(by apply Forall_drop)).
    change (lit "::") with [58; 58]. set_solver.
  - by apply fmt_subslice_noslash.
Qed.
