(* ===== verification/Config.v ===== *)
(** * Config: src/config.rs

    The configuration data of the proxy ([AuthMode], [RoutingMode],
    [ProxyConfig]), CIDR networks with their parser, printer and membership
    test, and the [host:port] endpoints with their parser and printer. *)

From S2P Require Import Prelude RustStr RustNet.

(** ** Data *)

Inductive AuthMode := AuthAuto | AuthNegotiate | AuthNtlm | AuthNone.

Inductive RoutingMode := RoutingAuto | RoutingProxyOnly.

Global Instance AuthMode_eq_dec : EqDecision AuthMode.
Proof. solve_decision. Defined.
Global Instance RoutingMode_eq_dec : EqDecision RoutingMode.
Proof. solve_decision. Defined.

Record IpCidr := { network : IpAddr; prefix : Z }.

Inductive IpCidrParseError :=
| MissingPrefix
| InvalidAddress (e : AddrParseError)
| InvalidPrefix (e : ParseIntError)
| PrefixTooLong (max : Z).

Record Endpoint := { endpoint_host : str; endpoint_port : Z }.

Inductive EndpointParseError :=
| Empty
| EmptyHost
| InvalidHost
| MissingPort
| UnbracketedIpv6
| InvalidIpv6
| ZeroPort
| InvalidPort (e : ParseIntError).

(** Durations are whole seconds, the only unit the command line can set. *)
Record ProxyConfig := {
  listen : SocketAddr;
  upstream : Endpoint;
  auth : AuthMode;
  routing : RoutingMode;
  direct_cidrs : list IpCidr;
  dns_timeout : Z;
  connect_timeout : Z;
  idle_timeout : option Z;
  max_header_bytes : Z;
  max_connections : Z;
}.

Global Instance IpCidr_eq_dec : EqDecision IpCidr.
Proof. solve_decision. Defined.
Global Instance Endpoint_eq_dec : EqDecision Endpoint.
Proof. solve_decision. Defined.

(** ** CIDR networks *)

(** The mask is computed in [u32]; the shift amount [32 - prefix] in [u8]. *)
Definition mask_v4 (address prefix : Z) : Z :=
  let mask := if prefix =? 0 then 0 else uint_shl 32 (uint_max 32) (uint_sub 8 32 prefix) in
  Z.land address mask.

Definition mask_v6 (address prefix : Z) : Z :=
  let mask := if prefix =? 0 then 0 else uint_shl 128 (uint_max 128) (uint_sub 8 128 prefix) in
  Z.land address mask.

Definition IpCidr_contains (self : IpCidr) (address : IpAddr) : bool :=
  match network self, address with
  | V4 net, V4 a => mask_v4 a (prefix self) =? net
  | V6 net, V6 a => mask_v6 a (prefix self) =? net
  | _, _ => false
  end.

Definition IpCidr_fmt (self : IpCidr) : str := fmt_ip (network self) ++ lit "/" ++ fmt_u (prefix self).

Definition IpCidr_from_str (input : str) : result IpCidrParseError IpCidr :=
  '(address, pfx) ← ok_or MissingPrefix (split_once 47 input);
  address ← map_err InvalidAddress (parse_ip_addr address);
  pfx ← map_err InvalidPrefix (parse_u8 pfx);
  net ← match address with
        | V4 a => if pfx <=? 32 then Ok (V4 (mask_v4 a pfx)) else Err (PrefixTooLong 32)
        | V6 a => if pfx <=? 128 then Ok (V6 (mask_v6 a pfx)) else Err (PrefixTooLong 128)
        end;
  Ok {| network := net; prefix := pfx |}.

(** ** Endpoints *)

Definition Endpoint_new (host : str) (port : Z) : Endpoint :=
  {| endpoint_host := host; endpoint_port := port |}.

Definition Endpoint_fmt (self : Endpoint) : str :=
  if contains_char 58 (endpoint_host self)
  then lit "[" ++ endpoint_host self ++ lit "]:" ++ fmt_u (endpoint_port self)
  else endpoint_host self ++ lit ":" ++ fmt_u (endpoint_port self).

(** The bytes refused in a host: ASCII white space and [/], [@], CR, LF. *)
Definition invalid_host_byte (byte : Z) : bool :=
  is_ascii_whitespace byte || (byte =? 47) || (byte =? 64) || (byte =? 13) || (byte =? 10).

(** The split of the authority into host and port texts. *)
Definition Endpoint_split (input : str) : result EndpointParseError (str * str) :=
  match strip_prefix_char 91 input with
  | Some bracketed =>
    closing ← ok_or InvalidIpv6 (find_char 93 bracketed);
    let host := take closing bracketed in
    let suffix := drop (closing + 1) bracketed in
    port ← ok_or MissingPort (strip_prefix_char 58 suffix);
    Ok (host, port)
  | None =>
    '(host, port) ← ok_or MissingPort (rsplit_once 58 input);
    if contains_char 58 host then Err UnbracketedIpv6 else Ok (host, port)
  end.

Definition Endpoint_from_str (input : str) : result EndpointParseError Endpoint :=
  if bool_decide (input = []) then Err Empty else
  '(host, port) ← Endpoint_split input;
  if bool_decide (host = []) then Err EmptyHost else
  if existsb invalid_host_byte (as_bytes host) then Err InvalidHost else
  port ← map_err InvalidPort (parse_u16 port);
  if port =? 0 then Err ZeroPort else
  Ok (Endpoint_new host port).

(** The [Display] forms that thiserror derives for the parse errors. *)
Definition ParseIntError_fmt (e : ParseIntError) : str :=
  match e with
  | IntEmpty => lit "cannot parse integer from empty string"
  | IntInvalidDigit => lit "invalid digit found in string"
  | IntPosOverflow => lit "number too large to fit in target type"
  end.

Definition EndpointParseError_fmt (e : EndpointParseError) : str :=
  match e with
  | Empty => lit "endpoint is empty"
  | EmptyHost => lit "endpoint host is empty"
  | InvalidHost => lit "endpoint host contains invalid characters"
  | MissingPort => lit "endpoint is missing a port"
  | UnbracketedIpv6 => lit "IPv6 addresses must be enclosed in brackets"
  | InvalidIpv6 => lit "invalid bracketed IPv6 endpoint"
  | ZeroPort => lit "port must not be zero"
  | InvalidPort e => lit "invalid port: " ++ ParseIntError_fmt e
  end.

(** ** Specifications *)

(** The width of an address family and the addresses it ranges over. *)
Definition width (a : IpAddr) : Z := match a with V4 _ => 32 | V6 _ => 128 end.
Definition ip_bits (a : IpAddr) : Z := match a with V4 x => x | V6 x => x end.

(** Two addresses of one family agree on their first [p] bits. *)
Definition same_prefix (p : Z) (a b : IpAddr) : Prop :=
  width a = width b /\ ip_bits a / 2 ^ (width a - p) = ip_bits b / 2 ^ (width a - p).

(** The invariant of an [IpCidr]: its fields are private, so every value
    comes from [from_str].  The prefix fits the family and the host bits of
    the network address are zero. *)
Definition cidr_wf (c : IpCidr) : Prop :=
  ip_valid (network c) /\ 0 <= prefix c <= width (network c) /\
  ip_bits (network c) mod 2 ^ (width (network c) - prefix c) = 0.

(** The invariant every parsed [Endpoint] has. *)
Definition endpoint_wf (e : Endpoint) : Prop :=
  endpoint_host e <> [] /\
  existsb invalid_host_byte (as_bytes (endpoint_host e)) = false /\
  1 <= endpoint_port e <= 65535 /\
  (58 ∈ endpoint_host e -> 93 ∉ endpoint_host e).

(** A host whose printed form is read back as it was: a host without a colon
    is printed without brackets, so it must not start with one. *)
Definition host_printable (h : str) : Prop := 58 ∈ h \/ head h <> Some 91.

(** ** Masks *)

Lemma mask_land w k a :
  0 <= k <= w -> 0 <= a < 2 ^ w ->
  Z.land a (wrap w (Z.shiftl (uint_max w) k)) = (a / 2 ^ k) * 2 ^ k.
Proof.
  intros Hk Ha. rewrite <-Z.shiftr_div_pow2, <-Z.shiftl_mul_pow2 by lia.
  apply Z.bits_inj'. intros i Hi.
  assert (uint_max w = Z.ones w) as -> by (unfold uint_max; rewrite Z.ones_equiv; lia).
  rewrite Z.land_spec, wrap_testbit, !Z.shiftl_spec by lia.
  destruct (decide (i < k)) as [Hlt|Hge].
  { rewrite !(Z.testbit_neg_r _ (i - k)) by lia. by rewrite !andb_false_r. }
  rewrite Z.shiftr_spec, Z.testbit_ones_nonneg by lia.
  replace (i - k + k) with i by lia.
  destruct (decide (i < w)) as [Hw|Hw].
  - rewrite bool_decide_eq_true_2 by done. simpl.
    rewrite (proj2 (Z.ltb_lt _ _)) by lia. by rewrite andb_true_r.
  - by rewrite (testbit_high w a i) by lia.
Qed.

(** The shift amounts of the code never wrap for a prefix of the family. *)
Lemma mask_shift w p : 0 < p <= w -> w <= 255 -> uint_sub 8 w p mod w = w - p.
Proof.
  intros Hp Hw. unfold uint_sub. rewrite wrap_small by (simpl; lia). apply Z.mod_small. lia.
Qed.

Lemma mask_v4_spec a p : is_u32 a -> 0 <= p <= 32 -> mask_v4 a p = (a / 2 ^ (32 - p)) * 2 ^ (32 - p).
Proof.
  unfold is_u32. intros Ha Hp. unfold mask_v4. case_match; destr_bool.
  - subst p. rewrite Z.land_0_r, Z.div_small by lia. done.
  - unfold uint_shl. rewrite mask_shift by lia. apply mask_land; lia.
Qed.

Lemma mask_v6_spec a p : is_u128 a -> 0 <= p <= 128 -> mask_v6 a p = (a / 2 ^ (128 - p)) * 2 ^ (128 - p).
Proof.
  unfold is_u128. intros Ha Hp. unfold mask_v6. case_match; destr_bool.
  - subst p. rewrite Z.land_0_r, Z.div_small by lia. done.
  - unfold uint_shl. rewrite mask_shift by lia. apply mask_land; lia.
Qed.

Lemma div_mul_bound a k w : 0 <= k <= w -> 0 <= a < 2 ^ w -> 0 <= a / 2 ^ k * 2 ^ k < 2 ^ w.
Proof.
  intros Hk Ha. pose proof (Z.div_mod a (2 ^ k) ltac:(lia)).
  pose proof (Z.mod_pos_bound a (2 ^ k) ltac:(lia)).
  pose proof (Z.div_pos a (2 ^ k) ltac:(lia) ltac:(lia)). nia.
Qed.

(** A network equals the masked address exactly when the prefixes agree. *)
Lemma masked_eq k net a :
  0 <= k -> net mod 2 ^ k = 0 -> (a / 2 ^ k) * 2 ^ k = net <-> net / 2 ^ k = a / 2 ^ k.
Proof.
  intros Hk Hm. pose proof (Z.div_mod net (2 ^ k) ltac:(lia)) as Hd. rewrite Hm in Hd. split.
  - intros <-. by rewrite Z.div_mul by lia.
  - intros <-. lia.
Qed.

Lemma IpCidr_contains_prefix c x :
  cidr_wf c -> ip_valid x -> IpCidr_contains c x = true <-> same_prefix (prefix c) (network c) x.
Proof.
  intros (Hv & Hp & Hm) Hx. unfold IpCidr_contains, same_prefix.
  destruct (network c) as [net|net], x as [a|a]; simpl in *; try (split; [done|lia]).
  - rewrite Z.eqb_eq, mask_v4_spec, masked_eq by (done || lia). tauto.
  - rewrite Z.eqb_eq, mask_v6_spec, masked_eq by (done || lia). tauto.
Qed.

(** Inversion of a successful parse. *)
Lemma IpCidr_from_str_ok s c :
  IpCidr_from_str s = Ok c ->
  exists at_ pt a, s = at_ ++ 47 :: pt /\ 47 ∉ at_ /\ parse_ip_addr at_ = Ok a /\
    parse_u8 pt = Ok (prefix c) /\ 0 <= prefix c <= width a /\
    network c = match a with
                | V4 x => V4 (mask_v4 x (prefix c))
                | V6 x => V6 (mask_v6 x (prefix c))
                end.
Proof.
  unfold IpCidr_from_str. destruct (split_once 47 s) as [[at_ pt]|] eqn:Es; [|done]. simpl.
  apply split_once_some in Es as [-> Hni].
  destruct (parse_ip_addr at_) as [a|] eqn:Ea; [|done]. simpl.
  destruct (parse_u8 pt) as [p|] eqn:Ep; [|done]. simpl.
  assert (0 <= p) by (apply from_str_radix_bound in Ep; unfold uint_max; lia).
  destruct a as [x|x]; case_match; try done; simpl; intros [= <-]; destr_bool;
    exists at_, pt; eexists; split_and!; done || simpl; lia.
Qed.

Lemma IpCidr_from_str_wf_aux s c : IpCidr_from_str s = Ok c -> cidr_wf c.
Proof.
  intros (at_ & pt & a & _ & _ & Ha & _ & Hp & Hn)%IpCidr_from_str_ok.
  apply parse_ip_addr_valid in Ha. unfold cidr_wf. rewrite Hn.
  destruct a as [x|x]; simpl in *; rewrite ?mask_v4_spec, ?mask_v6_spec by (done || lia);
    (split; [apply div_mul_bound; unfold is_u32, is_u128 in *; lia|]); (split; [lia|]);
    apply Z.mod_mul; lia.
Qed.

(** ** Properties of CIDR networks *)

(** C32: A parsed network contains exactly the addresses of its family that agree with the written address on the first prefix bits. *)
Theorem cidr_contains_same_prefix s c x :
  IpCidr_from_str s = Ok c -> ip_valid x ->
  exists address_text prefix_text a,
    s = address_text ++ lit "/" ++ prefix_text /\
    parse_ip_addr address_text = Ok a /\ parse_u8 prefix_text = Ok (prefix c) /\
    (IpCidr_contains c x = true <-> same_prefix (prefix c) a x).
Proof.
  intros Hs Hx. pose proof (IpCidr_from_str_wf_aux _ _ Hs) as Hwf.
  apply IpCidr_from_str_ok in Hs as (at_ & pt & a & -> & _ & Ha & Hpt & Hp & Hn).
  exists at_, pt, a. split_and!; [done..|].
  rewrite IpCidr_contains_prefix by done. rewrite Hn. apply parse_ip_addr_valid in Ha.
  unfold same_prefix. destruct a as [y|y], x as [z|z]; simpl in *; try lia;
    rewrite ?mask_v4_spec, ?mask_v6_spec, Z.div_mul by (done || lia); done.
Qed.

Lemma cidr_contains_same_prefix_witness :
  exists c, IpCidr_from_str (lit "10.20.30.40/12") = Ok c /\
  exists address_text prefix_text a,
    lit "10.20.30.40/12" = address_text ++ lit "/" ++ prefix_text /\
    parse_ip_addr address_text = Ok a /\ parse_u8 prefix_text = Ok (prefix c) /\
    (IpCidr_contains c (V4 169869311) = true <-> same_prefix (prefix c) a (V4 169869311)).
Proof.
  eexists. split; [vm_compute; reflexivity|].
  apply (cidr_contains_same_prefix (lit "10.20.30.40/12")); [vm_compute; reflexivity|].
  simpl. unfold is_u32. lia.
Defined.

(** Every parsed network satisfies the CIDR invariant (prefix within the family, host bits zero), and the shift amount its mask is computed with neither underflows in u8 nor reaches the width of the shifted integer. *)
Theorem cidr_from_str_wf s c :
  IpCidr_from_str s = Ok c ->
  cidr_wf c /\
  (prefix c <> 0 ->
   uint_sub 8 (width (network c)) (prefix c) = width (network c) - prefix c /\
   0 <= width (network c) - prefix c < width (network c)).
Proof.
  intros Hs. pose proof (IpCidr_from_str_wf_aux _ _ Hs) as Hwf. split; [done|].
  intros Hp. destruct Hwf as (_ & Hb & _). unfold uint_sub.
  destruct (network c); simpl in *; rewrite wrap_small by (simpl; lia); lia.
Qed.

Lemma cidr_from_str_wf_witness :
  exists c, IpCidr_from_str (lit "fd12:3456::abcd/48") = Ok c /\ cidr_wf c.
Proof.
  eexists. split; [vm_compute; reflexivity|].
  apply (cidr_from_str_wf (lit "fd12:3456::abcd/48")). vm_compute. reflexivity.
Defined.

Lemma mask_fixpoint c :
  cidr_wf c ->
  network c = match network c with
              | V4 a => V4 (mask_v4 a (prefix c))
              | V6 a => V6 (mask_v6 a (prefix c))
              end.
Proof.
  intros (Hv & Hp & Hm). destruct (network c) as [a|a] eqn:E; simpl in *; f_equal;
    rewrite ?mask_v4_spec, ?mask_v6_spec by (done || lia); symmetry; apply masked_eq; done || lia.
Qed.

(** C33: Printing a network and parsing the text gives the network back, for IPv4 and IPv6. *)
Theorem cidr_display_roundtrip c : cidr_wf c -> IpCidr_from_str (IpCidr_fmt c) = Ok c.
Proof.
  intros Hwf. pose proof (mask_fixpoint c Hwf) as Hfix. destruct Hwf as (Hv & Hp & Hm).
  assert (0 <= prefix c <= 255) by (destruct (network c); simpl in Hp; lia).
  unfold IpCidr_from_str, IpCidr_fmt.
  assert (split_once 47 (fmt_ip (network c) ++ lit "/" ++ fmt_u (prefix c)) =
    Some (fmt_ip (network c), fmt_u (prefix c))) as ->.
  { apply split_once_some. split; [done|]. apply fmt_ip_noslash. }
  simpl. rewrite parse_fmt_ip by done. simpl.
  unfold parse_u8, fmt_u. rewrite from_str_radix_fmt by (unfold uint_max; lia). simpl.
  destruct c as [[a|a] p]; simpl in *; rewrite (proj2 (Z.leb_le _ _)) by lia; simpl;
    by rewrite <-Hfix.
Qed.

Lemma cidr_display_roundtrip_witness :
  cidr_wf {| network := V6 (64786 * 2 ^ 112 + 13398 * 2 ^ 96); prefix := 48 |} /\
  IpCidr_from_str (IpCidr_fmt {| network := V6 (64786 * 2 ^ 112 + 13398 * 2 ^ 96); prefix := 48 |}) =
    Ok {| network := V6 (64786 * 2 ^ 112 + 13398 * 2 ^ 96); prefix := 48 |}.
Proof.
  assert (cidr_wf {| network := V6 (64786 * 2 ^ 112 + 13398 * 2 ^ 96); prefix := 48 |}) as H.
  { split; [|split]; [vm_compute; split; congruence|simpl; lia|vm_compute; reflexivity]. }
  split; [exact H|]. apply cidr_display_roundtrip. exact H.
Defined.

(** A CIDR text is refused with PrefixTooLong exactly when its two halves parse and the prefix exceeds the family's width. *)
Theorem cidr_prefix_too_long s m :
  IpCidr_from_str s = Err (PrefixTooLong m) <->
  exists address_text prefix_text a p,
    s = address_text ++ lit "/" ++ prefix_text /\ 47 ∉ address_text /\
    parse_ip_addr address_text = Ok a /\ parse_u8 prefix_text = Ok p /\
    m = width a /\ m < p.
Proof.
  unfold IpCidr_from_str. split.
  - destruct (split_once 47 s) as [[at_ pt]|] eqn:Es; [|done]. simpl.
    apply split_once_some in Es as [-> Hni].
    destruct (parse_ip_addr at_) as [a|] eqn:Ea; [|done]. simpl.
    destruct (parse_u8 pt) as [p|] eqn:Ep; [|done]. simpl. intros H'.
    exists at_, pt, a, p.
    destruct a; case_match; simpl in H'; simplify_eq; destr_bool; split_and!; done || (simpl; lia).
  - intros (at_ & pt & a & p & -> & Hni & Ha & Hp & -> & Hlt).
    rewrite (proj2 (split_once_some 47 _ at_ pt)) by done. simpl. rewrite Ha. simpl. rewrite Hp. simpl.
    destruct a; simpl in *; rewrite (proj2 (Z.leb_gt _ _)) by done; done.
Qed.

(** ** Properties of endpoints *)

Lemma Endpoint_split_ok s h p :
  Endpoint_split s = Ok (h, p) ->
  (s = lit "[" ++ h ++ lit "]:" ++ p /\ 93 ∉ h) \/
  (s = h ++ lit ":" ++ p /\ 58 ∉ h /\ head s <> Some 91).
Proof.
  unfold Endpoint_split. destruct (strip_prefix_char 91 s) as [b|] eqn:Eb.
  - destruct s as [|x s]; [done|]. simpl in Eb. destruct (x =? 91) eqn:Ex; [|done].
    destr_bool. simplify_eq. destruct (find_char 93 b) as [i|] eqn:Ef; [|done]. simpl.
    apply find_char_some in Ef as (l & r & -> & Hni & <-).
    rewrite take_app_length, drop_app_cons. destruct r as [|y r]; [done|]. simpl.
    destruct (y =? 58) eqn:Ey; [|done]. destr_bool. subst y. intros [= <- <-]. left.
    by split.
  - destruct (rsplit_once 58 s) as [[h' p']|] eqn:Er; [|done]. simpl.
    apply rsplit_once_some in Er as [-> Hni]. destruct (contains_char 58 h') eqn:Ec; [done|].
    apply contains_char_false in Ec. intros [= <- <-]. right. split_and!; [done|done|].
    destruct h' as [|x h']; simpl in *; [done|]. intros [= ->]. done.
Qed.

Lemma Endpoint_split_bracketed h p : 93 ∉ h -> Endpoint_split (lit "[" ++ h ++ lit "]:" ++ p) = Ok (h, p).
Proof.
  intros Hni. unfold Endpoint_split. simpl.
  change (lit "]:" ++ p) with (93 :: 58 :: p).
  rewrite (proj2 (find_char_some 93 _ (length h))) by eauto. simpl.
  by rewrite take_app_length, drop_app_cons.
Qed.

Lemma Endpoint_split_plain h p :
  58 ∉ h -> 58 ∉ p -> head h <> Some 91 -> Endpoint_split (h ++ lit ":" ++ p) = Ok (h, p).
Proof.
  intros Hh Hp Hb. unfold Endpoint_split.
  assert (strip_prefix_char 91 (h ++ lit ":" ++ p) = None) as ->.
  { destruct h as [|x h]; simpl in *; [done|]. destruct (x =? 91) eqn:E; [|done]. destr_bool. congruence. }
  change (lit ":" ++ p) with (58 :: p). rewrite (proj2 (rsplit_once_some 58 _ h p)) by done. simpl.
  by rewrite (proj2 (contains_char_false 58 h)).
Qed.

(** What an accepted endpoint is. *)
Lemma endpoint_of_text s e :
  Endpoint_from_str s = Ok e ->
  endpoint_wf e /\
  exists port_text, parse_u16 port_text = Ok (endpoint_port e) /\
    (s = lit "[" ++ endpoint_host e ++ lit "]:" ++ port_text \/
     (s = endpoint_host e ++ lit ":" ++ port_text /\ 58 ∉ endpoint_host e)).
Proof.
  unfold Endpoint_from_str. case_bool_decide; [done|].
  destruct (Endpoint_split s) as [[h p]|] eqn:Es; [|done]. simpl.
  case_bool_decide; [done|]. destruct (existsb _ _) eqn:Ex; [done|].
  destruct (parse_u16 p) as [n|] eqn:Ep; [|done]. simpl. destruct (n =? 0) eqn:En; [done|].
  intros [= <-]. destr_bool. apply Endpoint_split_ok in Es.
  pose proof (from_str_radix_bound 10 (uint_max 16) p n eq_refl) as Hb.
  unfold uint_max in Hb. specialize (Hb ltac:(lia) Ep). split.
  - unfold endpoint_wf. simpl. split_and!; [done|done|lia|lia|]. intros ?. by destruct Es as [[_ ?]|(_ & ? & _)].
  - exists p. split; [done|]. destruct Es as [[-> _]|(-> & ? & _)]; [by left|by right].
Qed.

(** The characters a host may not have: tab, LF, FF, CR, space, slash, at. *)
Definition host_forbidden : list Z := [9; 10; 12; 13; 32; 47; 64].

Lemma invalid_host_byte_spec b : invalid_host_byte b = true <-> b ∈ host_forbidden.
Proof.
  unfold invalid_host_byte, is_ascii_whitespace, host_forbidden. rewrite !orb_true_iff, !Z.eqb_eq. set_solver.
Qed.

(** The check on UTF-8 bytes is a check on characters. *)
Lemma host_check host :
  Forall (fun c => 0 <= c) host ->
  existsb invalid_host_byte (as_bytes host) = false <-> forall c, c ∈ host_forbidden -> c ∉ host.
Proof.
  intros Hpos. rewrite <-not_true_iff_false, existsb_exists. setoid_rewrite <-list_elem_of_In. setoid_rewrite invalid_host_byte_spec.
  assert (forall c, c ∈ host_forbidden -> c < 128) as Hlt by (intros c; unfold host_forbidden; rewrite !elem_of_cons, elem_of_nil; lia).
  split.
  - intros Hn c Hc Hin. apply Hn. exists c. split; [|done]. apply list_elem_of_bind. exists c. split; [|done].
    unfold encode_char. rewrite (proj2 (Z.ltb_lt _ _)) by auto. set_solver.
  - intros Hn (b & Hb & Hf). apply (Hn b Hf). apply as_bytes_ascii_elem; auto.
Qed.

(** C34: Exactly which texts are endpoints, and which endpoint each is.  A text is accepted as a host and a port if and only if the host is not empty and has no tab, line feed, form feed, carriage return, space, slash or at sign, the port text is a u16 and not zero, and the text is either [host]:port, with no closing bracket in the host, or host:port, with no colon in the host or the port text and no opening bracket in front. *)
Theorem endpoint_from_str_wf s e :
  Forall (fun c => 0 <= c) s ->
  Endpoint_from_str s = Ok e <->
  endpoint_host e <> [] /\
  (forall c, c ∈ [9; 10; 12; 13; 32; 47; 64] -> c ∉ endpoint_host e) /\
  1 <= endpoint_port e <= 65535 /\
  exists port_text, parse_u16 port_text = Ok (endpoint_port e) /\
    (s = lit "[" ++ endpoint_host e ++ lit "]:" ++ port_text /\ 93 ∉ endpoint_host e \/
     s = endpoint_host e ++ lit ":" ++ port_text /\ 58 ∉ endpoint_host e /\ 58 ∉ port_text /\ head (endpoint_host e) <> Some 91).
Proof.
  intros Hpos. split.
  - intros He. pose proof (endpoint_of_text s e He) as [(Hne & Hbad & Hport & _) _].
    unfold Endpoint_from_str in He. case_bool_decide; [done|]. destruct (Endpoint_split s) as [[h p]|] eqn:Es; [|done]. simpl in He.
    assert (h = endpoint_host e /\ parse_u16 p = Ok (endpoint_port e)) as [-> Hp].
    { repeat case_match; try done. destruct (parse_u16 p) as [n|]; [|done]. simpl in He. repeat case_match; by simplify_eq/=. }
    assert (Forall (fun c => 0 <= c) (endpoint_host e)) as Hh.
    { apply Endpoint_split_ok in Es as [[-> _]|(-> & _)]; decompose_Forall; done. }
    split_and!; [done|by apply host_check|lia|lia|]. exists p. split; [done|].
    pose proof (Endpoint_split_ok _ _ _ Es) as [Hb|(Hs & Hc & Hb)]; [by left|]. right. subst s.
    split_and!; [done|done| |by destruct (endpoint_host e)].
    unfold Endpoint_split in Es. destruct (strip_prefix_char 91 _) as [b|] eqn:Eb.
    { exfalso. apply Hb. destruct (endpoint_host e) as [|x h]; [done|]. simpl in *. destruct (x =? 91) eqn:Ex; [|done]. destr_bool. congruence. }
    destruct (rsplit_once 58 _) as [[h' p']|] eqn:Er; [|done]. simpl in Es. case_match; [done|]. simplify_eq.
    by apply rsplit_once_some in Er as [_ ?].
  - intros (Hne & Hbad & Hport & p & Hp & Hs).
    assert (Forall (fun c => 0 <= c) (endpoint_host e)) as Hh by (destruct Hs as [[-> _]|(-> & _)]; decompose_Forall; done).
    assert (Endpoint_split s = Ok (endpoint_host e, p)) as Es.
    { destruct Hs as [[-> ?]|(-> & ? & ? & ?)]; [by apply Endpoint_split_bracketed|by apply Endpoint_split_plain]. }
    unfold Endpoint_from_str. rewrite Es. rewrite bool_decide_eq_false_2 by (intros ->; by vm_compute in Es). simpl.
    rewrite bool_decide_eq_false_2, (proj2 (host_check _ Hh)), Hp by done. simpl.
    rewrite (proj2 (Z.eqb_neq _ _)) by lia. by destruct e.
Qed.

Lemma endpoint_from_str_wf_witness :
  exists e, Endpoint_from_str (lit "[2001:db8::1]:3128") = Ok e /\
    (forall c, c ∈ [9; 10; 12; 13; 32; 47; 64] -> c ∉ endpoint_host e) /\ 1 <= endpoint_port e <= 65535.
Proof.
  eexists. split; [vm_compute; reflexivity|].
  edestruct (endpoint_from_str_wf (lit "[2001:db8::1]:3128")) as [Hok _];
    [apply Forall_forall; intros c Hc; apply list_elem_of_In in Hc; simpl in Hc; lia|].
  destruct Hok as (_ & Hc & Hp & _); [vm_compute; reflexivity|]. split; [exact Hc|exact Hp].
Defined.

Lemma fmt_u_notin n c : 0 <= n -> to_digit 10 c = None -> c ∉ fmt_u n.
Proof. intros Hn Hc Hin. apply fmt_u_chars in Hin as [? ?]; [|done]. congruence. Qed.

(** C35: Printing a well-formed endpoint and parsing the text gives the endpoint back, unless the host starts with a bracket and has no colon. *)
Theorem endpoint_display_roundtrip e :
  endpoint_wf e -> host_printable (endpoint_host e) -> Endpoint_from_str (Endpoint_fmt e) = Ok e.
Proof.
  intros (Hne & Hbad & Hport & Hbr) Hpr. destruct e as [h n]. simpl in *.
  assert (Endpoint_split (Endpoint_fmt {| endpoint_host := h; endpoint_port := n |}) = Ok (h, fmt_u n)) as Hs.
  { unfold Endpoint_fmt. simpl. destruct (contains_char 58 h) eqn:Ec.
    - apply contains_char_spec in Ec. apply Endpoint_split_bracketed; auto.
    - apply contains_char_false in Ec. destruct Hpr as [?|?]; [done|].
      apply Endpoint_split_plain; [done| |done]. apply fmt_u_notin; [lia|done]. }
  unfold Endpoint_from_str. rewrite bool_decide_eq_false_2.
  2:{ unfold Endpoint_fmt. case_match; simpl; [done|]. by destruct h. }
  rewrite Hs. simpl. rewrite bool_decide_eq_false_2 by done. rewrite Hbad.
  unfold parse_u16, fmt_u. rewrite from_str_radix_fmt by (unfold uint_max; lia). simpl.
  by rewrite (proj2 (Z.eqb_neq _ _)) by lia.
Qed.

Lemma endpoint_display_roundtrip_witness :
  endpoint_wf (Endpoint_new (lit "2001:db8::1") 3128) /\
  Endpoint_from_str (Endpoint_fmt (Endpoint_new (lit "2001:db8::1") 3128)) =
    Ok (Endpoint_new (lit "2001:db8::1") 3128).
Proof.
  assert (endpoint_wf (Endpoint_new (lit "2001:db8::1") 3128)) as H.
  { split_and!; [done|vm_compute; reflexivity|simpl; lia|simpl; lia|].
    intros _. apply contains_char_false. vm_compute. reflexivity. }
  split; [exact H|]. apply endpoint_display_roundtrip; [exact H|].
  left. apply contains_char_spec. vm_compute. reflexivity.
Defined.

(** The parser accepts a bracketed host that itself starts with a bracket, and such an endpoint is printed as a text the parser refuses. *)
Theorem endpoint_display_not_reparsed :
  exists e, Endpoint_from_str (lit "[[x]:80") = Ok e /\ endpoint_host e = lit "[x" /\
    Endpoint_from_str (Endpoint_fmt e) = Err InvalidIpv6.
Proof. eexists. split; [vm_compute; reflexivity|]. split; vm_compute; reflexivity. Qed.
