(* ===== verification/Routing.v ===== *)
(** * Routing: src/routing.rs

    Which resolved addresses are connected to directly.  The hand-written
    range tests of the code are proved equivalent to membership in the list
    of networks the documentation names. *)

From S2P Require Import Prelude RustStr RustNet Config.

(** ** Operations *)

Definition is_default_direct_v4 (address : Z) : bool :=
  match octets_v4 address with
  | first :: second :: _ =>
    v4_is_loopback address || v4_is_private address || v4_is_link_local address ||
    ((first =? 100) && ((64 <=? second) && (second <=? 127)))
  | _ => false
  end.

(** [address.octets()[0]] is the most significant byte. *)
Definition is_default_direct_v6 (address : Z) : bool :=
  let first := field 8 120 address in
  v6_is_loopback address || v6_is_unicast_link_local address || (Z.land first 254 =? 252).

Definition is_default_direct_address (address : IpAddr) : bool :=
  match address with
  | V4 a => is_default_direct_v4 a
  | V6 a => is_default_direct_v6 a
  end.

Definition is_direct_address (address : IpAddr) (additional : list IpCidr) : bool :=
  is_default_direct_address address || existsb (fun net => IpCidr_contains net address) additional.

(** ** Specification: the documented networks *)

(** Loopback, RFC 1918, link-local, shared address space; IPv6 loopback,
    link-local and unique-local. *)
Definition documented_networks : list str :=
  map lit ["127.0.0.0/8"; "10.0.0.0/8"; "172.16.0.0/12"; "192.168.0.0/16"; "169.254.0.0/16";
           "100.64.0.0/10"; "::1/128"; "fe80::/10"; "fc00::/7"]%string.

Definition documented_cidrs : list IpCidr :=
  omap (fun s => match IpCidr_from_str s with Ok c => Some c | Err _ => None end) documented_networks.

(** ** Properties *)

Example documented_cidrs_parse : length documented_cidrs = 9%nat.
Proof. vm_compute. reflexivity. Qed.

Lemma documented_cidrs_wf : Forall cidr_wf documented_cidrs.
Proof.
  unfold documented_cidrs. apply Forall_forall. intros c Hc.
  apply list_elem_of_omap in Hc as (s & _ & Hs).
  destruct (IpCidr_from_str s) eqn:E; simplify_eq. by eapply IpCidr_from_str_wf_aux.
Qed.

(** Membership in a list of well-formed networks is agreement of prefixes. *)
Lemma existsb_contains cs x :
  Forall cidr_wf cs -> ip_valid x ->
  existsb (fun net => IpCidr_contains net x) cs = true <->
  Exists (fun net => same_prefix (prefix net) (network net) x) cs.
Proof.
  intros Hwf Hx. induction Hwf as [|c cs Hc Hcs IH]; simpl.
  { split; [done|]. intros H'. inversion H'. }
  rewrite orb_true_iff, IH, IpCidr_contains_prefix by done. by rewrite Exists_cons.
Qed.

Lemma land_high_bits w k x m v :
  0 <= k <= w -> 0 <= x < 2 ^ w -> m = wrap w (Z.shiftl (uint_max w) k) ->
  Z.land x m = v * 2 ^ k <-> x / 2 ^ k = v.
Proof. intros Hk Hx ->. rewrite mask_land by done. nia. Qed.

Lemma is_default_direct_v4_spec a :
  is_u32 a ->
  is_default_direct_v4 a = true <->
  a / 2 ^ 24 = 127 \/ a / 2 ^ 24 = 10 \/ a / 2 ^ 20 = 172 * 16 + 1 \/ a / 2 ^ 16 = 192 * 256 + 168 \/
  a / 2 ^ 16 = 169 * 256 + 254 \/ a / 2 ^ 22 = 100 * 4 + 1.
Proof.
  unfold is_u32. intros Ha. unfold is_default_direct_v4, v4_is_loopback, v4_is_private,
    v4_is_link_local, octets_v4, field.
  rewrite !orb_true_iff, !andb_true_iff, !Z.eqb_eq, !Z.leb_le.
  Z.to_euclidean_division_equations. lia.
Qed.

Lemma is_default_direct_v6_spec a :
  is_u128 a ->
  is_default_direct_v6 a = true <-> a = 1 \/ a / 2 ^ 118 = 1018 \/ a / 2 ^ 121 = 126.
Proof.
  unfold is_u128. intros Ha.
  unfold is_default_direct_v6, v6_is_loopback, v6_is_unicast_link_local.
  rewrite !orb_true_iff, !Z.eqb_eq.
  change 65152 with (1018 * 2 ^ 6). change 252 with (126 * 2 ^ 1).
  rewrite (land_high_bits 16 6), (land_high_bits 8 1)
    by (done || lia || (apply field_bound; lia)).
  unfold field. rewrite (Z.mod_small (a / 2 ^ 112)), (Z.mod_small (a / 2 ^ 120))
    by (Z.to_euclidean_division_equations; lia).
  rewrite !Z.div_div by lia. tauto.
Qed.

(** Evaluate the closed arithmetic of a list of prefix conditions. *)
Ltac eval_prefixes :=
  repeat match goal with
  | |- context [?w - Zpos ?n] => let v := eval compute in (w - Zpos n) in change (w - Zpos n) with v
  | |- context [Zpos ?n / 2 ^ ?k] =>
    let v := eval compute in (Zpos n / 2 ^ k) in change (Zpos n / 2 ^ k) with v
  end; change (2 ^ 0) with 1.

Lemma default_direct_is_documented_aux x :
  ip_valid x ->
  is_default_direct_address x = existsb (fun net => IpCidr_contains net x) documented_cidrs.
Proof.
  intros Hx. apply eq_true_iff_eq.
  rewrite existsb_contains by (done || apply documented_cidrs_wf).
  let v := eval vm_compute in documented_cidrs in change documented_cidrs with v.
  rewrite !Exists_cons, Exists_nil. unfold same_prefix. destruct x as [a|a]; simpl.
  - rewrite is_default_direct_v4_spec by done. eval_prefixes. lia.
  - rewrite is_default_direct_v6_spec by done. eval_prefixes. rewrite Z.div_1_r. lia.
Qed.

(** C31: The built-in direct ranges are exactly the networks the documentation lists: the octet and segment tests of the code agree with CIDR membership on every address. *)
Theorem default_direct_is_documented x :
  ip_valid x ->
  is_default_direct_address x = existsb (fun net => IpCidr_contains net x) documented_cidrs.
Proof. apply default_direct_is_documented_aux. Qed.

Lemma default_direct_is_documented_witness :
  ip_valid (V4 2886729729) /\
  is_default_direct_address (V4 2886729729) =
    existsb (fun net => IpCidr_contains net (V4 2886729729)) documented_cidrs.
Proof.
  assert (ip_valid (V4 2886729729)) as H by (simpl; unfold is_u32; lia).
  split; [exact H|]. apply default_direct_is_documented. exact H.
Defined.

(** An address is routed directly exactly when it lies in a documented network or agrees with a configured network on that network's prefix. *)
Theorem is_direct_address_spec x additional :
  ip_valid x -> Forall cidr_wf additional ->
  is_direct_address x additional = true <->
  Exists (fun net => same_prefix (prefix net) (network net) x) (documented_cidrs ++ additional).
Proof.
  intros Hx Hwf. rewrite <-existsb_contains by (done || (apply Forall_app; split; [apply documented_cidrs_wf|done])).
  unfold is_direct_address. rewrite existsb_app, default_direct_is_documented_aux by done. done.
Qed.

Lemma is_direct_address_spec_witness :
  exists c, IpCidr_from_str (lit "203.0.113.0/24") = Ok c /\
  (is_direct_address (V4 3405803818) [c] = true <->
   Exists (fun net => same_prefix (prefix net) (network net) (V4 3405803818)) (documented_cidrs ++ [c])).
Proof.
  eexists. split; [vm_compute; reflexivity|].
  apply is_direct_address_spec; [simpl; unfold is_u32; lia|].
  constructor; [|constructor]. split_and!; [simpl; unfold is_u32; lia|simpl; lia|simpl; lia|reflexivity].
Defined.
