(* ===== verification/Auth.v ===== *)
(** * Auth: the interface part of src/auth.rs

    The authentication schemes, the errors of a security context, and the
    traits [AuthContext] and [AuthFactory] as one class over the world [W]
    in which a native provider keeps its own state.  The provider compiled on
    non-Windows targets is an instance; [Sspi] holds the Windows one. *)

From S2P Require Import Prelude.

(** ** Data *)

Inductive AuthScheme := Negotiate | Ntlm.

Inductive AuthError :=
| UnsupportedPlatform
| Native (message : str)
| ContextComplete
| TokenTooLarge.

Global Instance AuthScheme_eq_dec : EqDecision AuthScheme.
Proof. solve_decision. Defined.

Definition header_name (self : AuthScheme) : str :=
  match self with
  | Negotiate => lit "Negotiate"
  | Ntlm => lit "NTLM"
  end.

(** ** The traits

    [create] is [AuthFactory::create]; [step] is [AuthContext::step], which
    updates the context it is called on. *)
Class AuthFactory (W : Type) := {
  AuthContext : Type;
  create : AuthScheme -> str -> W -> result AuthError AuthContext * W;
  step : AuthContext -> option bytes -> W -> (result AuthError bytes * AuthContext) * W;
}.

(** ** [NativeAuthFactory] off Windows *)

(** The boxed context is never built, so its type is empty. *)
Definition native_create_unsupported {W} (scheme : AuthScheme) (target_name : str) (w : W) :
  result AuthError Empty_set * W := (Err UnsupportedPlatform, w).

Definition NativeAuthFactory_other (W : Type) : AuthFactory W := {|
  AuthContext := Empty_set;
  create := native_create_unsupported;
  step := fun ctx _ _ => match ctx with end;
|}.
