(* ===== verification/Io.v ===== *)
(** * Io: sockets, the outside world and the proxy's effect monad

    fastpx performs its effects through tokio.  Their results come from the
    peers and the operating system, so they are operations of an abstract
    world [W]: the class [Network].  The code runs in a state-and-error monad
    over [W] that also records the sequence of its external actions, which is
    what the protocol theorems talk about.  [NoFuel] is the outcome of a loop
    that used up the fuel it was given.

    An operation of [Network] is one that completes: a run of the monad is a
    run in which every [await] it reaches is answered.  The code has no
    timeout on reads, so against a silent peer it waits; a task that waits is
    a suspended task of [System], whose steps need no answer to ever come. *)

From S2P Require Import Prelude RustStr RustNet Auth.

(** ** Errors and results of asynchronous operations *)

(** [io::ErrorKind], as far as the sources name one. *)
Inductive IoErrorKind := TimedOut | UnexpectedEofKind | InvalidData | OtherKind (code : Z).

Record IoError := { io_kind : IoErrorKind; io_message : str }.

(** [tokio::time::timeout]: the inner result, or [Err(Elapsed)]. *)
Inductive timed (A : Type) := InTime (a : A) | Elapsed.
Arguments InTime {A} a.
Arguments Elapsed {A}.

(** A socket handle; ownership in the sources makes handles unique. *)
Abbreviation sock := nat.

(** The argument of [TcpStream::connect]: a name to resolve, or addresses. *)
Inductive ConnectTarget :=
| ToHost (host : str) (port : Z)
| ToAddrs (addresses : list SocketAddr).

(** ** The world *)

Class Network (W : Type) := {
  (** [stream.read(&mut chunk[..wanted])]: the bytes read, empty at the end. *)
  net_read : sock -> Z -> W -> result IoError bytes * W;
  net_write_all : sock -> bytes -> W -> result IoError unit * W;
  net_set_nodelay : sock -> W -> result IoError unit * W;
  (** [timeout(limit, TcpStream::connect(target))]. *)
  net_connect : ConnectTarget -> Z -> W -> timed (result IoError sock) * W;
  (** [timeout(limit, lookup_host((host, port)))]. *)
  net_lookup : str -> Z -> Z -> W -> timed (result IoError (list SocketAddr)) * W;
}.

(** The contract of [AsyncRead]: a read never returns more than was asked. *)
Class BoundedReads (W : Type) `{Network W} : Prop :=
  read_bounded s n w chunk w' : net_read s n w = (Ok chunk, w') -> 0 <= n -> len chunk <= n.

(** A peer that delivers a finite stream without errors: [pending] is what
    is still to be read.  How the stream is cut into reads is left open. *)
Class ReliableReads (W : Type) `{Network W} := {
  pending : sock -> W -> bytes;
  read_pending s n w : 0 < n ->
    exists chunk w', net_read s n w = (Ok chunk, w') /\ pending s w = chunk ++ pending s w' /\
      len chunk <= n /\ (chunk = [] -> pending s w = []);
}.

(** A local side whose writes and socket options never fail. *)
Class ReliableWrites (W : Type) `{Network W} : Prop := {
  write_all_ok s data w : exists w', net_write_all s data w = (Ok tt, w');
  set_nodelay_ok s w : exists w', net_set_nodelay s w = (Ok tt, w');
}.

(** ** External actions *)

Inductive event :=
| EvRead (s : sock) (r : result IoError bytes)
| EvWrite (s : sock) (data : bytes)
| EvNodelay (s : sock)
| EvConnect (target : ConnectTarget) (r : timed (result IoError sock))
| EvLookup (host : str) (port : Z) (r : timed (result IoError (list SocketAddr)))
| EvAuthCreate (scheme : AuthScheme) (target_name : str)
| EvRelay (client upstream : sock)
| EvAuthStep (challenge : option bytes) (r : result AuthError bytes).

(** ** The monad *)

Inductive outcome (E A : Type) := Val (a : A) | Exn (e : E) | NoFuel.
Arguments Val {E A} a.
Arguments Exn {E A} e.
Arguments NoFuel {E A}.

Record st (W : Type) := { world : W; trace : list event }.
Arguments world {W} s.
Arguments trace {W} s.
Arguments Build_st {W} world trace.

Definition M (W E A : Type) : Type := st W -> outcome E A * st W.

Global Instance M_ret W E : MRet (M W E) := fun A a s => (Val a, s).
Global Instance M_bind W E : MBind (M W E) := fun A B f m s =>
  match m s with
  | (Val a, s') => f a s'
  | (Exn e, s') => (Exn e, s')
  | (NoFuel, s') => (NoFuel, s')
  end.

Definition throw {W E A} (e : E) : M W E A := fun s => (Exn e, s).
Definition no_fuel {W E A} : M W E A := fun s => (NoFuel, s).

(** [result?] on a pure result. *)
Definition lift {W E A} (r : result E A) : M W E A := fun s =>
  match r with Ok a => (Val a, s) | Err e => (Exn e, s) end.

(** The [From] conversion of [?]. *)
Definition mapE {W E F A} (f : E -> F) (m : M W E A) : M W F A := fun s =>
  match m s with
  | (Val a, s') => (Val a, s')
  | (Exn e, s') => (Exn (f e), s')
  | (NoFuel, s') => (NoFuel, s')
  end.

(** [match m.await { Ok(a) => .., Err(e) => .. }]. *)
Definition try {W E F A} (m : M W E A) : M W F (result E A) := fun s =>
  match m s with
  | (Val a, s') => (Val (Ok a), s')
  | (Exn e, s') => (Val (Err e), s')
  | (NoFuel, s') => (NoFuel, s')
  end.

(** An external action: run it on the world and log it. *)
Definition act {W E A} (f : W -> A * W) (ev : A -> event) : M W E A := fun s =>
  let '(a, w') := f (world s) in (Val a, Build_st w' (trace s ++ [ev a])).

Section Operations.
Context {W : Type} `{Network W} `{AuthFactory W} {E : Type}.

Definition read (s : sock) (wanted : Z) : M W E (result IoError bytes) :=
  act (net_read s wanted) (EvRead s).
Definition write_all (s : sock) (data : bytes) : M W E (result IoError unit) :=
  act (net_write_all s data) (fun _ => EvWrite s data).
Definition set_nodelay (s : sock) : M W E (result IoError unit) :=
  act (net_set_nodelay s) (fun _ => EvNodelay s).
Definition tcp_connect (target : ConnectTarget) (limit : Z) : M W E (timed (result IoError sock)) :=
  act (net_connect target limit) (EvConnect target).
Definition lookup_host (host : str) (port limit : Z) : M W E (timed (result IoError (list SocketAddr))) :=
  act (net_lookup host port limit) (EvLookup host port).
Definition auth_create (scheme : AuthScheme) (target_name : str) : M W E (result AuthError AuthContext) :=
  act (create scheme target_name) (fun _ => EvAuthCreate scheme target_name).
Definition auth_step (ctx : AuthContext) (challenge : option bytes) :
  M W E (result AuthError bytes * AuthContext) :=
  act (step ctx challenge) (fun r => EvAuthStep challenge (fst r)).
End Operations.

(** ** Reasoning about traces

    [emits m R]: whatever the world answers, [m] appends a sequence of events
    that [R] relates to its outcome. *)
Definition emits {W E A} (m : M W E A) (R : list event -> outcome E A -> Prop) : Prop :=
  forall s o s', m s = (o, s') -> exists evs, trace s' = trace s ++ evs /\ R evs o.

(** ** Reasoning about outcomes *)

(** [m] always has enough fuel. *)
Definition total {W E A} (m : M W E A) : Prop := forall s, fst (m s) <> NoFuel.

Section Rules.
Context {W E : Type}.

Lemma emits_weaken {A} (m : M W E A) (R R' : list event -> outcome E A -> Prop) :
  emits m R -> (forall evs o, R evs o -> R' evs o) -> emits m R'.
Proof. intros Hm HR s o s' Hs. destruct (Hm s o s' Hs) as (evs & ? & ?). eauto. Qed.

Lemma emits_ret {A} (a : A) (R : list event -> outcome E A -> Prop) :
  R [] (Val a) -> emits (mret (M := M W E) a) R.
Proof. intros HR s o s' [= <- <-]. exists []. by rewrite app_nil_r. Qed.

Lemma emits_throw {A} (e : E) (R : list event -> outcome E A -> Prop) :
  R [] (Exn e) -> emits (W := W) (throw e) R.
Proof. intros HR s o s' [= <- <-]. exists []. by rewrite app_nil_r. Qed.

Lemma emits_no_fuel {A} (R : list event -> outcome E A -> Prop) : R [] NoFuel -> emits (W := W) no_fuel R.
Proof. intros HR s o s' [= <- <-]. exists []. by rewrite app_nil_r. Qed.

Lemma emits_lift {A} (r : result E A) (R : list event -> outcome E A -> Prop) :
  match r with Ok a => R [] (Val a) | Err e => R [] (Exn e) end -> emits (W := W) (lift r) R.
Proof. intros HR s o s'. destruct r; intros [= <- <-]; exists []; by rewrite app_nil_r. Qed.

Lemma emits_act {A} (f : W -> A * W) ev (R : list event -> outcome E A -> Prop) :
  (forall a, R [ev a] (Val a)) -> emits (act f ev) R.
Proof.
  intros HR s o s'. unfold act. destruct (f (world s)) as [a w']. intros [= <- <-]. by exists [ev a].
Qed.

(** The event relation of a sequence. *)
Lemma emits_bind {A B} (m : M W E A) (k : A -> M W E B) R1 (R : list event -> outcome E B -> Prop) :
  emits m R1 ->
  (forall e1 a, R1 e1 (Val a) -> emits (k a) (fun e2 o => R (e1 ++ e2) o)) ->
  (forall e1 e, R1 e1 (Exn e) -> R e1 (Exn e)) ->
  (forall e1, R1 e1 NoFuel -> R e1 NoFuel) ->
  emits (m ≫= k) R.
Proof.
  intros Hm Hk He Hf s o s'. unfold mbind, M_bind. destruct (m s) as [[a|e|] s1] eqn:Em.
  - intros Hs. apply Hm in Em as (e1 & Ht1 & HR1). apply (Hk e1 a HR1) in Hs as (e2 & Ht2 & HR2).
    exists (e1 ++ e2). split; [|done]. by rewrite Ht2, Ht1, app_assoc.
  - intros [= <- <-]. apply Hm in Em as (e1 & Ht1 & HR1). eauto.
  - intros [= <- <-]. apply Hm in Em as (e1 & Ht1 & HR1). eauto.
Qed.

Lemma emits_mapE {F A} (f : F -> E) (m : M W F A) R1 (R : list event -> outcome E A -> Prop) :
  emits m R1 ->
  (forall e a, R1 e (Val a) -> R e (Val a)) -> (forall e x, R1 e (Exn x) -> R e (Exn (f x))) ->
  (forall e, R1 e NoFuel -> R e NoFuel) ->
  emits (mapE f m) R.
Proof.
  intros Hm Hv He Hf s o s'. unfold mapE. destruct (m s) as [[a|e|] s1] eqn:Em; intros [= <- <-];
    apply Hm in Em as (e1 & Ht1 & HR1); eauto.
Qed.

Lemma emits_try {F A} (m : M W F A) R1 (R : list event -> outcome E (result F A) -> Prop) :
  emits m R1 ->
  (forall e a, R1 e (Val a) -> R e (Val (Ok a))) -> (forall e x, R1 e (Exn x) -> R e (Val (Err x))) ->
  (forall e, R1 e NoFuel -> R e NoFuel) ->
  emits (try m) R.
Proof.
  intros Hm Hv He Hf s o s'. unfold try. destruct (m s) as [[a|e|] s1] eqn:Em; intros [= <- <-];
    apply Hm in Em as (e1 & Ht1 & HR1); eauto.
Qed.

Lemma total_bind {A B} (m : M W E A) (k : A -> M W E B) :
  total m -> (forall a, total (k a)) -> total (m ≫= k).
Proof.
  intros Hm Hk s. unfold mbind, M_bind. specialize (Hm s). destruct (m s) as [[a|e|] s1]; [|done|done].
  apply Hk.
Qed.

Lemma total_act {A} (f : W -> A * W) ev : total (act (E := E) f ev).
Proof. intros s. unfold act. by destruct (f (world s)). Qed.

Lemma total_ret {A} (a : A) : total (mret (M := M W E) a).
Proof. done. Qed.
Lemma total_throw {A} (e : E) : total (throw (W := W) (A := A) e).
Proof. done. Qed.
Lemma total_lift {A} (r : result E A) : total (lift (W := W) r).
Proof. by destruct r. Qed.
End Rules.

#[export] Hint Resolve total_act total_ret total_throw total_lift : fastpx.

(** ** A scripted world

    An executable instance of [Network]: every socket delivers a given list
    of segments, connection attempts and lookups have given answers, and
    writes are collected.  Concrete runs of the proxy are evaluated in it. *)
Record Script := {
  sc_in : list (list bytes);
  sc_connects : list (timed (result IoError sock));
  sc_lookups : list (timed (result IoError (list SocketAddr)));
  sc_out : list (sock * bytes);
}.

Fixpoint pop_bytes (n : Z) (segs : list bytes) : bytes * list bytes :=
  match segs with
  | [] => ([], [])
  | [] :: segs' => pop_bytes n segs'
  | seg :: segs' =>
    if len seg <=? n then (seg, segs')
    else (take (Z.to_nat n) seg, drop (Z.to_nat n) seg :: segs')
  end.

Definition sc_queue (s : sock) (w : Script) : list bytes := default [] (sc_in w !! s).

Definition script_read (s : sock) (n : Z) (w : Script) : result IoError bytes * Script :=
  let '(chunk, rest) := pop_bytes n (sc_queue s w) in
  (Ok chunk, {| sc_in := <[s := rest]> (sc_in w); sc_connects := sc_connects w;
                sc_lookups := sc_lookups w; sc_out := sc_out w |}).

Definition script_write_all (s : sock) (data : bytes) (w : Script) : result IoError unit * Script :=
  (Ok tt, {| sc_in := sc_in w; sc_connects := sc_connects w; sc_lookups := sc_lookups w;
             sc_out := sc_out w ++ [(s, data)] |}).

Definition script_connect (t : ConnectTarget) (limit : Z) (w : Script) :
  timed (result IoError sock) * Script :=
  match sc_connects w with
  | [] => (Elapsed, w)
  | r :: rs => (r, {| sc_in := sc_in w; sc_connects := rs; sc_lookups := sc_lookups w; sc_out := sc_out w |})
  end.

Definition script_lookup (host : str) (port limit : Z) (w : Script) :
  timed (result IoError (list SocketAddr)) * Script :=
  match sc_lookups w with
  | [] => (Elapsed, w)
  | r :: rs => (r, {| sc_in := sc_in w; sc_connects := sc_connects w; sc_lookups := rs; sc_out := sc_out w |})
  end.

Global Instance script_network : Network Script := {|
  net_read := script_read;
  net_write_all := script_write_all;
  net_set_nodelay := fun _ w => (Ok tt, w);
  net_connect := script_connect;
  net_lookup := script_lookup;
|}.

Lemma pop_bytes_spec n segs chunk rest :
  0 < n -> pop_bytes n segs = (chunk, rest) ->
  mjoin segs = chunk ++ mjoin rest /\ len chunk <= n /\ (chunk = [] -> mjoin segs = []).
Proof.
  intros Hn. induction segs as [|[|b seg] segs IH]; simpl.
  { intros [= <- <-]. by split_and!; [|simpl; change (len (@nil Z)) with 0; lia|]. }
  { apply IH. }
  destruct (_ <=? _) eqn:E; destr_bool.
  - intros [= <- <-]. by split_and!.
  - destruct (Z.to_nat n) as [|m] eqn:En; [lia|].
    intros [= <- <-]. cbn [mjoin list_join]. rewrite <-!app_comm_cons, app_assoc, take_drop.
    split_and!; [done| |done]. unfold len in *. simpl length in *. rewrite length_take. lia.
Qed.

Global Program Instance script_reliable : ReliableReads Script := {|
  pending s w := mjoin (sc_queue s w);
|}.
Next Obligation.
  intros s n w Hn. simpl. unfold script_read.
  destruct (pop_bytes n (sc_queue s w)) as [chunk rest] eqn:E.
  pose proof (pop_bytes_spec _ _ _ _ Hn E) as (Hj & Hl & He).
  do 2 eexists. split; [done|]. split; [|done]. rewrite Hj. f_equal. unfold sc_queue at 1. simpl.
  destruct (decide (s < length (sc_in w))%nat) as [Hlt|Hge].
  - by rewrite list_lookup_insert_eq.
  - rewrite list_insert_ge by lia. unfold sc_queue in E. rewrite lookup_ge_None_2 in E by lia.
    rewrite lookup_ge_None_2 by lia. simpl in *. by injection E as <- <-.
Qed.

Global Instance script_bounded : BoundedReads Script.
Proof.
  intros s n w chunk w'. simpl. unfold script_read.
  destruct (pop_bytes n (sc_queue s w)) as [c rest] eqn:E. intros [= <- _] Hn.
  destruct (decide (n = 0)) as [->|]; [|by eapply (pop_bytes_spec n); [lia|exact E]].
  clear -E. revert c rest E. induction (sc_queue s w) as [|[|b seg] segs IH]; intros c rest; simpl.
  - by intros [= <- _].
  - apply IH.
  - intros [= <- _]. done.
Qed.

Global Instance script_writes : ReliableWrites Script.
Proof. split; eauto. Qed.
