(* ===== verification/Http1.v ===== *)
(** * Http1: message heads of src/http1.rs

    Response heads and the header queries on them, the search for the end of
    a head, and the two loops that read a head from a socket: for a request
    ([read_request_head]) and for a response on a [BufferedStream].  Body
    draining is in [Http1Body].  The [httparse] crate is the class
    [Httparse]. *)

From S2P Require Import Prelude RustStr RustNet Auth Io.

(** ** Data *)

Record Header := { name : str; value : bytes }.
Record RequestHead := { method : str; target : str }.
Record ResponseHead := { version : Z; status : Z; headers : list Header }.

(** A [httparse::Error]; fastpx only carries it along. *)
Abbreviation ParseError := Z.

Inductive HttpError :=
| Http_Io (e : IoError)
| UnexpectedEof
| HeaderTooLarge
| Parse (e : ParseError)
| MissingRequestFields
| InvalidHeaderText
| InvalidContentLength
| ConflictingContentLength
| InvalidChunkedBody.

(** The [BufferedStream] owns a socket and the bytes read but not consumed. *)
Record BufferedStream := { stream : sock; buffer : bytes }.

Definition BufferedStream_new (s : sock) : BufferedStream := {| stream := s; buffer := [] |}.
Definition into_parts (self : BufferedStream) : sock * bytes := (stream self, buffer self).

(** ** The parser crate

    [Request::parse] and [Response::parse] with a table of [slots] headers;
    the fields are the ones the code reads back after the call. *)
Record ParsedRequest := { parsed_method : option str; parsed_path : option str }.
Record ParsedResponse := {
  parsed_version : option Z; parsed_code : option Z; parsed_headers : list (str * bytes) }.

Class Httparse := {
  request_parse : nat -> bytes -> result ParseError ParsedRequest;
  response_parse : nat -> bytes -> result ParseError ParsedResponse;
}.

(** ** Queries on a response head *)

Definition header_values (self : ResponseHead) (nm : str) : list bytes :=
  value <$> filter (fun header => eq_ignore_ascii_case (name header) nm = true) (headers self).

(** The token test shared by [connection_close] and [is_chunked]: the value
    is text and one of its comma-separated parts is the token. *)
Definition value_has_token (expected : str) (v : bytes) : bool :=
  match from_utf8 v with
  | Some text => existsb (fun part => eq_ignore_ascii_case (trim part) expected) (split_char 44 text)
  | None => false
  end.

Definition connection_close (self : ResponseHead) : bool :=
  let has_token expected := existsb (value_has_token expected) (header_values self (lit "connection")) in
  has_token (lit "close") || ((version self =? 0) && negb (has_token (lit "keep-alive"))).

Definition is_chunked (self : ResponseHead) : bool :=
  existsb (value_has_token (lit "chunked")) (header_values self (lit "transfer-encoding")).

Definition parse_length (v : bytes) : result HttpError Z :=
  text ← ok_or InvalidContentLength (from_utf8 v);
  map_err (fun _ => InvalidContentLength) (parse_usize (trim text)).

Fixpoint content_length_loop (parsed : option Z) (values : list bytes) : result HttpError (option Z) :=
  match values with
  | [] => Ok parsed
  | v :: values' =>
    n ← parse_length v;
    match parsed with
    | Some previous => if previous =? n then content_length_loop (Some n) values' else Err ConflictingContentLength
    | None => content_length_loop (Some n) values'
    end
  end.

Definition content_length (self : ResponseHead) : result HttpError (option Z) :=
  content_length_loop None (header_values self (lit "content-length")).

(** ** The end of a head *)

Definition head_end : bytes := [13; 10; 13; 10].

Definition find_header_end (bs : bytes) : option Z :=
  (fun p => Z.of_nat p + 4) <$> position (fun window => bool_decide (window = head_end)) (windows 4 bs).

(** ** Reading heads *)

Section Operations.
Context {W : Type} `{Network W} `{Httparse}.

Abbreviation Io := (M W HttpError).

(** [reader.read(..).await?] *)
Definition read_some (s : sock) (wanted : Z) : Io bytes :=
  r ← read s wanted; lift (map_err Http_Io r).

Fixpoint read_head_bytes_loop (fuel : nat) (reader : sock) (max_header_bytes : Z) (bs : bytes) : Io bytes :=
  match fuel with
  | O => no_fuel
  | S fuel' =>
    if find_header_end bs then mret bs
    else if max_header_bytes <=? len bs then throw HeaderTooLarge
    else
      let remaining := max_header_bytes - len bs in
      let wanted := Z.min 8192 remaining in
      chunk ← read_some reader wanted;
      if bool_decide (chunk = []) then throw UnexpectedEof
      else read_head_bytes_loop fuel' reader max_header_bytes (bs ++ chunk)
  end.

Definition read_head_bytes (fuel : nat) (reader : sock) (max_header_bytes : Z) : Io bytes :=
  read_head_bytes_loop fuel reader max_header_bytes [].

(** The pure part of [read_request_head], after the bytes have been read. *)
Definition parse_request_head (bs : bytes) : result HttpError (RequestHead * bytes) :=
  e ← ok_or UnexpectedEof (find_header_end bs);
  request ← map_err Parse (request_parse 64 (take (Z.to_nat e) bs));
  m ← ok_or MissingRequestFields (parsed_method request);
  t ← ok_or MissingRequestFields (parsed_path request);
  Ok ({| method := m; target := t |}, drop (Z.to_nat e) bs).

Definition read_request_head (fuel : nat) (reader : sock) (max_header_bytes : Z) : Io (RequestHead * bytes) :=
  bs ← read_head_bytes fuel reader max_header_bytes;
  lift (parse_request_head bs).

Definition parse_response_head (bs : bytes) : result HttpError ResponseHead :=
  response ← map_err Parse (response_parse 64 bs);
  v ← ok_or MissingRequestFields (parsed_version response);
  c ← ok_or MissingRequestFields (parsed_code response);
  Ok {| version := v; status := c;
        headers := (fun h => {| name := fst h; value := snd h |}) <$> parsed_headers response |}.

Fixpoint read_response_head (fuel : nat) (self : BufferedStream) (max_header_bytes : Z) :
  Io (ResponseHead * BufferedStream) :=
  match fuel with
  | O => no_fuel
  | S fuel' =>
    match find_header_end (buffer self) with
    | Some e =>
      let head := take (Z.to_nat e) (buffer self) in
      let self := {| stream := stream self; buffer := drop (Z.to_nat e) (buffer self) |} in
      response ← lift (parse_response_head head);
      mret (response, self)
    | None =>
      if max_header_bytes <=? len (buffer self) then throw HeaderTooLarge
      else
        let remaining := max_header_bytes - len (buffer self) in
        let wanted := Z.min 8192 remaining in
        chunk ← read_some (stream self) wanted;
        if bool_decide (chunk = []) then throw UnexpectedEof
        else read_response_head fuel' {| stream := stream self; buffer := buffer self ++ chunk |} max_header_bytes
    end
  end.
End Operations.

(** ** A line-splitting parser

    An executable instance of [Httparse] in which concrete messages are
    evaluated: the start line is split at spaces and each header line at its
    first colon.  It stands for no particular version of the crate. *)
Fixpoint split_lines (acc : bytes) (bs : bytes) : list bytes :=
  match bs with
  | 13 :: 10 :: bs' => reverse acc :: split_lines [] bs'
  | b :: bs' => split_lines (b :: acc) bs'
  | [] => match acc with [] => [] | _ => [reverse acc] end
  end.

Definition line_header (line : bytes) : option (str * bytes) :=
  match split_once 58 line with
  | Some (nm, v) => Some (nm, trim v)
  | None => None
  end.

Definition line_request (slots : nat) (bs : bytes) : result ParseError ParsedRequest :=
  match split_lines [] bs with
  | start :: _ =>
    let fields := split_char 32 start in
    Ok {| parsed_method := fields !! 0%nat; parsed_path := fields !! 1%nat |}
  | [] => Err 0
  end.

Definition line_response (slots : nat) (bs : bytes) : result ParseError ParsedResponse :=
  match split_lines [] bs with
  | start :: rest =>
    let fields := split_char 32 start in
    Ok {| parsed_version := if bool_decide (fields !! 0%nat = Some (lit "HTTP/1.0")) then Some 0 else Some 1;
          parsed_code := code ← fields !! 1%nat; match parse_u16 code with Ok n => Some n | Err _ => None end;
          parsed_headers := omap line_header rest |}
  | [] => Err 0
  end.

Global Instance line_httparse : Httparse :=
  {| request_parse := line_request; response_parse := line_response |}.

(** ** A socket for examples *)

(** One socket that delivers the given segments. *)
Definition one_socket (segs : list bytes) : st Script :=
  Build_st {| sc_in := [segs]; sc_connects := []; sc_lookups := []; sc_out := [] |} [].

Definition connect_request : bytes :=
  lit "CONNECT example.com:443 HTTP/1.1" ++ [13; 10] ++ lit "Host: example.com" ++ head_end.

(** ** The end of a head *)

Lemma find_header_end_some bs e :
  find_header_end bs = Some e <-> exists i, first_at head_end bs i /\ e = Z.of_nat i + 4.
Proof.
  unfold find_header_end. change 4%nat with (length head_end). rewrite fmap_Some.
  setoid_rewrite windows_position_some; [|done]. naive_solver.
Qed.

Lemma find_header_end_none bs : find_header_end bs = None <-> forall i, ~ occurs_at head_end bs i.
Proof.
  unfold find_header_end. change 4%nat with (length head_end).
  rewrite fmap_None. by apply windows_position_none.
Qed.

Lemma find_header_end_bound bs e : find_header_end bs = Some e -> 4 <= e <= len bs.
Proof.
  intros (i & [Ho _] & ->)%find_header_end_some. apply occurs_at_bound in Ho; [|done].
  simpl in Ho. unfold len. lia.
Qed.

Lemma first_at_app pat l k i :
  pat <> [] -> (i + length pat <= length l)%nat -> first_at pat (l ++ k) i <-> first_at pat l i.
Proof.
  intros Hp Hl. split; intros [Ho Hm].
  - split; [by eapply occurs_at_app_inv|]. intros j Hj Hoj. apply (Hm j Hj). by apply occurs_at_app.
  - split; [by apply occurs_at_app|]. intros j Hj Hoj. apply (Hm j Hj).
    eapply occurs_at_app_inv; [|done]. lia.
Qed.

(** Appending input does not move a head end already present. *)
Lemma find_header_end_app bs k e :
  find_header_end bs = Some e -> find_header_end (bs ++ k) = Some e.
Proof.
  intros Hf. pose proof (find_header_end_bound _ _ Hf) as Hb. revert Hf.
  rewrite !find_header_end_some. intros (i & Hi & ->). exists i. split; [|done].
  apply first_at_app; [done| |done]. unfold len in Hb. simpl. lia.
Qed.

Lemma find_header_end_app_inv bs k e :
  find_header_end (bs ++ k) = Some e -> e <= len bs -> find_header_end bs = Some e.
Proof.
  rewrite !find_header_end_some. intros (i & Hi & ->) Hle. exists i. split; [|done].
  apply first_at_app in Hi; [done|done|]. unfold len in Hle. simpl. lia.
Qed.

(** The offset found for the end of a head is just after the first blank line, and there is none exactly when the bytes contain no blank line. *)
Theorem find_header_end_first bs :
  match find_header_end bs with
  | Some e => 4 <= e <= len bs /\ occurs_at head_end bs (Z.to_nat (e - 4)) /\
      forall j, (j < Z.to_nat (e - 4))%nat -> ~ occurs_at head_end bs j
  | None => forall j, ~ occurs_at head_end bs j
  end.
Proof.
  destruct (find_header_end bs) as [e|] eqn:E; [|by apply find_header_end_none].
  pose proof (find_header_end_bound _ _ E). apply find_header_end_some in E as (i & [Ho Hm] & ->).
  replace (Z.to_nat (Z.of_nat i + 4 - 4)) with i by lia. done.
Qed.

(** ** Reading a head *)

Section Reading.
Context {W : Type} `{Network W} `{Httparse}.

Lemma read_some_cases (r : sock) n (s : st W) :
  (exists chunk w', net_read r n (world s) = (Ok chunk, w') /\
     read_some r n s = (Val chunk, Build_st w' (trace s ++ [EvRead r (Ok chunk)]))) \/
  (exists e w', net_read r n (world s) = (Err e, w') /\
     read_some r n s = (Exn (Http_Io e), Build_st w' (trace s ++ [EvRead r (Err e)]))).
Proof.
  unfold read_some, read, act, mbind, M_bind. destruct (net_read r n (world s)) as [[chunk|e] w'] eqn:E.
  - left. eauto.
  - right. eauto.
Qed.

(** Each iteration adds at least one byte, so the limit bounds the fuel. *)
Lemma read_head_bytes_loop_total fuel r max bs :
  (Z.to_nat (max - len bs) < fuel)%nat -> total (W := W) (read_head_bytes_loop fuel r max bs).
Proof.
  revert bs. induction fuel as [|fuel IH]; intros bs Hf s; [lia|]. simpl.
  destruct (find_header_end bs); [done|]. destruct (max <=? len bs) eqn:Em; [done|]. destr_bool.
  unfold mbind at 1, M_bind at 1.
  destruct (read_some_cases r (Z.min 8192 (max - len bs)) s) as [(chunk & w' & _ & ->)|(e & w' & _ & ->)]; [|done].
  case_bool_decide; [done|]. apply IH. rewrite len_app.
  assert (len chunk <> 0) by (by intros ?%len_zero). len_lia.
Qed.

(** The head never exceeds the limit when reads respect their contract. *)
Lemma read_head_bytes_loop_bound `{!BoundedReads W} fuel r max bs s bs' s' :
  len bs <= max -> read_head_bytes_loop fuel r max bs s = (Val bs', s') ->
  len bs' <= max /\ is_Some (find_header_end bs') /\ prefix bs bs'.
Proof.
  revert bs s. induction fuel as [|fuel IH]; intros bs s Hb; [done|]. simpl.
  destruct (find_header_end bs) as [e|] eqn:Ee.
  { intros [= <- <-]. rewrite Ee. split_and!; [done|by eexists|done]. }
  destruct (max <=? len bs) eqn:Em; [done|]. destr_bool. unfold mbind at 1, M_bind at 1.
  destruct (read_some_cases r (Z.min 8192 (max - len bs)) s)
    as [(chunk & w' & Hr & ->)|(e & w' & _ & ->)]; [|done].
  case_bool_decide; [done|]. intros Hl. apply read_bounded in Hr; [|lia].
  apply IH in Hl as (? & ? & Hp); [|len_lia]. split_and!; [done|done|].
  etrans; [|exact Hp]. by apply prefix_app_r.
Qed.
End Reading.

(** ** Heads on a finite stream

    When the peer delivers a finite stream, the result depends on the stream
    only, not on how it is cut into reads. *)
Section Streams.
Context {W : Type} `{Network W} `{Httparse} `{!ReliableReads W}.

Lemma read_some_reliable (r : sock) n (s : st W) :
  0 < n ->
  exists chunk s', read_some r n s = (Val chunk, s') /\
    pending r (world s) = chunk ++ pending r (world s') /\ len chunk <= n /\
    (chunk = [] -> pending r (world s) = []).
Proof.
  intros Hn. destruct (read_pending r n (world s) Hn) as (chunk & w' & Hr & Hp & Hl & He).
  exists chunk, (Build_st w' (trace s ++ [EvRead r (Ok chunk)])).
  unfold read_some, read, act, mbind, M_bind. rewrite Hr. done.
Qed.

(** What reading a head from [data] must do under the limit [max]. *)
Definition head_spec (data : bytes) (max : Z) (o : outcome HttpError bytes) (rest : bytes) : Prop :=
  match find_header_end data with
  | Some e =>
    if e <=? max then exists bs, o = Val bs /\ bs ++ rest = data /\ e <= len bs <= max
    else o = Exn HeaderTooLarge
  | None => o = Exn (if max <=? len data then HeaderTooLarge else UnexpectedEof)
  end.

Lemma read_head_bytes_loop_spec fuel r max bs s :
  len bs <= max -> (Z.to_nat (max - len bs) < fuel)%nat ->
  exists o s', read_head_bytes_loop fuel r max bs s = (o, s') /\
    head_spec (bs ++ pending r (world s)) max o (pending r (world s')).
Proof.
  revert bs s. induction fuel as [|fuel IH]; intros bs s Hb Hf; [lia|]. simpl.
  destruct (find_header_end bs) as [e|] eqn:Ee.
  { exists (Val bs), s. split; [done|]. unfold head_spec. rewrite (find_header_end_app _ _ _ Ee).
    apply find_header_end_bound in Ee. rewrite (proj2 (Z.leb_le _ _)) by lia. exists bs. split_and!; lia || done. }
  destruct (max <=? len bs) eqn:Em; destr_bool.
  { assert (len bs = max) as Hmax by lia. do 2 eexists. split; [done|]. unfold head_spec.
    destruct (find_header_end (bs ++ _)) as [e|] eqn:Et.
    - destruct (e <=? max) eqn:El; [|done]. destr_bool. exfalso.
      apply find_header_end_app_inv in Et; [congruence|lia].
    - rewrite (proj2 (Z.leb_le _ _)); [done|len_lia]. }
  unfold mbind at 1, M_bind at 1.
  destruct (read_some_reliable r (Z.min 8192 (max - len bs)) s) as (chunk & s1 & -> & Hp & Hl & Hnil); [lia|].
  case_bool_decide as Hc.
  - exists (Exn UnexpectedEof), s1. split; [done|]. subst chunk. specialize (Hnil eq_refl). simpl in Hp.
    rewrite Hnil, app_nil_r. unfold head_spec. rewrite Ee. rewrite (proj2 (Z.leb_gt _ _)) by lia. done.
  - assert (len chunk <> 0) by (by intros ?%len_zero).
    destruct (IH (bs ++ chunk) s1) as (o & s' & -> & Hs); [len_lia|len_lia|].
    exists o, s'. split; [done|]. by rewrite Hp, app_assoc.
Qed.

(** The buffered bytes followed by the bytes still to come. *)
Definition remaining_input (self : BufferedStream) (s : st W) : bytes :=
  buffer self ++ pending (stream self) (world s).

Lemma find_header_end_take bs e :
  find_header_end bs = Some e -> find_header_end (take (Z.to_nat e) bs) = Some e.
Proof.
  intros Hf. pose proof (find_header_end_bound _ _ Hf).
  eapply (find_header_end_app_inv _ (drop (Z.to_nat e) bs)); [by rewrite take_drop|].
  rewrite len_take; lia.
Qed.

Lemma read_response_head_spec fuel self max s e :
  find_header_end (remaining_input self s) = Some e -> e <= max ->
  (Z.to_nat (max - len (buffer self)) < fuel)%nat ->
  exists s',
    match parse_response_head (take (Z.to_nat e) (remaining_input self s)) with
    | Ok response => exists self',
        read_response_head fuel self max s = (Val (response, self'), s') /\
        stream self' = stream self /\
        remaining_input self' s' = drop (Z.to_nat e) (remaining_input self s)
    | Err err => read_response_head fuel self max s = (Exn err, s')
    end.
Proof.
  intros Hf He. revert self s Hf. induction fuel as [|fuel IH]; intros self s Hf Hfuel; [lia|].
  simpl. destruct (find_header_end (buffer self)) as [e'|] eqn:Ee.
  { pose proof (find_header_end_bound _ _ Ee) as Hb.
    assert (e' = e) as -> by (unfold remaining_input in Hf; erewrite find_header_end_app in Hf by done; congruence).
    exists s. unfold remaining_input. rewrite take_app_le by (unfold len in Hb; lia).
    unfold mbind, M_bind, lift. destruct (parse_response_head _); [|done].
    eexists. split; [done|]. split; [done|]. simpl. by rewrite drop_app_le by (unfold len in Hb; lia). }
  destruct (max <=? len (buffer self)) eqn:Em; destr_bool.
  { unfold remaining_input in Hf. apply find_header_end_app_inv in Hf; [congruence|lia]. }
  unfold mbind at 1, M_bind at 1.
  destruct (read_some_reliable (stream self) (Z.min 8192 (max - len (buffer self))) s)
    as (chunk & s1 & Hr & Hp & Hl & Hnil); [lia|].
  assert (chunk <> []) as Hne.
  { intros ->. unfold remaining_input in Hf. rewrite (Hnil eq_refl), app_nil_r in Hf. congruence. }
  assert (len chunk <> 0) by (by intros ?%len_zero).
  set (self1 := {| stream := stream self; buffer := buffer self ++ chunk |}).
  assert (remaining_input self1 s1 = remaining_input self s) as Hrem.
  { unfold remaining_input. simpl. by rewrite Hp, app_assoc. }
  destruct (IH self1 s1) as (s' & Hs'); [by rewrite Hrem|simpl; len_lia|].
  exists s'. rewrite Hrem in Hs'. unfold mbind, M_bind. rewrite Hr, bool_decide_eq_false_2 by done. exact Hs'.
Qed.

Lemma parse_request_head_app hd rest e :
  find_header_end hd = Some e -> e = len hd ->
  parse_request_head (hd ++ rest) = (fun r => (fst r, rest)) <$> parse_request_head hd.
Proof.
  intros Hf He. unfold parse_request_head. rewrite (find_header_end_app _ _ _ Hf), Hf. simpl.
  assert (Z.to_nat e = length hd) as -> by (unfold len in He; lia).
  rewrite take_app_length, drop_app_length, firstn_all.
  destruct (request_parse 64 hd) as [req|]; [|done]. simpl.
  destruct (parsed_method req); [|done]. simpl. by destruct (parsed_path req).
Qed.
End Streams.

(** ** Properties of head reading *)

(** C37: Reading a request head over any network stops within the configured limit: the loop terminates, and on success it holds at most max_header_bytes bytes, which contain a complete head. *)
Theorem read_head_bytes_bounded {W} `{Network W} `{!BoundedReads W} fuel r max (s : st W) :
  0 <= max -> (Z.to_nat max < fuel)%nat ->
  fst (read_head_bytes fuel r max s) <> NoFuel /\
  forall bs s', read_head_bytes fuel r max s = (Val bs, s') ->
    len bs <= max /\ is_Some (find_header_end bs).
Proof.
  intros Hm Hf. split.
  - apply read_head_bytes_loop_total. change (len (@nil Z)) with 0. lia.
  - intros bs s' Hr. apply read_head_bytes_loop_bound in Hr as (? & ? & _); [done|exact Hm].
Qed.

(** C16: On a finite stream a request head is read the same however the stream is cut into reads: a head that ends within the limit is parsed and every byte after it is kept for the tunnel, a longer one is refused as too large, and a stream that ends early gives UnexpectedEof. *)
Theorem read_request_head_stream {W} `{Network W} `{Httparse} `{!ReliableReads W} fuel r max (s : st W) :
  0 <= max -> (Z.to_nat max < fuel)%nat ->
  exists o s', read_request_head fuel r max s = (o, s') /\
    let data := pending r (world s) in
    match find_header_end data with
    | Some e =>
      if e <=? max then
        match parse_request_head (take (Z.to_nat e) data) with
        | Ok (head, _) => exists rest, o = Val (head, rest) /\
            rest ++ pending r (world s') = drop (Z.to_nat e) data
        | Err err => o = Exn err
        end
      else o = Exn HeaderTooLarge
    | None => o = Exn (if max <=? len data then HeaderTooLarge else UnexpectedEof)
    end.
Proof.
  intros Hm Hf. destruct (read_head_bytes_loop_spec fuel r max [] s) as (o & s' & Hr & Hs);
    [done|change (len (@nil Z)) with 0; lia|].
  unfold read_request_head, read_head_bytes, mbind, M_bind. rewrite Hr. simpl in *.
  unfold head_spec in Hs.
  destruct (find_header_end (pending r (world s))) as [e|] eqn:Ee; [|subst o; eauto].
  destruct (e <=? max); [|subst o; eauto].
  destruct Hs as (bs & -> & Hbs & Hb). rewrite <-Hbs in *.
  apply find_header_end_app_inv in Ee; [|lia]. pose proof (find_header_end_bound _ _ Ee) as Hbe.
  rewrite take_app_le, drop_app_le by (unfold len in Hb; lia).
  assert (Z.to_nat e <= length bs)%nat by (unfold len in Hb; lia).
  assert (parse_request_head bs =
    (fun r => (fst r, drop (Z.to_nat e) bs)) <$> parse_request_head (take (Z.to_nat e) bs)) as Hp.
  { rewrite <-(take_drop (Z.to_nat e) bs) at 1. apply (parse_request_head_app _ _ e).
    - by apply find_header_end_take.
    - rewrite len_take; lia. }
  rewrite Hp. unfold lift. destruct (parse_request_head (take _ bs)) as [[hd ?]|err]; simpl;
    do 2 eexists; (split; [done|]); eauto.
Qed.

(** C17: Reading a response head consumes exactly the head from the buffered and pending bytes, whatever was already buffered and however the rest arrives, and leaves everything after it to the next reader. *)
Theorem read_response_head_stream {W} `{Network W} `{Httparse} `{!ReliableReads W} fuel self max (s : st W) e :
  find_header_end (remaining_input self s) = Some e -> e <= max ->
  (Z.to_nat (max - len (buffer self)) < fuel)%nat ->
  exists s',
    match parse_response_head (take (Z.to_nat e) (remaining_input self s)) with
    | Ok response => exists self',
        read_response_head fuel self max s = (Val (response, self'), s') /\
        stream self' = stream self /\
        remaining_input self' s' = drop (Z.to_nat e) (remaining_input self s)
    | Err err => read_response_head fuel self max s = (Exn err, s')
    end.
Proof. apply read_response_head_spec. Qed.

(** ** Concrete runs *)

Lemma read_head_bytes_bounded_witness :
  exists bs s', read_head_bytes 101 0 100 (one_socket [connect_request]) = (Val bs, s') /\
    len bs <= 100 /\ is_Some (find_header_end bs).
Proof.
  eexists. eexists. split; [vm_compute; reflexivity|].
  eapply (read_head_bytes_bounded 101 0 100 (one_socket [connect_request])); [lia|lia|].
  vm_compute. reflexivity.
Defined.

Lemma read_request_head_stream_witness :
  exists o s', read_request_head 101 0 100 (one_socket [take 7 connect_request; drop 7 connect_request]) = (o, s') /\
    exists head rest, o = Val (head, rest) /\ rest ++ pending 0 (world s') = [].
Proof.
  destruct (read_request_head_stream 101 0 100 (one_socket [take 7 connect_request; drop 7 connect_request]))
    as (o & s' & Hr & Ho); [lia|lia|].
  vm_compute in Ho. destruct Ho as (rest & -> & Hrest).
  exists (Val ({| method := lit "CONNECT"; target := lit "example.com:443" |}, rest)), s'.
  split; [exact Hr|]. exists {| method := lit "CONNECT"; target := lit "example.com:443" |}, rest.
  split; [reflexivity|exact Hrest].
Defined.

Definition challenge_response : bytes :=
  lit "HTTP/1.1 407 Auth" ++ [13; 10] ++ lit "Proxy-Authenticate: NTLM" ++ [13; 10] ++
  lit "Content-Length: 5" ++ head_end.

Lemma read_response_head_stream_witness :
  find_header_end (remaining_input {| stream := 0; buffer := take 5 challenge_response |}
    (one_socket [drop 5 challenge_response ++ lit "hello"])) = Some (len challenge_response) /\
  exists s' response self',
    read_response_head 200 {| stream := 0; buffer := take 5 challenge_response |} 100
      (one_socket [drop 5 challenge_response ++ lit "hello"]) = (Val (response, self'), s') /\
    remaining_input self' s' = lit "hello".
Proof.
  assert (find_header_end (remaining_input {| stream := 0; buffer := take 5 challenge_response |}
    (one_socket [drop 5 challenge_response ++ lit "hello"])) = Some (len challenge_response)) as Hf
    by (vm_compute; reflexivity).
  split; [exact Hf|].
  destruct (read_response_head_stream 200 {| stream := 0; buffer := take 5 challenge_response |} 100
    (one_socket [drop 5 challenge_response ++ lit "hello"]) (len challenge_response)) as (s' & Hs');
    [exact Hf|vm_compute; congruence|vm_compute; lia|].
  destruct (parse_response_head _) as [response|] eqn:Ep in Hs'; [|vm_compute in Ep; congruence].
  destruct Hs' as (self' & Hr & _ & Hrem). exists s', response, self'.
  split; [exact Hr|]. rewrite Hrem. vm_compute. reflexivity.
Defined.
