(* ===== verification/Http1Body.v ===== *)
(** * Http1Body: draining response bodies, src/http1.rs

    The methods of [BufferedStream] that skip the body of a challenge before
    the connection is reused: a body of known length, or a chunked one. *)

From S2P Require Import Prelude RustStr RustNet Auth Io Http1.

(** ** Operations *)

Definition crlf : bytes := [13; 10].

Definition find_crlf (bs : bytes) : option nat :=
  position (fun window => bool_decide (window = crlf)) (windows 2 bs).

Definition with_buffer (self : BufferedStream) (b : bytes) : BufferedStream :=
  {| stream := stream self; buffer := b |}.

(** The size on a chunk-size line: the text before any semicolon, in hex. *)
Definition chunk_size (line : bytes) : result HttpError Z :=
  text ← ok_or InvalidChunkedBody (from_utf8 line);
  first ← ok_or InvalidChunkedBody (head (split_char 59 text));
  map_err (fun _ => InvalidChunkedBody) (from_str_radix 16 (uint_max 64) (trim first)).

Section Operations.
Context {W : Type} `{Network W}.

Abbreviation Io := (M W HttpError).

Fixpoint discard_loop (fuel : nat) (s : sock) (remaining : Z) : Io unit :=
  match fuel with
  | O => no_fuel
  | S fuel' =>
    if remaining <=? 0 then mret tt
    else
      let wanted := Z.min remaining 8192 in
      chunk ← read_some s wanted;
      if bool_decide (chunk = []) then throw UnexpectedEof
      else discard_loop fuel' s (remaining - len chunk)
  end.

Definition discard_exact (fuel : nat) (self : BufferedStream) (remaining : Z) : Io BufferedStream :=
  let buffered := Z.min remaining (len (buffer self)) in
  let self := with_buffer self (drop (Z.to_nat buffered) (buffer self)) in
  discard_loop fuel (stream self) (remaining - buffered);;
  mret self.

Fixpoint read_line (fuel : nat) (self : BufferedStream) (max_bytes : Z) : Io (bytes * BufferedStream) :=
  match fuel with
  | O => no_fuel
  | S fuel' =>
    match find_crlf (buffer self) with
    | Some index =>
      mret (take index (buffer self), with_buffer self (drop (index + 2) (buffer self)))
    | None =>
      if max_bytes <=? len (buffer self) then throw InvalidChunkedBody
      else
        chunk ← read_some (stream self) 1024;
        if bool_decide (chunk = []) then throw UnexpectedEof
        else read_line fuel' (with_buffer self (buffer self ++ chunk)) max_bytes
    end
  end.

(** The trailer loop after the last chunk. *)
Fixpoint drain_trailers (fuel lines : nat) (self : BufferedStream) : Io BufferedStream :=
  match lines with
  | O => no_fuel
  | S lines' =>
    '(line, self) ← read_line fuel self 8192;
    if bool_decide (line = []) then mret self else drain_trailers fuel lines' self
  end.

Fixpoint drain_chunked_loop (fuel chunks : nat) (self : BufferedStream) : Io BufferedStream :=
  match chunks with
  | O => no_fuel
  | S chunks' =>
    '(line, self) ← read_line fuel self 8192;
    size ← lift (chunk_size line);
    if size =? 0 then drain_trailers fuel fuel self
    else
      self ← discard_exact fuel self size;
      '(terminator, self) ← read_line fuel self 2;
      if bool_decide (terminator = []) then drain_chunked_loop fuel chunks' self
      else throw InvalidChunkedBody
  end.

Definition drain_chunked (fuel : nat) (self : BufferedStream) : Io BufferedStream :=
  drain_chunked_loop fuel fuel self.

Definition drain_response_body (fuel : nat) (self : BufferedStream) (response : ResponseHead) : Io BufferedStream :=
  if is_chunked response then drain_chunked fuel self
  else
    length ← lift (content_length response);
    match length with
    | Some n => discard_exact fuel self n
    | None => mret self
    end.
End Operations.

(** ** Specification: well-formed chunked bodies

    Chunks with a size line that gives the size of their data, a zero-size
    line, trailer lines, and a blank line; every line shorter than the limit
    of [read_line]. *)
Definition line_ok (line : bytes) : Prop := (forall i, ~ occurs_at crlf line i) /\ len line + 1 < 8192.

Inductive trailers : bytes -> Prop :=
| trailers_end : trailers crlf
| trailers_line line rest :
    line_ok line -> line <> [] -> trailers rest -> trailers (line ++ crlf ++ rest).

Inductive chunked_body : bytes -> Prop :=
| chunked_last line rest :
    line_ok line -> chunk_size line = Ok 0 -> trailers rest -> chunked_body (line ++ crlf ++ rest)
| chunked_data line data rest :
    line_ok line -> chunk_size line = Ok (len data) -> data <> [] -> chunked_body rest ->
    chunked_body (line ++ crlf ++ data ++ crlf ++ rest).

(** ** Line ends *)

Lemma find_crlf_some bs i : find_crlf bs = Some i <-> first_at crlf bs i.
Proof. unfold find_crlf. change 2%nat with (length crlf). by apply windows_position_some. Qed.

Lemma find_crlf_none bs : find_crlf bs = None <-> forall i, ~ occurs_at crlf bs i.
Proof. unfold find_crlf. change 2%nat with (length crlf). by apply windows_position_none. Qed.

(** The first line end splits the bytes. *)
Lemma occurs_at_split pat bs i :
  pat <> [] -> occurs_at pat bs i -> bs = take i bs ++ pat ++ drop (i + length pat) bs.
Proof.
  intros Hp Ho. rewrite <-(take_drop i bs) at 1. f_equal.
  rewrite <-(take_drop (length pat) (drop i bs)). unfold occurs_at in Ho. rewrite Ho. f_equal.
  by rewrite drop_drop.
Qed.

Lemma line_first_at line rest : line_ok line -> first_at crlf (line ++ crlf ++ rest) (length line).
Proof.
  intros [Hno _]. split.
  - unfold occurs_at. by rewrite drop_app_length.
  - intros j Hj Ho. destruct (decide (j + 2 <= length line)%nat) as [Hle|Hgt].
    + apply (Hno j). by eapply occurs_at_app_inv.
    + assert (j = length line - 1)%nat as -> by lia. unfold occurs_at in Ho.
      rewrite drop_app_le in Ho by lia.
      destruct (drop (length line - 1) line) as [|x [|y l]] eqn:Ed;
        pose proof (f_equal length Ed) as El; rewrite length_drop in El; simpl in El; try lia.
      cbv [crlf] in Ho. simpl in Ho. congruence.
Qed.

(** ** Draining a finite stream *)

Section Streams.
Context {W : Type} `{Network W} `{!ReliableReads W}.

Lemma read_line_outcome fuel self max (s : st W) :
  (length (pending (stream self) (world s)) < fuel)%nat ->
  exists o s', read_line fuel self max s = (o, s') /\
    match o with
    | Val (line, self') =>
        stream self' = stream self /\ first_at crlf (remaining_input self s) (length line) /\
        remaining_input self s = line ++ crlf ++ remaining_input self' s'
    | Exn _ => forall i, first_at crlf (remaining_input self s) i -> max <= Z.of_nat i + 1
    | NoFuel => False
    end.
Proof.
  revert self s. induction fuel as [|fuel IH]; intros self s Hf; [lia|]. cbn [read_line].
  destruct (find_crlf (buffer self)) as [i|] eqn:Ei.
  { apply find_crlf_some in Ei. pose proof Ei as [Ho _].
    pose proof (occurs_at_bound crlf _ _ ltac:(done) Ho) as Hb. simpl in Hb.
    do 2 eexists. split; [done|]. cbn beta iota. rewrite length_take, Nat.min_l by lia. split_and!; [done| |].
    - apply first_at_app; [done|simpl; lia|done].
    - unfold remaining_input. simpl. rewrite (occurs_at_split crlf (buffer self) i) at 1 by done.
      by rewrite <-!app_assoc. }
  pose proof (proj1 (find_crlf_none _) Ei) as Hno.
  destruct (max <=? len (buffer self)) eqn:Em; destr_bool.
  { do 2 eexists. split; [done|]. intros i Hi. destruct (decide (max <= Z.of_nat i + 1)); [done|].
    exfalso. apply first_at_app in Hi; [|done|unfold len in *; simpl; lia].
    destruct Hi as [Ho _]. by apply (Hno i). }
  unfold mbind at 1, M_bind at 1.
  destruct (read_some_reliable (stream self) 1024 s) as (chunk & s1 & -> & Hp & _ & Hnil); [lia|].
  case_bool_decide as Hc.
  - do 2 eexists. split; [done|]. intros i [Ho _]. exfalso. unfold remaining_input in Ho.
    rewrite (Hnil Hc), app_nil_r in Ho. by apply (Hno i).
  - set (self1 := with_buffer self (buffer self ++ chunk)).
    assert (remaining_input self1 s1 = remaining_input self s) as Hrem.
    { unfold remaining_input. simpl. by rewrite Hp, app_assoc. }
    destruct (IH self1 s1) as (o & s' & -> & Ho).
    { simpl. rewrite Hp, length_app in Hf. destruct chunk; [done|]. simpl in Hf. lia. }
    exists o, s'. split; [done|]. rewrite Hrem in Ho. exact Ho.
Qed.

Lemma discard_loop_outcome fuel r n (s : st W) :
  0 <= n -> (length (pending r (world s)) < fuel)%nat ->
  exists o s', discard_loop fuel r n s = (o, s') /\
    match o with
    | Val _ => n <= len (pending r (world s)) /\
        pending r (world s') = drop (Z.to_nat n) (pending r (world s))
    | Exn _ => len (pending r (world s)) < n
    | NoFuel => False
    end.
Proof.
  revert n s. induction fuel as [|fuel IH]; intros n s Hn Hf; [lia|]. cbn [discard_loop].
  destruct (n <=? 0) eqn:E0; destr_bool.
  { assert (n = 0) as -> by lia. do 2 eexists. split; [done|]. split; [apply len_nonneg|done]. }
  unfold mbind at 1, M_bind at 1.
  destruct (read_some_reliable r (Z.min n 8192) s) as (chunk & s1 & -> & Hp & Hl & Hnil); [lia|].
  case_bool_decide as Hc.
  - do 2 eexists. split; [done|]. rewrite (Hnil Hc). change (len (@nil Z)) with 0. lia.
  - assert (len chunk <> 0) by (by intros ?%len_zero).
    destruct (IH (n - len chunk) s1) as (o & s' & -> & Ho); [lia| |].
    { rewrite Hp, length_app in Hf. unfold len in *. lia. }
    exists o, s'. split; [done|]. rewrite Hp. destruct o as [[]|e|]; [|len_lia|done].
    destruct Ho as [Hle ->]. split; [len_lia|].
    rewrite drop_app_ge by (unfold len in *; lia). f_equal. unfold len. lia.
Qed.

Lemma discard_exact_outcome fuel self n (s : st W) :
  0 <= n -> (length (pending (stream self) (world s)) < fuel)%nat ->
  exists o s', discard_exact fuel self n s = (o, s') /\
    match o with
    | Val self' => stream self' = stream self /\ n <= len (remaining_input self s) /\
        remaining_input self' s' = drop (Z.to_nat n) (remaining_input self s)
    | Exn _ => len (remaining_input self s) < n
    | NoFuel => False
    end.
Proof.
  intros Hn Hf. unfold discard_exact, mbind, M_bind.
  set (k := Z.min n (len (buffer self))).
  pose proof (len_nonneg (buffer self)) as Hlb.
  destruct (discard_loop_outcome fuel (stream self) (n - k) s) as (o & s' & Hd & Ho); [lia|done|].
  change (stream (with_buffer self (drop (Z.to_nat k) (buffer self)))) with (stream self). rewrite Hd.
  unfold remaining_input. destruct o as [[]|e|]; [|do 2 eexists; split; [done|]; len_lia|done].
  destruct Ho as [Hle Hpd]. do 2 eexists. split; [done|]. split; [done|]. split; [len_lia|].
  simpl. rewrite Hpd. destruct (decide (n <= len (buffer self))) as [Hs|Hs].
  - assert (k = n) as -> by lia. rewrite Z.sub_diag. simpl. unfold len in Hs.
    by rewrite drop_app_le by lia.
  - assert (k = len (buffer self)) as -> by lia. unfold len in *.
    rewrite drop_ge by lia. rewrite drop_app_ge by lia. simpl. f_equal. lia.
Qed.

(** The input left never grows, so fuel for the input is fuel for every loop. *)
Lemma pending_length self (s : st W) :
  (length (pending (stream self) (world s)) <= length (remaining_input self s))%nat.
Proof. unfold remaining_input. rewrite length_app. lia. Qed.

Lemma read_line_ok fuel self max (s : st W) line rest :
  line_ok line -> len line + 1 < max -> remaining_input self s = line ++ crlf ++ rest ->
  (length (remaining_input self s) < fuel)%nat ->
  exists self' s', read_line fuel self max s = (Val (line, self'), s') /\
    stream self' = stream self /\ remaining_input self' s' = rest.
Proof.
  intros Hl Hm Hrem Hf. pose proof (line_first_at line rest Hl) as Hfirst. rewrite <-Hrem in Hfirst.
  destruct (read_line_outcome fuel self max s) as (o & s' & Hr & Ho);
    [pose proof (pending_length self s); lia|].
  destruct o as [[line' self']|e|]; [|specialize (Ho _ Hfirst); unfold len in Hm; lia|done].
  destruct Ho as (Hst & Hf' & Heq). exists self', s'.
  pose proof (first_at_unique _ _ _ _ Hfirst Hf') as Hlen. rewrite Hrem in Heq.
  apply app_inj_1 in Heq as [<- Heq]; [|done]. apply app_inv_head in Heq as <-. done.
Qed.

Lemma drain_trailers_ok fuel lines t self (s : st W) rest :
  trailers t -> remaining_input self s = t ++ rest ->
  (length (remaining_input self s) < fuel)%nat -> (length t < lines)%nat ->
  exists self' s', drain_trailers fuel lines self s = (Val self', s') /\
    stream self' = stream self /\ remaining_input self' s' = rest.
Proof.
  intros Ht. revert lines self s. induction Ht as [|line t Hl Hne Ht IH];
    intros lines self s Hrem Hf Hn; (destruct lines as [|lines]; [lia|]); simpl;
    unfold mbind at 1, M_bind at 1.
  - destruct (read_line_ok fuel self 8192 s [] rest) as (self1 & s1 & -> & Hst & Hrem1);
      [split; [by intros i Ho%occurs_at_bound; simpl in *; [lia|]|done]|done|done|done|].
    exists self1, s1. done.
  - rewrite <-!app_assoc in Hrem. destruct (read_line_ok fuel self 8192 s line (t ++ rest))
      as (self1 & s1 & -> & Hst & Hrem1); [done|apply Hl|done|done|].
    rewrite bool_decide_eq_false_2 by done.
    destruct (IH lines self1 s1) as (self' & s' & -> & Hst' & Hrem'); [done| | |].
    + rewrite Hrem1. rewrite Hrem, !length_app in Hf. rewrite length_app. lia.
    + rewrite !length_app in Hn. simpl in Hn. lia.
    + exists self', s'. split_and!; congruence.
Qed.

Lemma drain_chunked_loop_ok fuel chunks b self (s : st W) rest :
  chunked_body b -> remaining_input self s = b ++ rest ->
  (length (remaining_input self s) < fuel)%nat -> (length b < chunks)%nat ->
  exists self' s', drain_chunked_loop fuel chunks self s = (Val self', s') /\
    stream self' = stream self /\ remaining_input self' s' = rest.
Proof.
  intros Hb. revert chunks self s. induction Hb as [line t Hl Hsize Ht|line data t Hl Hsize Hne Hb IH];
    intros chunks self s Hrem Hf Hn; (destruct chunks as [|chunks]; [lia|]); simpl;
    unfold mbind at 1, M_bind at 1; rewrite <-!app_assoc in Hrem.
  - destruct (read_line_ok fuel self 8192 s line (t ++ rest)) as (self1 & s1 & -> & Hst & Hrem1);
      [done|apply Hl|done|done|].
    rewrite Hsize. unfold mbind, M_bind. simpl.
    destruct (drain_trailers_ok fuel fuel t self1 s1 rest) as (self' & s' & -> & Hst' & Hrem');
      [done|done| | |exists self', s'; split_and!; congruence].
    all: rewrite ?Hrem1; rewrite Hrem, !length_app in Hf; rewrite ?length_app; lia.
  - destruct (read_line_ok fuel self 8192 s line (data ++ crlf ++ t ++ rest))
      as (self1 & s1 & -> & Hst & Hrem1); [done|apply Hl|done|done|].
    rewrite Hsize. unfold mbind at 1, M_bind at 1. cbn [lift].
    assert (len data <> 0) by (by intros ?%len_zero).
    rewrite (proj2 (Z.eqb_neq _ _)) by done. rewrite Hrem, !length_app in Hf.
    unfold mbind at 1, M_bind at 1.
    destruct (discard_exact_outcome fuel self1 (len data) s1) as (o & s2 & -> & Ho);
      [apply len_nonneg|pose proof (pending_length self1 s1) as Hpl; rewrite Hrem1, !length_app in Hpl; lia|].
    rewrite Hrem1 in Ho. destruct o as [self2|e|]; [|rewrite !len_app in Ho; len_lia|done].
    destruct Ho as (Hst2 & _ & Hrem2). unfold len in Hrem2. rewrite Nat2Z.id, drop_app_length in Hrem2.
    unfold mbind at 1, M_bind at 1.
    destruct (read_line_ok fuel self2 2 s2 [] (t ++ rest)) as (self3 & s3 & -> & Hst3 & Hrem3);
      [split; [by intros i Ho%occurs_at_bound; simpl in *; [lia|]|done]|done|done| |].
    { rewrite Hrem2, !length_app. lia. }
    simpl. destruct (IH chunks self3 s3) as (self' & s' & -> & Hst' & Hrem');
      [done| | |exists self', s'; split_and!; congruence].
    + rewrite Hrem3, length_app. lia.
    + rewrite !length_app in Hn. simpl in Hn. lia.
Qed.

(** Termination on every finite stream, well-formed or not. *)
Lemma drain_trailers_returns fuel lines self (s : st W) :
  (length (remaining_input self s) < fuel)%nat -> (length (remaining_input self s) < lines)%nat ->
  fst (drain_trailers fuel lines self s) <> NoFuel.
Proof.
  revert self s. induction lines as [|lines IH]; intros self s Hf Hn; [lia|]. simpl.
  unfold mbind at 1, M_bind at 1.
  destruct (read_line_outcome fuel self 8192 s) as (o & s1 & -> & Ho);
    [pose proof (pending_length self s); lia|].
  destruct o as [[line self1]|e|]; [|done|done]. case_bool_decide; [done|].
  destruct Ho as (_ & _ & Hrem). rewrite Hrem, !length_app in *. simpl in *. apply IH; lia.
Qed.

Lemma chunk_size_nonneg line n : chunk_size line = Ok n -> 0 <= n <= uint_max 64.
Proof.
  unfold chunk_size. destruct (from_utf8 line); [|done]. simpl.
  destruct (head _); [|done]. simpl. destruct (from_str_radix _ _ _) eqn:E; [|done]. intros [= <-].
  eapply from_str_radix_bound; [|done|exact E]. lia.
Qed.

Lemma drain_chunked_loop_returns fuel chunks self (s : st W) :
  (length (remaining_input self s) < fuel)%nat -> (length (remaining_input self s) < chunks)%nat ->
  fst (drain_chunked_loop fuel chunks self s) <> NoFuel.
Proof.
  revert self s. induction chunks as [|chunks IH]; intros self s Hf Hn; [lia|]. simpl.
  unfold mbind at 1, M_bind at 1.
  destruct (read_line_outcome fuel self 8192 s) as (o & s1 & -> & Ho);
    [pose proof (pending_length self s); lia|].
  destruct o as [[line self1]|e|]; [|done|done]. destruct Ho as (_ & _ & Hrem).
  rewrite Hrem, !length_app in *. simpl in Hf, Hn.
  unfold mbind at 1, M_bind at 1. destruct (chunk_size line) as [n|] eqn:Es; [|done]. cbn [lift].
  apply chunk_size_nonneg in Es. destruct (n =? 0); [apply drain_trailers_returns; lia|].
  unfold mbind at 1, M_bind at 1.
  destruct (discard_exact_outcome fuel self1 n s1) as (o & s2 & -> & Ho);
    [lia|pose proof (pending_length self1 s1); lia|].
  destruct o as [self2|e|]; [|done|done]. destruct Ho as (_ & Hle & Hrem2).
  apply (f_equal length) in Hrem2. rewrite length_drop in Hrem2.
  unfold mbind at 1, M_bind at 1.
  destruct (read_line_outcome fuel self2 2 s2) as (o & s3 & -> & Ho);
    [pose proof (pending_length self2 s2); lia|].
  destruct o as [[line' self3]|e|]; [|done|done]. destruct Ho as (_ & _ & Hrem3).
  rewrite Hrem3, !length_app in Hrem2. case_bool_decide; [|done]. apply IH; lia.
Qed.
End Streams.

(** ** Content-Length *)

Lemma content_length_loop_some parsed values n :
  content_length_loop parsed values = Ok (Some n) <->
  Forall (fun v => parse_length v = Ok n) values /\
  (parsed = Some n \/ (parsed = None /\ values <> [])).
Proof.
  revert parsed. induction values as [|v values IH]; intros parsed; simpl.
  { split.
    - intros [= ->]. split; [done|by left].
    - intros [_ [->|[_ ?]]]; done. }
  rewrite Forall_cons. destruct (parse_length v) as [k|] eqn:Ek; simpl.
  2:{ split; [done|]. intros [[? _] _]. done. }
  destruct parsed as [p|].
  - destruct (p =? k) eqn:E; destr_bool.
    + subst. rewrite IH. naive_solver.
    + split; [done|]. intros [[[= ->] _] [[= ->]|[? _]]]; done.
  - rewrite IH. naive_solver.
Qed.

Lemma content_length_loop_none parsed values :
  content_length_loop parsed values = Ok None <-> parsed = None /\ values = [].
Proof.
  revert parsed. induction values as [|v values IH]; intros parsed; simpl.
  { naive_solver. }
  destruct (parse_length v); simpl; [|naive_solver].
  destruct parsed; [destruct (_ =? _)|]; rewrite ?IH; naive_solver.
Qed.

(** The Content-Length of a response is the one value all its Content-Length headers parse to; it is absent only when there is no such header, and disagreement or an unreadable value is an error. *)
Theorem content_length_spec r :
  (forall n, content_length r = Ok (Some n) <->
    header_values r (lit "content-length") <> [] /\
    Forall (fun v => parse_length v = Ok n) (header_values r (lit "content-length"))) /\
  (content_length r = Ok None <-> header_values r (lit "content-length") = []).
Proof.
  unfold content_length. split; [intros n; rewrite content_length_loop_some; naive_solver|].
  rewrite content_length_loop_none. naive_solver.
Qed.

(** ** Chunk-size lines *)

Lemma trim_start_nows s : (forall c, c ∈ s -> is_whitespace c = false) -> trim_start s = s.
Proof. destruct s as [|c s]; [done|]. intros Hs. simpl. by rewrite Hs by set_solver. Qed.

Lemma trim_nows s : (forall c, c ∈ s -> is_whitespace c = false) -> trim s = s.
Proof.
  intros Hs. unfold trim, trim_end. rewrite (trim_start_nows s) by done.
  rewrite trim_start_nows; [by rewrite reverse_involutive|].
  intros c Hc. apply Hs. by rewrite elem_of_reverse in Hc.
Qed.

Lemma from_utf8_ascii s : Forall (fun c => 0 <= c < 128) s -> from_utf8 s = Some s.
Proof.
  induction 1 as [|c s Hc Hs IH]; [done|]. cbn [from_utf8].
  rewrite (proj2 (Z.leb_le 0 c)), (proj2 (Z.ltb_lt c 128)) by lia. simpl. by rewrite IH.
Qed.

Lemma to_digit16_char c : is_Some (to_digit 16 c) -> 0 <= c < 128 /\ c <> 59 /\ is_whitespace c = false.
Proof.
  intros [d Hd]. unfold to_digit in Hd.
  assert (48 <= c <= 57 \/ 97 <= c <= 102 \/ 65 <= c <= 70) as Hc.
  { repeat (case_match; destr_bool; try lia; try done). }
  split_and!; [lia..|]. unfold is_whitespace. lia.
Qed.

(** A chunk-size line that is a number in hexadecimal, alone or followed by a chunk extension in ASCII, is read as that number. *)
Theorem chunk_size_reads_hex n ext :
  0 <= n <= uint_max 64 -> (ext = [] \/ head ext = Some 59) -> Forall (fun c => 0 <= c < 128) ext ->
  chunk_size (fmt_x n ++ ext) = Ok n.
Proof.
  intros Hn Hext Hascii. unfold chunk_size.
  assert (forall c, c ∈ fmt_x n -> 0 <= c < 128 /\ c <> 59 /\ is_whitespace c = false) as Hc.
  { intros c Hin. by apply to_digit16_char, (fmt_x_chars n); [lia|]. }
  rewrite from_utf8_ascii.
  2:{ apply Forall_app; split; [|done]. apply Forall_forall. intros c Hin. by apply Hc. }
  assert (59 ∉ fmt_x n) as Hsemi by (intros Hin; by apply Hc in Hin as (_ & ? & _)).
  simpl. assert (head (split_char 59 (fmt_x n ++ ext)) = Some (fmt_x n)) as ->.
  { destruct Hext as [->|Hh]; [by rewrite app_nil_r, split_char_nosep|].
    destruct ext as [|x ext]; [done|]. injection Hh as ->. by rewrite split_char_app. }
  simpl. rewrite trim_nows by (intros c Hin; by apply Hc).
  unfold fmt_x. by rewrite from_str_radix_fmt.
Qed.

Lemma chunk_size_reads_hex_witness :
  chunk_size (fmt_x 6699 ++ lit ";ext=1") = Ok 6699 /\ fmt_x 6699 = lit "1a2b".
Proof.
  split; [|vm_compute; reflexivity].
  apply chunk_size_reads_hex; [unfold uint_max; lia|right; reflexivity|].
  repeat constructor; vm_compute; congruence.
Defined.

(** ** Bodies *)

(** What the headers of a response say about its body. *)
Definition response_body (r : ResponseHead) (b : bytes) : Prop :=
  if is_chunked r then chunked_body b
  else match content_length r with
       | Ok (Some n) => len b = n
       | Ok None => b = []
       | Err _ => False
       end.

(** The body of a response is skipped whatever follows it. *)
Lemma drain_response_body_skips {W} `{Network W} `{!ReliableReads W} fuel self r b rest (s : st W) :
  response_body r b -> remaining_input self s = b ++ rest ->
  (length (remaining_input self s) < fuel)%nat ->
  exists self' s', drain_response_body fuel self r s = (Val self', s') /\
    stream self' = stream self /\ remaining_input self' s' = rest.
Proof.
  intros Hb Hrem Hf. unfold response_body in Hb. unfold drain_response_body.
  destruct (is_chunked r).
  { eapply drain_chunked_loop_ok; [exact Hb|done|done|]. rewrite Hrem, length_app in Hf. lia. }
  destruct (content_length r) as [[n|]|]; [| |done]; unfold mbind, M_bind; cbn [lift].
  - destruct (discard_exact_outcome fuel self n s) as (o & s' & -> & Ho);
      [pose proof (len_nonneg b); lia|pose proof (pending_length self s); lia|].
    rewrite Hrem in Ho. destruct o as [self'|e|]; [|pose proof (len_nonneg rest); rewrite len_app in Ho; lia|done].
    destruct Ho as (Hst & _ & Hr'). exists self', s'. split_and!; [done|done|].
    rewrite Hr'. subst n. unfold len. by rewrite Nat2Z.id, drop_app_length.
  - subst b. exists self, s. done.
Qed.

(** C15: Draining a response skips exactly its body, chunked or of declared length, however the bytes arrive, and leaves the connection at the first byte of what follows. *)
Theorem drain_response_body_exact {W} `{Network W} `{!ReliableReads W} fuel self r b rest (s : st W) :
  response_body r b -> remaining_input self s = b ++ rest ->
  (length (remaining_input self s) < fuel)%nat ->
  exists self' s', drain_response_body fuel self r s = (Val self', s') /\
    stream self' = stream self /\ remaining_input self' s' = rest.
Proof. apply drain_response_body_skips. Qed.

(** Draining a response body returns on every finite stream, however malformed the body is: each iteration consumes input. *)
Theorem drain_response_body_returns {W} `{Network W} `{!ReliableReads W} fuel self r (s : st W) :
  (length (remaining_input self s) < fuel)%nat -> fst (drain_response_body fuel self r s) <> NoFuel.
Proof.
  intros Hf. unfold drain_response_body. destruct (is_chunked r).
  { by apply drain_chunked_loop_returns. }
  destruct (content_length r) as [[n|]|] eqn:Ec; unfold mbind, M_bind; cbn [lift]; [|done|done].
  destruct (discard_exact_outcome fuel self n s) as (o & s' & -> & Ho);
    [|pose proof (pending_length self s); lia|by destruct o].
  unfold content_length in Ec. apply content_length_loop_some in Ec as [Hv [?|[_ Hne]]]; [done|].
  destruct (header_values _ _) as [|v vs]; [done|]. inversion Hv as [|? ? Hn _]; subst.
  unfold parse_length in Hn. destruct (from_utf8 v); [|done]. simpl in Hn.
  destruct (parse_usize _) eqn:E; [|done]. injection Hn as <-.
  eapply (from_str_radix_bound 10 (uint_max 64)); [|done|exact E]. lia.
Qed.

(** ** Concrete runs *)

Definition chunked_407 : ResponseHead := {| version := 1; status := 407;
  headers := [{| name := lit "Transfer-Encoding"; value := lit "chunked" |}] |}.

Definition chunked_example : bytes :=
  lit "5" ++ crlf ++ lit "hello" ++ crlf ++ lit "0" ++ crlf ++ crlf.

Lemma line_ok_compute line : find_crlf line = None -> len line + 1 < 8192 -> line_ok line.
Proof. intros Hn Hl. split; [by apply find_crlf_none|done]. Qed.

Lemma chunked_example_body : response_body chunked_407 chunked_example.
Proof.
  change (is_chunked chunked_407) with true. unfold response_body. simpl. unfold chunked_example.
  apply chunked_data; [apply line_ok_compute; vm_compute; reflexivity|vm_compute; reflexivity|done|].
  apply chunked_last; [apply line_ok_compute; vm_compute; reflexivity|vm_compute; reflexivity|].
  apply trailers_end.
Qed.

Lemma drain_response_body_exact_witness :
  exists self' s', drain_response_body 100 {| stream := 0; buffer := take 4 chunked_example |} chunked_407
      (one_socket [drop 4 chunked_example; lit "HTTP"]) = (Val self', s') /\
    remaining_input self' s' = lit "HTTP".
Proof.
  destruct (drain_response_body_exact 100 {| stream := 0; buffer := take 4 chunked_example |} chunked_407
    chunked_example (lit "HTTP") (one_socket [drop 4 chunked_example; lit "HTTP"]))
    as (self' & s' & Hd & _ & Hr); [apply chunked_example_body|vm_compute; reflexivity|vm_compute; lia|].
  exists self', s'. split; [exact Hd|exact Hr].
Defined.

Lemma drain_response_body_returns_witness :
  fst (drain_response_body 100 {| stream := 0; buffer := [] |} chunked_407 (one_socket [lit "zz"])) <> NoFuel.
Proof. apply drain_response_body_returns. vm_compute. lia. Defined.
