(* ===== verification/Relay.v ===== *)
(** * Relay: src/relay.rs

    The two pumps of a tunnel and the idle watchdog run concurrently; the
    relay is a machine whose steps are the completions the runtime delivers
    (a read, a write, a shutdown, a timer, a change notification) and the
    passing of time.  [relay_step] is executable, [relay_reachable] is its
    reachability relation.  A pump future that ends is observed in the same
    poll by [try_join!], so the result of the relay is set by the step that
    ends the first failing or the last succeeding pump. *)

From S2P Require Import Prelude RustStr RustNet Auth Io.

(** ** State *)

Inductive Direction := ClientToUpstream | UpstreamToClient.

(** Where the [pump] future is suspended, or how it ended. *)
Inductive PumpPhase :=
| Reading
| Writing (chunk : bytes)
| ShuttingDown
| PumpOk
| PumpErr (e : IoError).

(** [received] and [delivered] record the bytes read from the source and
    the bytes whose [write_all] completed. *)
Record Pump := {
  phase : PumpPhase;
  transferred : Z;
  received : bytes;
  delivered : bytes;
  eof : bool;
}.

(** [watch_deadline] is the instant the watchdog sleeps until, [unseen] tells
    that the activity value changed since the watchdog last read it. *)
Record RelayState := {
  client_to_upstream : Pump;
  upstream_to_client : Pump;
  now : Z;
  activity : Z;
  watch_deadline : Z;
  unseen : bool;
  relay_result : option (result IoError (Z * Z));
}.

Inductive RelayEvent :=
| Tick (elapsed : Z)
| ReadDone (d : Direction) (r : result IoError bytes)
| WriteDone (d : Direction) (r : result IoError unit)
| ShutdownDone (d : Direction) (r : result IoError unit)
| TimerFired
| ActivityChanged.

(** ** Operations *)

Definition relay_buffer_size : Z := 64 * 1024.

Definition pump_start : Pump :=
  {| phase := Reading; transferred := 0; received := []; delivered := []; eof := false |}.

(** One completion for a pump; the flag tells that activity is signalled. *)
Definition pump_step (p : Pump) (ev : RelayEvent) : option (Pump * bool) :=
  match phase p, ev with
  | Reading, ReadDone _ (Err e) =>
    Some ({| phase := PumpErr e; transferred := transferred p; received := received p;
             delivered := delivered p; eof := eof p |}, false)
  | Reading, ReadDone _ (Ok chunk) =>
    if relay_buffer_size <? len chunk then None
    else if bool_decide (chunk = [])
    then Some ({| phase := ShuttingDown; transferred := transferred p; received := received p;
                  delivered := delivered p; eof := true |}, false)
    else Some ({| phase := Writing chunk; transferred := transferred p; received := received p ++ chunk;
                  delivered := delivered p; eof := eof p |}, false)
  | Writing chunk, WriteDone _ (Ok _) =>
    Some ({| phase := Reading; transferred := uint_add 64 (transferred p) (len chunk);
             received := received p; delivered := delivered p ++ chunk; eof := eof p |}, true)
  | Writing _, WriteDone _ (Err e) =>
    Some ({| phase := PumpErr e; transferred := transferred p; received := received p;
             delivered := delivered p; eof := eof p |}, false)
  | ShuttingDown, ShutdownDone _ (Ok _) =>
    Some ({| phase := PumpOk; transferred := transferred p; received := received p;
             delivered := delivered p; eof := eof p |}, false)
  | ShuttingDown, ShutdownDone _ (Err e) =>
    Some ({| phase := PumpErr e; transferred := transferred p; received := received p;
             delivered := delivered p; eof := eof p |}, false)
  | _, _ => None
  end.

(** [try_join!] of the two pumps. *)
Definition join_result (a b : Pump) : option (result IoError (Z * Z)) :=
  match phase a, phase b with
  | PumpErr e, _ => Some (Err e)
  | _, PumpErr e => Some (Err e)
  | PumpOk, PumpOk => Some (Ok (transferred a, transferred b))
  | _, _ => None
  end.

Definition idle_error : IoError :=
  {| io_kind := TimedOut; io_message := lit "tunnel idle timeout elapsed" |}.

(** A pump made progress: store it, publish the activity, poll the join. *)
Definition after_pump (st : RelayState) (a b : Pump) (signalled : bool) : RelayState :=
  {| client_to_upstream := a; upstream_to_client := b; now := now st;
     activity := if signalled then now st else activity st;
     watch_deadline := watch_deadline st;
     unseen := signalled || unseen st;
     relay_result := join_result a b |}.

(** The watchdog reads the activity value and sleeps again. *)
Definition rearm (st : RelayState) (timeout : Z) : RelayState :=
  {| client_to_upstream := client_to_upstream st; upstream_to_client := upstream_to_client st;
     now := now st; activity := activity st; watch_deadline := activity st + timeout;
     unseen := false; relay_result := relay_result st |}.

Definition finish (st : RelayState) (r : result IoError (Z * Z)) : RelayState :=
  {| client_to_upstream := client_to_upstream st; upstream_to_client := upstream_to_client st;
     now := now st; activity := activity st; watch_deadline := watch_deadline st;
     unseen := unseen st; relay_result := Some r |}.

Definition advance (st : RelayState) (elapsed : Z) : RelayState :=
  {| client_to_upstream := client_to_upstream st; upstream_to_client := upstream_to_client st;
     now := now st + elapsed; activity := activity st; watch_deadline := watch_deadline st;
     unseen := unseen st; relay_result := relay_result st |}.

Definition direction_of (ev : RelayEvent) : option Direction :=
  match ev with
  | ReadDone d _ | WriteDone d _ | ShutdownDone d _ => Some d
  | _ => None
  end.

(** The idle watchdog's two branches; without a timeout there is no watchdog. *)
Definition watchdog_step (idle_timeout : option Z) (st : RelayState) (ev : RelayEvent) : option RelayState :=
  match idle_timeout, ev with
  | Some timeout, TimerFired =>
    if now st <? watch_deadline st then None
    else if activity st + timeout <=? now st then Some (finish st (Err idle_error))
    else Some (rearm st timeout)
  | Some timeout, ActivityChanged => if unseen st then Some (rearm st timeout) else None
  | _, _ => None
  end.

Definition relay_step (idle_timeout : option Z) (st : RelayState) (ev : RelayEvent) : option RelayState :=
  match relay_result st with
  | Some _ => None
  | None =>
    match ev with
    | Tick elapsed => if elapsed <? 0 then None else Some (advance st elapsed)
    | TimerFired | ActivityChanged => watchdog_step idle_timeout st ev
    | _ =>
      match direction_of ev with
      | Some ClientToUpstream =>
        '(p, signalled) ← pump_step (client_to_upstream st) ev;
        Some (after_pump st p (upstream_to_client st) signalled)
      | Some UpstreamToClient =>
        '(p, signalled) ← pump_step (upstream_to_client st) ev;
        Some (after_pump st (client_to_upstream st) p signalled)
      | None => None
      end
    end
  end.

(** The watchdog's first iteration reads the activity value set at start, or
    one the transfers published in the same poll, which it would then be
    notified of. *)
Definition relay_init (idle_timeout : option Z) (start_time : Z) : RelayState :=
  {| client_to_upstream := pump_start; upstream_to_client := pump_start;
     now := start_time; activity := start_time;
     watch_deadline := start_time + default 0 idle_timeout; unseen := false;
     relay_result := None |}.

(** The relay driven by a schedule of completions; completions that cannot
    happen in the current state are ignored. *)
Definition relay_run (idle_timeout : option Z) (st : RelayState) (evs : list RelayEvent) : RelayState :=
  foldl (fun st ev => default st (relay_step idle_timeout st ev)) st evs.

Definition relay_bidirectional (idle_timeout : option Z) (start_time : Z) (evs : list RelayEvent) :
  option (result IoError (Z * Z)) :=
  relay_result (relay_run idle_timeout (relay_init idle_timeout start_time) evs).

Inductive relay_reachable (idle_timeout : option Z) (start_time : Z) : RelayState -> Prop :=
| relay_reachable_init : relay_reachable idle_timeout start_time (relay_init idle_timeout start_time)
| relay_reachable_step st ev st' :
    relay_reachable idle_timeout start_time st -> relay_step idle_timeout st ev = Some st' ->
    relay_reachable idle_timeout start_time st'.

(** ** Invariants *)

(** What a pump has read is what it delivered plus the chunk in flight. *)
Definition in_flight (p : Pump) : bytes := match phase p with Writing chunk => chunk | _ => [] end.

Definition pump_inv (p : Pump) : Prop :=
  transferred p = wrap 64 (len (delivered p)) /\
  (exists rest, received p = delivered p ++ rest /\ len rest <= relay_buffer_size /\
     match phase p with PumpErr _ => True | _ => rest = in_flight p end) /\
  (phase p = ShuttingDown \/ phase p = PumpOk -> eof p = true).

Definition relay_inv (idle_timeout : option Z) (st : RelayState) : Prop :=
  pump_inv (client_to_upstream st) /\ pump_inv (upstream_to_client st) /\
  activity st <= now st /\
  (forall timeout, idle_timeout = Some timeout -> watch_deadline st <= activity st + timeout) /\
  (forall n m, relay_result st = Some (Ok (n, m)) ->
     phase (client_to_upstream st) = PumpOk /\ phase (upstream_to_client st) = PumpOk /\
     n = transferred (client_to_upstream st) /\ m = transferred (upstream_to_client st)).

Lemma pump_start_inv : pump_inv pump_start.
Proof. split_and!; [done|by exists []|by intros [|]]. Qed.

Lemma pump_step_inv p ev p' b : pump_inv p -> pump_step p ev = Some (p', b) -> pump_inv p'.
Proof.
  intros (Ht & (rest & Hr & Hl & Hrest) & He). unfold pump_step, pump_inv, in_flight in *.
  destruct (phase p) as [|chunk| | |e] eqn:Hph; destruct ev as [|? [c|]|? [[]|]|? [[]|]| |]; try done.
  - destruct (relay_buffer_size <? len c) eqn:E; [done|]. destr_bool. subst rest. rewrite app_nil_r in Hr.
    case_bool_decide; intros [= <- <-]; simpl.
    + split_and!; [done| |done]. exists []. by rewrite app_nil_r.
    + split_and!; [done| |by intros [|]]. exists c. by rewrite Hr.
  - intros [= <- <-]. simpl. split_and!; [done|by exists rest|by intros [|]].
  - intros [= <- <-]. simpl. subst rest. split_and!; [| |by intros [|]].
    + unfold uint_add. rewrite Ht, len_app. unfold wrap. by rewrite Zplus_mod_idemp_l.
    + exists []. by rewrite app_nil_r.
  - intros [= <- <-]. simpl. split_and!; [done|by exists rest|by intros [|]].
  - intros [= <- <-]. simpl. split_and!; [done|by exists rest|auto].
  - intros [= <- <-]. simpl. split_and!; [done|by exists rest|by intros [|]].
Qed.

Lemma join_result_ok a b n m :
  join_result a b = Some (Ok (n, m)) ->
  phase a = PumpOk /\ phase b = PumpOk /\ n = transferred a /\ m = transferred b.
Proof. unfold join_result. destruct (phase a), (phase b); naive_solver. Qed.

Lemma relay_step_inv idle st ev st' : relay_inv idle st -> relay_step idle st ev = Some st' -> relay_inv idle st'.
Proof.
  intros (Ha & Hb & Hact & Hdl & Hres). unfold relay_step. destruct (relay_result st) eqn:Er; [done|].
  assert (forall p q sg, pump_inv p -> pump_inv q -> relay_inv idle (after_pump st p q sg)) as Hafter.
  { intros p q sg Hp Hq. split_and!; [done|done|..]; simpl.
    - by destruct sg; [lia|].
    - intros timeout Hi. specialize (Hdl timeout Hi). destruct sg; lia.
    - apply join_result_ok. }
  destruct ev as [dt|d r|d r|d r| |].
  - destruct (dt <? 0) eqn:E; [done|]. destr_bool. intros [= <-].
    split_and!; [done|done|simpl; lia|done|]. simpl. congruence.
  - destruct d; simpl; intros ([p sg] & Hp & [= <-])%bind_Some; apply Hafter; eauto using pump_step_inv.
  - destruct d; simpl; intros ([p sg] & Hp & [= <-])%bind_Some; apply Hafter; eauto using pump_step_inv.
  - destruct d; simpl; intros ([p sg] & Hp & [= <-])%bind_Some; apply Hafter; eauto using pump_step_inv.
  - unfold watchdog_step. destruct idle as [t|]; [|done]. destruct (now st <? _); [done|].
    destruct (_ <=? now st); intros [= <-]; (split_and!; [done|done|done|..]); simpl;
      [done|done|by intros ? [= ->]|congruence].
  - unfold watchdog_step. destruct idle as [t|]; [|done]. destruct (unseen st); [|done].
    intros [= <-]. split_and!; [done|done|done|..]; simpl; [by intros ? [= ->]|congruence].
Qed.

Lemma relay_reachable_inv idle t0 st : relay_reachable idle t0 st -> relay_inv idle st.
Proof.
  induction 1 as [|st ev st' Hr IH Hs]; [|by eapply relay_step_inv].
  split_and!; [apply pump_start_inv|apply pump_start_inv|simpl; lia| |done].
  intros timeout ->. simpl. lia.
Qed.

Lemma relay_run_reachable idle t0 st evs :
  relay_reachable idle t0 st -> relay_reachable idle t0 (relay_run idle st evs).
Proof.
  unfold relay_run. revert st. induction evs as [|ev evs IH]; intros st Hr; [done|]. simpl. apply IH.
  destruct (relay_step idle st ev) as [st'|] eqn:E; [|done]. simpl. by eapply relay_reachable_step.
Qed.

(** ** Properties *)

(** C18: In every state of a tunnel, each side has been given a prefix of what the other side sent, in order and complete except for at most one 64 KiB chunk in flight, and the byte counter is the delivered length modulo 2^64. *)
Theorem relay_preserves_bytes idle t0 st :
  relay_reachable idle t0 st ->
  Forall (fun p => transferred p = wrap 64 (len (delivered p)) /\
                   exists rest, received p = delivered p ++ rest /\ len rest <= relay_buffer_size)
    [client_to_upstream st; upstream_to_client st].
Proof.
  intros ((? & (? & ? & ? & _) & _) & (? & (? & ? & ? & _) & _) & _)%relay_reachable_inv.
  repeat constructor; eauto.
Qed.

(** A tunnel with a 10 second idle limit: the client sends [ping], the
    upstream answers [pong], both ends close. *)
Definition ping_pong : list RelayEvent :=
  [ReadDone ClientToUpstream (Ok (lit "ping")); Tick 1; WriteDone ClientToUpstream (Ok tt); ActivityChanged;
   ReadDone UpstreamToClient (Ok (lit "pong")); WriteDone UpstreamToClient (Ok tt); Tick 2;
   ReadDone ClientToUpstream (Ok []); ShutdownDone ClientToUpstream (Ok tt);
   ReadDone UpstreamToClient (Ok []); ShutdownDone UpstreamToClient (Ok tt)].

Definition ping_pong_state (n : nat) : RelayState :=
  relay_run (Some 10) (relay_init (Some 10) 0) (take n ping_pong).

Lemma relay_preserves_bytes_witness :
  Forall (fun p => transferred p = wrap 64 (len (delivered p)) /\
                   exists rest, received p = delivered p ++ rest /\ len rest <= relay_buffer_size)
    [client_to_upstream (ping_pong_state 5); upstream_to_client (ping_pong_state 5)].
Proof.
  apply (relay_preserves_bytes (Some 10) 0). apply relay_run_reachable. apply relay_reachable_init.
Defined.

(** A tunnel that ends without error has seen the end of both streams, shut both writers down and delivered every byte it read; its two counters are the delivered lengths modulo 2^64. *)
Theorem relay_ok_complete idle t0 st n m :
  relay_reachable idle t0 st -> relay_result st = Some (Ok (n, m)) ->
  Forall (fun p => phase p = PumpOk /\ eof p = true /\ delivered p = received p)
    [client_to_upstream st; upstream_to_client st] /\
  n = wrap 64 (len (received (client_to_upstream st))) /\
  m = wrap 64 (len (received (upstream_to_client st))).
Proof.
  intros (Ha & Hb & _ & _ & Hres)%relay_reachable_inv Hr.
  specialize (Hres n m Hr) as (Hpa & Hpb & -> & ->).
  assert (forall p, pump_inv p -> phase p = PumpOk -> eof p = true /\ delivered p = received p) as Hp.
  { intros p (_ & (rest & Hrec & _ & Hrest) & He) Hph. rewrite Hph in Hrest. subst rest.
    unfold in_flight in Hrec. rewrite Hph, app_nil_r in Hrec. auto. }
  destruct (Hp _ Ha Hpa) as [? Hda]. destruct (Hp _ Hb Hpb) as [? Hdb].
  destruct Ha as [-> _]. destruct Hb as [-> _]. rewrite Hda, Hdb.
  split_and!; [repeat constructor; done|done|done].
Qed.

Lemma relay_ok_complete_witness :
  relay_result (ping_pong_state 11) = Some (Ok (4, 4)) /\
  delivered (client_to_upstream (ping_pong_state 11)) = lit "ping" /\
  4 = wrap 64 (len (received (client_to_upstream (ping_pong_state 11)))).
Proof.
  split; [vm_compute; reflexivity|]. split; [vm_compute; reflexivity|].
  apply (relay_ok_complete (Some 10) 0 (ping_pong_state 11) 4 4);
    [apply relay_run_reachable; apply relay_reachable_init|vm_compute; reflexivity].
Defined.

(** *** Time read off the completions *)

(** The relay driven by completions that all happen. *)
Fixpoint relay_path (idle_timeout : option Z) (st : RelayState) (evs : list RelayEvent) : option RelayState :=
  match evs with
  | [] => Some st
  | ev :: evs' => st' ← relay_step idle_timeout st ev; relay_path idle_timeout st' evs'
  end.

(** The time that passes during a schedule. *)
Definition elapsed (evs : list RelayEvent) : Z :=
  foldr (fun ev n => match ev with Tick dt => dt + n | _ => n end) 0 evs.

Lemma elapsed_app a b : elapsed (a ++ b) = elapsed a + elapsed b.
Proof. induction a as [|[] a IH]; simpl; lia. Qed.

Lemma relay_path_snoc idle st evs ev :
  relay_path idle st (evs ++ [ev]) = (st' ← relay_path idle st evs; relay_step idle st' ev).
Proof.
  revert st. induction evs as [|x evs IH]; intros st; simpl.
  - destruct (relay_step idle st ev); done.
  - destruct (relay_step idle st x) as [st1|]; [|done]. apply IH.
Qed.

Lemma relay_path_reachable idle t0 st evs st' :
  relay_reachable idle t0 st -> relay_path idle st evs = Some st' -> relay_reachable idle t0 st'.
Proof.
  revert st. induction evs as [|ev evs IH]; intros st Hr; simpl; [by intros [= <-]|].
  intros (st1 & H1 & Hp)%bind_Some. eapply IH; [|exact Hp]. by eapply relay_reachable_step.
Qed.

(** What one step does to the clock and to the activity. *)
Lemma relay_step_times idle st ev st' :
  relay_step idle st ev = Some st' ->
  now st' = now st + elapsed [ev] /\ 0 <= elapsed [ev] /\
  activity st' = match ev with WriteDone _ (Ok _) => now st | _ => activity st end.
Proof.
  unfold relay_step. destruct (relay_result st); [done|]. destruct ev as [dt|d r|d r|d r| |]; simpl.
  - destruct (dt <? 0) eqn:E; [done|]. destr_bool. intros [= <-]. simpl. lia.
  - assert (forall p p' b, pump_step p (ReadDone d r) = Some (p', b) -> b = false) as Hb
      by (intros p p' b; unfold pump_step; repeat case_match; naive_solver).
    destruct d; intros ([p b] & ->%Hb & [= <-])%bind_Some; simpl; lia.
  - assert (forall p p' b, pump_step p (WriteDone d r) = Some (p', b) -> b = match r with Ok _ => true | _ => false end) as Hb
      by (intros p p' b; unfold pump_step; repeat case_match; naive_solver).
    destruct d; intros ([p b] & ->%Hb & [= <-])%bind_Some; destruct r; simpl; lia.
  - assert (forall p p' b, pump_step p (ShutdownDone d r) = Some (p', b) -> b = false) as Hb
      by (intros p p' b; unfold pump_step; repeat case_match; naive_solver).
    destruct d; intros ([p b] & ->%Hb & [= <-])%bind_Some; simpl; lia.
  - unfold watchdog_step. destruct idle; [|done]. destruct (_ <? _); [done|].
    destruct (_ <=? _); intros [= <-]; simpl; lia.
  - unfold watchdog_step. destruct idle; [|done]. destruct (unseen st); [|done]. intros [= <-]. simpl. lia.
Qed.

(** The activity value is never older than the last completed write. *)
Lemma relay_path_times idle t0 evs st :
  relay_path idle (relay_init idle t0) evs = Some st ->
  now st = t0 + elapsed evs /\ 0 <= elapsed evs /\ now st - activity st <= elapsed evs /\
  forall before d after, evs = before ++ WriteDone d (Ok tt) :: after -> now st - activity st <= elapsed after.
Proof.
  revert st. induction evs as [|ev evs IH] using rev_ind; intros st; [intros [= <-]; simpl; split_and!; [lia..|]; by intros []|].
  rewrite relay_path_snoc. intros (st1 & H1 & Hs)%bind_Some. destruct (IH st1 H1) as (Hn & He & Ha & Hw).
  destruct (relay_step_times _ _ _ _ Hs) as (Hn' & He' & Ha'). rewrite elapsed_app.
  destruct (relay_reachable_inv idle t0 st1) as (_ & _ & Hle & _); [by eapply relay_path_reachable, H1; constructor|].
  split_and!; [lia|lia|repeat case_match; lia|].
  intros before d after Hsplit. destruct after as [|x after _] using rev_ind.
  - apply app_inj_tail in Hsplit as [-> ->]. simpl in *. lia.
  - rewrite app_comm_cons, app_assoc in Hsplit. apply app_inj_tail in Hsplit as [-> ->].
    specialize (Hw before d after eq_refl). rewrite elapsed_app. repeat case_match; lia.
Qed.

(** C19: The idle watchdog never closes a tunnel in which a transfer completed less than the idle timeout ago.  When a step other than a completion of a pump ends the relay, there is an idle timeout, the result is the timeout error, and by the time that passed during the completions so far, at least the timeout lies behind the start of the relay and behind every completed write of either direction; a tunnel without an idle timeout is never ended this way. *)
Theorem watchdog_only_when_idle idle t0 evs st ev st' :
  relay_path idle (relay_init idle t0) evs = Some st -> relay_step idle st ev = Some st' ->
  direction_of ev = None -> relay_result st' <> None ->
  exists timeout, idle = Some timeout /\ relay_result st' = Some (Err idle_error) /\ timeout <= elapsed evs /\
    forall before d after, evs = before ++ WriteDone d (Ok tt) :: after -> timeout <= elapsed after.
Proof.
  intros Hp Hs Hd Hres. destruct (relay_path_times _ _ _ _ Hp) as (_ & _ & Hstart & Hwrites).
  assert (exists timeout, idle = Some timeout /\ activity st + timeout <= now st /\ relay_result st' = Some (Err idle_error))
    as (timeout & Hi & Hidle & Hr).
  { unfold relay_step in Hs. destruct (relay_result st) eqn:Er; [done|]. destruct ev; try done.
    - destruct (_ <? 0); [done|]. injection Hs as <-. simpl in Hres. congruence.
    - unfold watchdog_step in Hs. destruct idle as [t|]; [|done]. destruct (now st <? _); [done|].
      destruct (_ <=? now st) eqn:E; destr_bool; injection Hs as <-; simpl in *; [eauto|congruence].
    - unfold watchdog_step in Hs. destruct idle as [t|]; [|done]. destruct (unseen st); [|done].
      injection Hs as <-. simpl in Hres. congruence. }
  exists timeout. split_and!; [done|done|lia|]. intros before d after Hsplit. specialize (Hwrites before d after Hsplit). lia.
Qed.

(** C20: A tunnel idle for the configured timeout is closed as soon as the watchdog's timer is polled: in every running state whose last activity is at least the timeout old, the timer is due and its step ends the relay with the timeout error. *)
Theorem watchdog_fires_when_idle timeout t0 st :
  relay_reachable (Some timeout) t0 st -> relay_result st = None -> activity st + timeout <= now st ->
  exists st', relay_step (Some timeout) st TimerFired = Some st' /\
    relay_result st' = Some (Err idle_error).
Proof.
  intros (_ & _ & _ & Hdl & _)%relay_reachable_inv Hr Hidle. specialize (Hdl timeout eq_refl).
  unfold relay_step, watchdog_step. rewrite Hr.
  rewrite (proj2 (Z.ltb_ge _ _)) by lia. rewrite (proj2 (Z.leb_le _ _)) by lia. eauto.
Qed.

Lemma watchdog_fires_when_idle_witness :
  exists st', relay_step (Some 10) (relay_run (Some 10) (ping_pong_state 6) [Tick 10]) TimerFired = Some st' /\
    relay_result st' = Some (Err idle_error).
Proof.
  apply (watchdog_fires_when_idle 10 0); [|vm_compute; reflexivity|vm_compute; congruence].
  apply relay_run_reachable, relay_run_reachable, relay_reachable_init.
Defined.

(** Six completions, then ten seconds without any. *)
Lemma watchdog_only_when_idle_witness :
  exists st st', relay_path (Some 10) (relay_init (Some 10) 0) (take 6 ping_pong ++ [Tick 10]) = Some st /\
    relay_step (Some 10) st TimerFired = Some st' /\ relay_result st' = Some (Err idle_error) /\
    forall before d after, take 6 ping_pong ++ [Tick 10] = before ++ WriteDone d (Ok tt) :: after -> 10 <= elapsed after.
Proof.
  eexists. eexists. split; [vm_compute; reflexivity|]. split; [vm_compute; reflexivity|].
  destruct (watchdog_only_when_idle (Some 10) 0 (take 6 ping_pong ++ [Tick 10])
    (relay_run (Some 10) (ping_pong_state 6) [Tick 10]) TimerFired
    (relay_run (Some 10) (ping_pong_state 6) [Tick 10; TimerFired])) as (timeout & Ht & Hr & _ & Hw);
    [vm_compute; reflexivity|vm_compute; reflexivity|reflexivity|vm_compute; congruence|].
  injection Ht as <-. split; [reflexivity|exact Hw].
Defined.
