(* ===== verification/RelayClock.v ===== *)
(** * RelayClock: the range of the clock in src/relay.rs

    [idle_watchdog] adds the idle timeout to an [Instant], which panics when
    the sum cannot be represented.  [Relay] adds without a limit; here every
    addition of the watchdog is checked against the last instant of the
    platform, and the two are compared.  [select!] polls its branches in a
    random order, so the transfers may be polled, and even end, before the
    watchdog makes its first addition. *)

From S2P Require Import Prelude RustStr RustNet Auth Io Relay.

(** ** Checked additions *)

(** What polling the relay does: nothing is ready, a panic, or a step. *)
Inductive polled := NotReady | Panics | Steps (st : RelayState).

Definition polled_of (r : option RelayState) : polled := match r with Some st => Steps st | None => NotReady end.

Section Clock.
Context (limit : Z).  (* the last instant *)

(** [Instant + Duration]; [None] is the panic. *)
Definition instant_add (t d : Z) : option Z := if t + d <=? limit then Some (t + d) else None.

(** [*activity.borrow_and_update() + timeout], then sleep until it. *)
Definition rearm_checked (st : RelayState) (timeout : Z) : polled :=
  match instant_add (activity st) timeout with
  | None => Panics
  | Some deadline =>
    Steps {| client_to_upstream := client_to_upstream st; upstream_to_client := upstream_to_client st;
             now := now st; activity := activity st; watch_deadline := deadline;
             unseen := false; relay_result := relay_result st |}
  end.

Definition watchdog_checked (idle_timeout : option Z) (st : RelayState) (ev : RelayEvent) : polled :=
  match idle_timeout, ev with
  | Some timeout, TimerFired =>
    if now st <? watch_deadline st then NotReady
    else
      match instant_add (activity st) timeout with
      | None => Panics
      | Some idle_until => if idle_until <=? now st then Steps (finish st (Err idle_error)) else rearm_checked st timeout
      end
  | Some timeout, ActivityChanged => if unseen st then rearm_checked st timeout else NotReady
  | _, _ => NotReady
  end.

Definition relay_step_checked (idle_timeout : option Z) (st : RelayState) (ev : RelayEvent) : polled :=
  match relay_result st, ev with
  | None, (TimerFired | ActivityChanged) => watchdog_checked idle_timeout st ev
  | _, _ => polled_of (relay_step idle_timeout st ev)
  end.

(** Completions of the pumps, and time; the others are the watchdog's. *)
Definition of_transfers (ev : RelayEvent) : bool := match ev with TimerFired | ActivityChanged => false | _ => true end.

(** The first poll of the [select!]: [transfers_first] is its random choice,
    [ready] what happens while the transfers are polled.  Only the watchdog
    looks at [watch_deadline], which it sets here. *)
Definition relay_first_poll (idle_timeout : option Z) (start_time : Z) (transfers_first : bool) (ready : list RelayEvent) : polled :=
  let started := relay_init idle_timeout start_time in
  let ready := List.filter of_transfers ready in
  match idle_timeout with
  | None => Steps (relay_run None started ready)
  | Some timeout =>
    if transfers_first then
      let st := relay_run idle_timeout started ready in
      match relay_result st with
      | Some _ => Steps st
      | None => rearm_checked st timeout
      end
    else
      match rearm_checked started timeout with
      | Steps st => Steps (relay_run idle_timeout st ready)
      | p => p
      end
  end.

Definition poll_next (idle_timeout : option Z) (p : polled) (ev : RelayEvent) : polled :=
  match p with
  | Steps st => match relay_step_checked idle_timeout st ev with NotReady => Steps st | p' => p' end
  | _ => p
  end.

(** A whole relay. *)
Definition relay_checked (idle_timeout : option Z) (start_time : Z) (transfers_first : bool) (ready evs : list RelayEvent) : polled :=
  foldl (poll_next idle_timeout) (relay_first_poll idle_timeout start_time transfers_first ready) evs.

(** ** Agreement *)

Lemma instant_add_ok t d : t + d <= limit -> instant_add t d = Some (t + d).
Proof. intros Hl. unfold instant_add. by rewrite (proj2 (Z.leb_le _ _)). Qed.

Lemma rearm_checked_ok st timeout : activity st + timeout <= limit -> rearm_checked st timeout = Steps (rearm st timeout).
Proof. intros Hl. unfold rearm_checked. by rewrite instant_add_ok. Qed.

Lemma watchdog_checked_ok timeout st ev :
  activity st + timeout <= limit ->
  watchdog_checked (Some timeout) st ev = polled_of (watchdog_step (Some timeout) st ev).
Proof.
  intros Hl. unfold watchdog_checked, watchdog_step. destruct ev; try done.
  - destruct (now st <? _); [done|]. rewrite instant_add_ok by done.
    destruct (_ <=? now st); [done|]. by rewrite rearm_checked_ok.
  - destruct (unseen st); [|done]. by rewrite rearm_checked_ok.
Qed.

Lemma relay_step_checked_ok idle st ev :
  (forall timeout, idle = Some timeout -> activity st + timeout <= limit) ->
  relay_step_checked idle st ev = polled_of (relay_step idle st ev).
Proof.
  intros Hl. unfold relay_step_checked, relay_step. destruct (relay_result st); [done|].
  destruct ev; try done; (destruct idle as [timeout|]; [|done]); by apply watchdog_checked_ok, Hl.
Qed.

(** A panic and an ended relay stay as they are. *)
Lemma poll_panics idle evs : foldl (poll_next idle) Panics evs = Panics.
Proof. by induction evs. Qed.

Lemma poll_ended idle st evs : relay_result st <> None -> foldl (poll_next idle) (Steps st) evs = Steps st.
Proof.
  intros Hr. induction evs as [|ev evs IH]; [done|]. simpl. unfold relay_step_checked, relay_step.
  by destruct (relay_result st).
Qed.
End Clock.

(** ** Times of a run *)

(** The time a schedule takes; a negative tick cannot happen. *)
Definition passed (evs : list RelayEvent) : Z :=
  foldr (fun ev n => match ev with Tick dt => Z.max 0 dt + n | _ => n end) 0 evs.

Lemma passed_nonneg evs : 0 <= passed evs.
Proof. induction evs as [|[] evs IH]; simpl; lia. Qed.

Lemma passed_app a b : passed (a ++ b) = passed a + passed b.
Proof. induction a as [|[] a IH]; simpl; lia. Qed.

Lemma passed_filter evs : passed (List.filter of_transfers evs) = passed evs.
Proof. induction evs as [|[] evs IH]; simpl; lia. Qed.

Lemma relay_run_app idle st a b : relay_run idle st (a ++ b) = relay_run idle (relay_run idle st a) b.
Proof. apply foldl_app. Qed.

Lemma relay_step_now idle st ev : now (default st (relay_step idle st ev)) <= now st + passed [ev].
Proof.
  destruct (relay_step idle st ev) as [st'|] eqn:E; simpl; [|destruct ev; lia].
  apply relay_step_times in E as (-> & ? & _). destruct ev; simpl in *; lia.
Qed.

Lemma relay_run_now idle st evs : now (relay_run idle st evs) <= now st + passed evs.
Proof.
  revert st. induction evs as [|ev evs IH]; intros st; [simpl; lia|].
  change (relay_run idle st (ev :: evs)) with (relay_run idle (default st (relay_step idle st ev)) evs).
  pose proof (IH (default st (relay_step idle st ev))). pose proof (relay_step_now idle st ev).
  change (ev :: evs) with ([ev] ++ evs). rewrite passed_app. lia.
Qed.

(** The activity is never before the start. *)
Lemma relay_reachable_since idle t0 st : relay_reachable idle t0 st -> t0 <= activity st /\ t0 <= now st.
Proof.
  induction 1 as [|st ev st' _ [IHa IHn] Hs]; [simpl; lia|].
  apply relay_step_times in Hs as (-> & ? & ->). repeat case_match; lia.
Qed.

(** The pumps do not move the deadline, and leave a note of their activity. *)
Lemma transfers_step idle timeout t0 st ev :
  of_transfers ev = true ->
  watch_deadline st = t0 + timeout /\ (unseen st = true \/ activity st = t0) ->
  let st' := default st (relay_step idle st ev) in
  watch_deadline st' = t0 + timeout /\ (unseen st' = true \/ activity st' = t0).
Proof.
  intros Hev Hst. cbv zeta. unfold relay_step. destruct (relay_result st); [done|].
  destruct ev as [dt|d r|d r|d r| |]; try done; simpl; [by destruct (dt <? 0)|..];
    (destruct d; destruct (pump_step _ _) as [[p b]|]; [|done| |done]; simpl; destruct Hst as [? [->|?]];
      destruct b; rewrite ?orb_true_r; simpl; auto).
Qed.

Lemma transfers_run idle timeout t0 st evs :
  watch_deadline st = t0 + timeout /\ (unseen st = true \/ activity st = t0) ->
  let st' := relay_run idle st (List.filter of_transfers evs) in
  watch_deadline st' = t0 + timeout /\ (unseen st' = true \/ activity st' = t0).
Proof.
  revert st. induction evs as [|ev evs IH]; intros st Hst; [done|]. simpl.
  destruct (of_transfers ev) eqn:E; [|by apply IH]. apply IH. by apply transfers_step.
Qed.

(** Arming the watchdog after the transfers is a notification. *)
Lemma first_rearm timeout t0 st :
  relay_result st = None ->
  watch_deadline st = t0 + timeout /\ (unseen st = true \/ activity st = t0) ->
  rearm st timeout = relay_run (Some timeout) st [ActivityChanged].
Proof.
  intros Hr [Hd Hu]. unfold relay_run, relay_step, watchdog_step. simpl. rewrite Hr. destruct (unseen st) eqn:Eu; [done|].
  destruct Hu as [?|Ha]; [done|]. destruct st. simpl in *. unfold rearm. simpl. by subst.
Qed.

(** In range, the checked relay is the unlimited one. *)
Lemma poll_in_range limit idle t0 st evs :
  relay_reachable idle t0 st -> (forall timeout, idle = Some timeout -> now st + passed evs + timeout <= limit) ->
  foldl (poll_next limit idle) (Steps st) evs = Steps (relay_run idle st evs).
Proof.
  revert st. induction evs as [|ev evs IH]; intros st Hr Hl; [done|].
  change (passed (ev :: evs)) with (passed ([ev] ++ evs)) in Hl. rewrite passed_app in Hl.
  pose proof (relay_step_now idle st ev) as Hn. pose proof (passed_nonneg evs). pose proof (passed_nonneg [ev]).
  assert (poll_next limit idle (Steps st) ev = Steps (default st (relay_step idle st ev))) as Hp.
  { simpl. rewrite relay_step_checked_ok; [by destruct (relay_step idle st ev)|]. intros timeout Hi. specialize (Hl timeout Hi).
    destruct (relay_reachable_inv _ _ _ Hr) as (_ & _ & Hact & _). lia. }
  change (foldl (poll_next limit idle) (poll_next limit idle (Steps st) ev) evs = Steps (relay_run idle (default st (relay_step idle st ev)) evs)).
  rewrite Hp. apply IH; [by apply (relay_run_reachable _ _ _ [ev])|]. intros timeout Hi. specialize (Hl timeout Hi). lia.
Qed.

(** ** Properties *)

(** C21: The watchdog's clock arithmetic, over a whole relay and for both orders in which its first poll may look at the transfers and the watchdog.  If the start time plus the idle timeout is beyond the last instant the relay panics, unless the transfers are polled first and end within that very poll, in which case it ends with their result.  If the timeout stays within range for the time the relay takes, or there is none, the relay never panics and is the unlimited relay of [relay_bidirectional] on the same completions. *)
Theorem relay_clock_range limit idle t0 transfers_first ready evs :
  let first := relay_run idle (relay_init idle t0) (List.filter of_transfers ready) in
  (forall timeout, idle = Some timeout -> limit < t0 + timeout ->
     relay_checked limit idle t0 transfers_first ready evs =
       match transfers_first, relay_result first with true, Some _ => Steps first | _, _ => Panics end) /\
  ((forall timeout, idle = Some timeout -> t0 + passed (ready ++ evs) + timeout <= limit) ->
     relay_checked limit idle t0 transfers_first ready evs =
       Steps (relay_run idle (relay_init idle t0)
         (List.filter of_transfers ready ++ (if transfers_first then [ActivityChanged] else []) ++ evs))).
Proof.
  intros first. assert (relay_reachable idle t0 first) as Hr by (apply relay_run_reachable; constructor).
  destruct (relay_reachable_since _ _ _ Hr) as [Ha _]. unfold relay_checked. split.
  - intros timeout -> Hl. unfold relay_first_poll. fold first. destruct transfers_first.
    + destruct (relay_result first) eqn:Ef; [apply poll_ended; congruence|].
      unfold rearm_checked, instant_add. rewrite (proj2 (Z.leb_gt _ _)) by lia. apply poll_panics.
    + unfold rearm_checked, instant_add. simpl activity. rewrite (proj2 (Z.leb_gt _ _)) by lia. apply poll_panics.
  - intros Hl. rewrite passed_app in Hl. pose proof (passed_nonneg ready). pose proof (passed_nonneg evs).
    pose proof (relay_run_now idle (relay_init idle t0) (List.filter of_transfers ready)) as Hn. rewrite passed_filter in Hn.
    simpl now in Hn. fold first in Hn. rewrite !relay_run_app. fold first.
    set (armed := relay_run idle first (if transfers_first then [ActivityChanged] else [])).
    assert (relay_first_poll limit idle t0 transfers_first ready = Steps armed) as ->.
    { unfold relay_first_poll, armed. fold first. destruct idle as [timeout|]; [|by destruct transfers_first; unfold relay_run, relay_step; simpl; destruct (relay_result first)].
      specialize (Hl timeout eq_refl). destruct transfers_first.
      - destruct (relay_result first) eqn:Ef; [unfold relay_run, relay_step; simpl; by rewrite Ef|].
        destruct (relay_reachable_inv _ _ _ Hr) as (_ & _ & Hact & _). rewrite rearm_checked_ok by lia.
        f_equal. apply (first_rearm timeout t0); [done|]. apply transfers_run. simpl. auto.
      - rewrite rearm_checked_ok by (simpl; lia). done. }
    apply (poll_in_range limit idle t0); [by apply relay_run_reachable|]. intros timeout Hi. specialize (Hl timeout Hi).
    pose proof (relay_run_now idle first (if transfers_first then [ActivityChanged] else [])) as Hn2. fold armed in Hn2.
    assert (passed (if transfers_first then [ActivityChanged] else []) = 0) as Hz by (by destruct transfers_first). lia.
Qed.

(** The greatest [u64] panics unless both ends are closed at once; ten
    seconds of idle time fit in the range. *)
Lemma relay_clock_range_witness :
  relay_checked (2 ^ 63 - 1) (Some (uint_max 64)) 1000 true (take 1 ping_pong) [] = Panics /\
  relay_checked (2 ^ 63 - 1) (Some 10) 1000 true (take 3 ping_pong) (drop 3 ping_pong) =
    Steps (relay_run (Some 10) (relay_init (Some 10) 1000) (List.filter of_transfers (take 3 ping_pong) ++ [ActivityChanged] ++ drop 3 ping_pong)).
Proof.
  split.
  - destruct (relay_clock_range (2 ^ 63 - 1) (Some (uint_max 64)) 1000 true (take 1 ping_pong) []) as [Hp _].
    transitivity Panics; [|reflexivity]. etransitivity; [apply (Hp (uint_max 64)); [reflexivity|vm_compute; reflexivity]|].
    vm_compute. reflexivity.
  - apply (relay_clock_range (2 ^ 63 - 1) (Some 10) 1000 true (take 3 ping_pong) (drop 3 ping_pong)).
    intros timeout [= <-]. vm_compute. discriminate.
Defined.
