(* ===== verification/Challenge.v ===== *)
(** * Challenge: the authentication headers of src/server.rs

    Choosing a scheme from the [Proxy-Authenticate] headers of a response,
    finding and decoding the challenge of a scheme, and the classification of
    the response itself.  The [base64] crate is the class [Base64]. *)

From S2P Require Import Prelude RustStr RustNet Config Auth Io Http1.

(** ** Data *)

Inductive ProxyError :=
| Proxy_Io (e : IoError)
| Proxy_Http (e : HttpError)
| Authentication (e : AuthError)
| ConnectTimeout
| DirectConnectTimeout (destination : Endpoint)
| InvalidDestination (message : str)
| UpstreamStatus (code : Z)
| AuthenticationRequired
| AuthenticationSchemeMissing
| InvalidAuthenticationToken
| ConnectionClosedDuringAuth
| TooManyAuthenticationRounds.

Record Challenge := { token : option str }.

(** [base64::engine::general_purpose::STANDARD]. *)
Class Base64 := {
  b64_encode : bytes -> str;
  b64_decode : str -> option bytes;
}.

(** ** Operations *)

(** The first [Some] a loop with [continue] and [return Some(..)] meets. *)
Fixpoint first_some {A B} (f : A -> option B) (l : list A) : option B :=
  match l with
  | [] => None
  | x :: l' => match f x with Some b => Some b | None => first_some f l' end
  end.

(** One comma-separated item: scheme name and optional token. *)
Definition challenge_item (scheme : AuthScheme) (item : str) : option Challenge :=
  match split_whitespace item with
  | [] => None
  | nm :: fields =>
    if eq_ignore_ascii_case nm (header_name scheme) then Some {| token := head fields |} else None
  end.

Definition challenge_value (scheme : AuthScheme) (v : bytes) : option Challenge :=
  match from_utf8 v with
  | None => None
  | Some text => first_some (challenge_item scheme) (split_char 44 text)
  end.

Definition find_challenge (response : ResponseHead) (scheme : AuthScheme) : option Challenge :=
  first_some (challenge_value scheme) (header_values response (lit "proxy-authenticate")).

(** The schemes a mode admits, in order of preference. *)
Definition mode_schemes (mode : AuthMode) : result ProxyError (list AuthScheme) :=
  match mode with
  | AuthAuto => Ok [Negotiate; Ntlm]
  | AuthNegotiate => Ok [Negotiate]
  | AuthNtlm => Ok [Ntlm]
  | AuthNone => Err AuthenticationRequired
  end.

Definition choose_scheme (response : ResponseHead) (mode : AuthMode) :
  result ProxyError (AuthScheme * Challenge) :=
  schemes ← mode_schemes mode;
  ok_or AuthenticationSchemeMissing
    (first_some (fun scheme => pair scheme <$> find_challenge response scheme) schemes).

Definition decode_challenge `{Base64} (challenge : Challenge) : result ProxyError (option bytes) :=
  transpose ((fun t => ok_or InvalidAuthenticationToken (b64_decode t)) <$> token challenge).

Definition is_connect_success (response : ResponseHead) : bool :=
  (200 <=? status response) && (status response <? 300).

(** ** Properties *)

Lemma first_some_spec {A B} (f : A -> option B) l b :
  first_some f l = Some b <->
  exists l1 x l2, l = l1 ++ x :: l2 /\ f x = Some b /\ Forall (fun y => f y = None) l1.
Proof.
  induction l as [|y l IH]; simpl.
  { split; [done|]. intros (l1 & x & l2 & Hl & _). by destruct l1. }
  destruct (f y) as [b'|] eqn:Ef.
  - split.
    + intros [= ->]. by exists [], y, l.
    + intros (l1 & x & l2 & Hl & Hx & Hn). destruct l1 as [|z l1]; simplify_eq/=; [done|].
      inversion Hn; congruence.
  - rewrite IH. split.
    + intros (l1 & x & l2 & -> & Hx & Hn). exists (y :: l1), x, l2. split_and!; [done|done|by constructor].
    + intros (l1 & x & l2 & Hl & Hx & Hn). destruct l1 as [|z l1]; simplify_eq/=.
      inversion Hn; subst. by exists l1, x, l2.
Qed.

Lemma first_some_none {A B} (f : A -> option B) l :
  first_some f l = None <-> Forall (fun y => f y = None) l.
Proof.
  induction l as [|y l IH]; simpl; [done|]. rewrite Forall_cons.
  destruct (f y); [naive_solver|]. rewrite IH. naive_solver.
Qed.

(** The scheme is offered by some [Proxy-Authenticate] item. *)
Definition offers (response : ResponseHead) (scheme : AuthScheme) : Prop :=
  exists v text item nm fields,
    v ∈ header_values response (lit "proxy-authenticate") /\ from_utf8 v = Some text /\
    item ∈ split_char 44 text /\ split_whitespace item = nm :: fields /\
    eq_ignore_ascii_case nm (header_name scheme) = true.

Lemma find_challenge_offers response scheme :
  is_Some (find_challenge response scheme) <-> offers response scheme.
Proof.
  unfold find_challenge. split.
  - intros [c (l1 & v & l2 & Hv & Hc & _)%first_some_spec]. unfold challenge_value in Hc.
    destruct (from_utf8 v) as [text|] eqn:Ev; [|done].
    apply first_some_spec in Hc as (i1 & item & i2 & Hi & Hit & _). unfold challenge_item in Hit.
    destruct (split_whitespace item) as [|nm fields] eqn:Es; [done|].
    destruct (eq_ignore_ascii_case nm _) eqn:En; [|done].
    exists v, text, item, nm, fields. split_and!; try done; [rewrite Hv|rewrite Hi]; set_solver.
  - intros (v & text & item & nm & fields & Hv & Ev & Hi & Es & En).
    destruct (first_some _ _) eqn:E; [by eexists|]. exfalso.
    apply first_some_none in E. rewrite Forall_forall in E. specialize (E v Hv).
    unfold challenge_value in E. rewrite Ev in E. apply first_some_none in E.
    rewrite Forall_forall in E. specialize (E item Hi). unfold challenge_item in E.
    by rewrite Es, En in E.
Qed.

Lemma find_challenge_none response scheme :
  find_challenge response scheme = None <-> ~ offers response scheme.
Proof.
  rewrite <-find_challenge_offers, <-not_eq_None_Some.
  destruct (find_challenge response scheme); naive_solver.
Qed.

(** C36: In automatic mode Negotiate is chosen whenever the proxy offers it, NTLM exactly when only NTLM is offered, and the forced modes accept their own scheme only; without an admissible offer the result is an error. *)
Theorem choose_scheme_preference response mode scheme :
  (exists c, choose_scheme response mode = Ok (scheme, c)) <->
  offers response scheme /\
  match mode, scheme with
  | AuthAuto, Negotiate => True
  | AuthAuto, Ntlm => ~ offers response Negotiate
  | AuthNegotiate, Negotiate => True
  | AuthNtlm, Ntlm => True
  | _, _ => False
  end.
Proof.
  pose proof (find_challenge_offers response scheme) as Ho.
  pose proof (find_challenge_none response Negotiate) as Hn. unfold choose_scheme.
  destruct mode, scheme; simpl;
    destruct (find_challenge response Negotiate) eqn:E1, (find_challenge response Ntlm) eqn:E2; simpl;
    naive_solver.
Qed.

(** The challenge returned for a scheme is the first item, over all Proxy-Authenticate headers in order, whose name is the scheme's, ignoring case; its token is the second word of that item. *)
Theorem find_challenge_first response scheme c :
  find_challenge response scheme = Some c ->
  exists vs1 v vs2 text items1 item items2 nm fields,
    header_values response (lit "proxy-authenticate") = vs1 ++ v :: vs2 /\
    Forall (fun v' => challenge_value scheme v' = None) vs1 /\
    from_utf8 v = Some text /\ split_char 44 text = items1 ++ item :: items2 /\
    Forall (fun i => challenge_item scheme i = None) items1 /\
    split_whitespace item = nm :: fields /\
    eq_ignore_ascii_case nm (header_name scheme) = true /\ token c = head fields.
Proof.
  intros (vs1 & v & vs2 & Hv & Hc & Hn)%first_some_spec. unfold challenge_value in Hc.
  destruct (from_utf8 v) as [text|] eqn:Ev; [|done].
  apply first_some_spec in Hc as (i1 & item & i2 & Hi & Hit & Hni). unfold challenge_item in Hit.
  destruct (split_whitespace item) as [|nm fields] eqn:Es; [done|].
  destruct (eq_ignore_ascii_case nm _) eqn:En; [|done]. injection Hit as <-.
  by exists vs1, v, vs2, text, i1, item, i2, nm, fields.
Qed.

Definition two_offers : ResponseHead := {| version := 1; status := 407; headers :=
  [{| name := lit "Proxy-Authenticate"; value := lit "NTLM" |};
   {| name := lit "proxy-authenticate"; value := lit "Basic, negotiate dHlwZTI=" |}] |}.

Lemma find_challenge_first_witness :
  exists c, find_challenge two_offers Negotiate = Some c /\ token c = Some (lit "dHlwZTI=") /\
  exists vs1 v vs2, header_values two_offers (lit "proxy-authenticate") = vs1 ++ v :: vs2 /\
    Forall (fun v' => challenge_value Negotiate v' = None) vs1.
Proof.
  eexists. split; [vm_compute; reflexivity|]. split; [reflexivity|].
  destruct (find_challenge_first two_offers Negotiate {| token := Some (lit "dHlwZTI=") |})
    as (vs1 & v & vs2 & text & i1 & item & i2 & nm & fields & Hv & Hn & _); [vm_compute; reflexivity|].
  exists vs1, v, vs2. split; [exact Hv|exact Hn].
Defined.
