(* ===== verification/Server.v ===== *)
(** * Server: the tunnel logic of src/server.rs

    Requests and error responses as sent, connecting, the upstream
    authentication exchange, direct routing, and the handling of one client
    from its request head to the relay.  All of it runs in the monad of [Io],
    over any network, parser, base64 codec and authentication provider. *)

From stdpp Require Import gmap.
From S2P Require Import Prelude RustStr RustNet Config Routing Auth Io Http1 Http1Body Relay Challenge.

(** ** Messages *)

Definition nl : str := [13; 10].

(** The text built by [send_connect_request]. *)
Definition connect_request_text (destination : Endpoint) (authorization : option str) : str :=
  let d := Endpoint_fmt destination in
  lit "CONNECT " ++ d ++ lit " HTTP/1.1" ++ nl ++
  lit "Host: " ++ d ++ nl ++
  lit "Proxy-Connection: Keep-Alive" ++ nl ++
  lit "Connection: Keep-Alive" ++ nl ++
  match authorization with
  | Some a => lit "Proxy-Authorization: " ++ a ++ nl
  | None => []
  end ++ nl.

(** The text built by [send_error]; [body.len()] counts UTF-8 bytes. *)
Definition error_body (code : Z) (reason : str) : str := fmt_u code ++ lit " " ++ reason ++ [10].

Definition error_text (code : Z) (reason : str) : str :=
  let body := error_body code reason in
  lit "HTTP/1.1 " ++ fmt_u code ++ lit " " ++ reason ++ nl ++
  lit "Connection: close" ++ nl ++
  lit "Content-Type: text/plain; charset=utf-8" ++ nl ++
  lit "Content-Length: " ++ fmt_u (len (as_bytes body)) ++ nl ++
  nl ++ body.

Definition established_text : str := lit "HTTP/1.1 200 Connection Established" ++ nl ++ nl.

Definition MAX_AUTH_ROUNDS : nat := 4.

(** [filter] with the [seen] set of [resolve_direct_addresses]. *)
Fixpoint select_direct (direct_cidrs : list IpCidr) (seen : gset SocketAddr) (addresses : list SocketAddr) :
  list SocketAddr :=
  match addresses with
  | [] => []
  | address :: rest =>
    if is_direct_address (SocketAddr_ip address) direct_cidrs then
      if decide (address ∈ seen) then select_direct direct_cidrs seen rest
      else address :: select_direct direct_cidrs ({[address]} ∪ seen) rest
    else select_direct direct_cidrs seen rest
  end.

(** The completions the runtime will deliver to a relay, and its start time. *)
Class RelayWorld (W : Type) :=
  relay_schedule : sock -> sock -> W -> (Z * list RelayEvent) * W.

Section Operations.
Context {W : Type} `{Network W} `{AuthFactory W} `{RelayWorld W} `{Httparse} `{Base64}.
Context (config : ProxyConfig) (fuel : nat).

Abbreviation Io := (M W ProxyError).

(** [io_result?] with [From<io::Error> for ProxyError]. *)
Definition io_try {A} (m : Io (result IoError A)) : Io A := r ← m; lift (map_err Proxy_Io r).

Definition send_connect_request (s : sock) (destination : Endpoint) (authorization : option str) : Io unit :=
  io_try (write_all s (as_bytes (connect_request_text destination authorization))).

Definition send_error (s : sock) (code : Z) (reason : str) : Io unit :=
  io_try (write_all s (as_bytes (error_text code reason))).

(** [timeout(..).await.map_err(..)??] followed by [set_nodelay] and [new]. *)
Definition connected (on_timeout : ProxyError) (r : timed (result IoError sock)) : Io BufferedStream :=
  match r with
  | Elapsed => throw on_timeout
  | InTime r =>
    s ← lift (map_err Proxy_Io r);
    io_try (set_nodelay s);;
    mret (BufferedStream_new s)
  end.

Definition connect_upstream : Io BufferedStream :=
  r ← tcp_connect (ToHost (endpoint_host (upstream config)) (endpoint_port (upstream config)))
        (connect_timeout config);
  connected ConnectTimeout r.

Definition connect_direct (destination : Endpoint) (addresses : list SocketAddr) : Io BufferedStream :=
  r ← tcp_connect (ToAddrs addresses) (connect_timeout config);
  connected (DirectConnectTimeout destination) r.

Definition resolve_direct_addresses (destination : Endpoint) : Io (option (list SocketAddr)) :=
  r ← lookup_host (endpoint_host destination) (endpoint_port destination) (dns_timeout config);
  match r with
  | InTime (Ok addresses) =>
    let addresses := select_direct (direct_cidrs config) ∅ addresses in
    mret (if bool_decide (addresses = []) then None else Some addresses)
  | InTime (Err _) => mret None
  | Elapsed => mret None
  end.

Definition next_response (up : BufferedStream) : Io (ResponseHead * BufferedStream) :=
  mapE Proxy_Http (read_response_head fuel up (max_header_bytes config)).

(** The [for _ in 0..MAX_AUTH_ROUNDS] loop. *)
Fixpoint auth_rounds (rounds : nat) (destination : Endpoint) (scheme : AuthScheme) (context : AuthContext)
    (up : BufferedStream) (response : ResponseHead) (challenge : option bytes) (must_drain_response : bool) :
  Io BufferedStream :=
  match rounds with
  | O => throw TooManyAuthenticationRounds
  | S rounds' =>
    up ← (if must_drain_response then
            if connection_close response then throw ConnectionClosedDuringAuth
            else mapE Proxy_Http (drain_response_body fuel up response)
          else mret up);
    '(tok, context) ← auth_step context challenge;
    tok ← lift (map_err Authentication tok);
    let encoded := b64_encode tok in
    let authorization := header_name scheme ++ lit " " ++ encoded in
    send_connect_request (stream up) destination (Some authorization);;
    '(response, up) ← next_response up;
    if is_connect_success response then mret up
    else if negb (status response =? 407) then throw (UpstreamStatus (status response))
    else
      found ← lift (ok_or AuthenticationSchemeMissing (find_challenge response scheme));
      challenge ← lift (decode_challenge found);
      auth_rounds rounds' destination scheme context up response challenge true
  end.

Definition establish_upstream_tunnel (destination : Endpoint) : Io BufferedStream :=
  up ← connect_upstream;
  send_connect_request (stream up) destination None;;
  '(response, up) ← next_response up;
  if is_connect_success response then mret up
  else if negb (status response =? 407) then throw (UpstreamStatus (status response))
  else if decide (auth config = AuthNone) then throw AuthenticationRequired
  else
    '(scheme, first_challenge) ← lift (choose_scheme response (auth config));
    let target_name := lit "HTTP/" ++ endpoint_host (upstream config) in
    created ← auth_create scheme target_name;
    context ← lift (map_err Authentication created);
    challenge ← lift (decode_challenge first_challenge);
    if connection_close response then
      match challenge with
      | Some _ => throw ConnectionClosedDuringAuth
      | None =>
        up ← connect_upstream;
        auth_rounds MAX_AUTH_ROUNDS destination scheme context up response challenge false
      end
    else auth_rounds MAX_AUTH_ROUNDS destination scheme context up response challenge true.

Definition establish_tunnel (destination : Endpoint) : Io BufferedStream :=
  direct ← (if decide (routing config = RoutingAuto) then resolve_direct_addresses destination else mret None);
  match direct with
  | Some addresses => connect_direct destination addresses
  | None => establish_upstream_tunnel destination
  end.

(** [relay_bidirectional(client, upstream, idle_timeout).await?]; a relay
    that is still running at the end of its schedule has no result.  The clock
    has no last instant here; [RelayClock] has the relay with one, and shows
    that the two agree as long as the idle timeout stays within its range. *)
Definition run_relay (client up : sock) : Io (Z * Z) :=
  '(start_time, evs) ← act (relay_schedule client up) (fun _ => EvRelay client up);
  match relay_bidirectional (idle_timeout config) start_time evs with
  | Some r => lift (map_err Proxy_Io r)
  | None => no_fuel
  end.

Definition handle_client (client : sock) : Io unit :=
  io_try (set_nodelay client);;
  request ← try (read_request_head fuel client (max_header_bytes config));
  match request with
  | Err error => send_error client 400 (lit "Bad Request");; throw (Proxy_Http error)
  | Ok (request, client_prefetched) =>
    if negb (eq_ignore_ascii_case (method request) (lit "CONNECT"))
    then send_error client 405 (lit "CONNECT Required")
    else
      match Endpoint_from_str (target request) with
      | Err error =>
        send_error client 400 (lit "Invalid CONNECT Target");;
        throw (InvalidDestination (EndpointParseError_fmt error))
      | Ok destination =>
        tunnel ← try (establish_tunnel destination);
        match tunnel with
        | Err error => send_error client 502 (lit "Bad Gateway");; throw error
        | Ok tunnel =>
          io_try (write_all client (as_bytes established_text));;
          let '(up, upstream_prefetched) := into_parts tunnel in
          (if bool_decide (client_prefetched = []) then mret tt
           else io_try (write_all up client_prefetched));;
          (if bool_decide (upstream_prefetched = []) then mret tt
           else io_try (write_all client upstream_prefetched));;
          run_relay client up;;
          mret tt
        end
      end
  end.
End Operations.
