(* ===== verification/Base64.v ===== *)
(** * Base64: RFC 4648 base64, an instance of the codec interface

    The sources call the [base64] crate's STANDARD engine.  This file states
    what fastpx relies on as laws of the interface of [Challenge] and gives
    an executable codec that satisfies them, in which concrete handshakes
    are evaluated. *)

From S2P Require Import Prelude RustStr RustNet Config Auth Io Http1 Challenge.

(** ** What the proxy relies on *)

Definition is_b64_char (c : Z) : Prop :=
  65 <= c <= 90 \/ 97 <= c <= 122 \/ 48 <= c <= 57 \/ c = 43 \/ c = 47 \/ c = 61.

Class Base64Laws `{Base64} : Prop := {
  b64_alphabet b : Forall is_u8 b -> Forall is_b64_char (b64_encode b);
  b64_roundtrip b : Forall is_u8 b -> b64_decode (b64_encode b) = Some b;
}.

(** ** The codec *)

Definition sextet_char (v : Z) : Z :=
  if v <? 26 then 65 + v
  else if v <? 52 then 71 + v
  else if v <? 62 then v - 4
  else if v =? 62 then 43 else 47.

Definition char_sextet (c : Z) : option Z :=
  if (65 <=? c) && (c <=? 90) then Some (c - 65)
  else if (97 <=? c) && (c <=? 122) then Some (c - 71)
  else if (48 <=? c) && (c <=? 57) then Some (c + 4)
  else if c =? 43 then Some 62
  else if c =? 47 then Some 63
  else None.

Fixpoint rfc_encode (b : bytes) : str :=
  match b with
  | [] => []
  | [x] => [sextet_char (x / 4); sextet_char (x mod 4 * 16); 61; 61]
  | [x; y] => [sextet_char (x / 4); sextet_char (x mod 4 * 16 + y / 16); sextet_char (y mod 16 * 4); 61]
  | x :: y :: z :: b' =>
    sextet_char (x / 4) :: sextet_char (x mod 4 * 16 + y / 16) ::
    sextet_char (y mod 16 * 4 + z / 64) :: sextet_char (z mod 64) :: rfc_encode b'
  end.

(** Padding is required and the unused bits must be zero. *)
Fixpoint rfc_decode (s : str) : option bytes :=
  match s with
  | [] => Some []
  | c0 :: c1 :: c2 :: c3 :: s' =>
    v0 ← char_sextet c0; v1 ← char_sextet c1;
    if c3 =? 61 then
      if bool_decide (s' = []) then
        if c2 =? 61 then if v1 mod 16 =? 0 then Some [v0 * 4 + v1 / 16] else None
        else
          v2 ← char_sextet c2;
          if v2 mod 4 =? 0 then Some [v0 * 4 + v1 / 16; v1 mod 16 * 16 + v2 / 4] else None
      else None
    else
      v2 ← char_sextet c2; v3 ← char_sextet c3;
      rest ← rfc_decode s';
      Some (v0 * 4 + v1 / 16 :: v1 mod 16 * 16 + v2 / 4 :: v2 mod 4 * 64 + v3 :: rest)
  | _ => None
  end.

Global Instance rfc_base64 : Base64 := {| b64_encode := rfc_encode; b64_decode := rfc_decode |}.

Example rfc_decode_ex : rfc_decode (lit "dHlwZTI=") = Some (lit "type2").
Proof. reflexivity. Qed.
Example rfc_encode_ex : rfc_encode (lit "type1") = lit "dHlwZTE=".
Proof. reflexivity. Qed.

(** ** The laws hold *)

Lemma char_sextet_char v : 0 <= v < 64 -> char_sextet (sextet_char v) = Some v.
Proof.
  intros Hv. unfold sextet_char, char_sextet.
  repeat (case_match; destr_bool; try lia); f_equal; lia.
Qed.

Lemma sextet_char_alphabet v : 0 <= v < 64 -> is_b64_char (sextet_char v) /\ sextet_char v <> 61.
Proof. intros Hv. unfold sextet_char, is_b64_char. repeat (case_match; destr_bool); lia. Qed.

(** Induction in steps of three bytes. *)
Lemma bytes_ind3 (P : bytes -> Prop) :
  P [] -> (forall x, P [x]) -> (forall x y, P [x; y]) ->
  (forall x y z b, P b -> P (x :: y :: z :: b)) -> forall b, P b.
Proof.
  intros H0 H1 H2 H3. fix IH 1. intros [|x [|y [|z b]]]; [done|done|done|]. apply H3, IH.
Qed.

Ltac sextet := Z.to_euclidean_division_equations; lia.

Lemma rfc_encode_alphabet b : Forall is_u8 b -> Forall is_b64_char (rfc_encode b).
Proof.
  unfold is_u8. induction b as [|x|x y|x y z b IH] using bytes_ind3; intros Hb; simpl;
    rewrite ?Forall_cons, ?Forall_nil in *; destruct_and? Hb; split_and?;
    try (apply sextet_char_alphabet; sextet); auto; unfold is_b64_char; lia.
Qed.

Lemma rfc_decode_encode b : Forall is_u8 b -> rfc_decode (rfc_encode b) = Some b.
Proof.
  unfold is_u8. induction b as [|x|x y|x y z b IH] using bytes_ind3; intros Hb; cbn [rfc_encode rfc_decode];
    rewrite ?Forall_cons in Hb; destruct_and? Hb; [done|..];
    rewrite !char_sextet_char by sextet; cbn [mbind option_bind].
  - rewrite !Z.eqb_refl, bool_decide_eq_true_2 by done.
    rewrite (proj2 (Z.eqb_eq _ _)) by sextet. do 2 f_equal. sextet.
  - rewrite Z.eqb_refl, bool_decide_eq_true_2 by done.
    rewrite (proj2 (Z.eqb_neq _ _)) by (apply sextet_char_alphabet; sextet).
    rewrite (proj2 (Z.eqb_eq _ 0)) by sextet. do 2 f_equal; [sextet|f_equal; sextet].
  - rewrite (proj2 (Z.eqb_neq _ _)) by (apply sextet_char_alphabet; sextet).
    rewrite IH by done. cbn [mbind option_bind]. do 2 f_equal; [sextet|f_equal; [sextet|f_equal; sextet]].
Qed.

Global Instance rfc_base64_laws : Base64Laws.
Proof. split; [apply rfc_encode_alphabet|apply rfc_decode_encode]. Qed.
