(* ===== verification/Scenario.v ===== *)
(** * Scenario: concrete worlds for the server

    The provider that src/bin/fastpx-bench.rs substitutes for SSPI, and
    scripted clients and upstream proxies, with exchanges in the style of the
    integration tests, in which the theorems about the server are evaluated. *)

From S2P Require Import Prelude RustStr RustNet Config Routing Auth Io Http1 Http1Body Relay Challenge Base64 Server.

(** ** [MockFactory] and [MockContext] *)

Record MockContext := { mock_step : Z }.

Definition MockFactory_create {W} (_scheme : AuthScheme) (_target_name : str) (w : W) :
  result AuthError MockContext * W := (Ok {| mock_step := 0 |}, w).

Definition MockContext_step {W} (self : MockContext) (_challenge : option bytes) (w : W) :
  (result AuthError bytes * MockContext) * W :=
  let tok := if mock_step self =? 0 then lit "type1" else lit "type3" in
  ((Ok tok, {| mock_step := uint_add 64 (mock_step self) 1 |}), w).

(** It needs nothing of the world it is used in. *)
Definition MockFactory (W : Type) : AuthFactory W := {|
  AuthContext := MockContext;
  create := MockFactory_create;
  step := MockContext_step;
|}.

Global Instance script_provider : AuthFactory Script := MockFactory Script.

(** Tunnels of the scripted world carry [ping] and [pong] and close. *)
Global Instance script_relay : RelayWorld Script := fun _ _ w => ((0, ping_pong), w).

(** ** Scripted peers *)

Definition test_config (mode : AuthMode) (rt : RoutingMode) : ProxyConfig := {|
  listen := SocketV4 2130706433 3128;
  upstream := Endpoint_new (lit "127.0.0.1") 8080;
  auth := mode;
  routing := rt;
  direct_cidrs := [];
  dns_timeout := 5;
  connect_timeout := 5;
  idle_timeout := Some 10;
  max_header_bytes := 32 * 1024;
  max_connections := 16;
|}.

Definition http_lines (ls : list string) (body : string) : bytes :=
  foldr (fun l acc => lit l ++ nl ++ acc) (nl ++ lit body) ls.

Definition resp_200 : bytes := http_lines ["HTTP/1.1 200 Connection Established"%string] "".
Definition resp_407_offer : bytes :=
  http_lines ["HTTP/1.1 407 Auth"; "Proxy-Authenticate: NTLM"; "Content-Length: 0"]%string "".
Definition resp_407_token : bytes :=
  http_lines ["HTTP/1.1 407 Auth"; "Proxy-Authenticate: NTLM dHlwZTI="; "Content-Length: 5"]%string "hello".

Definition client_request : bytes :=
  http_lines ["CONNECT service.test:443 HTTP/1.1"; "Host: service.test:443"]%string "ping".

Definition world_with (sockets : list (list bytes)) (connects : list sock) : st Script :=
  Build_st {| sc_in := sockets; sc_connects := (fun s => InTime (Ok s)) <$> connects;
              sc_lookups := []; sc_out := [] |} [].

(** Socket 0 is the client; the upstream keeps the connection open. *)
Definition ntlm_world : st Script :=
  world_with [[client_request]; [resp_407_offer; resp_407_token; resp_200]] [1%nat].

Definition service : Endpoint := Endpoint_new (lit "service.test") 443.

Definition fuel0 : nat := 300.

Definition writes_to (s : sock) (st : st Script) : list bytes :=
  snd <$> filter (fun p => fst p = s) (sc_out (world st)).

(** The head limit is lowered so that little fuel is needed. *)
Definition small_config (mode : AuthMode) (rt : RoutingMode) : ProxyConfig :=
  {| listen := listen (test_config mode rt); upstream := upstream (test_config mode rt);
     auth := mode; routing := rt; direct_cidrs := []; dns_timeout := 5; connect_timeout := 5;
     idle_timeout := Some 10; max_header_bytes := 256; max_connections := 16 |}.
