(* ===== verification/Errors.v ===== *)
(** * Errors: what the proxy writes about a failed client

    The [Display] texts that thiserror derives for [AuthError], [HttpError]
    and [ProxyError], and the values [handle_client] of src/server.rs logs:
    the destination and the error.  The texts of [io::Error] and of
    [httparse::Error] are not the program's; they are the class
    [LibraryTexts].  A client or an upstream proxy chooses the target, the
    status and the tokens, and the theorem says that none of them can break a
    line of the log. *)

From S2P Require Import Prelude RustStr RustNet Config Routing Auth Io Http1 Http1Body Relay Challenge Base64 Server Scenario.

(** ** Texts *)

Class LibraryTexts := {
  io_error_text : IoError -> str;
  parse_error_text : ParseError -> str;
}.

Definition AuthError_fmt (e : AuthError) : str :=
  match e with
  | UnsupportedPlatform => lit "native SSPI authentication is only available on Windows"
  | Native message => lit "SSPI authentication failed: " ++ message
  | ContextComplete => lit "the SSPI context is already complete"
  | TokenTooLarge => lit "the authentication token is too large"
  end.

Definition HttpError_fmt `{LibraryTexts} (e : HttpError) : str :=
  match e with
  | Http_Io e => lit "I/O error: " ++ io_error_text e
  | UnexpectedEof => lit "connection closed before the HTTP headers were complete"
  | HeaderTooLarge => lit "HTTP headers exceed the configured limit"
  | Parse e => lit "malformed HTTP message: " ++ parse_error_text e
  | MissingRequestFields => lit "HTTP message is missing required request fields"
  | InvalidHeaderText => lit "HTTP header contains invalid UTF-8"
  | InvalidContentLength => lit "invalid Content-Length header"
  | ConflictingContentLength => lit "response contains conflicting Content-Length headers"
  | InvalidChunkedBody => lit "malformed chunked response body"
  end.

Definition ProxyError_fmt `{LibraryTexts} (e : ProxyError) : str :=
  match e with
  | Proxy_Io e => lit "I/O error: " ++ io_error_text e
  | Proxy_Http e => lit "HTTP protocol error: " ++ HttpError_fmt e
  | Authentication e => lit "authentication error: " ++ AuthError_fmt e
  | ConnectTimeout => lit "upstream connection timed out"
  | DirectConnectTimeout destination => lit "direct connection to " ++ Endpoint_fmt destination ++ lit " timed out"
  | InvalidDestination message => lit "invalid CONNECT destination: " ++ message
  | UpstreamStatus code => lit "upstream proxy returned HTTP " ++ fmt_u code
  | AuthenticationRequired => lit "upstream proxy requires authentication but auth is disabled"
  | AuthenticationSchemeMissing => lit "upstream proxy did not offer the configured authentication scheme"
  | InvalidAuthenticationToken => lit "upstream proxy supplied an invalid base64 authentication token"
  | ConnectionClosedDuringAuth => lit "upstream proxy closed the connection during authentication"
  | TooManyAuthenticationRounds => lit "upstream proxy exceeded the authentication round limit"
  end.

(** ** Lines *)

Definition line_break (c : Z) : bool := (c =? 10) || (c =? 13).
Definition one_line (t : str) : Prop := forallb (fun c => negb (line_break c)) t = true.

Lemma one_line_app a b : one_line (a ++ b) <-> one_line a /\ one_line b.
Proof. unfold one_line. by rewrite forallb_app, andb_true_iff. Qed.

Lemma one_line_elem t : one_line t <-> forall c, c ∈ t -> line_break c = false.
Proof.
  unfold one_line. rewrite forallb_forall. setoid_rewrite <-list_elem_of_In. setoid_rewrite negb_true_iff. done.
Qed.

(** Digits are no line breaks. *)
Lemma one_line_digits radix t : radix <= 36 -> (forall c, c ∈ t -> is_Some (to_digit radix c)) -> one_line t.
Proof.
  intros Hr Ht. apply one_line_elem. intros c [d Hd]%Ht. unfold line_break.
  unfold to_digit in Hd. repeat case_match; destr_bool; simplify_eq; lia.
Qed.

Lemma one_line_fmt_u n : 0 <= n -> one_line (fmt_u n).
Proof. intros Hn. apply (one_line_digits 10); [lia|]. intros c. by apply fmt_u_chars. Qed.

Lemma one_line_fmt_x n : 0 <= n -> one_line (fmt_x n).
Proof. intros Hn. apply (one_line_digits 16); [lia|]. intros c. by apply fmt_x_chars. Qed.

(** The host check works on bytes; a line break is one byte. *)
Lemma one_line_endpoint d : endpoint_wf d -> one_line (Endpoint_fmt d).
Proof.
  intros (_ & Hbad & Hport & _). assert (one_line (endpoint_host d)) as Hh.
  { apply one_line_elem. intros c Hc. destruct (line_break c) eqn:Eb; [|done].
    assert (existsb invalid_host_byte (as_bytes (endpoint_host d)) = true) as Ht; [|congruence].
    apply existsb_exists. exists c. apply orb_true_iff in Eb as [->%Z.eqb_eq| ->%Z.eqb_eq]; (split; [|reflexivity]);
      apply list_elem_of_In, list_elem_of_bind; eexists; (split; [|exact Hc]); apply list_elem_of_here. }
  pose proof (one_line_fmt_u (endpoint_port d) ltac:(lia)) as Hp.
  unfold Endpoint_fmt. by case_match; rewrite !one_line_app; split_and!.
Qed.

Lemma one_line_endpoint_error e : one_line (EndpointParseError_fmt e).
Proof. by destruct e as [| | | | | | |[]]. Qed.

(** ** Hypotheses on code outside the repository *)

(** The texts of the standard library and of httparse are single lines. *)
Class OneLineTexts `{LibraryTexts} : Prop := {
  io_error_line e : one_line (io_error_text e);
  parse_error_line e : one_line (parse_error_text e);
}.

(** So are the messages of the security provider. *)
Class OneLineProvider (W : Type) `{AuthFactory W} : Prop := {
  create_line scheme nm w message w' : create scheme nm w = (Err (Native message), w') -> one_line message;
  step_line ctx challenge w message ctx' w' : step ctx challenge w = (Err (Native message), ctx', w') -> one_line message;
}.

(** httparse gives the status code as a [u16]. *)
Class U16Codes `{Httparse} : Prop :=
  code_u16 slots bs r c : response_parse slots bs = Ok r -> parsed_code r = Some c -> 0 <= c <= 65535.

(** ** Values and errors of programs *)

Section Rules.
Context {W : Type}.

Definition yields {E A} (m : M W E A) (Q : A -> Prop) (P : E -> Prop) : Prop :=
  forall s, match fst (m s) with Val a => Q a | Exn e => P e | NoFuel => True end.

Lemma yields_bind {E A B} (m : M W E A) (k : A -> M W E B) Q R P :
  yields m Q P -> (forall a, Q a -> yields (k a) R P) -> yields (m ≫= k) R P.
Proof.
  intros Hm Hk s. specialize (Hm s). unfold mbind, M_bind. destruct (m s) as [[a|e|] s1]; [|done|done]. by apply Hk.
Qed.

Lemma yields_then {E A B} (m : M W E A) (k : A -> M W E B) R P :
  yields m (fun _ => True) P -> (forall a, yields (k a) R P) -> yields (m ≫= k) R P.
Proof. intros Hm Hk. eapply yields_bind; [exact Hm|]. auto. Qed.

Lemma yields_weaken {E A} (m : M W E A) (Q Q' : A -> Prop) (P P' : E -> Prop) :
  yields m Q P -> (forall a, Q a -> Q' a) -> (forall e, P e -> P' e) -> yields m Q' P'.
Proof. intros Hm HQ HP s. specialize (Hm s). destruct (fst (m s)); auto. Qed.

Lemma yields_any {E A} (m : M W E A) : yields m (fun _ => True) (fun _ => True).
Proof. intros s. by destruct (fst (m s)). Qed.

Lemma yields_ret {E A} (a : A) (Q : A -> Prop) (P : E -> Prop) : Q a -> yields (mret a) Q P.
Proof. by intros HQ s. Qed.
Lemma yields_throw {E A} (e : E) (Q : A -> Prop) (P : E -> Prop) : P e -> yields (throw e) Q P.
Proof. by intros HP s. Qed.
Lemma yields_no_fuel {E A} (Q : A -> Prop) (P : E -> Prop) : yields no_fuel Q P.
Proof. by intros s. Qed.

Lemma yields_lift {E A} (r : result E A) (Q : A -> Prop) (P : E -> Prop) :
  match r with Ok a => Q a | Err e => P e end -> yields (lift r) Q P.
Proof. intros Hr s. by destruct r. Qed.

Lemma yields_mapE {E F A} (h : E -> F) (m : M W E A) Q (P : F -> Prop) :
  yields m Q (fun e => P (h e)) -> yields (mapE h m) Q P.
Proof. intros Hm s. specialize (Hm s). unfold mapE. by destruct (m s) as [[] ?]. Qed.

Lemma yields_try {E F A} (m : M W E A) Q P (P' : F -> Prop) :
  yields m Q P -> yields (try m) (fun r => match r with Ok a => Q a | Err e => P e end) P'.
Proof. intros Hm s. specialize (Hm s). unfold try. by destruct (m s) as [[] ?]. Qed.

Lemma yields_act {E A} (f : W -> A * W) ev (Q : A -> Prop) (P : E -> Prop) :
  (forall w a w', f w = (a, w') -> Q a) -> yields (act f ev) Q P.
Proof. intros Hf s. unfold act. destruct (f (world s)) as [a w'] eqn:E'. by eapply Hf. Qed.
End Rules.

(** ** The code *)

(** The part of an error that comes from a peer or the provider. *)
Definition tame (e : ProxyError) : Prop :=
  match e with
  | Authentication (Native message) => one_line message
  | DirectConnectTimeout d => endpoint_wf d
  | InvalidDestination message => one_line message
  | UpstreamStatus code => 0 <= code
  | _ => True
  end.

Lemma one_line_http `{LibraryTexts} `{!OneLineTexts} e : one_line (HttpError_fmt e).
Proof.
  destruct e; cbn [HttpError_fmt]; try reflexivity; apply one_line_app; (split; [reflexivity|]);
    [apply io_error_line|apply parse_error_line].
Qed.

Lemma tame_one_line `{LibraryTexts} `{!OneLineTexts} e : tame e -> one_line (ProxyError_fmt e).
Proof.
  intros He. destruct e as [e|e|e| |d|message|code| | | | |]; cbn [ProxyError_fmt]; try reflexivity;
    apply one_line_app; (split; [reflexivity|]).
  - apply io_error_line.
  - apply one_line_http.
  - destruct e as [|message| |]; cbn [AuthError_fmt]; try reflexivity. by apply one_line_app.
  - apply one_line_app. split; [by apply one_line_endpoint|reflexivity].
  - exact He.
  - by apply one_line_fmt_u.
Qed.

Section Code.
Context {W : Type} `{Network W} `{AuthFactory W} `{RelayWorld W} `{Httparse} `{Base64}.
Context `{!OneLineProvider W} `{!U16Codes}.
Context (config : ProxyConfig) (fuel : nat).

Lemma response_head_code up max :
  yields (W := W) (read_response_head fuel up max) (fun r => 0 <= status (fst r)) (fun _ => True).
Proof.
  revert up. induction fuel as [|n IH]; intros up; cbn [read_response_head]; [apply yields_no_fuel|].
  case_match.
  - eapply (yields_bind _ _ (fun r => 0 <= status r)); [|intros r Hr; by apply yields_ret].
    apply yields_lift. unfold parse_response_head. destruct (response_parse _ _) as [r|] eqn:Er; [|done]. simpl.
    destruct (parsed_version r) as [v|]; [|done]. simpl. destruct (parsed_code r) as [c|] eqn:Ec; [|done]. simpl.
    apply (code_u16 _ _ _ _ Er) in Ec. lia.
  - case_match; [by apply yields_throw|]. apply yields_then; [apply yields_any|]. intros c.
    case_match; [by apply yields_throw|apply IH].
Qed.

Lemma next_response_code up : yields (W := W) (next_response config fuel up) (fun r => 0 <= status (fst r)) tame.
Proof. apply yields_mapE. eapply yields_weaken; [apply response_head_code|done|done]. Qed.

Lemma io_try_tame {A} (m : M W ProxyError (result IoError A)) : yields m (fun _ => True) tame -> yields (io_try m) (fun _ => True) tame.
Proof. intros Hm. eapply yields_then; [exact Hm|]. intros r. apply yields_lift. by destruct r. Qed.

Lemma write_tame s data : yields (W := W) (io_try (write_all s data)) (fun _ => True) tame.
Proof. apply io_try_tame. by apply yields_act. Qed.

Lemma connected_tame e r : tame e -> yields (W := W) (connected e r) (fun _ => True) tame.
Proof.
  intros He. destruct r as [r|]; [|by apply yields_throw]. simpl. apply yields_then; [apply yields_lift; by destruct r|]. intros s.
  apply yields_then; [by apply io_try_tame, yields_act|]. intros _. by apply yields_ret.
Qed.

Lemma connect_tame target limit e :
  tame e -> yields (W := W) (r ← tcp_connect target limit; connected e r) (fun _ => True) tame.
Proof. intros He. apply yields_then; [by apply yields_act|]. intros r. by apply connected_tame. Qed.

Lemma decode_tame challenge : yields (W := W) (lift (decode_challenge challenge)) (fun _ => True) tame.
Proof.
  apply yields_lift. unfold decode_challenge. destruct (token challenge) as [t|]; [|done]. simpl. by destruct (b64_decode t).
Qed.

Lemma refused_tame code : 0 <= code -> yields (W := W) (A := BufferedStream) (throw (UpstreamStatus code)) (fun _ => True) tame.
Proof. intros Hc. by apply yields_throw. Qed.

Lemma auth_rounds_tame rounds d scheme ctx up response challenge drain :
  yields (W := W) (auth_rounds config fuel rounds d scheme ctx up response challenge drain) (fun _ => True) tame.
Proof.
  revert ctx up response challenge drain. induction rounds as [|rounds IH]; intros; cbn [auth_rounds]; [by apply yields_throw|].
  apply yields_then.
  { destruct drain; [|by apply yields_ret]. destruct (connection_close response); [by apply yields_throw|].
    apply yields_mapE. eapply yields_weaken; [apply yields_any|done|done]. }
  intros up1. eapply (yields_bind _ _ (fun r => forall message, fst r = Err (Native message) -> one_line message)).
  { apply yields_act. intros w [r ctx'] w' Hs message Hm. simpl in Hm. subst r. by eapply step_line. }
  intros [r ctx1] Hr. simpl in Hr. apply yields_then; [apply yields_lift; destruct r as [|[]]; naive_solver|]. intros tok.
  apply yields_then; [apply write_tame|]. intros _.
  eapply yields_bind; [apply next_response_code|]. intros [response1 up2] Hcode. simpl in Hcode.
  destruct (is_connect_success response1); [by apply yields_ret|]. destruct (negb _); [by apply refused_tame|].
  apply yields_then; [apply yields_lift; by destruct (find_challenge _ _)|]. intros found.
  apply yields_then; [apply decode_tame|]. intros challenge1. apply IH.
Qed.

Lemma establish_upstream_tame d : yields (W := W) (establish_upstream_tunnel config fuel d) (fun _ => True) tame.
Proof.
  apply yields_then; [by apply connect_tame|]. intros up. apply yields_then; [apply write_tame|]. intros _.
  eapply yields_bind; [apply next_response_code|]. intros [response up1] Hcode. simpl in Hcode.
  destruct (is_connect_success response); [by apply yields_ret|]. destruct (negb _); [by apply refused_tame|].
  destruct (decide _); [by apply yields_throw|].
  apply yields_then.
  { apply yields_lift. unfold choose_scheme. destruct (mode_schemes (auth config)) as [schemes|e] eqn:Em; [|by destruct (auth config); simplify_eq].
    simpl. by match goal with |- context [first_some ?f ?l] => destruct (first_some f l) end. }
  intros [scheme first]. eapply (yields_bind _ _ (fun r => forall message, r = Err (Native message) -> one_line message)).
  { apply yields_act. intros w r w' Hs message ->. by eapply create_line. }
  intros created Hc. apply yields_then; [apply yields_lift; destruct created as [|[]]; naive_solver|]. intros ctx.
  apply yields_then; [apply decode_tame|]. intros challenge.
  destruct (connection_close response); [|apply auth_rounds_tame]. destruct challenge; [by apply yields_throw|].
  apply yields_then; [by apply connect_tame|]. intros up2. apply auth_rounds_tame.
Qed.

Lemma establish_tunnel_tame d : endpoint_wf d -> yields (W := W) (establish_tunnel config fuel d) (fun _ => True) tame.
Proof.
  intros Hd. apply yields_then.
  - destruct (decide _); [|by apply yields_ret]. apply yields_then; [by apply yields_act|].
    intros [[addresses|]|]; by apply yields_ret.
  - intros [addresses|]; [by apply connect_tame|apply establish_upstream_tame].
Qed.

Lemma handle_client_tame client : yields (W := W) (handle_client config fuel client) (fun _ => True) tame.
Proof.
  apply yields_then; [by apply io_try_tame, yields_act|]. intros _.
  apply yields_then; [eapply yields_weaken; [eapply yields_try, yields_any|done|done]|]. intros [[request early]|e].
  2: { apply yields_then; [apply write_tame|]. intros _. by apply yields_throw. }
  destruct (negb _); [apply write_tame|]. destruct (Endpoint_from_str (target request)) as [d|e] eqn:Ed.
  2: { apply yields_then; [apply write_tame|]. intros _. apply yields_throw. simpl. apply one_line_endpoint_error. }
  apply endpoint_of_text in Ed as [Ed _].
  eapply yields_bind; [eapply yields_try, establish_tunnel_tame, Ed|]. intros [up|e] He.
  2: { apply yields_then; [apply write_tame|]. intros _. by apply yields_throw. }
  assert (forall s data, yields (W := W) (if bool_decide (data = []) then mret tt else io_try (write_all s data)) (fun _ => True) tame) as Hp
    by (intros s data; case_bool_decide; [by apply yields_ret|apply write_tame]).
  apply yields_then; [apply write_tame|]. intros _. apply yields_then; [apply Hp|]. intros _.
  apply yields_then; [apply Hp|]. intros _. apply yields_then; [|intros _; by apply yields_ret].
  apply yields_then; [by apply yields_act|]. intros [t evs]. destruct (relay_bidirectional _ _ _) as [r|]; [|apply yields_no_fuel].
  apply yields_lift. by destruct r.
Qed.
End Code.

(** ** Properties *)

(** C30: Nothing a client or an upstream proxy sends can break a line of the log: every destination a client's target parses to, and the text of every error the handling of a client ends with, is a single line, if the messages of the operating system, httparse and the security provider are. *)
Theorem log_lines_intact {W} `{Network W} `{AuthFactory W} `{RelayWorld W} `{Httparse} `{Base64} `{LibraryTexts}
    `{!OneLineTexts} `{!OneLineProvider W} `{!U16Codes} config fuel client (s : st W) :
  (forall text d, Endpoint_from_str text = Ok d -> one_line (Endpoint_fmt d)) /\
  (forall e s', handle_client config fuel client s = (Exn e, s') -> one_line (ProxyError_fmt e)).
Proof.
  split.
  - intros text d [Hd _]%endpoint_of_text. by apply one_line_endpoint.
  - intros e s' Hrun. pose proof (handle_client_tame config fuel client s) as Ht. rewrite Hrun in Ht. by apply tame_one_line.
Qed.

(** ** A refusal in the log *)

(** The texts of Linux for a refused connection and of httparse for a bad
    token stand for all others. *)
Global Instance example_texts : LibraryTexts := {|
  io_error_text := fun _ => lit "Connection refused (os error 111)";
  parse_error_text := fun _ => lit "invalid token";
|}.

Global Instance example_texts_line : OneLineTexts.
Proof. split; reflexivity. Qed.

Global Instance script_provider_line : OneLineProvider Script.
Proof. split; simpl; [done|]. unfold MockContext_step. congruence. Qed.

Global Instance line_codes : U16Codes.
Proof.
  intros slots bs r c. simpl. unfold line_response. destruct (split_lines [] bs) as [|start rest]; [done|].
  intros [= <-]. simpl. destruct (split_char 32 start !! 1%nat) as [code|]; [|done]. simpl.
  destruct (parse_u16 code) as [n|] eqn:En; [|done]. intros [= <-].
  pose proof (from_str_radix_bound 10 (uint_max 16) code n eq_refl) as Hb. unfold uint_max in Hb. specialize (Hb ltac:(lia) En). lia.
Qed.

Lemma log_lines_intact_witness :
  exists e s', handle_client (small_config AuthNone RoutingProxyOnly) fuel0 0 ntlm_world = (Exn e, s') /\
    e = AuthenticationRequired /\ one_line (ProxyError_fmt e).
Proof.
  destruct (log_lines_intact (small_config AuthNone RoutingProxyOnly) fuel0 0 ntlm_world) as [_ He].
  destruct (handle_client (small_config AuthNone RoutingProxyOnly) fuel0 0 ntlm_world) as [o s'] eqn:E.
  assert (o = Exn AuthenticationRequired) as -> by
    (transitivity (fst (handle_client (small_config AuthNone RoutingProxyOnly) fuel0 0 ntlm_world)); [by rewrite E|vm_compute; reflexivity]).
  exists AuthenticationRequired, s'. split; [reflexivity|]. split; [reflexivity|]. exact (He AuthenticationRequired s' eq_refl).
Defined.
