(* ===== verification/Handshake.v ===== *)
(** * Handshake: what the upstream authentication exchange does on the wire

    Theorems about [establish_upstream_tunnel]: which sockets carry which
    requests and how many there are.  They hold for every world: whatever the proxy, the network and the provider
    answer. *)

From S2P Require Import Prelude RustStr RustNet Config Routing Auth Io Http1 Http1Body Relay Challenge Base64 Server Scenario.

(** ** Traces *)

(** Events of a connection that carries the exchange: reads and writes of
    one socket, and steps of the security context. *)
Definition on_conn (s : sock) (ev : event) : Prop :=
  match ev with
  | EvRead s' _ | EvWrite s' _ => s' = s
  | EvAuthStep _ _ => True
  | _ => False
  end.

Definition is_step (ev : event) : bool := match ev with EvAuthStep _ _ => true | _ => false end.
Definition is_write (ev : event) : bool := match ev with EvWrite _ _ => true | _ => false end.
Definition is_connect (ev : event) : bool := match ev with EvConnect _ _ => true | _ => false end.
Definition is_create (ev : event) : bool := match ev with EvAuthCreate _ _ => true | _ => false end.

Definition count (f : event -> bool) (evs : list event) : nat := length (List.filter f evs).

Lemma count_app f a b : count f (a ++ b) = (count f a + count f b)%nat.
Proof. unfold count. by rewrite List.filter_app, length_app. Qed.

(** Events that satisfy [Q], with at most [a] of kind [f] and [b] of kind [g]. *)
Definition within (Q : event -> Prop) (f g : event -> bool) (a b : nat) (evs : list event) : Prop :=
  Forall Q evs /\ (count f evs <= a)%nat /\ (count g evs <= b)%nat.

(** [m] performs at most such events and its value satisfies [P]. *)
Definition performs {W E A} (Q : event -> Prop) (f g : event -> bool) (a b : nat) (m : M W E A) (P : A -> Prop) : Prop :=
  emits m (fun evs o => within Q f g a b evs /\ forall x, o = Val x -> P x).

(** An exchange: provider steps and requests, on one socket. *)
Abbreviation exchange s := (within (on_conn s) is_step is_write).
Abbreviation exchanges s := (performs (on_conn s) is_step is_write).

(** A probe: connection attempts and requests without a token, and no step
    of the provider. *)
Definition tokenless (config : ProxyConfig) (destination : Endpoint) (ev : event) : Prop :=
  match ev with
  | EvWrite _ data => data = as_bytes (connect_request_text destination None)
  | EvConnect target _ =>
    target = ToHost (endpoint_host (upstream config)) (endpoint_port (upstream config))
  | EvRead _ _ | EvNodelay _ | EvAuthCreate _ _ => True
  | _ => False
  end.
Abbreviation probe c d := (within (tokenless c d) is_connect is_write).
Abbreviation probes c d := (performs (tokenless c d) is_connect is_write).

Section Performs.
Context {W E : Type} {Q : event -> Prop} {f g : event -> bool}.

Lemma within_nil a b : within Q f g a b [].
Proof. split_and!; [done|apply Nat.le_0_l|apply Nat.le_0_l]. Qed.

Lemma within_app a b a' b' e1 e2 :
  within Q f g a b e1 -> within Q f g a' b' e2 -> within Q f g (a + a') (b + b') (e1 ++ e2).
Proof.
  intros (H1 & H2 & H3) (H4 & H5 & H6). unfold within. rewrite Forall_app, !count_app. split_and!; done || lia.
Qed.

Lemma within_le a b a' b' evs :
  within Q f g a b evs -> (a <= a')%nat -> (b <= b')%nat -> within Q f g a' b' evs.
Proof. intros (H1 & H2 & H3) ? ?. split_and!; [done|lia|lia]. Qed.

Lemma performs_bind {A B} a b a' b' (m : M W E A) (k : A -> M W E B) P P' :
  performs Q f g a b m P -> (forall x, P x -> performs Q f g a' b' (k x) P') ->
  performs Q f g (a + a') (b + b') (m ≫= k) P'.
Proof.
  intros Hm Hk. eapply emits_bind; [exact Hm|..].
  - intros e1 x [H1 Hx]. specialize (Hk x (Hx x eq_refl)). eapply emits_weaken; [exact Hk|].
    intros e2 o [H2 Ho]. split; [by apply within_app|done].
  - intros e1 e [H1 _]. split; [eapply within_le; [exact H1|lia|lia]|done].
  - intros e1 [H1 _]. split; [eapply within_le; [exact H1|lia|lia]|done].
Qed.

Lemma performs_le {A} a b a' b' (m : M W E A) (P P' : A -> Prop) :
  performs Q f g a b m P -> (a <= a')%nat -> (b <= b')%nat -> (forall x, P x -> P' x) ->
  performs Q f g a' b' m P'.
Proof.
  intros Hm ? ? HPQ. eapply emits_weaken; [exact Hm|]. intros evs o [H1 Ho].
  split; [by eapply within_le|]. intros x Hx. auto.
Qed.

Lemma performs_ret {A} (x : A) (P : A -> Prop) : P x -> performs (W := W) (E := E) Q f g 0 0 (mret x) P.
Proof. intros HP. apply emits_ret. split; [apply within_nil|]. by intros ? [= <-]. Qed.

Lemma performs_throw {A} e (P : A -> Prop) : performs (W := W) (E := E) Q f g 0 0 (throw e) P.
Proof. apply emits_throw. split; [apply within_nil|done]. Qed.

Lemma performs_no_fuel {A} (P : A -> Prop) : performs (W := W) (E := E) Q f g 0 0 no_fuel P.
Proof. apply emits_no_fuel. split; [apply within_nil|done]. Qed.

Lemma performs_lift {A} (r : result E A) : performs (W := W) Q f g 0 0 (lift r) (fun x => r = Ok x).
Proof. apply emits_lift. destruct r; (split; [apply within_nil|]); [by intros ? [= <-]|done]. Qed.

Lemma performs_mapE {F A} a b (h : F -> E) (m : M W F A) P :
  performs Q f g a b m P -> performs Q f g a b (mapE h m) P.
Proof.
  intros Hm. eapply emits_mapE; [exact Hm|..].
  - intros evs x [H1 Hx]. split; [done|]. intros ? [= <-]. auto.
  - intros evs x [H1 _]. by split.
  - intros evs [H1 _]. by split.
Qed.

Lemma performs_act {A} a b (h : W -> A * W) ev :
  (forall x, within Q f g a b [ev x]) -> performs (E := E) Q f g a b (act h ev) (fun _ => True).
Proof. intros Hev. apply emits_act. intros x. by split. Qed.

(** Sequencing with the counts of the first part left out, when it has none. *)
Lemma performs_bind0 {A B} a b (m : M W E A) (k : A -> M W E B) P P' :
  performs Q f g 0 0 m P -> (forall x, P x -> performs Q f g a b (k x) P') ->
  performs Q f g a b (m ≫= k) P'.
Proof. intros Hm Hk. change (performs Q f g (0 + a) (0 + b) (m ≫= k) P'). by eapply performs_bind. Qed.

End Performs.

#[export] Hint Resolve performs_ret performs_throw performs_no_fuel : fastpx.

(** ** Reading and draining stay on the socket *)

Section OneSocket.
Context {W : Type} `{Network W} `{AuthFactory W} `{Httparse} `{Base64}.

Lemma read_some_exchanges s n : performs (W := W) (on_conn s) is_step is_write 0 0 (read_some s n) (fun _ => True).
Proof.
  eapply performs_bind0; [apply performs_act|].
  - intros r. split_and!; [by constructor|done|done].
  - intros r _. eapply performs_le; [apply performs_lift|done|done|done].
Qed.

(** Read a chunk and go on: the pattern of every reading loop. *)
Lemma read_then_exchanges {A} s n (k : bytes -> M W HttpError A) P :
  (forall c, exchanges s 0 0 (k c) P) -> exchanges s 0 0 (read_some s n ≫= k) P.
Proof.
  intros Hk. eapply performs_bind0; [apply read_some_exchanges|]. auto.
Qed.

Lemma read_response_head_exchanges fuel self max :
  performs (W := W) (on_conn (stream self)) is_step is_write 0 0 (read_response_head fuel self max)
    (fun r => stream (snd r) = stream self).
Proof.
  revert self. induction fuel as [|fuel IH]; intros self; simpl; [auto with fastpx|].
  destruct (find_header_end (buffer self)).
  { eapply performs_bind0; [apply performs_lift|]. intros x _. by apply performs_ret. }
  destruct (_ <=? _); [auto with fastpx|]. apply read_then_exchanges. intros c.
  case_bool_decide; [auto with fastpx|]. apply (IH {| stream := stream self; buffer := buffer self ++ c |}).
Qed.

Lemma discard_loop_exchanges fuel s n : performs (W := W) (on_conn s) is_step is_write 0 0 (discard_loop fuel s n) (fun _ => True).
Proof.
  revert n. induction fuel as [|fuel IH]; intros n; simpl; [auto with fastpx|].
  destruct (_ <=? _); [auto with fastpx|]. apply read_then_exchanges. intros c.
  case_bool_decide; [auto with fastpx|]. apply IH.
Qed.

Lemma discard_exact_exchanges fuel self n :
  performs (W := W) (on_conn (stream self)) is_step is_write 0 0 (discard_exact fuel self n) (fun self' => stream self' = stream self).
Proof.
  eapply performs_bind0; [apply discard_loop_exchanges|]. intros _ _. by apply performs_ret.
Qed.

Lemma read_line_exchanges fuel self max :
  performs (W := W) (on_conn (stream self)) is_step is_write 0 0 (read_line fuel self max) (fun r => stream (snd r) = stream self).
Proof.
  revert self. induction fuel as [|fuel IH]; intros self; simpl; [auto with fastpx|].
  destruct (find_crlf (buffer self)); [by apply performs_ret|].
  destruct (_ <=? _); [auto with fastpx|]. apply read_then_exchanges. intros c.
  case_bool_decide; [auto with fastpx|]. apply (IH (with_buffer self (buffer self ++ c))).
Qed.

Lemma drain_trailers_exchanges fuel lines self :
  performs (W := W) (on_conn (stream self)) is_step is_write 0 0 (drain_trailers fuel lines self) (fun self' => stream self' = stream self).
Proof.
  revert self. induction lines as [|lines IH]; intros self; simpl; [auto with fastpx|].
  eapply performs_bind0; [apply read_line_exchanges|]. intros [line self1] Hs. simpl in Hs.
  case_bool_decide; [by apply performs_ret|]. rewrite <-Hs. apply IH.
Qed.

Lemma drain_chunked_exchanges fuel chunks self :
  performs (W := W) (on_conn (stream self)) is_step is_write 0 0 (drain_chunked_loop fuel chunks self)
    (fun self' => stream self' = stream self).
Proof.
  revert self. induction chunks as [|chunks IH]; intros self; simpl; [auto with fastpx|].
  eapply performs_bind0; [apply read_line_exchanges|]. intros [line self1] Hs. simpl in Hs.
  eapply performs_bind0; [apply performs_lift|]. intros n _. rewrite <-Hs.
  destruct (n =? 0); [apply drain_trailers_exchanges|].
  eapply performs_bind0; [apply discard_exact_exchanges|]. intros self2 Hs2. rewrite <-Hs2.
  eapply performs_bind0; [apply read_line_exchanges|]. intros [line' self3] Hs3. simpl in Hs3.
  case_bool_decide; [|auto with fastpx]. rewrite <-Hs3. apply IH.
Qed.

Lemma drain_response_body_exchanges fuel self r :
  performs (W := W) (on_conn (stream self)) is_step is_write 0 0 (drain_response_body fuel self r)
    (fun self' => stream self' = stream self).
Proof.
  unfold drain_response_body. destruct (is_chunked r); [apply drain_chunked_exchanges|].
  eapply performs_bind0; [apply performs_lift|]. intros [n|] _; [apply discard_exact_exchanges|].
  by apply performs_ret.
Qed.

Lemma next_response_exchanges config fuel up :
  performs (W := W) (on_conn (stream up)) is_step is_write 0 0 (next_response config fuel up) (fun r => stream (snd r) = stream up).
Proof. apply performs_mapE, read_response_head_exchanges. Qed.

Lemma send_connect_request_exchanges s destination authorization :
  performs (W := W) (on_conn s) is_step is_write 0 1 (send_connect_request s destination authorization) (fun _ => True).
Proof.
  change (exchanges s (0 + 0) (1 + 0) (send_connect_request (W := W) s destination authorization) (fun _ => True)).
  eapply performs_bind; [apply performs_act|].
  - intros r. split_and!; [by constructor|done|done].
  - intros r _. eapply performs_le; [apply performs_lift|done|done|done].
Qed.

(** ** The authentication rounds *)

Lemma auth_rounds_exchanges config fuel rounds destination scheme ctx up response challenge must_drain :
  performs (W := W) (on_conn (stream up)) is_step is_write rounds rounds
    (auth_rounds config fuel rounds destination scheme ctx up response challenge must_drain)
    (fun up' => stream up' = stream up).
Proof.
  revert ctx up response challenge must_drain.
  induction rounds as [|rounds IH]; intros ctx up response challenge must_drain; [apply performs_throw|].
  cbn [auth_rounds]. eapply performs_bind0.
  { instantiate (1 := fun up' => stream up' = stream up).
    destruct must_drain; [|by apply performs_ret].
    destruct (connection_close response); [apply performs_throw|].
    apply performs_mapE, drain_response_body_exchanges. }
  intros up1 Hup1. rewrite <-Hup1.
  apply (performs_bind 1 0 rounds (S rounds) _ _ (fun _ => True)).
  { apply performs_act. intros r. split_and!; [by constructor|done|done]. }
  intros [tok ctx1] _. eapply performs_bind0; [apply performs_lift|]. intros tok' _.
  apply (performs_bind 0 1 rounds rounds _ _ (fun _ => True)); [apply send_connect_request_exchanges|].
  intros _ _. eapply performs_bind0; [apply next_response_exchanges|].
  intros [response' up2] Hup2. simpl in Hup2. rewrite <-Hup2.
  destruct (is_connect_success response'); [eapply performs_le;
    [by apply (performs_ret _ (fun up' => stream up' = stream up2))|lia|lia|done]|].
  destruct (negb _); [eapply performs_le;
    [by apply (performs_throw _ (fun up' => stream up' = stream up2))|lia|lia|done]|].
  eapply performs_bind0; [apply performs_lift|]. intros found _.
  eapply performs_bind0; [apply performs_lift|]. intros ch _. apply IH.
Qed.
End OneSocket.

(** ** The whole exchange *)

(** A probe with at most [a] connections and [b] tokenless requests, then an
    exchange of at most [MAX_AUTH_ROUNDS] rounds on one socket, which is the
    socket of the tunnel. *)
Definition upstream_trace (config : ProxyConfig) (d : Endpoint) (a b : nat) (evs : list event) (o : outcome ProxyError BufferedStream) : Prop :=
  exists before after s, evs = before ++ after /\ probe config d a b before /\
    exchange s MAX_AUTH_ROUNDS MAX_AUTH_ROUNDS after /\ (forall up, o = Val up -> stream up = s).

(** Without steps and writes only reads are left. *)
Lemma exchange_reads Q f g s evs :
  (forall k r, within Q f g 0 0 [EvRead k r]) -> exchange s 0 0 evs -> within Q f g 0 0 evs.
Proof.
  intros HQ (Hon & Hs & Hw). induction Hon as [|ev evs Hev Hon IH]; [apply within_nil|].
  unfold count in *. destruct ev; simpl in *; try done; try lia.
  apply (within_app 0 0 0 0 [_]); [apply HQ|by apply IH].
Qed.

Section Pieces.
Context {W : Type} `{Network W} `{AuthFactory W} `{Httparse} `{Base64}.
Context {Q : event -> Prop} {f g : event -> bool}.

Lemma io_try_performs {A} a b (m : M W ProxyError (result IoError A)) :
  performs Q f g a b m (fun _ => True) -> performs Q f g a b (io_try m) (fun _ => True).
Proof.
  intros Hm. replace a with (a + 0)%nat by lia. replace b with (b + 0)%nat by lia.
  eapply performs_bind; [exact Hm|]. intros r _. eapply performs_le; [apply performs_lift|done|done|done].
Qed.

Lemma next_response_performs config fuel up :
  (forall k r, within Q f g 0 0 [EvRead k r]) ->
  performs (W := W) Q f g 0 0 (next_response config fuel up) (fun r => stream (snd r) = stream up).
Proof.
  intros HQ. eapply emits_weaken; [apply next_response_exchanges|]. intros evs o [Hx Ho].
  split; [by eapply exchange_reads|done].
Qed.

Lemma connected_performs e r :
  (forall k, within Q f g 0 0 [EvNodelay k]) -> performs (W := W) Q f g 0 0 (connected e r) (fun _ => True).
Proof.
  intros HQ. destruct r as [r|]; [|apply performs_throw]. simpl.
  eapply performs_bind0; [apply performs_lift|]. intros s _.
  eapply performs_bind0; [apply io_try_performs, performs_act; auto|].
  intros _ _. by apply performs_ret.
Qed.

Lemma connect_upstream_performs config a :
  (forall k, within Q f g 0 0 [EvNodelay k]) ->
  (forall r, within Q f g a 0
     [EvConnect (ToHost (endpoint_host (upstream config)) (endpoint_port (upstream config))) r]) ->
  performs (W := W) Q f g a 0 (connect_upstream config) (fun _ => True).
Proof.
  intros Hn Hc. replace a with (a + 0)%nat by lia. change 0%nat with (0 + 0)%nat at 2.
  eapply performs_bind; [apply performs_act; auto|]. intros r _. by apply connected_performs.
Qed.

Lemma send_connect_request_performs s d authorization b :
  within Q f g 0 b [EvWrite s (as_bytes (connect_request_text d authorization))] ->
  performs (W := W) Q f g 0 b (send_connect_request s d authorization) (fun _ => True).
Proof. intros HQ. by apply io_try_performs, performs_act. Qed.
End Pieces.

(** Discharges that a single event is allowed. *)
Ltac one_event := intros; split_and!; [by constructor|by apply le_n|by apply le_n].

Section Upstream.
Context {W : Type} `{Network W} `{AuthFactory W} `{Httparse} `{Base64}.
Context (config : ProxyConfig) (fuel : nat) (d : Endpoint).

Lemma probes_then {A} a b a' b' (m : M W ProxyError A) (k : A -> M W ProxyError BufferedStream) P :
  probes config d a b m P -> (forall x, P x -> emits (k x) (upstream_trace config d a' b')) ->
  emits (m ≫= k) (upstream_trace config d (a + a') (b + b')).
Proof.
  intros Hm Hk. eapply emits_bind; [exact Hm|..].
  - intros e1 x [Hw Hx]. eapply emits_weaken; [by apply Hk, Hx|].
    intros e2 o (before & after & s & -> & Hb & Ha & Ho).
    exists (e1 ++ before), after, s. split_and!; [by rewrite app_assoc|by apply within_app|done|done].
  - intros e1 e [Hw _]. exists e1, [], 0%nat. split_and!; [by rewrite app_nil_r| |apply within_nil|done].
    eapply within_le; [exact Hw|lia|lia].
  - intros e1 [Hw _]. exists e1, [], 0%nat. split_and!; [by rewrite app_nil_r| |apply within_nil|done].
    eapply within_le; [exact Hw|lia|lia].
Qed.

Lemma probes_then0 {A} a b (m : M W ProxyError A) (k : A -> M W ProxyError BufferedStream) P :
  probes config d 0 0 m P -> (forall x, P x -> emits (k x) (upstream_trace config d a b)) ->
  emits (m ≫= k) (upstream_trace config d a b).
Proof. intros Hm Hk. change (emits (m ≫= k) (upstream_trace config d (0 + a) (0 + b))). by eapply probes_then. Qed.

Lemma emits_upstream_throw a b e : emits (W := W) (throw e) (upstream_trace config d a b).
Proof.
  apply emits_throw. exists [], [], 0%nat. split_and!; [done| |apply within_nil|done].
  apply within_nil.
Qed.

Lemma emits_upstream_ret a b up : emits (W := W) (E := ProxyError) (mret up) (upstream_trace config d a b).
Proof.
  apply emits_ret. exists [], [], (stream up).
  split_and!; [done|apply within_nil|apply within_nil|by intros ? [= <-]].
Qed.

Lemma emits_upstream_exchange a b s m :
  performs (W := W) (on_conn s) is_step is_write MAX_AUTH_ROUNDS MAX_AUTH_ROUNDS m (fun up => stream up = s) ->
  emits m (upstream_trace config d a b).
Proof.
  intros Hm. eapply emits_weaken; [exact Hm|]. intros evs o [Hx Ho].
  exists [], evs, s. split_and!; [done|apply within_nil|done|done].
Qed.

Lemma auth_create_probes scheme name : performs (W := W) (E := ProxyError) (tokenless config d) is_connect is_write 0 0 (auth_create scheme name) (fun _ => True).
Proof. apply performs_act. intros x. split_and!; [by constructor|done|done]. Qed.

(** The exchange is a connection, a first request and the rest. *)
Lemma establish_upstream_tunnel_split :
  exists k, establish_upstream_tunnel config fuel d =
      (connect_upstream config ≫= fun up => send_connect_request (stream up) d None;; k up) /\
    forall up, emits (W := W) (k up) (upstream_trace config d 1 0).
Proof.
  eexists. split; [reflexivity|]. intros up.
  eapply probes_then0; [apply next_response_performs; one_event|]. intros [response up1] _.
  destruct (is_connect_success response); [apply emits_upstream_ret|].
  destruct (negb _); [apply emits_upstream_throw|].
  destruct (decide _); [apply emits_upstream_throw|].
  eapply probes_then0; [apply performs_lift|]. intros [scheme first] _.
  eapply probes_then0; [apply auth_create_probes|]. intros created _.
  eapply probes_then0; [apply performs_lift|]. intros ctx _.
  eapply probes_then0; [apply performs_lift|]. intros challenge _.
  destruct (connection_close response).
  - destruct challenge; [apply emits_upstream_throw|].
    apply (probes_then 1 0 0 0 _ _ (fun _ => True)); [apply connect_upstream_performs; one_event|]. intros up2 _.
    eapply emits_upstream_exchange, auth_rounds_exchanges.
  - eapply emits_upstream_exchange, auth_rounds_exchanges.
Qed.

Lemma establish_upstream_tunnel_trace : emits (W := W) (establish_upstream_tunnel config fuel d) (upstream_trace config d 2 1).
Proof.
  destruct establish_upstream_tunnel_split as (k & -> & Hk).
  apply (probes_then 1 0 1 1 _ _ (fun _ => True)); [apply connect_upstream_performs; one_event|]. intros up _.
  apply (probes_then 0 1 1 0 _ _ (fun _ => True)); [apply send_connect_request_performs; one_event|]. auto.
Qed.
End Upstream.

(** ** Properties *)

(** C5: Every run of the upstream exchange splits into a probe and an authenticated part: the probe opens at most two connections and sends at most one request, without a token; from the first provider step on, at most four tokens are produced and at most four requests sent, all on one socket with no connection attempt in between, and a tunnel that results is on that socket. *)
Theorem auth_stays_on_one_socket {W} `{Network W} `{AuthFactory W} `{Httparse} `{Base64} config fuel d (s : st W) :
  let '(o, s') := establish_upstream_tunnel config fuel d s in
  exists before after k,
    trace s' = trace s ++ before ++ after /\
    Forall (tokenless config d) before /\
    (count is_connect before <= 2)%nat /\ (count is_write before <= 1)%nat /\
    Forall (on_conn k) after /\
    (count is_step after <= 4)%nat /\ (count is_write after <= 4)%nat /\
    (forall up, o = Val up -> stream up = k).
Proof.
  destruct (establish_upstream_tunnel config fuel d s) as [o s'] eqn:E.
  apply establish_upstream_tunnel_trace in E
    as (evs & Ht & before & after & k & -> & (? & ? & ?) & (? & ? & ?) & Ho).
  by exists before, after, k.
Qed.

(** With authentication disabled the proxy never consults the provider and sends one tokenless request on one connection: a 407 response ends the attempt with AuthenticationRequired. *)
Theorem no_auth_never_steps {W} `{Network W} `{AuthFactory W} `{Httparse} `{Base64} config fuel d (s : st W) :
  auth config = AuthNone ->
  let '(o, s') := establish_upstream_tunnel config fuel d s in
  exists evs, trace s' = trace s ++ evs /\ Forall (tokenless config d) evs /\
    Forall (fun ev => is_create ev = false) evs /\
    (count is_connect evs <= 1)%nat /\ (count is_write evs <= 1)%nat.
Proof.
  intros Hnone. set (Q ev := tokenless config d ev /\ is_create ev = false).
  enough (performs (W := W) Q is_connect is_write 1 1 (establish_upstream_tunnel config fuel d) (fun _ => True)) as Hp.
  { destruct (establish_upstream_tunnel config fuel d s) as [o s'] eqn:E.
    apply Hp in E as (evs & Ht & (Hq & Hc & Hw) & _). exists evs. unfold Q in Hq. rewrite Forall_and in Hq.
    destruct Hq. by split_and!. }
  apply (performs_bind 1 0 0 1 _ _ (fun _ => True)); [apply connect_upstream_performs; one_event|]. intros up _.
  apply (performs_bind 0 1 0 0 _ _ (fun _ => True)); [apply send_connect_request_performs; one_event|].
  intros _ _. eapply performs_bind0; [apply next_response_performs; one_event|]. intros [response up1] _.
  destruct (is_connect_success response); [by apply performs_ret|].
  destruct (negb _); [apply performs_throw|]. destruct (decide _); [apply performs_throw|done].
Qed.

Lemma no_auth_never_steps_witness :
  exists s', establish_upstream_tunnel (small_config AuthNone RoutingProxyOnly) fuel0 service ntlm_world =
      (Exn AuthenticationRequired, s') /\
    exists evs, trace s' = evs /\ Forall (tokenless (small_config AuthNone RoutingProxyOnly) service) evs /\ (count is_write evs <= 1)%nat.
Proof.
  pose proof (no_auth_never_steps (small_config AuthNone RoutingProxyOnly) fuel0 service ntlm_world eq_refl) as Hn.
  eexists. split; [vm_compute; reflexivity|].
  vm_compute (establish_upstream_tunnel _ _ _ _) in Hn. destruct Hn as (evs & Ht & Hf & _ & _ & Hw).
  exists evs. split; [exact Ht|]. split; [exact Hf|exact Hw].
Defined.
