(* ===== verification/Tunnel.v ===== *)
(** * Tunnel: the texts src/server.rs sends

    Requests to the upstream proxy and error responses to the client as lists
    of lines: a head ends where its lines end, the lines cannot be split by
    their parameters, and an error response announces the length of its body. *)

From stdpp Require Import gmap.
From S2P Require Import Prelude RustStr RustNet Config Routing Auth Io Http1 Http1Body Relay Challenge Base64 Server Scenario Handshake.

(** ** Message heads *)

(** A head: lines, each followed by a line end, then a blank line. *)
Definition head_bytes (lines : list bytes) : bytes := foldr (fun l acc => l ++ crlf ++ acc) crlf lines.

(** A line that cannot end a head early. *)
Definition safe_line (l : bytes) : Prop := l <> [] /\ 13 ∉ l /\ 10 ∉ l.

Lemma occurs_at_lookup pat l i k x :
  occurs_at pat l i -> pat !! k = Some x -> l !! (i + k)%nat = Some x.
Proof.
  unfold occurs_at. intros Ho Hx. rewrite <-Ho in Hx.
  apply lookup_take_Some in Hx as [Hx _]. by rewrite lookup_drop in Hx.
Qed.

Lemma head_bytes_first lines :
  Forall safe_line lines -> forall c, head_bytes lines !! 0%nat = Some c -> lines <> [] -> c <> 13.
Proof.
  intros Hl c Hc Hne. destruct lines as [|l lines]; [done|]. inversion Hl as [|? ? (Hn & Hcr & _) _]; subst.
  destruct l as [|x l]; [done|]. simpl in Hc. injection Hc as ->. set_solver.
Qed.

Lemma head_bytes_end_unique lines i :
  Forall safe_line lines -> occurs_at head_end (head_bytes lines) i ->
  (i + 4)%nat = length (head_bytes lines).
Proof.
  intros Hl. revert i. induction Hl as [|l lines (Hn & Hcr & _) Hl IH]; intros i Ho.
  { apply occurs_at_bound in Ho; [|done]. simpl in Ho. lia. }
  change (head_bytes (l :: lines)) with (l ++ crlf ++ head_bytes lines) in *.
  destruct (decide (i < length l)%nat) as [Hlt|Hge].
  { exfalso. apply (occurs_at_lookup _ _ _ 0 13) in Ho; [|done]. rewrite Nat.add_0_r in Ho.
    rewrite lookup_app_l in Ho by done. apply list_elem_of_lookup_2 in Ho. done. }
  destruct (decide (i < length l + 2)%nat) as [Hlt2|Hge2].
  - destruct (decide (i = length l)) as [->|].
    + apply (occurs_at_lookup _ _ _ 2 13) in Ho; [|done].
      rewrite lookup_app_r in Ho by lia. replace (length l + 2 - length l)%nat with 2%nat in Ho by lia.
      destruct lines as [|l' lines]; [rewrite !length_app; simpl; lia|].
      exfalso. by eapply (head_bytes_first (l' :: lines)).
    + exfalso. apply (occurs_at_lookup _ _ _ 0 13) in Ho; [|done]. rewrite Nat.add_0_r in Ho.
      rewrite lookup_app_r in Ho by lia. by replace (i - length l)%nat with 1%nat in Ho by lia.
  - rewrite !length_app. simpl. rewrite <-(IH (i - length l - 2)%nat).
    + lia.
    + unfold occurs_at in *. rewrite drop_app_ge in Ho by lia.
      rewrite drop_app_ge in Ho by (simpl; lia). exact Ho.
Qed.

Lemma head_bytes_ends lines :
  lines <> [] -> Forall safe_line lines -> exists pre, head_bytes lines = pre ++ head_end.
Proof.
  intros Hne Hl. induction Hl as [|l lines Hs Hl IH]; [done|].
  destruct lines as [|l' lines]; [by exists l|]. destruct IH as [pre Hpre]; [done|].
  exists (l ++ crlf ++ pre).
  change (head_bytes (l :: l' :: lines)) with (l ++ crlf ++ head_bytes (l' :: lines)). rewrite Hpre.
  by rewrite <-!app_assoc.
Qed.

(** The head ends where its lines end, whatever follows. *)
Lemma head_bytes_find lines rest :
  lines <> [] -> Forall safe_line lines ->
  find_header_end (head_bytes lines ++ rest) = Some (len (head_bytes lines)).
Proof.
  intros Hne Hl. apply find_header_end_app. apply find_header_end_some.
  destruct (head_bytes_ends lines Hne Hl) as [pre Hpre]. exists (length pre). split; [split|].
  - rewrite Hpre. unfold occurs_at. by rewrite drop_app_length.
  - intros j Hj Ho. apply head_bytes_end_unique in Ho; [|done]. rewrite Hpre, length_app in Ho. simpl in Ho. lia.
  - rewrite Hpre, len_app. done.
Qed.

(** ** The texts of the server as lines *)

Definition connect_lines (d : Endpoint) (authorization : option str) : list bytes :=
  [lit "CONNECT " ++ as_bytes (Endpoint_fmt d) ++ lit " HTTP/1.1";
   lit "Host: " ++ as_bytes (Endpoint_fmt d);
   lit "Proxy-Connection: Keep-Alive"; lit "Connection: Keep-Alive"] ++
  match authorization with Some a => [lit "Proxy-Authorization: " ++ as_bytes a] | None => [] end.

Ltac ascii := repeat (apply Forall_cons; split; [vm_compute; reflexivity|]); apply Forall_nil; done.

Lemma connect_request_as_lines d a :
  as_bytes (connect_request_text d a) = head_bytes (connect_lines d a).
Proof.
  unfold connect_request_text, connect_lines. destruct a as [a|];
    rewrite ?as_bytes_app, ?app_nil_l;
    rewrite !(as_bytes_ascii (lit _)) by (unfold lit; simpl; ascii);
    rewrite (as_bytes_ascii nl) by (unfold nl; ascii); cbn [head_bytes foldr app];
    rewrite <-?app_assoc; done.
Qed.

Definition error_lines (code : Z) (reason : str) : list bytes :=
  [lit "HTTP/1.1 " ++ fmt_u code ++ lit " " ++ as_bytes reason;
   lit "Connection: close"; lit "Content-Type: text/plain; charset=utf-8";
   lit "Content-Length: " ++ fmt_u (len (as_bytes (error_body code reason)))].

Lemma fmt_u_ascii n : 0 <= n -> as_bytes (fmt_u n) = fmt_u n.
Proof.
  intros Hn. apply as_bytes_ascii. apply Forall_forall. intros c Hc.
  apply fmt_u_chars in Hc as [d Hd]; [|done]. unfold to_digit in Hd. repeat (case_match; destr_bool; try lia); done.
Qed.

Lemma error_text_as_lines code reason :
  0 <= code ->
  as_bytes (error_text code reason) =
    head_bytes (error_lines code reason) ++ as_bytes (error_body code reason).
Proof.
  intros Hc. unfold error_text, error_lines. rewrite !as_bytes_app.
  rewrite !(as_bytes_ascii (lit _)) by (unfold lit; simpl; ascii).
  rewrite (as_bytes_ascii nl) by (unfold nl; ascii).
  rewrite !fmt_u_ascii by (done || apply len_nonneg). cbn [head_bytes foldr app].
  rewrite <-?app_assoc. done.
Qed.

(** ** Lines that cannot be split *)

Lemma endpoint_fmt_safe d :
  endpoint_wf d -> Forall (fun c => 0 <= c) (endpoint_host d) ->
  13 ∉ as_bytes (Endpoint_fmt d) /\ 10 ∉ as_bytes (Endpoint_fmt d).
Proof.
  intros (Hne & Hbad & Hport & _) Hpos.
  assert (forall b, (b = 13 \/ b = 10) -> b ∉ as_bytes (Endpoint_fmt d)) as Hb; [|split; apply Hb; auto].
  intros b Hb Hin.
  assert (b ∉ as_bytes (endpoint_host d)) as Hh.
  { intros Hin'. assert (existsb invalid_host_byte (as_bytes (endpoint_host d)) = true) as Ht; [|congruence].
    apply existsb_exists. exists b. split; [by apply list_elem_of_In|]. by destruct Hb as [->| ->]. }
  assert (b ∉ as_bytes (fmt_u (endpoint_port d))) as Hp.
  { rewrite fmt_u_ascii by lia. intros Hin'. apply fmt_u_chars in Hin' as [? Hd]; [|lia].
    by destruct Hb as [->| ->]. }
  unfold Endpoint_fmt in Hin. destruct (contains_char 58 _); rewrite !as_bytes_app in Hin;
    rewrite !(as_bytes_ascii (lit _)) in Hin by (unfold lit; simpl; ascii);
    unfold lit in Hin; simpl in Hin; set_solver.
Qed.

Lemma as_bytes_no_ctrl s :
  Forall (fun c => 0 <= c /\ c <> 13 /\ c <> 10) s -> 13 ∉ as_bytes s /\ 10 ∉ as_bytes s.
Proof.
  intros Hs. assert (Forall (fun c => 0 <= c) s) as Hpos by (eapply Forall_impl; [exact Hs|naive_solver]).
  rewrite Forall_forall in Hs. split; intros Hin;
    apply as_bytes_ascii_elem in Hin; try done; apply Hs in Hin; naive_solver.
Qed.

(** ** Properties of the messages *)

Lemma connect_lines_safe d authorization :
  endpoint_wf d -> Forall (fun c => 0 <= c) (endpoint_host d) ->
  (forall a, authorization = Some a -> Forall (fun c => 0 <= c /\ c <> 13 /\ c <> 10) a) ->
  Forall safe_line (connect_lines d authorization).
Proof.
  intros Hwf Hpos Ha. destruct (endpoint_fmt_safe d Hwf Hpos) as [H13 H10].
  unfold connect_lines. apply Forall_app. split.
  - repeat (apply Forall_cons; split; [|try apply Forall_nil; try done]);
      (split; [done|]); unfold lit; simpl; set_solver.
  - destruct authorization as [a|]; [|done]. apply Forall_cons. split; [|done].
    destruct (as_bytes_no_ctrl a (Ha a eq_refl)). split; [done|]. unfold lit. simpl. set_solver.
Qed.

Lemma connect_request_ends d authorization :
  Forall safe_line (connect_lines d authorization) ->
  find_header_end (as_bytes (connect_request_text d authorization)) =
    Some (len (as_bytes (connect_request_text d authorization))).
Proof.
  intros Hs. rewrite connect_request_as_lines.
  rewrite <-(app_nil_r (head_bytes _)) at 1. by apply head_bytes_find.
Qed.

(** A credential built from a token is safe to send. *)
Lemma authorization_safe `{Base64} `{!Base64Laws} scheme tok :
  Forall is_u8 tok ->
  Forall (fun c => 0 <= c /\ c <> 13 /\ c <> 10) (header_name scheme ++ lit " " ++ b64_encode tok).
Proof.
  intros Ht. apply Forall_app. split; [destruct scheme; vm_compute; repeat constructor; done|].
  apply Forall_app. split; [vm_compute; repeat constructor; done|].
  eapply Forall_impl; [by apply b64_alphabet|]. unfold is_b64_char. intros c Hc. simpl in Hc. lia.
Qed.

(** Every error response is a complete head followed by a body whose byte length is the announced Content-Length, so the client can frame it. *)
Theorem error_response_framed code reason :
  0 <= code -> Forall (fun c => 0 <= c /\ c <> 13 /\ c <> 10) reason ->
  let response := as_bytes (error_text code reason) in
  exists hd body,
    response = hd ++ body /\ find_header_end response = Some (len hd) /\
    hd = head_bytes (error_lines code reason) /\
    error_lines code reason !! 3%nat = Some (lit "Content-Length: " ++ fmt_u (len body)).
Proof.
  intros Hc Hr. cbv zeta. rewrite error_text_as_lines by done.
  exists (head_bytes (error_lines code reason)), (as_bytes (error_body code reason)).
  split_and!; [done| |done|done]. apply head_bytes_find; [done|].
  destruct (as_bytes_no_ctrl reason Hr) as [H13 H10].
  assert (forall n c, 0 <= n -> to_digit 10 c = None -> c ∉ fmt_u n) as Hf by (intros; by apply fmt_u_notin).
  pose proof (Hf code 13 Hc eq_refl). pose proof (Hf code 10 Hc eq_refl).
  pose proof (Hf (len (as_bytes (error_body code reason))) 13 (len_nonneg _) eq_refl).
  pose proof (Hf (len (as_bytes (error_body code reason))) 10 (len_nonneg _) eq_refl).
  unfold error_lines.
  repeat (apply Forall_cons; split; [|try apply Forall_nil; try done]);
    (split; [done|]); unfold lit; simpl; set_solver.
Qed.

Lemma service_wf : endpoint_wf service /\ Forall (fun c => 0 <= c) (endpoint_host service).
Proof.
  split; [|repeat constructor; done]. split_and!; [done|vm_compute; reflexivity|simpl; lia|simpl; lia|].
  intros Hin. exfalso. revert Hin. apply contains_char_false. vm_compute. reflexivity.
Qed.

Lemma error_response_framed_witness :
  exists hd body, as_bytes (error_text 502 (lit "Bad Gateway")) = hd ++ body /\
    find_header_end (as_bytes (error_text 502 (lit "Bad Gateway"))) = Some (len hd) /\ body = lit "502 Bad Gateway" ++ [10].
Proof.
  destruct (error_response_framed 502 (lit "Bad Gateway")) as (hd & body & Heq & Hf & Hhd & _);
    [lia|vm_compute; repeat constructor; done|].
  exists hd, body. split; [exact Heq|]. split; [exact Hf|]. subst hd. vm_compute in Heq.
  injection Heq as <-. vm_compute. reflexivity.
Defined.
