(* ===== verification/Wire.v ===== *)
(** * Wire: everything an exchange writes to the upstream proxy

    The requests of [establish_upstream_tunnel] in src/server.rs, read from
    the bytes of its log the way a receiver reads them: cut at line ends, with
    the credential looked up among the header lines.  No destination and no
    token can change the lines, and every token arrives. *)

From S2P Require Import Prelude RustStr RustNet Config Routing Auth Io Http1 Http1Body Relay Challenge Base64 Server Scenario Handshake Tunnel.

(** ** A receiver *)

(** The bytes cut at every CR LF. *)
Fixpoint cut_lines (acc bs : bytes) : list bytes :=
  match bs with
  | [] => [reverse acc]
  | 13 :: 10 :: bs' => reverse acc :: cut_lines [] bs'
  | b :: bs' => cut_lines (b :: acc) bs'
  end.

Definition credential_prefix : bytes := lit "Proxy-Authorization: ".

(** The value of the first Proxy-Authorization header, cut at the space. *)
Definition proxy_authorization (request : bytes) : option (bytes * bytes) :=
  first_some (fun line =>
    if decide (take (length credential_prefix) line = credential_prefix)
    then split_once 32 (drop (length credential_prefix) line) else None) (cut_lines [] request).

Lemma cut_lines_line acc l rest :
  13 ∉ l -> cut_lines acc (l ++ crlf ++ rest) = (reverse acc ++ l) :: cut_lines [] rest.
Proof.
  revert acc. induction l as [|b l IH]; intros acc Hl; [simpl; by rewrite app_nil_r|].
  apply not_elem_of_cons in Hl as [Hb Hl].
  assert (cut_lines acc ((b :: l) ++ crlf ++ rest) = cut_lines (b :: acc) (l ++ crlf ++ rest)) as ->.
  { simpl. repeat case_match; done. }
  rewrite IH by done. by rewrite reverse_cons, <-app_assoc.
Qed.

(** A head of safe lines is cut into these lines and the blank one. *)
Lemma cut_head_bytes lines : Forall safe_line lines -> cut_lines [] (head_bytes lines) = lines ++ [[]; []].
Proof.
  induction 1 as [|l lines (_ & Hl & _) _ IH]; [done|]. change (head_bytes (l :: lines)) with (l ++ crlf ++ head_bytes lines).
  rewrite cut_lines_line, IH by done. done.
Qed.

(** ** Messages *)

(** [step] returns a [Vec<u8>]. *)
Class ByteTokens (W : Type) `{AuthFactory W} : Prop :=
  token_u8 ctx challenge w tok ctx' w' : step ctx challenge w = (Ok tok, ctx', w') -> Forall is_u8 tok.

Definition destination_ok (d : Endpoint) : Prop := endpoint_wf d /\ Forall (fun c => 0 <= c) (endpoint_host d).

(** The lines every request has. *)
Definition fixed_lines (d : Endpoint) : list bytes :=
  [lit "CONNECT " ++ as_bytes (Endpoint_fmt d) ++ lit " HTTP/1.1"; lit "Host: " ++ as_bytes (Endpoint_fmt d);
   lit "Proxy-Connection: Keep-Alive"; lit "Connection: Keep-Alive"].

Section Messages.
Context `{Base64} `{!Base64Laws}.

Definition credential (scheme : AuthScheme) (tok : bytes) : str := header_name scheme ++ lit " " ++ b64_encode tok.

Lemma credential_ascii scheme tok : Forall is_u8 tok -> as_bytes (credential scheme tok) = credential scheme tok.
Proof.
  intros Ht. apply as_bytes_ascii, Forall_app. split; [destruct scheme; vm_compute; repeat constructor; done|].
  apply Forall_app. split; [vm_compute; repeat constructor; done|].
  eapply Forall_impl; [by apply b64_alphabet|]. unfold is_b64_char. intros c Hc. simpl in Hc. lia.
Qed.

Lemma request_cut d authorization :
  destination_ok d -> (forall a, authorization = Some a -> exists scheme tok, Forall is_u8 tok /\ a = credential scheme tok) ->
  let request := as_bytes (connect_request_text d authorization) in
  find_header_end request = Some (len request) /\
  cut_lines [] request = fixed_lines d ++
    (match authorization with Some a => [credential_prefix ++ a] | None => [] end) ++ [[]; []].
Proof.
  intros [Hwf Hpos] Ha. cbv zeta. assert (Forall safe_line (connect_lines d authorization)) as Hs.
  { apply connect_lines_safe; [done|done|]. intros a Hs. destruct (Ha a Hs) as (scheme & tok & Ht & ->). by apply authorization_safe. }
  split; [by apply connect_request_ends|]. rewrite connect_request_as_lines, cut_head_bytes by done.
  unfold connect_lines, fixed_lines. destruct authorization as [a|]; [|done].
  destruct (Ha a eq_refl) as (scheme & tok & Ht & ->). by rewrite credential_ascii.
Qed.

(** The receiver gets the scheme and the token back. *)
Lemma request_credential d scheme tok :
  destination_ok d -> Forall is_u8 tok ->
  proxy_authorization (as_bytes (connect_request_text d (Some (credential scheme tok)))) = Some (header_name scheme, b64_encode tok).
Proof.
  intros Hd Ht. unfold proxy_authorization. destruct (request_cut d (Some (credential scheme tok)) Hd) as [_ ->]; [naive_solver|].
  unfold fixed_lines. cbn [app first_some].
  rewrite decide_False by (unfold credential_prefix, lit; simpl; discriminate).
  rewrite decide_False by (unfold credential_prefix, lit; simpl; discriminate).
  rewrite decide_False by (unfold credential_prefix, lit; simpl; discriminate).
  rewrite decide_False by (unfold credential_prefix, lit; simpl; discriminate).
  rewrite take_app_length, decide_True, drop_app_length by done.
  assert (split_once 32 (credential scheme tok) = Some (header_name scheme, b64_encode tok)) as ->; [|done].
  apply split_once_some. split; [done|]. apply contains_char_false. by destruct scheme.
Qed.
End Messages.

(** ** Logs *)

Section Logs.
Context {W : Type} `{Network W} `{AuthFactory W} `{!ByteTokens W} `{Httparse} `{Base64}.
Context (config : ProxyConfig) (fuel : nat) (d : Endpoint).

(** Neither a write nor a step that yields a token. *)
Definition mute (ev : event) : Prop := match ev with EvWrite _ _ | EvAuthStep _ (Ok _) => False | _ => True end.

(** A log in which the writes are requests for [d] without a credential, or
    follow a step with the credential it yielded. *)
Inductive speaks (scheme : AuthScheme) : list event -> Prop :=
| speaks_nil : speaks scheme []
| speaks_mute ev evs : mute ev -> speaks scheme evs -> speaks scheme (ev :: evs)
| speaks_probe k evs : speaks scheme evs -> speaks scheme (EvWrite k (as_bytes (connect_request_text d None)) :: evs)
| speaks_token challenge tok k evs :
    Forall is_u8 tok -> speaks scheme evs ->
    speaks scheme (EvAuthStep challenge (Ok tok) :: EvWrite k (as_bytes (connect_request_text d (Some (credential scheme tok)))) :: evs).

Lemma speaks_app scheme a b : speaks scheme a -> speaks scheme b -> speaks scheme (a ++ b).
Proof. intros Ha Hb. induction Ha; simpl; [done|by constructor..]. Qed.

Lemma speaks_mutes scheme evs : Forall mute evs -> speaks scheme evs.
Proof. induction 1; by constructor. Qed.

(** Sequencing: a first part that fits any scheme. *)
Lemma speaks_bind {A B} (m : M W ProxyError A) (k : A -> M W ProxyError B) (P : list event -> Prop) :
  (forall a b, (forall scheme, speaks scheme a) -> P b -> P (a ++ b)) -> (forall a, (forall scheme, speaks scheme a) -> P a) ->
  emits m (fun evs _ => forall scheme, speaks scheme evs) -> (forall x, emits (k x) (fun evs _ => P evs)) ->
  emits (m ≫= k) (fun evs _ => P evs).
Proof.
  intros Happ Hone Hm Hk. eapply emits_bind; [exact Hm| |by intros; apply Hone|by intros; apply Hone].
  intros e1 x He. eapply emits_weaken; [apply Hk|]. intros e2 o Ho. by apply Happ.
Qed.

Lemma mute_speaks {E A} (m : M W E A) :
  emits m (fun evs _ => Forall mute evs) -> emits m (fun evs _ => forall scheme, speaks scheme evs).
Proof. intros Hm. eapply emits_weaken; [exact Hm|]. intros evs o Hf scheme. by apply speaks_mutes. Qed.

Lemma reads_mute {E A} k (m : M W E A) P : performs (on_conn k) is_step is_write 0 0 m P -> emits m (fun evs _ => Forall mute evs).
Proof.
  intros Hm. eapply emits_weaken; [exact Hm|]. intros evs o [(Hq & Hs & Hw) _]. unfold count in *.
  induction Hq as [|ev evs Hev _ IH]; [done|]. destruct ev; simpl in *; try done; try lia; constructor; [done|auto].
Qed.

Lemma lift_mute {A} (r : result ProxyError A) : emits (W := W) (lift r) (fun evs _ => Forall mute evs).
Proof. apply emits_lift. by destruct r. Qed.

Lemma mute_bind {E A B} (m : M W E A) (k : A -> M W E B) :
  emits m (fun evs _ => Forall mute evs) -> (forall x, emits (k x) (fun evs _ => Forall mute evs)) -> emits (m ≫= k) (fun evs _ => Forall mute evs).
Proof.
  intros Hm Hk. eapply emits_bind; [exact Hm| |done|done]. intros e1 x Hf1. eapply emits_weaken; [apply Hk|].
  intros e2 o Hf2. by apply Forall_app.
Qed.

Lemma act_mute {E A} (f : W -> A * W) ev : (forall x, mute (ev x)) -> emits (E := E) (act f ev) (fun evs _ => Forall mute evs).
Proof. intros Hev. apply emits_act. intros x. by repeat constructor. Qed.

Lemma connect_upstream_mute : emits (W := W) (connect_upstream config) (fun evs _ => Forall mute evs).
Proof.
  apply mute_bind; [by apply act_mute|]. intros [r|]; [|by apply emits_throw]. simpl.
  apply mute_bind; [apply lift_mute|]. intros s. apply mute_bind; [|intros _; by apply emits_ret].
  apply mute_bind; [by apply act_mute|]. intros; apply lift_mute.
Qed.

(** A request, whatever becomes of it. *)
Lemma send_emits k authorization :
  emits (W := W) (send_connect_request k d authorization) (fun evs _ => evs = [EvWrite k (as_bytes (connect_request_text d authorization))]).
Proof.
  eapply (emits_bind _ _ (fun evs _ => evs = [EvWrite k _])); [by apply emits_act| |by intros ? ? ->|by intros ? ->].
  intros e1 r ->. apply emits_lift. by destruct r.
Qed.

(** A step and the request with its token. *)
Lemma round_speaks {A} scheme ctx challenge k (next : AuthContext -> M W ProxyError A) :
  (forall ctx', emits (next ctx') (fun evs _ => speaks scheme evs)) ->
  emits (W := W) ('(tok, ctx) ← auth_step ctx challenge;
      tok ← lift (map_err Authentication tok);
      send_connect_request k d (Some (credential scheme tok));;
      next ctx) (fun evs _ => speaks scheme evs).
Proof.
  intros Hn s o s'. unfold auth_step, act, mbind at 1, M_bind. destruct (step ctx challenge (world s)) as [[r ctx'] w] eqn:Es.
  destruct r as [tok|e]; cbn [fst].
  - intros Hrun. assert (emits (send_connect_request (W := W) k d (Some (credential scheme tok));; next ctx')
      (fun evs _ => speaks scheme (EvAuthStep challenge (Ok tok) :: evs))) as Hk.
    { apply token_u8 in Es. eapply emits_bind; [apply send_emits|..].
      - intros e1 _ ->. eapply emits_weaken; [apply Hn|]. intros e2 o' He. by constructor.
      - intros e1 e ->. constructor; [done|constructor].
      - intros e1 ->. constructor; [done|constructor]. }
    apply Hk in Hrun as (evs & Ht & Hs). simpl in Ht. exists (EvAuthStep challenge (Ok tok) :: evs). by rewrite Ht, <-app_assoc.
  - intros [= <- <-]. exists [EvAuthStep challenge (Err e)]. split; [done|]. constructor; [done|constructor].
Qed.

Lemma auth_rounds_speaks rounds scheme ctx up response challenge drain :
  emits (W := W) (auth_rounds config fuel rounds d scheme ctx up response challenge drain) (fun evs _ => speaks scheme evs).
Proof.
  assert (forall A B (m : M W ProxyError A) (k : A -> M W ProxyError B),
    emits m (fun evs _ => Forall mute evs) -> (forall x, emits (k x) (fun evs _ => speaks scheme evs)) ->
    emits (m ≫= k) (fun evs _ => speaks scheme evs)) as Hbind.
  { intros A B m k Hm Hk. apply speaks_bind; [intros; by apply speaks_app|auto|by apply mute_speaks|done]. }
  revert ctx up response challenge drain. induction rounds as [|rounds IH]; intros; [by apply emits_throw; constructor|]. cbn [auth_rounds].
  apply Hbind.
  { destruct drain; [|by apply emits_ret]. destruct (connection_close response); [by apply emits_throw|].
    eapply reads_mute, performs_mapE, drain_response_body_exchanges. }
  intros up1. apply round_speaks. intros ctx1. apply Hbind; [eapply reads_mute, next_response_exchanges|]. intros [response1 up2].
  destruct (is_connect_success response1); [apply emits_ret; constructor|].
  destruct (negb _); [apply emits_throw; constructor|].
  apply Hbind; [apply lift_mute|]. intros found. apply Hbind; [apply lift_mute|]. intros ch. apply IH.
Qed.

Lemma establish_upstream_speaks :
  emits (W := W) (establish_upstream_tunnel config fuel d) (fun evs _ => exists scheme, speaks scheme evs).
Proof.
  assert (forall A (m : M W ProxyError A) (k : A -> M W ProxyError BufferedStream),
    emits m (fun evs _ => forall scheme, speaks scheme evs) -> (forall x, emits (k x) (fun evs _ => exists scheme, speaks scheme evs)) ->
    emits (m ≫= k) (fun evs _ => exists scheme, speaks scheme evs)) as Hbind.
  { intros A m k. apply speaks_bind; [|by exists Ntlm]. intros a b Ha [scheme Hb]. exists scheme. by apply speaks_app. }
  assert (exists scheme, speaks scheme []) as Hnil by (exists Ntlm; constructor).
  apply Hbind; [apply mute_speaks, connect_upstream_mute|]. intros up.
  apply Hbind; [eapply emits_weaken; [apply send_emits|]; intros ? _ -> scheme; constructor; constructor|]. intros _.
  apply Hbind; [eapply mute_speaks, reads_mute, next_response_exchanges|]. intros [response up1].
  destruct (is_connect_success response); [by apply emits_ret|]. destruct (negb _); [by apply emits_throw|].
  destruct (decide _); [by apply emits_throw|].
  apply Hbind; [apply mute_speaks, lift_mute|]. intros [scheme first].
  apply Hbind; [by apply mute_speaks, act_mute|]. intros created.
  apply Hbind; [apply mute_speaks, lift_mute|]. intros ctx. apply Hbind; [apply mute_speaks, lift_mute|]. intros challenge.
  destruct (connection_close response); [destruct challenge; [by apply emits_throw|]; apply Hbind; [apply mute_speaks, connect_upstream_mute|]; intros up2|];
    (eapply emits_weaken; [apply auth_rounds_speaks|]; intros evs o Hs; by exists scheme).
Qed.
End Logs.

(** ** Reading a log *)

Section Read.
Context `{Base64} `{!Base64Laws}.
Context (d : Endpoint).
Hypothesis ok : destination_ok d.

(** The lines of a request and where its credential comes from. *)
Definition request_of (evs : list event) (data : bytes) : Prop :=
  find_header_end data = Some (len data) /\
  (cut_lines [] data = fixed_lines d ++ [[]; []] \/
   exists scheme challenge tok, EvAuthStep challenge (Ok tok) ∈ evs /\
     cut_lines [] data = fixed_lines d ++ [credential_prefix ++ credential scheme tok; []; []]).

Lemma speaks_requests scheme evs k data : speaks d scheme evs -> EvWrite k data ∈ evs -> request_of evs data.
Proof.
  assert (forall evs evs', evs ⊆ evs' -> request_of evs data -> request_of evs' data) as Hmono.
  { intros a b Hab [Hf [Hc|(sch & ch & tok & Hin & Hc)]]; (split; [done|]); [by left|right; exists sch, ch, tok; auto]. }
  induction 1 as [|ev evs Hm Hs IH|k' evs Hs IH|ch tok k' evs Ht Hs IH]; rewrite ?elem_of_cons.
  - by intros ?%elem_of_nil.
  - intros [<-|Hin]; [done|]. eapply Hmono; [|by apply IH]. set_solver.
  - intros [[= <- ->]|Hin]; [|eapply Hmono; [|by apply IH]; set_solver].
    destruct (request_cut d None ok) as [Hf Hc]; [done|]. split; [done|]. by left.
  - intros [[=]|[[= <- ->]|Hin]]; [|eapply Hmono; [|by apply IH]; set_solver].
    destruct (request_cut d (Some (credential scheme tok)) ok) as [Hf Hc]; [naive_solver|]. split; [done|].
    right. exists scheme, ch, tok. split; [set_solver|done].
Qed.

Lemma speaks_delivers scheme evs before challenge tok after :
  speaks d scheme evs -> evs = before ++ EvAuthStep challenge (Ok tok) :: after ->
  exists k data rest text, after = EvWrite k data :: rest /\
    proxy_authorization data = Some (header_name scheme, text) /\ b64_decode text = Some tok.
Proof.
  intros Hs. revert before. induction Hs as [|ev evs Hm Hs IH|k evs Hs IH|ch tok' k evs Ht Hs IH]; intros before He.
  - by destruct before.
  - destruct before as [|e before]; [injection He as -> ->; done|]. injection He as -> He. by eapply IH.
  - destruct before as [|e before]; [done|]. injection He as <- He. by eapply IH.
  - destruct before as [|e before].
    + injection He as -> -> <-. eexists k, _, evs, (b64_encode tok).
      split_and!; [done|by apply request_credential|by apply b64_roundtrip].
    + injection He as <- He. destruct before as [|e before]; [done|]. injection He as <- He. by eapply IH.
Qed.
End Read.

(** ** Properties *)

(** C28: Nothing can be injected into a request to the upstream proxy.  Whatever an exchange for an accepted destination writes, cut at its line ends, is the request line, the three fixed header lines, at most one Proxy-Authorization line and the blank line that ends it; that line is a scheme name and the base64 text of a token the provider returned in the same exchange.  Neither the destination nor a token can end the head early or add a line. *)
Theorem connect_request_no_injection {W} `{Network W} `{AuthFactory W} `{!ByteTokens W} `{Httparse} `{Base64} `{!Base64Laws}
    config fuel d (s : st W) o s' :
  destination_ok d -> establish_upstream_tunnel config fuel d s = (o, s') ->
  exists evs, trace s' = trace s ++ evs /\
    forall k data, EvWrite k data ∈ evs ->
      find_header_end data = Some (len data) /\
      (cut_lines [] data = fixed_lines d ++ [[]; []] \/
       exists scheme challenge tok, EvAuthStep challenge (Ok tok) ∈ evs /\
         cut_lines [] data = fixed_lines d ++ [credential_prefix ++ credential scheme tok; []; []]).
Proof.
  intros Hd Hrun. apply establish_upstream_speaks in Hrun as (evs & Ht & scheme & Hs). exists evs. split; [done|].
  intros k data. by apply (speaks_requests d Hd scheme).
Qed.

(** C29: Every token reaches the upstream proxy.  In an exchange for an accepted destination each step of the provider that yields a token is followed at once by a request, and a receiver that reads the request's lines finds in its Proxy-Authorization header the name of the one scheme of the exchange and a text that decodes to exactly that token. *)
Theorem authorization_delivered {W} `{Network W} `{AuthFactory W} `{!ByteTokens W} `{Httparse} `{Base64} `{!Base64Laws}
    config fuel d (s : st W) o s' :
  destination_ok d -> establish_upstream_tunnel config fuel d s = (o, s') ->
  exists evs scheme, trace s' = trace s ++ evs /\
    forall before challenge tok after, evs = before ++ EvAuthStep challenge (Ok tok) :: after ->
      exists k data rest text, after = EvWrite k data :: rest /\
        proxy_authorization data = Some (header_name scheme, text) /\ b64_decode text = Some tok.
Proof.
  intros Hd Hrun. apply establish_upstream_speaks in Hrun as (evs & Ht & scheme & Hs). exists evs, scheme. split; [done|].
  intros before challenge tok after. by apply (speaks_delivers d Hd).
Qed.

(** ** The NTLM exchange of [Scenario] *)

Global Instance script_tokens : ByteTokens Script.
Proof.
  intros ctx challenge w tok ctx' w' [= <- _ _]. destruct (_ =? 0); apply Forall_forall; intros c Hc;
    apply list_elem_of_In in Hc; simpl in Hc; unfold is_u8; lia.
Qed.

Definition wire_run : outcome ProxyError BufferedStream * st Script :=
  establish_upstream_tunnel (small_config AuthNtlm RoutingProxyOnly) fuel0 service ntlm_world.

Lemma connect_request_no_injection_witness :
  destination_ok service /\
  exists evs, trace (snd wire_run) = evs /\
    forall k data, EvWrite k data ∈ evs -> find_header_end data = Some (len data).
Proof.
  split; [exact service_wf|].
  destruct (connect_request_no_injection (small_config AuthNtlm RoutingProxyOnly) fuel0 service ntlm_world (fst wire_run) (snd wire_run)
    service_wf (surjective_pairing _)) as (evs & Ht & Hw).
  exists evs. split; [exact Ht|]. intros k data Hin. exact (proj1 (Hw k data Hin)).
Defined.

Lemma authorization_delivered_witness :
  destination_ok service /\
  exists evs scheme before challenge after, trace (snd wire_run) = evs /\
    evs = before ++ EvAuthStep challenge (Ok (lit "type3")) :: after /\
    exists k data rest text, after = EvWrite k data :: rest /\
      proxy_authorization data = Some (header_name scheme, text) /\ b64_decode text = Some (lit "type3").
Proof.
  split; [exact service_wf|].
  destruct (authorization_delivered (small_config AuthNtlm RoutingProxyOnly) fuel0 service ntlm_world (fst wire_run) (snd wire_run)
    service_wf (surjective_pairing _)) as (evs & scheme & Ht & Hw).
  assert (EvAuthStep (Some (lit "type2")) (Ok (lit "type3")) ∈ evs) as (before & after & Hs)%list_elem_of_split.
  { rewrite <-(app_nil_l evs). change [] with (trace ntlm_world). rewrite <-Ht. apply (list_elem_of_lookup_2 _ 8).
    vm_compute. reflexivity. }
  exists evs, scheme, before, (Some (lit "type2")), after. split; [exact Ht|]. split; [exact Hs|]. exact (Hw before _ _ after Hs).
Defined.
