(* ===== verification/Protocol.v ===== *)
(** * Protocol: the exchange on messages

    An abstract specification of [establish_upstream_tunnel]: a function on
    the responses the upstream gives, without bytes, buffers, framing or
    draining.  The code is proved to refine it against every upstream that
    answers one request with one response, sent in any number of pieces: the
    requests and the result are those of the specification.  From the
    specification it follows that a cooperating upstream always yields a
    tunnel.  What an upstream promises is the class [Upstreams]; [Mock] shows
    that the benchmark's mock upstream keeps the promise. *)

From S2P Require Import Prelude RustStr RustNet Config Routing Auth Io Http1 Http1Body Relay Challenge Base64 Server Scenario Handshake.

(** ** Messages *)

Record message := { m_head : bytes; m_response : ResponseHead; m_body : bytes }.

(** A response on the wire. *)
Definition wire (m : message) : bytes := m_head m ++ m_body m.

(** A response as it is sent: a head within the limit that parses, and, for
    a challenge, a body framed as the head says.  What follows the head of a
    successful response belongs to the tunnel. *)
Definition message_ok `{Httparse} (max : Z) (m : message) : Prop :=
  find_header_end (m_head m) = Some (len (m_head m)) /\ len (m_head m) <= max /\
  parse_response_head (m_head m) = Ok (m_response m) /\
  (status (m_response m) = 407 -> response_body (m_response m) (m_body m)).

(** ** A provider with all its state in the context *)

Class LocalProvider (W : Type) `{AuthFactory W} := {
  pcreate : AuthScheme -> str -> result AuthError AuthContext;
  pstep : AuthContext -> option bytes -> result AuthError bytes * AuthContext;
  create_local scheme name w : create scheme name w = (pcreate scheme name, w);
  step_local ctx challenge w : step ctx challenge w = (pstep ctx challenge, w);
}.

(** The benchmark's provider is one. *)
Program Definition MockFactory_local (W : Type) : @LocalProvider W (MockFactory W) :=
  @Build_LocalProvider W (MockFactory W)
    (fun scheme name => fst (MockFactory_create scheme name tt))
    (fun ctx challenge => fst (MockContext_step ctx challenge tt)) _ _.
Next Obligation. reflexivity. Qed.
Next Obligation. reflexivity. Qed.

(** ** The specification *)

(** What an observer of the upstream side sees. *)
Inductive action := Dial | Request (authorization : option str).

(** The actions, and how it ends: a tunnel that starts with some bytes, on a
    connection whose peer has some responses left, or an error. *)
Definition run_of : Type := list action * result ProxyError (bytes * list message).

Definition after (acts : list action) (r : run_of) : run_of := (acts ++ fst r, snd r).

Section Spec.
Context {W : Type} `{LocalProvider W} `{Base64}.
Context (config : ProxyConfig).

(** The rounds: a tunnel starts with what its peer sent with the accepting
    response.  [previous] is the challenge being answered. *)
Fixpoint negotiate (rounds : nat) (scheme : AuthScheme) (ctx : AuthContext) (previous : option ResponseHead)
    (challenge : option bytes) (msgs : list message) : run_of :=
  match rounds with
  | O => ([], Err TooManyAuthenticationRounds)
  | S rounds' =>
    if from_option connection_close false previous then ([], Err ConnectionClosedDuringAuth)
    else
      let '(tok, ctx') := pstep ctx challenge in
      match tok with
      | Err e => ([], Err (Authentication e))
      | Ok tok =>
        after [Request (Some (header_name scheme ++ lit " " ++ b64_encode tok))]
          match msgs with
          | [] => ([], Err (Proxy_Http UnexpectedEof))
          | m :: rest =>
            if is_connect_success (m_response m) then ([], Ok (m_body m, rest))
            else if negb (status (m_response m) =? 407) then ([], Err (UpstreamStatus (status (m_response m))))
            else
              match find_challenge (m_response m) scheme with
              | None => ([], Err AuthenticationSchemeMissing)
              | Some found =>
                match decode_challenge found with
                | Err e => ([], Err e)
                | Ok ch => negotiate rounds' scheme ctx' (Some (m_response m)) ch rest
                end
              end
          end
      end
  end.

(** The challenge of the probe is answered on its connection, or on a new
    one when the upstream closes the first. *)
Definition answer (first : ResponseHead) (rest : list message) (more : list (list message)) : run_of :=
  match choose_scheme first (auth config) with
  | Err e => ([], Err e)
  | Ok (scheme, found) =>
    match pcreate scheme (lit "HTTP/" ++ endpoint_host (upstream config)) with
    | Err e => ([], Err (Authentication e))
    | Ok ctx =>
      match decode_challenge found with
      | Err e => ([], Err e)
      | Ok challenge =>
        if connection_close first then
          match challenge, more with
          | Some _, _ => ([], Err ConnectionClosedDuringAuth)
          | None, [] => ([Dial], Err ConnectTimeout)
          | None, msgs :: _ => after [Dial] (negotiate MAX_AUTH_ROUNDS scheme ctx None None msgs)
          end
        else negotiate MAX_AUTH_ROUNDS scheme ctx (Some first) challenge rest
      end
    end
  end.

(** [dials] has the responses of each connection the upstream takes. *)
Definition spec_tunnel (dials : list (list message)) : run_of :=
  match dials with
  | [] => ([Dial], Err ConnectTimeout)
  | msgs :: more =>
    after [Dial; Request None]
      match msgs with
      | [] => ([], Err (Proxy_Http UnexpectedEof))
      | m :: rest =>
        if is_connect_success (m_response m) then ([], Ok (m_body m, rest))
        else if negb (status (m_response m) =? 407) then ([], Err (UpstreamStatus (status (m_response m))))
        else if decide (auth config = AuthNone) then ([], Err AuthenticationRequired)
        else answer (m_response m) rest more
      end
  end.
End Spec.

(** ** Upstreams that answer requests *)

(** [answers msgs k w]: the peer of socket [k] will answer the next requests
    with [msgs], one each, and later ones not at all.  [listens ds w]: the
    next connections have peers with the answers [ds], and there are no more
    connections.  Reading and writing elsewhere does not disturb a peer. *)
Class Upstreams (W : Type) `{Network W} `{!ReliableReads W} := {
  request_ok : bytes -> Prop;
  answers : list message -> sock -> W -> Prop;
  listens : list (list message) -> W -> Prop;
  answers_write msgs k data w : answers msgs k w -> request_ok data ->
    exists w', net_write_all k data w = (Ok tt, w') /\ (msgs <> [] -> answers (tail msgs) k w') /\
      pending k w' = pending k w ++ from_option wire [] (head msgs);
  answers_read msgs k j n w r w' : answers msgs k w -> net_read j n w = (r, w') -> answers msgs k w';
  answers_nodelay msgs k w : answers msgs k w ->
    exists w', net_set_nodelay k w = (Ok tt, w') /\ answers msgs k w' /\ pending k w' = pending k w;
  listens_write ds msgs k data w r w' : listens ds w -> answers msgs k w ->
    net_write_all k data w = (r, w') -> listens ds w';
  listens_read ds j n w r w' : listens ds w -> net_read j n w = (r, w') -> listens ds w';
  listens_nodelay ds msgs k w r w' : listens ds w -> answers msgs k w ->
    net_set_nodelay k w = (r, w') -> listens ds w';
  listens_connect ds target limit w : listens ds w ->
    match ds with
    | [] => exists w', net_connect target limit w = (Elapsed, w')
    | msgs :: more => exists k w', net_connect target limit w = (InTime (Ok k), w') /\
        answers msgs k w' /\ pending k w' = [] /\ listens more w'
    end;
}.

(** ** Properties of the world that reading keeps *)

Section Keeps.
Context {W : Type} `{Network W} `{Httparse} (I : W -> Prop).
Hypothesis I_read : forall j n w r w', I w -> net_read j n w = (r, w') -> I w'.

Definition keeps {E A} (m : M W E A) : Prop := forall s, I (world s) -> I (world (snd (m s))).

Lemma keeps_bind {E A B} (m : M W E A) (k : A -> M W E B) : keeps m -> (forall a, keeps (k a)) -> keeps (m ≫= k).
Proof.
  intros Hm Hk s Hs. specialize (Hm s Hs). unfold mbind, M_bind. destruct (m s) as [[a|e|] s1]; [|done|done].
  by apply Hk.
Qed.

Lemma keeps_pure {E A} (m : M W E A) : (forall s, snd (m s) = s) -> keeps m.
Proof. intros Hm s Hs. by rewrite Hm. Qed.

Lemma keeps_lift {E A} (r : result E A) : keeps (lift r).
Proof. apply keeps_pure. by destruct r. Qed.

Lemma keeps_ret {E A} (a : A) : keeps (mret (M := M W E) a).
Proof. by apply keeps_pure. Qed.
Lemma keeps_throw {E A} e : keeps (throw (W := W) (E := E) (A := A) e).
Proof. by apply keeps_pure. Qed.
Lemma keeps_no_fuel {E A} : keeps (no_fuel (W := W) (E := E) (A := A)).
Proof. by apply keeps_pure. Qed.

Lemma keeps_mapE {E F A} (f : E -> F) (m : M W E A) : keeps m -> keeps (mapE f m).
Proof. intros Hm s Hs. specialize (Hm s Hs). unfold mapE. by destruct (m s) as [[]]. Qed.

Lemma keeps_read_some k n : keeps (read_some k n).
Proof.
  apply keeps_bind; [|intros; apply keeps_lift]. intros s Hs. unfold read, act.
  destruct (net_read k n (world s)) as [r w'] eqn:Er. by eapply I_read.
Qed.
End Keeps.

Create HintDb keeps.
#[export] Hint Resolve keeps_lift keeps_ret keeps_throw keeps_no_fuel keeps_mapE keeps_read_some : keeps.

(** One goal of [keeps] per part of a program. *)
Ltac keeps_step :=
  repeat first
    [ progress intros
    | solve [eauto with keeps]
    | apply keeps_bind
    | case_bool_decide
    | match goal with
      | |- keeps _ (match ?x with _ => _ end) => destruct x
      | |- keeps _ (if ?x then _ else _) => destruct x
      end ].

Section KeepsLoops.
Context {W : Type} `{Network W} `{Httparse} (I : W -> Prop).
Hypothesis I_read : forall j n w r w', I w -> net_read j n w = (r, w') -> I w'.

Lemma keeps_read_response_head fuel up max : keeps I (read_response_head fuel up max).
Proof. revert up. induction fuel as [|fuel IH]; intros up; cbn [read_response_head]; keeps_step. Qed.

Lemma keeps_discard_exact fuel up n : keeps I (discard_exact fuel up n).
Proof.
  apply keeps_bind; [|keeps_step]. generalize (n - Z.min n (len (buffer up))).
  induction fuel as [|fuel IH]; intros r; cbn [discard_loop]; keeps_step.
Qed.

Lemma keeps_read_line fuel up max : keeps I (read_line fuel up max).
Proof. revert up. induction fuel as [|fuel IH]; intros up; cbn [read_line]; keeps_step. Qed.

Hint Resolve keeps_discard_exact keeps_read_line : keeps.

Lemma keeps_drain_trailers fuel lines up : keeps I (drain_trailers fuel lines up).
Proof. revert up. induction lines as [|lines IH]; intros up; cbn [drain_trailers]; keeps_step. Qed.

Hint Resolve keeps_drain_trailers : keeps.

Lemma keeps_drain_chunked fuel chunks up : keeps I (drain_chunked_loop fuel chunks up).
Proof. revert up. induction chunks as [|chunks IH]; intros up; cbn [drain_chunked_loop]; keeps_step. Qed.

Lemma keeps_drain_response_body fuel up r : keeps I (drain_response_body fuel up r).
Proof. unfold drain_response_body. destruct (is_chunked r); [apply keeps_drain_chunked|keeps_step]. Qed.
End KeepsLoops.

(** ** Runs and their actions *)

Definition visible (ev : event) : bool := is_write ev || is_connect ev.

Section Refinement.
Context (config : ProxyConfig) (d : Endpoint).

Definition shows (ev : event) (a : action) : Prop :=
  match a, ev with
  | Dial, EvConnect target _ =>
    target = ToHost (endpoint_host (upstream config)) (endpoint_port (upstream config))
  | Request auth, EvWrite _ data => data = as_bytes (connect_request_text d auth)
  | _, _ => False
  end.

(** From [s] to [s'] the actions [acts] were performed. *)
Definition did {W} (s s' : st W) (acts : list action) : Prop :=
  exists evs, trace s' = trace s ++ evs /\ Forall2 shows (List.filter visible evs) acts.

Lemma did_trans {W} (s1 s2 s3 : st W) a b : did s1 s2 a -> did s2 s3 b -> did s1 s3 (a ++ b).
Proof.
  intros (e1 & H1 & F1) (e2 & H2 & F2). exists (e1 ++ e2).
  split; [by rewrite H2, H1, app_assoc|]. rewrite List.filter_app. by apply Forall2_app.
Qed.

Lemma did_none {W} (s : st W) : did s s [].
Proof. exists []. by rewrite app_nil_r. Qed.

Lemma did_reads {W} (s s' : st W) evs k : trace s' = trace s ++ evs -> exchange k 0 0 evs -> did s s' [].
Proof.
  intros Ht Hx. exists evs. split; [done|].
  assert (within (fun ev => visible ev = false) is_connect is_write 0 0 evs) as (Hv & _).
  { eapply exchange_reads; [|exact Hx]. intros. split_and!; [by constructor|done|done]. }
  clear -Hv. induction Hv as [|ev evs Hev _ IH]; simpl; [done|]. by rewrite Hev.
Qed.

(** ** The pieces of the exchange *)

Section Pieces.
Context {W : Type} `{Network W} `{!ReliableReads W} `{!Upstreams W} `{AuthFactory W} `{!LocalProvider W} `{Httparse} `{Base64}.
Context (fuel : nat).
Hypothesis fuel_head : (Z.to_nat (max_header_bytes config) < fuel)%nat.
Hypothesis max_pos : 0 < max_header_bytes config.

(** A message the code can handle with its fuel. *)
Definition message_fits (m : message) : Prop :=
  message_ok (max_header_bytes config) m /\ (length (m_body m) < fuel)%nat.

(** The requests among some actions are understood by the upstream. *)
Definition sendable (acts : list action) : Prop :=
  Forall (fun a => match a with Request auth => request_ok (as_bytes (connect_request_text d auth)) | Dial => True end) acts.

Lemma reads_run {E A} k (m : M W E A) P (s : st W) o s' :
  exchanges k 0 0 m P -> m s = (o, s') -> did s s' [].
Proof. intros Hm Hs. apply Hm in Hs as (evs & Ht & Hx & _). by eapply did_reads. Qed.

(** The peer of a connection and the connections to come, which reading
    leaves alone. *)
Definition peers (msgs : list message) (k : sock) (ds : list (list message)) (w : W) : Prop :=
  answers msgs k w /\ listens ds w.

Lemma peers_read msgs k ds j n w r w' : peers msgs k ds w -> net_read j n w = (r, w') -> peers msgs k ds w'.
Proof. intros [Ha Hl] Hr. split; [by eapply answers_read|by eapply listens_read]. Qed.

Lemma keeps_run {E A} I (m : M W E A) (s : st W) o s' : keeps I m -> m s = (o, s') -> I (world s) -> I (world s').
Proof. intros Hk Hs HI. specialize (Hk s HI). by rewrite Hs in Hk. Qed.

Lemma next_response_message up m (s : st W) msgs ds :
  message_fits m -> remaining_input up s = wire m -> peers msgs (stream up) ds (world s) ->
  exists up' s', next_response config fuel up s = (Val (m_response m, up'), s') /\
    stream up' = stream up /\ remaining_input up' s' = m_body m /\ did s s' [] /\
    peers msgs (stream up) ds (world s').
Proof.
  intros [(Hf & Hl & Hp & _) _] Hrem Hpe.
  assert (find_header_end (remaining_input up s) = Some (len (m_head m))) as Hfe
    by (rewrite Hrem; by apply find_header_end_app).
  destruct (read_response_head_spec fuel up (max_header_bytes config) s (len (m_head m)) Hfe) as (s' & Hs');
    [done|pose proof (len_nonneg (buffer up)); lia|].
  rewrite Hrem in Hs'. unfold wire, len in Hs'. rewrite Nat2Z.id, take_app_length, drop_app_length, Hp in Hs'.
  destruct Hs' as (up' & Hr & Hst & Hrem').
  assert (next_response config fuel up s = (Val (m_response m, up'), s')) as Hn
    by (unfold next_response, mapE; by rewrite Hr).
  exists up', s'. split_and!; [done|done|done|eapply reads_run; [apply next_response_exchanges|exact Hn]|].
  eapply (keeps_run (peers msgs (stream up) ds)); [|exact Hr|done].
  apply keeps_read_response_head. intros. by eapply peers_read.
Qed.

Lemma next_response_eof up (s : st W) :
  remaining_input up s = [] ->
  exists s', next_response config fuel up s = (Exn (Proxy_Http UnexpectedEof), s') /\ did s s' [].
Proof.
  intros Hrem. apply app_eq_nil in Hrem as [Hb Hp].
  destruct (read_some_reliable (stream up) (Z.min 8192 (max_header_bytes config - 0)) s)
    as (chunk & s1 & Hr & Hc & _); [lia|]. rewrite Hp in Hc. symmetry in Hc. apply app_eq_nil in Hc as [-> _].
  assert (next_response config fuel up s = (Exn (Proxy_Http UnexpectedEof), s1)) as Hn.
  { unfold next_response, mapE. destruct fuel as [|n]; [lia|]. simpl. rewrite Hb. simpl.
    change (len (@nil Z)) with 0. rewrite (proj2 (Z.leb_gt _ _)) by done.
    unfold mbind, M_bind. by rewrite Hr. }
  exists s1. split; [done|]. eapply reads_run; [apply next_response_exchanges|exact Hn].
Qed.

Lemma send_request_run up auth (s : st W) msgs ds :
  peers msgs (stream up) ds (world s) -> request_ok (as_bytes (connect_request_text d auth)) ->
  exists s', send_connect_request (stream up) d auth s = (Val tt, s') /\ did s s' [Request auth] /\
    (msgs <> [] -> peers (tail msgs) (stream up) ds (world s')) /\
    remaining_input up s' = remaining_input up s ++ from_option wire [] (head msgs).
Proof.
  intros [Ha Hl] Hreq. destruct (answers_write msgs _ _ _ Ha Hreq) as (w' & Hw & Ha' & Hp).
  unfold send_connect_request, io_try, write_all, act, mbind, M_bind. rewrite Hw. eexists. split; [done|].
  split_and!.
  - eexists. split; [done|]. by repeat constructor.
  - split; [by apply Ha'|by eapply listens_write].
  - unfold remaining_input. simpl. rewrite Hp. apply app_assoc.
Qed.

Lemma drain_run up r (s : st W) msgs ds :
  response_body r (remaining_input up s) -> (length (remaining_input up s) < fuel)%nat ->
  peers msgs (stream up) ds (world s) ->
  exists up' s', mapE Proxy_Http (drain_response_body fuel up r) s = (Val up', s') /\
    stream up' = stream up /\ remaining_input up' s' = [] /\ did s s' [] /\ peers msgs (stream up) ds (world s').
Proof.
  intros Hb Hf Hpe. destruct (drain_response_body_skips fuel up r (remaining_input up s) [] s Hb)
    as (up' & s' & Hr & Hst & Hrem'); [by rewrite app_nil_r|done|].
  exists up', s'. unfold mapE. rewrite Hr. split_and!; [done|done|done| |].
  - eapply (reads_run _ (drain_response_body fuel up r)); [apply drain_response_body_exchanges|exact Hr].
  - eapply (keeps_run (peers msgs (stream up) ds)); [|exact Hr|done].
    apply keeps_drain_response_body. intros. by eapply peers_read.
Qed.

(** ** Refinement *)

(** A run of the code that ends in [o] and [s'] is the run [r] of the
    specification. *)
Definition meets (s : st W) (o : outcome ProxyError BufferedStream) (s' : st W) (r : run_of) : Prop :=
  did s s' (fst r) /\
  match snd r with
  | Ok (leftover, rest) => exists up ds, o = Val up /\ remaining_input up s' = leftover /\
      peers rest (stream up) ds (world s')
  | Err e => o = Exn e
  end.

Lemma meets_after s s1 o s' acts r : did s s1 acts -> meets s1 o s' r -> meets s o s' (after acts r).
Proof. intros Hd [Hd' Hr]. split; [by eapply did_trans|done]. Qed.

Lemma meets_err s e : meets s (Exn e) s ([], Err e).
Proof. split; [apply did_none|done]. Qed.

(** The code [m] run from [s] meets [r], if the upstream understands the
    requests of [r]. *)
Definition refines (m : M W ProxyError BufferedStream) (s : st W) (r : run_of) : Prop :=
  sendable (fst r) -> let '(o, s') := m s in meets s o s' r.

Lemma refines_bind {A} (m : M W ProxyError A) k s acts r :
  (sendable acts -> exists a s1, m s = (Val a, s1) /\ did s s1 acts /\ refines (k a) s1 r) ->
  refines (m ≫= k) s (after acts r).
Proof.
  intros Hm Hs. apply Forall_app in Hs as [Hs1 Hs2]. destruct (Hm Hs1) as (a & s1 & Hrun & Hd & Hk).
  specialize (Hk Hs2). unfold mbind, M_bind. rewrite Hrun.
  destruct (k a s1) as [o s'] eqn:E. by eapply meets_after.
Qed.

Lemma refines_bind0 {A} (m : M W ProxyError A) k s a s1 r :
  m s = (Val a, s1) -> did s s1 [] -> refines (k a) s1 r -> refines (m ≫= k) s r.
Proof.
  intros Hm Hd Hk. destruct r as [acts r]. apply (refines_bind m k s [] (acts, r)). intros _. eauto.
Qed.

Lemma refines_fails {A} (m : M W ProxyError A) k s e s1 acts :
  m s = (Exn e, s1) -> did s s1 acts -> refines (m ≫= k) s (acts, Err e).
Proof. intros Hm Hd _. unfold mbind, M_bind. rewrite Hm. by split. Qed.

Lemma refines_lift {A} (x : result ProxyError A) k s (f : A -> run_of) :
  (forall a, x = Ok a -> refines (k a) s (f a)) ->
  refines (lift x ≫= k) s match x with Ok a => f a | Err e => ([], Err e) end.
Proof. intros Hk. destruct x as [a|e]; [by apply Hk|]. intros _. apply meets_err. Qed.

Lemma refines_throw e s : refines (throw e) s ([], Err e).
Proof. intros _. apply meets_err. Qed.

Lemma refines_ret up s leftover rest ds :
  remaining_input up s = leftover -> peers rest (stream up) ds (world s) ->
  refines (mret up) s ([], Ok (leftover, rest)).
Proof. intros Hr Hpe _. split; [apply did_none|]. by exists up, ds. Qed.

Lemma auth_step_run ctx challenge (s : st W) :
  exists s', auth_step (E := ProxyError) ctx challenge s = (Val (pstep ctx challenge), s') /\ world s' = world s /\ did s s' [].
Proof.
  unfold auth_step, act. rewrite step_local. eexists. split; [done|]. split; [done|].
  eexists. split; [done|]. constructor.
Qed.

Lemma auth_create_run scheme name (s : st W) :
  exists s', auth_create (E := ProxyError) scheme name s = (Val (pcreate scheme name), s') /\ world s' = world s /\ did s s' [].
Proof.
  unfold auth_create, act. rewrite create_local. eexists. split; [done|]. split; [done|].
  eexists. split; [done|]. constructor.
Qed.

(** A request, the response to it, and what the code makes of that. *)
Lemma request_refines up auth msgs ds (s : st W) (found : ResponseHead -> BufferedStream -> M W ProxyError BufferedStream)
    (spec : message -> list message -> run_of) :
  Forall message_fits msgs -> remaining_input up s = [] -> peers msgs (stream up) ds (world s) ->
  (forall m rest up' s', msgs = m :: rest -> message_fits m -> Forall message_fits rest ->
     status (m_response m) = 407 -> stream up' = stream up -> remaining_input up' s' = m_body m ->
     peers rest (stream up') ds (world s') -> refines (found (m_response m) up') s' (spec m rest)) ->
  refines
    (send_connect_request (stream up) d auth;;
     '(response, up) ← next_response config fuel up;
     if is_connect_success response then mret up
     else if negb (status response =? 407) then throw (UpstreamStatus (status response))
     else found response up) s
    (after [Request auth]
       match msgs with
       | [] => ([], Err (Proxy_Http UnexpectedEof))
       | m :: rest =>
         if is_connect_success (m_response m) then ([], Ok (m_body m, rest))
         else if negb (status (m_response m) =? 407) then ([], Err (UpstreamStatus (status (m_response m))))
         else spec m rest
       end).
Proof.
  intros Hfit Hrem Hpe Hk. apply refines_bind.
  intros Hsend. assert (request_ok (as_bytes (connect_request_text d auth))) as Hreq by (by inversion Hsend).
  destruct (send_request_run up auth s msgs ds Hpe Hreq) as (s1 & Hs & Hd & Hpe1 & Hrem1).
  rewrite Hrem in Hrem1. exists tt, s1. split_and!; [done|done|].
  destruct msgs as [|m rest].
  { destruct (next_response_eof up s1 Hrem1) as (s' & Hn & Hd'). by eapply refines_fails. }
  inversion Hfit as [|? ? Hm Hrest]; subst.
  destruct (next_response_message up m s1 rest ds Hm Hrem1 (Hpe1 ltac:(done))) as (up' & s' & Hn & Hst & Hrem' & Hd' & Hpe').
  eapply refines_bind0; [exact Hn|exact Hd'|]. cbv beta iota.
  rewrite <-Hst in Hpe'. destruct (is_connect_success _); [by eapply refines_ret|].
  destruct (negb _) eqn:E; [apply refines_throw|]. apply Hk; try done; by destr_bool.
Qed.

(** What is left to read when a round starts: the body of the challenge, or
    nothing on a new connection. *)
Definition prepared (previous : option ResponseHead) (up : BufferedStream) (s : st W) : Prop :=
  match previous with
  | Some r => response_body r (remaining_input up s) /\ (length (remaining_input up s) < fuel)%nat
  | None => remaining_input up s = []
  end.

Lemma prepare_run previous response up msgs ds (s : st W) :
  prepared previous up s -> peers msgs (stream up) ds (world s) ->
  (forall r, previous = Some r -> response = r) -> from_option connection_close false previous = false ->
  exists up1 s1,
    (if bool_decide (is_Some previous) then
       if connection_close response then throw ConnectionClosedDuringAuth
       else mapE Proxy_Http (drain_response_body fuel up response)
     else mret up) s = (Val up1, s1) /\
    remaining_input up1 s1 = [] /\ did s s1 [] /\ peers msgs (stream up1) ds (world s1).
Proof.
  intros Hp Hpe Hr Hc. destruct previous as [r|]; simpl in *.
  - specialize (Hr r eq_refl). subst response. rewrite Hc. destruct Hp as [Hb Hf].
    destruct (drain_run up r s msgs ds Hb Hf Hpe) as (up1 & s1 & Hd & Hst & Hrem1 & Hdid & Hpe1).
    exists up1, s1. rewrite Hst. by split_and!.
  - exists up, s. split_and!; [done|done|apply did_none|done].
Qed.

Lemma auth_rounds_refines rounds scheme ctx previous response up challenge msgs ds (s : st W) :
  Forall message_fits msgs -> prepared previous up s -> peers msgs (stream up) ds (world s) ->
  (forall r, previous = Some r -> response = r) ->
  refines
    (auth_rounds config fuel rounds d scheme ctx up response challenge (bool_decide (is_Some previous))) s
    (negotiate rounds scheme ctx previous challenge msgs).
Proof.
  revert ctx previous response up challenge msgs s.
  induction rounds as [|rounds IH]; intros ctx previous response up challenge msgs s Hfit Hp Hpe Hresp; [apply refines_throw|].
  cbn [auth_rounds negotiate]. destruct (from_option connection_close false previous) eqn:Hc.
  { destruct previous as [r|]; [|done]. simpl in *. rewrite (Hresp r eq_refl), Hc. apply refines_throw. }
  destruct (prepare_run previous response up msgs ds s Hp Hpe Hresp Hc) as (up1 & s1 & Hprep & Hrem & Hd1 & Hpe1).
  eapply refines_bind0; [exact Hprep|exact Hd1|].
  destruct (auth_step_run ctx challenge s1) as (s2 & Hstep & Hw & Hd2).
  eapply refines_bind0; [exact Hstep|exact Hd2|].
  destruct (pstep ctx challenge) as [[tok|e] ctx']; [|apply refines_throw].
  eapply (refines_bind0 _ _ _ tok s2); [done|apply did_none|].
  apply (request_refines up1 _ msgs ds); [done|unfold remaining_input; rewrite Hw; exact Hrem|by rewrite Hw|].
  intros m rest up' s' -> [Hm Hlen] Hrest Hst _ Hrem' Hpe'.
  destruct (find_challenge (m_response m) scheme) as [found|]; [|apply refines_throw].
  eapply (refines_bind0 _ _ _ found s'); [done|apply did_none|].
  apply refines_lift. intros ch _.
  apply (IH ctx' (Some (m_response m))); [done| |done|by intros r [= <-]].
  simpl. rewrite Hrem'. split; [by apply Hm|done].
Qed.

(** ** The whole exchange *)

Lemma connect_run (s : st W) msgs more :
  listens (msgs :: more) (world s) ->
  exists up s', connect_upstream config s = (Val up, s') /\ did s s' [Dial] /\
    remaining_input up s' = [] /\ peers msgs (stream up) more (world s').
Proof.
  intros Hl. destruct (listens_connect _ (ToHost (endpoint_host (upstream config)) (endpoint_port (upstream config)))
    (connect_timeout config) _ Hl) as (k & w1 & Hc & Ha & Hp & Hl1).
  destruct (answers_nodelay _ _ _ Ha) as (w2 & Hn & Ha2 & Hp2).
  unfold connect_upstream, tcp_connect, connected, io_try, set_nodelay, act, mbind, M_bind, lift. rewrite Hc. simpl.
  rewrite Hn. simpl. do 2 eexists. split; [done|]. split_and!.
  - exists [EvConnect (ToHost (endpoint_host (upstream config)) (endpoint_port (upstream config))) (InTime (Ok k)); EvNodelay k].
    split; [simpl; by rewrite <-app_assoc|]. by repeat constructor.
  - unfold remaining_input. simpl. by rewrite Hp2.
  - split; [done|]. by eapply listens_nodelay.
Qed.

Lemma connect_refused (s : st W) :
  listens [] (world s) -> exists s', connect_upstream config s = (Exn ConnectTimeout, s') /\ did s s' [Dial].
Proof.
  intros Hl. destruct (listens_connect _ (ToHost (endpoint_host (upstream config)) (endpoint_port (upstream config)))
    (connect_timeout config) _ Hl) as (w1 & Hc).
  unfold connect_upstream, tcp_connect, act, mbind, M_bind. rewrite Hc. eexists. split; [done|].
  eexists. split; [done|]. by repeat constructor.
Qed.

(** Going on after the first challenge. *)
Lemma answer_first_refines m rest more up (s : st W) :
  message_fits m -> Forall message_fits rest -> Forall (Forall message_fits) more ->
  status (m_response m) = 407 -> remaining_input up s = m_body m -> peers rest (stream up) more (world s) ->
  refines
    ('(scheme, first_challenge) ← lift (choose_scheme (m_response m) (auth config));
     let target_name := lit "HTTP/" ++ endpoint_host (upstream config) in
     created ← auth_create scheme target_name;
     context ← lift (map_err Authentication created);
     challenge ← lift (decode_challenge first_challenge);
     if connection_close (m_response m) then
       match challenge with
       | Some _ => throw ConnectionClosedDuringAuth
       | None =>
         up ← connect_upstream config;
         auth_rounds config fuel MAX_AUTH_ROUNDS d scheme context up (m_response m) challenge false
       end
     else auth_rounds config fuel MAX_AUTH_ROUNDS d scheme context up (m_response m) challenge true) s
    (answer config (m_response m) rest more).
Proof.
  intros [Hm Hlen] Hrest Hmore Hst Hrem [Ha Hl]. unfold answer.
  destruct (choose_scheme _ _) as [[scheme found]|e]; [|apply refines_throw].
  eapply (refines_bind0 _ _ _ (scheme, found) s); [done|apply did_none|]. cbv beta iota zeta.
  destruct (auth_create_run scheme (lit "HTTP/" ++ endpoint_host (upstream config)) s) as (s1 & Hcr & Hw & Hd1).
  eapply refines_bind0; [exact Hcr|exact Hd1|].
  destruct (pcreate _ _) as [ctx|e]; [|apply refines_throw].
  eapply (refines_bind0 _ _ _ ctx s1); [done|apply did_none|].
  apply refines_lift. intros challenge _. rewrite <-Hw in Ha, Hl. destruct (connection_close _).
  - destruct challenge; [apply refines_throw|]. destruct more as [|msgs more].
    { destruct (connect_refused s1 Hl) as (s2 & Hc & Hd2). by eapply refines_fails. }
    inversion Hmore as [|? ? Hfit _]; subst. apply refines_bind. intros _.
    destruct (connect_run s1 msgs more Hl) as (up2 & s2 & Hc & Hd2 & Hrem2 & Hpe2).
    exists up2, s2. split_and!; [done|done|].
    by apply (auth_rounds_refines MAX_AUTH_ROUNDS scheme ctx None _ _ _ _ more).
  - apply (auth_rounds_refines MAX_AUTH_ROUNDS scheme ctx (Some (m_response m)) _ _ _ _ more); [done| |done|by intros r [= <-]].
    unfold prepared, remaining_input in *. rewrite Hw, Hrem. split; [by apply Hm|done].
Qed.

Lemma establish_upstream_tunnel_refines ds (s : st W) :
  listens ds (world s) -> Forall (Forall message_fits) ds ->
  refines (establish_upstream_tunnel config fuel d) s (spec_tunnel config ds).
Proof.
  intros Hl Hds. unfold spec_tunnel. destruct ds as [|msgs more].
  { destruct (connect_refused s Hl) as (s1 & Hc & Hd). by eapply refines_fails. }
  inversion Hds as [|? ? Hfit Hmore]; subst.
  apply (refines_bind _ _ _ [Dial] (after [Request None] _)). intros _.
  destruct (connect_run s msgs more Hl) as (up & s1 & Hc & Hd1 & Hrem & Hpe).
  exists up, s1. split_and!; [done|done|].
  apply (request_refines up None msgs more); [done|done|done|].
  intros m rest up' s' -> Hm Hrest Hst _ Hrem' Hpe'.
  destruct (decide _); [apply refines_throw|]. by apply answer_first_refines.
Qed.
End Pieces.
End Refinement.

(** ** Cooperating upstreams *)

Section Cooperation.
Context {W : Type} `{LocalProvider W} `{Base64}.

(** The upstream keeps the connection, answers each token with a challenge
    that can be decoded and that the provider can answer, and accepts within
    [n] rounds; [leftover] is what it sends with that. *)
Inductive cooperates (scheme : AuthScheme) : nat -> AuthContext -> option bytes -> list message -> bytes -> Prop :=
| cooperates_accept n ctx challenge tok ctx' m rest :
    pstep ctx challenge = (Ok tok, ctx') -> is_connect_success (m_response m) = true ->
    cooperates scheme (S n) ctx challenge (m :: rest) (m_body m)
| cooperates_challenge n ctx challenge tok ctx' m rest found next leftover :
    pstep ctx challenge = (Ok tok, ctx') ->
    status (m_response m) = 407 -> connection_close (m_response m) = false ->
    find_challenge (m_response m) scheme = Some found -> decode_challenge found = Ok next ->
    cooperates scheme n ctx' next rest leftover ->
    cooperates scheme (S n) ctx challenge (m :: rest) leftover.

Lemma challenge_not_success r : status r = 407 -> is_connect_success r = false.
Proof. unfold is_connect_success. by intros ->. Qed.

Lemma cooperates_negotiate scheme n ctx previous challenge msgs leftover :
  cooperates scheme n ctx challenge msgs leftover -> from_option connection_close false previous = false ->
  exists rest, snd (negotiate n scheme ctx previous challenge msgs) = Ok (leftover, rest).
Proof.
  intros Hc. revert previous.
  induction Hc as [n ctx ch tok ctx' m rest Hs Ha|n ctx ch tok ctx' m rest found next leftover Hs H407 Hk Hf Hd _ IH];
    intros previous Hp; simpl; rewrite Hp, Hs.
  - simpl. rewrite Ha. eauto.
  - simpl. rewrite (challenge_not_success _ H407), H407, Hf, Hd. simpl. by apply IH.
Qed.
End Cooperation.

(** The first response, and the connection on which it is answered. *)
Inductive upstream_cooperates {W} `{LocalProvider W} `{Base64} (config : ProxyConfig) :
  list (list message) -> bytes -> Prop :=
| up_open m rest more :
    is_connect_success (m_response m) = true ->
    upstream_cooperates config ((m :: rest) :: more) (m_body m)
| up_keeps m rest more scheme found ctx challenge leftover :
    status (m_response m) = 407 -> connection_close (m_response m) = false ->
    choose_scheme (m_response m) (auth config) = Ok (scheme, found) ->
    pcreate scheme (lit "HTTP/" ++ endpoint_host (upstream config)) = Ok ctx ->
    decode_challenge found = Ok challenge ->
    cooperates scheme MAX_AUTH_ROUNDS ctx challenge rest leftover ->
    upstream_cooperates config ((m :: rest) :: more) leftover
| up_closes m rest msgs more scheme found ctx leftover :
    status (m_response m) = 407 -> connection_close (m_response m) = true ->
    choose_scheme (m_response m) (auth config) = Ok (scheme, found) ->
    pcreate scheme (lit "HTTP/" ++ endpoint_host (upstream config)) = Ok ctx ->
    decode_challenge found = Ok None ->
    cooperates scheme MAX_AUTH_ROUNDS ctx None msgs leftover ->
    upstream_cooperates config ((m :: rest) :: msgs :: more) leftover.

Lemma choose_scheme_mode r mode x : choose_scheme r mode = Ok x -> mode <> AuthNone.
Proof. by intros Hc ->. Qed.

Lemma upstream_cooperates_spec {W} `{LocalProvider W} `{Base64} config ds leftover :
  upstream_cooperates config ds leftover -> exists rest, snd (spec_tunnel config ds) = Ok (leftover, rest).
Proof.
  intros Hc. destruct Hc as [m rest more Ha|m rest more scheme found ctx ch leftover H407 Hk Hs Hcr Hd Hn
    |m rest msgs more scheme found ctx leftover H407 Hk Hs Hcr Hd Hn]; cbn [spec_tunnel after snd].
  { rewrite Ha. simpl. eauto. }
  all: rewrite (challenge_not_success _ H407), H407; cbn [Z.eqb Pos.eqb negb];
    rewrite decide_False by (by eapply choose_scheme_mode); unfold answer; rewrite Hs, Hcr, Hd, Hk;
    cbn [after snd]; by apply cooperates_negotiate.
Qed.

(** ** Properties *)

(** C1: The byte-level exchange refines the message-level protocol: against any upstream that answers each request it understands with one well-formed response, the code dials and sends exactly the requests of the specification and ends in its result, the tunnel with exactly the bytes that came with the accepting response on the connection whose peer gave it, or the same error, however the responses are cut into reads. *)
Theorem upstream_exchange_refines {W} `{Network W} `{!ReliableReads W} `{!Upstreams W} `{AuthFactory W}
    `{!LocalProvider W} `{Httparse} `{Base64} config fuel d ds (s : st W) :
  0 < max_header_bytes config -> (Z.to_nat (max_header_bytes config) < fuel)%nat ->
  listens ds (world s) -> Forall (Forall (message_fits config fuel)) ds ->
  sendable d (fst (spec_tunnel config ds)) ->
  let '(o, s') := establish_upstream_tunnel config fuel d s in
  let '(acts, r) := spec_tunnel config ds in
  did config d s s' acts /\
  match r with
  | Ok (leftover, rest) => exists up, o = Val up /\ remaining_input up s' = leftover /\
      answers rest (stream up) (world s')
  | Err e => o = Exn e
  end.
Proof.
  intros Hmax Hfuel Hl Hfit Hsend.
  pose proof (establish_upstream_tunnel_refines config d fuel Hfuel Hmax ds s Hl Hfit Hsend) as Hr.
  destruct (establish_upstream_tunnel config fuel d s) as [o s'].
  destruct (spec_tunnel config ds) as [acts [[leftover rest]|e]]; [|done].
  destruct Hr as (Hd & up & ds' & -> & Hrem & Ha & _). eauto.
Qed.

(** C14: An upstream that cooperates always yields a tunnel: if it accepts at once, or offers a scheme the mode admits and answers each token with a challenge the provider can answer until it accepts within four rounds, on the probe's connection or on a second one after closing it, then the exchange returns a tunnel that starts with the bytes sent with the acceptance. *)
Theorem cooperating_upstream_accepts {W} `{Network W} `{!ReliableReads W} `{!Upstreams W} `{AuthFactory W}
    `{!LocalProvider W} `{Httparse} `{Base64} config fuel d ds leftover (s : st W) :
  0 < max_header_bytes config -> (Z.to_nat (max_header_bytes config) < fuel)%nat ->
  listens ds (world s) -> Forall (Forall (message_fits config fuel)) ds ->
  sendable d (fst (spec_tunnel config ds)) -> upstream_cooperates config ds leftover ->
  exists up s', establish_upstream_tunnel config fuel d s = (Val up, s') /\ remaining_input up s' = leftover.
Proof.
  intros Hmax Hfuel Hl Hfit Hsend Hc.
  pose proof (establish_upstream_tunnel_refines config d fuel Hfuel Hmax ds s Hl Hfit Hsend) as Hr.
  destruct (establish_upstream_tunnel config fuel d s) as [o s']. destruct Hr as [_ Hr].
  destruct (upstream_cooperates_spec config ds leftover Hc) as [rest Hspec]. rewrite Hspec in Hr.
  destruct Hr as (up & ds' & -> & Hrem & _). eauto.
Qed.

(** ** A world of such upstreams *)

(** A connection: what is on its way to the proxy, and the responses to the
    next requests. *)
Record Peer := { peer_out : bytes; peer_script : list bytes }.
Record PeerWorld := { pw_peers : list Peer; pw_dials : list (list bytes) }.

Definition set_peer (w : PeerWorld) (k : sock) (p : Peer) : PeerWorld :=
  {| pw_peers := <[k := p]> (pw_peers w); pw_dials := pw_dials w |}.

Global Instance peer_network : Network PeerWorld := {|
  net_read := fun k n w =>
    match pw_peers w !! k with
    | Some p => (Ok (take (Z.to_nat n) (peer_out p)),
                 set_peer w k {| peer_out := drop (Z.to_nat n) (peer_out p); peer_script := peer_script p |})
    | None => (Ok [], w)
    end;
  net_write_all := fun k _ w =>
    match pw_peers w !! k with
    | Some p => (Ok tt, set_peer w k {| peer_out := peer_out p ++ default [] (head (peer_script p));
                                        peer_script := tail (peer_script p) |})
    | None => (Ok tt, w)
    end;
  net_set_nodelay := fun _ w => (Ok tt, w);
  net_connect := fun _ _ w =>
    match pw_dials w with
    | [] => (Elapsed, w)
    | sc :: more => (InTime (Ok (length (pw_peers w))),
                     {| pw_peers := pw_peers w ++ [{| peer_out := []; peer_script := sc |}]; pw_dials := more |})
    end;
  net_lookup := fun _ _ _ w => (Elapsed, w);
|}.

Definition peer_pending (k : sock) (w : PeerWorld) : bytes := from_option peer_out [] (pw_peers w !! k).

Lemma set_peer_lookup w k p q : pw_peers w !! k = Some p -> pw_peers (set_peer w k q) !! k = Some q.
Proof. intros Hk. simpl. by eapply list_lookup_insert_eq, lookup_lt_Some. Qed.

Global Program Instance peer_reliable : ReliableReads PeerWorld := {| pending := peer_pending |}.
Next Obligation.
  intros k n w Hn. simpl. unfold peer_pending. destruct (pw_peers w !! k) as [p|] eqn:E.
  - do 2 eexists. split; [done|]. erewrite set_peer_lookup by done. simpl. rewrite take_drop. split_and!; [done| |].
    + unfold len. rewrite length_take. lia.
    + destruct (peer_out p); [done|]. destruct (Z.to_nat n) eqn:En; [lia|done].
  - exists [], w. split; [done|]. rewrite E. split_and!; [done|change (len (@nil Z)) with 0; lia|done].
Qed.

Global Program Instance peer_upstreams : Upstreams PeerWorld := {|
  request_ok := fun _ => True;
  answers := fun msgs k w => exists p, pw_peers w !! k = Some p /\ peer_script p = map wire msgs;
  listens := fun ds w => pw_dials w = map (map wire) ds;
|}.
Next Obligation.
  intros msgs k data w (p & Hk & Hs) _. simpl. rewrite Hk. eexists. split; [done|]. split.
  - eexists. split; [by eapply set_peer_lookup|]. simpl. rewrite Hs. by destruct msgs.
  - unfold peer_pending. erewrite set_peer_lookup, Hk by done. simpl. rewrite Hs. by destruct msgs.
Qed.
Next Obligation.
  intros msgs k j n w r w' (p & Hk & Hs). simpl. destruct (pw_peers w !! j) as [q|] eqn:Ej; intros [= <- <-]; [|eauto].
  destruct (decide (j = k)) as [->|]; [simplify_eq; eexists; split; [by eapply set_peer_lookup|done]|].
  exists p. simpl. by rewrite list_lookup_insert_ne.
Qed.
Next Obligation. intros msgs k w Ha. by exists w. Qed.
Next Obligation. intros ds msgs k data w r w' Hl _. simpl. by destruct (pw_peers w !! k); intros [= <- <-]. Qed.
Next Obligation. intros ds j n w r w' Hl. simpl. by destruct (pw_peers w !! j); intros [= <- <-]. Qed.
Next Obligation. by intros ds msgs k w r w' Hl _ [= <- <-]. Qed.
Next Obligation.
  intros ds target limit w Hl. simpl. rewrite Hl. destruct ds as [|msgs more]; simpl; [by eexists|].
  do 2 eexists. split; [done|]. assert (forall p, (pw_peers w ++ [p]) !! length (pw_peers w) = Some p) as Hlk
    by (intros; by apply list_lookup_middle).
  split_and!; [eexists; split; [apply Hlk|done]| |done]. unfold peer_pending. simpl. by rewrite Hlk.
Qed.

(** ** The integration test's exchange in this world *)

Global Instance peer_provider : AuthFactory PeerWorld := MockFactory PeerWorld.
Global Instance peer_local : LocalProvider PeerWorld := MockFactory_local PeerWorld.

Definition as_message (head body : bytes) : message :=
  {| m_head := head; m_body := body;
     m_response := match parse_response_head head with
                   | Ok r => r
                   | Err _ => {| version := 0; status := 0; headers := [] |}
                   end |}.

(** A body after the second challenge, early data with the acceptance. *)
Definition ntlm_messages : list message :=
  [as_message resp_407_offer [];
   as_message (http_lines ["HTTP/1.1 407 Auth"; "Proxy-Authenticate: NTLM dHlwZTI="; "Content-Length: 5"]%string "") (lit "hello");
   as_message resp_200 (lit "early")].

Definition ntlm_peers : st PeerWorld :=
  Build_st {| pw_peers := []; pw_dials := [map wire ntlm_messages] |} [].

Definition ntlm_config : ProxyConfig := small_config AuthNtlm RoutingProxyOnly.

Lemma ntlm_fits : Forall (Forall (message_fits ntlm_config fuel0)) [ntlm_messages].
Proof.
  apply Forall_singleton. unfold ntlm_messages. repeat (apply Forall_cons; split); try apply Forall_nil; try done;
    (split; [|vm_compute; lia]);
    (split_and!; [vm_compute; reflexivity|vm_compute; congruence|vm_compute; reflexivity|]);
    intros Hst; first [vm_compute in Hst; discriminate Hst | vm_compute; reflexivity].
Qed.

Lemma peer_sendable d acts : sendable (W := PeerWorld) d acts.
Proof. apply Forall_forall. by intros []. Qed.

Lemma upstream_exchange_refines_witness :
  exists s' up,
    did ntlm_config service ntlm_peers s'
      [Dial; Request None; Request (Some (lit "NTLM dHlwZTE=")); Request (Some (lit "NTLM dHlwZTM="))] /\
    fst (establish_upstream_tunnel ntlm_config fuel0 service ntlm_peers) = Val up /\
    remaining_input up s' = lit "early".
Proof.
  pose proof (upstream_exchange_refines ntlm_config fuel0 service [ntlm_messages] ntlm_peers) as Hr.
  destruct (establish_upstream_tunnel ntlm_config fuel0 service ntlm_peers) as [o s'].
  destruct (spec_tunnel ntlm_config [ntlm_messages]) as [acts r] eqn:E.
  vm_compute in E. injection E as <- <-.
  destruct Hr as (Hd & up & -> & Hrem & _);
    [vm_compute; reflexivity|vm_compute; lia|reflexivity|exact ntlm_fits|apply peer_sendable|].
  exists s', up. split; [exact Hd|]. split; [reflexivity|exact Hrem].
Defined.

Lemma ntlm_cooperates : upstream_cooperates ntlm_config [ntlm_messages] (lit "early").
Proof.
  eapply up_keeps; [vm_compute; reflexivity..|].
  eapply cooperates_challenge; [vm_compute; reflexivity..|].
  eapply (cooperates_accept _ _ _ _ _ _ (as_message resp_200 (lit "early")) []); vm_compute; reflexivity.
Qed.

Lemma cooperating_upstream_accepts_witness :
  exists up s', establish_upstream_tunnel ntlm_config fuel0 service ntlm_peers = (Val up, s') /\
    remaining_input up s' = lit "early".
Proof.
  apply (cooperating_upstream_accepts ntlm_config fuel0 service [ntlm_messages] (lit "early") ntlm_peers);
    [vm_compute; reflexivity|vm_compute; lia|reflexivity|exact ntlm_fits|apply peer_sendable|exact ntlm_cooperates].
Defined.
