(* ===== verification/Direct.v ===== *)
(** * Direct: which connections a destination may cause

    [resolve_direct_addresses] and [establish_tunnel] of src/server.rs: the
    addresses that are selected from a DNS answer, the connection attempts of
    a tunnel in both routing modes, and what their answers lead to. *)

From stdpp Require Import gmap.
From S2P Require Import Prelude RustStr RustNet Config Routing Auth Io Http1 Http1Body Relay Challenge Base64 Server Scenario Handshake.

(** ** The selection *)

Section Select.
Context (cidrs : list IpCidr).

Abbreviation direct a := (is_direct_address (SocketAddr_ip a) cidrs = true).

Lemma select_direct_elem seen l a :
  a ∈ select_direct cidrs seen l <-> a ∈ l /\ direct a /\ a ∉ seen.
Proof.
  revert seen. induction l as [|x l IH]; intros seen; simpl; [set_solver|].
  destruct (is_direct_address (SocketAddr_ip x) cidrs) eqn:Ed.
  - case_decide as Hs; [rewrite IH; set_solver|].
    rewrite elem_of_cons, IH. destruct (decide (a = x)) as [->|]; set_solver.
  - rewrite IH, elem_of_cons. split; [naive_solver|]. intros ([->|?] & Hd & ?); [congruence|done].
Qed.

Lemma select_direct_nodup seen l : NoDup (select_direct cidrs seen l).
Proof.
  revert seen. induction l as [|x l IH]; intros seen; simpl; [constructor|].
  destruct (is_direct_address _ _); [|apply IH]. case_decide; [apply IH|].
  constructor; [|apply IH]. rewrite select_direct_elem. set_solver.
Qed.

(** The first occurrence of every direct address, in the order of the answer. *)
Lemma select_direct_first seen l1 a l2 :
  direct a -> a ∉ l1 -> a ∉ seen ->
  exists before after, select_direct cidrs seen (l1 ++ a :: l2) = before ++ a :: after /\
    before = select_direct cidrs seen l1.
Proof.
  intros Hd. revert seen. induction l1 as [|x l1 IH]; intros seen Hn Hs; simpl.
  - rewrite Hd. case_decide; [done|]. by eexists [], _.
  - apply not_elem_of_cons in Hn as [Hne Hn].
    destruct (is_direct_address (SocketAddr_ip x) cidrs); [|by apply IH]. case_decide; [by apply IH|].
    destruct (IH ({[x]} ∪ seen)) as (b & c & -> & ->); [done|set_solver|]. by eexists (_ :: _), _.
Qed.
End Select.

(** C10: The addresses used for a direct connection are exactly the allowed ones of the DNS answer, without repetition, each at the place of its first occurrence. *)
Theorem select_direct_spec cidrs answer :
  NoDup (select_direct cidrs ∅ answer) /\
  (forall a, a ∈ select_direct cidrs ∅ answer <->
     a ∈ answer /\ is_direct_address (SocketAddr_ip a) cidrs = true) /\
  (forall l1 a l2, answer = l1 ++ a :: l2 -> a ∉ l1 -> is_direct_address (SocketAddr_ip a) cidrs = true ->
     exists after, select_direct cidrs ∅ answer = select_direct cidrs ∅ l1 ++ a :: after).
Proof.
  split_and!; [apply select_direct_nodup|intros a; rewrite select_direct_elem; set_solver|].
  intros l1 a l2 -> Hn Hd. destruct (select_direct_first cidrs ∅ l1 a l2) as (b & c & -> & ->); [done|done|set_solver|].
  eauto.
Qed.

(** ** The route of a tunnel *)

(** The addresses a lookup result allows. *)
Definition allowed (config : ProxyConfig) (r : timed (result IoError (list SocketAddr))) : list SocketAddr :=
  match r with
  | InTime (Ok answer) => select_direct (direct_cidrs config) ∅ answer
  | _ => []
  end.

(** A direct connection: one attempt at the given addresses, and the options
    of the socket it yields. *)
Inductive direct_trace (l : list SocketAddr) : list event -> outcome ProxyError BufferedStream -> Prop :=
| direct_failed r e : (forall s, r <> InTime (Ok s)) -> direct_trace l [EvConnect (ToAddrs l) r] (Exn e)
| direct_connected s o : (forall up, o = Val up -> up = BufferedStream_new s) ->
    direct_trace l [EvConnect (ToAddrs l) (InTime (Ok s)); EvNodelay s] o.

Section Route.
Context {W : Type} `{Network W} `{AuthFactory W} `{Httparse} `{Base64}.
Context (config : ProxyConfig) (fuel : nat) (d : Endpoint).

Lemma connect_direct_trace l : emits (W := W) (connect_direct config d l) (direct_trace l).
Proof.
  eapply (emits_bind _ _ (fun evs o => exists r, evs = [EvConnect (ToAddrs l) r] /\ o = Val r)).
  - apply emits_act. eauto.
  - intros e1 r (r' & -> & [= ->]). destruct r' as [[s|e]|].
    2-3: apply emits_throw; by constructor.
    intros s0 o s'. unfold connected, io_try, set_nodelay, mbind, M_bind, lift, act. simpl.
    destruct (net_set_nodelay s (world s0)) as [[[]|e] w]; simpl; intros [= <- <-]; eexists; (split; [done|]); simpl;
      constructor; naive_solver.
  - by intros e1 e (? & _ & ?).
  - by intros e1 (? & _ & ?).
Qed.

Lemma resolve_direct_trace :
  emits (W := W) (E := ProxyError) (resolve_direct_addresses config d)
    (fun evs o => exists r, evs = [EvLookup (endpoint_host d) (endpoint_port d) r] /\
       o = Val (if bool_decide (allowed config r = []) then None else Some (allowed config r))).
Proof.
  intros s0 o s'. unfold resolve_direct_addresses, lookup_host, act, mbind, M_bind.
  destruct (net_lookup _ _ _ _) as [r w]. intros Hr. exists [EvLookup (endpoint_host d) (endpoint_port d) r].
  destruct r as [[answer|e]|]; injection Hr as <- <-; (split; [done|]); eauto.
Qed.

Lemma auto_trace :
  emits (W := W)
    (resolve_direct_addresses config d ≫= fun direct =>
       match direct with
       | Some addresses => connect_direct config d addresses
       | None => establish_upstream_tunnel config fuel d
       end)
    (fun evs o => exists r evs',
       evs = EvLookup (endpoint_host d) (endpoint_port d) r :: evs' /\
       if decide (allowed config r = []) then upstream_trace config d 2 1 evs' o
       else direct_trace (allowed config r) evs' o).
Proof.
  eapply emits_bind; [apply resolve_direct_trace| |by intros ? ? (? & _ & ?)|by intros ? (? & _ & ?)].
  intros e1 a (r & -> & [= ->]). case_bool_decide as Ha.
  - eapply emits_weaken; [apply establish_upstream_tunnel_trace|]. intros evs o' Ho.
    exists r, evs. split; [done|]. by rewrite decide_True.
  - eapply emits_weaken; [apply connect_direct_trace|]. intros evs o' Ho.
    exists r, evs. split; [done|]. by rewrite decide_False.
Qed.

Lemma establish_tunnel_trace :
  emits (W := W) (establish_tunnel config fuel d)
    (fun evs o =>
       match routing config with
       | RoutingProxyOnly => upstream_trace config d 2 1 evs o
       | RoutingAuto => exists r evs',
           evs = EvLookup (endpoint_host d) (endpoint_port d) r :: evs' /\
           if decide (allowed config r = []) then upstream_trace config d 2 1 evs' o
           else direct_trace (allowed config r) evs' o
       end).
Proof.
  unfold establish_tunnel. destruct (routing config); simpl; [apply auto_trace|].
  apply establish_upstream_tunnel_trace.
Qed.
End Route.

(** ** Attempts and what they answer *)

Section Attempts.
Context {W : Type} `{Network W} `{AuthFactory W} `{Httparse} `{Base64}.
Context (config : ProxyConfig) (fuel : nat) (d : Endpoint).

(** One connection attempt at [target], then the option of its socket; a
    failure of either is the outcome, and [next] says what a socket leads to. *)
Definition attempted (target : ConnectTarget) (on_timeout : ProxyError) (s : st W) (o : outcome ProxyError BufferedStream) (s' : st W)
    (next : sock -> list event -> Prop) : Prop :=
  exists r w more, net_connect target (connect_timeout config) (world s) = (r, w) /\
    trace s' = trace s ++ EvConnect target r :: more /\
    match r with
    | Elapsed => more = [] /\ o = Exn on_timeout
    | InTime (Err e) => more = [] /\ o = Exn (Proxy_Io e)
    | InTime (Ok k) => exists rest, more = EvNodelay k :: rest /\
        match fst (net_set_nodelay k w) with
        | Err e => rest = [] /\ o = Exn (Proxy_Io e)
        | Ok _ => next k rest
        end
    end.

Definition directly (l : list SocketAddr) (s : st W) (o : outcome ProxyError BufferedStream) (s' : st W) : Prop :=
  attempted (ToAddrs l) (DirectConnectTimeout d) s o s' (fun k rest => rest = [] /\ o = Val (BufferedStream_new k)).

(** Through the upstream: its socket is sent a request for [d] first. *)
Definition through_upstream (s : st W) (o : outcome ProxyError BufferedStream) (s' : st W) : Prop :=
  attempted (ToHost (endpoint_host (upstream config)) (endpoint_port (upstream config))) ConnectTimeout s o s'
    (fun k rest => exists after, rest = EvWrite k (as_bytes (connect_request_text d None)) :: after).

(** The attempt in front of any program. *)
Lemma attempt_then target on_timeout (m : BufferedStream -> M W ProxyError BufferedStream) s o s' (next : sock -> list event -> Prop) :
  ((tcp_connect target (connect_timeout config) ≫= connected on_timeout) ≫= m) s = (o, s') ->
  (forall k, emits (m (BufferedStream_new k)) (fun rest o' => o' = o -> next k rest)) ->
  attempted target on_timeout s o s' next.
Proof.
  unfold mbind at 1 2, M_bind, tcp_connect, act. destruct (net_connect target _ (world s)) as [r w] eqn:Ec. intros Hrun Hm.
  exists r, w. destruct r as [[k|e]|]; simpl in Hrun.
  - unfold connected, io_try, set_nodelay, mbind, M_bind, lift, act in Hrun. simpl in Hrun.
    destruct (net_set_nodelay k w) as [[[]|e] w1] eqn:En; simpl in Hrun.
    + apply Hm in Hrun as (rest & Ht & Hn). exists (EvNodelay k :: rest). simpl in Ht. split_and!; [done|by rewrite Ht, <-!app_assoc|].
      exists rest. simpl. by split; [|apply Hn].
    + injection Hrun as <- <-. exists [EvNodelay k]. simpl. split_and!; [done|by rewrite <-app_assoc|]. by exists [].
  - injection Hrun as <- <-. by exists [].
  - injection Hrun as <- <-. by exists [].
Qed.

Lemma bind_ret_run {E A} (m : M W E A) s r : m s = r -> (m ≫= fun a => mret a) s = r.
Proof. intros <-. unfold mbind, M_bind. by destruct (m s) as [[] ?]. Qed.

Lemma connect_direct_attempt l s o s' : connect_direct config d l s = (o, s') -> directly l s o s'.
Proof.
  intros Hrun. apply (attempt_then _ _ mret).
  - by apply bind_ret_run.
  - intros k. by apply emits_ret.
Qed.

Lemma establish_upstream_attempt s o s' :
  establish_upstream_tunnel config fuel d s = (o, s') -> through_upstream s o s'.
Proof.
  destruct (establish_upstream_tunnel_split (W := W) config fuel d) as (k & -> & Hk). intros Hrun.
  apply (attempt_then _ _ (fun up => send_connect_request (stream up) d None;; k up)); [done|]. intros c.
  eapply (emits_bind _ _ (fun evs _ => evs = [EvWrite c (as_bytes (connect_request_text d None))])).
  - eapply (emits_bind _ _ (fun evs _ => evs = [EvWrite c _])); [by apply emits_act| |by intros ? ? ->|by intros ? ->].
    intros e1 r ->. apply emits_lift. by destruct r.
  - intros e1 _ ->. eapply emits_weaken; [apply Hk|]. intros evs o' _ _. by exists evs.
  - intros e1 e -> _. by exists [].
  - intros e1 -> _. by exists [].
Qed.
End Attempts.

(** C12: In proxy-only mode a tunnel performs no lookup: it connects to the configured upstream, sends it a request for the destination first, and makes no other connection than to the upstream. In auto mode it looks the destination up once; if the answer has allowed addresses it makes one attempt at exactly those, never contacts the upstream, and yields their socket; otherwise, also when the lookup fails or times out, it goes through the upstream as in proxy-only mode, and fails before the first request only when the connection or its socket option does, with that error. *)
Theorem establish_tunnel_route {W} `{Network W} `{AuthFactory W} `{Httparse} `{Base64} config fuel d (s : st W) :
  let '(o, s') := establish_tunnel config fuel d s in
  let upstream_from s1 := through_upstream config d s1 o s' /\
    exists evs, trace s' = trace s1 ++ evs /\ upstream_trace config d 2 1 evs o in
  match routing config with
  | RoutingProxyOnly => upstream_from s
  | RoutingAuto => exists r w,
      net_lookup (endpoint_host d) (endpoint_port d) (dns_timeout config) (world s) = (r, w) /\
      let s1 := Build_st w (trace s ++ [EvLookup (endpoint_host d) (endpoint_port d) r]) in
      if decide (allowed config r = []) then upstream_from s1 else directly config d (allowed config r) s1 o s'
  end.
Proof.
  destruct (establish_tunnel config fuel d s) as [o s'] eqn:E. cbv zeta.
  assert (forall s1, establish_upstream_tunnel config fuel d s1 = (o, s') -> through_upstream config d s1 o s' /\
    exists evs, trace s' = trace s1 ++ evs /\ upstream_trace config d 2 1 evs o) as Hup.
  { intros s1 Hs. split; [by eapply establish_upstream_attempt|by eapply establish_upstream_tunnel_trace]. }
  unfold establish_tunnel in E. destruct (routing config); simpl in E; [|by apply Hup].
  unfold resolve_direct_addresses, lookup_host, act, mbind, M_bind in E.
  destruct (net_lookup _ _ _ _) as [r w] eqn:El. exists r, w. split; [done|]. unfold allowed.
  destruct r as [[answer|e]|]; simpl in E; [|by apply Hup..].
  case_bool_decide as Ha; [rewrite decide_True by done; by apply Hup|].
  rewrite decide_False by done. by apply connect_direct_attempt.
Qed.
