(* ===== verification/Client.v ===== *)
(** * Client: the handling of one client connection

    [handle_client] of src/server.rs: what it takes to make the proxy contact
    anyone else, and what the client is sent on every branch. *)

From S2P Require Import Prelude RustStr RustNet Config Routing Auth Io Http1 Http1Body Relay Challenge Base64 Server Scenario Handshake Direct.

(** ** What a client sent *)

(** The bytes read from a socket. *)
Definition received (c : sock) (evs : list event) : bytes :=
  mjoin ((fun ev => match ev with
                    | EvRead s (Ok bs) => if decide (s = c) then bs else []
                    | _ => []
                    end) <$> evs).

Definition reads_from (c : sock) (ev : event) : Prop := match ev with EvRead s _ => s = c | _ => False end.

(** Events on the client's own socket. *)
Definition on_client (c : sock) (ev : event) : Prop :=
  match ev with
  | EvRead s _ | EvWrite s _ | EvNodelay s => s = c
  | _ => False
  end.

Lemma received_app c a b : received c (a ++ b) = received c a ++ received c b.
Proof. unfold received. by rewrite fmap_app, join_app. Qed.

Lemma received_read c bs : received c [EvRead c (Ok bs)] = bs.
Proof. unfold received. simpl. rewrite decide_True by done. apply app_nil_r. Qed.

Section Head.
Context {W : Type} `{Network W} `{Httparse}.

Lemma read_some_emits c n :
  emits (W := W) (read_some c n)
    (fun evs o => Forall (reads_from c) evs /\ forall bs, o = Val bs -> received c evs = bs).
Proof.
  eapply (emits_bind _ _ (fun evs o => exists r, evs = [EvRead c r] /\ o = Val r)).
  - apply emits_act. eauto.
  - intros e1 a (r & -> & [= ->]). apply emits_lift.
    destruct r as [bs|e]; simpl; (split; [by repeat constructor|]); [|done].
    intros ? [= <-]. apply received_read.
  - by intros ? ? (? & _ & ?).
  - by intros ? (? & _ & ?).
Qed.

Lemma read_head_bytes_received fuel c max bs0 :
  emits (W := W) (read_head_bytes_loop fuel c max bs0)
    (fun evs o => Forall (reads_from c) evs /\ forall bs, o = Val bs -> bs = bs0 ++ received c evs).
Proof.
  revert bs0. induction fuel as [|fuel IH]; intros bs0; simpl; [by apply emits_no_fuel|].
  destruct (find_header_end bs0).
  { apply emits_ret. split; [done|]. intros ? [= <-]. by rewrite app_nil_r. }
  destruct (_ <=? _); [by apply emits_throw|].
  eapply emits_bind; [apply read_some_emits| |by intros ? ? [? _]|by intros ? [? _]].
  intros e1 chunk [Hr Hc]. case_bool_decide; [by apply emits_throw; rewrite app_nil_r|].
  eapply emits_weaken; [apply IH|]. intros e2 o [Hr2 Ho]. split; [by apply Forall_app|].
  intros bs Hbs. rewrite (Ho bs Hbs), received_app, (Hc chunk eq_refl). by rewrite app_assoc.
Qed.

Lemma read_request_head_received fuel c max :
  emits (W := W) (read_request_head fuel c max)
    (fun evs o => Forall (reads_from c) evs /\
       forall head rest, o = Val (head, rest) -> parse_request_head (received c evs) = Ok (head, rest)).
Proof.
  eapply emits_bind; [apply read_head_bytes_received| |by intros ? ? [? _]|by intros ? [? _]].
  intros e1 bs [Hr Hbs]. rewrite (Hbs bs eq_refl). apply emits_lift. rewrite app_nil_r. simpl.
  destruct (parse_request_head (received c e1)) as [[hd rest]|e]; (split; [done|]); [|done].
  by intros ? ? [= <- <-].
Qed.
End Head.

(** ** The gate *)

(** The client has asked, and only asked, for a tunnel to [d]. *)
Definition connect_asked `{Httparse} (client : sock) (pre : list event) : Prop :=
  Forall (fun ev => is_write ev = false) pre /\
  exists request rest d,
    parse_request_head (received client pre) = Ok (request, rest) /\
    eq_ignore_ascii_case (method request) (lit "CONNECT") = true /\
    Endpoint_from_str (target request) = Ok d.

Section Gate.
Context {W : Type} `{Network W} `{AuthFactory W} `{RelayWorld W} `{Httparse} `{Base64}.
Context (config : ProxyConfig) (fuel : nat) (client : sock).

(** A prefix on the client's socket; anything after it was asked for. *)
Definition gated (evs : list event) : Prop :=
  exists pre post, evs = pre ++ post /\ Forall (on_client client) pre /\
    (post = [] \/ connect_asked client pre).

Lemma gated_client evs : Forall (on_client client) evs -> gated evs.
Proof. exists evs, []. rewrite app_nil_r. auto. Qed.

Lemma io_try_emits {A} (f : W -> result IoError A * W) ev :
  emits (io_try (act f (fun _ => ev))) (fun evs _ => evs = [ev]).
Proof.
  eapply (emits_bind _ _ (fun evs o => evs = [ev])); [by apply emits_act| |done|done].
  intros e1 r ->. apply emits_lift. by destruct r.
Qed.

Lemma send_error_emits s code reason :
  emits (W := W) (send_error s code reason) (fun evs _ => evs = [EvWrite s (as_bytes (error_text code reason))]).
Proof. apply io_try_emits. Qed.


(** Whatever happens, the trace is extended. *)
Abbreviation logs m := (emits m (fun _ _ => True)).

Lemma logs_bind {E A B} (m : M W E A) (k : A -> M W E B) :
  logs m -> (forall a, logs (k a)) -> logs (m ≫= k).
Proof. intros Hm Hk. eapply emits_bind; [exact Hm|..]; [|done|done]. intros e1 a _. apply Hk. Qed.

Lemma logs_io_try {A} (f : W -> result IoError A * W) ev : logs (io_try (act f (fun _ => ev))).
Proof. eapply emits_weaken; [apply io_try_emits|done]. Qed.

Lemma logs_ret {E A} (a : A) : logs (mret (M := M W E) a).
Proof. by apply emits_ret. Qed.
Lemma logs_throw {E A} e : logs (throw (W := W) (E := E) (A := A) e).
Proof. by apply emits_throw. Qed.

Lemma run_relay_logs up : logs (run_relay (W := W) config client up).
Proof.
  apply logs_bind; [by apply emits_act|]. intros [t evs]. destruct (relay_bidirectional _ _ _) as [r|].
  - apply emits_lift. by destruct r.
  - by apply emits_no_fuel.
Qed.
End Gate.

Section Gate.
Context {W : Type} `{Network W} `{AuthFactory W} `{RelayWorld W} `{Httparse} `{Base64}.
Context (config : ProxyConfig) (fuel : nat) (client : sock).

(** The part of [handle_client] after the destination is known. *)
Definition serve_destination (client_prefetched : bytes) (destination : Endpoint) : M W ProxyError unit :=
  tunnel ← try (establish_tunnel config fuel destination);
  match tunnel with
  | Err error => send_error client 502 (lit "Bad Gateway");; throw error
  | Ok tunnel =>
    io_try (write_all client (as_bytes established_text));;
    let '(up, upstream_prefetched) := into_parts tunnel in
    (if bool_decide (client_prefetched = []) then mret tt
     else io_try (write_all up client_prefetched));;
    (if bool_decide (upstream_prefetched = []) then mret tt
     else io_try (write_all client upstream_prefetched));;
    run_relay config client up;;
    mret tt
  end.

Lemma serve_destination_logs early d : emits (serve_destination early d) (fun _ _ => True).
Proof.
  apply logs_bind; [eapply emits_try; [apply establish_tunnel_trace|done|done|done]|].
  intros [up|e]; [|apply logs_bind; [apply logs_io_try|intros; apply logs_throw]].
  apply logs_bind; [apply logs_io_try|]. intros _. simpl.
  apply logs_bind; [case_bool_decide; [apply logs_ret|apply logs_io_try]|]. intros _.
  apply logs_bind; [case_bool_decide; [apply logs_ret|apply logs_io_try]|]. intros _.
  apply logs_bind; [apply run_relay_logs|]. intros _. apply logs_ret.
Qed.

Lemma gated_reply pre s ev {A} (k : unit -> M W ProxyError A) (m : M W ProxyError unit) :
  Forall (on_client client) pre -> ev = EvWrite client s -> emits m (fun evs _ => evs = [ev]) ->
  (forall u, emits (k u) (fun evs _ => evs = [])) ->
  emits (m ≫= k) (fun evs _ => gated client (pre ++ evs)).
Proof.
  intros Hp -> Hm Hk.
  assert (gated client (pre ++ [EvWrite client s])) as Hg.
  { apply gated_client, Forall_app. split; [done|]. by repeat constructor. }
  eapply emits_bind; [exact Hm| |by intros ? ? ->|by intros ? ->]. intros e1 u ->.
  eapply emits_weaken; [apply Hk|]. intros evs o ->. by rewrite app_nil_r.
Qed.

Lemma asked_prefix e1 :
  Forall (reads_from client) e1 ->
  Forall (on_client client) ([EvNodelay client] ++ e1) /\
  Forall (fun ev => is_write ev = false) ([EvNodelay client] ++ e1) /\
  received client ([EvNodelay client] ++ e1) = received client e1.
Proof.
  intros Hr. split_and!; [| |done]; (constructor; [done|]); (eapply Forall_impl; [exact Hr|]); by intros [].
Qed.

(** What the request decides, after the client's socket was set up and its
    head read. *)
Lemma request_gated request early e1 :
  Forall (reads_from client) e1 -> parse_request_head (received client e1) = Ok (request, early) ->
  emits (W := W)
    (if negb (eq_ignore_ascii_case (method request) (lit "CONNECT"))
     then send_error client 405 (lit "CONNECT Required")
     else
       match Endpoint_from_str (target request) with
       | Err error =>
         send_error client 400 (lit "Invalid CONNECT Target");;
         throw (InvalidDestination (EndpointParseError_fmt error))
       | Ok destination => serve_destination early destination
       end)
    (fun evs _ => gated client (([EvNodelay client] ++ e1) ++ evs)).
Proof.
  intros Hr Hp. destruct (asked_prefix e1 Hr) as (Hpre & Hw & Hrec).
  destruct (negb _) eqn:Em.
  { eapply emits_weaken; [apply send_error_emits|]. intros evs o ->. apply gated_client, Forall_app.
    split; [done|]. by repeat constructor. }
  destruct (Endpoint_from_str (target request)) as [d|e] eqn:Ed.
  - eapply emits_weaken; [apply serve_destination_logs|]. intros evs o _.
    eexists _, evs. split_and!; [done|done|]. right. split; [done|].
    exists request, early, d. rewrite Hrec. split_and!; [done|by destr_bool|done].
  - eapply gated_reply; [done|done|apply send_error_emits|]. intros; by apply emits_throw.
Qed.

Lemma handle_client_gated : emits (W := W) (handle_client config fuel client) (fun evs _ => gated client evs).
Proof.
  eapply emits_bind; [apply io_try_emits| |by intros ? ? ->; apply gated_client; repeat constructor|
    by intros ? ->; apply gated_client; repeat constructor].
  intros e0 _ ->.
  eapply emits_bind.
  { eapply (emits_try _ _ (fun evs o => Forall (reads_from client) evs /\ forall head rest,
      o = Val (Ok (head, rest)) -> parse_request_head (received client evs) = Ok (head, rest)));
      [apply read_request_head_received|..].
    - intros evs [hd rest] [Hr Hv]. split; [done|]. intros ? ? [= <- <-]. by apply Hv.
    - by intros evs e [Hr _].
    - by intros evs [Hr _]. }
  2: intros e1 e [Hr _]; by apply gated_client, asked_prefix.
  2: intros e1 [Hr _]; by apply gated_client, asked_prefix.
  intros e1 r [Hr Hv]. eapply emits_weaken; [|intros evs o Hg; rewrite app_assoc; exact Hg].
  destruct r as [[request early]|e].
  - apply request_gated; [done|]. by apply Hv.
  - eapply gated_reply; [by apply asked_prefix|done|apply send_error_emits|]. intros; by apply emits_throw.
Qed.
End Gate.

(** C7: Whatever a client sends, the proxy touches only that client's socket until the bytes received from it parse as a head with method CONNECT and an accepted destination: no lookup, connection or provider call happens for any other request, and nothing is sent to the client before. *)
Theorem handle_client_gate {W} `{Network W} `{AuthFactory W} `{RelayWorld W} `{Httparse} `{Base64} config fuel client (s : st W) :
  let '(_, s') := handle_client config fuel client s in
  exists pre post, trace s' = trace s ++ pre ++ post /\ Forall (on_client client) pre /\
    (post = [] \/ connect_asked client pre).
Proof.
  destruct (handle_client config fuel client s) as [o s'] eqn:E.
  apply handle_client_gated in E as (evs & Ht & pre & post & -> & Hp). by exists pre, post.
Qed.

(** ** The replies *)

Definition reply (client : sock) (code : Z) (reason : string) : list event :=
  [EvWrite client (as_bytes (error_text code (lit reason)))].

(** Data that was read ahead is passed on, if there is any. *)
Definition pass_on (s : sock) (data : bytes) : list event :=
  if bool_decide (data = []) then [] else [EvWrite s data].

Section Replies.
Context {W : Type} `{Network W} `{AuthFactory W} `{RelayWorld W} `{Httparse} `{Base64} `{!ReliableWrites W}.
Context (config : ProxyConfig) (fuel : nat) (client : sock).

(** The state after a sequence of own actions. *)
Definition extends (s s' : st W) (evs : list event) : Prop := trace s' = trace s ++ evs.

Lemma io_try_write_ok s data (s0 : st W) :
  exists s1, io_try (write_all s data) s0 = (Val tt, s1) /\ extends s0 s1 [EvWrite s data].
Proof.
  unfold io_try, write_all, act, mbind, M_bind. destruct (write_all_ok s data (world s0)) as [w' ->].
  by eexists.
Qed.

Lemma send_error_ok code reason (s0 : st W) :
  exists s1, send_error client code (lit reason) s0 = (Val tt, s1) /\ extends s0 s1 (reply client code reason).
Proof. apply io_try_write_ok. Qed.

Lemma pass_on_ok s data (s0 : st W) :
  exists s1, (if bool_decide (data = []) then mret tt else io_try (write_all s data)) s0 = (Val tt, s1) /\
    extends s0 s1 (pass_on s data).
Proof.
  unfold pass_on. case_bool_decide; [|apply io_try_write_ok]. exists s0. split; [done|].
  unfold extends. by rewrite app_nil_r.
Qed.

Lemma bind_run {E A B} (m : M W E A) (k : A -> M W E B) s a s1 : m s = (Val a, s1) -> (m ≫= k) s = k a s1.
Proof. unfold mbind, M_bind. by intros ->. Qed.

Lemma try_run {E F A} (m : M W E A) s :
  try (F := F) m s =
    match m s with
    | (Val a, s') => (Val (Ok a), s')
    | (Exn e, s') => (Val (Err e), s')
    | (NoFuel, s') => (NoFuel, s')
    end.
Proof. reflexivity. Qed.

Lemma relay_trace up (s0 : st W) o s1 :
  (run_relay config client up;; mret tt) s0 = (o, s1) -> extends s0 s1 [EvRelay client up].
Proof.
  unfold run_relay, act, mbind, M_bind. destruct (relay_schedule client up (world s0)) as [[t evs] w'].
  destruct (relay_bidirectional _ _ _) as [[|]|]; simpl; by intros [= <- <-].
Qed.

(** The tunnel's first bytes, then the relay. *)
Lemma serve_destination_run early d (s : st W) :
  let '(o, s') := serve_destination config fuel client early d s in
  let '(t, s1) := establish_tunnel config fuel d s in
  match t with
  | NoFuel => o = NoFuel
  | Exn e => o = Exn e /\ extends s1 s' (reply client 502 "Bad Gateway")
  | Val up => extends s1 s'
      ([EvWrite client (as_bytes established_text)] ++ pass_on (stream up) early ++
       pass_on client (buffer up) ++ [EvRelay client (stream up)])
  end.
Proof.
  destruct (serve_destination config fuel client early d s) as [o s'] eqn:E. unfold serve_destination in E.
  destruct (establish_tunnel config fuel d s) as [[up|e|] s1] eqn:Et.
  - erewrite bind_run in E by (rewrite try_run, Et; reflexivity). cbv beta iota in E.
    destruct (io_try_write_ok client (as_bytes established_text) s1) as (s2 & Hs2 & T2).
    erewrite bind_run in E by exact Hs2. cbn [into_parts] in E.
    destruct (pass_on_ok (stream up) early s2) as (s3 & Hs3 & T3). erewrite bind_run in E by exact Hs3.
    destruct (pass_on_ok client (buffer up) s3) as (s4 & Hs4 & T4). erewrite bind_run in E by exact Hs4.
    apply relay_trace in E. unfold extends in *. rewrite E, T4, T3, T2. by rewrite !app_assoc.
  - erewrite bind_run in E by (rewrite try_run, Et; reflexivity). cbv beta iota in E.
    destruct (send_error_ok 502 "Bad Gateway" s1) as (s2 & Hs2 & T2).
    erewrite bind_run in E by exact Hs2. by injection E as <- <-.
  - unfold mbind, M_bind in E. rewrite try_run, Et in E. by injection E as <- <-.
Qed.

(** The state in which the request head is read. *)
Definition after_nodelay (s : st W) : st W :=
  Build_st (snd (net_set_nodelay client (world s))) (trace s ++ [EvNodelay client]).

Lemma nodelay_run (s : st W) : io_try (set_nodelay client) s = (Val tt, after_nodelay s).
Proof.
  unfold io_try, set_nodelay, act, after_nodelay, mbind, M_bind. by destruct (set_nodelay_ok client (world s)) as [w' ->].
Qed.
End Replies.

(** C8: When writes succeed, every request gets its answer: an unreadable head 400, another method 405, a malformed destination 400, a failed tunnel 502, each as the only thing written after the request was read; and a tunnel is announced with 200, then the client's early bytes go upstream and the upstream's early bytes to the client, once each and unchanged, before the relay starts. *)
Theorem handle_client_replies {W} `{Network W} `{AuthFactory W} `{RelayWorld W} `{Httparse} `{Base64} `{!ReliableWrites W}
    config fuel client (s : st W) :
  let '(o, s') := handle_client config fuel client s in
  let '(request, s1) := read_request_head fuel client (max_header_bytes config) (after_nodelay client s) in
  match request with
  | NoFuel => o = NoFuel
  | Exn e => o = Exn (Proxy_Http e) /\ extends s1 s' (reply client 400 "Bad Request")
  | Val (request, early) =>
    if negb (eq_ignore_ascii_case (method request) (lit "CONNECT"))
    then o = Val tt /\ extends s1 s' (reply client 405 "CONNECT Required")
    else
      match Endpoint_from_str (target request) with
      | Err e => o = Exn (InvalidDestination (EndpointParseError_fmt e)) /\
          extends s1 s' (reply client 400 "Invalid CONNECT Target")
      | Ok d =>
        let '(tunnel, s2) := establish_tunnel config fuel d s1 in
        match tunnel with
        | NoFuel => o = NoFuel
        | Exn e => o = Exn e /\ extends s2 s' (reply client 502 "Bad Gateway")
        | Val up => extends s2 s'
            ([EvWrite client (as_bytes established_text)] ++ pass_on (stream up) early ++
             pass_on client (buffer up) ++ [EvRelay client (stream up)])
        end
      end
  end.
Proof.
  destruct (handle_client config fuel client s) as [o s'] eqn:E. unfold handle_client in E.
  erewrite bind_run in E by apply nodelay_run.
  destruct (read_request_head _ _ _ _) as [[[request early]|e|] s1] eqn:Er.
  - erewrite bind_run in E by (rewrite try_run, Er; reflexivity). cbv beta iota in E.
    destruct (negb _).
    { destruct (send_error_ok client 405 "CONNECT Required" s1) as (s2 & Hs2 & T2). rewrite Hs2 in E.
      by injection E as <- <-. }
    destruct (Endpoint_from_str (target request)) as [d|e].
    + pose proof (serve_destination_run config fuel client early d s1) as Hd.
      unfold serve_destination in Hd. by rewrite E in Hd.
    + destruct (send_error_ok client 400 "Invalid CONNECT Target" s1) as (s2 & Hs2 & T2).
      erewrite bind_run in E by exact Hs2. by injection E as <- <-.
  - erewrite bind_run in E by (rewrite try_run, Er; reflexivity). cbv beta iota in E.
    destruct (send_error_ok client 400 "Bad Request" s1) as (s2 & Hs2 & T2).
    erewrite bind_run in E by exact Hs2. by injection E as <- <-.
  - unfold mbind, M_bind in E. rewrite try_run, Er in E. by injection E as <- <-.
Qed.

Lemma handle_client_replies_witness :
  exists o s', handle_client (small_config AuthNone RoutingProxyOnly) fuel0 0 ntlm_world = (o, s') /\
    o = Exn AuthenticationRequired /\ exists evs, trace s' = evs ++ reply 0 502 "Bad Gateway".
Proof.
  pose proof (handle_client_replies (small_config AuthNone RoutingProxyOnly) fuel0 0 ntlm_world) as Hr.
  destruct (handle_client (small_config AuthNone RoutingProxyOnly) fuel0 0 ntlm_world) as [o s'] eqn:E.
  exists o, s'. split; [reflexivity|].
  vm_compute (read_request_head _ _ _ _) in Hr. cbv iota beta in Hr.
  vm_compute (negb _) in Hr. vm_compute (Endpoint_from_str _) in Hr.
  cbv iota beta in Hr.
  vm_compute (establish_tunnel _ _ _ _) in Hr. cbv iota beta in Hr.
  destruct Hr as [Ho Ht]. split; [exact Ho|]. eexists. exact Ht.
Defined.
