(* ===== verification/Grant.v ===== *)
(** * Grant: which response hands out a tunnel

    [establish_upstream_tunnel] of src/server.rs returns a stream after a
    response it took for a success.  Here that response is read off the log:
    the bytes received on the socket of the tunnel, the last request written
    to it, and what the code left in the buffer. *)

From S2P Require Import Prelude RustStr RustNet Config Routing Auth Io Http1 Http1Body Relay Challenge Base64 Server Scenario Handshake Direct Client.

(** ** Buffers and the log *)

Section Skips.
Context {W E : Type} `{Network W}.

(** What [m] leaves in the buffer is what it was given and read, without a
    prefix. *)
Definition left_over (up up' : BufferedStream) (evs : list event) : Prop :=
  stream up' = stream up /\
  exists skipped, buffer up ++ received (stream up) evs = skipped ++ buffer up'.

Definition skips {A} (up : BufferedStream) (out : A -> BufferedStream) (m : M W E A) : Prop :=
  emits m (fun evs o => forall x, o = Val x -> left_over up (out x) evs).

Lemma left_over_refl up : left_over up up [].
Proof. split; [done|]. exists []. apply app_nil_r. Qed.

Lemma left_over_trans up up1 up2 e1 e2 :
  left_over up up1 e1 -> left_over up1 up2 e2 -> left_over up up2 (e1 ++ e2).
Proof.
  intros [Hs (k1 & H1)] [Hs2 (k2 & H2)]. split; [congruence|]. rewrite <-Hs, received_app, app_assoc, Hs, H1.
  exists (k1 ++ k2). rewrite Hs in H2. by rewrite <-!app_assoc, H2.
Qed.

Lemma skips_bind {A B} up (out : A -> BufferedStream) (out' : B -> BufferedStream) (m : M W E A) (k : A -> M W E B) :
  skips up out m -> (forall x, skips (out x) out' (k x)) -> skips up out' (m ≫= k).
Proof.
  intros Hm Hk. eapply emits_bind; [exact Hm| |done|done]. intros e1 x Hx. eapply emits_weaken; [apply Hk|].
  intros e2 o Ho y Hy. eapply left_over_trans; eauto.
Qed.

Lemma skips_ret {A} up (out : A -> BufferedStream) x n :
  stream (out x) = stream up -> buffer (out x) = drop n (buffer up) -> skips up out (mret x).
Proof.
  intros Hs Hb. apply emits_ret. intros ? [= <-]. split; [done|]. exists (take n (buffer up)).
  rewrite app_nil_r, Hb. by rewrite take_drop.
Qed.

Lemma skips_throw {A} up (out : A -> BufferedStream) e : skips up out (throw e).
Proof. by apply emits_throw. Qed.
Lemma skips_no_fuel {A} up (out : A -> BufferedStream) : skips up out no_fuel.
Proof. by apply emits_no_fuel. Qed.

Lemma skips_lift {A B} up (out : B -> BufferedStream) (r : result E A) (k : A -> M W E B) :
  (forall x, r = Ok x -> skips up out (k x)) -> skips up out (lift r ≫= k).
Proof.
  intros Hk. eapply (emits_bind _ _ (fun evs o => evs = [] /\ forall x, o = Val x -> r = Ok x)); [|..|done|done].
  - apply emits_lift. by destruct r; split; [|intros ? [= <-]|..].
  - intros e1 x [-> Hx]. apply Hk, Hx, eq_refl.
Qed.
End Skips.

Section Reading.
Context {W : Type} `{Network W} `{Httparse}.

(** Read a chunk into the buffer and go on. *)
Lemma skips_read {A} up n (out : A -> BufferedStream) (k : bytes -> M W HttpError A) :
  (forall c, skips {| stream := stream up; buffer := buffer up ++ c |} out (k c)) ->
  skips up out (read_some (stream up) n ≫= k).
Proof.
  intros Hk. eapply emits_bind; [apply read_some_emits| |done|done]. intros e1 c [_ Hc].
  eapply emits_weaken; [apply Hk|]. intros e2 o Ho x Hx.
  eapply (left_over_trans _ {| stream := stream up; buffer := buffer up ++ c |}); [|by apply Ho].
  split; [done|]. exists []. by rewrite (Hc c eq_refl).
Qed.

Lemma read_line_skips fuel up max : skips (W := W) up snd (read_line fuel up max).
Proof.
  revert up. induction fuel as [|fuel IH]; intros up; simpl; [apply skips_no_fuel|].
  destruct (find_crlf (buffer up)); [by eapply skips_ret|]. destruct (_ <=? _); [apply skips_throw|].
  apply skips_read. intros c. case_bool_decide; [apply skips_throw|]. apply IH.
Qed.

(** A loop that drops what it reads, entered with an empty buffer or not at all. *)
Lemma discard_exact_skips fuel up n : skips (W := W) up id (discard_exact fuel up n).
Proof.
  unfold discard_exact. destruct (decide (n <= len (buffer up))) as [Hn|Hn].
  - replace (n - Z.min n (len (buffer up))) with 0 by lia.
    destruct fuel; [by apply emits_no_fuel|]. by eapply skips_ret.
  - eapply (emits_bind _ _ (fun _ _ => True)); [eapply emits_weaken; [apply discard_loop_exchanges|done]| |done|done].
    intros e1 [] _. apply emits_ret. intros ? [= <-]. split; [done|]. simpl.
    rewrite drop_ge by (unfold len in *; lia). eexists. symmetry. apply app_nil_r.
Qed.

Lemma drain_trailers_skips fuel lines up : skips (W := W) up id (drain_trailers fuel lines up).
Proof.
  revert up. induction lines as [|lines IH]; intros up; simpl; [apply skips_no_fuel|].
  eapply skips_bind; [apply read_line_skips|]. intros [line up1]. simpl.
  case_bool_decide; [by apply (skips_ret _ _ _ 0)|apply IH].
Qed.

Lemma drain_chunked_skips fuel chunks up : skips (W := W) up id (drain_chunked_loop fuel chunks up).
Proof.
  revert up. induction chunks as [|chunks IH]; intros up; simpl; [apply skips_no_fuel|].
  eapply skips_bind; [apply read_line_skips|]. intros [line up1]. simpl. apply skips_lift. intros size _.
  destruct (size =? 0); [apply drain_trailers_skips|].
  eapply skips_bind; [apply discard_exact_skips|]. intros up2. simpl.
  eapply skips_bind; [apply read_line_skips|]. intros [terminator up3]. simpl.
  case_bool_decide; [apply IH|apply skips_throw].
Qed.

Lemma drain_body_skips fuel up response : skips (W := W) up id (drain_response_body fuel up response).
Proof.
  unfold drain_response_body. destruct (is_chunked response); [apply drain_chunked_skips|].
  apply skips_lift. intros [n|] _; [apply discard_exact_skips|by apply (skips_ret _ _ _ 0)].
Qed.

(** ** The head of a response *)

(** A head at the front of what was buffered and read. *)
Definition answered (up : BufferedStream) (evs : list event) (response : ResponseHead) (up' : BufferedStream) : Prop :=
  stream up' = stream up /\ Forall (reads_from (stream up)) evs /\
  exists head, buffer up ++ received (stream up) evs = head ++ buffer up' /\
    find_header_end (head ++ buffer up') = Some (len head) /\ parse_response_head head = Ok response.

Lemma read_response_head_answered fuel up max :
  emits (W := W) (read_response_head fuel up max)
    (fun evs o => forall response up', o = Val (response, up') -> answered up evs response up').
Proof.
  revert up. induction fuel as [|fuel IH]; intros up; simpl; [by apply emits_no_fuel|].
  destruct (find_header_end (buffer up)) as [e|] eqn:Ee.
  - eapply (emits_bind _ _ (fun evs o => evs = [] /\ forall r, o = Val r -> parse_response_head (take (Z.to_nat e) (buffer up)) = Ok r));
      [|intros e1 r [-> Hr]|done|done].
    + apply emits_lift. destruct (parse_response_head _); (split; [done|]); by intros ? [= <-].
    + apply emits_ret. intros ? ? [= <- <-]. split_and!; [done|done|]. exists (take (Z.to_nat e) (buffer up)). simpl.
      rewrite app_nil_r, take_drop. pose proof (find_header_end_bound _ _ Ee). rewrite len_take by lia. auto.
  - destruct (_ <=? _); [by apply emits_throw|].
    eapply emits_bind; [apply read_some_emits| |done|done]. intros e1 c [Hr Hc].
    case_bool_decide; [by apply emits_throw|]. eapply emits_weaken; [apply IH|]. intros e2 o Ho response up' Hv.
    destruct (Ho response up' Hv) as (Hs & Hf & head & Hb & Hrest). split_and!; [done|by apply Forall_app|].
    exists head. split; [|done]. simpl in Hb. by rewrite received_app, (Hc c eq_refl), app_assoc.
Qed.
End Reading.

(** ** The grant *)

Section Grant.
Context {W : Type} `{Network W} `{AuthFactory W} `{Httparse} `{Base64}.
Context (config : ProxyConfig) (fuel : nat) (d : Endpoint).

(** The buffer holds the last bytes received on its socket. *)
Definition kept (prior : list event) (up : BufferedStream) : Prop :=
  exists pre, received (stream up) prior = pre ++ buffer up.

(** A request for [d], then only reads on its socket; the unused bytes and
    these reads are one 2xx head and what is left in the buffer. *)
Definition granted (evs : list event) (up : BufferedStream) : Prop :=
  exists before authorization reads pre unused head response,
    evs = before ++ EvWrite (stream up) (as_bytes (connect_request_text d authorization)) :: reads /\
    Forall (reads_from (stream up)) reads /\
    received (stream up) before = pre ++ unused /\
    unused ++ received (stream up) reads = head ++ buffer up /\
    find_header_end (head ++ buffer up) = Some (len head) /\
    parse_response_head head = Ok response /\ 200 <= status response < 300.

(** The events of [m] after any log with which the buffer agrees. *)
Definition grants (up : BufferedStream) (m : M W ProxyError BufferedStream) : Prop :=
  emits m (fun evs o => forall prior up', kept prior up -> o = Val up' -> granted (prior ++ evs) up').

Lemma kept_left_over prior up up' evs : kept prior up -> left_over up up' evs -> kept (prior ++ evs) up'.
Proof.
  intros (pre & Hp) [Hs (k & Hk)]. exists (pre ++ k). by rewrite Hs, received_app, Hp, <-!app_assoc, Hk.
Qed.

Lemma connect_success_range r : is_connect_success r = true -> 200 <= status r < 300.
Proof. unfold is_connect_success. intros ?. destr_bool. lia. Qed.

Lemma grants_throw up e : grants up (throw e).
Proof. by apply emits_throw. Qed.

(** A part whose events are no reads. *)
Lemma grants_quiet {A} up (m : M W ProxyError A) (k : A -> M W ProxyError BufferedStream) :
  emits m (fun evs _ => forall c, received c evs = []) -> (forall x, grants up (k x)) -> grants up (m ≫= k).
Proof.
  intros Hm Hk. eapply emits_bind; [exact Hm| |done|done]. intros e1 x He. eapply emits_weaken; [apply Hk|].
  intros e2 o Ho prior up' Hp Hv. rewrite app_assoc. apply Ho; [|done].
  destruct Hp as (pre & Hp). exists pre. by rewrite received_app, He, app_nil_r.
Qed.

Lemma lift_unread {A} (r : result ProxyError A) : emits (W := W) (lift r) (fun evs _ => forall c, received c evs = []).
Proof. apply emits_lift. by destruct r. Qed.

Lemma grants_lift {A} up (r : result ProxyError A) (k : A -> M W ProxyError BufferedStream) :
  (forall x, grants up (k x)) -> grants up (lift r ≫= k).
Proof. apply grants_quiet, lift_unread. Qed.

Lemma grants_act {A} up (f : W -> A * W) ev (k : A -> M W ProxyError BufferedStream) :
  (forall x c, received c [ev x] = []) -> (forall x, grants up (k x)) -> grants up (act f ev ≫= k).
Proof. intros He. apply grants_quiet, emits_act. auto. Qed.

(** A new connection starts with an empty buffer. *)
Lemma connect_upstream_fresh :
  emits (W := W) (connect_upstream config) (fun evs o => forall up, o = Val up -> buffer up = []).
Proof.
  eapply (emits_bind _ _ (fun _ _ => True)); [by apply emits_act| |done|done]. intros e1 [r|] _; [|by apply emits_throw].
  eapply (emits_bind _ _ (fun _ _ => True)); [apply emits_lift; by destruct r| |done|done]. intros e2 s _.
  eapply (emits_bind _ _ (fun _ _ => True)); [eapply emits_weaken; [apply io_try_emits|done]| |done|done].
  intros e3 _ _. apply emits_ret. by intros ? [= <-].
Qed.

Lemma grants_connect up (k : BufferedStream -> M W ProxyError BufferedStream) :
  (forall up1, grants up1 (k up1)) -> grants up (connect_upstream config ≫= k).
Proof.
  intros Hk. eapply emits_bind; [apply connect_upstream_fresh| |done|done]. intros e1 up1 Hb.
  eapply emits_weaken; [apply Hk|]. intros e2 o Ho prior up' _ Hv. rewrite app_assoc. apply Ho; [|done].
  exists (received (stream up1) (prior ++ e1)). by rewrite (Hb up1 eq_refl), app_nil_r.
Qed.

(** Send a request, read the response, and decide on it. *)
Lemma grants_request up authorization (k : ResponseHead * BufferedStream -> M W ProxyError BufferedStream) :
  (forall response up1, grants up1 (k (response, up1)) \/ is_connect_success response = true /\ k (response, up1) = mret up1) ->
  grants up (send_connect_request (stream up) d authorization;; next_response config fuel up ≫= k).
Proof.
  intros Hk. eapply emits_bind; [apply io_try_emits| |done|done]. intros e1 _ ->.
  eapply emits_bind; [eapply (emits_mapE _ _ _ (fun evs o => forall response up', o = Val (response, up') -> answered up evs response up'));
      [apply read_response_head_answered| |done|done]; intros e a Ha ? ? [= ->]; by apply Ha| |done|done].
  intros e2 [response up1] Ha. destruct (Ha response up1 eq_refl) as (Hs & Hf & head & Hb & He & Hp).
  destruct (Hk response up1) as [Hg|[Hok ->]].
  - eapply emits_weaken; [exact Hg|]. intros e3 o Ho prior up' (pre & Hpre) Hv. rewrite !app_assoc. apply Ho; [|done].
    exists (pre ++ head). rewrite Hs, !received_app, Hpre. simpl. by rewrite <-!app_assoc, <-Hb, app_nil_l.
  - apply emits_ret. intros prior up' (pre & Hpre) [= <-].
    exists prior, authorization, e2, pre, (buffer up), head, response. rewrite Hs, app_nil_r.
    split_and!; [done|done|done|done|done|done|by apply connect_success_range..].
Qed.

Lemma auth_rounds_grants rounds scheme ctx up response challenge drain :
  grants up (auth_rounds config fuel rounds d scheme ctx up response challenge drain).
Proof.
  revert ctx up response challenge drain. induction rounds as [|rounds IH]; intros; [apply grants_throw|]. cbn [auth_rounds].
  assert (skips (W := W) up id (if drain then
      if connection_close response then throw ConnectionClosedDuringAuth else mapE Proxy_Http (drain_response_body fuel up response)
      else mret up)) as Hd.
  { destruct drain; [|by apply (skips_ret _ _ _ 0)]. destruct (connection_close response); [apply skips_throw|].
    eapply emits_mapE; [apply drain_body_skips| |done|done]. intros e a Ha ? [= <-]. by apply Ha. }
  eapply emits_bind; [exact Hd| |done|done]. intros e1 up1 Hl. specialize (Hl up1 eq_refl). simpl in Hl.
  enough (grants up1 ('(tok, context) ← auth_step ctx challenge;
      tok ← lift (map_err Authentication tok);
      send_connect_request (stream up1) d (Some (header_name scheme ++ lit " " ++ b64_encode tok));;
      '(response, up) ← next_response config fuel up1;
      if is_connect_success response then mret up
      else if negb (status response =? 407) then throw (UpstreamStatus (status response))
      else
        found ← lift (ok_or AuthenticationSchemeMissing (find_challenge response scheme));
        challenge ← lift (decode_challenge found);
        auth_rounds config fuel rounds d scheme context up response challenge true)) as Hg.
  { eapply emits_weaken; [exact Hg|]. intros e2 o Ho prior up' Hp Hv. rewrite app_assoc. apply Ho; [|done]. by eapply kept_left_over. }
  apply grants_act; [done|]. intros [tok ctx1]. apply grants_lift. intros tok'. apply grants_request.
  intros response1 up2. destruct (is_connect_success response1) eqn:Es; [by right|]. left.
  destruct (negb _); [apply grants_throw|]. apply grants_lift. intros found. apply grants_lift. intros ch. apply IH.
Qed.

Lemma establish_upstream_grants up : grants up (establish_upstream_tunnel config fuel d).
Proof.
  apply grants_connect. intros up1. apply grants_request. intros response up2.
  destruct (is_connect_success response) eqn:Es; [by right|]. left.
  destruct (negb _); [apply grants_throw|]. destruct (decide _); [apply grants_throw|].
  apply grants_lift. intros [scheme first]. apply grants_act; [done|]. intros created. apply grants_lift. intros ctx.
  apply grants_lift. intros challenge. destruct (connection_close response); [|apply auth_rounds_grants].
  destruct challenge; [apply grants_throw|]. apply grants_connect. intros up3. apply auth_rounds_grants.
Qed.
End Grant.

(** ** Properties *)

(** C6: A tunnel through the upstream proxy is handed out only after a 2xx response to a request for the destination.  The log of the run ends with a CONNECT request for it on the tunnel's socket and reads of that socket; the bytes received there and not used before, up to the first blank line, parse to a response with a 2xx status, and what follows them is exactly what is handed on to the client, so no other response comes after it. *)
Theorem tunnel_only_after_2xx {W} `{Network W} `{AuthFactory W} `{Httparse} `{Base64} config fuel d (s : st W) up s' :
  establish_upstream_tunnel config fuel d s = (Val up, s') ->
  exists evs, trace s' = trace s ++ evs /\ granted d evs up.
Proof.
  intros Hrun. destruct (establish_upstream_grants config fuel d (BufferedStream_new 0) _ _ _ Hrun) as (evs & Ht & Hg).
  exists evs. split; [done|]. apply (Hg [] up); [by exists []|done].
Qed.

(** The NTLM exchange of [Scenario]: the second token is answered with 200. *)
Lemma tunnel_only_after_2xx_witness :
  exists up s' before authorization reads head response,
    establish_upstream_tunnel (small_config AuthNtlm RoutingProxyOnly) fuel0 service ntlm_world = (Val up, s') /\
    trace s' = before ++ EvWrite (stream up) (as_bytes (connect_request_text service authorization)) :: reads /\
    parse_response_head head = Ok response /\ 200 <= status response < 300.
Proof.
  destruct (establish_upstream_tunnel (small_config AuthNtlm RoutingProxyOnly) fuel0 service ntlm_world) as [o s'] eqn:E.
  pose proof (f_equal fst E) as Eo. vm_compute in Eo. cbn [fst] in Eo. subst o.
  destruct (tunnel_only_after_2xx (small_config AuthNtlm RoutingProxyOnly) fuel0 service ntlm_world _ s' E)
    as (evs & Ht & before & a & reads & pre & unused & head & response & He & _ & _ & _ & _ & Hp & Hs).
  eexists _, s', before, a, reads, head, response. split; [reflexivity|].
  split; [exact (eq_trans Ht He)|]. split; [exact Hp|exact Hs].
Defined.
