(* ===== verification/Finite.v ===== *)
(** * Finite: establishing a tunnel always returns

    The reading loops of src/http1.rs and the exchange of src/server.rs end
    whenever the world delivers finitely many bytes: every iteration that
    does not end a loop consumes input.  The peers may send anything, errors
    included; only the total number of bytes still to come is bounded.  Fuel
    beyond that number is enough, so running out of it is never the outcome. *)

From S2P Require Import Prelude RustStr RustNet Config Routing Auth Io Http1 Http1Body Relay Challenge Base64 Server Scenario Handshake Client.

Local Open Scope nat_scope.

(** ** Finite worlds *)

Definition chunk_of (r : result IoError bytes) : bytes := match r with Ok c => c | Err _ => [] end.

(** [budget w] bounds the bytes that all sockets will still deliver. *)
Class FiniteWorld (W : Type) `{Network W} `{AuthFactory W} := {
  budget : W -> nat;
  budget_read s n w r w' : net_read s n w = (r, w') -> length (chunk_of r) + budget w' <= budget w;
  budget_write s data w r w' : net_write_all s data w = (r, w') -> budget w' <= budget w;
  budget_nodelay s w r w' : net_set_nodelay s w = (r, w') -> budget w' <= budget w;
  budget_connect t l w r w' : net_connect t l w = (r, w') -> budget w' <= budget w;
  budget_lookup h p l w r w' : net_lookup h p l w = (r, w') -> budget w' <= budget w;
  budget_create scheme name w r w' : create scheme name w = (r, w') -> budget w' <= budget w;
  budget_step ctx ch w r w' : step ctx ch w = (r, w') -> budget w' <= budget w;
}.

Section Returns.
Context {W : Type} `{Network W} `{AuthFactory W} `{!FiniteWorld W}.

Abbreviation left s := (budget (world s)).

(** [returns lim held m size]: with [held] bytes in buffers and fewer than
    [lim] bytes held or still to come, [m] does not run out of fuel, and the
    bytes it holds afterwards come out of the same total. *)
Definition returns {E A} (lim held : nat) (m : M W E A) (size : A -> nat) : Prop :=
  forall s, held + left s < lim ->
    match m s with
    | (Val a, s') => size a + left s' <= held + left s
    | (Exn _, s') => left s' <= held + left s
    | (NoFuel, _) => False
    end.

(** The same for a loop whose fuel is only compared with the bytes to come. *)
Definition spends {E A} (lim held : nat) (m : M W E A) (size : A -> nat) : Prop :=
  forall s, left s < lim ->
    match m s with
    | (Val a, s') => size a + left s' <= held + left s
    | (Exn _, s') => left s' <= held + left s
    | (NoFuel, _) => False
    end.

Section Rules.
Context {E : Type} (lim : nat).

Lemma spends_returns {A} held (m : M W E A) size : spends lim held m size -> returns lim held m size.
Proof. intros Hm s Hs. apply Hm. lia. Qed.

Lemma returns_weaken {A} held held' (m : M W E A) size size' :
  returns lim held m size -> held <= held' -> (forall a, size' a <= size a) -> returns lim held' m size'.
Proof.
  intros Hm Hh Hsz s Hs. specialize (Hm s). destruct (m s) as [[a|e|] s']; [|lia|apply Hm; lia].
  specialize (Hsz a). lia.
Qed.

Lemma returns_bind {A B} held (m : M W E A) (k : A -> M W E B) size size' :
  returns lim held m size -> (forall a, returns lim (size a) (k a) size') -> returns lim held (m ≫= k) size'.
Proof.
  intros Hm Hk s Hs. specialize (Hm s Hs). unfold mbind, M_bind. destruct (m s) as [[a|e|] s1]; [|done|done].
  specialize (Hk a s1 ltac:(lia)). destruct (k a s1) as [[b|e|] s2]; [lia|lia|done].
Qed.

Lemma returns_ret {A} held (a : A) size : size a <= held -> returns lim held (mret (M := M W E) a) size.
Proof. intros Ha s Hs. simpl. lia. Qed.

Lemma returns_throw {A} held e size : returns lim held (throw (W := W) (E := E) (A := A) e) size.
Proof. intros s Hs. simpl. lia. Qed.

Lemma returns_lift {A} held (r : result E A) : returns lim held (lift (W := W) r) (fun _ => held).
Proof. intros s Hs. destruct r; simpl; lia. Qed.

Lemma returns_act {A} held (f : W -> A * W) ev :
  (forall w a w', f w = (a, w') -> budget w' <= budget w) -> returns lim held (act (E := E) f ev) (fun _ => held).
Proof.
  intros Hf s Hs. unfold act. destruct (f (world s)) as [a w'] eqn:Ef. apply Hf in Ef. simpl. lia.
Qed.

Lemma returns_mapE {F A} held (g : F -> E) (m : M W F A) size :
  returns lim held m size -> returns lim held (mapE g m) size.
Proof. intros Hm s Hs. specialize (Hm s Hs). unfold mapE. by destruct (m s) as [[a|e|] s']. Qed.

Lemma returns_try {F A} held (m : M W F A) size :
  returns lim held m size ->
  returns lim held (try (F := E) m) (fun r => match r with Ok a => size a | Err _ => 0 end).
Proof. intros Hm s Hs. specialize (Hm s Hs). unfold try. by destruct (m s) as [[a|e|] s']. Qed.
End Rules.

Lemma io_try_returns {A} lim held (f : W -> result IoError A * W) ev :
  (forall w a w', f w = (a, w') -> budget w' <= budget w) -> returns lim held (io_try (act f ev)) (fun _ => held).
Proof. intros Hf. eapply returns_bind; [by apply returns_act|]. intros r. apply returns_lift. Qed.

(** ** Reading *)

(** One read, and what it does to the bytes to come. *)
Lemma read_some_spent k n (s : st W) :
  match read_some k n s with
  | (Val c, s') => length c + left s' <= left s
  | (Exn _, s') => left s' <= left s
  | (NoFuel, _) => False
  end.
Proof.
  unfold read_some, read, act, mbind, M_bind. destruct (net_read k n (world s)) as [r w'] eqn:Er.
  apply budget_read in Er. destruct r; simpl in *; lia.
Qed.

(** The step of every reading loop: a chunk that is not empty leaves less
    to come, so the fuel of the next iteration is enough. *)
Lemma read_step_spends {A} lim held k n (body : bytes -> M W HttpError A) (size : A -> nat) :
  (forall c, c <> [] -> spends lim (held + length c) (body c) size) ->
  spends (S lim) held
    (read_some k n ≫= fun c => if bool_decide (c = []) then throw UnexpectedEof else body c) size.
Proof.
  intros Hb s Hs. pose proof (read_some_spent k n s) as Hr. unfold mbind, M_bind.
  destruct (read_some k n s) as [[c|e|] s1]; [|lia|done].
  case_bool_decide as Hc; [simpl; lia|]. assert (length c <> 0) by (by destruct c).
  specialize (Hb c Hc s1 ltac:(lia)). destruct (body c s1) as [[a|e|] s2]; [lia|lia|done].
Qed.

Lemma spends_ret {E A} lim held (a : A) size : size a <= held -> spends lim held (mret (M := M W E) a) size.
Proof. intros Ha s Hs. simpl. lia. Qed.
Lemma spends_throw {E A} lim held e size : spends lim held (throw (W := W) (E := E) (A := A) e) size.
Proof. intros s Hs. simpl. lia. Qed.
Lemma spends_lift_ret {E A B} lim held (r : result E A) (f : A -> B) size :
  (forall a, size (f a) <= held) -> spends lim held (lift (W := W) r ≫= fun a => mret (f a)) size.
Proof. intros Hf s Hs. destruct r as [a|e]; simpl; [specialize (Hf a)|]; lia. Qed.
Lemma spends_zero {E A} held (m : M W E A) size : spends 0 held m size.
Proof. intros s Hs. lia. Qed.

Lemma spends_weaken {E A} lim held held' (m : M W E A) size size' :
  spends lim held m size -> held <= held' -> (forall a, size' a <= size a) -> spends lim held' m size'.
Proof.
  intros Hm Hh Hsz s Hs. specialize (Hm s Hs). destruct (m s) as [[a|e|] s']; [|lia|done].
  specialize (Hsz a). lia.
Qed.

Lemma read_head_bytes_spends fuel k max bs :
  spends fuel (length bs) (read_head_bytes_loop fuel k max bs) length.
Proof.
  revert bs. induction fuel as [|fuel IH]; intros bs; [apply spends_zero|]. simpl.
  destruct (find_header_end bs); [by apply spends_ret|].
  destruct (_ <=? _)%Z; [apply spends_throw|]. apply read_step_spends. intros c _.
  rewrite <-length_app. apply IH.
Qed.

Lemma read_response_head_spends `{Httparse} fuel self max :
  spends fuel (length (buffer self)) (read_response_head fuel self max) (fun r => length (buffer (snd r))).
Proof.
  revert self. induction fuel as [|fuel IH]; intros self; [apply spends_zero|]. simpl.
  destruct (find_header_end (buffer self)) as [e|].
  { apply spends_lift_ret. intros r. simpl. rewrite length_drop. lia. }
  destruct (_ <=? _)%Z; [apply spends_throw|]. apply read_step_spends. intros c _.
  rewrite <-length_app. apply (IH {| stream := stream self; buffer := buffer self ++ c |}).
Qed.

Lemma discard_loop_spends fuel k n held : spends fuel held (discard_loop fuel k n) (fun _ => held).
Proof.
  revert n held. induction fuel as [|fuel IH]; intros n held; [apply spends_zero|]. simpl.
  destruct (_ <=? _)%Z; [by apply spends_ret|]. apply read_step_spends. intros c _.
  eapply spends_weaken; [apply (IH _ (held + length c))|done|intros; simpl; lia].
Qed.

Lemma discard_exact_returns fuel self n :
  returns fuel (length (buffer self)) (discard_exact fuel self n) (fun self' => length (buffer self')).
Proof.
  unfold discard_exact. eapply returns_bind; [apply spends_returns, discard_loop_spends|].
  intros []. apply returns_ret. simpl. rewrite length_drop. lia.
Qed.

(** A line takes at least its two end bytes out of the total. *)
Lemma read_line_spends fuel self max :
  spends fuel (length (buffer self)) (read_line fuel self max) (fun r => 2 + length (buffer (snd r))).
Proof.
  revert self. induction fuel as [|fuel IH]; intros self; [apply spends_zero|]. simpl.
  destruct (find_crlf (buffer self)) as [i|] eqn:Ef.
  { apply spends_ret. simpl. rewrite length_drop. apply find_crlf_some in Ef as [Ho _].
    apply occurs_at_bound in Ho; [|done]. simpl in Ho. lia. }
  destruct (_ <=? _)%Z; [apply spends_throw|]. apply read_step_spends. intros c _.
  rewrite <-length_app. apply (IH (with_buffer self (buffer self ++ c))).
Qed.

(** ** Draining *)

(** A loop over lines: after a line the total is smaller, so one unit of the
    line counter pays for it. *)
Lemma line_step_returns {A} fuel lines self max (body : bytes * BufferedStream -> M W HttpError A) size :
  lines <= fuel -> (forall r, returns lines (length (buffer (snd r))) (body r) size) ->
  returns (S lines) (length (buffer self)) (read_line (S fuel) self max ≫= body) size.
Proof.
  intros Hle Hb s Hs. pose proof (read_line_spends (S fuel) self max s ltac:(lia)) as Hr.
  unfold mbind, M_bind. destruct (read_line (S fuel) self max s) as [[r|e|] s1]; [|lia|done].
  specialize (Hb r s1 ltac:(lia)). destruct (body r s1) as [[a|e|] s2]; [lia|lia|done].
Qed.

Lemma drain_trailers_total fuel lines self :
  lines <= S fuel ->
  returns lines (length (buffer self)) (drain_trailers (S fuel) lines self) (fun self' => length (buffer self')).
Proof.
  revert self. induction lines as [|lines IH]; intros self Hle; [intros s Hs; lia|]. cbn [drain_trailers].
  apply line_step_returns; [lia|]. intros [line self1]. simpl.
  case_bool_decide; [by apply returns_ret|]. apply IH. lia.
Qed.

Lemma returns_lim {E A} lim lim' held (m : M W E A) size :
  returns lim held m size -> lim' <= lim -> returns lim' held m size.
Proof. intros Hm Hl s Hs. apply Hm. lia. Qed.

Lemma drain_chunked_total fuel chunks self :
  chunks <= S fuel ->
  returns chunks (length (buffer self)) (drain_chunked_loop (S fuel) chunks self) (fun self' => length (buffer self')).
Proof.
  revert self. induction chunks as [|chunks IH]; intros self Hle; [intros s Hs; lia|]. cbn [drain_chunked_loop].
  apply line_step_returns; [lia|]. intros [line self1]. cbn [snd].
  eapply returns_bind; [apply returns_lift|]. intros n.
  destruct (n =? 0)%Z; [eapply returns_lim; [apply (drain_trailers_total fuel (S fuel)); done|lia]|].
  eapply returns_bind; [eapply returns_lim; [apply discard_exact_returns|lia]|]. intros self2.
  eapply returns_bind; [eapply returns_lim; [apply spends_returns, read_line_spends|lia]|].
  intros [line' self3]. cbn [snd]. apply (returns_weaken _ (length (buffer self3)) _ _ (fun self' => length (buffer self'))); [|lia|done].
  case_bool_decide; [apply IH; lia|apply returns_throw].
Qed.

Lemma drain_response_body_total fuel self r :
  returns fuel (length (buffer self)) (drain_response_body fuel self r) (fun self' => length (buffer self')).
Proof.
  unfold drain_response_body, drain_chunked. destruct (is_chunked r).
  - destruct fuel as [|fuel]; [intros s Hs; lia|]. by apply drain_chunked_total.
  - eapply returns_bind; [apply returns_lift|]. intros [n|]; [apply discard_exact_returns|by apply returns_ret].
Qed.
End Returns.

(** ** The exchange *)

Section Exchange.
Context {W : Type} `{Network W} `{AuthFactory W} `{!FiniteWorld W} `{Httparse} `{Base64}.
Context (config : ProxyConfig) (fuel : nat).

Abbreviation buffered up := (length (buffer up)).

Lemma next_response_returns up :
  returns fuel (buffered up) (next_response (W := W) config fuel up) (fun r => buffered (snd r)).
Proof. apply returns_mapE, spends_returns, read_response_head_spends. Qed.

Lemma connected_returns e r held : returns (W := W) fuel held (connected e r) (fun up => buffered up).
Proof.
  destruct r as [r|]; [|apply returns_throw]. simpl. eapply returns_bind; [apply returns_lift|]. intros s.
  eapply returns_bind; [apply io_try_returns; intros; by eapply budget_nodelay|]. intros [].
  apply returns_ret. simpl. lia.
Qed.

Lemma connect_upstream_returns held : returns (W := W) fuel held (connect_upstream config) (fun up => buffered up).
Proof.
  eapply returns_bind; [apply returns_act; intros; by eapply budget_connect|]. intros r. apply connected_returns.
Qed.

Lemma send_connect_request_returns s d a held :
  returns (W := W) fuel held (send_connect_request s d a) (fun _ => held).
Proof. apply io_try_returns. intros; by eapply budget_write. Qed.

Lemma auth_rounds_returns rounds d scheme ctx up response challenge drain :
  returns (W := W) fuel (buffered up) (auth_rounds config fuel rounds d scheme ctx up response challenge drain)
    (fun up' => buffered up').
Proof.
  revert ctx up response challenge drain.
  induction rounds as [|rounds IH]; intros ctx up response challenge drain; [apply returns_throw|].
  cbn [auth_rounds]. eapply (returns_bind _ _ _ _ (fun up' => buffered up')).
  { destruct drain; [|by apply returns_ret]. destruct (connection_close response); [apply returns_throw|].
    apply returns_mapE, drain_response_body_total. }
  intros up1. eapply returns_bind; [apply returns_act; intros; by eapply budget_step|]. intros [tok ctx1].
  eapply returns_bind; [apply returns_lift|]. intros tok1.
  eapply returns_bind; [apply send_connect_request_returns|]. intros [].
  eapply returns_bind; [apply next_response_returns|]. intros [response1 up2]. cbn [snd].
  destruct (is_connect_success response1); [by apply returns_ret|].
  destruct (negb _); [apply returns_throw|].
  eapply returns_bind; [apply returns_lift|]. intros found.
  eapply returns_bind; [apply returns_lift|]. intros ch. apply IH.
Qed.

Lemma establish_upstream_tunnel_returns d :
  returns (W := W) fuel 0 (establish_upstream_tunnel config fuel d) (fun up => buffered up).
Proof.
  eapply returns_bind; [apply connect_upstream_returns|]. intros up.
  eapply returns_bind; [apply send_connect_request_returns|]. intros [].
  eapply returns_bind; [apply next_response_returns|]. intros [response up1]. cbn [snd].
  destruct (is_connect_success response); [by apply returns_ret|].
  destruct (negb _); [apply returns_throw|]. destruct (decide _); [apply returns_throw|].
  eapply returns_bind; [apply returns_lift|]. intros [scheme first].
  eapply returns_bind; [apply returns_act; intros; by eapply budget_create|]. intros created.
  eapply returns_bind; [apply returns_lift|]. intros ctx.
  eapply returns_bind; [apply returns_lift|]. intros challenge.
  destruct (connection_close response); [|apply auth_rounds_returns].
  destruct challenge; [apply returns_throw|].
  eapply returns_bind; [apply connect_upstream_returns|]. intros up2. apply auth_rounds_returns.
Qed.

Lemma establish_tunnel_total d :
  returns (W := W) fuel 0 (establish_tunnel config fuel d) (fun up => buffered up).
Proof.
  eapply (returns_bind _ _ _ _ (fun _ => 0)).
  { destruct (decide _); [|by apply returns_ret].
    eapply returns_bind; [apply returns_act; intros; by eapply budget_lookup|].
    intros [[l|x]|]; by apply returns_ret. }
  intros [l|]; [|apply establish_upstream_tunnel_returns].
  eapply returns_bind; [apply returns_act; intros; by eapply budget_connect|]. intros r. apply connected_returns.
Qed.

(** ** A client *)

Definition in_relay (s : st W) : Prop := exists evs c u, trace s = evs ++ [EvRelay c u].

(** Nothing but the relay can be what is still running. *)
Definition reaches_relay {E A} (held : nat) (m : M W E A) : Prop :=
  forall s, held + budget (world s) < fuel -> fst (m s) = NoFuel -> in_relay (snd (m s)).

Lemma reaches_bind {E A B} held (m : M W E A) (k : A -> M W E B) size :
  returns fuel held m size -> (forall a, reaches_relay (size a) (k a)) -> reaches_relay held (m ≫= k).
Proof.
  intros Hm Hk s Hs. specialize (Hm s Hs). unfold mbind, M_bind.
  destruct (m s) as [[a|e|] s1]; [apply Hk; lia|done|done].
Qed.

Lemma reaches_returns {E A} held (m : M W E A) size : returns fuel held m size -> reaches_relay held m.
Proof. intros Hm s Hs Hn. specialize (Hm s Hs). by destruct (m s) as [[a|e|] s1]. Qed.

Lemma write_returns s data held : returns (W := W) fuel held (io_try (write_all s data)) (fun _ => held).
Proof. apply io_try_returns. intros; by eapply budget_write. Qed.

Lemma run_relay_reaches `{RelayWorld W} client up held :
  reaches_relay held (run_relay (W := W) config client up;; mret tt).
Proof.
  intros s _. unfold run_relay, act, mbind, M_bind. destruct (relay_schedule client up (world s)) as [[t evs] w'].
  destruct (relay_bidirectional _ _ _) as [[|]|]; simpl; [done|done|]. intros _. by do 3 eexists.
Qed.

Lemma serve_destination_reaches `{RelayWorld W} client early d held :
  reaches_relay held (serve_destination (W := W) config fuel client early d).
Proof.
  eapply (reaches_bind _ _ _ (fun _ => 0)).
  { eapply returns_weaken; [apply returns_try, establish_tunnel_total|lia|]. intros [a|e]; lia. }
  intros [up|e].
  - eapply reaches_bind; [apply write_returns|]. intros []. cbn [into_parts].
    eapply (reaches_bind _ _ _ (fun _ => 0)).
    { case_bool_decide; [by apply returns_ret|apply write_returns]. }
    intros []. eapply (reaches_bind _ _ _ (fun _ => 0)).
    { case_bool_decide; [by apply returns_ret|apply write_returns]. }
    intros []. apply run_relay_reaches.
  - eapply reaches_bind; [apply write_returns|]. intros []. eapply reaches_returns, (returns_throw _ _ _ (fun _ => 0)).
Qed.

Lemma handle_client_reaches `{RelayWorld W} client : reaches_relay 0 (handle_client (W := W) config fuel client).
Proof.
  eapply reaches_bind; [apply io_try_returns; intros; by eapply budget_nodelay|]. intros [].
  eapply (reaches_bind _ _ _ (fun _ => 0)).
  { eapply (returns_weaken _ 0 0); [|done|intros; apply Nat.le_0_l].
    eapply returns_try, returns_bind; [apply spends_returns, (read_head_bytes_spends _ _ _ [])|].
    intros bs. eapply (returns_weaken _ _ _ _ _ (fun _ => 0)); [apply returns_lift|done|intros; apply Nat.le_0_l]. }
  intros [[request early]|e].
  - destruct (negb _); [eapply reaches_returns, write_returns|].
    destruct (Endpoint_from_str _) as [d|e]; [apply serve_destination_reaches|].
    eapply reaches_bind; [apply write_returns|]. intros []. eapply reaches_returns, (returns_throw _ _ _ (fun _ => 0)).
  - eapply reaches_bind; [apply write_returns|]. intros []. eapply reaches_returns, (returns_throw _ _ _ (fun _ => 0)).
Qed.
End Exchange.

(** C13: If the peers send finitely many bytes in all, however malformed and however many connections are used, then establishing a tunnel returns a tunnel or an error and handling a client either returns or is in the relay: no reading, draining or authentication loop runs forever. *)
Theorem tunnel_always_returns {W} `{Network W} `{AuthFactory W} `{!FiniteWorld W} `{RelayWorld W} `{Httparse} `{Base64}
    config fuel d client (s : st W) :
  budget (world s) < fuel ->
  fst (establish_tunnel config fuel d s) <> NoFuel /\
  (fst (handle_client config fuel client s) = NoFuel ->
   exists evs c u, trace (snd (handle_client config fuel client s)) = evs ++ [EvRelay c u]).
Proof.
  intros Hs. split; [|by apply handle_client_reaches].
  pose proof (establish_tunnel_total config fuel d s ltac:(lia)) as Hr.
  by destruct (establish_tunnel config fuel d s) as [[a|e|] s1].
Qed.

(** ** The scripted world is finite *)

Definition script_budget (w : Script) : nat := sum_list_with (fun segs => length (mjoin segs)) (sc_in w).

Lemma sum_insert (l : list (list bytes)) i segs rest n :
  l !! i = Some segs -> length (mjoin segs) = n + length (mjoin rest) ->
  n + sum_list_with (fun x => length (mjoin x)) (<[i := rest]> l) = sum_list_with (fun x => length (mjoin x)) l.
Proof.
  revert i. induction l as [|x l IH]; intros [|i]; simpl; [done|done| |].
  - intros [= ->] Hn. lia.
  - intros Hi Hn. specialize (IH i Hi Hn). lia.
Qed.

Lemma pop_bytes_join n segs chunk rest : pop_bytes n segs = (chunk, rest) -> mjoin segs = chunk ++ mjoin rest.
Proof.
  induction segs as [|[|b seg] segs IH]; simpl; [by intros [= <- <-]|apply IH|].
  destruct (_ <=? _)%Z; intros [= <- <-]; [done|].
  cbn [mjoin list_join]. by rewrite app_assoc, take_drop.
Qed.

Global Program Instance script_finite : FiniteWorld Script := {| budget := script_budget |}.
Next Obligation.
  intros s n w r w'. simpl. unfold script_read. destruct (pop_bytes n (sc_queue s w)) as [chunk rest] eqn:E.
  intros [= <- <-]. unfold script_budget. simpl. unfold sc_queue in E.
  destruct (sc_in w !! s) as [segs|] eqn:Es; simpl in E.
  - apply Nat.eq_le_incl, (sum_insert _ _ segs); [done|]. by rewrite <-length_app, (pop_bytes_join n segs chunk rest).
  - injection E as <- <-. rewrite list_insert_ge by (by apply lookup_ge_None). done.
Qed.
Next Obligation. by intros s data w r w' [= <- <-]. Qed.
Next Obligation. by intros s w r w' [= <- <-]. Qed.
Next Obligation.
  intros t l w r w'. simpl. unfold script_connect. destruct (sc_connects w); by intros [= <- <-].
Qed.
Next Obligation.
  intros h p l w r w'. simpl. unfold script_lookup. destruct (sc_lookups w); by intros [= <- <-].
Qed.
Next Obligation. by intros scheme name w r w' [= <- <-]. Qed.
Next Obligation. by intros ctx ch w r w' [= <- <-]. Qed.

Definition enough : nat := 1000.

Lemma tunnel_always_returns_witness :
  fst (establish_tunnel (small_config AuthNtlm RoutingProxyOnly) enough service ntlm_world) <> NoFuel.
Proof.
  apply (tunnel_always_returns (small_config AuthNtlm RoutingProxyOnly) enough service 0 ntlm_world).
  vm_compute. lia.
Defined.
