(* ===== verification/Isolation.v ===== *)
(** * Isolation: which sockets a client's handling touches

    [handle_client] of src/server.rs owns the client's socket and the sockets
    its own connection attempts gave it.  Every read, write, option and relay
    of it is on one of these, at a time when it already owned it. *)

From S2P Require Import Prelude RustStr RustNet Config Routing Auth Io Http1 Http1Body Relay Challenge Base64 Server Scenario Handshake Direct Client.

(** ** Ownership along a trace *)

(** The sockets an event is on. *)
Definition event_socks (ev : event) : list sock :=
  match ev with
  | EvRead s _ | EvWrite s _ | EvNodelay s => [s]
  | EvRelay client up => [client; up]
  | _ => []
  end.

(** The socket an event gave. *)
Definition opened_by (ev : event) : list sock :=
  match ev with EvConnect _ (InTime (Ok s)) => [s] | _ => [] end.

Definition opened (evs : list event) : list sock := evs ≫= opened_by.

(** Starting with the sockets [own], every event is on a socket owned then. *)
Fixpoint inside (own : list sock) (evs : list event) : Prop :=
  match evs with
  | [] => True
  | ev :: evs' => event_socks ev ⊆ own /\ inside (own ++ opened_by ev) evs'
  end.

Lemma opened_app a b : opened (a ++ b) = opened a ++ opened b.
Proof. apply bind_app. Qed.

Lemma inside_app own a b : inside own (a ++ b) <-> inside own a /\ inside (own ++ opened a) b.
Proof.
  revert own. induction a as [|ev a IH]; intros own; simpl; [by rewrite app_nil_r; naive_solver|].
  rewrite IH, <-app_assoc. naive_solver.
Qed.

Lemma inside_mono own own' evs : own ⊆ own' -> inside own evs -> inside own' evs.
Proof.
  revert own own'. induction evs as [|ev evs IH]; intros own own' Hsub; simpl; [done|].
  intros [H1 H2]. split; [set_solver|]. eapply IH; [|exact H2]. set_solver.
Qed.

Lemma inside_prefix own a b : inside own (a ++ b) -> inside own a.
Proof. by intros [? _]%inside_app. Qed.

(** An exchange on an owned socket stays inside and opens nothing. *)
Lemma inside_on_conn own k evs : k ∈ own -> Forall (on_conn k) evs -> inside own evs /\ opened evs = [].
Proof.
  intros Hk. revert own Hk. induction evs as [|ev evs IH]; intros own Hk Hf; [done|].
  inversion Hf as [|? ? Hev Hevs]; subst. destruct (IH own Hk Hevs) as [Hi Ho].
  destruct ev; simpl in *; try done; subst; rewrite app_nil_r; split_and!; try done; set_solver.
Qed.

(** ** Programs that stay inside *)

Section Rules.
Context {W E : Type}.

Definition uses {A} (own : list sock) (m : M W E A) (Q : A -> list sock -> Prop) : Prop :=
  emits m (fun evs o => inside own evs /\ forall a, o = Val a -> Q a (own ++ opened evs)).

Lemma uses_weaken {A} own (m : M W E A) (P Q : A -> list sock -> Prop) :
  uses own m P -> (forall a own', P a own' -> Q a own') -> uses own m Q.
Proof. intros Hm HPQ. eapply emits_weaken; [exact Hm|]. intros evs o [Hi Ho]. split; [done|]. eauto. Qed.

Lemma uses_bind {A B} own (m : M W E A) (k : A -> M W E B) P Q :
  uses own m P -> (forall a own', own ⊆ own' -> P a own' -> uses own' (k a) Q) -> uses own (m ≫= k) Q.
Proof.
  intros Hm Hk. eapply emits_bind; [exact Hm|..].
  - intros e1 a [Hi Ha]. eapply emits_weaken; [eapply (Hk a (own ++ opened e1)); [set_solver|by apply Ha]|].
    intros e2 o [Hi2 Ho]. split; [by apply inside_app|]. intros b Hb. rewrite opened_app, app_assoc. by apply Ho.
  - intros e1 e [Hi _]. by split.
  - intros e1 [Hi _]. by split.
Qed.

Lemma uses_ret {A} own (a : A) (Q : A -> list sock -> Prop) : Q a own -> uses own (mret a) Q.
Proof. intros HQ. apply emits_ret. split; [done|]. intros ? [= <-]. by rewrite app_nil_r. Qed.

Lemma uses_throw {A} own e (Q : A -> list sock -> Prop) : uses own (throw e) Q.
Proof. by apply emits_throw. Qed.

Lemma uses_no_fuel {A} own (Q : A -> list sock -> Prop) : uses own no_fuel Q.
Proof. by apply emits_no_fuel. Qed.

Lemma uses_lift {A} own (r : result E A) : uses own (lift r) (fun a _ => r = Ok a).
Proof. apply emits_lift. destruct r; (split; [done|]); naive_solver. Qed.

Lemma uses_act {A} own (f : W -> A * W) ev :
  (forall a, event_socks (ev a) ⊆ own) -> uses own (act f ev) (fun a own' => own' = own ++ opened_by (ev a)).
Proof.
  intros Hev. apply emits_act. intros a. split; [by split|]. intros ? [= <-]. unfold opened. simpl. by rewrite app_nil_r.
Qed.

Lemma uses_performs {A} own k f g a b (m : M W E A) P :
  k ∈ own -> performs (on_conn k) f g a b m P -> uses own m (fun x own' => P x /\ own' = own).
Proof.
  intros Hk Hm. eapply emits_weaken; [exact Hm|]. intros evs o [(Hon & _) Ho].
  destruct (inside_on_conn own k evs Hk Hon) as [Hi ->]. split; [done|]. intros x Hx. rewrite app_nil_r. auto.
Qed.
End Rules.

Lemma uses_try {W E F A} own (m : M W E A) Q :
  uses own m Q -> uses (E := F) own (try m) (fun r own' => forall a, r = Ok a -> Q a own').
Proof.
  intros Hm. eapply emits_try; [exact Hm|..]; [intros evs a [Hi Ha]|intros evs e [Hi _]|intros evs [Hi _]];
    (split; [done|]); naive_solver.
Qed.

#[export] Hint Resolve uses_ret uses_throw uses_no_fuel : fastpx.

(** ** The code *)

Section Code.
Context {W : Type} `{Network W} `{AuthFactory W} `{RelayWorld W} `{Httparse} `{Base64}.
Context (config : ProxyConfig) (fuel : nat).

Abbreviation owned_stream := (fun (up : BufferedStream) (own : list sock) => stream up ∈ own).

Lemma io_try_uses {A} own (f : W -> result IoError A * W) ev :
  event_socks ev ⊆ own -> uses own (io_try (act f (fun _ => ev))) (fun _ _ => True).
Proof.
  intros Hev. eapply uses_bind; [by apply uses_act|]. intros r own' _ _.
  eapply uses_weaken; [apply uses_lift|done].
Qed.

Lemma write_uses own s data : s ∈ own -> uses (W := W) own (io_try (write_all s data)) (fun _ _ => True).
Proof. intros Hs. apply io_try_uses. simpl. set_solver. Qed.

Lemma connected_uses own e r :
  (forall s, r = InTime (Ok s) -> s ∈ own) -> uses (W := W) own (connected e r) owned_stream.
Proof.
  intros Hs. destruct r as [r|]; [|apply uses_throw]. simpl.
  eapply uses_bind; [apply uses_lift|]. intros s own1 Hsub Hr. destruct r as [s'|]; [|done]. injection Hr as ->.
  assert (s ∈ own1) by (specialize (Hs s eq_refl); set_solver).
  eapply uses_bind; [apply io_try_uses; simpl; set_solver|]. intros _ own2 Hsub2 _. apply uses_ret. simpl. set_solver.
Qed.

Lemma connect_uses own target limit e :
  uses (W := W) own (r ← tcp_connect target limit; connected e r) owned_stream.
Proof.
  eapply uses_bind; [apply uses_act; simpl; set_solver|]. intros r own' _ ->. apply connected_uses.
  intros s ->. simpl. set_solver.
Qed.

Lemma request_uses own s d a : s ∈ own -> uses (W := W) own (send_connect_request s d a) (fun _ _ => True).
Proof. apply write_uses. Qed.

Lemma response_uses own up :
  stream up ∈ own -> uses (W := W) own (next_response config fuel up) (fun r own' => stream (snd r) ∈ own').
Proof.
  intros Hs. eapply uses_weaken; [eapply uses_performs; [exact Hs|apply next_response_exchanges]|].
  by intros [r up'] own' [-> ->].
Qed.

Lemma auth_rounds_uses own rounds d scheme ctx up response challenge drain :
  stream up ∈ own ->
  uses (W := W) own (auth_rounds config fuel rounds d scheme ctx up response challenge drain) owned_stream.
Proof.
  intros Hs. eapply uses_weaken; [eapply uses_performs; [exact Hs|apply auth_rounds_exchanges]|].
  by intros up' own' [-> ->].
Qed.

Lemma establish_upstream_tunnel_uses own d : uses (W := W) own (establish_upstream_tunnel config fuel d) owned_stream.
Proof.
  eapply uses_bind; [apply connect_uses|]. intros up own1 _ Hup.
  eapply uses_bind; [by apply request_uses|]. intros _ own2 H12 _. assert (stream up ∈ own2) by set_solver.
  eapply uses_bind; [by apply response_uses|]. intros [response up1] own3 H23 Hup1. simpl in Hup1.
  destruct (is_connect_success response); [by apply uses_ret|].
  destruct (negb _); [apply uses_throw|]. destruct (decide _); [apply uses_throw|].
  eapply uses_bind; [apply uses_lift|]. intros [scheme first] own4 H34 _.
  eapply uses_bind; [apply uses_act; simpl; set_solver|]. intros created own5 H45 _.
  eapply uses_bind; [apply uses_lift|]. intros context own6 H56 _.
  eapply uses_bind; [apply uses_lift|]. intros challenge own7 H67 _.
  destruct (connection_close response); [|apply auth_rounds_uses; set_solver].
  destruct challenge; [apply uses_throw|].
  eapply uses_bind; [apply connect_uses|]. intros up2 own8 _ Hup2. by apply auth_rounds_uses.
Qed.

Lemma establish_tunnel_uses own d : uses (W := W) own (establish_tunnel config fuel d) owned_stream.
Proof.
  eapply (uses_bind _ _ _ (fun _ _ => True)).
  - destruct (decide _); [|by apply uses_ret].
    eapply uses_bind; [apply uses_act; simpl; set_solver|].
    intros [[addresses|err]|] own1 _ _; by apply uses_ret.
  - intros [addresses|] own1 _ _; [apply connect_uses|apply establish_upstream_tunnel_uses].
Qed.

Lemma run_relay_uses own client up :
  client ∈ own -> up ∈ own -> uses (W := W) own (run_relay config client up) (fun _ _ => True).
Proof.
  intros Hc Hu. eapply uses_bind; [apply uses_act; simpl; set_solver|]. intros [t evs] own1 _ _.
  destruct (relay_bidirectional _ _ _); [|apply uses_no_fuel]. by eapply uses_weaken; [apply uses_lift|].
Qed.

Lemma pass_on_uses own s data :
  s ∈ own -> uses (W := W) own (if bool_decide (data = []) then mret tt else io_try (write_all s data)) (fun _ _ => True).
Proof. intros Hs. case_bool_decide; [by apply uses_ret|by apply write_uses]. Qed.

Lemma refuse_uses own client code reason e :
  client ∈ own -> uses (W := W) (A := unit) own (send_error client code reason;; throw e) (fun _ _ => True).
Proof. intros Hc. eapply uses_bind; [by apply write_uses|]. intros. apply uses_throw. Qed.

Lemma serve_destination_uses own client early d :
  client ∈ own -> uses (W := W) own (serve_destination config fuel client early d) (fun _ _ => True).
Proof.
  intros Hc. eapply uses_bind; [apply uses_try, establish_tunnel_uses|]. intros [up|e] own1 H01 Hup.
  2: { apply refuse_uses. set_solver. }
  specialize (Hup up eq_refl). assert (client ∈ own1) by set_solver.
  eapply uses_bind; [by apply write_uses|]. intros _ own2 H12 _. simpl.
  eapply uses_bind; [apply pass_on_uses; set_solver|]. intros _ own3 H23 _.
  eapply uses_bind; [apply pass_on_uses; set_solver|]. intros _ own4 H34 _.
  eapply uses_bind; [apply run_relay_uses; set_solver|]. intros _ own5 _ _. by apply uses_ret.
Qed.

Lemma read_request_uses own client :
  client ∈ own -> uses (W := W) own (read_request_head fuel client (max_header_bytes config)) (fun _ _ => True).
Proof.
  intros Hc. eapply emits_weaken; [apply read_request_head_received|]. intros evs o [Hr _]. split; [|done].
  apply (inside_on_conn own client); [done|]. eapply Forall_impl; [exact Hr|]. by intros [].
Qed.

Lemma handle_client_uses client : uses (W := W) [client] (handle_client config fuel client) (fun _ _ => True).
Proof.
  eapply uses_bind; [apply io_try_uses; simpl; set_solver|]. intros _ own1 H01 _. assert (client ∈ own1) by set_solver.
  eapply uses_bind; [by apply uses_try, read_request_uses|]. intros [[request early]|e] own2 H12 _.
  2: { apply refuse_uses. set_solver. }
  destruct (negb _); [apply write_uses; set_solver|].
  destruct (Endpoint_from_str (target request)); [apply serve_destination_uses; set_solver|apply refuse_uses; set_solver].
Qed.
End Code.
