(* ===== verification/Resume.v ===== *)
(** * Resume: a client task as a resumable program

    The tasks that [serve_until] spawns are suspended at every [await] and
    interleaved by the runtime.  A suspended task is the list of answers it
    has got so far: running the code against that list, in the world [Replay],
    stops at the request it makes next.  [resumable] says that this is sound,
    a longer list of answers continues the same run, and holds of every
    program of [Io]'s monad that only acts through the world. *)

From S2P Require Import Prelude RustStr RustNet Config Routing Auth Io Http1 Http1Body Relay Challenge Base64 Server.

(** ** Requests and answers *)

Section Types.
Context (C : Type).

(** What a task asks of the world; [C] is the provider's context. *)
Inductive Request :=
| QRead (s : sock) (wanted : Z)
| QWrite (s : sock) (data : bytes)
| QNodelay (s : sock)
| QConnect (target : ConnectTarget) (limit : Z)
| QLookup (host : str) (port limit : Z)
| QCreate (scheme : AuthScheme) (target_name : str)
| QStep (ctx : C) (challenge : option bytes)
| QRelay (client up : sock).

Inductive Answer :=
| ARead (r : result IoError bytes)
| AUnit (r : result IoError unit)
| AConnect (r : timed (result IoError sock))
| ALookup (r : timed (result IoError (list SocketAddr)))
| ACreate (r : result AuthError C)
| AStep (r : result AuthError bytes * C)
| ARelay (r : Z * list RelayEvent).

(** The log entry of an answered request; [None] if the answer does not fit. *)
Definition event_of (q : Request) (a : Answer) : option event :=
  match q, a with
  | QRead s _, ARead r => Some (EvRead s r)
  | QWrite s data, AUnit _ => Some (EvWrite s data)
  | QNodelay s, AUnit _ => Some (EvNodelay s)
  | QConnect target _, AConnect r => Some (EvConnect target r)
  | QLookup host port _, ALookup r => Some (EvLookup host port r)
  | QCreate scheme name, ACreate _ => Some (EvAuthCreate scheme name)
  | QStep _ challenge, AStep r => Some (EvAuthStep challenge (fst r))
  | QRelay client up, ARelay _ => Some (EvRelay client up)
  | _, _ => None
  end.

(** The answers not yet consumed, and the request that got none. *)
Record Replay := { script : list Answer; asked : option Request }.
End Types.
Arguments QRead {C} s wanted.
Arguments QWrite {C} s data.
Arguments QNodelay {C} s.
Arguments QConnect {C} target limit.
Arguments QLookup {C} host port limit.
Arguments QCreate {C} scheme target_name.
Arguments QStep {C} ctx challenge.
Arguments QRelay {C} client up.
Arguments ARead {C} r.
Arguments AUnit {C} r.
Arguments AConnect {C} r.
Arguments ALookup {C} r.
Arguments ACreate {C} r.
Arguments AStep {C} r.
Arguments ARelay {C} r.
Arguments event_of {C} q a.
Arguments script {C} r.
Arguments asked {C} r.
Arguments Build_Replay {C} script asked.

(** ** The replaying world *)

Section World.
Context {C : Type}.

(** The next answer, if it is of the right kind; otherwise the run is over
    and the rest of it is given [dummy]. *)
Definition ask {A} (q : Request C) (pick : Answer C -> option A) (dummy : A) (w : Replay C) : A * Replay C :=
  match asked w, script w with
  | None, a :: rest =>
    match pick a with
    | Some x => (x, Build_Replay rest None)
    | None => (dummy, Build_Replay (a :: rest) (Some q))
    end
  | None, [] => (dummy, Build_Replay [] (Some q))
  | Some _, _ => (dummy, w)
  end.

Definition no_answer : IoError := {| io_kind := OtherKind 0; io_message := [] |}.

Global Instance replay_network : Network (Replay C) := {|
  net_read := fun s n => ask (QRead s n) (fun a => match a with ARead r => Some r | _ => None end) (Err no_answer);
  net_write_all := fun s data => ask (QWrite s data) (fun a => match a with AUnit r => Some r | _ => None end) (Err no_answer);
  net_set_nodelay := fun s => ask (QNodelay s) (fun a => match a with AUnit r => Some r | _ => None end) (Err no_answer);
  net_connect := fun target limit =>
    ask (QConnect target limit) (fun a => match a with AConnect r => Some r | _ => None end) Elapsed;
  net_lookup := fun host port limit =>
    ask (QLookup host port limit) (fun a => match a with ALookup r => Some r | _ => None end) Elapsed;
|}.

Global Instance replay_provider : AuthFactory (Replay C) := {|
  AuthContext := C;
  create := fun scheme name =>
    ask (QCreate scheme name) (fun a => match a with ACreate r => Some r | _ => None end) (Err UnsupportedPlatform);
  step := fun ctx challenge =>
    ask (QStep ctx challenge) (fun a => match a with AStep r => Some r | _ => None end) (Err UnsupportedPlatform, ctx);
|}.

Global Instance replay_relay : RelayWorld (Replay C) := fun client up =>
  ask (QRelay client up) (fun a => match a with ARelay r => Some r | _ => None end) (0, []).

(** ** Resumable programs *)

Abbreviation state := (st (Replay C)).

Definition at_script (s : state) (as_ : list (Answer C)) : state := Build_st (Build_Replay as_ None) (trace s).

(** An answer that was consumed, and its log entry. *)
Definition logged_as (a : Answer C) (ev : event) : Prop := exists q, event_of q a = Some ev.

(** Once the run is over nothing but the log changes. *)
Definition stays_over {E A} (m : M (Replay C) E A) : Prop :=
  forall s q, asked (world s) = Some q ->
    world (snd (m s)) = world s /\ exists tail, trace (snd (m s)) = trace s ++ tail.

(** A run consumes a part of the script, one answer per log entry.  If it
    ends, it ends in the same way whatever follows that part.  If it stops
    at a request, it is the end of the script or an answer of the wrong kind,
    and any answer that fits takes it further along the same log. *)
Definition continues {E A} (m : M (Replay C) E A) : Prop :=
  forall s, asked (world s) = None ->
    let '(o, s1) := m s in
    exists used evs tail, script (world s) = used ++ script (world s1) /\ trace s1 = trace s ++ evs ++ tail /\
      Forall2 logged_as used evs /\
      match asked (world s1) with
      | None => tail = [] /\ forall x, m (at_script s (used ++ x)) = (o, Build_st (Build_Replay x None) (trace s ++ evs))
      | Some q =>
        (forall a r, script (world s1) = a :: r -> event_of q a = None) /\
        exists a0 ev0 tail0, tail = ev0 :: tail0 /\ event_of q a0 = Some ev0 /\
        forall a ev x, event_of q a = Some ev ->
          let s2 := snd (m (at_script s (used ++ a :: x))) in
          (exists u, x = u ++ script (world s2)) /\ exists tail', trace s2 = trace s ++ evs ++ ev :: tail'
      end.

Definition resumable {E A} (m : M (Replay C) E A) : Prop := stays_over m /\ continues m.

Lemma at_script_self (s : state) : asked (world s) = None -> at_script s (script (world s)) = s.
Proof. destruct s as [[sc []] t]; [done|]. done. Qed.

Lemma resumable_pure {E A} (o : outcome E A) : resumable (fun s => (o, s)).
Proof.
  split.
  - intros s q Hq. split; [done|]. exists []. by rewrite app_nil_r.
  - intros s Hs. exists [], [], []. rewrite Hs, !app_nil_r. split_and!; [done|done|constructor|done|].
    done.
Qed.

Lemma resumable_act {E A} q (pick : Answer C -> option A) dummy ev :
  (forall a, event_of q a = ev <$> pick a) -> (exists a0, pick a0 = Some dummy) -> resumable (E := E) (act (ask q pick dummy) ev).
Proof.
  intros Hev [a0 Hd]. assert (event_of q a0 = Some (ev dummy)) as H0 by (by rewrite Hev, Hd). split; unfold act, ask.
  - intros s q' Hq. rewrite Hq. split; [done|]. by exists [ev dummy].
  - intros s Hs. rewrite Hs. destruct (script (world s)) as [|a rest] eqn:Es.
    { exists [], [], [ev dummy]. simpl. split_and!; [done|done|constructor|done|]. exists a0, (ev dummy), []. split_and!; [done|done|].
      intros a ev' x Ha. rewrite Hev in Ha. apply fmap_Some in Ha as (y & -> & ->). simpl. split; [by exists []|by exists []]. }
    destruct (pick a) as [y|] eqn:Ep.
    + exists [a], [ev y], []. simpl. rewrite Ep. split_and!; [done|done| |done|done].
      constructor; [|constructor]. exists q. by rewrite Hev, Ep.
    + exists [], [], [ev dummy]. simpl. split_and!; [done|done|constructor| |].
      * intros ? ? [= <- <-]. by rewrite Hev, Ep.
      * exists a0, (ev dummy), []. split_and!; [done|done|].
        intros a' ev' x Ha. rewrite Hev in Ha. apply fmap_Some in Ha as (y & -> & ->). simpl. split; [by exists []|by exists []].
Qed.

(** Only the outcome is changed. *)
Lemma resumable_map {E F A B} (m : M (Replay C) E A) (m' : M (Replay C) F B) f :
  (forall s, m' s = (f (fst (m s)), snd (m s))) -> resumable m -> resumable m'.
Proof.
  intros Heq [Ho Hc]. split.
  - intros s q Hq. rewrite Heq. by eapply Ho.
  - intros s Hs. specialize (Hc s Hs). rewrite Heq. destruct (m s) as [o s1].
    destruct Hc as (used & evs & tail & H1 & H2 & H3 & H4). exists used, evs, tail. split_and!; [done..|].
    cbn [snd fst]. destruct (asked (world s1)) as [q|].
    + destruct H4 as (Hno & a0 & ev0 & tail0 & Ht & H0 & Hgo). split; [done|]. exists a0, ev0, tail0. split_and!; [done..|].
      intros a ev x Ha. rewrite Heq. by apply Hgo.
    + destruct H4 as [-> Hx]. split; [done|]. intros x. by rewrite Heq, Hx.
Qed.

Lemma resumable_mapE {E F A} (h : E -> F) (m : M (Replay C) E A) : resumable m -> resumable (mapE h m).
Proof.
  apply (resumable_map _ _ (fun o => match o with Val a => Val a | Exn e => Exn (h e) | NoFuel => NoFuel end)).
  intros s. unfold mapE. by destruct (m s) as [[] s1].
Qed.

Lemma resumable_try {E F A} (m : M (Replay C) E A) : resumable m -> resumable (try (F := F) m).
Proof.
  apply (resumable_map _ _ (fun o => match o with Val a => Val (Ok a) | Exn e => Val (Err e) | NoFuel => NoFuel end)).
  intros s. unfold try. by destruct (m s) as [[] s1].
Qed.

Lemma resumable_grows {E A} (m : M (Replay C) E A) s :
  resumable m -> (exists u, script (world s) = u ++ script (world (snd (m s)))) /\
    (exists t, trace (snd (m s)) = trace s ++ t).
Proof.
  intros [Ho Hc]. destruct (asked (world s)) as [q|] eqn:Ea.
  - destruct (Ho s q Ea) as [-> Ht]. split; [by exists []|done].
  - specialize (Hc s Ea). destruct (m s) as [o s1]. destruct Hc as (used & evs & tail & H1 & H2 & _). eauto.
Qed.

(** The rest of a sequence takes its first part further. *)
Lemma bind_grows {E A B} (m : M (Replay C) E A) (k : A -> M (Replay C) E B) s :
  (forall a, resumable (k a)) ->
  (exists u, script (world (snd (m s))) = u ++ script (world (snd ((m ≫= k) s)))) /\
  (exists t, trace (snd ((m ≫= k) s)) = trace (snd (m s)) ++ t).
Proof.
  intros Hk. unfold mbind, M_bind. destruct (m s) as [[a|e|] s1]; cbn [snd].
  - by apply resumable_grows.
  - split; [by exists []|exists []; by rewrite app_nil_r].
  - split; [by exists []|exists []; by rewrite app_nil_r].
Qed.

Lemma bind_over {E A B} (m : M (Replay C) E A) (k : A -> M (Replay C) E B) s q :
  (forall a, resumable (k a)) -> asked (world (snd (m s))) = Some q ->
  world (snd ((m ≫= k) s)) = world (snd (m s)).
Proof.
  intros Hk Hq. unfold mbind, M_bind. destruct (m s) as [[a|e|] s1]; [|done|done]. by eapply (proj1 (Hk a)).
Qed.

Lemma resumable_bind {E A B} (m : M (Replay C) E A) (k : A -> M (Replay C) E B) :
  resumable m -> (forall a, resumable (k a)) -> resumable (m ≫= k).
Proof.
  intros [Hmo Hmc] Hk. split.
  - intros s q Hq. destruct (Hmo s q Hq) as [Hw [t Ht]]. destruct (bind_grows m k s Hk) as [_ [t2 Ht2]].
    rewrite (bind_over m k s q Hk) by (by rewrite Hw). split; [done|]. exists (t ++ t2). by rewrite Ht2, Ht, app_assoc.
  - intros s Hs. specialize (Hmc s Hs). pose proof (bind_grows m k s Hk) as [_ [t2 Ht2]].
    pose proof (bind_over m k s) as Hover. destruct (m s) as [o1 s1] eqn:Em. cbn [snd] in *.
    destruct Hmc as (used & evs & tail & Hsc & Htr & Hlog & Hend).
    destruct (asked (world s1)) as [q|] eqn:Eq.
    + (* the first part stops *)
      specialize (Hover q Hk eq_refl). destruct ((m ≫= k) s) as [o2 s2]. cbn [snd] in *.
      destruct Hend as (Hno & a0 & ev0 & tail0 & -> & H0 & Hgo).
      exists used, evs, ((ev0 :: tail0) ++ t2). rewrite Hover, Eq. split_and!; [done|by rewrite Ht2, Htr, <-!app_assoc|done|done|].
      exists a0, ev0, (tail0 ++ t2). split_and!; [done|done|]. intros a' ev x Ha.
      destruct (Hgo a' ev x Ha) as [[u Hu] [t' Ht']].
      destruct (bind_grows m k (at_script s (used ++ a' :: x)) Hk) as [[u2 Hu2] [t3 Ht3]]. split.
      * exists (u ++ u2). by rewrite <-app_assoc, <-Hu2, <-Hu.
      * exists (t' ++ t3). by rewrite Ht3, Ht', <-!app_assoc.
    + clear t2 Ht2 Hover. destruct Hend as [-> Hx]. rewrite app_nil_r in Htr.
      unfold mbind, M_bind. rewrite Em. destruct o1 as [a|e|].
      2-3: exists used, evs, []; rewrite Eq, app_nil_r; split_and!; [done..|]; intros x; by rewrite Hx.
      destruct (Hk a) as [_ Hkc]. specialize (Hkc s1 Eq). destruct (k a s1) as [o2 s2] eqn:Ek.
      destruct Hkc as (used2 & evs2 & tail2 & Hsc2 & Htr2 & Hlog2 & Hend2).
      assert (forall x, Build_st (Build_Replay x None) (trace s ++ evs) = at_script s1 x) as Hat
        by (intros x; unfold at_script; by rewrite Htr).
      exists (used ++ used2), (evs ++ evs2), tail2. split_and!.
      * by rewrite Hsc, Hsc2, app_assoc.
      * by rewrite Htr2, Htr, <-!app_assoc.
      * by apply Forall2_app.
      * destruct (asked (world s2)) as [q|].
        -- destruct Hend2 as (Hno & a0 & ev0 & tail0 & Ht & H0 & Hgo). split; [done|]. exists a0, ev0, tail0. split_and!; [done..|].
           intros a' ev x Ha. rewrite <-!app_assoc, Hx, Hat. specialize (Hgo a' ev x Ha). cbn zeta in *.
           destruct Hgo as [Hu [t' Ht']]. split; [done|]. exists t'. by rewrite Ht', Htr, <-!app_assoc.
        -- destruct Hend2 as [-> Hx2]. split; [done|]. intros x. rewrite <-app_assoc, Hx, Hat, Hx2. by rewrite Htr, app_assoc.
Qed.

Lemma resumable_ret {E A} (a : A) : resumable (mret (M := M (Replay C) E) a).
Proof. apply resumable_pure. Qed.
Lemma resumable_throw {E A} (e : E) : resumable (A := A) (throw e).
Proof. apply resumable_pure. Qed.
Lemma resumable_no_fuel {E A} : resumable (E := E) (A := A) no_fuel.
Proof. apply resumable_pure. Qed.
Lemma resumable_lift {E A} (r : result E A) : resumable (lift r).
Proof. destruct r; apply resumable_pure. Qed.
End World.

Create HintDb resume.
#[export] Hint Resolve resumable_bind resumable_ret resumable_throw resumable_no_fuel resumable_lift resumable_mapE resumable_try : resume.

(** One construct of a program: a sequence, a branch, or a known program. *)
Ltac resume_step :=
  match goal with
  | |- resumable (_ ≫= _) => apply resumable_bind; [|intros ?]
  | |- resumable (mbind _ _) => apply resumable_bind; [|intros ?]
  | |- resumable (match ?x with _ => _ end) => destruct x
  | |- resumable (if ?x then _ else _) => destruct x
  | |- resumable (let '_ := ?x in _) => destruct x
  | |- resumable _ => solve [auto with resume]
  | |- resumable (mapE _ _) => apply resumable_mapE
  | |- resumable (try _) => apply resumable_try
  end.
Ltac resumes := repeat (cbv beta; resume_step).

(** ** The code *)

Section Code.
Context {C : Type} `{Httparse} `{Base64}.

Ltac answers a0 := apply resumable_act; [by intros []|exists a0; done].

Lemma read_resumable {E} k n : resumable (C := C) (E := E) (read k n).
Proof. answers (ARead (C := C) (Err no_answer)). Qed.
Lemma write_all_resumable {E} k data : resumable (C := C) (E := E) (write_all k data).
Proof. answers (AUnit (C := C) (Err no_answer)). Qed.
Lemma set_nodelay_resumable {E} k : resumable (C := C) (E := E) (set_nodelay k).
Proof. answers (AUnit (C := C) (Err no_answer)). Qed.
Lemma tcp_connect_resumable {E} t limit : resumable (C := C) (E := E) (tcp_connect t limit).
Proof. answers (AConnect (C := C) Elapsed). Qed.
Lemma lookup_host_resumable {E} h p limit : resumable (C := C) (E := E) (lookup_host h p limit).
Proof. answers (ALookup (C := C) Elapsed). Qed.
Lemma auth_create_resumable {E} scheme nm : resumable (C := C) (E := E) (auth_create scheme nm).
Proof. answers (ACreate (C := C) (Err UnsupportedPlatform)). Qed.
Lemma auth_step_resumable {E} ctx ch : resumable (C := C) (E := E) (auth_step ctx ch).
Proof. answers (AStep (C := C) (Err UnsupportedPlatform, ctx)). Qed.
Lemma relay_schedule_resumable {E} a b :
  resumable (C := C) (E := E) (act (relay_schedule a b) (fun _ => EvRelay a b)).
Proof. answers (ARelay (C := C) (0, [])). Qed.

#[local] Hint Resolve read_resumable write_all_resumable set_nodelay_resumable tcp_connect_resumable
  lookup_host_resumable auth_create_resumable auth_step_resumable relay_schedule_resumable : resume.

Lemma read_some_resumable k n : resumable (C := C) (read_some k n).
Proof. unfold read_some. resumes. Qed.
#[local] Hint Resolve read_some_resumable : resume.

Lemma read_request_head_resumable fuel k max : resumable (C := C) (read_request_head fuel k max).
Proof.
  unfold read_request_head, read_head_bytes. apply resumable_bind; [|intros; resumes].
  generalize (@nil Z). induction fuel; intros bs; cbn [read_head_bytes_loop]; resumes.
Qed.

Lemma read_response_head_resumable fuel up max : resumable (C := C) (read_response_head fuel up max).
Proof. revert up. induction fuel; intros up; cbn [read_response_head]; resumes. Qed.

Lemma discard_exact_resumable fuel up n : resumable (C := C) (discard_exact fuel up n).
Proof.
  unfold discard_exact. apply resumable_bind; [|intros; resumes].
  generalize (n - Z.min n (len (buffer up))). induction fuel; intros r; cbn [discard_loop]; resumes.
Qed.

Lemma read_line_resumable fuel up max : resumable (C := C) (read_line fuel up max).
Proof. revert up. induction fuel; intros up; cbn [read_line]; resumes. Qed.
#[local] Hint Resolve read_request_head_resumable read_response_head_resumable discard_exact_resumable read_line_resumable : resume.

Lemma drain_trailers_resumable fuel lines up : resumable (C := C) (drain_trailers fuel lines up).
Proof. revert up. induction lines; intros up; cbn [drain_trailers]; resumes. Qed.
#[local] Hint Resolve drain_trailers_resumable : resume.

Lemma drain_chunked_resumable fuel up : resumable (C := C) (drain_chunked fuel up).
Proof.
  unfold drain_chunked. generalize fuel at 2. intros chunks. revert up.
  induction chunks; intros up; cbn [drain_chunked_loop]; resumes.
Qed.
#[local] Hint Resolve drain_chunked_resumable : resume.

Lemma drain_response_body_resumable fuel up r : resumable (C := C) (drain_response_body fuel up r).
Proof. unfold drain_response_body. resumes. Qed.
#[local] Hint Resolve drain_response_body_resumable : resume.

Context (config : ProxyConfig) (fuel : nat).

Lemma io_try_resumable {A} (m : M (Replay C) ProxyError (result IoError A)) : resumable m -> resumable (io_try m).
Proof. intros Hm. unfold io_try. resumes. Qed.
#[local] Hint Resolve io_try_resumable : resume.

Lemma send_connect_request_resumable k d a : resumable (C := C) (send_connect_request k d a).
Proof. unfold send_connect_request. resumes. Qed.
Lemma send_error_resumable k code reason : resumable (C := C) (send_error k code reason).
Proof. unfold send_error. resumes. Qed.
Lemma connected_resumable e r : resumable (C := C) (connected e r).
Proof. unfold connected. resumes. Qed.
#[local] Hint Resolve send_connect_request_resumable send_error_resumable connected_resumable : resume.

Lemma auth_rounds_resumable rounds d scheme ctx up response challenge drain :
  resumable (C := C) (auth_rounds config fuel rounds d scheme ctx up response challenge drain).
Proof.
  revert ctx up response challenge drain.
  induction rounds; intros; cbn [auth_rounds]; unfold next_response; resumes.
Qed.
#[local] Hint Resolve auth_rounds_resumable : resume.

Lemma establish_tunnel_resumable d : resumable (C := C) (establish_tunnel config fuel d).
Proof.
  unfold establish_tunnel, establish_upstream_tunnel, resolve_direct_addresses, connect_direct, connect_upstream, next_response.
  resumes.
Qed.
#[local] Hint Resolve establish_tunnel_resumable : resume.

Lemma handle_client_resumable client : resumable (C := C) (handle_client config fuel client).
Proof. unfold handle_client, run_relay. resumes. Qed.
End Code.
