(* ===== verification/Mirror.v ===== *)
(** * Mirror: a run in the real world is a run in the replaying one

    The code is generic in its world.  [mirrors m m'] relates the same program
    in a world [W] and in [Replay]: the answers [W] gives, one per request and
    each to the request at which the replay of the earlier ones stops, lead
    the replay to the same outcome and the same log.  So resuming a task
    request by request is running its code. *)

From S2P Require Import Prelude RustStr RustNet Config Routing Auth Io Http1 Http1Body Relay Challenge Base64 Server Resume.

Section Mirror.
Context {W : Type} `{Network W} `{AuthFactory W} `{RelayWorld W}.
Abbreviation C := AuthContext.

(** ** Performing a request *)

Definition perform (q : Request C) (w : W) : Answer C * W :=
  match q with
  | QRead s n => let '(r, w') := net_read s n w in (ARead r, w')
  | QWrite s data => let '(r, w') := net_write_all s data w in (AUnit r, w')
  | QNodelay s => let '(r, w') := net_set_nodelay s w in (AUnit r, w')
  | QConnect target limit => let '(r, w') := net_connect target limit w in (AConnect r, w')
  | QLookup host port limit => let '(r, w') := net_lookup host port limit w in (ALookup r, w')
  | QCreate scheme name => let '(r, w') := create scheme name w in (ACreate r, w')
  | QStep ctx challenge => let '(r, w') := step ctx challenge w in (AStep r, w')
  | QRelay client up => let '(r, w') := relay_schedule client up w in (ARelay r, w')
  end.

(** The request at which the replay of [as_] stops. *)
Definition stop {E A} (m : M (Replay C) E A) (t : list event) (as_ : list (Answer C)) : option (Request C) :=
  asked (world (snd (m (Build_st (Build_Replay as_ None) t)))).

(** From [w], answering one request after the other, starting after the
    answers [p]; [f] says which request is next. *)
Inductive goes (f : list (Answer C) -> option (Request C)) :
  list (Answer C) -> W -> list (Answer C) -> list event -> W -> Prop :=
| goes_nil p w : goes f p w [] [] w
| goes_cons p w q a w1 ev as_ evs w' :
    f p = Some q -> perform q w = (a, w1) -> event_of q a = Some ev ->
    goes f (p ++ [a]) w1 as_ evs w' -> goes f p w (a :: as_) (ev :: evs) w'.

Definition mirrors {E A} (m : M W E A) (m' : M (Replay C) E A) : Prop :=
  resumable m' /\
  forall s, exists as_ evs, trace (snd (m s)) = trace s ++ evs /\
    (forall t, goes (stop m' t) [] (world s) as_ evs (world (snd (m s)))) /\
    forall x t, m' (Build_st (Build_Replay (as_ ++ x) None) t) = (fst (m s), Build_st (Build_Replay x None) (t ++ evs)).

(** ** Rules *)

Lemma goes_app f p w as1 evs1 w1 as2 evs2 w2 :
  goes f p w as1 evs1 w1 -> goes f (p ++ as1) w1 as2 evs2 w2 -> goes f p w (as1 ++ as2) (evs1 ++ evs2) w2.
Proof.
  induction 1 as [|p w q a w1 ev as_ evs w' Hf Hp He Hg IH]; [by rewrite app_nil_r|].
  intros H2. simpl. econstructor; [done..|]. apply IH. by rewrite <-app_assoc.
Qed.

Lemma goes_impl (f g : list (Answer C) -> option (Request C)) base p w as_ evs w' :
  (forall p q, f p = Some q -> g (base ++ p) = Some q) -> goes f p w as_ evs w' -> goes g (base ++ p) w as_ evs w'.
Proof.
  intros Hfg. induction 1 as [|p w q a w1 ev as_ evs w' Hf Hp He Hg IH]; [constructor|].
  econstructor; [eauto..|]. by rewrite <-app_assoc.
Qed.

Lemma mirrors_pure {E A} (o : outcome E A) : mirrors (fun s => (o, s)) (fun s => (o, s)).
Proof.
  split; [apply resumable_pure|]. intros s. exists [], []. rewrite app_nil_r. split_and!; [done|constructor|].
  intros x t. by rewrite app_nil_r.
Qed.

Lemma mirrors_bind {E A B} (m : M W E A) m' (k : A -> M W E B) k' :
  mirrors m m' -> (forall a, mirrors (k a) (k' a)) -> mirrors (m ≫= k) (m' ≫= k').
Proof.
  intros [Hr Hm] Hk. assert (forall a, resumable (k' a)) as Hk' by (intros a; apply Hk).
  split; [by apply resumable_bind|]. intros s. destruct (Hm s) as (as1 & evs1 & Ht1 & Hg1 & Hx1).
  assert (forall t, goes (stop (m' ≫= k') t) [] (world s) as1 evs1 (world (snd (m s)))) as Hg.
  { intros t. apply (goes_impl (stop m' t) _ []); [|done]. intros p q Hq. unfold stop in *. simpl app.
    by rewrite (bind_over m' k' _ q). }
  assert (forall (x : list (Answer C)) t, (m' ≫= k') (Build_st (Build_Replay (as1 ++ x) None) t) =
    match fst (m s) with
    | Val a => k' a (Build_st (Build_Replay x None) (t ++ evs1))
    | Exn e => (Exn e, Build_st (Build_Replay x None) (t ++ evs1))
    | NoFuel => (NoFuel, Build_st (Build_Replay x None) (t ++ evs1))
    end) as Hb.
  { intros x t. unfold mbind, M_bind. rewrite Hx1. by destruct (fst (m s)). }
  assert ((m ≫= k) s = match m s with
    | (Val a, s1) => k a s1
    | (Exn e, s1) => (Exn e, s1)
    | (NoFuel, s1) => (NoFuel, s1)
    end) as Hmk by done.
  rewrite Hmk. clear Hmk. destruct (m s) as [[a|e|] s1]; cbn [fst snd] in *.
  2-3: exists as1, evs1; split_and!; [done..|]; intros x t; by rewrite Hb.
  destruct (proj2 (Hk a) s1) as (as2 & evs2 & Ht2 & Hg2 & Hx2).
  exists (as1 ++ as2), (evs1 ++ evs2). split_and!.
  - by rewrite Ht2, Ht1, app_assoc.
  - intros t. eapply goes_app; [apply Hg|]. rewrite <-(app_nil_r ([] ++ as1)).
    eapply (goes_impl (stop (k' a) (t ++ evs1))); [|apply Hg2].
    intros p q Hq. unfold stop in *. simpl app. by rewrite Hb.
  - intros x t. rewrite <-app_assoc, Hb, Hx2. by rewrite app_assoc.
Qed.

Lemma mirrors_map {E F A B} (m : M W E A) m' (n : M W F B) n' (f : outcome E A -> outcome F B) :
  (forall s, n s = (f (fst (m s)), snd (m s))) -> (forall s, n' s = (f (fst (m' s)), snd (m' s))) ->
  mirrors m m' -> mirrors n n'.
Proof.
  intros Hn Hn' [Hr Hm]. split; [by eapply resumable_map|]. intros s.
  destruct (Hm s) as (as_ & evs & Ht & Hg & Hx). exists as_, evs. rewrite Hn. split_and!; [done| |].
  - intros t. apply (goes_impl (stop m' t) _ []); [|apply Hg]. intros p q. unfold stop. by rewrite Hn'.
  - intros x t. by rewrite Hn', Hx.
Qed.

Lemma mirrors_mapE {E F A} (h : E -> F) (m : M W E A) m' : mirrors m m' -> mirrors (mapE h m) (mapE h m').
Proof.
  apply (mirrors_map _ _ _ _ (fun o => match o with Val a => Val a | Exn e => Exn (h e) | NoFuel => NoFuel end));
    intros s; unfold mapE; by destruct (_ s) as [[] ?].
Qed.

Lemma mirrors_try {E F A} (m : M W E A) m' : mirrors m m' -> mirrors (try (F := F) m) (try m').
Proof.
  apply (mirrors_map _ _ _ _ (fun o => match o with Val a => Val (Ok a) | Exn e => Val (Err e) | NoFuel => NoFuel end));
    intros s; unfold try; by destruct (_ s) as [[] ?].
Qed.

(** A request and its answer. *)
Lemma mirrors_act {E A} q (wrap : A -> Answer C) (f : W -> A * W) (pick : Answer C -> option A) dummy ev :
  (forall w, perform q w = (wrap (fst (f w)), snd (f w))) -> (forall a, pick (wrap a) = Some a) ->
  (forall a, event_of q a = ev <$> pick a) ->
  mirrors (E := E) (act f ev) (act (ask q pick dummy) ev).
Proof.
  intros Hp Hw He. split; [apply resumable_act; [done|by exists (wrap dummy)]|].
  intros s. unfold act. specialize (Hp (world s)). destruct (f (world s)) as [a w']. cbn [fst snd] in *.
  exists [wrap a], [ev a]. split_and!; [done| |].
  - intros t. econstructor; [reflexivity|exact Hp|by rewrite He, Hw|constructor].
  - intros x t. simpl. unfold ask. simpl. by rewrite Hw.
Qed.

Lemma mirrors_ret {E A} (a : A) : mirrors (E := E) (mret a) (mret a).
Proof. apply mirrors_pure. Qed.
Lemma mirrors_throw {E A} (e : E) : mirrors (A := A) (throw e) (throw e).
Proof. apply mirrors_pure. Qed.
Lemma mirrors_no_fuel {E A} : mirrors (E := E) (A := A) no_fuel no_fuel.
Proof. apply mirrors_pure. Qed.
Lemma mirrors_lift {E A} (r : result E A) : mirrors (lift r) (lift r).
Proof. destruct r; apply mirrors_pure. Qed.
End Mirror.

Create HintDb mirror.
#[export] Hint Resolve mirrors_ret mirrors_throw mirrors_no_fuel mirrors_lift : mirror.

Ltac mirror_step :=
  match goal with
  | |- mirrors (_ ≫= _) _ => apply mirrors_bind; [|intros ?]
  | |- mirrors (match ?x with _ => _ end) _ => destruct x
  | |- mirrors _ _ => solve [auto with mirror]
  | |- mirrors (mapE _ _) _ => apply mirrors_mapE
  | |- mirrors (try _) _ => apply mirrors_try
  end.
Ltac mirror := repeat (cbv beta; mirror_step).

(** ** The code *)

Section Code.
Context {W : Type} `{Network W} `{AuthFactory W} `{RelayWorld W} `{Httparse} `{Base64}.

Ltac asks wrap := apply (mirrors_act _ wrap); [intros w; simpl; by case_match|done|by intros []].

Lemma read_mirrors {E} k n : mirrors (W := W) (E := E) (read k n) (read k n).
Proof. asks (ARead (C := AuthContext)). Qed.
Lemma write_all_mirrors {E} k data : mirrors (W := W) (E := E) (write_all k data) (write_all k data).
Proof. asks (AUnit (C := AuthContext)). Qed.
Lemma set_nodelay_mirrors {E} k : mirrors (W := W) (E := E) (set_nodelay k) (set_nodelay k).
Proof. asks (AUnit (C := AuthContext)). Qed.
Lemma tcp_connect_mirrors {E} t limit : mirrors (W := W) (E := E) (tcp_connect t limit) (tcp_connect t limit).
Proof. asks (AConnect (C := AuthContext)). Qed.
Lemma lookup_host_mirrors {E} h p limit : mirrors (W := W) (E := E) (lookup_host h p limit) (lookup_host h p limit).
Proof. asks (ALookup (C := AuthContext)). Qed.
Lemma auth_create_mirrors {E} scheme nm : 
  mirrors (W := W) (E := E) (auth_create scheme nm) (auth_create (W := Replay AuthContext) (H0 := replay_provider) scheme nm).
Proof. asks (ACreate (C := AuthContext)). Qed.
Lemma auth_step_mirrors {E} (ctx : AuthContext) ch :
  mirrors (W := W) (E := E) (auth_step ctx ch) (auth_step (W := Replay AuthContext) (H0 := replay_provider) ctx ch).
Proof. asks (AStep (C := AuthContext)). Qed.
Lemma relay_schedule_mirrors {E} a b :
  mirrors (W := W) (E := E) (act (relay_schedule a b) (fun _ => EvRelay a b)) (act (relay_schedule a b) (fun _ => EvRelay a b)).
Proof. asks (ARelay (C := AuthContext)). Qed.

#[local] Hint Resolve read_mirrors write_all_mirrors set_nodelay_mirrors tcp_connect_mirrors
  lookup_host_mirrors auth_create_mirrors auth_step_mirrors relay_schedule_mirrors : mirror.

Lemma read_some_mirrors k n : mirrors (W := W) (read_some k n) (read_some k n).
Proof. unfold read_some. mirror. Qed.
#[local] Hint Resolve read_some_mirrors : mirror.

Lemma read_request_head_mirrors fuel k max : mirrors (W := W) (read_request_head fuel k max) (read_request_head fuel k max).
Proof.
  unfold read_request_head, read_head_bytes. apply mirrors_bind; [|intros; mirror].
  generalize (@nil Z). induction fuel; intros bs; cbn [read_head_bytes_loop]; mirror.
Qed.

Lemma read_response_head_mirrors fuel up max : mirrors (W := W) (read_response_head fuel up max) (read_response_head fuel up max).
Proof. revert up. induction fuel; intros up; cbn [read_response_head]; mirror. Qed.

Lemma discard_exact_mirrors fuel up n : mirrors (W := W) (discard_exact fuel up n) (discard_exact fuel up n).
Proof.
  unfold discard_exact. apply mirrors_bind; [|intros; mirror].
  generalize (n - Z.min n (len (buffer up))). induction fuel; intros r; cbn [discard_loop]; mirror.
Qed.

Lemma read_line_mirrors fuel up max : mirrors (W := W) (read_line fuel up max) (read_line fuel up max).
Proof. revert up. induction fuel; intros up; cbn [read_line]; mirror. Qed.
#[local] Hint Resolve read_request_head_mirrors read_response_head_mirrors discard_exact_mirrors read_line_mirrors : mirror.

Lemma drain_trailers_mirrors fuel lines up : mirrors (W := W) (drain_trailers fuel lines up) (drain_trailers fuel lines up).
Proof. revert up. induction lines; intros up; cbn [drain_trailers]; mirror. Qed.
#[local] Hint Resolve drain_trailers_mirrors : mirror.

Lemma drain_chunked_mirrors fuel up : mirrors (W := W) (drain_chunked fuel up) (drain_chunked fuel up).
Proof.
  unfold drain_chunked. generalize fuel at 2 4. intros chunks. revert up.
  induction chunks; intros up; cbn [drain_chunked_loop]; mirror.
Qed.
#[local] Hint Resolve drain_chunked_mirrors : mirror.

Lemma drain_response_body_mirrors fuel up r : mirrors (W := W) (drain_response_body fuel up r) (drain_response_body fuel up r).
Proof. unfold drain_response_body. mirror. Qed.
#[local] Hint Resolve drain_response_body_mirrors : mirror.

Context (config : ProxyConfig) (fuel : nat).

Lemma io_try_mirrors {A} (m : M W ProxyError (result IoError A)) m' : mirrors m m' -> mirrors (io_try m) (io_try m').
Proof. intros Hm. unfold io_try. mirror. Qed.
#[local] Hint Resolve io_try_mirrors : mirror.

Lemma send_connect_request_mirrors k d a : mirrors (W := W) (send_connect_request k d a) (send_connect_request k d a).
Proof. unfold send_connect_request. mirror. Qed.
Lemma send_error_mirrors k code reason : mirrors (W := W) (send_error k code reason) (send_error k code reason).
Proof. unfold send_error. mirror. Qed.
Lemma connected_mirrors e r : mirrors (W := W) (connected e r) (connected e r).
Proof. unfold connected. mirror. Qed.
#[local] Hint Resolve send_connect_request_mirrors send_error_mirrors connected_mirrors : mirror.

Lemma auth_rounds_mirrors rounds d scheme (ctx : AuthContext) up response challenge drain :
  mirrors (W := W) (auth_rounds config fuel rounds d scheme ctx up response challenge drain)
    (auth_rounds (W := Replay AuthContext) config fuel rounds d scheme ctx up response challenge drain).
Proof.
  revert ctx up response challenge drain.
  induction rounds; intros; cbn [auth_rounds]; unfold next_response; mirror.
Qed.
#[local] Hint Resolve auth_rounds_mirrors : mirror.

Lemma establish_tunnel_mirrors d : mirrors (W := W) (establish_tunnel config fuel d) (establish_tunnel config fuel d).
Proof.
  unfold establish_tunnel, establish_upstream_tunnel, resolve_direct_addresses, connect_direct, connect_upstream, next_response.
  mirror.
Qed.
#[local] Hint Resolve establish_tunnel_mirrors : mirror.

Lemma handle_client_mirrors client : mirrors (W := W) (handle_client config fuel client) (handle_client config fuel client).
Proof. unfold handle_client, run_relay. mirror. Qed.
End Code.
