(* ===== verification/Sspi.v ===== *)
(** * Sspi: the Windows security context of src/auth.rs

    [SspiContext]: acquiring credentials, stepping the security context and
    dropping it.  The functions of the Windows API are operations of an
    abstract provider; every call is logged with its arguments and results,
    and the log of any life of a context is proved to follow the usage
    protocol of the API, given as a step relation. *)

From S2P Require Import Prelude RustStr Auth.

(** ** The native interface *)

Inductive Package := NEGOSSP_NAME_W | NTLMSP_NAME.

(** The direction of credentials, the requests of a context and the data
    representation: the constants that are passed to the API. *)
Inductive CredentialUse := SECPKG_CRED_INBOUND | SECPKG_CRED_OUTBOUND.
Inductive ContextReq := ISC_REQ_CONNECTION | ISC_REQ_ALLOCATE_MEMORY.
Inductive DataRep := SECURITY_NATIVE_DREP | SECURITY_NETWORK_DREP.

(** The status codes the code tells apart; any other keeps its [HRESULT]. *)
Inductive SecStatus :=
| SEC_E_OK
| SEC_I_CONTINUE_NEEDED
| SEC_I_COMPLETE_NEEDED
| SEC_I_COMPLETE_AND_CONTINUE
| OtherStatus (hresult : Z).

(** An output buffer: its address, zero for null, and its length. *)
Record SecBuffer := { cbBuffer : Z; pvBuffer : Z }.

Class SspiApi (N : Type) := {
  SecHandle : Type;
  SecHandle_default : SecHandle;
  AcquireCredentialsHandleW : Package -> CredentialUse -> N -> result str SecHandle * N;
  (** Credentials, existing context, target name, requests, data
      representation, input token and the handle to overwrite; yields the status, the new handle and the output buffer. *)
  InitializeSecurityContextW :
    SecHandle -> option SecHandle -> list Z -> list ContextReq -> DataRep -> option bytes -> SecHandle -> N ->
    (SecStatus * SecHandle * SecBuffer) * N;
  (** The descriptor is passed by reference, so it may be changed. *)
  CompleteAuthToken : SecHandle -> SecBuffer -> N -> (result str unit * SecBuffer) * N;
  from_raw_parts : Z -> Z -> N -> bytes;
  FreeContextBuffer : Z -> N -> result str unit * N;
  DeleteSecurityContext : SecHandle -> N -> result str unit * N;
  FreeCredentialsHandle : SecHandle -> N -> result str unit * N;
}.

Section Context.
Context {N : Type} `{SspiApi N}.

Inductive call :=
| Acquired (package : Package) (use : CredentialUse) (r : result str SecHandle)
| Initialized (credentials : SecHandle) (existing : option SecHandle) (target : list Z)
    (requests : list ContextReq) (input : option bytes) (status : SecStatus) (context : SecHandle) (output : SecBuffer)
| Completed (context : SecHandle) (output : SecBuffer)
| FreedBuffer (address : Z)
| Deleted (context : SecHandle)
| FreedCredentials (credentials : SecHandle).

Record native := { provider : N; calls : list call }.

Definition logged (s : native) (n : N) (c : call) : native := {| provider := n; calls := calls s ++ [c] |}.

(** ** [SspiContext] *)

Record SspiContext := {
  credentials : SecHandle;
  context : SecHandle;
  has_context : bool;
  complete : bool;
  target_name : list Z;
}.

(** [str::encode_utf16]. *)
Definition encode_utf16 (s : str) : list Z :=
  s ≫= fun c => if c <? 65536 then [c] else [55296 + (c - 65536) / 1024; 56320 + (c - 65536) mod 1024].

Definition scheme_package (scheme : AuthScheme) : Package :=
  match scheme with
  | Negotiate => NEGOSSP_NAME_W
  | Ntlm => NTLMSP_NAME
  end.

Definition SspiContext_new (scheme : AuthScheme) (name : str) (s : native) : result AuthError SspiContext * native :=
  let '(r, n) := AcquireCredentialsHandleW (scheme_package scheme) SECPKG_CRED_OUTBOUND (provider s) in
  let s := logged s n (Acquired (scheme_package scheme) SECPKG_CRED_OUTBOUND r) in
  match r with
  | Err message => (Err (Native message), s)
  | Ok credentials =>
    (Ok {| credentials := credentials; context := SecHandle_default; has_context := false;
           complete := false; target_name := encode_utf16 name ++ [0] |}, s)
  end.

Definition accepted_status (status : SecStatus) : bool :=
  match status with
  | SEC_E_OK | SEC_I_CONTINUE_NEEDED | SEC_I_COMPLETE_NEEDED | SEC_I_COMPLETE_AND_CONTINUE => true
  | OtherStatus _ => false
  end.

Definition needs_completion (status : SecStatus) : bool :=
  match status with SEC_I_COMPLETE_NEEDED | SEC_I_COMPLETE_AND_CONTINUE => true | _ => false end.

Definition is_final (status : SecStatus) : bool :=
  match status with SEC_E_OK | SEC_I_COMPLETE_NEEDED => true | _ => false end.

(** [{:#010x}] of the status as a [u32]. *)
Definition fmt_hresult (code : Z) : str :=
  let digits := fmt_x (wrap 32 code) in
  lit "0x" ++ replicate (8 - length digits) 48 ++ digits.

Definition status_code (status : SecStatus) : Z :=
  match status with OtherStatus code => code | _ => 0 end.

(** The result of [CompleteAuthToken] where the status asks for it. *)
Definition complete_token (status : SecStatus) (ctx : SecHandle) (output : SecBuffer) (s : native) :
  (option AuthError * SecBuffer) * native :=
  if needs_completion status then
    let '((r, output'), n) := CompleteAuthToken ctx output (provider s) in
    (match r with Ok _ => None | Err message => Some (Native message) end, output',
     logged s n (Completed ctx output'))
  else (None, output, s).

Definition output_token (output : SecBuffer) (s : native) : bytes :=
  if (pvBuffer output =? 0) || (cbBuffer output =? 0) then []
  else from_raw_parts (pvBuffer output) (cbBuffer output) (provider s).

Definition free_output (output : SecBuffer) (s : native) : result AuthError unit * native :=
  if pvBuffer output =? 0 then (Ok tt, s)
  else
    let '(r, n) := FreeContextBuffer (pvBuffer output) (provider s) in
    (map_err Native r, logged s n (FreedBuffer (pvBuffer output))).

(** The input buffer: its length must fit in [u32]. *)
Definition input_buffer (challenge : option bytes) : result AuthError (option bytes) :=
  match challenge with
  | Some tok => if len tok <=? uint_max 32 then Ok (Some tok) else Err TokenTooLarge
  | None => Ok None
  end.

Definition set_context (self : SspiContext) (ctx : SecHandle) (has : bool) : SspiContext :=
  {| credentials := credentials self; context := ctx; has_context := has;
     complete := complete self; target_name := target_name self |}.

Definition set_complete (self : SspiContext) (c : bool) : SspiContext :=
  {| credentials := credentials self; context := context self; has_context := has_context self;
     complete := c; target_name := target_name self |}.

(** [ISC_REQ_CONNECTION | ISC_REQ_ALLOCATE_MEMORY]. *)
Definition context_requests : list ContextReq := [ISC_REQ_CONNECTION; ISC_REQ_ALLOCATE_MEMORY].

Definition SspiContext_step (self : SspiContext) (challenge : option bytes) (s : native) :
  (result AuthError bytes * SspiContext) * native :=
  if complete self then (Err ContextComplete, self, s) else
  match input_buffer challenge with
  | Err e => (Err e, self, s)
  | Ok input =>
    let existing_context := if has_context self then Some (context self) else None in
    let '((status, ctx, output), n) :=
      InitializeSecurityContextW (credentials self) existing_context (target_name self) context_requests
        SECURITY_NATIVE_DREP input (context self) (provider s) in
    let s := logged s n (Initialized (credentials self) existing_context (target_name self) context_requests input status ctx output) in
    let self := set_context self ctx (accepted_status status || has_context self) in
    let '((completion_error, output), s) := complete_token status ctx output s in
    let tok := output_token output s in
    let '(freed, s) := free_output output s in
    match freed, completion_error with
    | Err e, _ => (Err e, self, s)
    | Ok _, Some e => (Err e, self, s)
    | Ok _, None =>
      if accepted_status status then (Ok tok, set_complete self (is_final status), s)
      else (Err (Native (lit "InitializeSecurityContextW returned " ++ fmt_hresult (status_code status))), self, s)
    end
  end.

(** [Drop]: the results of both calls are ignored. *)
Definition SspiContext_drop (self : SspiContext) (s : native) : native :=
  let s :=
    if has_context self then
      let '(_, n) := DeleteSecurityContext (context self) (provider s) in logged s n (Deleted (context self))
    else s in
  let '(_, n) := FreeCredentialsHandle (credentials self) (provider s) in
  logged s n (FreedCredentials (credentials self)).

(** [NativeAuthFactory] on Windows. *)
Global Instance NativeAuthFactory_windows : AuthFactory native := {|
  AuthContext := SspiContext;
  create := SspiContext_new;
  step := SspiContext_step;
|}.

(** The life of a context between its creation and its end. *)
Fixpoint step_all (self : SspiContext) (challenges : list (option bytes)) (s : native) :
  list (result AuthError bytes) * SspiContext * native :=
  match challenges with
  | [] => ([], self, s)
  | ch :: rest =>
    let '((r, self), s) := SspiContext_step self ch s in
    let '((rs, self), s) := step_all self rest s in
    (r :: rs, self, s)
  end.

(** ** The usage protocol *)

(** [Open creds ctx buf owed]: credentials are held, [ctx] is the live
    security context, [buf] the output buffer still to be freed (zero for
    none), and [owed] says that the last status asked for completion. *)
Inductive api_state :=
| Start
| Open (creds : SecHandle) (ctx : option SecHandle) (buf : Z) (owed : bool)
| Closing (creds : SecHandle)
| Ended.

(** The context that is live after a call: an accepted status creates or
    keeps one, a failure destroys none. *)
Definition live_context (ctx : option SecHandle) (status : SecStatus) (ctx' : SecHandle) : option SecHandle :=
  if accepted_status status then Some ctx' else (fun _ => ctx') <$> ctx.

Inductive api_step (package : Package) (target : list Z) : api_state -> call -> api_state -> Prop :=
| api_acquire creds :
    api_step package target Start (Acquired package SECPKG_CRED_OUTBOUND (Ok creds)) (Open creds None 0 false)
| api_initialize creds ctx requests input status ctx' out :
    ISC_REQ_ALLOCATE_MEMORY ∈ requests ->  (* so the buffer is the API's, to be freed *)
    api_step package target (Open creds ctx 0 false)
      (Initialized creds ctx target requests input status ctx' out)
      (Open creds (live_context ctx status ctx') (pvBuffer out) (needs_completion status))
| api_complete creds ctx buf out :
    api_step package target (Open creds (Some ctx) buf true) (Completed ctx out)
      (Open creds (Some ctx) (pvBuffer out) false)
| api_free creds ctx buf :
    buf <> 0 ->
    api_step package target (Open creds ctx buf false) (FreedBuffer buf) (Open creds ctx 0 false)
| api_delete creds ctx :
    api_step package target (Open creds (Some ctx) 0 false) (Deleted ctx) (Closing creds)
| api_close_open creds :
    api_step package target (Open creds None 0 false) (FreedCredentials creds) Ended
| api_close creds :
    api_step package target (Closing creds) (FreedCredentials creds) Ended.

Inductive api_run (package : Package) (target : list Z) : api_state -> list call -> api_state -> Prop :=
| api_nil a : api_run package target a [] a
| api_cons a b c ev evs :
    api_step package target a ev b -> api_run package target b evs c -> api_run package target a (ev :: evs) c.

Lemma api_run_app p t a b c e1 e2 :
  api_run p t a e1 b -> api_run p t b e2 c -> api_run p t a (e1 ++ e2) c.
Proof. intros H1 H2. induction H1; [done|]. by econstructor; [|auto]. Qed.

Lemma api_one p t a ev b : api_step p t a ev b -> api_run p t a [ev] b.
Proof. intros Hs. econstructor; [exact Hs|constructor]. Qed.

(** The protocol state of a context that is not inside a call. *)
Definition live (self : SspiContext) : option SecHandle := if has_context self then Some (context self) else None.
Definition idle (self : SspiContext) : api_state := Open (credentials self) (live self) 0 false.

(** The live context after an initialization call. *)
Lemma live_after self status ctx :
  live (set_context self ctx (accepted_status status || has_context self)) = live_context (live self) status ctx.
Proof. unfold live_context, live, set_context. simpl. by destruct (accepted_status status), (has_context self). Qed.

(** A complete context refuses every step. *)
Lemma complete_refuses self later s :
  complete self = true -> step_all self later s = (replicate (length later) (Err ContextComplete), self, s).
Proof.
  intros Hc. induction later as [|ch later IH]; [done|]. simpl.
  unfold SspiContext_step. rewrite Hc. by rewrite IH.
Qed.

(** ** Every step follows the protocol *)

(** The calls between two logs. *)
Definition did (s s' : native) (p : Package) (t : list Z) (a b : api_state) : Prop :=
  exists evs, calls s' = calls s ++ evs /\ api_run p t a evs b.

Lemma did_nothing s p t a : did s s p t a a.
Proof. exists []. rewrite app_nil_r. split; [done|constructor]. Qed.

Lemma did_app s1 s2 s3 p t a b c : did s1 s2 p t a b -> did s2 s3 p t b c -> did s1 s3 p t a c.
Proof.
  intros (e1 & Hc1 & H1) (e2 & Hc2 & H2). exists (e1 ++ e2). split; [by rewrite Hc2, Hc1, app_assoc|].
  by eapply api_run_app.
Qed.

Lemma did_one s n ev p t a b : api_step p t a ev b -> did s (logged s n ev) p t a b.
Proof. intros Hs. exists [ev]. split; [done|by apply api_one]. Qed.

Lemma complete_token_did status ctx output s err output' s' p t creds :
  complete_token status ctx output s = (err, output', s') ->
  did s s' p t (Open creds (Some ctx) (pvBuffer output) (needs_completion status))
    (Open creds (Some ctx) (pvBuffer output') false).
Proof.
  unfold complete_token. destruct (needs_completion status).
  - destruct (CompleteAuthToken _ _ _) as [[r out] n]. intros [= <- <- <-]. apply did_one. constructor.
  - intros [= <- <- <-]. apply did_nothing.
Qed.

Lemma free_output_did output s r s' p t creds ctx :
  free_output output s = (r, s') ->
  did s s' p t (Open creds ctx (pvBuffer output) false) (Open creds ctx 0 false).
Proof.
  unfold free_output. destruct (pvBuffer output =? 0) eqn:E; destr_bool.
  - intros [= <- <-]. rewrite E. apply did_nothing.
  - destruct (FreeContextBuffer _ _) as [r' n]. intros [= <- <-]. apply did_one. by constructor.
Qed.

(** Only an accepted status asks for completion. *)
Lemma rejected_no_completion status : accepted_status status = false -> needs_completion status = false.
Proof. by destruct status. Qed.

Lemma complete_token_rejected status ctx output s :
  accepted_status status = false -> complete_token status ctx output s = (None, output, s).
Proof. intros Ha. unfold complete_token. by rewrite rejected_no_completion. Qed.

Lemma step_did self challenge s r self' s' p t :
  SspiContext_step self challenge s = (r, self', s') -> target_name self = t ->
  did s s' p t (idle self) (idle self') /\ target_name self' = t /\ credentials self' = credentials self.
Proof.
  intros Hs <-. unfold SspiContext_step in Hs.
  destruct (complete self); [simplify_eq; split_and!; [apply did_nothing|done|done]|].
  destruct (input_buffer challenge) as [input|e]; [|simplify_eq; split_and!; [apply did_nothing|done|done]].
  fold (live self) in Hs.
  destruct (InitializeSecurityContextW _ _ _ _ _ _ _ _) as [[[status ctx] output] n].
  destruct (complete_token _ _ _ _) as [[err output'] s2] eqn:Ec.
  destruct (free_output output' s2) as [freed s3] eqn:Ef.
  assert (did s s3 p (target_name self) (idle self) (idle (set_context self ctx (accepted_status status || has_context self)))) as Hd.
  { eapply did_app; [apply did_one, (api_initialize _ _ _ _ context_requests input status ctx output); set_solver|].
    rewrite <-live_after.
    eapply did_app; [|by eapply free_output_did].
    destruct (accepted_status status) eqn:Ea.
    - by eapply complete_token_did.
    - rewrite complete_token_rejected in Ec by done. injection Ec as <- <- <-.
      rewrite rejected_no_completion by done. apply did_nothing. }
  destruct freed; [destruct err; [|destruct (accepted_status status) eqn:Ea]|]; simplify_eq; done.
Qed.

Lemma step_all_did self challenges s rs self' s' p t :
  step_all self challenges s = (rs, self', s') -> target_name self = t ->
  did s s' p t (idle self) (idle self') /\ target_name self' = t /\ credentials self' = credentials self.
Proof.
  revert self s rs. induction challenges as [|ch rest IH]; intros self s rs; simpl.
  { intros [= <- <- <-] Ht. split_and!; [apply did_nothing|done|done]. }
  destruct (SspiContext_step self ch s) as [[r self1] s1] eqn:E1.
  destruct (step_all self1 rest s1) as [[rs1 self2] s2] eqn:E2. intros [= <- <- <-] Ht.
  destruct (step_did _ _ _ _ _ _ p t E1 Ht) as (Hd1 & Ht1 & Hc1).
  destruct (IH _ _ _ E2 Ht1) as (Hd2 & Ht2 & Hc2).
  split_and!; [by eapply did_app|done|congruence].
Qed.

Lemma drop_did self s p t : did s (SspiContext_drop self s) p t (idle self) Ended.
Proof.
  unfold SspiContext_drop, idle, live. destruct (has_context self).
  - destruct (DeleteSecurityContext _ _) as [r1 n1].
    destruct (FreeCredentialsHandle (credentials self) (provider (logged s n1 (Deleted (context self))))) as [r2 n2].
    eapply did_app; apply did_one; constructor.
  - destruct (FreeCredentialsHandle (credentials self) (provider s)) as [r2 n2]. apply did_one. constructor.
Qed.

(** A context from its creation to its drop. *)
Lemma sspi_life scheme name s self s1 challenges rs self' s2 :
  SspiContext_new scheme name s = (Ok self, s1) -> step_all self challenges s1 = (rs, self', s2) ->
  did s (SspiContext_drop self' s2) (scheme_package scheme) (encode_utf16 name ++ [0]) Start Ended.
Proof.
  unfold SspiContext_new. destruct (AcquireCredentialsHandleW _ _ _) as [[creds|e] n]; [|done].
  intros [= <- <-] Hsteps. eapply did_app; [apply did_one, api_acquire|].
  eapply did_app; [|apply drop_did]. by eapply step_all_did in Hsteps as (Hd & _ & _).
Qed.
End Context.

(** ** Properties *)

(** C25: Over the whole life of a Windows security context, from new through any number of steps with any challenges and provider answers to its drop, the native calls follow the API's protocol: the credentials are acquired first and freed last, every call uses them and the NUL-terminated target name, the first call passes no context and later ones the live one, completion is called exactly when asked for, every output buffer is freed once before the next call, and a context that came to exist is deleted once. *)
Theorem sspi_lifecycle {N} `{SspiApi N} scheme name (s : native) self s1 challenges rs self' s2 :
  SspiContext_new scheme name s = (Ok self, s1) -> step_all self challenges s1 = (rs, self', s2) ->
  exists evs, calls (SspiContext_drop self' s2) = calls s ++ evs /\
    api_run (scheme_package scheme) (encode_utf16 name ++ [0]) Start evs Ended.
Proof. apply sspi_life. Qed.

(** The statuses that ask for [CompleteAuthToken]. *)
Definition completing (status : SecStatus) : Prop := status = SEC_I_COMPLETE_NEEDED \/ status = SEC_I_COMPLETE_AND_CONTINUE.

Section Calls.
Context {N : Type} `{SspiApi N}.

Lemma complete_token_calls status ctx output (s : native) err output' s' :
  complete_token status ctx output s = (err, output', s') ->
  exists completed, calls s' = calls s ++ completed /\
    (completing status /\ completed = [Completed ctx output'] \/ ~ completing status /\ completed = [] /\ output' = output).
Proof.
  unfold complete_token, completing. destruct (needs_completion status) eqn:En.
  - destruct (CompleteAuthToken _ _ _) as [[r out] n]. intros [= <- <- <-]. eexists. split; [done|]. left. destruct status; naive_solver.
  - intros [= <- <- <-]. exists []. rewrite app_nil_r. split; [done|]. right. destruct status; naive_solver.
Qed.

Lemma free_output_calls output (s : native) r s' :
  free_output output s = (r, s') ->
  calls s' = calls s ++ if pvBuffer output =? 0 then [] else [FreedBuffer (pvBuffer output)].
Proof.
  unfold free_output. destruct (pvBuffer output =? 0); [intros [= <- <-]; by rewrite app_nil_r|].
  destruct (FreeContextBuffer _ _) as [r' n]. by intros [= <- <-].
Qed.
End Calls.

(** C27: A step of a context that is not complete refuses a challenge of 2^32 bytes or more, without a native call and without a change; any other it passes on in one initialization call, after which it calls nothing but CompleteAuthToken, exactly when the status asks for it, and FreeContextBuffer, exactly when the output buffer is not null. It reports a token only for one of the four statuses it knows, and the context becomes complete exactly when it reports a token with SEC_E_OK or SEC_I_COMPLETE_NEEDED; from then on every further step fails with ContextComplete, with no native call and no change. *)
Theorem sspi_step_outcome {N} `{SspiApi N} self challenge (s : native) r self' s' :
  SspiContext_step self challenge s = (r, self', s') -> complete self = false ->
  (forall tok, challenge = Some tok -> 2 ^ 32 <= len tok -> r = Err TokenTooLarge /\ self' = self /\ s' = s) /\
  ((forall tok, challenge = Some tok -> len tok < 2 ^ 32) ->
   exists status ctx output output' completed,
     calls s' = calls s ++ Initialized (credentials self) (live self) (target_name self) context_requests challenge status ctx output ::
       completed ++ (if pvBuffer output' =? 0 then [] else [FreedBuffer (pvBuffer output')]) /\
     (completing status /\ completed = [Completed ctx output'] \/ ~ completing status /\ completed = [] /\ output' = output) /\
     live self' = live_context (live self) status ctx /\
     (forall code, status = OtherStatus code -> exists message, r = Err (Native message)) /\
     (complete self' = true <-> (exists tok, r = Ok tok) /\ (status = SEC_E_OK \/ status = SEC_I_COMPLETE_NEEDED)) /\
     (complete self' = true -> forall later, step_all self' later s' = (replicate (length later) (Err ContextComplete), self', s'))).
Proof.
  intros Hs Hc. unfold SspiContext_step in Hs. rewrite Hc in Hs. split.
  { intros tok -> Hl. simpl in Hs. unfold uint_max in Hs. rewrite (proj2 (Z.leb_gt _ _)) in Hs by lia. by injection Hs as <- <- <-. }
  intros Hl. assert (input_buffer challenge = Ok challenge) as Ei.
  { destruct challenge as [tok|]; [|done]. simpl. specialize (Hl tok eq_refl). unfold uint_max. by rewrite (proj2 (Z.leb_le _ _)) by lia. }
  rewrite Ei in Hs. fold (live self) in Hs.
  destruct (InitializeSecurityContextW _ _ _ _ _ _ _ _) as [[[status ctx] output] n].
  destruct (complete_token _ _ _ _) as [[err output'] s2] eqn:Ec. destruct (free_output output' s2) as [freed s3] eqn:Ef.
  destruct (complete_token_calls _ _ _ _ _ _ _ Ec) as (completed & Hcalls & Hcomp). apply free_output_calls in Ef as Hfreed.
  assert (forall code, status = OtherStatus code -> err = None /\ forall e, freed = Err e -> exists message, e = Native message) as Hother.
  { intros code ->. simpl in Ec. injection Ec as <- <- <-. split; [done|]. intros e ->. unfold free_output in Ef.
    repeat case_match; simplify_eq; destruct r0; simplify_eq/=; eauto. }
  exists status, ctx, output, output', completed. rewrite <-live_after.
  assert (calls s' = calls s3) as -> by (destruct freed; [destruct err; [|destruct (accepted_status status)]|]; by simplify_eq).
  split_and!; [rewrite Hfreed, Hcalls; simpl; by rewrite <-!app_assoc|done|..];
    (destruct freed; [destruct err; [|destruct (accepted_status status) eqn:Ea]|]);
    injection Hs as <- <- <-; unfold set_context, set_complete; simpl; rewrite ?Hc; try done;
    try (by auto using complete_refuses); destruct status; simpl in *; naive_solver.
Qed.

(** ** A provider in two rounds *)

(** Counts its initialization calls; the first asks for a challenge. *)
Global Instance two_rounds : SspiApi Z := {|
  SecHandle := Z;
  SecHandle_default := 0;
  AcquireCredentialsHandleW := fun _ _ n => (Ok 7, n);
  InitializeSecurityContextW := fun _ existing _ _ _ _ _ n =>
    ((if n =? 0 then SEC_I_CONTINUE_NEEDED else SEC_I_COMPLETE_NEEDED, 9,
      {| cbBuffer := 5; pvBuffer := 4096 + n |}), n + 1);
  CompleteAuthToken := fun _ out n => ((Ok tt, out), n);
  from_raw_parts := fun p _ _ => if p =? 4096 then lit "type1" else lit "type3";
  FreeContextBuffer := fun _ n => (Ok tt, n);
  DeleteSecurityContext := fun _ n => (Ok tt, n);
  FreeCredentialsHandle := fun _ n => (Ok tt, n);
|}.

Definition no_calls : native := {| provider := 0; calls := [] |}.

Definition ntlm_context : SspiContext :=
  {| credentials := 7; context := 0; has_context := false; complete := false;
     target_name := encode_utf16 (lit "HTTP/proxy") ++ [0] |}.

Definition ntlm_challenges : list (option bytes) := [None; Some (lit "type2"); Some (lit "again")].

Definition ntlm_started : native := snd (SspiContext_new Ntlm (lit "HTTP/proxy") no_calls).
Definition ntlm_results : list (result AuthError bytes) :=
  [Ok (lit "type1"); Ok (lit "type3"); Err ContextComplete].
Definition ntlm_life := step_all ntlm_context ntlm_challenges ntlm_started.

Lemma sspi_lifecycle_witness :
  SspiContext_new Ntlm (lit "HTTP/proxy") no_calls = (Ok ntlm_context, ntlm_started) /\
  step_all ntlm_context ntlm_challenges ntlm_started = (ntlm_results, snd (fst ntlm_life), snd ntlm_life) /\
  exists evs, calls (SspiContext_drop (snd (fst ntlm_life)) (snd ntlm_life)) = calls no_calls ++ evs /\
    api_run (scheme_package Ntlm) (encode_utf16 (lit "HTTP/proxy") ++ [0]) Start evs Ended.
Proof.
  assert (SspiContext_new Ntlm (lit "HTTP/proxy") no_calls = (Ok ntlm_context, ntlm_started)) as Hn
    by reflexivity.
  assert (step_all ntlm_context ntlm_challenges ntlm_started = (ntlm_results, snd (fst ntlm_life), snd ntlm_life)) as Hs
    by reflexivity.
  split; [exact Hn|]. split; [exact Hs|].
  exact (sspi_lifecycle Ntlm (lit "HTTP/proxy") no_calls ntlm_context ntlm_started ntlm_challenges
    ntlm_results (snd (fst ntlm_life)) (snd ntlm_life) Hn Hs).
Defined.

Definition ntlm_first := SspiContext_step ntlm_context None no_calls.

Lemma sspi_step_outcome_witness :
  SspiContext_step ntlm_context None no_calls = (Ok (lit "type1"), snd (fst ntlm_first), snd ntlm_first) /\
  exists status ctx output output' completed,
    calls (snd ntlm_first) = Initialized 7 None (target_name ntlm_context) context_requests None status ctx output ::
      completed ++ (if pvBuffer output' =? 0 then [] else [FreedBuffer (pvBuffer output')]) /\
    live (snd (fst ntlm_first)) = live_context None status ctx.
Proof.
  assert (SspiContext_step ntlm_context None no_calls = (Ok (lit "type1"), snd (fst ntlm_first), snd ntlm_first)) as E
    by reflexivity.
  split; [exact E|].
  destruct (sspi_step_outcome ntlm_context None no_calls _ _ _ E eq_refl) as [_ Hone].
  destruct Hone as (status & ctx & output & output' & completed & Hcalls & _ & Hl & _); [discriminate|].
  exists status, ctx, output, output', completed. split; [exact Hcalls|exact Hl].
Defined.
