(* ===== verification/Provider.v ===== *)
(** * Provider: the tunnel logic over a stateful authentication provider

    [establish_upstream_tunnel] of src/server.rs is proved for any provider;
    here the provider has a state of its own that nothing else touches, as the
    Windows one of src/auth.rs has.  The world is a network and a provider
    side by side, and the theorems say how an exchange uses the provider:
    which calls reach it, in which order, and on which context. *)

From S2P Require Import Prelude RustStr RustNet Config Routing Auth Io Http1 Http1Body Relay Challenge Base64 Server Scenario Errors Handshake Tunnel Wire Protocol Sspi.

(** ** A network and a provider side by side *)

Section Product.
Context {A B : Type} `{Network A} `{P : AuthFactory B}.

Definition on_fst {R} (f : A -> R * A) (w : A * B) : R * (A * B) := let '(r, a) := f (fst w) in (r, (a, snd w)).
Definition on_snd {R} (f : B -> R * B) (w : A * B) : R * (A * B) := let '(r, b) := f (snd w) in (r, (fst w, b)).

Global Instance product_network : Network (A * B) := {|
  net_read := fun s n => on_fst (net_read s n);
  net_write_all := fun s data => on_fst (net_write_all s data);
  net_set_nodelay := fun s => on_fst (net_set_nodelay s);
  net_connect := fun target limit => on_fst (net_connect target limit);
  net_lookup := fun host port limit => on_fst (net_lookup host port limit);
|}.

Global Instance product_provider : AuthFactory (A * B) := {|
  AuthContext := @AuthContext B P;
  create := fun scheme name => on_snd (create scheme name);
  step := fun ctx challenge => on_snd (step ctx challenge);
|}.

(** The messages of the pair are those of its provider. *)
Global Instance product_provider_line `{!OneLineProvider B} : OneLineProvider (A * B).
Proof.
  split; simpl; unfold on_snd.
  - intros scheme nm [a b] message w'. simpl. destruct (create scheme nm b) as [r b'] eqn:Ec. intros [= -> _].
    by eapply create_line.
  - intros ctx challenge [a b] message ctx' w'. simpl. destruct (step ctx challenge b) as [[r ctx1] b'] eqn:Ec.
    intros [= -> _ _]. by eapply step_line.
Qed.

Global Instance product_tokens `{!ByteTokens B} : ByteTokens (A * B).
Proof.
  intros ctx challenge [a b] tok ctx' w'. simpl. unfold on_snd. simpl.
  destruct (@step B P ctx challenge b) as [[r ctx1] b'] eqn:Ec.
  intros [= -> _ _]. by eapply token_u8.
Qed.

(** A context stepped with one challenge after the other. *)
Fixpoint steps (ctx : @AuthContext B P) (challenges : list (option bytes)) (b : B) :
  list (result AuthError bytes) * @AuthContext B P * B :=
  match challenges with
  | [] => ([], ctx, b)
  | challenge :: rest =>
    let '((r, ctx), b) := step ctx challenge b in
    let '((rs, ctx), b) := steps ctx rest b in
    (r :: rs, ctx, b)
  end.

(** The steps in a log. *)
Definition logged_steps (evs : list event) : list (option bytes * result AuthError bytes) :=
  omap (fun ev => match ev with EvAuthStep challenge r => Some (challenge, r) | _ => None end) evs.

Lemma logged_steps_app a b : logged_steps (a ++ b) = logged_steps a ++ logged_steps b.
Proof. apply omap_app. Qed.

Lemma logged_steps_none evs : count is_step evs = 0%nat -> logged_steps evs = [].
Proof.
  unfold count. induction evs as [|ev evs IH]; [done|]. simpl. destruct ev; simpl; try done; auto.
Qed.

(** ** Parts that leave the provider alone *)

Abbreviation state := (st (A * B)).

Definition quiet {E R} (m : M (A * B) E R) : Prop :=
  forall s, snd (world (snd (m s))) = snd (world s) /\
    logged_steps (trace (snd (m s))) = logged_steps (trace s).

Lemma quiet_pure {E R} (m : M (A * B) E R) : (forall s, snd (m s) = s) -> quiet m.
Proof. intros Hm s. by rewrite Hm. Qed.

Lemma quiet_lift {E R} (r : result E R) : quiet (lift r).
Proof. apply quiet_pure. by destruct r. Qed.

Lemma quiet_bind {E R R'} (m : M (A * B) E R) (k : R -> M (A * B) E R') :
  quiet m -> (forall a, quiet (k a)) -> quiet (m ≫= k).
Proof.
  intros Hm Hk s. destruct (Hm s) as [Hw Ht]. unfold mbind, M_bind. destruct (m s) as [[a|e|] s1]; [|done|done].
  destruct (Hk a s1) as [Hw2 Ht2]. simpl in *. split; congruence.
Qed.

Lemma quiet_act {E R} (f : A -> R * A) ev :
  (forall r, logged_steps [ev r] = []) -> quiet (E := E) (act (on_fst f) ev).
Proof.
  intros He s. unfold act, on_fst. destruct (f (fst (world s))) as [r a]. simpl.
  by rewrite logged_steps_app, He, app_nil_r.
Qed.

(** An exchange without steps, of a program that keeps the provider's state. *)
Lemma quiet_exchange {E R} k n (m : M (A * B) E R) Q :
  (forall b, keeps (fun w => snd w = b) m) -> performs (on_conn k) is_step is_write 0 n m Q -> quiet m.
Proof.
  intros Hk Hm s. split; [by apply (Hk (snd (world s)) s)|].
  destruct (m s) as [o s1] eqn:E1. destruct (Hm s o s1 E1) as (evs & Ht & [(_ & Hc & _) _]). simpl.
  rewrite Ht, logged_steps_app, (logged_steps_none evs) by lia. apply app_nil_r.
Qed.

(** Reading does not touch the provider. *)
Lemma product_read b j n (w : A * B) r w' : snd w = b -> net_read j n w = (r, w') -> snd w' = b.
Proof. simpl. unfold on_fst. destruct (net_read j n (fst w)) as [r1 a]. intros <- [= <- <-]. done. Qed.

(** ** Programs that step a context *)

(** [threads n ctx m]: [m] does nothing to the provider but step [ctx], at
    most [n] times, each time on the context the step before left; the log
    has the challenges and the results. *)
Definition threads {E R} (n : nat) (ctx : @AuthContext B P) (m : M (A * B) E R) : Prop :=
  forall s, exists challenges rs ctx', (length challenges <= n)%nat /\
    steps ctx challenges (snd (world s)) = (rs, ctx', snd (world (snd (m s)))) /\
    logged_steps (trace (snd (m s))) = logged_steps (trace s) ++ zip challenges rs.

Lemma threads_quiet {E R} n ctx (m : M (A * B) E R) : quiet m -> threads n ctx m.
Proof.
  intros Hm s. destruct (Hm s) as [Hw Ht]. exists [], [], ctx. simpl. rewrite Hw, Ht, app_nil_r.
  split_and!; [lia|done|done].
Qed.

Lemma threads_bind {E R R'} n ctx (m : M (A * B) E R) (k : R -> M (A * B) E R') :
  quiet m -> (forall a, threads n ctx (k a)) -> threads n ctx (m ≫= k).
Proof.
  intros Hm Hk s. destruct (Hm s) as [Hw Ht]. unfold mbind, M_bind. destruct (m s) as [[a|e|] s1]; simpl in *.
  - destruct (Hk a s1) as (chs & rs & ctx' & Hn & Hs & Hl). exists chs, rs, ctx'. by rewrite <-Hw, <-Ht.
  - exists [], [], ctx. simpl. rewrite Hw, Ht, app_nil_r. split_and!; [lia|done|done].
  - exists [], [], ctx. simpl. rewrite Hw, Ht, app_nil_r. split_and!; [lia|done|done].
Qed.

Lemma threads_step {E R} n ctx challenge (k : result AuthError bytes * @AuthContext B P -> M (A * B) E R) :
  (forall r ctx', threads n ctx' (k (r, ctx'))) -> threads (S n) ctx (auth_step (W := A * B) ctx challenge ≫= k).
Proof.
  intros Hk s. unfold mbind, M_bind, auth_step, act. simpl. unfold on_snd.
  destruct (step ctx challenge (snd (world s))) as [[r ctx1] b1] eqn:Es.
  destruct (Hk r ctx1 (Build_st (fst (world s), b1) (trace s ++ [EvAuthStep challenge r]))) as (chs & rs & ctx' & Hn & Hs & Hl).
  exists (challenge :: chs), (r :: rs), ctx'. simpl in *. rewrite Es, Hs. split_and!; [lia|done|].
  rewrite Hl, logged_steps_app, <-app_assoc. done.
Qed.

Lemma threads_ok {E R R'} n ctx (a : R) (k : R -> M (A * B) E R') : threads n ctx (k a) -> threads n ctx (lift (Ok a) ≫= k).
Proof. intros Hk s. apply Hk. Qed.

(** ** The exchange *)

Context `{Httparse} `{Base64} (config : ProxyConfig) (fuel : nat).

Hint Resolve keeps_read_response_head keeps_drain_response_body : keeps.
Hint Resolve product_read : core.

Lemma next_response_quiet up : quiet (next_response config fuel up).
Proof.
  eapply quiet_exchange; [|apply next_response_exchanges]. intros b. apply keeps_mapE, keeps_read_response_head. eauto.
Qed.

Lemma drain_quiet up response : quiet (mapE Proxy_Http (drain_response_body fuel up response)).
Proof.
  eapply quiet_exchange; [|apply performs_mapE, drain_response_body_exchanges].
  intros b. apply keeps_mapE, keeps_drain_response_body. eauto.
Qed.

Lemma io_try_quiet {R} (m : M (A * B) ProxyError (result IoError R)) : quiet m -> quiet (io_try m).
Proof. intros Hm. apply quiet_bind; [done|]. intros r. apply quiet_lift. Qed.

Lemma request_quiet s d a : quiet (send_connect_request s d a).
Proof. by apply io_try_quiet, quiet_act. Qed.

Lemma connect_quiet : quiet (connect_upstream config).
Proof.
  apply quiet_bind; [by apply quiet_act|]. intros [r|]; [|by apply quiet_pure].
  apply quiet_bind; [apply quiet_lift|]. intros s.
  apply quiet_bind; [by apply io_try_quiet, quiet_act|]. intros _. by apply quiet_pure.
Qed.

Lemma auth_rounds_threads rounds d scheme ctx up response challenge drain :
  threads rounds ctx (auth_rounds (W := A * B) config fuel rounds d scheme ctx up response challenge drain).
Proof.
  revert ctx up response challenge drain. induction rounds as [|rounds IH]; intros ctx up response challenge drain;
    cbn [auth_rounds]; [by apply threads_quiet, quiet_pure|].
  apply threads_bind.
  { destruct drain; [|by apply quiet_pure]. destruct (connection_close response); [by apply quiet_pure|apply drain_quiet]. }
  intros up1. apply threads_step. intros r ctx1. apply threads_bind; [apply quiet_lift|]. intros tok.
  apply threads_bind; [apply request_quiet|]. intros _. apply threads_bind; [apply next_response_quiet|]. intros [response1 up2].
  destruct (is_connect_success response1); [by apply threads_quiet, quiet_pure|].
  destruct (negb _); [by apply threads_quiet, quiet_pure|].
  apply threads_bind; [apply quiet_lift|]. intros found. apply threads_bind; [apply quiet_lift|]. intros challenge1. apply IH.
Qed.

(** ** Creating the context *)

Definition service_name : str := lit "HTTP/" ++ endpoint_host (upstream config).

(** What an exchange may do to a provider. *)
Inductive provider_use (b : B) : B -> list (option bytes * result AuthError bytes) -> Prop :=
| provider_unused : provider_use b b []
| provider_refuses scheme e b' : create scheme service_name b = (Err e, b') -> provider_use b b' []
| provider_stepped scheme ctx b1 challenges rs ctx' b' :
    create scheme service_name b = (Ok ctx, b1) -> (length challenges <= MAX_AUTH_ROUNDS)%nat ->
    steps ctx challenges b1 = (rs, ctx', b') -> provider_use b b' (zip challenges rs).

Definition uses_provider {E R} (m : M (A * B) E R) : Prop :=
  forall s, exists l, provider_use (snd (world s)) (snd (world (snd (m s)))) l /\
    logged_steps (trace (snd (m s))) = logged_steps (trace s) ++ l.

Lemma uses_provider_quiet {E R} (m : M (A * B) E R) : quiet m -> uses_provider m.
Proof. intros Hm s. destruct (Hm s) as [Hw Ht]. exists []. rewrite Hw, Ht, app_nil_r. split; [constructor|done]. Qed.

Lemma uses_provider_bind {E R R'} (m : M (A * B) E R) (k : R -> M (A * B) E R') :
  quiet m -> (forall a, uses_provider (k a)) -> uses_provider (m ≫= k).
Proof.
  intros Hm Hk s. pose proof (uses_provider_quiet m Hm s) as Hq. destruct (Hm s) as [Hw Ht].
  unfold mbind, M_bind. destruct (m s) as [[a|e|] s1]; [|done|done]. simpl in *. rewrite <-Hw, <-Ht. apply Hk.
Qed.

Lemma uses_provider_create {E R} scheme (k : result AuthError (@AuthContext B P) -> M (A * B) E R) :
  (forall e, quiet (k (Err e))) -> (forall ctx, threads MAX_AUTH_ROUNDS ctx (k (Ok ctx))) ->
  uses_provider (auth_create (W := A * B) scheme service_name ≫= k).
Proof.
  intros He Hk s. unfold mbind, M_bind, auth_create, act. simpl. unfold on_snd.
  destruct (create scheme service_name (snd (world s))) as [[ctx|e] b1] eqn:Ec.
  - destruct (Hk ctx (Build_st (fst (world s), b1) (trace s ++ [EvAuthCreate scheme service_name])))
      as (chs & rs & ctx' & Hn & Hs & Hl). simpl in *. exists (zip chs rs). split; [by eapply provider_stepped|].
    rewrite Hl, logged_steps_app, app_nil_r. done.
  - destruct (He e (Build_st (fst (world s), b1) (trace s ++ [EvAuthCreate scheme service_name]))) as [Hw Ht].
    simpl in *. exists []. rewrite Hw, Ht, logged_steps_app, !app_nil_r. split; [by eapply provider_refuses|done].
Qed.

Lemma establish_uses_provider d : uses_provider (establish_upstream_tunnel config fuel d).
Proof.
  apply uses_provider_bind; [apply connect_quiet|]. intros up.
  apply uses_provider_bind; [apply request_quiet|]. intros _.
  apply uses_provider_bind; [apply next_response_quiet|]. intros [response up1].
  destruct (is_connect_success response); [by apply uses_provider_quiet, quiet_pure|].
  destruct (negb _); [by apply uses_provider_quiet, quiet_pure|].
  destruct (decide _); [by apply uses_provider_quiet, quiet_pure|].
  apply uses_provider_bind; [apply quiet_lift|]. intros [scheme first]. apply uses_provider_create.
  - intros e. by apply quiet_pure.
  - intros ctx. apply (threads_ok _ _ ctx). apply threads_bind; [apply quiet_lift|]. intros challenge.
    destruct (connection_close response); [|apply auth_rounds_threads].
    destruct challenge; [by apply threads_quiet, quiet_pure|].
    apply threads_bind; [apply connect_quiet|]. intros up2. apply auth_rounds_threads.
Qed.
End Product.

(** ** The Windows provider *)

Section Windows.
Context {N : Type} `{SspiApi N}.

(** [steps] at the Windows provider is the life of an [SspiContext]. *)
Lemma steps_step_all (self : SspiContext) challenges (s : native) :
  steps (P := NativeAuthFactory_windows) self challenges s = step_all self challenges s.
Proof.
  revert self s. induction challenges as [|ch rest IH]; intros self s; [done|]. simpl.
  destruct (SspiContext_step self ch s) as [[r self1] s1]. by rewrite IH.
Qed.

(** The error texts of Windows are single lines. *)
Class OneLineApi : Prop := {
  acquire_line package use n message n' : AcquireCredentialsHandleW package use n = (Err message, n') -> one_line message;
  complete_line ctx out n message out' n' : CompleteAuthToken ctx out n = (Err message, out', n') -> one_line message;
  free_line address n message n' : FreeContextBuffer address n = (Err message, n') -> one_line message;
}.

Lemma one_line_hresult code : one_line (fmt_hresult code).
Proof.
  assert (forall n, one_line (replicate n 48)) as Hz by (induction n; done).
  unfold fmt_hresult. rewrite !one_line_app. split_and!; [done|apply Hz|].
  apply one_line_fmt_x. unfold wrap. apply Z.mod_pos_bound. lia.
Qed.

(** Then so are the messages of [SspiContext], its own of an unexpected status included. *)
Global Instance windows_provider_line `{!OneLineApi} : OneLineProvider (native (N := N)).
Proof.
  split; simpl.
  - intros scheme nm s message s'. unfold SspiContext_new. destruct (AcquireCredentialsHandleW _ _ _) as [[c|m] n] eqn:Ea; [done|].
    intros [= <- _]. by eapply acquire_line.
  - intros self challenge s message self' s'. unfold SspiContext_step. destruct (complete self); [done|].
    destruct (input_buffer challenge) as [input|[]] eqn:Ei; [|by destruct challenge as [t|]; simpl in Ei; try case_match..].
    destruct (InitializeSecurityContextW _ _ _ _ _ _ _ _) as [[[status ctx] output] n]. unfold complete_token, free_output.
    assert (one_line (lit "InitializeSecurityContextW returned " ++ fmt_hresult (status_code status))) as Hm
      by (apply one_line_app; split; [done|apply one_line_hresult]).
    generalize dependent (lit "InitializeSecurityContextW returned " ++ fmt_hresult (status_code status)). intros m Hm.
    repeat case_match; simplify_eq/=; try done; intros; simplify_eq; eauto using complete_line, free_line;
      by match goal with F : map_err Native ?r = _ |- _ => destruct r; simplify_eq/=; eapply free_line end.
Qed.

(** What is read from a buffer of Windows is bytes, and so are the tokens. *)
Class ByteBuffers : Prop := buffer_u8 address length n : Forall is_u8 (from_raw_parts address length n).

Global Instance windows_tokens `{!ByteBuffers} : ByteTokens (native (N := N)).
Proof.
  intros self challenge s tok self' s'. simpl. unfold SspiContext_step. destruct (complete self); [done|].
  destruct (input_buffer challenge); [|done]. destruct (InitializeSecurityContextW _ _ _ _ _ _ _ _) as [[[status ctx] output] n].
  destruct (complete_token _ _ _ _) as [[err output'] s2]. destruct (free_output output' s2) as [[[]|] s3]; [|done].
  destruct err; [done|]. destruct (accepted_status status); [|done]. intros [= <- _ _].
  unfold output_token. destruct (_ || _); [done|apply buffer_u8].
Qed.
End Windows.

(** ** Properties *)

(** An exchange with the upstream proxy uses an authentication provider, whatever it is, in one way: not at all; or it asks for one context, for the service HTTP/host of the upstream, that is refused; or it gets that context and steps it at most four times, each step on the context the one before left and with the challenges and results of the log.  Nothing else the exchange does touches the provider's state. *)
Theorem exchange_provider_use {A B} `{Network A} `{P : AuthFactory B} `{Httparse} `{Base64} config fuel d (s : st (A * B)) o s' :
  establish_upstream_tunnel config fuel d s = (o, s') ->
  exists l, provider_use config (snd (world s)) (snd (world s')) l /\
    logged_steps (trace s') = logged_steps (trace s) ++ l.
Proof. intros Hrun. pose proof (establish_uses_provider config fuel d s) as Hu. by rewrite Hrun in Hu. Qed.

(** C26: With the Windows provider an exchange leaks nothing: it makes no native call, or only an acquisition that failed, or it holds one security context when it returns, with a token or an error, and with the drop of that context the native calls it has made are a complete run of the API's protocol, in which the credentials are freed, every output buffer is freed and a context that came to exist is deleted. *)
Theorem exchange_frees_handles {A N} `{Network A} `{SspiApi N} `{Httparse} `{Base64} config fuel d (s : st (A * native (N := N))) o s' :
  establish_upstream_tunnel config fuel d s = (o, s') ->
  calls (snd (world s')) = calls (snd (world s)) \/
  (exists scheme message, calls (snd (world s')) = calls (snd (world s)) ++ [Acquired (scheme_package scheme) SECPKG_CRED_OUTBOUND (Err message)]) \/
  exists scheme held s1 challenges rs held',
    SspiContext_new scheme (service_name config) (snd (world s)) = (Ok held, s1) /\
    step_all held challenges s1 = (rs, held', snd (world s')) /\ (length challenges <= MAX_AUTH_ROUNDS)%nat /\
    logged_steps (trace s') = logged_steps (trace s) ++ zip challenges rs /\
    exists evs, calls (SspiContext_drop held' (snd (world s'))) = calls (snd (world s)) ++ evs /\
      api_run (scheme_package scheme) (encode_utf16 (service_name config) ++ [0]) Start evs Ended.
Proof.
  intros Hrun. pose proof (establish_uses_provider config fuel d s) as Hu. rewrite Hrun in Hu.
  destruct Hu as (l & Hu & Hl). simpl in Hu, Hl. destruct Hu as [|scheme e b' Hc|scheme held s1 challenges rs held' b' Hc Hn Hs].
  - by left.
  - right. left. exists scheme. simpl in Hc. unfold SspiContext_new in Hc.
    destruct (AcquireCredentialsHandleW _ _ _) as [[creds|message] n]; [done|]. injection Hc as <- <-. by exists message.
  - right. right. rewrite steps_step_all in Hs. exists scheme, held, s1, challenges, rs, held'.
    split_and!; [done|done|done|done|]. by eapply sspi_life.
Qed.

(** ** An NTLM exchange through the Windows provider *)

(** The API of this run never fails. *)
Lemma quiet_api_line : OneLineApi (N := Z).
Proof. split; done. Qed.

Definition windows_world : st (Script * native) := Build_st (world ntlm_world, no_calls) [].

Lemma exchange_provider_use_witness :
  exists o s', establish_upstream_tunnel ntlm_config fuel0 service windows_world = (o, s') /\
    exists l, provider_use ntlm_config no_calls (snd (world s')) l /\ logged_steps (trace s') = l.
Proof.
  destruct (establish_upstream_tunnel ntlm_config fuel0 service windows_world) as [o s'] eqn:E. exists o, s'.
  split; [reflexivity|]. exact (exchange_provider_use ntlm_config fuel0 service windows_world o s' E).
Defined.

Lemma exchange_frees_handles_witness :
  exists scheme held s1 challenges rs held' s',
    step_all held challenges s1 = (rs, held', s') /\
    zip challenges rs = [(None, Ok (lit "type1")); (Some (lit "type2"), Ok (lit "type3"))] /\
    exists evs, calls (SspiContext_drop held' s') = evs /\
      api_run (scheme_package scheme) (encode_utf16 (lit "HTTP/127.0.0.1") ++ [0]) Start evs Ended.
Proof.
  destruct (establish_upstream_tunnel ntlm_config fuel0 service windows_world) as [o s'] eqn:E.
  pose proof (f_equal (fun r => length (calls (snd (world (snd r))))) E) as El.
  pose proof (f_equal (fun r => logged_steps (trace (snd r))) E) as Et. cbn [snd] in El, Et.
  destruct (exchange_frees_handles ntlm_config fuel0 service windows_world o s' E)
    as [Hc|[(scheme & message & Hc)|(scheme & held & s1 & chs & rs & held' & Hn & Hs & _ & Hl & evs & Hc & Ha)]].
  - rewrite Hc in El. vm_compute in El. discriminate El.
  - rewrite Hc in El. vm_compute in El. discriminate El.
  - exists scheme, held, s1, chs, rs, held', (snd (world s')). split; [exact Hs|]. split; [|exists evs; split; [exact Hc|exact Ha]].
    transitivity (logged_steps (trace s')); [symmetry; exact Hl|]. rewrite <-Et. vm_compute. reflexivity.
Defined.
