(* ===== verification/Serve.v ===== *)
(** * Serve: the accept loop and the connection limit of src/server.rs

    [Proxy::with_auth_factory] and [Proxy::serve_until].  A proxy is shared:
    several loops may serve on it at once and all of them draw permits from
    one semaphore.  The runtime decides in which order futures are polled, so
    the system is a step function on events, and the theorems are invariants
    of every sequence of them.  [Arc] clones share the state they point to;
    the result of a client task is only logged, so a task is known here by
    its socket. *)

From S2P Require Import Prelude RustStr RustNet Config Auth Io.

(** ** State *)

(** Where a [serve_until] call is: at the first [select!], at the second one
    (holding a permit), or done. *)
Inductive LoopPhase :=
| Acquiring
| Accepting
| Returned (r : result IoError unit).

Record ServeLoop := {
  phase : LoopPhase;
  shutdown : bool;        (* the [shutdown] future has completed *)
  accepted : list sock;   (* clients this loop has accepted, for the theorems *)
}.

Record ServerState := {
  available : Z;          (* permits in the semaphore *)
  closed : bool;          (* the semaphore is closed; nothing does so *)
  loops : list ServeLoop;
  tasks : list sock;      (* spawned client tasks, each holding a permit *)
  finished : list sock;   (* clients whose task has ended *)
}.

(** What can happen next. *)
Inductive ServeEvent :=
| Serve                                             (* serve_until is called *)
| ShutdownRequested (i : nat)                       (* its shutdown completes *)
| PollPermit (i : nat)                              (* the first select is polled *)
| PollAccept (i : nat) (r : option (result IoError sock))  (* the second one; None is pending *)
| TaskEnd (k : nat).                                (* a client task returns or panics *)

(** ** Operations *)

(** [Semaphore::new] panics above its documented maximum, [usize::MAX >> 3]. *)
Definition MAX_PERMITS : Z := Z.shiftr (uint_max 64) 3.

Definition Semaphore_new (permits : Z) : option Z := if permits <=? MAX_PERMITS then Some permits else None.

(** [None] is the panic. *)
Definition with_auth_factory (config : ProxyConfig) : option ServerState :=
  permits ← Semaphore_new (max_connections config);
  mret {| available := permits; closed := false; loops := []; tasks := []; finished := [] |}.

Definition set_phase (l : ServeLoop) (p : LoopPhase) : ServeLoop :=
  {| phase := p; shutdown := shutdown l; accepted := accepted l |}.

Definition set_loop (s : ServerState) (i : nat) (l : ServeLoop) (permits : Z) : ServerState :=
  {| available := permits; closed := closed s; loops := <[i := l]> (loops s); tasks := tasks s; finished := finished s |}.

(** The first [select!], biased: shutdown first, then the permit, which is
    refused by a closed semaphore. *)
Definition poll_permit (s : ServerState) (i : nat) (l : ServeLoop) : ServerState :=
  if shutdown l then set_loop s i (set_phase l (Returned (Ok tt))) (available s)
  else if closed s then set_loop s i (set_phase l (Returned (Ok tt))) (available s)
  else if 0 <? available s then set_loop s i (set_phase l Accepting) (available s - 1)
  else s.

(** The second [select!]: leaving it without spawning drops the permit. *)
Definition poll_accept (s : ServerState) (i : nat) (l : ServeLoop) (r : option (result IoError sock)) : ServerState :=
  if shutdown l then set_loop s i (set_phase l (Returned (Ok tt))) (available s + 1)
  else
    match r with
    | None => s
    | Some (Err e) => set_loop s i (set_phase l (Returned (Err e))) (available s + 1)
    | Some (Ok client) =>
      {| available := available s; closed := closed s;
         loops := <[i := {| phase := Acquiring; shutdown := shutdown l; accepted := accepted l ++ [client] |}]> (loops s);
         tasks := tasks s ++ [client]; finished := finished s |}
    end.

Definition serve_step (s : ServerState) (ev : ServeEvent) : ServerState :=
  match ev with
  | Serve =>
    {| available := available s; closed := closed s; loops := loops s ++ [{| phase := Acquiring; shutdown := false; accepted := [] |}];
       tasks := tasks s; finished := finished s |}
  | ShutdownRequested i =>
    match loops s !! i with
    | Some l => set_loop s i {| phase := phase l; shutdown := true; accepted := accepted l |} (available s)
    | None => s
    end
  | PollPermit i =>
    match loops s !! i with
    | Some l => match phase l with Acquiring => poll_permit s i l | _ => s end
    | None => s
    end
  | PollAccept i r =>
    match loops s !! i with
    | Some l => match phase l with Accepting => poll_accept s i l r | _ => s end
    | None => s
    end
  | TaskEnd k =>
    match tasks s !! k with
    | Some client =>
      {| available := available s + 1; closed := closed s; loops := loops s; tasks := delete k (tasks s);
         finished := finished s ++ [client] |}
    | None => s
    end
  end.

Definition serve_run (s : ServerState) (evs : list ServeEvent) : ServerState := foldl serve_step s evs.

Inductive serve_reachable (config : ProxyConfig) : ServerState -> Prop :=
| serve_initial s : with_auth_factory config = Some s -> serve_reachable config s
| serve_next s ev : serve_reachable config s -> serve_reachable config (serve_step s ev).

(** ** The invariant *)

(** Permits held by loops between their two [select!]s. *)
Definition holds (l : ServeLoop) : Z := match phase l with Accepting => 1 | _ => 0 end.
Definition held (ls : list ServeLoop) : Z := foldr (fun l n => holds l + n) 0 ls.

Definition permits_conserved (config : ProxyConfig) (s : ServerState) : Prop :=
  0 <= available s /\ available s + held (loops s) + len (tasks s) = max_connections config.

Lemma held_app a b : held (a ++ b) = held a + held b.
Proof. induction a as [|l a IH]; simpl; [done|]. unfold held in *. simpl. lia. Qed.

Lemma held_insert ls i l l' : ls !! i = Some l -> held (<[i := l']> ls) = held ls - holds l + holds l'.
Proof.
  revert i. induction ls as [|x ls IH]; intros [|i]; simpl; [done|done| |].
  - intros [= ->]. lia.
  - intros Hi. specialize (IH i Hi). unfold held in *. lia.
Qed.

Lemma held_nonneg ls : 0 <= held ls.
Proof. induction ls as [|l ls IH]; simpl; [done|]. unfold holds. destruct (phase l); unfold held in *; lia. Qed.

Lemma len_delete {A} k (l : list A) x : l !! k = Some x -> len (delete k l) = len l - 1.
Proof.
  intros Hk. unfold len. rewrite length_delete by eauto. apply lookup_lt_Some in Hk. lia.
Qed.

Ltac serve_cases :=
  repeat match goal with
  | |- context [match ?x with _ => _ end] => destruct x eqn:?; simpl
  end.

Lemma serve_step_permits config s ev : permits_conserved config s -> permits_conserved config (serve_step s ev).
Proof.
  intros [Ha Hm]. unfold permits_conserved, serve_step, poll_permit, poll_accept.
  serve_cases; try done; destr_bool;
    rewrite ?held_app, ?len_app; try (erewrite held_insert by eassumption);
    try (erewrite len_delete by eassumption);
    simpl in *; unfold holds, set_phase, len in *; simpl in *;
    repeat match goal with Hp : phase _ = _ |- _ => rewrite Hp in * end; lia.
Qed.

Lemma serve_reachable_permits config s : 0 <= max_connections config -> serve_reachable config s -> permits_conserved config s.
Proof.
  intros H0. induction 1 as [s Hs|s ev _ IH]; [|by apply serve_step_permits].
  unfold with_auth_factory, Semaphore_new in Hs. destruct (_ <=? _); simplify_option_eq.
  split; simpl; unfold len; simpl; lia.
Qed.

(** ** Clients *)

(** Every accepted client has one task, running or ended. *)
Definition clients_conserved (s : ServerState) : Prop :=
  (loops s ≫= accepted) ≡ₚ tasks s ++ finished s.

Lemma bind_insert_same ls i l l' :
  ls !! i = Some l -> accepted l' = accepted l -> <[i := l']> ls ≫= accepted = ls ≫= accepted.
Proof.
  revert i. induction ls as [|x ls IH]; intros [|i]; simpl; [done|done| |].
  - intros [= ->] ->. done.
  - intros Hi Ha. f_equal. by apply IH.
Qed.

Lemma bind_insert_snoc ls i l l' c :
  ls !! i = Some l -> accepted l' = accepted l ++ [c] -> <[i := l']> ls ≫= accepted ≡ₚ c :: (ls ≫= accepted).
Proof.
  revert i. induction ls as [|x ls IH]; intros [|i]; simpl; [done|done| |].
  - intros [= ->] ->. solve_Permutation.
  - intros Hi Ha. rewrite (IH i Hi Ha). solve_Permutation.
Qed.

Lemma serve_step_clients s ev : clients_conserved s -> clients_conserved (serve_step s ev).
Proof.
  intros Hc. unfold clients_conserved, serve_step, poll_permit, poll_accept in *.
  serve_cases; try done;
    try (erewrite bind_insert_same by (eassumption || reflexivity); done).
  - rewrite bind_app. simpl. by rewrite app_nil_r.
  - erewrite bind_insert_snoc by (eassumption || reflexivity). rewrite Hc. solve_Permutation.
  - etrans; [exact Hc|]. etrans; [eapply Permutation_app_tail, delete_Permutation; eassumption|]. solve_Permutation.
Qed.

Lemma serve_reachable_clients config s : serve_reachable config s -> clients_conserved s.
Proof.
  induction 1 as [s Hs|s ev _ IH]; [|by apply serve_step_clients].
  unfold with_auth_factory, Semaphore_new in Hs. destruct (_ <=? _); simplify_option_eq. by unfold clients_conserved.
Qed.

(** ** Shutdown *)

(** What a loop that has been told to stop has accepted. *)
Definition stopped_with (i : nat) (clients : list sock) (s : ServerState) : Prop :=
  exists l, loops s !! i = Some l /\ shutdown l = true /\ accepted l = clients.

Lemma stopped_insert (i j : nat) l l' clients (ls : list ServeLoop) :
  ls !! j = Some l -> (shutdown l = true -> shutdown l' = true) -> accepted l' = accepted l ->
  (exists x, ls !! i = Some x /\ shutdown x = true /\ accepted x = clients) ->
  exists x, <[j := l']> ls !! i = Some x /\ shutdown x = true /\ accepted x = clients.
Proof.
  intros Hj Hs Ha (x & Hi & Hx & Hc). destruct (decide (i = j)) as [->|].
  - exists l'. simplify_eq. split_and!; [by eapply list_lookup_insert_eq, lookup_lt_Some|auto|done].
  - exists x. by rewrite list_lookup_insert_ne.
Qed.

Lemma serve_step_stopped i clients s ev : stopped_with i clients s -> stopped_with i clients (serve_step s ev).
Proof.
  unfold stopped_with, serve_step, poll_permit, poll_accept. intros Hx.
  serve_cases; try done; try (by eapply stopped_insert).
  - destruct Hx as (x & Hi & ?). exists x. rewrite lookup_app_l by (by eapply lookup_lt_Some). done.
  - destruct Hx as (x & Hi & Hs & Hc). exists x. rewrite list_lookup_insert_ne; [done|]. intros ->. congruence.
Qed.

Lemma serve_run_stopped i clients s evs : stopped_with i clients s -> stopped_with i clients (serve_run s evs).
Proof. revert s. induction evs as [|ev evs IH]; intros s Hs; [done|]. by apply IH, serve_step_stopped. Qed.

(** Nothing closes the semaphore. *)
Lemma serve_reachable_open config s : serve_reachable config s -> closed s = false.
Proof.
  induction 1 as [s Hs|s ev _ IH].
  - unfold with_auth_factory, Semaphore_new in Hs. destruct (_ <=? _); by simplify_option_eq.
  - unfold serve_step, poll_permit, poll_accept, set_loop. serve_cases; done.
Qed.

(** Both polls of an admission, as one transition. *)
Lemma admission_run s i l client :
  closed s = false -> loops s !! i = Some l -> phase l = Acquiring -> shutdown l = false ->
  serve_run s [PollPermit i; PollAccept i (Some (Ok client))] =
    if 0 <? available s then
      {| available := available s - 1; closed := closed s;
         loops := <[i := {| phase := Acquiring; shutdown := false; accepted := accepted l ++ [client] |}]> (loops s);
         tasks := tasks s ++ [client]; finished := finished s |}
    else s.
Proof.
  intros Ho Hi Hp Hs. assert (i < length (loops s))%nat as Hlt by (by eapply lookup_lt_Some).
  unfold serve_run. cbn [foldl]. unfold serve_step at 2. rewrite Hi, Hp. unfold poll_permit.
  rewrite Hs, Ho. destruct (0 <? available s).
  - unfold serve_step, set_loop. simpl. rewrite list_lookup_insert_eq by done. simpl.
    unfold poll_accept. simpl. rewrite Hs. rewrite list_insert_insert_eq, Ho. done.
  - unfold serve_step. by rewrite Hi, Hp.
Qed.

(** ** Properties *)

(** C23: However polls, accepts, shutdowns and ends of tasks interleave, and however many loops serve on the proxy, the permits in the semaphore, those held by loops that wait for a client and those of running client tasks add up to max_connections: never more clients than that are handled at once, and no permit is lost when loops return and tasks end. *)
Theorem connection_limit config s :
  0 <= max_connections config -> serve_reachable config s ->
  0 <= available s /\
  available s + held (loops s) + len (tasks s) = max_connections config /\
  len (tasks s) <= max_connections config /\
  (tasks s = [] -> Forall (fun l => phase l <> Accepting) (loops s) -> available s = max_connections config).
Proof.
  intros H0 Hr. destruct (serve_reachable_permits config s H0 Hr) as [Ha Hm].
  pose proof (held_nonneg (loops s)). split_and!; [done|done|lia|].
  intros Ht Hl. rewrite Ht in Hm. change (len (@nil sock)) with 0 in Hm.
  assert (held (loops s) = 0) as Hz; [|lia].
  clear -Hl. induction Hl as [|l ls Hp Hl IH]; [done|]. simpl. unfold holds, held in *. destruct (phase l); [lia|done|lia].
Qed.

(** Every client a loop accepted is handled by exactly one task, running or ended: none is dropped or handled twice, whatever the order of events. *)
Theorem accepted_clients_served config s :
  serve_reachable config s -> (loops s ≫= accepted) ≡ₚ tasks s ++ finished s.
Proof. apply serve_reachable_clients. Qed.

(** A waiting client is admitted exactly when there is capacity: a loop that is not shut down takes a permit and starts a task for the client if fewer than max_connections permits are in use, and otherwise nothing changes. *)
Theorem admission_iff_capacity config s i l client :
  0 <= max_connections config -> serve_reachable config s ->
  loops s !! i = Some l -> phase l = Acquiring -> shutdown l = false ->
  let s' := serve_run s [PollPermit i; PollAccept i (Some (Ok client))] in
  if decide (held (loops s) + len (tasks s) < max_connections config)
  then tasks s' = tasks s ++ [client] /\ available s' = available s - 1
  else s' = s.
Proof.
  intros H0 Hr Hi Hp Hs. destruct (serve_reachable_permits config s H0 Hr) as [Ha Hm]. cbv zeta.
  rewrite (admission_run s i l client (serve_reachable_open _ _ Hr) Hi Hp Hs).
  case_decide; destruct (0 <? available s) eqn:E; destr_bool; try lia; [|done]. by split.
Qed.

(** The poll a loop waits for. *)
Definition next_poll (i : nat) (l : ServeLoop) (r : option (result IoError sock)) : ServeEvent :=
  match phase l with
  | Acquiring => PollPermit i
  | _ => PollAccept i r
  end.

(** C24: Once the shutdown of a loop is requested it accepts no client any more, in any continuation; its next poll returns Ok and gives back the permit it may hold; tasks that are running are left alone. *)
Theorem shutdown_stops_accepting s i l :
  loops s !! i = Some l -> shutdown l = true ->
  (forall evs, exists l', loops (serve_run s evs) !! i = Some l' /\ accepted l' = accepted l) /\
  (forall r, (phase l = Acquiring \/ phase l = Accepting) ->
     let s' := serve_step s (next_poll i l r) in
     phase <$> loops s' !! i = Some (Returned (Ok tt)) /\
     available s' = available s + holds l /\ tasks s' = tasks s).
Proof.
  intros Hi Hs. split.
  - intros evs. destruct (serve_run_stopped i (accepted l) s evs) as (l' & Hl' & _ & Ha); [by exists l|eauto].
  - assert (i < length (loops s))%nat as Hlt by (by eapply lookup_lt_Some).
    intros r Hp. unfold next_poll, serve_step, holds, poll_permit, poll_accept, set_loop.
    destruct Hp as [Hp|Hp]; rewrite Hp, Hi, Hp, Hs; simpl; rewrite list_lookup_insert_eq by done;
      (split_and!; [done|lia|done]).
Qed.

(** ** A run at the limit *)

Definition two_clients : ProxyConfig := {|
  listen := SocketV4 2130706433 3128; upstream := Endpoint_new (lit "proxy") 8080;
  auth := AuthNone; routing := RoutingProxyOnly; direct_cidrs := []; dns_timeout := 2;
  connect_timeout := 10; idle_timeout := None; max_header_bytes := 1024; max_connections := 2 |}.

Definition idle_server : ServerState := {| available := 2; closed := false; loops := []; tasks := []; finished := [] |}.

(** Two clients are accepted, one ends, and the loop waits again. *)
Definition busy_events : list ServeEvent :=
  [Serve; PollPermit 0; PollAccept 0 (Some (Ok 5%nat)); PollPermit 0; PollAccept 0 (Some (Ok 6%nat));
   PollPermit 0; TaskEnd 0].
Definition busy_server : ServerState := serve_run idle_server busy_events.

Lemma serve_run_reachable config s evs : serve_reachable config s -> serve_reachable config (serve_run s evs).
Proof. revert s. induction evs as [|ev evs IH]; intros s Hs; [done|]. apply IH. by constructor. Qed.

Lemma busy_reachable : serve_reachable two_clients busy_server.
Proof. apply serve_run_reachable, serve_initial. reflexivity. Qed.

Definition waiting : ServeLoop := {| phase := Acquiring; shutdown := false; accepted := [5; 6]%nat |}.

Lemma connection_limit_witness :
  serve_reachable two_clients busy_server /\ available busy_server = 1 /\ len (tasks busy_server) <= 2.
Proof.
  split; [exact busy_reachable|]. split; [reflexivity|].
  apply (connection_limit two_clients busy_server); [vm_compute; congruence|exact busy_reachable].
Defined.

Lemma accepted_clients_served_witness :
  tasks busy_server = [6]%nat /\ (loops busy_server ≫= accepted) ≡ₚ tasks busy_server ++ finished busy_server.
Proof. split; [reflexivity|]. exact (accepted_clients_served two_clients busy_server busy_reachable). Defined.

Lemma admission_iff_capacity_witness :
  tasks (serve_run busy_server [PollPermit 0; PollAccept 0 (Some (Ok 7%nat))]) = [6; 7]%nat.
Proof.
  pose proof (admission_iff_capacity two_clients busy_server 0 waiting 7) as Ha.
  destruct (decide _) as [Hc|Hc] in Ha; [|exfalso; apply Hc; vm_compute; reflexivity].
  apply Ha; [vm_compute; congruence|exact busy_reachable|reflexivity|reflexivity|reflexivity].
Defined.

Lemma shutdown_stops_accepting_witness :
  exists l', loops (serve_run (serve_step busy_server (ShutdownRequested 0))
      [PollPermit 0; PollAccept 0 (Some (Ok 7%nat))]) !! 0%nat = Some l' /\ accepted l' = [5; 6]%nat.
Proof.
  apply (shutdown_stops_accepting (serve_step busy_server (ShutdownRequested 0)) 0
    {| phase := Acquiring; shutdown := true; accepted := [5; 6]%nat |}); reflexivity.
Defined.
