(* ===== verification/System.v ===== *)
(** * System: the whole server with its clients interleaved

    [Proxy::serve_until] of src/server.rs spawns a task per accepted client,
    and the runtime interleaves the loops and the tasks at their [await]s.
    The state is the one of [Serve], the suspended code of every task, and one
    world that all tasks act on; a step lets one of them go on, or lets the
    world change by itself.  The operating system gives every new connection a
    handle that no other has.  A relay is one action of its task here; its
    inside is [Relay]'s and [Session]'s. *)

From stdpp Require Import relations.
From S2P Require Import Prelude RustStr RustNet Config Routing Auth Io Http1 Http1Body Relay Challenge Base64 Server Scenario Handshake Direct Client Isolation Resume Mirror Serve.

(** ** State *)

(** A spawned [handle_client]: its socket, the answers it has got, and what
    it has done. *)
Record Task (C : Type) := { t_client : sock; t_answers : list (Answer C); t_log : list event }.
Arguments t_client {C} t.
Arguments t_answers {C} t.
Arguments t_log {C} t.
Arguments Build_Task {C} t_client t_answers t_log.

Definition spawn {C} (client : sock) : Task C := Build_Task client [] [].

Definition answered {C} (t : Task C) (a : Answer C) (ev : event) : Task C :=
  Build_Task (t_client t) (t_answers t ++ [a]) (t_log t ++ [ev]).

(** What a task does next: ask something of the world, or return. *)
Inductive Next (C : Type) := Awaits (q : Request C) | Ends (o : outcome ProxyError unit).
Arguments Awaits {C} q.
Arguments Ends {C} o.

(** The sockets a task owns: its client's and those it opened. *)
Definition owned {C} (t : Task C) : list sock := t_client t :: opened (t_log t).

Definition request_socks {C} (q : Request C) : list sock :=
  match q with
  | QRead s _ | QWrite s _ | QNodelay s => [s]
  | QRelay client up => [client; up]
  | _ => []
  end.

Section System.
Context {W : Type} `{Network W} `{AuthFactory W} `{RelayWorld W} `{Httparse} `{Base64}.
Context (config : ProxyConfig) (fuel : nat).
Abbreviation C := AuthContext.

Record System := {
  server : ServerState;
  running : list (Task C);    (* the code of [tasks server], in the same order *)
  ended : list (Task C * outcome ProxyError unit);
  shared : W;
  issued : list sock;         (* every handle given out so far *)
}.

(** The code of a task, run against the answers it has got. *)
Definition resume (t : Task C) : outcome ProxyError unit * st (Replay C) :=
  handle_client config fuel (t_client t) (Build_st (Build_Replay (t_answers t) None) []).

Definition next_of (t : Task C) : Next C :=
  match asked (world (snd (resume t))) with Some q => Awaits q | None => Ends (fst (resume t)) end.

Definition accepted_by (ev : ServeEvent) : list sock :=
  match ev with PollAccept _ (Some (Ok client)) => [client] | _ => [] end.

Definition is_task_end (ev : ServeEvent) : bool := match ev with TaskEnd _ => true | _ => false end.

Definition fresh (y : System) (l : list sock) : Prop := forall s, s ∈ l -> s ∉ issued y.

(** ** Steps *)

(** A loop is polled, or told to stop: tasks are spawned for the clients that
    [serve_step] accepts. *)
Definition serve_system (y : System) (ev : ServeEvent) : System :=
  let server' := serve_step (server y) ev in
  {| server := server'; running := running y ++ (spawn <$> drop (length (tasks (server y))) (tasks server'));
     ended := ended y; shared := shared y; issued := issued y ++ accepted_by ev |}.

Definition task_system (y : System) (k : nat) (t : Task C) (a : Answer C) (ev : event) (w : W) : System :=
  {| server := server y; running := <[k := answered t a ev]> (running y); ended := ended y;
     shared := w; issued := issued y ++ opened_by ev |}.

(** The task is gone: its permit returns and its sockets are closed. *)
Definition end_system (y : System) (k : nat) (t : list (Task C * outcome ProxyError unit)) : System :=
  {| server := serve_step (server y) (TaskEnd k); running := delete k (running y);
     ended := ended y ++ t; shared := shared y; issued := issued y |}.

Inductive system_step : System -> System -> Prop :=
| system_serve y ev :
    is_task_end ev = false -> fresh y (accepted_by ev) -> system_step y (serve_system y ev)
| system_task y k t q a w ev :
    running y !! k = Some t -> next_of t = Awaits q -> perform q (shared y) = (a, w) ->
    event_of q a = Some ev -> fresh y (opened_by ev) -> system_step y (task_system y k t a ev w)
| system_end y k t o :
    running y !! k = Some t -> next_of t = Ends o -> o <> NoFuel -> system_step y (end_system y k [(t, o)])
| system_drop y k t :  (* the task panics, or the runtime drops it *)
    running y !! k = Some t -> system_step y (end_system y k [])
| system_world y w :
    system_step y {| server := server y; running := running y; ended := ended y; shared := w; issued := issued y |}.

Definition system_start (s : ServerState) (w : W) : System :=
  {| server := s; running := []; ended := []; shared := w; issued := [] |}.

Inductive system_reachable : System -> Prop :=
| system_initial s w : with_auth_factory config = Some s -> system_reachable (system_start s w)
| system_next y y' : system_reachable y -> system_step y y' -> system_reachable y'.

(** ** Healthy tasks *)

(** A task's code has consumed its answers, and the log is what it did. *)
Definition healthy (t : Task C) : Prop :=
  script (world (snd (resume t))) = [] /\ length (t_log t) = length (t_answers t) /\
  exists tail, trace (snd (resume t)) = t_log t ++ tail.

Lemma spawn_healthy client : healthy (spawn client).
Proof. split_and!; [done|done|by eexists]. Qed.

(** A healthy task ends with exactly its log, or stops at a request that
    comes next in the trace; an answer to it keeps it healthy. *)
Lemma healthy_next t :
  healthy t ->
  match next_of t with
  | Ends o => o = fst (resume t) /\ trace (snd (resume t)) = t_log t
  | Awaits q =>
    (exists a ev tail, event_of q a = Some ev /\ trace (snd (resume t)) = t_log t ++ ev :: tail) /\
    forall a ev, event_of q a = Some ev -> healthy (answered t a ev)
  end.
Proof.
  intros (Hs & Hl & tail & Ht). unfold next_of.
  pose proof (proj2 (handle_client_resumable (C := C) config fuel (t_client t)) (Build_st (Build_Replay (t_answers t) None) []) eq_refl) as Hc.
  unfold resume in *. unfold healthy, resume, answered. cbn [t_client t_answers t_log].
  destruct (handle_client _ _ _ _) as [o s1] eqn:E1. cbn [fst snd] in *.
  destruct Hc as (used & evs & tail1 & Hu & Ht1 & Hlog & Hend). cbn [world script trace app] in Hu, Ht1. rewrite Hs, app_nil_r in Hu. subst used.
  apply Forall2_length in Hlog. rewrite Ht1 in Ht. apply app_inj_1 in Ht as [-> ->]; [|lia].
  destruct (asked (world s1)) as [q|].
  - destruct Hend as (_ & a0 & ev0 & tail0 & -> & Ha0 & Hgo). split; [by eexists a0, ev0, tail0|].
    intros a ev Ha. destruct (Hgo a ev [] Ha) as [[u Hu] [tail' Ht']]. unfold at_script in *. cbn [trace] in *.
    symmetry in Hu. apply app_eq_nil in Hu as [_ Hu]. split_and!; [done|rewrite !length_app; simpl; lia|].
    exists tail'. by rewrite Ht', <-!app_assoc.
  - destruct Hend as [-> _]. by rewrite Ht1, app_nil_r.
Qed.

Lemma healthy_ended t o :
  healthy t -> next_of t = Ends o -> resume t = (o, Build_st (Build_Replay [] None) (t_log t)).
Proof.
  intros Hh Ho. pose proof (healthy_next t Hh) as Hn. destruct Hh as [Hs _]. rewrite Ho in Hn.
  unfold next_of in Ho. destruct (resume t) as [o' [[sc q] tr]]. simpl in *. destruct q; [done|]. destruct Hn as [-> ->].
  by rewrite Hs.
Qed.

(** Every property of all traces of [handle_client] that holds of prefixes
    too holds of the log of a task. *)
Lemma healthy_log (P : list event -> Prop) t :
  (forall evs evs', P (evs ++ evs') -> P evs) ->
  emits (W := Replay C) (handle_client config fuel (t_client t)) (fun evs _ => P evs) ->
  healthy t -> P (t_log t).
Proof.
  intros Hpre Hm (_ & _ & tail & Ht). unfold resume in Ht.
  destruct (handle_client config fuel (t_client t) _) as [o s1] eqn:E1. apply Hm in E1 as (evs & He & HP).
  simpl in *. rewrite Ht in He. subst evs. by eapply Hpre.
Qed.

Lemma gated_prefix client evs evs' : gated client (evs ++ evs') -> gated client evs.
Proof.
  intros (pre & post & He & Hpre & Hpost). apply app_eq_app in He as (l & [[-> ->]|[-> ->]]).
  - exists pre, l. split_and!; [done|done|]. destruct Hpost as [Hp|]; [|by right]. left. by apply app_eq_nil in Hp as [? _].
  - apply Forall_app in Hpre as [Hpre _]. by apply gated_client.
Qed.

Lemma healthy_gated t : healthy t -> gated (t_client t) (t_log t).
Proof. apply healthy_log; [apply gated_prefix|]. apply handle_client_gated. Qed.

Lemma healthy_inside t : healthy t -> inside [t_client t] (t_log t).
Proof.
  apply healthy_log; [apply inside_prefix|]. eapply emits_weaken; [apply handle_client_uses|]. by intros evs o [Hi _].
Qed.

Lemma event_of_socks q (a : Answer C) ev : event_of q a = Some ev -> event_socks ev = request_socks q.
Proof. destruct q, a; simpl; intros [= <-]; done. Qed.

(** The request a task makes is on sockets it owns. *)
Lemma healthy_request t q : healthy t -> next_of t = Awaits q -> request_socks q ⊆ owned t.
Proof.
  intros Hh Hq. pose proof (healthy_next t Hh) as Hn. rewrite Hq in Hn. destruct Hn as [(a & ev & tail & Ha & Ht) _].
  unfold resume in Ht. pose proof (handle_client_uses (W := Replay C) config fuel (t_client t) (Build_st (Build_Replay (t_answers t) None) [])) as Hu.
  destruct (handle_client _ _ _ _) as [o s1]. destruct (Hu o s1 eq_refl) as (evs & He & Hi & _).
  simpl in *. rewrite Ht in He. subst evs. apply inside_app in Hi as [_ [Hi _]].
  rewrite <-(event_of_socks q a ev Ha). done.
Qed.

(** ** The invariant *)

Record system_ok (y : System) : Prop := {
  ok_server : serve_reachable config (server y);
  ok_tasks : tasks (server y) = t_client <$> running y;
  ok_running : Forall healthy (running y);
  ok_ended : Forall (fun e => healthy (fst e) /\ next_of (fst e) = Ends (snd e)) (ended y);
  ok_disjoint : NoDup (running y ≫= owned);
  ok_issued : (running y ≫= owned) ⊆ issued y;
}.

Lemma serve_step_tasks s ev :
  is_task_end ev = false ->
  exists l, tasks (serve_step s ev) = tasks s ++ l /\ (l = [] \/ l = accepted_by ev).
Proof.
  intros He. assert (forall s', tasks s' = tasks s -> exists l, tasks s' = tasks s ++ l /\ (l = [] \/ l = accepted_by ev)) as Hsame.
  { intros s' ->. exists []. rewrite app_nil_r. auto. }
  unfold serve_step, poll_permit, poll_accept. destruct ev; try done; serve_cases; try (by apply Hsame).
  eexists. split; [done|by right].
Qed.

Lemma owned_insert ts k t a ev :
  ts !! k = Some t -> (<[k := answered t a ev]> ts ≫= owned) ≡ₚ opened_by ev ++ (ts ≫= @owned C).
Proof.
  revert k. induction ts as [|x ts IH]; intros [|k]; simpl; [done|done| |].
  - intros [= ->]. unfold owned, answered. cbn [t_client t_log]. rewrite opened_app. unfold opened at 2. simpl.
    rewrite app_nil_r. solve_Permutation.
  - intros Hk. rewrite (IH k Hk). solve_Permutation.
Qed.

Lemma opened_by_NoDup ev : NoDup (opened_by ev).
Proof. destruct ev; try constructor. destruct r as [[]|]; repeat constructor; set_solver. Qed.

Lemma NoDup_fresh (y : System) (l : list sock) :
  NoDup l -> fresh y l -> NoDup (running y ≫= owned) -> (running y ≫= owned) ⊆ issued y ->
  NoDup (l ++ (running y ≫= owned)).
Proof. intros Hl Hf Hn Hs. apply NoDup_app. split_and!; [done| |done]. intros s Hin Hin'. apply (Hf s Hin), Hs, Hin'. Qed.

Lemma delete_tasks k (ts : list (Task C)) : t_client <$> delete k ts = delete k (t_client <$> ts).
Proof. revert k. induction ts as [|t ts IH]; intros [|k]; simpl; [done..|]. by rewrite IH. Qed.

Lemma owned_spawn (l : list sock) : (spawn <$> l) ≫= @owned C = l.
Proof. induction l as [|c l IH]; [done|]. cbn. f_equal. exact IH. Qed.
Lemma clients_spawn (l : list sock) : t_client <$> (@spawn C <$> l) = l.
Proof. induction l as [|c l IH]; [done|]. cbn. f_equal. exact IH. Qed.

Lemma delete_insert {A} (k : nat) (x : A) (l : list A) : delete k (<[k := x]> l) = delete k l.
Proof. revert k. induction l as [|z l IH]; intros [|k]; simpl; [done..|]. f_equal. apply IH. Qed.

Lemma serve_system_ok y ev :
  is_task_end ev = false -> fresh y (accepted_by ev) -> system_ok y -> system_ok (serve_system y ev).
Proof.
  intros He Hf [Osv Ots Oru Oen Odi Ois]. destruct (serve_step_tasks (server y) ev He) as (l & Hl & Hc).
  assert (drop (length (tasks (server y))) (tasks (serve_step (server y) ev)) = l) as Hd by (by rewrite Hl, drop_app_length).
  pose proof (owned_spawn l) as Ho.
  assert (NoDup l /\ fresh y l /\ l ⊆ accepted_by ev) as (Hn & Hfl & Hsub).
  { destruct Hc as [->| ->]; [split_and!; [constructor|by intros s ?%elem_of_nil|set_solver]|].
    split_and!; [|done|done]. destruct ev as [| | |i [[]|]|]; repeat constructor; set_solver. }
  split; simpl; rewrite ?Hd.
  - by constructor.
  - by rewrite Hl, Ots, fmap_app, clients_spawn.
  - apply Forall_app. split; [done|]. apply Forall_fmap, Forall_true. intros c. apply spawn_healthy.
  - done.
  - rewrite bind_app, Ho, Permutation_app_comm. by apply NoDup_fresh.
  - rewrite bind_app, Ho. set_solver.
Qed.

Lemma task_system_ok y k t q a w ev :
  running y !! k = Some t -> next_of t = Awaits q -> event_of q a = Some ev -> fresh y (opened_by ev) ->
  system_ok y -> system_ok (task_system y k t a ev w).
Proof.
  intros Hk Hq Ha Hf [Osv Ots Oru Oen Odi Ois]. assert (healthy t) as Hh by (by eapply Forall_lookup_1).
  pose proof (healthy_next t Hh) as Hn. rewrite Hq in Hn. destruct Hn as [_ Hn]. split; simpl.
  - done.
  - rewrite list_fmap_insert, Ots. simpl. symmetry. apply list_insert_id. by rewrite list_lookup_fmap, Hk.
  - apply Forall_insert; auto.
  - done.
  - rewrite (owned_insert _ k t) by done. apply NoDup_fresh; [apply opened_by_NoDup|done|done|done].
  - rewrite (owned_insert _ k t) by done. set_solver.
Qed.

Lemma end_system_ok y k t e :
  running y !! k = Some t -> Forall (fun e => healthy (fst e) /\ next_of (fst e) = Ends (snd e)) e ->
  system_ok y -> system_ok (end_system y k e).
Proof.
  intros Hk He [Osv Ots Oru Oen Odi Ois].
  assert (running y ≫= owned ≡ₚ owned t ++ (delete k (running y) ≫= owned)) as Hp.
  { rewrite (delete_Permutation (running y) k t) at 1 by done. done. }
  split.
  - by constructor.
  - simpl. rewrite Ots, list_lookup_fmap, Hk. simpl. by rewrite delete_tasks.
  - by apply Forall_delete.
  - by apply Forall_app.
  - rewrite Hp in Odi. by apply NoDup_app in Odi as (_ & _ & ?).
  - simpl. rewrite Hp in Ois. set_solver.
Qed.

Lemma system_step_ok y y' : system_step y y' -> system_ok y -> system_ok y'.
Proof.
  intros Hs Hy. pose proof (ok_running y Hy) as Hr. destruct Hs as [y ev|y k t q a w ev|y k t o Hk|y k t|y w].
  - by apply serve_system_ok.
  - by eapply task_system_ok.
  - eapply end_system_ok; [done| |done]. apply Forall_singleton. split; [by eapply Forall_lookup_1|done].
  - by eapply end_system_ok.
  - by destruct Hy.
Qed.

Lemma system_reachable_ok y : system_reachable y -> system_ok y.
Proof.
  induction 1 as [s w Hs|y y' _ IH Hs]; [|by eapply system_step_ok]. split; simpl; try done; try constructor; try done.
  unfold with_auth_factory, Semaphore_new in Hs. destruct (_ <=? _); by simplify_option_eq.
Qed.

(** Owners are unique. *)
Lemma NoDup_owner (ts : list (Task C)) i j t t' s :
  NoDup (ts ≫= owned) -> ts !! i = Some t -> ts !! j = Some t' -> s ∈ owned t -> s ∈ owned t' -> j = i.
Proof.
  revert i j. induction ts as [|x ts IH]; intros i j; [done|].
  change ((x :: ts) ≫= owned) with (owned x ++ (ts ≫= owned)). intros (Hx & Hd & Hn)%NoDup_app.
  assert (forall k u, ts !! k = Some u -> s ∈ owned u -> s ∈ ts ≫= owned) as Hin.
  { intros k u Hk Hu. apply list_elem_of_bind. exists u. split; [done|]. by eapply list_elem_of_lookup_2. }
  destruct i as [|i], j as [|j]; simpl; [done| | |].
  - intros [= ->] Hj Hs Hs'. exfalso. apply (Hd s Hs). eauto.
  - intros Hi [= ->] Hs Hs'. exfalso. apply (Hd s Hs'). eauto.
  - intros. f_equal. by eapply IH.
Qed.

(** ** A task on its own *)

Lemma goes_system (client : sock) p w as_ evs w' :
  goes (stop (handle_client config fuel client) []) p w as_ evs w' ->
  forall y k l, running y !! k = Some (Build_Task client p l) -> shared y = w -> NoDup (issued y ++ opened evs) ->
  exists y', rtc system_step y y' /\ shared y' = w' /\ server y' = server y /\ ended y' = ended y /\
    running y' = <[k := Build_Task client (p ++ as_) (l ++ evs)]> (running y).
Proof.
  induction 1 as [p w|p w q a w1 ev as_ evs w' Hf Hp He Hg IH]; intros y k l Hk <- Hn.
  { exists y. rewrite !app_nil_r, list_insert_id by done. done. }
  change (opened (ev :: evs)) with (opened_by ev ++ opened evs) in Hn.
  set (y1 := task_system y k (Build_Task client p l) a ev w1).
  destruct (IH y1 k (l ++ [ev])) as (y' & Hs & Hw & Hsv & Hen & Hru).
  - simpl. apply list_lookup_insert_eq. by eapply lookup_lt_Some.
  - done.
  - simpl. by rewrite <-app_assoc.
  - exists y'. split_and!; [|done|done|done|].
    + eapply rtc_l; [|exact Hs]. apply (system_task y k _ q); [done| |done|done|].
      * unfold next_of, resume. cbn [t_client t_answers]. unfold stop in Hf. by rewrite Hf.
      * intros s Hs1 Hs2. rewrite (assoc_L (++)) in Hn. apply NoDup_app in Hn as (Hn & _ & _).
        apply NoDup_app in Hn as (_ & Hn & _). by apply (Hn s).
    + rewrite Hru. simpl. rewrite list_insert_insert_eq, <-!app_assoc. done.
Qed.
End System.
Arguments System W {_}.

(** ** Running a schedule *)

Inductive Choice := DoServe (ev : ServeEvent) | DoTask (k : nat) | DoEnd (k : nat).

Section Run.
Context {W : Type} `{Network W} `{AuthFactory W} `{RelayWorld W} `{Httparse} `{Base64}.
Context (config : ProxyConfig) (fuel : nat).

Definition fresh_b (y : System W) (l : list sock) : bool := forallb (fun s => bool_decide (s ∉ issued y)) l.

Definition system_exec (y : System W) (c : Choice) : option (System W) :=
  match c with
  | DoServe ev =>
    if negb (is_task_end ev) && fresh_b y (accepted_by ev) then Some (serve_system y ev) else None
  | DoTask k =>
    t ← running y !! k;
    match next_of config fuel t with
    | Awaits q =>
      let '(a, w) := perform q (shared y) in
      ev ← event_of q a;
      if fresh_b y (opened_by ev) then Some (task_system y k t a ev w) else None
    | Ends _ => None
    end
  | DoEnd k =>
    t ← running y !! k;
    match next_of config fuel t with
    | Awaits _ | Ends NoFuel => None
    | Ends o => Some (end_system y k [(t, o)])
    end
  end.

Lemma fresh_b_spec y l : fresh_b y l = true -> fresh y l.
Proof.
  intros Hl s Hs. unfold fresh_b in Hl. rewrite forallb_forall in Hl. apply list_elem_of_In in Hs.
  specialize (Hl s Hs). by apply bool_decide_eq_true in Hl.
Qed.

Lemma system_exec_step y c y' : system_exec y c = Some y' -> system_step config fuel y y'.
Proof.
  destruct c as [ev|k|k]; simpl.
  - destruct (negb _) eqn:En; [|done]. destruct (fresh_b _ _) eqn:Ef; [|done]. intros [= <-].
    apply system_serve; [by destruct (is_task_end ev)|by apply fresh_b_spec].
  - intros (t & Hk & Ht)%bind_Some. destruct (next_of config fuel t) as [q|] eqn:Eq; [|done].
    destruct (perform q (shared y)) as [a w] eqn:Ep. apply bind_Some in Ht as (ev & He & Ht).
    destruct (fresh_b _ _) eqn:Ef; [|done]. injection Ht as <-. eapply system_task; [done..|]. by apply fresh_b_spec.
  - intros (t & Hk & Ht)%bind_Some. destruct (next_of config fuel t) as [|[]] eqn:Eq; try done; injection Ht as <-;
      by eapply system_end.
Qed.

(** The state a schedule leads to; a choice that is not possible is ignored. *)
Definition system_after (y : System W) (cs : list Choice) : System W :=
  foldl (fun y c => default y (system_exec y c)) y cs.

Lemma system_after_reachable y cs : system_reachable config fuel y -> system_reachable config fuel (system_after y cs).
Proof.
  unfold system_after. revert y. induction cs as [|c cs IH]; intros y Hy; simpl; [done|]. apply IH.
  destruct (system_exec y c) as [y'|] eqn:E; [|done]. eapply system_next; [done|]. by eapply system_exec_step.
Qed.
End Run.

(** ** Properties *)

(** C3: However the tasks of all clients interleave, a task acts only on sockets it owns, its client's and those it opened itself, and no other task owns any of them: no client's bytes can reach another client's connection or tunnel. *)
Theorem clients_isolated {W} `{Network W} `{AuthFactory W} `{RelayWorld W} `{Httparse} `{Base64}
    config fuel (y : System W) i t q s :
  system_reachable config fuel y -> running y !! i = Some t -> next_of config fuel t = Awaits q -> s ∈ request_socks q ->
  s ∈ owned t /\ forall j t', running y !! j = Some t' -> s ∈ owned t' -> j = i.
Proof.
  intros Hy Hi Hq Hs. apply system_reachable_ok in Hy as [Hsv Hts Hru Hen Hdi His].
  assert (healthy config fuel t) as Hh by (by eapply Forall_lookup_1).
  assert (s ∈ owned t) as Ho by (by apply (healthy_request config fuel t q)).
  split; [done|]. intros j t' Hj Hs'. by eapply NoDup_owner.
Qed.

(** What holds of the running tasks of every state. *)
Lemma system_reachable_sound {W} `{Network W} `{AuthFactory W} `{RelayWorld W} `{Httparse} `{Base64} config fuel (y : System W) :
  0 <= max_connections config -> system_reachable config fuel y ->
  len (running y) <= max_connections config /\
  forall t, t ∈ running y -> inside [t_client t] (t_log t) /\ gated (t_client t) (t_log t).
Proof.
  intros H0' Hy. apply system_reachable_ok in Hy as [Hsv Hts Hru Hen Hdi His]. split.
  - destruct (serve_reachable_permits config _ H0' Hsv) as [Ha Hm]. pose proof (held_nonneg (loops (server y))).
    rewrite Hts in Hm. unfold len in *. rewrite length_fmap in Hm. lia.
  - intros t Ht. assert (healthy config fuel t) by (by eapply Forall_forall in Hru).
    split; [by eapply healthy_inside|by eapply healthy_gated].
Qed.

(** C2: However the accept loops, the client tasks and the outside world interleave: every running task belongs to a client the loops accepted and there are at most max_connections of them; what each has done so far stays on its own sockets and contacts nobody before its client's CONNECT request; and a task that has ended did what [handle_client] alone does with the answers it got, with the same outcome. *)
Theorem interleaving_sound {W} `{Network W} `{AuthFactory W} `{RelayWorld W} `{Httparse} `{Base64} config fuel (y : System W) :
  0 <= max_connections config -> system_reachable config fuel y ->
  tasks (server y) = t_client <$> running y /\ len (running y) <= max_connections config /\
  (forall t, t ∈ running y -> inside [t_client t] (t_log t) /\ gated (t_client t) (t_log t)) /\
  (forall t o, (t, o) ∈ ended y ->
     handle_client config fuel (t_client t) (Build_st (Build_Replay (t_answers t) None) []) =
       (o, Build_st (Build_Replay [] None) (t_log t)) /\
     inside [t_client t] (t_log t) /\ gated (t_client t) (t_log t)).
Proof.
  intros H0' Hy. pose proof (system_reachable_sound config fuel y H0' Hy) as [Hlen Hrun].
  apply system_reachable_ok in Hy as [Hsv Hts Hru Hen Hdi His]. split_and!; [done|done|done|].
  - intros t o Ht. rewrite Forall_forall in Hen. apply Hen in Ht as [Hh Ho]. simpl in *.
    split_and!; [|by eapply healthy_inside|by eapply healthy_gated]. by apply healthy_ended.
Qed.

(** Resuming a task request by request is running its code: from any state, a task that has just been spawned can be driven to the outcome, the log and the world that an uninterrupted run of [handle_client] has. *)
Theorem uninterrupted_run_is_schedule {W} `{Network W} `{AuthFactory W} `{RelayWorld W} `{Httparse} `{Base64}
    config fuel (y : System W) k client o s' :
  running y !! k = Some (spawn client) ->
  handle_client config fuel client (Build_st (shared y) []) = (o, s') -> o <> NoFuel ->
  NoDup (issued y ++ opened (trace s')) ->
  exists t y', rtc (system_step config fuel) y y' /\ t_client t = client /\ t_log t = trace s' /\
    shared y' = world s' /\ ended y' = ended y ++ [(t, o)] /\ running y' = delete k (running y).
Proof.
  intros Hk Hrun Ho Hn. destruct (proj2 (handle_client_mirrors config fuel client) (Build_st (shared y) [])) as (as_ & evs & Ht & Hg & Hx).
  rewrite Hrun in *. cbn [fst snd trace world] in *. simpl in Ht. rewrite Ht in *.
  destruct (goes_system config fuel client _ _ _ _ _ (Hg []) y k [] Hk eq_refl Hn) as (y1 & Hs & Hw & Hsv & Hen & Hru).
  simpl in Hru. set (t := Build_Task client as_ evs) in *.
  assert (running y1 !! k = Some t) as Hk1 by (rewrite Hru; apply list_lookup_insert_eq; by eapply lookup_lt_Some).
  exists t, (end_system y1 k [(t, o)]). split_and!; [|done|done|done| |].
  - eapply rtc_r; [exact Hs|]. apply system_end; [done| |done].
    unfold next_of, resume, t. cbn [t_client t_answers]. specialize (Hx [] []). rewrite app_nil_r in Hx. by rewrite Hx.
  - simpl. by rewrite Hen.
  - simpl. by rewrite Hru, delete_insert.
Qed.

(** ** Two clients at once *)

(** Clients 0 and 1 ask for tunnels; the proxy's connections are 2 and 3. *)
Definition two_tunnels : Script :=
  world (world_with [[client_request]; [client_request]; [resp_200]; [resp_200]] [2; 3]%nat).

Definition pair_config : ProxyConfig := small_config AuthNone RoutingProxyOnly.

Definition pair_server : ServerState := {| available := 16; closed := false; loops := []; tasks := []; finished := [] |}.

(** Both are accepted, the first is handled up to the relay while the second
    has just connected. *)
Definition pair_schedule : list Choice :=
  [DoServe Serve; DoServe (PollPermit 0); DoServe (PollAccept 0 (Some (Ok 0%nat)));
   DoServe (PollPermit 0); DoServe (PollAccept 0 (Some (Ok 1%nat)));
   DoTask 0; DoTask 1; DoTask 1; DoTask 0; DoTask 0; DoTask 1; DoTask 0; DoTask 0; DoTask 0].

Definition pair_system : System Script :=
  system_after pair_config 20 (system_start pair_server two_tunnels) pair_schedule.

(** The first client's tunnel is closed; its answer, the early bytes, the
    relay and the return of the task. *)
Definition pair_ended : System Script :=
  system_after pair_config 20 pair_system [DoTask 0; DoTask 0; DoTask 0; DoEnd 0].

Lemma pair_start : system_reachable pair_config 20 (system_start pair_server two_tunnels).
Proof. by apply system_initial. Qed.

Lemma clients_isolated_witness :
  exists t q, running pair_system !! 0%nat = Some t /\ next_of pair_config 20 t = Awaits q /\ request_socks q = [0%nat] /\
    forall j t', running pair_system !! j = Some t' -> 0%nat ∈ owned t' -> j = 0%nat.
Proof.
  assert ((fun t => match next_of pair_config 20 t with Awaits q => request_socks q | _ => [] end) <$> running pair_system !! 0%nat
    = Some [0%nat]) as Hv by (vm_compute; reflexivity).
  destruct (running pair_system !! 0%nat) as [t|] eqn:Et; simpl in Hv; [|discriminate Hv].
  injection Hv as Hq. match type of Hq with match ?x with _ => _ end = _ => destruct x as [q|] eqn:Eq; [|discriminate Hq] end.
  exists t, q. split_and!; [reflexivity|exact Eq|exact Hq|].
  apply (clients_isolated pair_config 20 pair_system 0 t q 0); [apply system_after_reachable, pair_start|exact Et|exact Eq|].
  apply (eq_ind_r (fun l => 0%nat ∈ l)) with (2 := Hq). constructor.
Defined.

Lemma interleaving_sound_witness :
  snd <$> ended pair_ended = [Val tt] /\ len (running pair_ended) <= 16 /\ tasks (server pair_ended) = [1%nat].
Proof.
  split; [vm_compute; reflexivity|].
  destruct (interleaving_sound pair_config 20 pair_ended) as (Ht & Hl & _).
  - vm_compute. congruence.
  - apply system_after_reachable, system_after_reachable, pair_start.
  - split; [exact Hl|]. rewrite Ht. vm_compute. reflexivity.
Defined.

(** One client is accepted and its task has not run yet. *)
Definition one_spawned : System Script :=
  system_after pair_config 20 (system_start pair_server two_tunnels)
    [DoServe Serve; DoServe (PollPermit 0); DoServe (PollAccept 0 (Some (Ok 0%nat)))].

Lemma uninterrupted_run_is_schedule_witness :
  exists t y', rtc (system_step pair_config 20) one_spawned y' /\ t_log t <> [] /\ ended y' = [(t, Val tt)].
Proof.
  destruct (handle_client pair_config 20 0 (Build_st (shared one_spawned) [])) as [o s'] eqn:E.
  assert (o = Val tt) as -> by (transitivity (fst (handle_client pair_config 20 0 (Build_st (shared one_spawned) [])));
    [by rewrite E|vm_compute; reflexivity]).
  pose proof (f_equal (fun r => opened (trace (snd r))) E) as Eo. pose proof (f_equal (fun r => length (trace (snd r))) E) as Et.
  cbn [snd] in Eo, Et.
  destruct (uninterrupted_run_is_schedule pair_config 20 one_spawned 0 0 (Val tt) s') as (t & y' & Hs & _ & Hl & _ & He & _).
  - reflexivity.
  - exact E.
  - discriminate.
  - rewrite <-Eo. apply (bool_decide_unpack _). vm_compute. exact I.
  - exists t, y'. split_and!; [exact Hs|intros Ht; rewrite <-Hl, Ht in Et; vm_compute in Et; discriminate Et|exact He].
Defined.
