(* ===== verification/Main.v ===== *)
(** * Main: the command line of src/main.rs

    From parsed arguments to a running proxy: the checks of [main], the
    configuration it builds and what can stop it.  clap, the log filter and
    the bind of the listening socket are arguments. *)

From S2P Require Import Prelude RustStr RustNet Config Auth Io Serve.

(** ** Arguments *)

(** The fields of [Cli] with the widths clap parses them at. *)
Record Cli := {
  cli_listen : SocketAddr;
  cli_upstream : Endpoint;
  cli_auth : AuthMode;
  cli_routing : RoutingMode;
  cli_direct_cidrs : list IpCidr;
  dns_timeout_seconds : Z;
  connect_timeout_seconds : Z;
  idle_timeout_seconds : Z;
  cli_max_header_bytes : Z;
  cli_max_connections : Z;
  log : str;
}.

(** The default values of the arguments; only the upstream has none. *)
Definition Cli_default (endpoint : Endpoint) : Cli := {|
  cli_listen := SocketV4 (256 ^ 3 * 127 + 1) 3128;
  cli_upstream := endpoint;
  cli_auth := AuthAuto;
  cli_routing := RoutingAuto;
  cli_direct_cidrs := [];
  dns_timeout_seconds := 2;
  connect_timeout_seconds := 10;
  idle_timeout_seconds := 300;
  cli_max_header_bytes := 32 * 1024;
  cli_max_connections := 4096;
  log := lit "info";
|}.

Definition is_u64 (n : Z) : Prop := 0 <= n <= uint_max 64.

Definition cli_typed (cli : Cli) : Prop :=
  is_u64 (dns_timeout_seconds cli) /\ is_u64 (connect_timeout_seconds cli) /\
  is_u64 (idle_timeout_seconds cli) /\ is_u64 (cli_max_header_bytes cli) /\ is_u64 (cli_max_connections cli).

(** What ends [main] with an error. *)
Inductive MainError :=
| InvalidLogFilter (filter : str)
| Bail (message : str)
| BindFailed (address : SocketAddr) (e : IoError).

(** [main] up to the accept loop: an error, the panic of [Semaphore::new],
    or a proxy that is served from, with the warning about its address. *)
Inductive Started :=
| Failed (e : MainError)
| Panicked
| Serving (config : ProxyConfig) (exposed_warning : bool) (s : ServerState).

(** The checks, in the order of the code. *)
Definition check_cli (windows : bool) (cli : Cli) : result MainError unit :=
  if cli_max_header_bytes cli <? 1024 then Err (Bail (lit "--max-header-bytes must be at least 1024"))
  else if cli_max_connections cli =? 0 then Err (Bail (lit "--max-connections must be greater than zero"))
  else if dns_timeout_seconds cli =? 0 then Err (Bail (lit "--dns-timeout-seconds must be greater than zero"))
  else if negb windows && negb (bool_decide (cli_auth cli = AuthNone))
  then Err (Bail (lit "native SSPI requires Windows; use --auth none on this platform"))
  else Ok tt.

Definition cli_config (cli : Cli) : ProxyConfig := {|
  listen := cli_listen cli;
  upstream := cli_upstream cli;
  auth := cli_auth cli;
  routing := cli_routing cli;
  direct_cidrs := cli_direct_cidrs cli;
  dns_timeout := dns_timeout_seconds cli;
  connect_timeout := connect_timeout_seconds cli;
  idle_timeout := if negb (idle_timeout_seconds cli =? 0) then Some (idle_timeout_seconds cli) else None;
  max_header_bytes := cli_max_header_bytes cli;
  max_connections := cli_max_connections cli;
|}.

(** [main]: [windows] is [cfg!(windows)], [filter_valid] is
    [EnvFilter::try_new], [bind] is [TcpListener::bind]. *)
Definition main (windows : bool) (filter_valid : str -> bool) (bind : SocketAddr -> result IoError unit)
    (cli : Cli) : Started :=
  if negb (filter_valid (log cli)) then Failed (InvalidLogFilter (log cli))
  else
    match check_cli windows cli with
    | Err e => Failed e
    | Ok _ =>
      let exposed := negb (ip_is_loopback (SocketAddr_ip (cli_listen cli))) in
      let config := cli_config cli in
      match bind (listen config) with
      | Err e => Failed (BindFailed (listen config) e)
      | Ok _ =>
        match with_auth_factory config with
        | None => Panicked
        | Some s => Serving config exposed (serve_step s Serve)
        end
      end
    end.

(** ** Properties *)

(** A configuration the rest of the proxy can run with. *)
Definition config_valid (windows : bool) (config : ProxyConfig) : Prop :=
  1024 <= max_header_bytes config /\ 1 <= max_connections config <= MAX_PERMITS /\
  1 <= dns_timeout config /\ idle_timeout config <> Some 0 /\
  (windows = false -> auth config = AuthNone).

Lemma check_cli_ok windows cli :
  check_cli windows cli = Ok tt <->
  1024 <= cli_max_header_bytes cli /\ cli_max_connections cli <> 0 /\ dns_timeout_seconds cli <> 0 /\
  (windows = false -> cli_auth cli = AuthNone).
Proof.
  unfold check_cli. destruct (_ <? _) eqn:E1; destr_bool; [split; [done|lia]|].
  destruct (cli_max_connections cli =? 0) eqn:E2; destr_bool; [split; [done|lia]|].
  destruct (dns_timeout_seconds cli =? 0) eqn:E3; destr_bool; [split; [done|lia]|].
  destruct windows; simpl; [split; [intros _; split_and!; done || lia|done]|].
  case_bool_decide; simpl; (split; [|naive_solver]); [|done]. intros _. split_and!; done || lia.
Qed.

Lemma cli_config_valid windows cli :
  check_cli windows cli = Ok tt -> is_u64 (cli_max_connections cli) -> cli_max_connections cli <= MAX_PERMITS ->
  is_u64 (dns_timeout_seconds cli) -> config_valid windows (cli_config cli).
Proof.
  intros (H1 & H2 & H3 & H4)%check_cli_ok [H5 _] H6 [H7 _]. unfold config_valid. simpl.
  split_and!; [lia|lia|lia|lia| |done].
  destruct (idle_timeout_seconds cli =? 0) eqn:E; destr_bool; simpl; congruence.
Qed.

Lemma serving_check windows filter_valid bind cli config w s :
  main windows filter_valid bind cli = Serving config w s ->
  check_cli windows cli = Ok tt /\ config = cli_config cli /\
  w = negb (ip_is_loopback (SocketAddr_ip (listen config))) /\
  exists s0, with_auth_factory config = Some s0 /\ s = serve_step s0 Serve.
Proof.
  unfold main. destruct (negb _); [done|]. destruct (check_cli windows cli) as [[]|]; [|done].
  destruct (bind _); [|done]. destruct (with_auth_factory _) as [s0|] eqn:E; [|done].
  intros [= <- <- <-]. split_and!; [done|done|done|eauto].
Qed.

Lemma serving_valid windows filter_valid bind cli config w s :
  cli_typed cli -> main windows filter_valid bind cli = Serving config w s -> config_valid windows config.
Proof.
  intros (Hdns & _ & _ & _ & Hconn) (Hc & -> & _ & s0 & Hs0 & _)%serving_check.
  unfold with_auth_factory, Semaphore_new in Hs0. destruct (_ <=? _) eqn:El; [|done]. destr_bool. by apply cli_config_valid.
Qed.

(** Whatever arguments of the declared widths the proxy is started with, it serves only with a valid configuration: a head limit of at least 1024 bytes, a connection limit between one and the semaphore's maximum, a DNS timeout of at least a second, no zero idle timeout (zero seconds means none), no authentication off Windows; the warning is given exactly for a listener that is not loopback, and the server it starts has all its permits and one loop. *)
Theorem main_serves_valid_config windows filter_valid bind cli config w s :
  cli_typed cli -> main windows filter_valid bind cli = Serving config w s ->
  config_valid windows config /\
  (idle_timeout config = None <-> idle_timeout_seconds cli = 0) /\
  (w = true <-> ip_is_loopback (SocketAddr_ip (listen config)) = false) /\
  serve_reachable config s /\ available s = max_connections config /\ length (loops s) = 1%nat.
Proof.
  intros Hcli Hmain. pose proof (serving_valid _ _ _ _ _ _ _ Hcli Hmain) as Hv.
  apply serving_check in Hmain as (Hc & -> & -> & s0 & Hs0 & ->).
  pose proof Hs0 as Hs1. unfold with_auth_factory, Semaphore_new in Hs1.
  destruct (_ <=? _) eqn:El; destr_bool; simplify_option_eq. split_and!.
  - done.
  - simpl. destruct (idle_timeout_seconds cli =? 0) eqn:E; destr_bool; simpl; split; naive_solver lia.
  - destruct (ip_is_loopback _); naive_solver.
  - exact (serve_next _ _ Serve (serve_initial _ _ Hs0)).
  - done.
  - done.
Qed.

(** Arguments the proxy can serve with, but for the semaphore. *)
Definition cli_sound (windows : bool) (cli : Cli) : Prop :=
  1024 <= cli_max_header_bytes cli /\ 1 <= cli_max_connections cli /\ 1 <= dns_timeout_seconds cli /\
  (windows = true \/ cli_auth cli = AuthNone).

Lemma check_cli_sound windows cli : cli_typed cli -> check_cli windows cli = Ok tt <-> cli_sound windows cli.
Proof.
  intros ([Hd _] & _ & _ & _ & [Hc _]). rewrite check_cli_ok. unfold cli_sound.
  destruct windows; split; intros (? & ? & ? & Ha); split_and!; try lia; auto; naive_solver.
Qed.

(** What the reason of a failed start says. *)
Definition explains (windows : bool) (filter_valid : str -> bool) (bind : SocketAddr -> result IoError unit) (cli : Cli) (e : MainError) : Prop :=
  match e with
  | InvalidLogFilter filter => filter = log cli /\ filter_valid filter = false
  | Bail message =>
    message = lit "--max-header-bytes must be at least 1024" /\ cli_max_header_bytes cli < 1024 \/
    message = lit "--max-connections must be greater than zero" /\ cli_max_connections cli = 0 \/
    message = lit "--dns-timeout-seconds must be greater than zero" /\ dns_timeout_seconds cli = 0 \/
    message = lit "native SSPI requires Windows; use --auth none on this platform" /\ windows = false /\ cli_auth cli <> AuthNone
  | BindFailed address error => address = cli_listen cli /\ bind address = Err error
  end.

Lemma check_cli_explains windows filter_valid bind cli e :
  check_cli windows cli = Err e -> explains windows filter_valid bind cli e.
Proof.
  unfold check_cli. destruct (_ <? _) eqn:E1; destr_bool; [intros [= <-]; by left|].
  destruct (cli_max_connections cli =? 0) eqn:E2; destr_bool; [intros [= <-]; right; by left|].
  destruct (dns_timeout_seconds cli =? 0) eqn:E3; destr_bool; [intros [= <-]; right; right; by left|].
  destruct windows; [done|]. simpl. case_bool_decide; [done|]. intros [= <-]. by right; right; right.
Qed.

Lemma failed_start (P X Y : Prop) (R : MainError -> Prop) e :
  ~ P -> R e ->
  (Failed e = Panicked <-> P /\ X) /\ ((exists config w s, Failed e = Serving config w s) <-> P /\ Y) /\
  (forall e', Failed e = Failed e' -> ~ P /\ R e').
Proof. intros Hp Hr. split_and!; [naive_solver|naive_solver|]. by intros e' [= <-]. Qed.

(** C38: What starting the proxy does, for all arguments of the declared widths.  It serves if and only if the log filter is valid, the head limit is at least 1024 bytes, there is at least one connection and at most the semaphore's maximum, the DNS timeout is at least a second, authentication is off unless on Windows, and the address can be bound; with all of this but more connections than the semaphore's maximum it panics; and otherwise it fails with an error whose message names a condition that does not hold. *)
Theorem main_outcome windows filter_valid bind cli :
  cli_typed cli ->
  let started := main windows filter_valid bind cli in
  let sound := filter_valid (log cli) = true /\
    (1024 <= cli_max_header_bytes cli /\ 1 <= cli_max_connections cli /\ 1 <= dns_timeout_seconds cli /\
     (windows = true \/ cli_auth cli = AuthNone)) /\ bind (cli_listen cli) = Ok tt in
  (started = Panicked <-> sound /\ MAX_PERMITS < cli_max_connections cli) /\
  ((exists config w s, started = Serving config w s) <-> sound /\ cli_max_connections cli <= MAX_PERMITS) /\
  (forall e, started = Failed e -> ~ sound /\ explains windows filter_valid bind cli e).
Proof.
  intros Hcli. cbv zeta. fold (cli_sound windows cli). pose proof (check_cli_sound windows cli Hcli) as Hs. setoid_rewrite <-Hs. clear Hs. unfold main.
  destruct (filter_valid (log cli)) eqn:Ef; [|by apply failed_start; [intros [? _]|]]. simpl.
  destruct (check_cli windows cli) as [[]|e] eqn:Ec; [|apply failed_start; [by intros (_ & ? & _)|by apply check_cli_explains]].
  destruct (bind (cli_listen cli)) as [[]|e] eqn:Eb; [|by apply failed_start; [intros (_ & _ & ?)|]].
  unfold with_auth_factory, Semaphore_new. simpl. destruct (_ <=? _) eqn:E; destr_bool; simpl; split_and!; try done.
  - split; [done|]. intros [_ ?]. lia.
  - split; [done|]. eauto.
  - split; [by intros (? & ? & ? & ?)|]. intros [_ ?]. lia.
Qed.

(** ** Concrete starts *)

Definition start_cli (connections : Z) : Cli :=
  let d := Cli_default (Endpoint_new (lit "proxy.corp") 8080) in
  {| cli_listen := cli_listen d; cli_upstream := cli_upstream d; cli_auth := AuthNone; cli_routing := cli_routing d;
     cli_direct_cidrs := []; dns_timeout_seconds := dns_timeout_seconds d;
     connect_timeout_seconds := connect_timeout_seconds d; idle_timeout_seconds := 0;
     cli_max_header_bytes := cli_max_header_bytes d; cli_max_connections := connections; log := log d |}.

Lemma start_cli_typed : cli_typed (start_cli 4096).
Proof. unfold cli_typed, is_u64. vm_compute. repeat split; congruence. Qed.

Lemma main_serves_valid_config_witness :
  exists config w s, main false (fun _ => true) (fun _ => Ok tt) (start_cli 4096) = Serving config w s /\
    config_valid false config /\ idle_timeout config = None /\ w = false.
Proof.
  do 3 eexists. split; [reflexivity|].
  edestruct (main_serves_valid_config false (fun _ => true) (fun _ => Ok tt) (start_cli 4096)) as (Hv & _);
    [exact start_cli_typed|reflexivity|]. split; [exact Hv|]. split; reflexivity.
Defined.

Lemma main_outcome_witness :
  main false (fun _ => true) (fun _ => Ok tt) (start_cli (2 ^ 61)) = Panicked /\
  exists config w s, main false (fun _ => true) (fun _ => Ok tt) (start_cli 4096) = Serving config w s.
Proof.
  assert (cli_typed (start_cli (2 ^ 61))) as Ht by (unfold cli_typed, is_u64; vm_compute; repeat split; congruence).
  split.
  - apply (main_outcome false (fun _ => true) (fun _ => Ok tt) (start_cli (2 ^ 61)) Ht).
    split; [split_and!; try reflexivity; [vm_compute; congruence..|right; reflexivity]|vm_compute; reflexivity].
  - apply (main_outcome false (fun _ => true) (fun _ => Ok tt) (start_cli 4096) start_cli_typed).
    split; [split_and!; try reflexivity; [vm_compute; congruence..|right; reflexivity]|vm_compute; congruence].
Defined.

(** Off Windows the defaults need [--auth none]. *)
Example defaults_need_windows :
  check_cli true (Cli_default (Endpoint_new (lit "proxy.corp") 8080)) = Ok tt /\
  check_cli false (Cli_default (Endpoint_new (lit "proxy.corp") 8080)) =
    Err (Bail (lit "native SSPI requires Windows; use --auth none on this platform")).
Proof. vm_compute. done. Qed.
