(* ===== verification/Launch.v ===== *)
(** * Launch: the life of the process, src/main.rs

    [main] parses, checks, binds and then serves until Ctrl-C; when
    [serve_until] returns, [main] returns and the runtime drops the client
    tasks.  [main] ignores the result of [ctrl_c], so a failure to wait for the
    signal is a request to shut down too.  A process is the [System] that
    [main] starts, with the events of its accept loop so far, or the result it
    exited with. *)

From stdpp Require Import relations.
From S2P Require Import Prelude RustStr RustNet Config Routing Auth Io Http1 Http1Body Relay Challenge Base64 Server Scenario Client Isolation Resume Mirror Serve System Main.

(** ** The process *)

Section Process.
Context {W : Type} `{Network W} `{AuthFactory W} `{RelayWorld W} `{Httparse} `{Base64}.
Context (config : ProxyConfig) (fuel : nat).

Inductive Process :=
| Up (y : System W) (history : list ServeEvent)
| Exited (r : result IoError unit) (history : list ServeEvent).

(** [main] calls [serve_until] once. *)
Definition main_event (ev : ServeEvent) : bool := match ev with Serve | TaskEnd _ => false | _ => true end.

Inductive process_step : Process -> Process -> Prop :=
| process_serve y h ev :
    main_event ev = true -> fresh y (accepted_by ev) -> process_step (Up y h) (Up (serve_system y ev) (h ++ [ev]))
| process_tasks y y' h :  (* the client tasks and the outside world *)
    system_step config fuel y y' -> loops (server y') = loops (server y) -> process_step (Up y h) (Up y' h)
| process_exit y h l r :  (* [serve_until(..).await?] *)
    loops (server y) !! 0%nat = Some l -> phase l = Returned r -> process_step (Up y h) (Exited r h).

(** The process at its first poll of the accept loop. *)
Definition launched (s : ServerState) (w : W) : Process :=
  Up {| server := s; running := []; ended := []; shared := w; issued := [] |} [].

(** ** The invariant *)

(** How the loop got where it is. *)
Definition explained (l : ServeLoop) (h : list ServeEvent) : Prop :=
  (shutdown l = true -> ShutdownRequested 0 ∈ h) /\
  match phase l with
  | Returned (Ok _) => ShutdownRequested 0 ∈ h
  | Returned (Err e) => PollAccept 0 (Some (Err e)) ∈ h
  | _ => True
  end.

Definition process_ok (p : Process) : Prop :=
  match p with
  | Up y h => system_reachable config fuel y /\ exists l, loops (server y) = [l] /\ explained l h
  | Exited (Ok _) h => ShutdownRequested 0 ∈ h
  | Exited (Err e) h => PollAccept 0 (Some (Err e)) ∈ h
  end.

Lemma explained_more l h ev : explained l h -> explained l (h ++ [ev]).
Proof.
  intros [Hs Hp]. split; [set_solver|]. destruct (phase l) as [| |[|]]; [done|done|set_solver|set_solver].
Qed.

(** One event on the only loop of an open server. *)
Lemma serve_step_explained s ev l h :
  closed s = false -> main_event ev = true -> loops s = [l] -> explained l h ->
  exists l', loops (serve_step s ev) = [l'] /\ explained l' (h ++ [ev]).
Proof.
  intros Ho He Hl Hx. pose proof (explained_more l h ev Hx) as Hm. pose proof Hx as [Hsh Hph].
  assert (ev ∈ h ++ [ev]) as Hin by set_solver.
  destruct ev as [|i|i|i r|]; try done; unfold serve_step; rewrite Hl;
    (destruct i as [|i]; [|by exists l; destruct i]); simpl.
  - rewrite Hl. eexists. split; [done|]. split; [done|]. simpl. by destruct Hm as [_ ?].
  - destruct (phase l) eqn:Ep; [|by eauto..]. unfold poll_permit. rewrite Ho.
    destruct (shutdown l) eqn:Es; [simpl; rewrite Hl; eexists; split; [done|]; split; simpl; set_solver|].
    destruct (0 <? available s); [|by eauto]. simpl. rewrite Hl. eexists. split; [done|]. split; simpl; [congruence|done].
  - destruct (phase l) eqn:Ep; [by eauto| |by eauto]. unfold poll_accept.
    destruct (shutdown l) eqn:Es; [simpl; rewrite Hl; eexists; split; [done|]; split; simpl; set_solver|].
    destruct r as [[client|e]|]; [| |by eauto]; simpl; rewrite Hl; (eexists; split; [done|]; split; simpl; [congruence|done]).
Qed.

Lemma main_event_not_end ev : main_event ev = true -> is_task_end ev = false.
Proof. by destruct ev. Qed.

Lemma process_step_ok p p' : process_step p p' -> process_ok p -> process_ok p'.
Proof.
  intros [y h ev He Hf|y y' h Hs Hl|y h l r Hl Hp]; simpl.
  - intros (Hy & l & Hl & Hx). split.
    + eapply system_next; [exact Hy|]. apply system_serve; [by apply main_event_not_end|done].
    + apply (serve_step_explained (server y) ev l h); [|done|done|done].
      apply (serve_reachable_open config), (ok_server _ _ _ (system_reachable_ok config fuel y Hy)).
  - intros (Hy & l & Hl' & Hx). split; [by eapply system_next|]. exists l. by rewrite Hl.
  - intros (_ & l' & Hl' & Hx). rewrite Hl' in Hl. injection Hl as <-. destruct Hx as [_ Hx]. rewrite Hp in Hx. by destruct r.
Qed.

Lemma process_run_ok p p' : rtc process_step p p' -> process_ok p -> process_ok p'.
Proof. induction 1 as [|p p1 p' Hs _ IH]; [done|]. intros Hp. by eapply IH, process_step_ok. Qed.

(** What [main] starts. *)
Lemma launched_ok s0 w : with_auth_factory config = Some s0 -> process_ok (launched (serve_step s0 Serve) w).
Proof.
  intros Hs. assert (loops s0 = [] /\ tasks s0 = []) as [Hl Ht].
  { unfold with_auth_factory, Semaphore_new in Hs. destruct (_ <=? _); by simplify_option_eq. }
  split.
  - eapply (system_next config fuel (system_start s0 w)); [by apply system_initial|].
    pose proof (system_serve config fuel (system_start s0 w) Serve eq_refl) as Hstep.
    destruct s0. simpl in Hl, Ht. subst. apply Hstep. by intros c ?%elem_of_nil.
  - simpl. rewrite Hl. eexists. split; [done|]. by split.
Qed.

(** Ctrl-C ends a waiting process within two steps. *)
Lemma shutdown_exits y h l :
  loops (server y) = [l] -> shutdown l = true -> phase l = Acquiring \/ phase l = Accepting ->
  exists y' h', process_step (Up y h) (Up y' h') /\ process_step (Up y' h') (Exited (Ok tt) h') /\
    tasks (server y') = tasks (server y).
Proof.
  intros Hl Hs Hp.
  set (ev := match phase l with Acquiring => PollPermit 0 | _ => PollAccept 0 None end).
  assert (loops (serve_step (server y) ev) !! 0%nat = Some (set_phase l (Returned (Ok tt))) /\
    tasks (serve_step (server y) ev) = tasks (server y)) as [Hl' Ht'].
  { unfold ev, serve_step, poll_permit, poll_accept. destruct Hp as [Hp|Hp]; rewrite Hp, Hl; simpl; rewrite Hp, Hs; simpl; by rewrite Hl. }
  exists (serve_system y ev), (h ++ [ev]). split_and!; [| |done].
  - apply process_serve; unfold ev; destruct Hp as [-> | ->]; try done; by intros c ?%elem_of_nil.
  - eapply process_exit; [exact Hl'|done].
Qed.

(** A schedule of the loop's events. *)
Fixpoint serves (y : System W) (evs : list ServeEvent) : bool :=
  match evs with
  | [] => true
  | ev :: evs' => main_event ev && fresh_b y (accepted_by ev) && serves (serve_system y ev) evs'
  end.

Lemma serves_run y h evs :
  serves y evs = true -> rtc process_step (Up y h) (Up (foldl serve_system y evs) (h ++ evs)).
Proof.
  revert y h. induction evs as [|ev evs IH]; intros y h; simpl; [rewrite app_nil_r; intros _; apply rtc_refl|].
  intros [[He Hf]%andb_true_iff Hs]%andb_true_iff. eapply rtc_l; [apply process_serve; [done|by apply fresh_b_spec]|].
  specialize (IH (serve_system y ev) (h ++ [ev]) Hs). by rewrite <-app_assoc in IH.
Qed.
End Process.

(** ** Properties *)

(** C4: The life of the process, from its arguments to its exit.  Whatever arguments of the declared widths it is started with and however its loop, its client tasks and the outside world interleave: it serves only with a valid configuration; while it is up it has one accept loop, at most max_connections client tasks, each on its own sockets and contacting nobody before its client's CONNECT; after Ctrl-C a loop that waits lets the process exit without an error in two steps, with the running tasks untouched until then; and it exits without an error only after Ctrl-C (or a failure to wait for it, which main ignores), and with an error only for one that accepting a connection returned. *)
Theorem process_life {W} `{Network W} `{AuthFactory W} `{RelayWorld W} `{Httparse} `{Base64}
    fuel windows filter_valid bind cli config warned s (w : W) p :
  cli_typed cli -> main windows filter_valid bind cli = Serving config warned s ->
  rtc (process_step config fuel) (launched s w) p ->
  config_valid windows config /\
  match p with
  | Up y h =>
    (exists l, loops (server y) = [l] /\
       (shutdown l = true -> phase l = Acquiring \/ phase l = Accepting ->
          exists y' h', process_step config fuel p (Up y' h') /\ process_step config fuel (Up y' h') (Exited (Ok tt) h') /\
            tasks (server y') = tasks (server y))) /\
    len (running y) <= max_connections config /\
    forall t, t ∈ running y -> inside [t_client t] (t_log t) /\ gated (t_client t) (t_log t)
  | Exited (Ok _) h => ShutdownRequested 0 ∈ h
  | Exited (Err e) h => PollAccept 0 (Some (Err e)) ∈ h
  end.
Proof.
  intros Hcli Hmain Hrun. pose proof (serving_valid _ _ _ _ _ _ _ Hcli Hmain) as Hv. split; [done|].
  destruct (serving_check _ _ _ _ _ _ _ Hmain) as (_ & _ & _ & s0 & Hs0 & ->).
  pose proof (process_run_ok config fuel _ _ Hrun (launched_ok config fuel s0 w Hs0)) as Hok.
  destruct p as [y h|[[]|e] h]; [|exact Hok|exact Hok]. destruct Hok as (Hy & l & Hl & _).
  split; [exists l; split; [done|]; intros; by eapply shutdown_exits|].
  apply (system_reachable_sound config fuel); [|done]. destruct Hv as (_ & [Hc _] & _). lia.
Qed.

(** ** A process that serves one client and is stopped *)

Definition launch_events : list ServeEvent :=
  [PollPermit 0; PollAccept 0 (Some (Ok 0%nat)); ShutdownRequested 0; PollPermit 0].

Definition launch_config : ProxyConfig := cli_config (start_cli 4096).
Definition launch_server : ServerState :=
  {| available := 4096; closed := false; loops := [{| phase := Acquiring; shutdown := false; accepted := [] |}];
     tasks := []; finished := [] |}.

Definition launch_system : System Script :=
  foldl serve_system {| server := launch_server; running := []; ended := []; shared := two_tunnels; issued := [] |} launch_events.

Lemma launch_run : rtc (process_step launch_config 20) (launched launch_server two_tunnels) (Up launch_system launch_events).
Proof. apply (serves_run launch_config 20 _ []). vm_compute. reflexivity. Qed.

Lemma process_life_witness :
  rtc (process_step launch_config 20) (launched launch_server two_tunnels) (Exited (Ok tt) launch_events) /\
  config_valid false launch_config /\ ShutdownRequested 0 ∈ launch_events.
Proof.
  assert (rtc (process_step launch_config 20) (launched launch_server two_tunnels) (Exited (Ok tt) launch_events)) as Hrun.
  { eapply rtc_r; [exact launch_run|]. eapply process_exit; reflexivity. }
  split; [exact Hrun|].
  exact (process_life 20 false (fun _ => true) (fun _ => Ok tt) (start_cli 4096) launch_config false launch_server two_tunnels
    (Exited (Ok tt) launch_events) start_cli_typed eq_refl Hrun).
Defined.
