(* ===== verification/BenchPeers.v ===== *)
(** * BenchPeers: the peers of src/bin/fastpx-bench.rs

    The benchmark puts the proxy between its own client and its own mock
    upstream.  Both are programs on one socket: a tree of reads, writes and
    shutdowns ([Prog]), so that they can be composed with the proxy, run
    piece by piece as bytes arrive.  The arguments of the benchmark and the
    proxy configuration it builds from them come first. *)

From S2P Require Import Prelude RustStr RustNet Config Auth Io Http1.

(** ** Arguments and configuration *)

Record BenchCli := {
  connections : Z;
  concurrency : Z;
  payload_bytes : Z;
  mock_ntlm : bool;
}.

Definition BenchCli_default : BenchCli :=
  {| connections := 5000; concurrency := 200; payload_bytes := 32; mock_ntlm := false |}.

Definition SocketAddr_port (a : SocketAddr) : Z :=
  match a with SocketV4 _ p => p | SocketV6 _ p _ _ => p end.

(** The proxy between the two: [proxy_address] and [upstream_address] are the
    addresses the system gave the two listeners. *)
Definition bench_config (cli : BenchCli) (proxy_address upstream_address : SocketAddr) : ProxyConfig := {|
  listen := proxy_address;
  upstream := Endpoint_new (fmt_ip (SocketAddr_ip upstream_address)) (SocketAddr_port upstream_address);
  auth := if mock_ntlm cli then AuthNtlm else AuthNone;
  routing := RoutingProxyOnly;
  direct_cidrs := [];
  dns_timeout := 2;
  connect_timeout := 5;
  idle_timeout := Some 5;
  max_header_bytes := 32 * 1024;
  max_connections := uint_mul 64 (concurrency cli) 2;
|}.

(** ** Programs on a socket *)

(** [Stuck] is a loop that used up its fuel. *)
Inductive Prog (A : Type) :=
| Done (r : result IoError A)
| PRead (wanted : Z) (k : result IoError bytes -> Prog A)
| PWrite (data : bytes) (k : result IoError unit -> Prog A)
| PShutdown (k : result IoError unit -> Prog A)
| Stuck.
Arguments Done {A} r.
Arguments PRead {A} wanted k.
Arguments PWrite {A} data k.
Arguments PShutdown {A} k.
Arguments Stuck {A}.

Global Instance Prog_ret : MRet Prog := fun A a => Done (Ok a).

(** Sequencing with [?]. *)
Fixpoint pbind {A B} (f : A -> Prog B) (p : Prog A) : Prog B :=
  match p with
  | Done (Ok a) => f a
  | Done (Err e) => Done (Err e)
  | PRead n k => PRead n (fun r => pbind f (k r))
  | PWrite data k => PWrite data (fun r => pbind f (k r))
  | PShutdown k => PShutdown (fun r => pbind f (k r))
  | Stuck => Stuck
  end.

Global Instance Prog_bind : MBind Prog := @pbind.

Definition fail {A} (e : IoError) : Prog A := Done (Err e).
Definition read_ (wanted : Z) : Prog bytes := PRead wanted Done.
Definition write_ (data : bytes) : Prog unit := PWrite data Done.
Definition shutdown_ : Prog unit := PShutdown Done.

(** ** The functions of the benchmark *)

Definition bench_error (kind : IoErrorKind) (message : string) : IoError :=
  {| io_kind := kind; io_message := lit message |}.

Fixpoint read_head_loop (fuel : nat) (bs : bytes) : Prog bytes :=
  match fuel with
  | O => Stuck
  | S fuel' =>
    match position (fun window => bool_decide (window = head_end)) (windows 4 bs) with
    | Some p => mret (drop (p + 4) bs)
    | None =>
      if 32 * 1024 <=? len bs then fail (bench_error InvalidData "HTTP head exceeds benchmark limit")
      else
        chunk ← read_ 1024;
        if bool_decide (chunk = [])
        then fail (bench_error UnexpectedEofKind "connection closed before HTTP head completed")
        else read_head_loop fuel' (bs ++ chunk)
    end
  end.

(** A read of at least one byte each, up to the limit. *)
Definition head_fuel : nat := Z.to_nat (32 * 1024 + 1).

Definition read_head : Prog bytes := read_head_loop head_fuel [].
Global Arguments read_head : simpl never.
Global Arguments head_fuel : simpl never.

(** [AsyncReadExt::read_to_end]: reads until an empty one; how much it asks
    for is its own business. *)
Fixpoint read_to_end (fuel : nat) (room : Z) (acc : bytes) : Prog bytes :=
  match fuel with
  | O => Stuck
  | S fuel' =>
    chunk ← read_ room;
    if bool_decide (chunk = []) then mret acc else read_to_end fuel' room (acc ++ chunk)
  end.

(** The responses of the mock upstream. *)
Definition mock_offer : bytes :=
  lit "HTTP/1.1 407 Proxy Authentication Required" ++ [13; 10] ++
  lit "Proxy-Authenticate: NTLM" ++ [13; 10] ++ lit "Content-Length: 0" ++ head_end.
Definition mock_challenge : bytes :=
  lit "HTTP/1.1 407 Proxy Authentication Required" ++ [13; 10] ++
  lit "Proxy-Authenticate: NTLM dHlwZTI=" ++ [13; 10] ++ lit "Content-Length: 0" ++ head_end.
Definition mock_established : bytes := lit "HTTP/1.1 200 Connection Established" ++ head_end.

Section Programs.
Context (fuel : nat) (room : Z).

Definition handle_mock_upstream (ntlm : bool) : Prog unit :=
  _ ← read_head;
  (if ntlm then
     write_ mock_offer;;
     _ ← read_head;
     write_ mock_challenge;;
     _ ← read_head;
     mret tt
   else mret tt);;
  write_ mock_established;;
  payload ← read_to_end fuel room [];
  write_ payload;;
  shutdown_.

Definition bench_request : bytes :=
  lit "CONNECT benchmark.test:443 HTTP/1.1" ++ [13; 10] ++ lit "Host: benchmark.test:443" ++ head_end.

(** [run_client] after the connection is made; the elapsed time it returns
    is left to the clock. *)
Definition run_client (payload : bytes) : Prog unit :=
  write_ bench_request;;
  remaining ← read_head;
  if negb (bool_decide (remaining = []))
  then fail (bench_error InvalidData "unexpected bytes after CONNECT response")
  else
    write_ payload;;
    shutdown_;;
    echoed ← read_to_end fuel room [];
    if negb (bool_decide (echoed = payload)) then fail (bench_error InvalidData "tunnel echo mismatch")
    else mret tt.
End Programs.
Global Arguments handle_mock_upstream : simpl never.
Global Arguments run_client : simpl never.

(** ** Equal programs *)

Inductive peq {A} : Prog A -> Prog A -> Prop :=
| peq_done r : peq (Done r) (Done r)
| peq_read n k k' : (forall r, peq (k r) (k' r)) -> peq (PRead n k) (PRead n k')
| peq_write data k k' : (forall r, peq (k r) (k' r)) -> peq (PWrite data k) (PWrite data k')
| peq_shutdown k k' : (forall r, peq (k r) (k' r)) -> peq (PShutdown k) (PShutdown k')
| peq_stuck : peq Stuck Stuck.

Create HintDb peq.
#[export] Hint Constructors peq : peq.

Global Instance peq_equivalence {A} : Equivalence (@peq A).
Proof.
  split.
  - intros p. induction p; auto with peq.
  - intros p q Hpq. induction Hpq; auto with peq.
  - intros p q r Hpq. revert r. induction Hpq; intros r' Hqr; inversion Hqr; subst; auto with peq.
Qed.

Lemma pbind_peq {A B} (f g : A -> Prog B) p q :
  peq p q -> (forall a, peq (f a) (g a)) -> peq (pbind f p) (pbind g q).
Proof. intros Hpq Hfg. induction Hpq as [[a|e]| | | |]; simpl; auto with peq. Qed.

Global Instance pbind_proper {A B} (f : A -> Prog B) : Proper (peq ==> peq) (pbind f).
Proof. intros p q Hpq. by apply pbind_peq. Qed.

Lemma pbind_assoc {A B C} (f : A -> Prog B) (g : B -> Prog C) p :
  peq (pbind g (pbind f p)) (pbind (fun a => pbind g (f a)) p).
Proof. induction p as [[a|e]| | | |]; simpl; auto with peq; reflexivity. Qed.

(** ** Running a program on what has arrived *)

(** How the network cuts the bytes on their way into reads: the number of
    bytes of the next one, at least one and at most what was asked. *)
Definition cut_of (cut : bytes -> nat) (wanted : Z) (inbox : bytes) : nat :=
  Nat.max 1 (Nat.min (Z.to_nat wanted) (cut inbox)).

(** Run until the program waits for bytes that are not there or ends: what
    it wrote, whether it shut its side down, and where it is. *)
Fixpoint drive {A} (cut : bytes -> nat) (inbox : bytes) (eof : bool) (p : Prog A) : (bytes * bool) * Prog A :=
  match p with
  | PRead n k =>
    match inbox with
    | [] => if eof then drive cut [] eof (k (Ok [])) else ([], false, p)
    | _ => let c := cut_of cut n inbox in drive cut (drop c inbox) eof (k (Ok (take c inbox)))
    end
  | PWrite data k =>
    let '((out, shut), p') := drive cut inbox eof (k (Ok tt)) in (data ++ out, shut, p')
  | PShutdown k =>
    let '((out, _), p') := drive cut inbox eof (k (Ok tt)) in (out, true, p')
  | Done _ | Stuck => ([], false, p)
  end.

Lemma drive_peq {A} cut (p q : Prog A) inbox eof :
  peq p q ->
  fst (drive cut inbox eof p) = fst (drive cut inbox eof q) /\
  peq (snd (drive cut inbox eof p)) (snd (drive cut inbox eof q)).
Proof.
  intros Hpq. revert inbox. induction Hpq as [r|n k k' Hk IH|data k k' Hk IH|k k' Hk IH|]; intros inbox; simpl.
  1, 5: split; [done|constructor].
  - destruct inbox as [|b inbox]; [|apply IH]. destruct eof; [apply IH|]. simpl. auto with peq.
  - specialize (IH (Ok tt) inbox). destruct (drive cut inbox eof (k (Ok tt))) as [[o sh] p'].
    destruct (drive cut inbox eof (k' (Ok tt))) as [[o' sh'] q']. simpl in *. by destruct IH as [[= -> ->] ?].
  - specialize (IH (Ok tt) inbox). destruct (drive cut inbox eof (k (Ok tt))) as [[o sh] p'].
    destruct (drive cut inbox eof (k' (Ok tt))) as [[o' sh'] q']. simpl in *. by destruct IH as [[= -> ->] ?].
Qed.

(** The next piece of what has arrived. *)
Lemma cut_pos cut n (inbox : bytes) : inbox <> [] -> take (cut_of cut n inbox) inbox <> [].
Proof.
  destruct inbox as [|b inbox]; [done|]. intros _. assert (1 <= cut_of cut n (b :: inbox))%nat by (unfold cut_of; lia).
  by destruct (cut_of cut n (b :: inbox)); [lia|].
Qed.

Lemma drive_read {A B} cut (f : A -> Prog B) n (g : bytes -> Prog A) inbox eof :
  inbox <> [] ->
  drive cut inbox eof (pbind f (read_ n ≫= g)) =
    drive cut (drop (cut_of cut n inbox) inbox) eof (pbind f (g (take (cut_of cut n inbox) inbox))).
Proof. by destruct inbox. Qed.

Lemma position_header_end bs :
  find_header_end bs = (fun p => Z.of_nat p + 4) <$> position (fun window => bool_decide (window = head_end)) (windows 4 bs).
Proof. reflexivity. Qed.

(** However the stream is cut, the reader finds the end of the first head and
    returns exactly the bytes it has read past it. *)
Lemma drive_read_head_loop {B} cut (f : bytes -> Prog B) fuel bs data closed e :
  find_header_end (bs ++ data) = Some e -> e <= 32 * 1024 -> (Z.to_nat (32 * 1024 - len bs) < fuel)%nat ->
  exists n, e <= len (bs ++ take n data) /\
    drive cut data closed (pbind f (read_head_loop fuel bs)) =
      drive cut (drop n data) closed (f (drop (Z.to_nat e) (bs ++ take n data))).
Proof.
  revert bs data. induction fuel as [|fuel IH]; intros bs data He Hm Hf; [lia|]. cbn [read_head_loop].
  destruct (position _ (windows 4 bs)) as [p|] eqn:Ep.
  { assert (find_header_end bs = Some (Z.of_nat p + 4)) as Hb by (by rewrite position_header_end, Ep).
    pose proof (find_header_end_bound _ _ Hb). rewrite (find_header_end_app _ _ _ Hb) in He. injection He as <-.
    exists O. rewrite take_0, drop_0, app_nil_r. split; [lia|]. by replace (Z.to_nat (Z.of_nat p + 4)) with (p + 4)%nat by lia. }
  assert (find_header_end bs = None) as Hb by (by rewrite position_header_end, Ep).
  assert (data <> []) as Hd by (intros ->; rewrite app_nil_r in He; congruence).
  assert (len bs < e) as Hlt.
  { destruct (decide (e <= len bs)) as [Hle|]; [|lia]. exfalso. apply find_header_end_app_inv in He; [congruence|lia]. }
  destruct (_ <=? _) eqn:El; destr_bool; [lia|].
  assert (length data <> 0)%nat by (by destruct data).
  rewrite drive_read by done. cbv beta. rewrite bool_decide_eq_false_2 by (by apply cut_pos).
  set (c := cut_of cut 1024 data). assert (1 <= c)%nat by (unfold c, cut_of; lia).
  destruct (IH (bs ++ take c data) (drop c data)) as (n & Hn & Hdr); [by rewrite <-app_assoc, take_drop|done| |].
  { unfold len in *. rewrite length_app, length_take. lia. }
  exists (c + n)%nat. rewrite Hdr, drop_drop, <-!app_assoc. rewrite <-app_assoc in Hn. by rewrite take_take_drop in *.
Qed.

Lemma drive_read_head_rest {B} cut (f : bytes -> Prog B) data closed e :
  find_header_end data = Some e -> e <= 32 * 1024 ->
  exists n, e <= len (take n data) /\
    drive cut data closed (pbind f read_head) = drive cut (drop n data) closed (f (drop (Z.to_nat e) (take n data))).
Proof. intros He Hm. apply (drive_read_head_loop cut f head_fuel [] data closed e He Hm). unfold head_fuel, len. simpl. lia. Qed.

(** A head that arrives alone is read completely. *)
Lemma drive_read_head {B} cut (f : bytes -> Prog B) data closed :
  find_header_end data = Some (len data) -> len data <= 32 * 1024 ->
  drive cut data closed (pbind f read_head) = drive cut [] closed (f []).
Proof.
  intros He Hm. destruct (drive_read_head_rest cut f data closed (len data) He Hm) as (n & Hn & ->).
  unfold len in Hn. rewrite length_take in Hn. by rewrite !drop_ge by (rewrite ?length_take; unfold len; lia).
Qed.

(** Reading to the end collects what arrives and waits for more. *)
Lemma drive_read_to_end {B} cut (f : bytes -> Prog B) fuel room acc data :
  exists n acc', drive cut data false (pbind f (read_to_end fuel room acc)) =
    ([], false, pbind f (read_to_end n room acc')) /\ ((length data < fuel)%nat -> acc' = acc ++ data /\ (fuel <= n + length data)%nat).
Proof.
  revert acc data. induction fuel as [|fuel IH]; intros acc data.
  { exists O, acc. split; [done|lia]. }
  destruct data as [|b data].
  { exists (S fuel), acc. split; [done|]. rewrite app_nil_r. simpl. auto with lia. }
  cbn [read_to_end]. rewrite drive_read by done. cbv beta.
  assert (take (cut_of cut room (b :: data)) (b :: data) <> []) as Hne by (by apply cut_pos).
  rewrite bool_decide_eq_false_2 by done.
  destruct (IH (acc ++ take (cut_of cut room (b :: data)) (b :: data)) (drop (cut_of cut room (b :: data)) (b :: data)))
    as (n & acc' & Hd & Hn).
  exists n, acc'. split; [exact Hd|]. intros Hlen. rewrite length_drop in Hn. unfold cut_of in *. simpl length in *.
  destruct Hn as [-> Hn]; [lia|]. split; [by rewrite <-app_assoc, take_drop|lia].
Qed.

Lemma drive_read_to_end_eof {B} cut (f : bytes -> Prog B) fuel room acc data :
  (length data < fuel)%nat ->
  drive cut data true (pbind f (read_to_end fuel room acc)) = drive cut [] true (f (acc ++ data)).
Proof.
  revert acc data. induction fuel as [|fuel IH]; intros acc data Hf; [lia|]. cbn [read_to_end].
  destruct data as [|b data]; [simpl; by rewrite app_nil_r|].
  rewrite drive_read by done. cbv beta.
  assert (take (cut_of cut room (b :: data)) (b :: data) <> []) as Hne by (by apply cut_pos).
  rewrite bool_decide_eq_false_2 by done. rewrite IH; [by rewrite <-app_assoc, take_drop|].
  rewrite length_drop. unfold cut_of. simpl length in *. lia.
Qed.
