(* ===== verification/Mock.v ===== *)
(** * Mock: the benchmark, end to end

    The proxy between the peers of src/bin/fastpx-bench.rs.  [MockWorld] is a
    world whose sockets have those programs at their other end: socket 0 is
    the benchmark's client, every connection the proxy makes is accepted by
    [run_mock_upstream], which starts [handle_mock_upstream] on it.  The mock
    upstream keeps the promise of [Upstreams], so the exchange is the one
    [Protocol] specifies.  [Session] is the relay phase: the two programs and
    the relay between them, in every interleaving. *)

From S2P Require Import Prelude RustStr RustNet Config Routing Auth Io Http1 Http1Body Relay Challenge Base64 Server Scenario Handshake Tunnel Protocol Client BenchPeers.

(** ** The mock upstream as a conversation *)

Definition echo (payload : bytes) : Prog unit := write_ payload;; shutdown_.

(** Answer a head with each of the texts, then echo. *)
Fixpoint converse (fuel : nat) (room : Z) (texts : list bytes) : Prog unit :=
  match texts with
  | [] => read_to_end fuel room [] ≫= echo
  | text :: texts' => _ ← read_head; write_ text;; converse fuel room texts'
  end.

Lemma converse_nil fuel room : converse fuel room [] = pbind echo (read_to_end fuel room []).
Proof. reflexivity. Qed.
Lemma converse_cons fuel room text texts :
  converse fuel room (text :: texts) = pbind (fun _ => PWrite text (fun r => pbind (fun _ => converse fuel room texts) (Done r))) read_head.
Proof. reflexivity. Qed.

Global Arguments converse : simpl never.

Definition mock_texts (ntlm : bool) : list bytes :=
  (if ntlm then [mock_offer; mock_challenge] else []) ++ [mock_established].

Lemma handle_mock_upstream_converses fuel room ntlm :
  peq (handle_mock_upstream fuel room ntlm) (converse fuel room (mock_texts ntlm)).
Proof.
  destruct ntlm; unfold handle_mock_upstream, mbind, Prog_bind; cbn [mock_texts app]; rewrite converse_cons;
    (apply pbind_peq; [done|]); intros _; [|done].
  cbn [pbind write_]. apply peq_write. intros [[]|e]; [|apply peq_done]. cbn [pbind].
  rewrite pbind_assoc, converse_cons. apply pbind_peq; [done|]. intros _.
  cbn [pbind write_]. apply peq_write. intros [[]|e]; [|apply peq_done]. cbn [pbind].
  rewrite pbind_assoc, converse_cons. by apply pbind_peq.
Qed.

(** ** A world with these peers *)

(** A run of the benchmark: its arguments and the addresses of its
    listeners, how the network cuts streams into reads, what the peers'
    [read_to_end] asks for and its fuel, and the schedule of the relay. *)
Record Setup := {
  su_cli : BenchCli;
  su_proxy : SocketAddr;
  su_upstream : SocketAddr;
  su_cut : bytes -> nat;
  su_fuel : nat;
  su_room : Z;
  su_schedule : list RelayEvent;
}.

Definition su_ntlm (su : Setup) : bool := mock_ntlm (su_cli su).
Definition su_config (su : Setup) : ProxyConfig := bench_config (su_cli su) (su_proxy su) (su_upstream su).

(** The program at the other end of a socket, what it has written that the
    proxy has not read, and whether it has shut its side down. *)
Record MockPeer := { mp_prog : Prog unit; mp_out : bytes; mp_shut : bool }.

Record MockWorld (su : Setup) := { mw_peers : list MockPeer; mw_accepts : nat }.
Arguments Build_MockWorld {su}.
Arguments mw_peers {su}.
Arguments mw_accepts {su}.

(** Bytes, or the end of the stream, reach a peer. *)
Definition feed (su : Setup) (data : bytes) (closed : bool) (p : MockPeer) : MockPeer :=
  let '((out, shut), prog) := drive (su_cut su) data closed (mp_prog p) in
  {| mp_prog := prog; mp_out := mp_out p ++ out; mp_shut := mp_shut p || shut |}.

Definition start_peer (su : Setup) (prog : Prog unit) : MockPeer :=
  feed su [] false {| mp_prog := prog; mp_out := []; mp_shut := false |}.

(** Bytes are taken off a peer's stream. *)
Definition consume (n : nat) (p : MockPeer) : MockPeer :=
  {| mp_prog := mp_prog p; mp_out := drop n (mp_out p); mp_shut := mp_shut p |}.

(** [run_mock_upstream]'s part in a connection: accept it and spawn. *)
Definition accept_mock (su : Setup) : MockPeer :=
  start_peer su (handle_mock_upstream (su_fuel su) (su_room su) (su_ntlm su)).

Definition set_mock {su} (w : MockWorld su) (k : sock) (p : MockPeer) : MockWorld su :=
  Build_MockWorld (<[k := p]> (mw_peers w)) (mw_accepts w).

Definition mock_cut (su : Setup) (n : Z) (out : bytes) : nat := Nat.min (Z.to_nat n) (cut_of (su_cut su) n out).

Global Instance mock_network su : Network (MockWorld su) := {|
  net_read := fun k n w =>
    match mw_peers w !! k with
    | Some p => (Ok (take (mock_cut su n (mp_out p)) (mp_out p)),
                 set_mock w k (consume (mock_cut su n (mp_out p)) p))
    | None => (Ok [], w)
    end;
  net_write_all := fun k data w =>
    match mw_peers w !! k with
    | Some p => (Ok tt, set_mock w k (feed su data false p))
    | None => (Ok tt, w)
    end;
  net_set_nodelay := fun _ w => (Ok tt, w);
  net_connect := fun _ _ w =>
    match mw_accepts w with
    | O => (Elapsed, w)
    | S more => (InTime (Ok (length (mw_peers w))), Build_MockWorld (mw_peers w ++ [accept_mock su]) more)
    end;
  net_lookup := fun _ _ _ w => (Elapsed, w);
|}.

(** The schedule of a relay does not move the peers: they are at its start. *)
Global Instance mock_relay su : RelayWorld (MockWorld su) := fun _ _ w => ((0, su_schedule su), w).

Lemma set_mock_lookup {su} (w : MockWorld su) k p q : mw_peers w !! k = Some p -> mw_peers (set_mock w k q) !! k = Some q.
Proof. intros Hk. simpl. by eapply list_lookup_insert_eq, lookup_lt_Some. Qed.

Lemma set_mock_other {su} (w : MockWorld su) k j q : k <> j -> mw_peers (set_mock w k q) !! j = mw_peers w !! j.
Proof. intros. simpl. by rewrite list_lookup_insert_ne. Qed.

Global Program Instance mock_reliable su : ReliableReads (MockWorld su) :=
  {| pending k w := from_option mp_out [] (mw_peers w !! k) |}.
Next Obligation.
  intros su k n w Hn. simpl. destruct (mw_peers w !! k) as [p|] eqn:E.
  - do 2 eexists. split; [done|]. erewrite set_mock_lookup by done. simpl. rewrite take_drop.
    unfold mock_cut, cut_of, len. rewrite length_take. split_and!; [done|lia|].
    destruct (mp_out p); [done|]. by destruct (Nat.min _ _) eqn:En; [lia|].
  - exists [], w. rewrite E. split_and!; [done|done|change (len (@nil Z)) with 0; lia|done].
Qed.

Global Instance mock_writes su : ReliableWrites (MockWorld su).
Proof. split; simpl; [|eauto]. intros s data w. destruct (mw_peers w !! s); eauto. Qed.

(** ** The mock upstream keeps the promise of [Upstreams] *)

Lemma drive_idle_head {B} cut (f : bytes -> Prog B) :
  drive cut [] false (pbind f read_head) = ([], false, pbind f read_head).
Proof.
  unfold read_head. assert (exists n, head_fuel = S n) as [n ->] by (exists (Z.to_nat (32 * 1024)); unfold head_fuel; lia).
  reflexivity.
Qed.

Lemma converse_idle cut fuel room texts :
  drive cut [] false (converse fuel room texts) = ([], false, converse fuel room texts).
Proof. destruct texts as [|t texts]; [rewrite converse_nil; by destruct fuel|]. rewrite converse_cons. apply drive_idle_head. Qed.

(** A request as the proxy sends it: a whole head the mock's reader takes. *)
Definition whole_head (data : bytes) : Prop := find_header_end data = Some (len data) /\ len data <= 32 * 1024.

Lemma converse_answers cut fuel room text texts data :
  whole_head data ->
  drive cut data false (converse fuel room (text :: texts)) = (text, false, converse fuel room texts).
Proof.
  intros [He Hl]. rewrite converse_cons, drive_read_head by done. cbn [pbind drive]. rewrite converse_idle. by rewrite app_nil_r.
Qed.

Section Promise.
Context (su : Setup) (c : MockPeer).

(** The peer of a connection: what it will answer. *)
Definition conversing (texts : list bytes) (p : MockPeer) : Prop :=
  peq (mp_prog p) (converse (su_fuel su) (su_room su) texts) /\ mp_shut p = false.

(** The client [c] waits, and the listener takes the next connections. *)
Definition mock_listens (ds : list (list message)) (w : MockWorld su) : Prop :=
  mw_accepts w = length ds /\ Forall (fun msgs => map wire msgs = mock_texts (su_ntlm su)) ds /\
  mw_peers w !! 0%nat = Some c /\ mp_out c = [].

Definition mock_answers (msgs : list message) (k : sock) (w : MockWorld su) : Prop :=
  k <> 0%nat /\ exists p, mw_peers w !! k = Some p /\ conversing (map wire msgs) p.

Lemma conversing_consume texts p n : conversing texts p -> conversing texts (consume n p).
Proof. done. Qed.

Lemma feed_conversing text texts p data :
  conversing (text :: texts) p -> whole_head data ->
  conversing texts (feed su data false p) /\ mp_out (feed su data false p) = mp_out p ++ text.
Proof.
  intros [Hp Hs] Hd. unfold feed, conversing.
  destruct (drive_peq (su_cut su) _ _ data false Hp) as [H1 H2]. rewrite converse_answers in H1, H2 by done.
  destruct (drive _ _ _ (mp_prog p)) as [[out shut] prog]. simpl in *. injection H1 as -> ->. by rewrite Hs.
Qed.

Lemma feed_echoing p data :
  conversing [] p -> mp_out (feed su data false p) = mp_out p.
Proof.
  intros [Hp _]. unfold feed. destruct (drive_peq (su_cut su) _ _ data false Hp) as [H1 _].
  rewrite converse_nil in H1.
  destruct (drive_read_to_end (su_cut su) echo (su_fuel su) (su_room su) [] data) as (n & acc & Hd & _).
  rewrite Hd in H1. destruct (drive _ _ _ (mp_prog p)) as [[out shut] prog]. simpl in *.
  injection H1 as -> ->. apply app_nil_r.
Qed.

Lemma accept_conversing : conversing (mock_texts (su_ntlm su)) (accept_mock su) /\ mp_out (accept_mock su) = [].
Proof.
  unfold accept_mock, start_peer, feed, conversing. cbn [mp_prog mp_out mp_shut].
  destruct (drive_peq (su_cut su) _ _ [] false (handle_mock_upstream_converses (su_fuel su) (su_room su) (su_ntlm su)))
    as [H1 H2].
  rewrite converse_idle in H1, H2. destruct (drive _ _ _ _) as [[out shut] prog]. simpl in *. by injection H1 as -> ->.
Qed.

Program Definition mock_upstreams : Upstreams (MockWorld su) := {|
  request_ok := whole_head;
  answers := mock_answers;
  listens := mock_listens;
|}.
Next Obligation.
  intros msgs k data w (Hk0 & p & Hk & Hp) Hd. simpl. rewrite Hk. eexists. split; [done|].
  erewrite set_mock_lookup by done. destruct msgs as [|m msgs]; simpl.
  - split; [done|]. rewrite app_nil_r. by apply feed_echoing.
  - destruct (feed_conversing _ _ _ _ Hp Hd) as [Hc Ho]. split; [|done]. intros _. split; [done|].
    eexists. split; [by eapply (set_mock_lookup w)|done].
Qed.
Next Obligation.
  intros msgs k j n w r w' (Hk0 & p & Hk & Hp). simpl. destruct (mw_peers w !! j) as [q|] eqn:Ej; intros [= <- <-];
    (split; [done|]); [|eauto].
  destruct (decide (j = k)) as [->|]; [simplify_eq; eexists; split; [by eapply (set_mock_lookup w)|done]|].
  exists p. by rewrite set_mock_other.
Qed.
Next Obligation. intros msgs k w Ha. by exists w. Qed.
Next Obligation.
  intros ds msgs k data w r w' (Ha & Hds & H0 & Hc) (Hk0 & p & Hk & _). simpl. rewrite Hk. intros [= <- <-].
  split_and!; [done|done| |done]. by rewrite set_mock_other.
Qed.
Next Obligation.
  intros ds j n w r w' (Ha & Hds & H0 & Hc). simpl.
  destruct (mw_peers w !! j) as [q|] eqn:Ej; intros [= <- <-]; [|done].
  split_and!; [done|done| |done]. destruct (decide (j = 0%nat)) as [->|]; [|by rewrite set_mock_other].
  simplify_eq. erewrite set_mock_lookup by done. unfold consume. rewrite Hc, drop_nil. by destruct c; simpl in *; subst.
Qed.
Next Obligation. by intros ds msgs k w r w' Hl _ [= <- <-]. Qed.
Next Obligation.
  intros ds target limit w (Ha & Hds & H0 & Hc). simpl. rewrite Ha. destruct ds as [|msgs more]; simpl; [by eexists|].
  inversion Hds as [|? ? Hm Hmore]; subst. do 2 eexists. split; [done|].
  assert ((mw_peers w ++ [accept_mock su]) !! length (mw_peers w) = Some (accept_mock su)) as Hlk
    by (by apply list_lookup_middle).
  destruct accept_conversing as [Hconv Hout]. split_and!; [| |].
  - split; [by destruct (mw_peers w)|]. eexists. split; [exact Hlk|]. by rewrite Hm.
  - change (from_option mp_out [] ((mw_peers w ++ [accept_mock su]) !! length (mw_peers w)) = []). by rewrite Hlk.
  - split_and!; [done|done| |done]. simpl. rewrite lookup_app_l; [done|]. by eapply lookup_lt_Some.
Qed.
End Promise.

(** ** The exchange *)

Definition header (nm v : string) : Header := {| name := lit nm; value := lit v |}.

Definition mock_message (text : bytes) (r : ResponseHead) : message := {| m_head := text; m_response := r; m_body := [] |}.

Definition offer_response : ResponseHead :=
  {| version := 1; status := 407; headers := [header "Proxy-Authenticate" "NTLM"; header "Content-Length" "0"] |}.
Definition challenge_response : ResponseHead :=
  {| version := 1; status := 407; headers := [header "Proxy-Authenticate" "NTLM dHlwZTI="; header "Content-Length" "0"] |}.
Definition established_response : ResponseHead := {| version := 1; status := 200; headers := [] |}.

Definition mock_messages (ntlm : bool) : list message :=
  (if ntlm then [mock_message mock_offer offer_response; mock_message mock_challenge challenge_response] else []) ++
  [mock_message mock_established established_response].

(** What the parsing and the encoding crates make of the benchmark's fixed
    texts. *)
Class BenchCrates `{Httparse} `{Base64} : Prop := {
  parsed_offer : response_parse 64 mock_offer = Ok {| parsed_version := Some 1; parsed_code := Some 407;
    parsed_headers := [(lit "Proxy-Authenticate", lit "NTLM"); (lit "Content-Length", lit "0")] |};
  parsed_challenge : response_parse 64 mock_challenge = Ok {| parsed_version := Some 1; parsed_code := Some 407;
    parsed_headers := [(lit "Proxy-Authenticate", lit "NTLM dHlwZTI="); (lit "Content-Length", lit "0")] |};
  parsed_established : response_parse 64 mock_established = Ok {| parsed_version := Some 1; parsed_code := Some 200;
    parsed_headers := [] |};
  parsed_bench_request : request_parse 64 bench_request =
    Ok {| parsed_method := Some (lit "CONNECT"); parsed_path := Some (lit "benchmark.test:443") |};
  encoded_type1 : b64_encode (lit "type1") = lit "dHlwZTE=";
  decoded_type2 : b64_decode (lit "dHlwZTI=") = Some (lit "type2");
  encoded_type3 : b64_encode (lit "type3") = lit "dHlwZTM=";
}.

(** [Proxy::with_auth_factory(config, MockFactory)] or [Proxy::new(config)]. *)
Definition bench_provider (ntlm : bool) (W : Type) : AuthFactory W :=
  if ntlm then MockFactory W else NativeAuthFactory_other W.

Program Definition native_local (W : Type) : @LocalProvider W (NativeAuthFactory_other W) :=
  @Build_LocalProvider W (NativeAuthFactory_other W)
    (fun scheme name => fst (native_create_unsupported scheme name tt)) (fun ctx _ => match ctx with end) _ _.
Next Obligation. reflexivity. Qed.
Next Obligation. by intros W []. Qed.

Definition bench_local (ntlm : bool) (W : Type) : @LocalProvider W (bench_provider ntlm W) :=
  match ntlm with true => MockFactory_local W | false => native_local W end.

Global Instance mock_provider su : AuthFactory (MockWorld su) := bench_provider (su_ntlm su) (MockWorld su).
Global Instance mock_local su : LocalProvider (MockWorld su) := bench_local (su_ntlm su) (MockWorld su).

Definition bench_destination : Endpoint := Endpoint_new (lit "benchmark.test") 443.

(** The actions of the exchange. *)
Definition mock_actions (ntlm : bool) : list action :=
  [Dial; Request None] ++
  (if ntlm then [Request (Some (lit "NTLM dHlwZTE=")); Request (Some (lit "NTLM dHlwZTM="))] else []).

Section Exchange.
Context `{Httparse} `{Base64} `{!BenchCrates}.

Lemma mock_messages_wire ntlm : map wire (mock_messages ntlm) = mock_texts ntlm.
Proof. destruct ntlm; unfold wire; simpl; by rewrite ?app_nil_r. Qed.

Lemma mock_messages_fit ntlm config fuel :
  max_header_bytes config = 32 * 1024 -> (0 < fuel)%nat -> Forall (message_fits config fuel) (mock_messages ntlm).
Proof.
  intros Hmax Hf.
  assert (forall text r, find_header_end text = Some (len text) -> len text <= 32 * 1024 ->
    parse_response_head text = Ok r -> (status r = 407 -> response_body r []) ->
    message_fits config fuel (mock_message text r)) as Hm.
  { intros text r He Hl Hp Hb. split; [|done]. unfold message_ok. rewrite Hmax. by split_and!. }
  destruct ntlm; unfold mock_messages; cbn [app]; repeat apply Forall_cons_2; try apply Forall_nil_2; apply Hm;
    try (vm_compute; reflexivity); try (vm_compute; congruence); unfold parse_response_head;
    rewrite ?parsed_offer, ?parsed_challenge, ?parsed_established; reflexivity.
Qed.

Lemma token1 : lit "NTLM dHlwZTE=" = header_name Ntlm ++ lit " " ++ b64_encode (lit "type1").
Proof. by rewrite encoded_type1. Qed.
Lemma token3 : lit "NTLM dHlwZTM=" = header_name Ntlm ++ lit " " ++ b64_encode (lit "type3").
Proof. by rewrite encoded_type3. Qed.

Lemma mock_spec su rest :
  spec_tunnel (W := MockWorld su) (su_config su) (mock_messages (su_ntlm su) :: rest) =
    (mock_actions (su_ntlm su), Ok ([], [])).
Proof.
  unfold spec_tunnel, mock_local, mock_provider, su_config, bench_config, su_ntlm.
  destruct (mock_ntlm (su_cli su)); [|reflexivity].
  assert (decode_challenge {| token := Some (lit "dHlwZTI=") |} = Ok (Some (lit "type2"))) as Hd
    by (unfold decode_challenge; simpl; by rewrite decoded_type2).
  cbn [mock_messages app]. unfold answer. cbn [auth m_response mock_message].
  assert (choose_scheme offer_response AuthNtlm = Ok (Ntlm, {| token := None |})) as -> by (vm_compute; reflexivity).
  unfold MAX_AUTH_ROUNDS. cbn [negotiate from_option m_response mock_message].
  assert (find_challenge challenge_response Ntlm = Some {| token := Some (lit "dHlwZTI=") |}) as ->
    by (vm_compute; reflexivity).
  cbv beta iota. rewrite Hd. unfold mock_actions. rewrite token1, token3. reflexivity.
Qed.

(** The requests are heads the mock upstream reads completely. *)
Lemma mock_sendable su c :
  sendable (Upstreams0 := mock_upstreams su c) bench_destination (mock_actions (su_ntlm su)).
Proof.
  assert (forall auth, find_header_end (as_bytes (connect_request_text bench_destination auth)) =
      Some (len (as_bytes (connect_request_text bench_destination auth))) ->
      len (as_bytes (connect_request_text bench_destination auth)) <= 32 * 1024 ->
    match Request auth with
    | Request auth => @request_ok _ _ _ (mock_upstreams su c) (as_bytes (connect_request_text bench_destination auth))
    | Dial => True end) as Hr by (by split).
  unfold mock_actions. destruct (su_ntlm su); repeat apply Forall_cons_2; try apply Forall_nil_2; try done;
    apply Hr; vm_compute; congruence.
Qed.
End Exchange.
