(* ===== verification/Session.v ===== *)
(** * Session: the relay between the benchmark's peers

    Once its tunnel is open, the benchmark's client sends its payload, closes
    its side and reads; the mock upstream reads to the end, echoes and closes.
    A session is the relay of src/relay.rs with these two programs: a
    completion of a pump moves bytes between the peers, in any order the
    runtime chooses, with any cutting into reads and any passing of time.
    The loopback sockets themselves do not fail. *)

From S2P Require Import Prelude RustStr RustNet Config Auth Io Http1 Relay BenchPeers Mock.

(** ** States and steps *)

Record Session := { ss_relay : RelayState; ss_client : MockPeer; ss_up : MockPeer }.

Definition pump_of (st : RelayState) (d : Direction) : Pump :=
  match d with ClientToUpstream => client_to_upstream st | UpstreamToClient => upstream_to_client st end.

Definition source (s : Session) (d : Direction) : MockPeer :=
  match d with ClientToUpstream => ss_client s | UpstreamToClient => ss_up s end.
Definition sink (s : Session) (d : Direction) : MockPeer :=
  match d with ClientToUpstream => ss_up s | UpstreamToClient => ss_client s end.

Definition set_source (r : RelayState) (s : Session) (d : Direction) (p : MockPeer) : Session :=
  match d with
  | ClientToUpstream => {| ss_relay := r; ss_client := p; ss_up := ss_up s |}
  | UpstreamToClient => {| ss_relay := r; ss_client := ss_client s; ss_up := p |}
  end.
Definition set_sink (r : RelayState) (s : Session) (d : Direction) (p : MockPeer) : Session :=
  match d with
  | ClientToUpstream => {| ss_relay := r; ss_client := ss_client s; ss_up := p |}
  | UpstreamToClient => {| ss_relay := r; ss_client := p; ss_up := ss_up s |}
  end.

(** The reads a peer's stream admits: a piece of what it wrote, or the end
    when it has closed and everything is read. *)
Definition offers (p : MockPeer) (chunk : bytes) : bool :=
  match mp_out p with
  | [] => mp_shut p && bool_decide (chunk = [])
  | out => negb (bool_decide (chunk = [])) && bool_decide (take (length chunk) out = chunk)
  end.

Definition session_step (su : Setup) (s : Session) (ev : RelayEvent) : option Session :=
  r ← relay_step (idle_timeout (su_config su)) (ss_relay s) ev;
  match ev with
  | ReadDone d (Ok chunk) =>
    if offers (source s d) chunk then Some (set_source r s d (consume (length chunk) (source s d))) else None
  | WriteDone d (Ok _) => Some (set_sink r s d (feed su (in_flight (pump_of (ss_relay s) d)) false (sink s d)))
  | ShutdownDone d (Ok _) => Some (set_sink r s d (feed su [] true (sink s d)))
  | Tick _ | TimerFired | ActivityChanged => Some {| ss_relay := r; ss_client := ss_client s; ss_up := ss_up s |}
  | _ => None
  end.

Fixpoint session_run (su : Setup) (s : Session) (evs : list RelayEvent) : option Session :=
  match evs with
  | [] => Some s
  | ev :: evs' => s' ← session_step su s ev; session_run su s' evs'
  end.

(** A completion of a pump, as opposed to time and the watchdog. *)
Definition transfers (evs : list RelayEvent) : list RelayEvent :=
  List.filter (fun ev => bool_decide (is_Some (direction_of ev))) evs.

(** ** Programs that read to the end *)

Section Session.
Context (su : Setup) (payload : bytes).

(** What the client does with what it got back. *)
Definition check_echo (echoed : bytes) : Prog unit :=
  if negb (bool_decide (echoed = payload)) then fail (bench_error InvalidData "tunnel echo mismatch")
  else mret tt.

(** The program has [acc] and reads on; it can still read a whole payload. *)
Definition waiting (f : bytes -> Prog unit) (acc : bytes) (p : MockPeer) : Prop :=
  exists n, peq (mp_prog p) (pbind f (read_to_end n (su_room su) acc)) /\ (su_fuel su <= n + length acc)%nat.

Lemma feed_waiting f acc p data :
  waiting f acc p -> (length acc + length data < su_fuel su)%nat ->
  waiting f (acc ++ data) (feed su data false p) /\
  mp_out (feed su data false p) = mp_out p /\ mp_shut (feed su data false p) = mp_shut p.
Proof.
  intros (n & Hp & Hn) Hl. unfold feed, waiting.
  destruct (drive_peq (su_cut su) _ _ data false Hp) as [Hout Hprog].
  destruct (drive_read_to_end (su_cut su) f n (su_room su) acc data) as (n' & acc' & Hd & Hacc).
  destruct Hacc as [-> Hn']; [lia|]. rewrite Hd in Hout, Hprog.
  destruct (drive _ _ _ (mp_prog p)) as [[out shut] prog]. cbn [fst snd mp_prog mp_out mp_shut] in *. injection Hout as -> ->.
  rewrite app_nil_r, orb_false_r. split_and!; [|done|done]. exists n'. split; [done|]. rewrite length_app. lia.
Qed.

Lemma feed_end f acc p out shut prog :
  waiting f acc p -> (length acc < su_fuel su)%nat -> drive (su_cut su) [] true (f acc) = (out, shut, prog) ->
  peq (mp_prog (feed su [] true p)) prog /\
  mp_out (feed su [] true p) = mp_out p ++ out /\ mp_shut (feed su [] true p) = mp_shut p || shut.
Proof.
  intros (n & Hp & Hn) Hl Hf. unfold feed.
  destruct (drive_peq (su_cut su) _ _ [] true Hp) as [Hout Hprog].
  rewrite drive_read_to_end_eof, app_nil_r, Hf in Hout, Hprog by (simpl; lia).
  destruct (drive _ _ _ (mp_prog p)) as [[out' shut'] prog']. cbn [fst snd mp_prog mp_out mp_shut] in *. by injection Hout as -> ->.
Qed.

(** ** One pump between two peers *)

(** The source has sent the payload and closed. *)
Definition source_ok (x : Pump) (p : MockPeer) : Prop :=
  received x ++ mp_out p = payload /\ mp_shut p = true /\ (eof x = true -> mp_out p = []).

(** Nothing has come from the source yet. *)
Definition untouched (x : Pump) (p : MockPeer) : Prop :=
  phase x = Reading /\ received x = [] /\ mp_out p = [] /\ mp_shut p = false /\ eof x = false.

(** The sink has what was delivered; after the end it has finished well. *)
Definition sink_ok (f : bytes -> Prog unit) (x : Pump) (p : MockPeer) : Prop :=
  match phase x with
  | PumpOk => mp_prog p = Done (Ok tt)
  | PumpErr _ => False
  | _ => waiting f (delivered x) p
  end.

Lemma read_step x p d chunk x' sg :
  pump_step x (ReadDone d (Ok chunk)) = Some (x', sg) -> offers p chunk = true -> source_ok x p ->
  source_ok x' (consume (length chunk) p) /\ phase x = Reading /\
  (phase x' = ShuttingDown \/ phase x' = Writing chunk) /\ delivered x' = delivered x.
Proof.
  intros Hs Ho (Hr & Hshut & He). unfold pump_step in Hs. destruct (phase x) eqn:Hph; try done.
  destruct (_ <? _); [done|]. unfold offers in Ho. case_bool_decide as Hc; injection Hs as <- <-; cbn [phase delivered].
  - subst chunk. split_and!; [|done|auto|done]. destruct (mp_out p) eqn:Eo; [|done].
    unfold source_ok, consume. cbn [received eof mp_out mp_shut]. rewrite Eo. by split_and!.
  - split_and!; [|done|auto|done]. destruct (mp_out p) as [|b out] eqn:Eo; [by destruct (mp_shut p)|].
    cbn [negb andb] in Ho. apply bool_decide_eq_true in Ho. unfold source_ok, consume. cbn [received eof mp_out mp_shut]. rewrite Eo.
    split_and!; [|done|by intros ?%He]. rewrite <-Hr, <-app_assoc. f_equal. rewrite <-Ho at 1. apply take_drop.
Qed.

Lemma write_step f x p d x' sg :
  pump_step x (WriteDone d (Ok tt)) = Some (x', sg) -> pump_inv x -> sink_ok f x p ->
  (length (received x) < su_fuel su)%nat ->
  sink_ok f x' (feed su (in_flight x) false p) /\
  mp_out (feed su (in_flight x) false p) = mp_out p /\ mp_shut (feed su (in_flight x) false p) = mp_shut p /\
  (exists chunk, phase x = Writing chunk) /\ phase x' = Reading /\ received x' = received x /\ eof x' = eof x.
Proof.
  intros Hs (_ & (rest & Hrec & _ & Hrest) & _) Hk Hl. unfold pump_step in Hs. unfold sink_ok, in_flight in *.
  destruct (phase x) as [|chunk| | |] eqn:Hph; try done. injection Hs as <- <-. subst rest.
  rewrite Hrec, length_app in Hl. destruct (feed_waiting f (delivered x) p chunk Hk) as (Hw & Ho & Hsh); [lia|].
  cbn [phase delivered received eof]. eauto 10.
Qed.

Lemma shutdown_step f x p d x' sg out shut :
  pump_step x (ShutdownDone d (Ok tt)) = Some (x', sg) -> pump_inv x -> sink_ok f x p ->
  (length (received x) < su_fuel su)%nat ->
  drive (su_cut su) [] true (f (received x)) = (out, shut, Done (Ok tt)) ->
  sink_ok f x' (feed su [] true p) /\
  mp_out (feed su [] true p) = mp_out p ++ out /\ mp_shut (feed su [] true p) = mp_shut p || shut /\
  phase x = ShuttingDown /\ phase x' = PumpOk /\ received x' = received x /\ eof x' = eof x.
Proof.
  intros Hs (_ & (rest & Hrec & _ & Hrest) & _) Hk Hl Hd. unfold pump_step in Hs. unfold sink_ok, in_flight in *.
  destruct (phase x) as [|chunk| | |] eqn:Hph; try done. injection Hs as <- <-. subst rest.
  rewrite app_nil_r in Hrec. rewrite Hrec in Hl, Hd.
  destruct (feed_end f (delivered x) p _ _ _ Hk Hl Hd) as (Hp & Ho & Hsh). inversion Hp.
  cbn [phase delivered received eof]. by split_and!.
Qed.

(** ** The invariant *)

(** The relay has not failed, and it has ended if both pumps have. *)
Definition result_ok (st : RelayState) : Prop :=
  match relay_result st with
  | None => ~ (phase (client_to_upstream st) = PumpOk /\ phase (upstream_to_client st) = PumpOk)
  | Some (Ok _) => True
  | Some (Err e) => e = idle_error
  end.

Definition upstream_sends (a b : Pump) (p : MockPeer) : Prop :=
  match phase a with PumpOk => source_ok b p | _ => untouched b p end.

(** The client sends and waits; the upstream waits for the client's end and
    only then sends. *)
Definition session_inv (s : Session) : Prop :=
  let a := client_to_upstream (ss_relay s) in
  let b := upstream_to_client (ss_relay s) in
  relay_inv (idle_timeout (su_config su)) (ss_relay s) /\ result_ok (ss_relay s) /\
  source_ok a (ss_client s) /\
  upstream_sends a b (ss_up s) /\
  sink_ok echo a (ss_up s) /\ sink_ok check_echo b (ss_client s).

Hypothesis enough : (length payload < su_fuel su)%nat.

Lemma relay_pump_step idle st ev d st' :
  relay_step idle st ev = Some st' -> direction_of ev = Some d ->
  exists p sg, pump_step (pump_of st d) ev = Some (p, sg) /\
    st' = match d with
          | ClientToUpstream => after_pump st p (upstream_to_client st) sg
          | UpstreamToClient => after_pump st (client_to_upstream st) p sg
          end.
Proof.
  unfold relay_step. destruct (relay_result st); [done|].
  destruct ev; simpl; try done; intros Hs [= <-]; destruct d0; apply bind_Some in Hs as ([p sg] & Hp & [= <-]); eauto.
Qed.

Lemma relay_other_step idle st ev st' :
  relay_step idle st ev = Some st' -> direction_of ev = None -> result_ok st ->
  client_to_upstream st' = client_to_upstream st /\ upstream_to_client st' = upstream_to_client st /\ result_ok st'.
Proof.
  unfold relay_step, result_ok. destruct (relay_result st) eqn:Er; [done|].
  destruct ev; cbn [direction_of]; try done; unfold watchdog_step.
  - destruct (_ <? 0); [done|]. intros [= <-] _ Hr. simpl. by rewrite Er.
  - destruct idle; [|done]. destruct (now st <? _); [done|].
    destruct (_ <=? now st); intros [= <-] _ Hr; simpl; [done|]. by rewrite Er.
  - destruct idle; [|done]. destruct (unseen st); [|done]. intros [= <-] _ Hr. simpl. by rewrite Er.
Qed.

Lemma after_pump_result st a b sg f p g q :
  sink_ok f a p -> sink_ok g b q -> result_ok (after_pump st a b sg).
Proof.
  unfold sink_ok, result_ok, join_result. simpl. unfold join_result. destruct (phase a), (phase b); simpl; naive_solver.
Qed.

Lemma source_received x p : source_ok x p -> (length (received x) < su_fuel su)%nat.
Proof. intros (Hr & _). apply (f_equal length) in Hr. rewrite length_app in Hr. lia. Qed.

Lemma source_complete x p : source_ok x p -> eof x = true -> received x = payload.
Proof. intros (Hr & _ & He) Hx. by rewrite (He Hx), app_nil_r in Hr. Qed.

Lemma untouched_offers x p chunk : untouched x p -> offers p chunk = false.
Proof. intros (_ & _ & Ho & Hs & _). unfold offers. by rewrite Ho, Hs. Qed.

(** A sink that got nothing new. *)
Lemma sink_kept f x x' p :
  phase x = Reading -> (phase x' = ShuttingDown \/ exists chunk, phase x' = Writing chunk) ->
  delivered x' = delivered x -> sink_ok f x p -> sink_ok f x' p.
Proof. unfold sink_ok. by intros -> [-> | [chunk ->]] ->. Qed.

Lemma sink_prog f x p q : mp_prog q = mp_prog p -> sink_ok f x p -> sink_ok f x q.
Proof. unfold sink_ok, waiting. by intros ->. Qed.

Lemma echo_run acc : drive (su_cut su) [] true (echo acc) = (acc, true, Done (Ok tt)).
Proof. unfold echo, mbind, Prog_bind. simpl. by rewrite app_nil_r. Qed.

Lemma check_run : drive (su_cut su) [] true (check_echo payload) = ([], false, Done (Ok tt)).
Proof. unfold check_echo. by rewrite bool_decide_eq_true_2. Qed.

Lemma read_client_inv s chunk s' :
  session_inv s -> session_step su s (ReadDone ClientToUpstream (Ok chunk)) = Some s' -> session_inv s'.
Proof.
  intros (Hri & Hres & Hsa & Hsb & Hka & Hkb) Hs. unfold session_step in Hs. apply bind_Some in Hs as (r & Hr & Hs).
  destruct (offers _ _) eqn:Ho; [|done]. injection Hs as <-. pose proof (relay_step_inv _ _ _ _ Hri Hr) as Hri'.
  destruct (relay_pump_step _ _ _ ClientToUpstream _ Hr eq_refl) as (x & sg & Hp & ->).
  destruct (read_step _ _ _ _ _ _ Hp Ho Hsa) as (Hsa' & Hph & Hph' & Hd). simpl in Hph, Hd.
  assert (sink_ok echo x (ss_up s)) as Hka' by (eapply sink_kept; [exact Hph|naive_solver|done|done]).
  split_and!; [exact Hri'|by eapply after_pump_result|exact Hsa'| |exact Hka'|by eapply (sink_prog _ _ (ss_client s))].
  unfold upstream_sends in *. simpl in *. rewrite Hph in Hsb. by destruct Hph' as [-> | ->].
Qed.

Lemma read_up_inv s chunk s' :
  session_inv s -> session_step su s (ReadDone UpstreamToClient (Ok chunk)) = Some s' -> session_inv s'.
Proof.
  intros (Hri & Hres & Hsa & Hsb & Hka & Hkb) Hs. unfold session_step in Hs. apply bind_Some in Hs as (r & Hr & Hs).
  destruct (offers _ _) eqn:Ho; [|done]. injection Hs as <-. pose proof (relay_step_inv _ _ _ _ Hri Hr) as Hri'.
  destruct (relay_pump_step _ _ _ UpstreamToClient _ Hr eq_refl) as (x & sg & Hp & ->).
  unfold upstream_sends in Hsb. destruct (phase (client_to_upstream (ss_relay s))) eqn:Hpa;
    try (by rewrite (untouched_offers _ _ _ Hsb) in Ho).
  destruct (read_step _ _ _ _ _ _ Hp Ho Hsb) as (Hsb' & Hph & Hph' & Hd). simpl in Hph, Hd.
  assert (sink_ok check_echo x (ss_client s)) as Hkb' by (eapply sink_kept; [exact Hph|naive_solver|done|done]).
  split_and!; [exact Hri'|by eapply after_pump_result|exact Hsa| |by eapply (sink_prog _ _ (ss_up s))|exact Hkb'].
  unfold upstream_sends. simpl. by rewrite Hpa.
Qed.

(** Data reaches the mock upstream: it only collects it. *)
Lemma write_up_inv s s' :
  session_inv s -> session_step su s (WriteDone ClientToUpstream (Ok tt)) = Some s' -> session_inv s'.
Proof.
  intros (Hri & Hres & Hsa & Hsb & Hka & Hkb) Hs. unfold session_step in Hs. apply bind_Some in Hs as (r & Hr & [= <-]).
  pose proof (relay_step_inv _ _ _ _ Hri Hr) as Hri'.
  destruct (relay_pump_step _ _ _ ClientToUpstream _ Hr eq_refl) as (x & sg & Hp & ->).
  destruct (write_step _ _ _ _ _ _ Hp (proj1 Hri) Hka (source_received _ _ Hsa))
    as (Hka' & Ho & Hsh & [c Hph] & Hph' & Hrec & Heof). simpl in Hph, Hrec, Heof.
  unfold upstream_sends in Hsb. rewrite Hph in Hsb. simpl in Ho, Hsh.
  split_and!; [exact Hri'|by eapply after_pump_result| | |exact Hka'|done].
  - unfold source_ok in *. simpl. by rewrite Hrec, Heof.
  - unfold upstream_sends, untouched in *. simpl. by rewrite Hph', Ho, Hsh.
Qed.

Lemma write_client_inv s s' :
  session_inv s -> session_step su s (WriteDone UpstreamToClient (Ok tt)) = Some s' -> session_inv s'.
Proof.
  intros (Hri & Hres & Hsa & Hsb & Hka & Hkb) Hs. unfold session_step in Hs. apply bind_Some in Hs as (r & Hr & [= <-]).
  pose proof (relay_step_inv _ _ _ _ Hri Hr) as Hri'.
  destruct (relay_pump_step _ _ _ UpstreamToClient _ Hr eq_refl) as (x & sg & Hp & ->).
  unfold upstream_sends in Hsb. assert (exists c, phase (upstream_to_client (ss_relay s)) = Writing c) as [c Hc].
  { unfold pump_step in Hp. simpl in Hp. destruct (phase (upstream_to_client _)); try done. eauto. }
  destruct (phase (client_to_upstream (ss_relay s))) eqn:Hpa; try (by destruct Hsb as [? _]; congruence).
  destruct (write_step _ _ _ _ _ _ Hp (proj1 (proj2 Hri)) Hkb (source_received _ _ Hsb))
    as (Hkb' & Ho & Hsh & _ & Hph' & Hrec & Heof). simpl in Hrec, Heof, Ho, Hsh.
  split_and!; [exact Hri'|by eapply after_pump_result| | |done|exact Hkb'].
  - unfold source_ok in *. simpl. by rewrite Ho, Hsh.
  - unfold upstream_sends, source_ok in *. simpl. by rewrite Hpa, Hrec, Heof.
Qed.

(** The end of the client's stream makes the mock upstream echo and close. *)
Lemma shutdown_up_inv s s' :
  session_inv s -> session_step su s (ShutdownDone ClientToUpstream (Ok tt)) = Some s' -> session_inv s'.
Proof.
  intros (Hri & Hres & Hsa & Hsb & Hka & Hkb) Hs. unfold session_step in Hs. apply bind_Some in Hs as (r & Hr & [= <-]).
  pose proof (relay_step_inv _ _ _ _ Hri Hr) as Hri'.
  destruct (relay_pump_step _ _ _ ClientToUpstream _ Hr eq_refl) as (x & sg & Hp & ->).
  destruct (shutdown_step _ _ _ _ _ _ _ _ Hp (proj1 Hri) Hka (source_received _ _ Hsa) (echo_run _))
    as (Hka' & Ho & Hsh & Hph & Hph' & Hrec & Heof). simpl in Hph, Hrec, Heof, Ho, Hsh.
  unfold upstream_sends in Hsb. rewrite Hph in Hsb. destruct Hsb as (Hpb & Hrb & Hob & Hshb & Heb).
  assert (eof (client_to_upstream (ss_relay s)) = true) as He by (apply (proj1 Hri); auto).
  split_and!; [exact Hri'|by eapply after_pump_result| | |exact Hka'|done].
  - unfold source_ok in *. simpl. by rewrite Hrec, Heof.
  - unfold upstream_sends, source_ok. simpl. rewrite Hph', Ho, Hsh, Hrb, Hob, Hshb, (source_complete _ _ Hsa He).
    split_and!; [done|done|congruence].
Qed.

(** The end of the echo lets the client finish. *)
Lemma shutdown_client_inv s s' :
  session_inv s -> session_step su s (ShutdownDone UpstreamToClient (Ok tt)) = Some s' -> session_inv s'.
Proof.
  intros (Hri & Hres & Hsa & Hsb & Hka & Hkb) Hs. unfold session_step in Hs. apply bind_Some in Hs as (r & Hr & [= <-]).
  pose proof (relay_step_inv _ _ _ _ Hri Hr) as Hri'.
  destruct (relay_pump_step _ _ _ UpstreamToClient _ Hr eq_refl) as (x & sg & Hp & ->).
  unfold upstream_sends in Hsb. assert (phase (upstream_to_client (ss_relay s)) = ShuttingDown) as Hc.
  { unfold pump_step in Hp. simpl in Hp. by destruct (phase (upstream_to_client _)). }
  destruct (phase (client_to_upstream (ss_relay s))) eqn:Hpa; try (by destruct Hsb as [? _]; congruence).
  assert (eof (upstream_to_client (ss_relay s)) = true) as He by (apply (proj1 (proj2 Hri)); auto).
  pose proof (source_complete _ _ Hsb He) as Hrb.
  destruct (shutdown_step check_echo _ _ _ _ _ [] false Hp (proj1 (proj2 Hri)) Hkb (source_received _ _ Hsb))
    as (Hkb' & Ho & Hsh & _ & Hph' & Hrec & Heof); [simpl; rewrite Hrb; apply check_run|].
  simpl in Hrec, Heof, Ho, Hsh. rewrite app_nil_r in Ho. rewrite orb_false_r in Hsh.
  split_and!; [exact Hri'|by eapply after_pump_result| | |done|exact Hkb'].
  - unfold source_ok in *. simpl. by rewrite Ho, Hsh.
  - unfold upstream_sends, source_ok in *. simpl. by rewrite Hpa, Hrec, Heof.
Qed.

Lemma session_other_inv s ev s' :
  session_inv s -> session_step su s ev = Some s' -> direction_of ev = None -> session_inv s'.
Proof.
  intros (Hri & Hres & Hsa & Hsb & Hka & Hkb) Hs Hd. unfold session_step in Hs. apply bind_Some in Hs as (r & Hr & Hs).
  pose proof (relay_step_inv _ _ _ _ Hri Hr) as Hri'.
  destruct (relay_other_step _ _ _ _ Hr Hd Hres) as (Ha & Hb & Hres').
  assert (s' = {| ss_relay := r; ss_client := ss_client s; ss_up := ss_up s |}) as -> by (destruct ev; naive_solver).
  unfold session_inv. simpl. rewrite Ha, Hb. by split_and!.
Qed.

Lemma session_step_inv s ev s' : session_inv s -> session_step su s ev = Some s' -> session_inv s'.
Proof.
  intros Hi Hs. destruct (direction_of ev) as [d|] eqn:Hd; [|by eapply session_other_inv].
  destruct ev as [|d' [chunk|e]|d' [[]|e]|d' [[]|e]| |]; try done;
    try (unfold session_step in Hs; by apply bind_Some in Hs as (r & _ & ?)); destruct d';
    eauto using read_client_inv, read_up_inv, write_client_inv, write_up_inv, shutdown_client_inv, shutdown_up_inv.
Qed.

(** ** Progress *)

Definition phase_weight (x : Pump) : Z :=
  match phase x with Writing _ => 3 | Reading => 2 | ShuttingDown => 1 | _ => 0 end.

(** What is left to do. *)
Definition to_do (s : Session) : Z :=
  3 * (2 * len payload - len (received (client_to_upstream (ss_relay s))) -
       len (received (upstream_to_client (ss_relay s)))) +
  phase_weight (client_to_upstream (ss_relay s)) + phase_weight (upstream_to_client (ss_relay s)).

Lemma pump_step_weight x ev x' sg :
  pump_step x ev = Some (x', sg) -> phase_weight x' - 3 * len (received x') < phase_weight x - 3 * len (received x).
Proof.
  unfold pump_step, phase_weight. destruct (phase x), ev as [|? [c|]|? [[]|]|? [[]|]| |]; try done;
    try (intros [= <- <-]; simpl; lia).
  destruct (_ <? _); [done|]. case_bool_decide as Hc; intros [= <- <-]; simpl; [lia|].
  assert (len c <> 0) by (by intros ?%len_zero). len_lia.
Qed.

Lemma session_step_to_do s ev s' :
  session_step su s ev = Some s' -> result_ok (ss_relay s) ->
  to_do s' + len (transfers [ev]) <= to_do s.
Proof.
  intros Hs Hres. unfold session_step in Hs. apply bind_Some in Hs as (r & Hr & Hs).
  assert (ss_relay s' = r) as Hr'.
  { destruct ev as [|[] [c|]|[] [|]|[] [|]| |]; try done; simpl in Hs;
      try (destruct (offers _ _); [|done]); by injection Hs as <-. }
  unfold transfers, to_do. simpl. rewrite Hr'. destruct (direction_of ev) as [d|] eqn:Hd.
  - rewrite bool_decide_eq_true_2 by done. change (len [ev]) with 1.
    destruct (relay_pump_step _ _ _ _ _ Hr Hd) as (x & sg & Hp & ->). apply pump_step_weight in Hp.
    destruct d; simpl in *; lia.
  - rewrite bool_decide_eq_false_2 by (by intros [? ?]). change (len (@nil RelayEvent)) with 0.
    destruct (relay_other_step _ _ _ _ Hr Hd Hres) as (-> & -> & _). lia.
Qed.

Lemma to_do_nonneg s : session_inv s -> 0 <= to_do s.
Proof.
  intros (_ & _ & Hsa & Hsb & _). unfold to_do, phase_weight.
  assert (forall x p, source_ok x p -> len (received x) <= len payload) as Hle.
  { intros x p (<- & _). len_lia. }
  pose proof (Hle _ _ Hsa). assert (len (received (upstream_to_client (ss_relay s))) <= len payload).
  { unfold upstream_sends in Hsb. pose proof (len_nonneg payload).
    destruct (phase (client_to_upstream _)); try (destruct Hsb as (_ & -> & _); done). by eapply Hle. }
  destruct (phase (client_to_upstream _)), (phase (upstream_to_client _)); lia.
Qed.

(** A pump that has not ended always has a next completion. *)
Lemma pump_can_move d x p :
  source_ok x p -> phase x <> PumpOk -> (forall e, phase x <> PumpErr e) ->
  exists ev, direction_of ev = Some d /\ is_Some (pump_step x ev) /\
    match ev with
    | ReadDone _ (Ok chunk) => offers p chunk = true
    | WriteDone _ (Ok _) | ShutdownDone _ (Ok _) => True
    | _ => False
    end.
Proof.
  intros (_ & Hsh & _) Hok Herr. unfold pump_step. destruct (phase x) as [|chunk| | |e]; [| | |done|by destruct (Herr e)].
  - exists (ReadDone d (Ok (take 1 (mp_out p)))). unfold offers. rewrite Hsh.
    destruct (mp_out p) as [|b out]; [done|]. split_and!; [done| |by apply bool_decide_eq_true_2]. by eexists.
  - exists (WriteDone d (Ok tt)). by split_and!.
  - exists (ShutdownDone d (Ok tt)). by split_and!.
Qed.

Lemma session_can_move s d :
  relay_result (ss_relay s) = None -> source_ok (pump_of (ss_relay s) d) (source s d) ->
  phase (pump_of (ss_relay s) d) <> PumpOk -> (forall e, phase (pump_of (ss_relay s) d) <> PumpErr e) ->
  exists ev s', is_Some (direction_of ev) /\ session_step su s ev = Some s'.
Proof.
  intros Hres Hs Hok Herr. destruct (pump_can_move d _ _ Hs Hok Herr) as (ev & Hd & [[x sg] Hp] & Hev).
  exists ev. unfold session_step, relay_step. rewrite Hres.
  destruct ev as [|? [c|]|? [|]|? [|]| |]; try done; injection Hd as ->; destruct d; simpl in *; rewrite Hp; simpl;
    try rewrite Hev; eauto.
Qed.

Lemma session_progress s :
  session_inv s -> relay_result (ss_relay s) = None ->
  exists ev s', is_Some (direction_of ev) /\ session_step su s ev = Some s'.
Proof.
  intros (_ & Hres & Hsa & Hsb & Hka & Hkb) Hn. unfold result_ok, upstream_sends, sink_ok in *. rewrite Hn in Hres.
  destruct (phase (client_to_upstream (ss_relay s))) eqn:Hpa; try done;
    try (apply (session_can_move s ClientToUpstream); simpl; rewrite ?Hpa; done).
  apply (session_can_move s UpstreamToClient); simpl; [done|done|naive_solver|].
  intros e He. by rewrite He in Hkb.
Qed.

(** ** Runs *)

(** The tunnel is open: the client has sent its payload, closed and waits for
    the echo, the mock upstream waits for the payload. *)
Definition session_start (start_time : Z) (s : Session) : Prop :=
  ss_relay s = relay_init (idle_timeout (su_config su)) start_time /\
  waiting check_echo [] (ss_client s) /\ mp_out (ss_client s) = payload /\ mp_shut (ss_client s) = true /\
  waiting echo [] (ss_up s) /\ mp_out (ss_up s) = [] /\ mp_shut (ss_up s) = false.

Lemma session_start_inv t0 s : session_start t0 s -> session_inv s /\ to_do s = 6 * len payload + 4.
Proof.
  intros (Hr & Hc & Hco & Hcs & Hu & Huo & Hus). split.
  - unfold session_inv. rewrite Hr. split_and!; [|by intros [? _]|by unfold source_ok|by unfold upstream_sends|done|done].
    apply (relay_reachable_inv _ t0). constructor.
  - unfold to_do. rewrite Hr. simpl. change (len (@nil Z)) with 0. unfold phase_weight. simpl. lia.
Qed.

Lemma session_run_inv s evs s' :
  session_inv s -> session_run su s evs = Some s' -> session_inv s' /\ to_do s' + len (transfers evs) <= to_do s.
Proof.
  revert s. induction evs as [|ev evs IH]; intros s Hi Hs; simpl in Hs.
  - injection Hs as <-. split; [done|]. unfold transfers. simpl. change (len (@nil RelayEvent)) with 0. lia.
  - apply bind_Some in Hs as (s1 & Hs1 & Hs). pose proof (session_step_inv _ _ _ Hi Hs1) as Hi1.
    destruct (IH s1 Hi1 Hs) as [Hi' Hle]. split; [done|].
    pose proof (session_step_to_do _ _ _ Hs1 (proj1 (proj2 Hi))) as Hle1.
    unfold transfers in *. rewrite (List.filter_app _ [ev] evs : List.filter _ (ev :: evs) = _), len_app. lia.
Qed.

Lemma session_ends_well s n m :
  session_inv s -> relay_result (ss_relay s) = Some (Ok (n, m)) ->
  mp_prog (ss_client s) = Done (Ok tt) /\ n = wrap 64 (len payload) /\ m = wrap 64 (len payload).
Proof.
  intros (Hri & _ & Hsa & Hsb & Hka & Hkb) Hr. pose proof Hri as (Ha & Hb & _ & _ & Hres).
  destruct (Hres n m Hr) as (Hpa & Hpb & -> & ->). unfold upstream_sends, sink_ok in *. rewrite Hpa in *. rewrite Hpb in Hkb.
  assert (forall x p, source_ok x p -> pump_inv x -> phase x = PumpOk -> transferred x = wrap 64 (len payload)) as Hx.
  { intros x p Hs (-> & (rest & Hrec & _ & Hrest) & He) Hph. rewrite Hph in Hrest. subst rest.
    unfold in_flight in Hrec. rewrite Hph, app_nil_r in Hrec. rewrite <-Hrec. by erewrite source_complete by eauto. }
  split_and!; [done|by eapply Hx|by eapply Hx].
Qed.
End Session.

(** C22: In every interleaving of the relay with the benchmark's client and mock upstream, however the streams are cut, the echo works: at most six completions per payload byte and four more can happen, before the end there is always one to take, a relay that ends well has let the client verify the echo and carried the payload once each way, and otherwise only the idle watchdog has ended it. *)
Theorem benchmark_session_echoes su payload t0 s0 evs s :
  (length payload < su_fuel su)%nat -> session_start su payload t0 s0 -> session_run su s0 evs = Some s ->
  len (transfers evs) <= 6 * len payload + 4 /\
  match relay_result (ss_relay s) with
  | None => exists ev s', is_Some (direction_of ev) /\ session_step su s ev = Some s'
  | Some (Ok (n, m)) =>
    mp_prog (ss_client s) = Done (Ok tt) /\ n = wrap 64 (len payload) /\ m = wrap 64 (len payload)
  | Some (Err e) => e = idle_error
  end.
Proof.
  intros Hf Hst Hrun. destruct (session_start_inv su payload Hf t0 s0 Hst) as [Hi0 Hd0].
  destruct (session_run_inv su payload Hf s0 evs s Hi0 Hrun) as [Hi Hle]. split.
  { pose proof (to_do_nonneg su payload Hf s Hi). lia. }
  destruct (relay_result (ss_relay s)) as [[[n m]|e]|] eqn:Hr.
  - by eapply session_ends_well.
  - destruct Hi as (_ & Hres & _). unfold result_ok in Hres. by rewrite Hr in Hres.
  - by eapply session_progress.
Qed.

(** ** A session of three bytes *)

Definition small_setup (ntlm : bool) (schedule : list RelayEvent) : Setup := {|
  su_cli := {| connections := 1; concurrency := 1; payload_bytes := 3; mock_ntlm := ntlm |};
  su_proxy := SocketV4 2130706433 40000;
  su_upstream := SocketV4 2130706433 40001;
  su_cut := fun _ => 20%nat;
  su_fuel := 8;
  su_room := 32;
  su_schedule := schedule;
|}.

Definition small_payload : bytes := [90; 90; 90].

(** The echo comes back in two pieces. *)
Definition small_schedule : list RelayEvent :=
  [ReadDone ClientToUpstream (Ok [90; 90; 90]); WriteDone ClientToUpstream (Ok tt); Tick 1;
   ReadDone ClientToUpstream (Ok []); ShutdownDone ClientToUpstream (Ok tt); ActivityChanged;
   ReadDone UpstreamToClient (Ok [90; 90]); WriteDone UpstreamToClient (Ok tt); Tick 2;
   ReadDone UpstreamToClient (Ok [90]); WriteDone UpstreamToClient (Ok tt);
   ReadDone UpstreamToClient (Ok []); ShutdownDone UpstreamToClient (Ok tt)].

Definition small_start : Session := {|
  ss_relay := relay_init (Some 5) 0;
  ss_client := {| mp_prog := pbind (check_echo small_payload) (read_to_end 8 32 []); mp_out := small_payload; mp_shut := true |};
  ss_up := {| mp_prog := pbind echo (read_to_end 8 32 []); mp_out := []; mp_shut := false |};
|}.

Lemma benchmark_session_echoes_witness :
  exists s, session_run (small_setup true small_schedule) small_start small_schedule = Some s /\
    relay_result (ss_relay s) = Some (Ok (3, 3)) /\ mp_prog (ss_client s) = Done (Ok tt).
Proof.
  assert (session_start (small_setup true small_schedule) small_payload 0 small_start) as Hst.
  { split; [reflexivity|]. repeat split; exists 8%nat; (split; [reflexivity|vm_compute; lia]). }
  destruct (session_run (small_setup true small_schedule) small_start small_schedule) as [s|] eqn:E;
    [|vm_compute in E; discriminate E].
  destruct (benchmark_session_echoes (small_setup true small_schedule) small_payload 0 small_start small_schedule s)
    as [_ Hr]; [vm_compute; lia|exact Hst|exact E|].
  assert (relay_result (ss_relay s) = Some (Ok (3, 3))) as Hres.
  { change (from_option (fun s => relay_result (ss_relay s)) None (Some s) = Some (Ok (3, 3))).
    rewrite <-E. vm_compute. reflexivity. }
  rewrite Hres in Hr. exists s. split; [reflexivity|]. split; [exact Hres|]. apply Hr.
Defined.
