(* ===== verification/Transparent.v ===== *)
(** * Transparent: a relayed tunnel is a direct connection

    The relay of src/relay.rs between two arbitrary peers, against the two
    peers connected to each other.  A peer is any program that reacts to what
    it receives and to its own clock by sending bytes and closing its side.
    The bytes the pumps have read and not yet written, and those on the wire
    to a peer, are part of the state; writes go out in pieces, and time, the
    watchdog and failures interleave with everything.  Each state of the
    tunnel corresponds to one of the direct connection in which the bytes
    under way are still the sender's. *)

From stdpp Require Import relations.
From S2P Require Import Prelude RustStr RustNet Auth Io Relay BenchPeers Mock Session.

Global Instance Direction_eq_dec : EqDecision Direction.
Proof. solve_decision. Defined.

Definition opposite (d : Direction) : Direction :=
  match d with ClientToUpstream => UpstreamToClient | UpstreamToClient => ClientToUpstream end.

Lemma opposite_ne d : opposite d <> d.
Proof. by destruct d. Qed.
Lemma opposite_of d d' : d' <> d -> d' = opposite d.
Proof. by destruct d, d'. Qed.

(** A function on directions, changed at one. *)
Definition upd {A} (f : Direction -> A) (d : Direction) (x : A) (d' : Direction) : A := if decide (d' = d) then x else f d'.

Lemma upd_eq {A} (f : Direction -> A) d x : upd f d x d = x.
Proof. unfold upd. by rewrite decide_True. Qed.
Lemma upd_ne {A} (f : Direction -> A) d x d' : d' <> d -> upd f d x d' = f d'.
Proof. intros Hn. unfold upd. by rewrite decide_False. Qed.
Lemma upd_opposite {A} (f : Direction -> A) d x : upd f d x (opposite d) = f (opposite d).
Proof. apply upd_ne, opposite_ne. Qed.
Lemma upd_of_opposite {A} (f : Direction -> A) d x : upd f (opposite d) x d = f d.
Proof. apply upd_ne. by destruct d. Qed.

(** ** Peers *)

(** What a peer can notice: data, the end of the other side, its own clock. *)
Inductive Input := Data (bs : bytes) | End | Wake.

(** The stream a peer sends: what is not yet taken off it, and whether it has
    closed its side. *)
Record PeerSide (P : Type) := { p_state : P; p_out : bytes; p_shut : bool }.
Arguments p_state {P} p.
Arguments p_out {P} p.
Arguments p_shut {P} p.
Arguments Build_PeerSide {P} p_state p_out p_shut.

Section Tunnel.
Context {P : Type} (react : P -> Input -> (bytes * bool) * P).

(** What a peer writes after closing its side is lost. *)
Definition notice (p : PeerSide P) (i : Input) : PeerSide P :=
  let '((out, shut), q) := react (p_state p) i in
  if p_shut p then Build_PeerSide q (p_out p) true else Build_PeerSide q (p_out p ++ out) shut.

Definition with_out (p : PeerSide P) (out : bytes) : PeerSide P := Build_PeerSide (p_state p) out (p_shut p).

(** ** The direct connection *)

(** [dc_peer d] is the peer that sends in direction [d]. *)
Record Direct := { dc_peer : Direction -> PeerSide P; dc_ended : Direction -> bool }.

Inductive direct_step : Direct -> Direct -> Prop :=
| direct_data c d now later :
    p_out (dc_peer c d) = now ++ later -> now <> [] ->
    direct_step c
      {| dc_peer := upd (upd (dc_peer c) d (with_out (dc_peer c d) later)) (opposite d) (notice (dc_peer c (opposite d)) (Data now));
         dc_ended := dc_ended c |}
| direct_end c d :
    p_out (dc_peer c d) = [] -> p_shut (dc_peer c d) = true -> dc_ended c d = false ->
    direct_step c
      {| dc_peer := upd (dc_peer c) (opposite d) (notice (dc_peer c (opposite d)) End); dc_ended := upd (dc_ended c) d true |}
| direct_wake c d :
    direct_step c {| dc_peer := upd (dc_peer c) d (notice (dc_peer c d) Wake); dc_ended := dc_ended c |}.

(** ** The relayed tunnel *)

(** One way of the tunnel behind the pump: the part of its chunk that is not
    written yet, the bytes written and not yet received, and the end. *)
Record Lane := { unwritten : bytes; wire : bytes; fin : bool; arrived_end : bool }.

Record Tunnel := { tn_relay : RelayState; tn_peer : Direction -> PeerSide P; tn_lane : Direction -> Lane }.

Definition set_relay (t : Tunnel) (r : RelayState) : Tunnel := {| tn_relay := r; tn_peer := tn_peer t; tn_lane := tn_lane t |}.

(** Failures, time and the watchdog. *)
Definition no_transfer (ev : RelayEvent) : bool :=
  match ev with
  | ReadDone _ (Ok _) | WriteDone _ (Ok _) | ShutdownDone _ (Ok _) => false
  | _ => true
  end.

Inductive tunnel_step (idle : option Z) : Tunnel -> Tunnel -> Prop :=
| tunnel_read t d chunk rest r :
    relay_step idle (tn_relay t) (ReadDone d (Ok chunk)) = Some r -> chunk <> [] -> p_out (tn_peer t d) = chunk ++ rest ->
    tunnel_step idle t
      {| tn_relay := r; tn_peer := upd (tn_peer t) d (with_out (tn_peer t d) rest);
         tn_lane := upd (tn_lane t) d {| unwritten := chunk; wire := wire (tn_lane t d);
                                         fin := fin (tn_lane t d); arrived_end := arrived_end (tn_lane t d) |} |}
| tunnel_read_end t d r :
    relay_step idle (tn_relay t) (ReadDone d (Ok [])) = Some r -> p_out (tn_peer t d) = [] -> p_shut (tn_peer t d) = true ->
    tunnel_step idle t (set_relay t r)
| tunnel_write t d now later :  (* [write_all] gets a part of its chunk out *)
    relay_result (tn_relay t) = None -> unwritten (tn_lane t d) = now ++ later ->
    tunnel_step idle t
      {| tn_relay := tn_relay t; tn_peer := tn_peer t;
         tn_lane := upd (tn_lane t) d {| unwritten := later; wire := wire (tn_lane t d) ++ now;
                                         fin := fin (tn_lane t d); arrived_end := arrived_end (tn_lane t d) |} |}
| tunnel_written t d r :
    relay_step idle (tn_relay t) (WriteDone d (Ok tt)) = Some r -> unwritten (tn_lane t d) = [] ->
    tunnel_step idle t (set_relay t r)
| tunnel_shutdown t d r :
    relay_step idle (tn_relay t) (ShutdownDone d (Ok tt)) = Some r ->
    tunnel_step idle t
      {| tn_relay := r; tn_peer := tn_peer t;
         tn_lane := upd (tn_lane t) d {| unwritten := unwritten (tn_lane t d); wire := wire (tn_lane t d);
                                         fin := true; arrived_end := arrived_end (tn_lane t d) |} |}
| tunnel_other t ev r :
    relay_step idle (tn_relay t) ev = Some r -> no_transfer ev = true -> tunnel_step idle t (set_relay t r)
| tunnel_arrive t d now later :
    wire (tn_lane t d) = now ++ later -> now <> [] ->
    tunnel_step idle t
      {| tn_relay := tn_relay t; tn_peer := upd (tn_peer t) (opposite d) (notice (tn_peer t (opposite d)) (Data now));
         tn_lane := upd (tn_lane t) d {| unwritten := unwritten (tn_lane t d); wire := later;
                                         fin := fin (tn_lane t d); arrived_end := arrived_end (tn_lane t d) |} |}
| tunnel_arrive_end t d :
    wire (tn_lane t d) = [] -> fin (tn_lane t d) = true -> arrived_end (tn_lane t d) = false ->
    tunnel_step idle t
      {| tn_relay := tn_relay t; tn_peer := upd (tn_peer t) (opposite d) (notice (tn_peer t (opposite d)) End);
         tn_lane := upd (tn_lane t) d {| unwritten := unwritten (tn_lane t d); wire := []; fin := true; arrived_end := true |} |}
| tunnel_wake t d :
    tunnel_step idle t
      {| tn_relay := tn_relay t; tn_peer := upd (tn_peer t) d (notice (tn_peer t d) Wake); tn_lane := tn_lane t |}.

Definition idle_lane : Lane := {| unwritten := []; wire := []; fin := false; arrived_end := false |}.

Definition tunnel_start (idle : option Z) (t0 : Z) (peers : Direction -> PeerSide P) : Tunnel :=
  {| tn_relay := relay_init idle t0; tn_peer := peers; tn_lane := fun _ => idle_lane |}.

Definition direct_start (peers : Direction -> PeerSide P) : Direct := {| dc_peer := peers; dc_ended := fun _ => false |}.

(** ** The correspondence *)

(** A peer of the direct connection: as in the tunnel, with the bytes that
    are under way still its own. *)
Definition same_peer (l : Lane) (p q : PeerSide P) : Prop :=
  p_state q = p_state p /\ p_shut q = p_shut p /\ p_out q = wire l ++ unwritten l ++ p_out p.

(** What the relay's phase says about a lane. *)
Definition lane_ok (x : Pump) (l : Lane) (p : PeerSide P) : Prop :=
  (phase x = Reading -> unwritten l = []) /\
  (eof x = true -> unwritten l = [] /\ p_out p = [] /\ p_shut p = true) /\
  (fin l = true -> eof x = true) /\
  (phase x = ShuttingDown -> eof x = true) /\ (phase x = PumpOk -> fin l = true).

Definition related_at (t : Tunnel) (c : Direct) (d : Direction) : Prop :=
  same_peer (tn_lane t d) (tn_peer t d) (dc_peer c d) /\
  dc_ended c d = arrived_end (tn_lane t d) /\
  lane_ok (pump_of (tn_relay t) d) (tn_lane t d) (tn_peer t d).

Definition related (t : Tunnel) (c : Direct) : Prop := forall d, related_at t c d.

Lemma both_ways d t c : related_at t c d -> related_at t c (opposite d) -> related t c.
Proof. intros H1 H2 d'. destruct (decide (d' = d)) as [->|Hn]; [done|]. by rewrite (opposite_of d d'). Qed.

Lemma start_related idle t0 peers : related (tunnel_start idle t0 peers) (direct_start peers).
Proof. intros d. split_and!; try done; destruct d; simpl; done. Qed.

(** Feeding keeps the correspondence of a peer and, as a closed peer sends
    nothing more, what is known about its lane. *)
Lemma notice_same l p q i : same_peer l p q -> same_peer l (notice p i) (notice q i).
Proof.
  intros (Hs & Hc & Ho). unfold notice, same_peer. rewrite Hs, Hc. destruct (react (p_state p) i) as [[out shut] r].
  destruct (p_shut p); simpl; (split_and!; [done|done|]); rewrite Ho; by rewrite <-?app_assoc.
Qed.

Lemma notice_lane x l p i : lane_ok x l p -> lane_ok x l (notice p i).
Proof.
  intros (H1 & H2 & H3 & H4 & H5). unfold lane_ok, notice. destruct (react (p_state p) i) as [[out shut] r].
  split_and!; [done| |done|done|done]. intros He. destruct (H2 He) as (Hu & Ho & Hs). by rewrite Hs, Ho.
Qed.

(** The pump in the other direction is not touched. *)
Lemma relay_other_pump idle st ev d st' :
  relay_step idle st ev = Some st' -> direction_of ev = Some d -> pump_of st' (opposite d) = pump_of st (opposite d).
Proof. intros Hs Hd. destruct (relay_pump_step _ _ _ _ _ Hs Hd) as (p & sg & _ & ->). by destruct d. Qed.

Lemma relay_this_pump idle st ev d st' :
  relay_step idle st ev = Some st' -> direction_of ev = Some d -> exists sg, pump_step (pump_of st d) ev = Some (pump_of st' d, sg).
Proof. intros Hs Hd. destruct (relay_pump_step _ _ _ _ _ Hs Hd) as (p & sg & Hp & ->). exists sg. by destruct d. Qed.

Lemma relay_no_pump idle st ev d st' :
  relay_step idle st ev = Some st' -> direction_of ev = None -> pump_of st' d = pump_of st d.
Proof.
  unfold relay_step. destruct (relay_result st); [done|]. destruct ev; cbn [direction_of]; try done; unfold watchdog_step.
  - destruct (_ <? 0); [done|]. intros [= <-] _. by destruct d.
  - destruct idle; [|done]. destruct (now st <? _); [done|]. destruct (_ <=? now st); intros [= <-] _; by destruct d.
  - destruct idle; [|done]. destruct (unseen st); [|done]. intros [= <-] _. by destruct d.
Qed.

(** ** Simulation *)

Ltac at_both d :=
  apply (both_ways d); unfold related_at; cbn [tn_relay tn_peer tn_lane dc_peer dc_ended];
  repeat first [rewrite upd_eq | rewrite upd_opposite | rewrite upd_of_opposite].

(** A completion in direction [d] says nothing new about the other one. *)
Lemma other_at idle t c d r ev peer lane :
  relay_step idle (tn_relay t) ev = Some r -> direction_of ev = Some d -> related t c ->
  peer (opposite d) = tn_peer t (opposite d) -> lane (opposite d) = tn_lane t (opposite d) ->
  related_at {| tn_relay := r; tn_peer := peer; tn_lane := lane |} c (opposite d).
Proof.
  intros Hr Hd Hrel Hp Hl. unfold related_at. cbn [tn_relay tn_peer tn_lane].
  rewrite Hp, Hl, (relay_other_pump _ _ _ _ _ Hr Hd). apply Hrel.
Qed.

Lemma read_related idle t c d chunk rest r :
  relay_step idle (tn_relay t) (ReadDone d (Ok chunk)) = Some r -> chunk <> [] -> p_out (tn_peer t d) = chunk ++ rest ->
  related t c ->
  related {| tn_relay := r; tn_peer := upd (tn_peer t) d (with_out (tn_peer t d) rest);
             tn_lane := upd (tn_lane t) d {| unwritten := chunk; wire := wire (tn_lane t d);
               fin := fin (tn_lane t d); arrived_end := arrived_end (tn_lane t d) |} |} c.
Proof.
  intros Hr Hc Ho Hrel. apply (both_ways d); [|by eapply other_at; rewrite ?upd_opposite].
  destruct (Hrel d) as ((Hs & Hsh & Hout) & He & (L1 & L2 & L3 & L4 & L5)).
  destruct (relay_this_pump _ _ _ _ _ Hr eq_refl) as [sg Hp]. unfold pump_step in Hp.
  destruct (phase (pump_of (tn_relay t) d)) eqn:Hph; try done. destruct (_ <? _); [done|].
  rewrite bool_decide_eq_false_2 in Hp by done. injection Hp as Hx _.
  unfold related_at. cbn [tn_relay tn_peer tn_lane]. rewrite !upd_eq, <-Hx. unfold same_peer, lane_ok. simpl.
  assert (eof (pump_of (tn_relay t) d) <> true) as Hne by (intros Ht; destruct (L2 Ht) as (_ & Hz & _); rewrite Hz in Ho; by destruct chunk).
  rewrite Hout, Ho, (L1 eq_refl). split_and!; [done|done|done|done|done|done| |done|done]. done.
Qed.

(** A completion without data: the pump's new phase, the same bytes. *)
Lemma settled_related idle t c d ev r :
  relay_step idle (tn_relay t) ev = Some r -> direction_of ev = Some d -> related t c ->
  lane_ok (pump_of r d) (tn_lane t d) (tn_peer t d) -> related (set_relay t r) c.
Proof.
  intros Hr Hd Hrel Hl. apply (both_ways d); [|by eapply other_at].
  destruct (Hrel d) as (Hs & He & _). done.
Qed.

Lemma read_end_related idle t c d r :
  relay_step idle (tn_relay t) (ReadDone d (Ok [])) = Some r -> p_out (tn_peer t d) = [] -> p_shut (tn_peer t d) = true ->
  related t c -> related (set_relay t r) c.
Proof.
  intros Hr Ho Hsh Hrel. eapply settled_related; [done..|].
  destruct (Hrel d) as (_ & _ & (L1 & L2 & L3 & L4 & L5)). destruct (relay_this_pump _ _ _ _ _ Hr eq_refl) as [sg Hp].
  unfold pump_step in Hp. destruct (phase (pump_of (tn_relay t) d)) eqn:Hph; try done. simpl in Hp. injection Hp as Hx _.
  unfold lane_ok. rewrite <-Hx. simpl. split_and!; [done|auto|done|done|done].
Qed.

Lemma written_related idle t c d r :
  relay_step idle (tn_relay t) (WriteDone d (Ok tt)) = Some r -> unwritten (tn_lane t d) = [] -> related t c ->
  related (set_relay t r) c.
Proof.
  intros Hr Hu Hrel. eapply settled_related; [done..|].
  destruct (Hrel d) as (_ & _ & (L1 & L2 & L3 & L4 & L5)). destruct (relay_this_pump _ _ _ _ _ Hr eq_refl) as [sg Hp].
  unfold pump_step in Hp. destruct (phase (pump_of (tn_relay t) d)) eqn:Hph; try done. injection Hp as Hx _.
  unfold lane_ok. by rewrite <-Hx.
Qed.

Lemma failed_lane d x ev y sg l p :
  pump_step x ev = Some (y, sg) -> direction_of ev = Some d -> no_transfer ev = true -> lane_ok x l p -> lane_ok y l p.
Proof.
  intros Hp Hd Hn (L1 & L2 & L3 & L4 & L5). unfold pump_step in Hp. unfold lane_ok.
  destruct (phase x) eqn:Hph; try done; destruct ev as [|? []|? []|? []| |]; try done; injection Hp as <- _; simpl; done.
Qed.

Lemma other_related idle t c ev r :
  relay_step idle (tn_relay t) ev = Some r -> no_transfer ev = true -> related t c -> related (set_relay t r) c.
Proof.
  intros Hr Hn Hrel. destruct (direction_of ev) as [d|] eqn:Hd.
  - eapply settled_related; [done..|]. destruct (Hrel d) as (_ & _ & Hl).
    destruct (relay_this_pump _ _ _ _ _ Hr Hd) as [sg Hp]. by eapply failed_lane.
  - intros d. destruct (Hrel d) as (Hs & He & Hl). unfold related_at. cbn [set_relay tn_relay tn_peer tn_lane].
    by rewrite (relay_no_pump _ _ _ d _ Hr Hd).
Qed.

Lemma write_related t c d now later :
  unwritten (tn_lane t d) = now ++ later -> related t c ->
  related {| tn_relay := tn_relay t; tn_peer := tn_peer t;
             tn_lane := upd (tn_lane t) d {| unwritten := later; wire := wire (tn_lane t d) ++ now;
               fin := fin (tn_lane t d); arrived_end := arrived_end (tn_lane t d) |} |} c.
Proof.
  intros Hu Hrel. at_both d; [|apply Hrel]. destruct (Hrel d) as ((Hs & Hsh & Hout) & He & (L1 & L2 & L3 & L4 & L5)).
  unfold same_peer, lane_ok. simpl. rewrite Hout, Hu, <-!app_assoc. rewrite Hu in L1, L2.
  split_and!; try done.
  - intros Hph. by apply L1, app_eq_nil in Hph as [_ ?].
  - intros Heof. destruct (L2 Heof) as (Hz & ? & ?). by apply app_eq_nil in Hz as [_ ?].
Qed.

Lemma shutdown_related idle t c d r :
  relay_step idle (tn_relay t) (ShutdownDone d (Ok tt)) = Some r -> related t c ->
  related {| tn_relay := r; tn_peer := tn_peer t;
             tn_lane := upd (tn_lane t) d {| unwritten := unwritten (tn_lane t d); wire := wire (tn_lane t d);
               fin := true; arrived_end := arrived_end (tn_lane t d) |} |} c.
Proof.
  intros Hr Hrel. apply (both_ways d); [|by eapply other_at; rewrite ?upd_opposite].
  destruct (Hrel d) as (Hs & He & (L1 & L2 & L3 & L4 & L5)). destruct (relay_this_pump _ _ _ _ _ Hr eq_refl) as [sg Hp].
  unfold pump_step in Hp. destruct (phase (pump_of (tn_relay t) d)) eqn:Hph; try done. injection Hp as Hx _.
  unfold related_at. cbn [tn_relay tn_peer tn_lane]. rewrite upd_eq, <-Hx. split_and!; [done|done|].
  unfold lane_ok. simpl. split_and!; [done|done|auto|done|done].
Qed.

Lemma arrive_related t c d now later :
  wire (tn_lane t d) = now ++ later -> now <> [] -> related t c ->
  exists c', direct_step c c' /\
  related {| tn_relay := tn_relay t; tn_peer := upd (tn_peer t) (opposite d) (notice (tn_peer t (opposite d)) (Data now));
             tn_lane := upd (tn_lane t) d {| unwritten := unwritten (tn_lane t d); wire := later;
               fin := fin (tn_lane t d); arrived_end := arrived_end (tn_lane t d) |} |} c'.
Proof.
  intros Hw Hn Hrel. destruct (Hrel d) as ((Hs & Hsh & Hout) & He & Hl).
  destruct (Hrel (opposite d)) as (Hp' & He' & Hl').
  eexists. split; [apply (direct_data c d now (later ++ unwritten (tn_lane t d) ++ p_out (tn_peer t d))); [|done]|].
  { by rewrite Hout, Hw, <-!app_assoc. }
  at_both d; [by split_and!|]. split_and!; [by apply notice_same|done|by apply notice_lane].
Qed.

Lemma arrive_end_related t c d :
  wire (tn_lane t d) = [] -> fin (tn_lane t d) = true -> arrived_end (tn_lane t d) = false -> related t c ->
  exists c', direct_step c c' /\
  related {| tn_relay := tn_relay t; tn_peer := upd (tn_peer t) (opposite d) (notice (tn_peer t (opposite d)) End);
             tn_lane := upd (tn_lane t) d {| unwritten := unwritten (tn_lane t d); wire := []; fin := true; arrived_end := true |} |} c'.
Proof.
  intros Hw Hf Ha Hrel. destruct (Hrel d) as ((Hs & Hsh & Hout) & He & (L1 & L2 & L3 & L4 & L5)).
  destruct (Hrel (opposite d)) as (Hp' & He' & Hl'). destruct (L2 (L3 Hf)) as (Hu & Ho & Hshut).
  rewrite Hw, Hu, Ho in Hout. eexists. split; [apply (direct_end c d); [done|congruence|congruence]|].
  at_both d.
  - split_and!; [|done|]; [unfold same_peer; simpl; by rewrite Hu, Ho|]. unfold lane_ok. simpl. split_and!; [done|done|auto|done|done].
  - split_and!; [by apply notice_same|done|by apply notice_lane].
Qed.

Lemma wake_related t c d :
  related t c ->
  exists c', direct_step c c' /\
  related {| tn_relay := tn_relay t; tn_peer := upd (tn_peer t) d (notice (tn_peer t d) Wake); tn_lane := tn_lane t |} c'.
Proof.
  intros Hrel. eexists. split; [apply (direct_wake c d)|]. destruct (Hrel d) as (Hp & He & Hl).
  at_both d; [|apply Hrel]. split_and!; [by apply notice_same|done|by apply notice_lane].
Qed.

Lemma tunnel_step_simulates idle t t' c :
  tunnel_step idle t t' -> related t c -> exists c', rtc direct_step c c' /\ related t' c'.
Proof.
  intros Hs Hrel. assert (forall t'', related t'' c -> exists c', rtc direct_step c c' /\ related t'' c') as Hstay by eauto using rtc_refl.
  assert (forall t'', (exists c', direct_step c c' /\ related t'' c') -> exists c', rtc direct_step c c' /\ related t'' c') as Hmove
    by (intros t'' (c' & ? & ?); eauto using rtc_once).
  destruct Hs; [apply Hstay|apply Hstay|apply Hstay|apply Hstay|apply Hstay|apply Hstay|apply Hmove|apply Hmove|apply Hmove];
    eauto using read_related, read_end_related, write_related, written_related, shutdown_related, other_related,
      arrive_related, arrive_end_related, wake_related.
Qed.

Lemma tunnel_run_simulates idle t t' c :
  rtc (tunnel_step idle) t t' -> related t c -> exists c', rtc direct_step c c' /\ related t' c'.
Proof.
  intros Hs. revert c. induction Hs as [t|t t1 t' Hs Hr IH]; intros c Hrel; [eauto using rtc_refl|].
  destruct (tunnel_step_simulates _ _ _ _ Hs Hrel) as (c1 & Hc1 & Hrel1). destruct (IH c1 Hrel1) as (c' & Hc' & Hrel').
  exists c'. split; [by etrans|done].
Qed.

(** ** Progress *)

(** A relay without a result has no failed pump. *)
Definition no_failure (r : RelayState) : Prop := relay_result r = None -> forall d e, phase (pump_of r d) <> PumpErr e.

Lemma relay_no_failure idle t0 r : relay_reachable idle t0 r -> no_failure r.
Proof.
  induction 1 as [|r ev r' _ IH Hs]; intros Hn d e; [by destruct d|].
  destruct (direction_of ev) as [d'|] eqn:Hd.
  - destruct (relay_pump_step _ _ _ _ _ Hs Hd) as (p & sg & _ & ->). destruct d, d'; simpl in *; unfold join_result in Hn; intros He;
      rewrite He in Hn; try done; by destruct (phase _).
  - rewrite (relay_no_pump _ _ _ _ _ Hs Hd). apply IH. unfold relay_step in Hs. by destruct (relay_result r).
Qed.

(** A pump that still reads or writes has not seen the end. *)
Definition pump_open (x : Pump) : Prop := match phase x with Reading | Writing _ => eof x = false | _ => True end.

Lemma relay_open idle t0 r d : relay_reachable idle t0 r -> pump_open (pump_of r d).
Proof.
  induction 1 as [|r ev r' _ IH Hs]; [by destruct d|]. destruct (direction_of ev) as [d'|] eqn:Hd.
  - destruct (decide (d = d')) as [<-|Hne]; [|by rewrite (opposite_of d' d Hne) in *; rewrite (relay_other_pump _ _ _ _ _ Hs Hd)].
    destruct (relay_this_pump _ _ _ _ _ Hs Hd) as [sg Hp]. unfold pump_open, pump_step in *.
    destruct (phase (pump_of r d)) eqn:Hph; try done; destruct ev as [|? [c|]|? [|]|? [|]| |]; try done;
      [|injection Hp as <- _; done..]. destruct (_ <? _); [done|]. case_bool_decide; injection Hp as <- _; done.
  - by rewrite (relay_no_pump _ _ _ _ _ Hs Hd).
Qed.

Lemma tunnel_relay idle t0 t t' :
  rtc (tunnel_step idle) t t' -> relay_reachable idle t0 (tn_relay t) -> relay_reachable idle t0 (tn_relay t').
Proof.
  induction 1 as [t|t t1 t' Hs _ IH]; intros Hr; [done|]. apply IH.
  destruct Hs; simpl; try done; by eapply relay_reachable_step.
Qed.

(** A running relay of the tunnel [t]. *)
Definition runs (idle : option Z) (t0 : Z) (r : RelayState) : Prop := relay_reachable idle t0 r /\ relay_result r = None.

(** A completion that does not end its pump leaves the relay running. *)
Lemma relay_goes_on idle t0 r d ev x sg :
  runs idle t0 r -> direction_of ev = Some d -> pump_step (pump_of r d) ev = Some (x, sg) ->
  exists r', relay_step idle r ev = Some r' /\ pump_of r' d = x /\
    (phase x <> PumpOk -> (forall e, phase x <> PumpErr e) -> runs idle t0 r').
Proof.
  intros [Hr Hn] Hd Hp. pose proof (relay_no_failure _ _ _ Hr Hn (opposite d)) as Ho.
  assert (exists r', relay_step idle r ev = Some r') as [r' Hs].
  { unfold relay_step. rewrite Hn.
    destruct ev as [|d' res|d' res|d' res| |]; try done; injection Hd as ->; destruct d; simpl in *; rewrite Hp; by eexists. }
  exists r'. split; [done|]. destruct (relay_pump_step _ _ _ _ _ Hs Hd) as (x' & sg' & Hp' & ->). rewrite Hp in Hp'. injection Hp' as <- <-.
  split; [by destruct d|]. intros H1 H2. split; [by eapply relay_reachable_step|].
  destruct d; simpl in *; unfold join_result; destruct (phase x); try done; try (by destruct (H2 e)); destruct (phase _); try done; by destruct (Ho e).
Qed.

(** A pump whose chunk is written gets to read again. *)
Lemma settles idle t0 t c d :
  related t c -> runs idle t0 (tn_relay t) -> unwritten (tn_lane t d) = [] -> eof (pump_of (tn_relay t) d) = false ->
  exists r, rtc (tunnel_step idle) t (set_relay t r) /\ runs idle t0 r /\ phase (pump_of r d) = Reading.
Proof.
  intros Hrel Hruns Hu He. pose proof Hruns as [Hr Hn]. destruct (Hrel d) as (_ & _ & (L1 & L2 & L3 & L4 & L5)).
  destruct (phase (pump_of (tn_relay t) d)) as [|chunk| | |e] eqn:Hph.
  - exists (tn_relay t). destruct t. by split_and!; [apply rtc_refl|..].
  - assert (exists x sg, pump_step (pump_of (tn_relay t) d) (WriteDone d (Ok tt)) = Some (x, sg) /\ phase x = Reading) as (x & sg & Hp & Hx)
      by (unfold pump_step; rewrite Hph; eauto).
    destruct (relay_goes_on idle t0 _ d (WriteDone d (Ok tt)) x sg Hruns eq_refl Hp) as (r & Hs & Hpx & Hgo).
    exists r. rewrite Hpx. split_and!; [by eapply rtc_once, tunnel_written|apply Hgo; by rewrite Hx|done].
  - by rewrite (L4 eq_refl) in He.
  - by rewrite (L3 (L5 eq_refl)) in He.
  - by destruct (relay_no_failure _ _ _ Hr Hn d e).
Qed.

(** The peers have noticed nothing. *)
Definition unnoticed (t t' : Tunnel) : Prop := forall d, p_state (tn_peer t' d) = p_state (tn_peer t d).

(** What is in a lane gets on the wire. *)
Lemma unwritten_goes_out idle t0 t d :
  runs idle t0 (tn_relay t) -> unwritten (tn_lane t d) <> [] ->
  exists t', rtc (tunnel_step idle) t t' /\ unnoticed t t' /\ wire (tn_lane t' d) <> [].
Proof.
  intros [_ Hn] Hu. eexists. split.
  - eapply rtc_once, (tunnel_write idle t d (unwritten (tn_lane t d)) []); [done|by rewrite app_nil_r].
  - split; [done|]. simpl. rewrite upd_eq. simpl. by intros [_ ?]%app_eq_nil.
Qed.

(** Bytes the direct connection could deliver get on the wire. *)
Lemma bytes_get_through idle t0 t c d :
  related t c -> runs idle t0 (tn_relay t) -> p_out (dc_peer c d) <> [] ->
  exists t', rtc (tunnel_step idle) t t' /\ unnoticed t t' /\ wire (tn_lane t' d) <> [].
Proof.
  intros Hrel Hruns Hout. destruct (Hrel d) as ((_ & _ & Ho) & _ & (_ & L2 & _)). rewrite Ho in Hout.
  destruct (decide (wire (tn_lane t d) = [])) as [Hw|Hw]; [|exists t; split; [apply rtc_refl|done]].
  destruct (decide (unwritten (tn_lane t d) = [])) as [Hu|Hu]; [|by eapply unwritten_goes_out].
  rewrite Hw, Hu in Hout. simpl in Hout.
  destruct (settles idle t0 t c d Hrel Hruns Hu) as (r & Hs & Hruns1 & Hph).
  { destruct (eof _) eqn:E; [|done]. destruct (L2 eq_refl) as (_ & Hz & _). done. }
  destruct (p_out (tn_peer t d)) as [|b rest] eqn:Hp; [done|].
  assert (exists x sg, pump_step (pump_of r d) (ReadDone d (Ok [b])) = Some (x, sg) /\ phase x = Writing [b]) as (x & sg & Hpx & Hx)
    by (unfold pump_step; rewrite Hph; eauto).
  destruct (relay_goes_on idle t0 r d (ReadDone d (Ok [b])) x sg Hruns1 eq_refl Hpx) as (r' & Hr' & _ & Hgo).
  pose proof (tunnel_read idle (set_relay t r) d [b] rest r' Hr' ltac:(done) Hp) as Hread.
  match type of Hread with tunnel_step _ _ ?t1 => destruct (unwritten_goes_out idle t0 t1 d) as (t' & Hs' & Hq & Hw') end.
  - simpl. apply Hgo; by rewrite Hx.
  - simpl. by rewrite upd_eq.
  - exists t'. split_and!; [etrans; [exact Hs|]; by eapply rtc_l| |done].
    intros d'. rewrite Hq. simpl. unfold upd. by case_decide; subst.
Qed.

(** So does the end of a stream. *)
Lemma end_gets_through idle t0 t c d :
  related t c -> runs idle t0 (tn_relay t) -> p_out (dc_peer c d) = [] -> p_shut (dc_peer c d) = true ->
  exists t', rtc (tunnel_step idle) t t' /\ unnoticed t t' /\ wire (tn_lane t' d) = [] /\ fin (tn_lane t' d) = true.
Proof.
  intros Hrel Hruns Hout Hshut. destruct (Hrel d) as ((_ & Hsh & Ho) & _ & (_ & L2 & L3 & L4 & L5)).
  rewrite Ho in Hout. apply app_eq_nil in Hout as [Hw Hout]. apply app_eq_nil in Hout as [Hu Hp].
  destruct (fin (tn_lane t d)) eqn:Hfin; [exists t; split_and!; [apply rtc_refl|done|done|done]|].
  assert (exists r, rtc (tunnel_step idle) t (set_relay t r) /\ runs idle t0 r /\ phase (pump_of r d) = ShuttingDown)
    as (r & Hs & Hruns1 & Hph).
  { destruct (eof (pump_of (tn_relay t) d)) eqn:He.
    - exists (tn_relay t). split_and!; [destruct t; apply rtc_refl|done|].
      destruct Hruns as [Hr Hn]. pose proof (relay_no_failure _ _ _ Hr Hn d) as Hf. pose proof (relay_open _ _ _ d Hr) as Hopen.
      unfold pump_open in Hopen. rewrite He in Hopen. destruct (phase (pump_of (tn_relay t) d)); try done; [by specialize (L5 eq_refl)|by destruct (Hf e)].
    - destruct (settles idle t0 t c d Hrel Hruns Hu He) as (r1 & Hs1 & Hruns1 & Hph1).
      assert (exists x sg, pump_step (pump_of r1 d) (ReadDone d (Ok [])) = Some (x, sg) /\ phase x = ShuttingDown) as (x & sg & Hpx & Hx)
        by (unfold pump_step; rewrite Hph1; eauto).
      destruct (relay_goes_on idle t0 r1 d (ReadDone d (Ok [])) x sg Hruns1 eq_refl Hpx) as (r & Hr & Hpr & Hgo).
      exists r. rewrite Hpr. split_and!; [|apply Hgo; by rewrite Hx|done].
      eapply rtc_r; [exact Hs1|]. apply (tunnel_read_end idle (set_relay t r1) d r); [done|done|simpl; congruence]. }
  assert (exists x sg, pump_step (pump_of r d) (ShutdownDone d (Ok tt)) = Some (x, sg)) as (x & sg & Hpx)
    by (unfold pump_step; rewrite Hph; eauto).
  destruct (relay_goes_on idle t0 r d (ShutdownDone d (Ok tt)) x sg Hruns1 eq_refl Hpx) as (r' & Hr' & _ & _).
  eexists. split; [eapply rtc_r; [exact Hs|]; by apply (tunnel_shutdown idle (set_relay t r) d r')|].
  split; [done|]. simpl. by rewrite upd_eq.
Qed.
End Tunnel.

(** ** Properties *)

(** C9: A tunnel is transparent: for any two peers, every run of the relay between them, with any interleaving, cutting into pieces, failures and timeouts, is a run of the two peers connected directly: at its end both peers are in the same state, with the bytes under way in the tunnel still to be delivered; as long as the relay runs, whatever the direct connection could deliver next, bytes or the end of a stream, the tunnel can bring to the peer's wire without any other help; and a relay that ends without an error, once its wires are empty, has delivered both streams and both ends. *)
Theorem relay_transparent {P} (react : P -> Input -> (bytes * bool) * P) idle t0 peers t :
  rtc (tunnel_step react idle) (tunnel_start idle t0 peers) t ->
  exists c, rtc (direct_step react) (direct_start peers) c /\
    (forall d, p_state (dc_peer c d) = p_state (tn_peer t d) /\ p_shut (dc_peer c d) = p_shut (tn_peer t d) /\
       p_out (dc_peer c d) = wire (tn_lane t d) ++ unwritten (tn_lane t d) ++ p_out (tn_peer t d) /\
       dc_ended c d = arrived_end (tn_lane t d)) /\
    (relay_result (tn_relay t) = None -> forall d,
       (p_out (dc_peer c d) <> [] ->
          exists t', rtc (tunnel_step react idle) t t' /\ unnoticed t t' /\ wire (tn_lane t' d) <> []) /\
       (p_out (dc_peer c d) = [] -> p_shut (dc_peer c d) = true ->
          exists t', rtc (tunnel_step react idle) t t' /\ unnoticed t t' /\ wire (tn_lane t' d) = [] /\ fin (tn_lane t' d) = true)) /\
    (forall n m, relay_result (tn_relay t) = Some (Ok (n, m)) -> forall d,
       wire (tn_lane t d) = [] -> p_out (dc_peer c d) = [] /\ p_shut (dc_peer c d) = true /\ fin (tn_lane t d) = true).
Proof.
  intros Hrun. destruct (tunnel_run_simulates _ _ _ _ _ Hrun (start_related idle t0 peers)) as (c & Hc & Hrel).
  pose proof (tunnel_relay react idle t0 _ _ Hrun (relay_reachable_init idle t0)) as Hreach. exists c. split_and!; [done| | |].
  - intros d. destruct (Hrel d) as ((? & ? & ?) & ? & _). done.
  - intros Hn d. assert (runs idle t0 (tn_relay t)) as Hruns by done. split; [by eapply bytes_get_through|by eapply end_gets_through].
  - intros n m Hok d Hw. destruct (Hrel d) as ((_ & Hsh & Ho) & _ & (_ & L2 & L3 & _ & L5)).
    destruct (relay_reachable_inv _ _ _ Hreach) as (_ & _ & _ & _ & Hres). destruct (Hres n m Hok) as (Ha & Hb & _).
    assert (fin (tn_lane t d) = true) as Hf by (apply L5; by destruct d).
    destruct (L2 (L3 Hf)) as (Hu & Hp & Hs). rewrite Ho, Hw, Hu, Hp, Hsh. done.
Qed.

(** ** The benchmark's peers through the relay *)

Definition react_prog (cut : bytes -> nat) (p : Prog unit) (i : Input) : (bytes * bool) * Prog unit :=
  match i with
  | Data bs => drive cut bs false p
  | End => drive cut [] true p
  | Wake => drive cut [] false p
  end.

Definition three_bytes (bs : bytes) : nat := 3.

(** The client has sent three bytes and closed; the mock upstream waits. *)
Definition echo_peers (d : Direction) : PeerSide (Prog unit) :=
  match d with
  | ClientToUpstream => Build_PeerSide (pbind (check_echo small_payload) (read_to_end 8 32 [])) small_payload true
  | UpstreamToClient => Build_PeerSide (pbind echo (read_to_end 8 32 [])) [] false
  end.

(** The payload is read, one byte of it is written, and it arrives. *)
Lemma relay_transparent_witness :
  exists t c, rtc (tunnel_step (react_prog three_bytes) (Some 5)) (tunnel_start (Some 5) 0 echo_peers) t /\
    unwritten (tn_lane t ClientToUpstream) = [90; 90] /\
    rtc (direct_step (react_prog three_bytes)) (direct_start echo_peers) c /\ p_out (dc_peer c ClientToUpstream) = [90; 90].
Proof.
  assert (exists t, rtc (tunnel_step (react_prog three_bytes) (Some 5)) (tunnel_start (Some 5) 0 echo_peers) t /\
    unwritten (tn_lane t ClientToUpstream) = [90; 90] /\ wire (tn_lane t ClientToUpstream) = [] /\
    p_out (tn_peer t ClientToUpstream) = []) as (t & Hrun & Hu & Hw & Hp).
  { eexists. split.
    - eapply rtc_l; [apply (tunnel_read _ _ _ ClientToUpstream small_payload []); [reflexivity|discriminate|reflexivity]|].
      eapply rtc_l; [apply (tunnel_write _ _ _ ClientToUpstream [90] [90; 90]); reflexivity|].
      eapply rtc_l; [apply (tunnel_arrive _ _ _ ClientToUpstream [90] []); [reflexivity|discriminate]|]. apply rtc_refl.
    - split; [reflexivity|]. split; reflexivity. }
  destruct (relay_transparent (react_prog three_bytes) (Some 5) 0 echo_peers t Hrun) as (c & Hc & Hrel & _).
  destruct (Hrel ClientToUpstream) as (_ & _ & Ho & _).
  exists t, c. split; [exact Hrun|]. split; [exact Hu|]. split; [exact Hc|]. rewrite Ho, Hw, Hu, Hp. reflexivity.
Defined.
