(* ===== verification/BenchRun.v ===== *)
(** * BenchRun: one connection of the benchmark, from end to end

    [handle_client] of src/server.rs serving [run_client] of
    src/bin/fastpx-bench.rs through the mock upstream: the request is read,
    the exchange of [Protocol] is held, the tunnel is announced, and the relay
    starts as a session of [Session]. *)

From S2P Require Import Prelude RustStr RustNet Config Routing Auth Io Http1 Http1Body Relay Challenge Base64 Server Scenario Handshake Tunnel Protocol Client BenchPeers Mock Session.

(** [vec![0x5a; cli.payload_bytes]]. *)
Definition bench_payload (cli : BenchCli) : bytes := replicate (Z.to_nat (payload_bytes cli)) 90.

(** Socket 0 is the client; the mock upstream takes [accepts] connections. *)
Definition bench_world (su : Setup) (accepts : nat) : MockWorld su :=
  Build_MockWorld [start_peer su (run_client (su_fuel su) (su_room su) (bench_payload (su_cli su)))] accepts.

(** ** The client's side *)

Section Client.
Context (su : Setup) (payload : bytes).

(** [run_client] after the response head. *)
Definition client_rest (remaining : bytes) : Prog unit :=
  if negb (bool_decide (remaining = []))
  then fail (bench_error InvalidData "unexpected bytes after CONNECT response")
  else
    write_ payload;;
    shutdown_;;
    read_to_end (su_fuel su) (su_room su) [] ≫= check_echo payload.

Lemma client_started :
  start_peer su (run_client (su_fuel su) (su_room su) payload) =
    {| mp_prog := pbind client_rest read_head; mp_out := bench_request; mp_shut := false |}.
Proof.
  unfold start_peer, feed. cbn [mp_prog mp_out mp_shut].
  assert (drive (su_cut su) [] false (run_client (su_fuel su) (su_room su) payload) =
    (bench_request, false, pbind client_rest read_head)) as ->; [|done].
  unfold run_client, mbind, Prog_bind. cbn [pbind write_ drive].
  match goal with |- context [pbind ?f read_head] => change f with client_rest end.
  rewrite drive_idle_head. by rewrite app_nil_r.
Qed.

(** The announcement of the tunnel sets the client going. *)
Lemma client_opened p :
  mp_prog p = pbind client_rest read_head -> mp_out p = [] ->
  let p' := feed su (as_bytes established_text) false p in
  waiting su (check_echo payload) [] p' /\ mp_out p' = payload /\ mp_shut p' = true.
Proof.
  intros Hp Ho. unfold feed. rewrite Hp.
  rewrite drive_read_head by (vm_compute; congruence).
  unfold client_rest. rewrite bool_decide_eq_true_2 by done. cbn [negb]. unfold mbind, Prog_bind. cbn [pbind write_ shutdown_ drive].
  assert (drive (su_cut su) [] false (pbind (check_echo payload) (read_to_end (su_fuel su) (su_room su) [])) =
    ([], false, pbind (check_echo payload) (read_to_end (su_fuel su) (su_room su) []))) as -> by (by destruct (su_fuel su)).
  cbn [mp_prog mp_out mp_shut]. rewrite Ho, app_nil_r, orb_true_r. split_and!; [|done|done].
  exists (su_fuel su). split; [reflexivity|simpl; lia].
Qed.
End Client.

(** ** The proxy's side *)

Section Run.
Context `{Httparse} `{Base64} `{!BenchCrates}.
Context (su : Setup) (fuel : nat).
Hypothesis fuel_head : (Z.to_nat (32 * 1024) < fuel)%nat.

Abbreviation payload := (bench_payload (su_cli su)).
Abbreviation config := (su_config su).

(** The client waits for the response to its request. *)
Definition client_asked (c : MockPeer) : Prop := mp_prog c = pbind (client_rest su payload) read_head.

Definition asked_world (accepts : nat) (w : MockWorld su) : Prop :=
  mw_accepts w = accepts /\ exists c, mw_peers w !! 0%nat = Some c /\ client_asked c.

Lemma keeps_read_head_bytes {W} `{Network W} (I : W -> Prop) n r max bs :
  (forall j m w x w', I w -> net_read j m w = (x, w') -> I w') -> keeps I (read_head_bytes_loop n r max bs).
Proof. intros HI. revert bs. induction n as [|n IH]; intros bs; cbn [read_head_bytes_loop]; keeps_step. Qed.

Lemma asked_read accepts j m (w : MockWorld su) x w' :
  asked_world accepts w -> net_read j m w = (x, w') -> asked_world accepts w'.
Proof.
  intros (Ha & c & Hc & Hp). simpl. destruct (mw_peers w !! j) as [q|] eqn:Ej; intros [= <- <-]; (split; [done|]); [|eauto].
  destruct (decide (j = 0%nat)) as [->|]; [|exists c; by rewrite set_mock_other].
  simplify_eq. eexists. split; [by eapply (set_mock_lookup w)|done].
Qed.

Lemma parse_bench_request :
  parse_request_head bench_request = Ok ({| method := lit "CONNECT"; target := lit "benchmark.test:443" |}, []).
Proof.
  unfold parse_request_head. assert (find_header_end bench_request = Some (len bench_request)) as -> by (vm_compute; reflexivity).
  unfold ok_or, mbind. cbn [result_bind]. unfold len. rewrite Nat2Z.id, firstn_all, drop_all.
  by rewrite parsed_bench_request.
Qed.

Lemma read_bench_request accepts (s : st (MockWorld su)) :
  world s = bench_world su accepts ->
  exists s1 c, read_request_head fuel 0 (32 * 1024) s =
      (Val ({| method := lit "CONNECT"; target := lit "benchmark.test:443" |}, []), s1) /\
    did config bench_destination s s1 [] /\ client_asked c /\
    mock_listens su c (replicate accepts (mock_messages (su_ntlm su))) (world s1).
Proof.
  intros Hw. destruct (read_head_bytes_loop_spec fuel 0 (32 * 1024) [] s) as (o & s1 & Hr & Hs); [done|done|].
  assert (pending 0 (world s) = bench_request) as Hp by (by rewrite Hw; unfold bench_world; rewrite client_started).
  assert (asked_world accepts (world s)) as Hasked.
  { rewrite Hw. split; [done|]. eexists. split; [done|]. unfold client_asked. by rewrite client_started. }
  pose proof (keeps_run _ _ _ _ _ (keeps_read_head_bytes _ fuel 0 (32 * 1024) [] (asked_read accepts)) Hr Hasked)
    as (Hacc & c & Hc & Hcp).
  rewrite Hp in Hs. unfold head_spec in Hs.
  assert (find_header_end ([] ++ bench_request) = Some (len bench_request)) as He by (vm_compute; reflexivity).
  rewrite He, (proj2 (Z.leb_le _ _)) in Hs by (vm_compute; congruence).
  destruct Hs as (bs & -> & Hbs & Hlen & _).
  assert (pending 0 (world s1) = []) as Hnil.
  { apply (f_equal len) in Hbs. rewrite len_app in Hbs. cbn [app] in Hbs. apply len_zero. pose proof (len_nonneg (pending 0 (world s1))). lia. }
  rewrite Hnil, app_nil_r in Hbs. subst bs. exists s1, c.
  assert (read_request_head fuel 0 (32 * 1024) s =
    (Val ({| method := lit "CONNECT"; target := lit "benchmark.test:443" |}, []), s1)) as Hrun.
  { unfold read_request_head, read_head_bytes, mbind, M_bind. rewrite Hr. cbn [app]. by rewrite parse_bench_request. }
  split_and!; [done| |done|].
  - apply read_request_head_received in Hrun as (evs & Ht & Hreads & _). exists evs. split; [done|].
    clear -Hreads. induction Hreads as [|ev evs Hev _ IH]; [done|]. by destruct ev.
  - assert (mp_out c = []) by (by simpl in Hnil; rewrite Hc in Hnil).
    split_and!; [by rewrite length_replicate|apply Forall_replicate, mock_messages_wire|done|done].
Qed.

Lemma open_bench_tunnel accepts c (s : st (MockWorld su)) :
  mock_listens su c (replicate (S accepts) (mock_messages (su_ntlm su))) (world s) ->
  exists up s1 p, establish_tunnel config fuel bench_destination s = (Val up, s1) /\
    did config bench_destination s s1 (mock_actions (su_ntlm su)) /\ buffer up = [] /\
    mw_peers (world s1) !! 0%nat = Some c /\ stream up <> 0%nat /\
    mw_peers (world s1) !! stream up = Some p /\ waiting su echo [] p /\ mp_out p = [] /\ mp_shut p = false.
Proof.
  intros Hl.
  pose proof (establish_upstream_tunnel_refines (Upstreams0 := mock_upstreams su c) config bench_destination fuel
    fuel_head ltac:(done) _ s Hl) as Hr.
  unfold refines in Hr. cbn [replicate] in Hr. rewrite mock_spec in Hr.
  destruct (establish_upstream_tunnel config fuel bench_destination s) as [o s1] eqn:E.
  destruct Hr as (Hd & up & ds & -> & Hrem & (Hk & p & Hp & Hc & Hsh) & _ & _ & Hc0 & _); [|by apply mock_sendable|].
  { apply Forall_cons_2; [|apply Forall_replicate]; apply mock_messages_fit; done || lia. }
  apply app_eq_nil in Hrem as [Hb Hpend]. simpl in Hpend. rewrite Hp in Hpend.
  exists up, s1, p. split_and!; try done.
  exists (su_fuel su). split; [exact Hc|simpl; lia].
Qed.

Lemma session_run_relay s evs s' :
  session_run su s evs = Some s' -> ss_relay s' = relay_run (idle_timeout config) (ss_relay s) evs.
Proof.
  unfold relay_run. revert s. induction evs as [|ev evs IH]; intros s Hs; cbn [foldl session_run] in *; [by injection Hs as <-|].
  apply bind_Some in Hs as (s1 & Hs1 & Hs). rewrite (IH s1 Hs). unfold session_step in Hs1.
  apply bind_Some in Hs1 as (r & -> & Hs1). cbn [default from_option]. f_equal.
  destruct ev as [|[] [c|]|[] [|]|[] [|]| |]; try done; simpl in Hs1;
    try (destruct (offers _ _); [|done]); by injection Hs1 as <-.
Qed.

(** The session in which the relay of a run starts. *)
Definition session_at (k : sock) (w : MockWorld su) : option Session :=
  c ← mw_peers w !! 0%nat;
  p ← mw_peers w !! k;
  Some {| ss_relay := relay_init (idle_timeout config) 0; ss_client := c; ss_up := p |}.

Definition relay_outcome (r : option (result IoError (Z * Z))) : outcome ProxyError unit :=
  match r with
  | Some (Ok _) => Val tt
  | Some (Err e) => Exn (Proxy_Io e)
  | None => NoFuel
  end.

(** Announcing the tunnel and starting the relay. *)
Lemma announce_run c p up (s : st (MockWorld su)) o s' :
  mw_peers (world s) !! 0%nat = Some c -> mw_peers (world s) !! stream up = Some p -> stream up <> 0%nat -> buffer up = [] ->
  (io_try (write_all 0 (as_bytes established_text));;
   let '(up, early) := into_parts up in
   (if bool_decide ((@nil Z) = []) then mret tt else io_try (write_all up []));;
   (if bool_decide (early = []) then mret tt else io_try (write_all 0 early));;
   run_relay config 0 up;;
   mret tt) s = (o, s') ->
  trace s' = trace s ++ [EvWrite 0 (as_bytes established_text); EvRelay 0 (stream up)] /\
  mw_peers (world s') !! 0%nat = Some (feed su (as_bytes established_text) false c) /\
  mw_peers (world s') !! stream up = Some p /\
  o = relay_outcome (relay_bidirectional (idle_timeout config) 0 (su_schedule su)).
Proof.
  intros Hc Hp Hk Hb Hrun.
  assert (io_try (write_all 0 (as_bytes established_text)) s =
    (Val tt, Build_st (set_mock (world s) 0 (feed su (as_bytes established_text) false c))
                      (trace s ++ [EvWrite 0 (as_bytes established_text)]))) as Hw.
  { unfold io_try, write_all, act, mbind, M_bind. cbn [net_write_all mock_network]. by rewrite Hc. }
  erewrite bind_run in Hrun by exact Hw. unfold into_parts in Hrun. rewrite Hb in Hrun.
  rewrite bool_decide_eq_true_2 in Hrun by done.
  erewrite bind_run in Hrun by reflexivity. erewrite bind_run in Hrun by reflexivity.
  unfold run_relay, act, mbind, M_bind in Hrun. cbn [relay_schedule mock_relay world trace] in Hrun.
  destruct (relay_bidirectional _ _ _) as [[|]|]; simpl in Hrun; injection Hrun as <- <-; cbn [world trace];
    rewrite <-app_assoc, (set_mock_other _ 0 (stream up)) by done; (split_and!; [done|by eapply (set_mock_lookup (world s))|done|done]).
Qed.

Lemma bench_connection_run accepts :
  let '(o, s') := handle_client config fuel 0 (Build_st (bench_world su (S accepts)) []) in
  exists k pre start, trace s' = pre ++ [EvWrite 0 (as_bytes established_text); EvRelay 0 k] /\
    Forall2 (shows config bench_destination) (List.filter visible pre) (mock_actions (su_ntlm su)) /\
    session_at k (world s') = Some start /\ session_start su payload 0 start /\
    o = relay_outcome (relay_bidirectional (idle_timeout config) 0 (su_schedule su)).
Proof.
  set (s0 := Build_st (bench_world su (S accepts)) []).
  destruct (handle_client config fuel 0 s0) as [o s'] eqn:E. unfold handle_client in E.
  erewrite bind_run in E by apply nodelay_run.
  destruct (read_bench_request (S accepts) (after_nodelay 0 s0)) as (s1 & c & Hr & Hd1 & Hc & Hl); [done|].
  erewrite bind_run in E by (change (max_header_bytes config) with (32 * 1024); rewrite try_run, Hr; reflexivity).
  cbn [method target] in E. change (negb _) with false in E. cbv iota in E.
  assert (Endpoint_from_str (lit "benchmark.test:443") = Ok bench_destination) as He by (vm_compute; reflexivity).
  rewrite He in E.
  destruct (open_bench_tunnel accepts c s1 Hl) as (up & s2 & p & Ht & Hd2 & Hb & Hc0 & Hk & Hp & Hw & Ho & Hsh).
  erewrite bind_run in E by (rewrite try_run, Ht; reflexivity). cbv beta iota in E.
  destruct (announce_run c p up s2 o s' Hc0 Hp Hk Hb E) as (Htr & Hc1 & Hp1 & Hout).
  destruct (did_trans _ _ _ _ _ _ _ Hd1 Hd2) as (evs & Htr2 & Hshows).
  destruct (client_opened su payload c Hc) as (Hcw & Hco & Hcs); [by apply Hl|].
  exists (stream up), (EvNodelay 0 :: evs). eexists. split_and!.
  - rewrite Htr, Htr2. reflexivity.
  - exact Hshows.
  - unfold session_at. rewrite Hc1, Hp1. reflexivity.
  - by split_and!.
  - exact Hout.
Qed.
End Run.

(** C11: A connection of the benchmark works end to end: serving its client through its mock upstream, the proxy reads the request, holds exactly the exchange of the mock upstream (two NTLM tokens with --mock-ntlm, none without), announces the tunnel and starts the relay with the client's payload sent and the upstream waiting; and on every schedule of that relay that runs to its end, the client has verified the echo and the proxy returns success, unless the idle watchdog closed the tunnel. *)
Theorem benchmark_connection `{Httparse} `{Base64} `{!BenchCrates} su fuel accepts :
  (Z.to_nat (32 * 1024) < fuel)%nat -> (length (bench_payload (su_cli su)) < su_fuel su)%nat ->
  let '(o, s') := handle_client (su_config su) fuel 0 (Build_st (bench_world su (S accepts)) []) in
  exists k pre start,
    trace s' = pre ++ [EvWrite 0 (as_bytes established_text); EvRelay 0 k] /\
    Forall2 (shows (su_config su) bench_destination) (List.filter visible pre) (mock_actions (su_ntlm su)) /\
    session_at su k (world s') = Some start /\ session_start su (bench_payload (su_cli su)) 0 start /\
    forall s, session_run su start (su_schedule su) = Some s -> relay_result (ss_relay s) <> None ->
      (o = Val tt /\ mp_prog (ss_client s) = Done (Ok tt)) \/ o = Exn (Proxy_Io idle_error).
Proof.
  intros Hfuel Hpay. pose proof (bench_connection_run su fuel Hfuel accepts) as Hr.
  destruct (handle_client _ _ _ _) as [o s']. destruct Hr as (k & pre & start & Htr & Hsh & Hat & Hst & Ho).
  exists k, pre, start. split_and!; [done|done|done|done|].
  intros s Hrun Hres. pose proof (session_run_relay su start (su_schedule su) s Hrun) as Hrel.
  destruct (session_start_inv _ _ Hpay _ _ Hst) as [Hi _].
  destruct (session_run_inv _ _ Hpay _ _ _ Hi Hrun) as [Hi' _].
  rewrite (proj1 Hst) in Hrel. unfold relay_bidirectional in Ho. rewrite <-Hrel in Ho. subst o.
  destruct (relay_result (ss_relay s)) as [[[n m]|e]|] eqn:Er; [| |done].
  - left. split; [done|]. by eapply session_ends_well.
  - right. destruct Hi' as (_ & Hres' & _). unfold result_ok in Hres'. rewrite Er in Hres'. by subst e.
Qed.

(** ** A connection, evaluated *)

Global Instance bench_crates : BenchCrates.
Proof. split; vm_compute; reflexivity. Qed.

Definition bench_fuel : nat := Z.to_nat (32 * 1024 + 1).

Lemma benchmark_connection_witness :
  fst (handle_client (su_config (small_setup true small_schedule)) bench_fuel 0
         (Build_st (bench_world (small_setup true small_schedule) 2) [])) = Val tt /\
  exists k pre start,
    Forall2 (shows (su_config (small_setup true small_schedule)) bench_destination) (List.filter visible pre)
      [Dial; Request None; Request (Some (lit "NTLM dHlwZTE=")); Request (Some (lit "NTLM dHlwZTM="))] /\
    session_at (small_setup true small_schedule) k
      (world (snd (handle_client (su_config (small_setup true small_schedule)) bench_fuel 0
         (Build_st (bench_world (small_setup true small_schedule) 2) [])))) = Some start /\
    session_start (small_setup true small_schedule) [90; 90; 90] 0 start.
Proof.
  split; [vm_compute; reflexivity|].
  pose proof (benchmark_connection (small_setup true small_schedule) bench_fuel 1) as Hr.
  destruct (handle_client _ _ _ _) as [o s'].
  destruct Hr as (k & pre & start & _ & Hsh & Hat & Hst & _); [unfold bench_fuel; lia|vm_compute; lia|].
  exists k, pre, start. split; [exact Hsh|]. split; [exact Hat|exact Hst].
Defined.
