(* ===== verification/Bench.v ===== *)
(** * Bench: the workers and the report of src/bin/fastpx-bench.rs

    The workers of the benchmark share a counter from which each takes the
    next index until all connections are made; [main] binds the listeners,
    starts the proxy and the workers, joins them, sorts the
    latencies, stops the proxy and reports percentiles.  One connection is the
    subject of [BenchRun]; here it is a result with a latency.  The clock, the
    rate and the printing are not modelled. *)

From Stdlib Require Import Sorting.Sorted.
From stdpp Require Import sorting.
From S2P Require Import Prelude RustStr RustNet Config Auth Io Http1 Serve BenchPeers.

(** ** [percentile] *)

(** [(values.len() - 1) * percentile / 100] in [usize]. *)
Definition percentile_index (n percentile : Z) : Z := uint_mul 64 (uint_sub 64 n 1) percentile / 100.

(** [values[index]]; [None] is the panic of an index out of range. *)
Definition percentile (values : list Z) (p : Z) : option Z :=
  values !! Z.to_nat (percentile_index (len values) p).

(** ** The workers *)

(** Where a worker task is: at [fetch_add], in [run_client], or ended. *)
Inductive Worker :=
| Fetching (latencies : list Z)
| Connecting (index : Z) (latencies : list Z)
| Ended (r : result IoError (list Z)).

(** [next] is the shared counter; [taken] records the indices for which
    [run_client] was started, in order. *)
Record BenchState := { next : Z; workers : list Worker; taken : list Z }.

Inductive BenchEvent :=
| FetchAdd (worker : nat)
| ClientDone (worker : nat) (r : result IoError Z).

Definition bench_init (cli : BenchCli) : BenchState :=
  {| next := 0; workers := replicate (Z.to_nat (concurrency cli)) (Fetching []); taken := [] |}.

Definition bench_step (cli : BenchCli) (st : BenchState) (ev : BenchEvent) : option BenchState :=
  match ev with
  | FetchAdd i =>
    match workers st !! i with
    | Some (Fetching latencies) =>
      let index := next st in
      if connections cli <=? index
      then Some {| next := uint_add 64 (next st) 1; workers := <[i := Ended (Ok latencies)]> (workers st);
                   taken := taken st |}
      else Some {| next := uint_add 64 (next st) 1; workers := <[i := Connecting index latencies]> (workers st);
                   taken := taken st ++ [index] |}
    | _ => None
    end
  | ClientDone i r =>
    match workers st !! i with
    | Some (Connecting _ latencies) =>
      Some {| next := next st;
              workers := <[i := match r with
                                | Ok latency => Fetching (latencies ++ [latency])
                                | Err e => Ended (Err e)
                                end]> (workers st);
              taken := taken st |}
    | _ => None
    end
  end.

Inductive bench_reachable (cli : BenchCli) : BenchState -> Prop :=
| bench_reachable_init : bench_reachable cli (bench_init cli)
| bench_reachable_step st ev st' :
    bench_reachable cli st -> bench_step cli st ev = Some st' -> bench_reachable cli st'.

(** ** [main] *)

(** The [join_next] loop: the results in the order the workers ended. *)
Fixpoint join_all (latencies : list Z) (joined : list (result IoError (list Z))) : result IoError (list Z) :=
  match joined with
  | [] => Ok latencies
  | Ok ls :: joined' => join_all (latencies ++ ls) joined'
  | Err e :: _ => Err e
  end.

Inductive BenchOutcome :=
| BenchBail (message : str)
| BenchIo (e : IoError)
| BenchReport (p50 p95 p99 : Z)
| BenchPanic
| BenchWaits.  (* for the proxy task, forever *)

Definition bench_check (cli : BenchCli) : option str :=
  if (connections cli =? 0) || (concurrency cli =? 0)
  then Some (lit "connections and concurrency must be greater than zero") else None.

(** [main] after the workers: [joined] are their results, [served] is the
    result of the proxy task, [None] when it does not end. *)
Definition bench_finish (cli : BenchCli) (joined : list (result IoError (list Z))) (served : option (result IoError unit)) :
  BenchOutcome :=
  match join_all [] joined with
  | Err e => BenchIo e
  | Ok latencies =>
    let latencies := merge_sort Z.le latencies in
    match served with
    | None => BenchWaits
    | Some (Err e) => BenchIo e
    | Some (Ok _) =>
      if uint_max 32 <? connections cli then BenchBail (lit "connection count is too large to report")
      else
        match percentile latencies 50, percentile latencies 95, percentile latencies 99 with
        | Some p50, Some p95, Some p99 => BenchReport p50 p95 p99
        | _, _, _ => BenchPanic
        end
    end
  end.

(** The start: the check, the two listeners, the configuration and the proxy
    with its one loop. *)
Inductive BenchStart := BenchStopped (o : BenchOutcome) | BenchStarted (config : ProxyConfig) (s : ServerState).

Definition bench_start (cli : BenchCli) (upstream_bound proxy_bound : result IoError SocketAddr) : BenchStart :=
  match bench_check cli, upstream_bound, proxy_bound with
  | Some message, _, _ => BenchStopped (BenchBail message)
  | None, Err e, _ => BenchStopped (BenchIo e)
  | None, Ok _, Err e => BenchStopped (BenchIo e)
  | None, Ok upstream_address, Ok proxy_address =>
    let config := bench_config cli proxy_address upstream_address in
    match with_auth_factory config with
    | None => BenchStopped BenchPanic
    | Some s => BenchStarted config (serve_step s Serve)
    end
  end.

(** [shutdown_tx.send(())] and the polls of the proxy task after it. *)
Definition stop_proxy (s : ServerState) : ServerState :=
  serve_run s [ShutdownRequested 0; PollPermit 0; PollAccept 0 None].

(** [main]: [joined] are the results of the workers in the order they are
    joined, [s] is the state of the proxy then. *)
Definition bench_main (cli : BenchCli) (upstream_bound proxy_bound : result IoError SocketAddr)
    (joined : list (result IoError (list Z))) (s : ServerState) : BenchOutcome :=
  match bench_start cli upstream_bound proxy_bound with
  | BenchStopped o => o
  | BenchStarted _ _ =>
    bench_finish cli joined
      match phase <$> loops (stop_proxy s) !! 0%nat with
      | Some (Returned served) => Some served
      | _ => None
      end
  end.

(** A proxy task that has not failed ends well when it is stopped. *)
Lemma stop_proxy_served s l :
  loops s !! 0%nat = Some l -> (forall e, phase l <> Returned (Err e)) ->
  phase <$> loops (stop_proxy s) !! 0%nat = Some (Returned (Ok tt)).
Proof.
  intros Hl He. destruct s as [a c ls ts fs]. destruct ls as [|l0 ls]; [done|]. injection Hl as ->.
  destruct l as [[| |[[]|e]] sh acc]; simpl in *; [by destruct c|by destruct c|done|by destruct (He e)].
Qed.

(** The semaphore is the only thing that can stop an accepted start. *)
Lemma bench_started cli upstream_address proxy_address :
  bench_check cli = None -> 0 <= concurrency cli -> 2 * concurrency cli <= MAX_PERMITS ->
  bench_start cli (Ok upstream_address) (Ok proxy_address) =
    BenchStarted (bench_config cli proxy_address upstream_address)
      (serve_step {| available := 2 * concurrency cli; closed := false; loops := []; tasks := []; finished := [] |} Serve).
Proof.
  intros Hc H0 Hm. unfold bench_start. rewrite Hc. unfold with_auth_factory, Semaphore_new. cbn [max_connections bench_config].
  change MAX_PERMITS with (2 ^ 61 - 1) in *. assert (uint_mul 64 (concurrency cli) 2 = 2 * concurrency cli) as ->
    by (unfold uint_mul, wrap; rewrite Z.mod_small; lia).
  by rewrite (proj2 (Z.leb_le _ _)).
Qed.

(** ** Percentiles of sorted samples *)

Definition at_most (v : Z) (values : list Z) : Z := len (List.filter (fun x => x <=? v) values).
Definition at_least (v : Z) (values : list Z) : Z := len (List.filter (fun x => v <=? x) values).

Lemma filter_all {A} (f : A -> bool) l : Forall (fun x => f x = true) l -> List.filter f l = l.
Proof. induction 1 as [|x l Hx _ IH]; [done|]. simpl. by rewrite Hx, IH. Qed.

Lemma filter_len_nonneg {A} (f : A -> bool) l : 0 <= len (List.filter f l).
Proof. apply len_nonneg. Qed.

Lemma sorted_split values k v :
  StronglySorted Z.le values -> values !! k = Some v ->
  Forall (fun x => x <= v) (take (S k) values) /\ Forall (fun x => v <= x) (drop k values).
Proof.
  intros Hs. revert k. induction Hs as [|x l Hs IH Hx]; intros [|k]; simpl; [done|done| |].
  - intros [= ->]. split; [by repeat constructor|]. constructor; [lia|done].
  - intros Hk. destruct (IH k Hk) as [Ht Hd]. split; [|done]. constructor; [|done].
    rewrite Forall_forall in Hx. apply Hx. by eapply list_elem_of_lookup_2.
Qed.

Lemma at_most_rank values k v :
  StronglySorted Z.le values -> values !! k = Some v -> Z.of_nat k + 1 <= at_most v values.
Proof.
  intros Hs Hk. destruct (sorted_split values k v Hs Hk) as [Ht _]. unfold at_most.
  rewrite <-(take_drop (S k) values) at 1. rewrite List.filter_app, len_app, filter_all.
  - pose proof (filter_len_nonneg (fun x => x <=? v) (drop (S k) values)).
    apply lookup_lt_Some in Hk. unfold len in *. rewrite length_take. lia.
  - eapply Forall_impl; [exact Ht|]. simpl. lia.
Qed.

Lemma at_least_rank values k v :
  StronglySorted Z.le values -> values !! k = Some v -> len values - Z.of_nat k <= at_least v values.
Proof.
  intros Hs Hk. destruct (sorted_split values k v Hs Hk) as [_ Hd]. unfold at_least.
  rewrite <-(take_drop k values) at 2. rewrite List.filter_app, len_app, (filter_all _ (drop k values)).
  - pose proof (filter_len_nonneg (fun x => v <=? x) (take k values)).
    apply lookup_lt_Some in Hk. unfold len in *. rewrite length_drop. lia.
  - eapply Forall_impl; [exact Hd|]. simpl. lia.
Qed.

Lemma percentile_index_range n p :
  0 < n -> n * 100 < 2 ^ 64 -> 0 <= p <= 100 ->
  percentile_index n p = (n - 1) * p / 100 /\ 0 <= percentile_index n p < n.
Proof.
  intros Hn Hb Hp. unfold percentile_index, uint_mul, uint_sub, wrap.
  rewrite (Z.mod_small (n - 1)) by lia. rewrite Z.mod_small by nia.
  split; [done|]. split; [apply Z.div_pos; nia|]. apply Z.div_lt_upper_bound; nia.
Qed.

(** For sorted samples (as many as memory can hold) and a percentage from 0 to 100 the reported percentile exists, is one of the samples, and splits them: more than p percent of the way up from the first sample lies at or below it, and the rest at or above. *)
Theorem percentile_rank values p :
  StronglySorted Z.le values -> values <> [] -> len values * 100 < 2 ^ 64 -> 0 <= p <= 100 ->
  exists v, percentile values p = Some v /\ v ∈ values /\
    p * (len values - 1) < 100 * at_most v values /\
    (100 - p) * (len values - 1) < 100 * at_least v values.
Proof.
  intros Hs Hne Hb Hp. assert (0 < len values) as Hn by (destruct values; [done|len_lia]).
  destruct (percentile_index_range (len values) p Hn Hb Hp) as [Hi Hr].
  destruct (lookup_lt_is_Some_2 values (Z.to_nat (percentile_index (len values) p))) as [v Hv];
    [unfold len in *; lia|].
  exists v. split_and!; [done|by eapply list_elem_of_lookup_2| |];
    [pose proof (at_most_rank _ _ _ Hs Hv)|pose proof (at_least_rank _ _ _ Hs Hv)];
    rewrite Z2Nat.id in * by lia; rewrite Hi in *;
    pose proof (Z.div_mod ((len values - 1) * p) 100 ltac:(lia));
    pose proof (Z.mod_pos_bound ((len values - 1) * p) 100 ltac:(lia)); nia.
Qed.

Definition samples : list Z := [10; 20; 20; 30; 900].

Lemma percentile_rank_witness :
  exists v, percentile samples 50 = Some v /\ v = 20 /\ 50 * (len samples - 1) < 100 * at_most v samples.
Proof.
  destruct (percentile_rank samples 50) as (v & Hv & _ & Hm & _).
  - repeat (constructor; [|repeat (constructor; [lia|]); constructor]). constructor.
  - discriminate.
  - vm_compute. reflexivity.
  - lia.
  - exists v. split; [exact Hv|]. split; [vm_compute in Hv; congruence|exact Hm].
Defined.

(** ** The workers' invariant *)

Definition total (f : Worker -> Z) (ws : list Worker) : Z := foldr (fun w n => f w + n) 0 ws.

Lemma total_insert f ws i w w' :
  ws !! i = Some w -> total f (<[i := w']> ws) = total f ws - f w + f w'.
Proof.
  revert i. induction ws as [|x ws IH]; intros [|i] Hi; simpl in *; [done|done| |].
  - injection Hi as ->. lia.
  - rewrite (IH i Hi). lia.
Qed.

(** Left its loop, and the connections it has started. *)
Definition broke (w : Worker) : Z := match w with Ended (Ok _) => 1 | _ => 0 end.
Definition carried (w : Worker) : Z :=
  match w with
  | Fetching ls | Ended (Ok ls) => len ls
  | Connecting _ ls => len ls + 1
  | Ended (Err _) => 0
  end.
Definition healthy (w : Worker) : Prop := forall e, w <> Ended (Err e).

Lemma total_broke_bound ws : 0 <= total broke ws <= len ws.
Proof.
  induction ws as [|w ws IH]; [done|]. simpl total. rewrite (len_app [w] ws : len (w :: ws) = _). change (len [w]) with 1.
  destruct w as [|? ?|[|]]; simpl; lia.
Qed.

Lemma total_broke_fetching ws i ls : ws !! i = Some (Fetching ls) -> total broke ws < len ws.
Proof.
  intros Hi. pose proof (total_insert broke ws i _ (Ended (Ok [])) Hi) as Ht. simpl in Ht.
  pose proof (total_broke_bound (<[i := Ended (Ok [])]> ws)) as Hb. unfold len in *. rewrite length_insert in Hb. lia.
Qed.

Section Workers.
Context (cli : BenchCli).
Hypothesis connections_nonneg : 0 <= connections cli.
Hypothesis concurrency_nonneg : 0 <= concurrency cli.
Hypothesis no_overflow : connections cli + concurrency cli < 2 ^ 64.

Definition bench_inv (st : BenchState) : Prop :=
  len (workers st) = concurrency cli /\
  taken st = seqZ 0 (len (taken st)) /\ len (taken st) <= connections cli /\
  next st = len (taken st) + total broke (workers st) /\
  (0 < total broke (workers st) -> len (taken st) = connections cli) /\
  (Forall healthy (workers st) -> total carried (workers st) = len (taken st)).

Lemma healthy_insert ws i w w' :
  ws !! i = Some w -> healthy w -> Forall healthy (<[i := w']> ws) -> Forall healthy ws.
Proof.
  intros Hi Hw Hall. rewrite <-(list_insert_id ws i w Hi), <-(list_insert_insert_eq ws i w w').
  by apply Forall_insert.
Qed.

Lemma bench_init_inv : bench_inv (bench_init cli).
Proof.
  assert (forall f n, f (Fetching []) = 0 -> total f (replicate n (Fetching [])) = 0) as Ht.
  { intros f n Hf. induction n as [|n IH]; [done|]. simpl. lia. }
  unfold bench_inv. simpl. rewrite !Ht by done. change (len (@nil Z)) with 0.
  split_and!; [|done|lia|done|lia|done]. unfold len. rewrite length_replicate. lia.
Qed.

Lemma fetch_add_inv st i ls st' :
  bench_inv st -> workers st !! i = Some (Fetching ls) -> bench_step cli st (FetchAdd i) = Some st' -> bench_inv st'.
Proof.
  intros (Hw & Ht & Hle & Hn & Hb & Hc) Hi. simpl. rewrite Hi.
  pose proof (total_broke_fetching _ _ _ Hi). pose proof (total_broke_bound (workers st)). pose proof (len_nonneg (taken st)).
  assert (uint_add 64 (next st) 1 = next st + 1) as -> by (apply wrap_small; lia).
  assert (forall w, len (<[i := w]> (workers st)) = concurrency cli) as Hlen by (intros; unfold len in *; by rewrite length_insert).
  destruct (_ <=? _) eqn:E; destr_bool; intros [= <-]; unfold bench_inv; cbn [workers taken next];
    rewrite Hlen, !(total_insert _ _ _ _ _ Hi); simpl.
  - assert (len (taken st) = connections cli) by (destruct (decide (0 < total broke (workers st))); [auto|lia]).
    split_and!; [done|done|lia|lia|done|]. intros Hh. rewrite Hc; [lia|]. by eapply healthy_insert.
  - assert (total broke (workers st) = 0) by (destruct (decide (0 < total broke (workers st))) as [Hp|]; [specialize (Hb Hp)|]; lia).
    rewrite len_app. change (len [next st]) with 1. split_and!; [done| |lia|lia|lia|].
    + rewrite seqZ_app, <-Ht by lia. f_equal. rewrite Hn, Z.add_0_l. replace (len (taken st) + total broke (workers st)) with (len (taken st)) by lia.
      by rewrite seqZ_cons.
    + intros Hh. rewrite Hc; [lia|]. by eapply healthy_insert.
Qed.

Lemma client_done_inv st i r st' :
  bench_inv st -> bench_step cli st (ClientDone i r) = Some st' -> bench_inv st'.
Proof.
  intros (Hw & Ht & Hle & Hn & Hb & Hc). simpl. destruct (workers st !! i) as [[|index ls|]|] eqn:Hi; try done.
  intros [= <-]. unfold bench_inv. cbn [workers taken next]. rewrite !(total_insert _ _ _ _ _ Hi).
  assert (forall w, len (<[i := w]> (workers st)) = concurrency cli) as -> by (intros; unfold len in *; by rewrite length_insert).
  destruct r as [l|e]; simpl.
  - split_and!; [done|done|done|lia|intros; apply Hb; lia|].
    intros Hh. rewrite Hc; [rewrite len_app; change (len [l]) with 1; lia|]. by eapply healthy_insert.
  - split_and!; [done|done|done|lia|intros; apply Hb; lia|]. intros Hh. exfalso.
    assert (healthy (Ended (Err e))) as Hx; [|by eapply Hx].
    eapply Forall_lookup_1; [exact Hh|]. apply list_lookup_insert_eq. by eapply lookup_lt_Some.
Qed.

Lemma bench_reachable_inv st : bench_reachable cli st -> bench_inv st.
Proof.
  induction 1 as [|st [i|i r] st' _ IH Hs]; [apply bench_init_inv| |by eapply client_done_inv].
  pose proof Hs as Hs'. simpl in Hs'. destruct (workers st !! i) as [[ls| |]|] eqn:Hi; try done. by eapply fetch_add_inv.
Qed.
End Workers.

(** The results of workers that have all left their loop. *)
Definition all_ended (st : BenchState) (results : list (list Z)) : Prop :=
  workers st = map (fun ls => Ended (Ok ls)) results.

Lemma all_ended_total results :
  let ws := map (fun ls => Ended (Ok ls)) results in
  Forall healthy ws /\ total broke ws = len results /\ total carried ws = len (mjoin results).
Proof.
  induction results as [|ls results (IHh & IHb & IHc)]; [by split_and!|]. simpl in *. split_and!.
  - apply Forall_cons. by split.
  - rewrite (len_app [ls] results : len (ls :: results) = _). change (len [ls]) with 1. lia.
  - change (mjoin (ls :: results)) with (ls ++ mjoin results). rewrite len_app. lia.
Qed.

Lemma all_ended_taken cli st results :
  0 <= connections cli -> 0 < concurrency cli -> connections cli + concurrency cli < 2 ^ 64 ->
  bench_reachable cli st -> all_ended st results ->
  taken st = seqZ 0 (connections cli) /\ len (mjoin results) = connections cli.
Proof.
  intros Hn Hc Ho (Hw & Ht & _ & _ & Hb & Hh)%bench_reachable_inv He; [|lia..]. unfold all_ended in He.
  destruct (all_ended_total results) as (Hall & Hbr & Hca). rewrite He in *.
  assert (len (taken st) = connections cli) as Hl.
  { apply Hb. rewrite Hbr. unfold len in *. rewrite length_map in Hw. lia. }
  rewrite <-Hl at 1. split; [done|]. rewrite <-Hca, Hh; done.
Qed.

(** ** The report *)

Lemma join_all_ok acc results : join_all acc (map Ok results) = Ok (acc ++ mjoin results).
Proof.
  revert acc. induction results as [|ls results IH]; intros acc; simpl; [by rewrite app_nil_r|].
  rewrite IH. by rewrite <-app_assoc.
Qed.

Lemma sorted_strongly l : StronglySorted Z.le (merge_sort Z.le l).
Proof. apply (StronglySorted_merge_sort Z.le). Qed.

Lemma percentile_monotone values p q v w :
  StronglySorted Z.le values -> len values * 100 < 2 ^ 64 -> 0 <= p <= q -> q <= 100 ->
  percentile values p = Some v -> percentile values q = Some w -> v <= w.
Proof.
  intros Hs Hb Hpq Hq Hv Hw. unfold percentile in *.
  assert (0 < len values) as Hn by (apply lookup_lt_Some in Hv; unfold len; lia).
  destruct (percentile_index_range (len values) p Hn Hb) as [Hi Hir]; [lia|].
  destruct (percentile_index_range (len values) q Hn Hb) as [Hj Hjr]; [lia|].
  assert (percentile_index (len values) p <= percentile_index (len values) q).
  { rewrite Hi, Hj. apply Z.div_le_mono; nia. }
  destruct (sorted_split values _ w Hs Hw) as [Hle _]. rewrite Forall_lookup in Hle.
  apply (Hle (Z.to_nat (percentile_index (len values) p))). rewrite lookup_take_lt by lia. exact Hv.
Qed.

Lemma filter_len_perm {A} (f : A -> bool) l k : Permutation l k -> len (List.filter f l) = len (List.filter f k).
Proof.
  intros Hp. induction Hp as [|x l k _ IH|x y l|l k m _ IH1 _ IH2]; simpl; [done| |by destruct (f x), (f y)|congruence].
  destruct (f x); [|done]. unfold len in *. simpl. lia.
Qed.

(** C39: The shared counter gives every connection to one worker: in every interleaving of the workers the indices for which a client is started are 0, 1, 2 and so on in this order, never beyond the number of connections, and when all workers have ended without error exactly the requested number of clients was run and as many latencies collected. *)
Theorem bench_workers_cover cli st :
  0 <= connections cli -> 0 < concurrency cli -> connections cli + concurrency cli < 2 ^ 64 ->
  bench_reachable cli st ->
  taken st = seqZ 0 (len (taken st)) /\ len (taken st) <= connections cli /\
  forall results, all_ended st results ->
    taken st = seqZ 0 (connections cli) /\ len (mjoin results) = connections cli.
Proof.
  intros Hn Hc Ho Hr. destruct (bench_reachable_inv cli ltac:(lia) ltac:(lia) Ho st Hr) as (_ & Ht & Hle & _).
  split_and!; [done|done|]. intros. by eapply all_ended_taken.
Qed.

(** C40: The benchmark reports instead of panicking or waiting: for arguments it accepts, with at most 2^32 - 1 connections and a concurrency of which twice fits the semaphore, once its listeners are bound, no accept of the proxy has failed and all workers have ended without error, in whatever order they are joined, it stops the proxy and prints the 50th, 95th and 99th percentiles of exactly the latencies measured, in ascending order, each of them one of the latencies and with the share of the samples below it that its rank promises. *)
Theorem bench_main_reports cli upstream_address proxy_address st results joined s l :
  0 <= connections cli <= uint_max 32 -> 0 <= concurrency cli -> 2 * concurrency cli <= MAX_PERMITS ->
  bench_check cli = None -> bench_reachable cli st -> all_ended st results -> Permutation joined results ->
  loops s !! 0%nat = Some l -> (forall e, phase l <> Returned (Err e)) ->
  exists p50 p95 p99, bench_main cli (Ok upstream_address) (Ok proxy_address) (map Ok joined) s = BenchReport p50 p95 p99 /\
    p50 <= p95 <= p99 /\
    Forall (fun '(p, v) => v ∈ mjoin results /\
        p * (connections cli - 1) < 100 * at_most v (mjoin results) /\
        (100 - p) * (connections cli - 1) < 100 * at_least v (mjoin results))
      [(50, p50); (95, p95); (99, p99)].
Proof.
  intros Hn Hc0 Hc Hchk Hr He Hperm Hloop Hne. unfold bench_main. rewrite (bench_started cli) by done.
  rewrite (stop_proxy_served s l Hloop Hne). change MAX_PERMITS with (2 ^ 61 - 1) in Hc. unfold bench_check in Hchk.
  destruct (connections cli =? 0) eqn:E1; [done|]. destruct (concurrency cli =? 0) eqn:E2; [done|]. destr_bool.
  unfold uint_max in *. destruct (all_ended_taken cli st results ltac:(lia) ltac:(lia) ltac:(lia) Hr He) as [_ Hlen].
  unfold bench_finish. rewrite join_all_ok. cbn [app]. rewrite (proj2 (Z.ltb_ge _ _)) by (unfold uint_max; lia).
  set (sorted := merge_sort Z.le (mjoin joined)).
  assert (Permutation sorted (mjoin results)) as Hsp.
  { unfold sorted. rewrite merge_sort_Permutation. by rewrite Hperm. }
  assert (len sorted = connections cli) as Hls by (unfold len in *; by rewrite Hsp).
  assert (forall p, 0 <= p <= 100 -> exists v, percentile sorted p = Some v /\ v ∈ mjoin results /\
    p * (connections cli - 1) < 100 * at_most v (mjoin results) /\
    (100 - p) * (connections cli - 1) < 100 * at_least v (mjoin results)) as Hpc.
  { intros p Hp. destruct (percentile_rank sorted p) as (v & Hv & Hin & Hm & Hl); [apply sorted_strongly| |lia|done|].
    - intros Hnil. rewrite Hnil in Hls. change (len (@nil Z)) with 0 in Hls. lia.
    - exists v. unfold at_most, at_least in *. rewrite Hls, !(filter_len_perm _ _ _ Hsp), Hsp in *. done. }
  destruct (Hpc 50) as (v50 & H50 & Hr50); [lia|]. destruct (Hpc 95) as (v95 & H95 & Hr95); [lia|].
  destruct (Hpc 99) as (v99 & H99 & Hr99); [lia|]. exists v50, v95, v99. rewrite H50, H95, H99. split_and!; [done| | |].
  - eapply (percentile_monotone sorted 50 95); [apply sorted_strongly|lia|lia|lia|done|done].
  - eapply (percentile_monotone sorted 95 99); [apply sorted_strongly|lia|lia|lia|done|done].
  - repeat apply Forall_cons_2; done.
Qed.

(** ** Three connections by two workers *)

Fixpoint bench_run (cli : BenchCli) (st : BenchState) (evs : list BenchEvent) : option BenchState :=
  match evs with
  | [] => Some st
  | ev :: evs' => st' ← bench_step cli st ev; bench_run cli st' evs'
  end.

Lemma bench_run_reachable cli st evs st' :
  bench_reachable cli st -> bench_run cli st evs = Some st' -> bench_reachable cli st'.
Proof.
  revert st. induction evs as [|ev evs IH]; intros st Hr Hs; simpl in Hs; [by injection Hs as <-|].
  apply bind_Some in Hs as (st1 & Hs1 & Hs). eapply IH; [|exact Hs]. by eapply bench_reachable_step.
Qed.

Definition two_workers : BenchCli := {| connections := 3; concurrency := 2; payload_bytes := 32; mock_ntlm := false |}.

Definition two_workers_run : list BenchEvent :=
  [FetchAdd 1; FetchAdd 0; ClientDone 1 (Ok 30); FetchAdd 1; ClientDone 0 (Ok 10); FetchAdd 0; ClientDone 1 (Ok 20); FetchAdd 1].

Definition two_workers_end : BenchState :=
  {| next := 5; workers := [Ended (Ok [10]); Ended (Ok [30; 20])]; taken := [0; 1; 2] |}.

Lemma two_workers_reachable : bench_reachable two_workers two_workers_end.
Proof.
  apply (bench_run_reachable _ (bench_init two_workers) two_workers_run); [constructor|]. vm_compute. reflexivity.
Qed.

Lemma bench_workers_cover_witness :
  taken two_workers_end = seqZ 0 3 /\ len (mjoin [[10]; [30; 20]]) = 3.
Proof.
  destruct (bench_workers_cover two_workers two_workers_end) as (_ & _ & Hall);
    [vm_compute; congruence|reflexivity|reflexivity|exact two_workers_reachable|].
  apply (Hall [[10]; [30; 20]]). reflexivity.
Defined.

(** The proxy waits for a permit when the workers are done. *)
Definition two_workers_server : ServerState :=
  {| available := 4; closed := false; loops := [{| phase := Acquiring; shutdown := false; accepted := [0%nat] |}];
     tasks := []; finished := [0%nat] |}.

Lemma bench_main_reports_witness :
  exists p50 p95 p99, bench_main two_workers (Ok (SocketV4 2130706433 40001)) (Ok (SocketV4 2130706433 40000))
      (map Ok [[30; 20]; [10]]) two_workers_server = BenchReport p50 p95 p99 /\
    p50 = 20 /\ p50 <= p95 <= p99.
Proof.
  destruct (bench_main_reports two_workers (SocketV4 2130706433 40001) (SocketV4 2130706433 40000) two_workers_end
      [[10]; [30; 20]] [[30; 20]; [10]] two_workers_server {| phase := Acquiring; shutdown := false; accepted := [0%nat] |})
    as (p50 & p95 & p99 & Hm & Hord & _);
    [vm_compute; split; congruence|vm_compute; congruence|vm_compute; congruence|reflexivity|exact two_workers_reachable|reflexivity|apply perm_swap|reflexivity|discriminate|].
  exists p50, p95, p99. split; [exact Hm|]. split; [|exact Hord]. vm_compute in Hm. congruence.
Defined.
