(* ===== verification/Tests.v ===== *)
(** * Tests: the tests of the repository, run in the model

    The unit tests of src/config.rs, src/routing.rs, src/http1.rs and
    src/server.rs and the integration tests of tests/connect.rs, as programs
    over the modelled functions.  A test that panics in [unwrap] or in an
    assertion is [None]; they all pass. *)

From S2P Require Import Prelude RustStr RustNet Config Routing Auth Io Http1 Http1Body Relay Challenge Base64 Server Scenario.

(** ** The test vocabulary *)

Abbreviation test := (option unit).

Definition unwrap {E A} (r : result E A) : option A := match r with Ok a => Some a | Err _ => None end.
Definition assert_ (b : bool) : test := if b then Some tt else None.
Definition assert_eq {A} `{EqDecision A} (x y : A) : test := assert_ (bool_decide (x = y)).
Definition is_err {E A} (r : result E A) : bool := match r with Ok _ => false | Err _ => true end.
Fixpoint for_each {A} (f : A -> test) (l : list A) : test :=
  match l with [] => Some tt | x :: l' => f x;; for_each f l' end.

(** ** src/config.rs *)

Definition parses_dns_and_ipv6_endpoints : test :=
  dns ← unwrap (Endpoint_from_str (lit "proxy.example:8080"));
  assert_eq (endpoint_host dns) (lit "proxy.example");;
  assert_eq (endpoint_port dns) 8080;;
  ipv6 ← unwrap (Endpoint_from_str (lit "[2001:db8::1]:3128"));
  assert_eq (endpoint_host ipv6) (lit "2001:db8::1");;
  assert_eq (Endpoint_fmt ipv6) (lit "[2001:db8::1]:3128").

Definition rejects_unsafe_or_ambiguous_endpoints : test :=
  for_each (fun invalid => assert_ (is_err (Endpoint_from_str invalid)))
    [lit ""; lit "proxy"; lit "proxy:0"; lit "user@proxy:80"; lit "proxy" ++ [13; 10] ++ lit "Injected: yes:80";
     lit "2001:db8::1:3128"].

Definition cidr_normalizes_and_matches_addresses : test :=
  ipv4 ← unwrap (IpCidr_from_str (lit "10.20.30.40/12"));
  assert_eq (IpCidr_fmt ipv4) (lit "10.16.0.0/12");;
  inside ← unwrap (parse_ip_addr (lit "10.31.255.255"));
  assert_ (IpCidr_contains ipv4 inside);;
  outside ← unwrap (parse_ip_addr (lit "10.32.0.0"));
  assert_ (negb (IpCidr_contains ipv4 outside));;
  ipv6 ← unwrap (IpCidr_from_str (lit "fd12:3456::abcd/48"));
  assert_eq (IpCidr_fmt ipv6) (lit "fd12:3456::/48");;
  inside ← unwrap (parse_ip_addr (lit "fd12:3456::1"));
  assert_ (IpCidr_contains ipv6 inside);;
  outside ← unwrap (parse_ip_addr (lit "fd12:3457::1"));
  assert_ (negb (IpCidr_contains ipv6 outside)).

Definition rejects_invalid_cidrs : test :=
  for_each (fun invalid => assert_ (is_err (IpCidr_from_str invalid)))
    [lit "10.0.0.0"; lit "10.0.0.0/33"; lit "fd00::/129"; lit "host/24"].

(** ** src/routing.rs *)

Definition recognizes_internal_address_ranges : test :=
  for_each (fun address => ip ← unwrap (parse_ip_addr (lit address)); assert_ (is_direct_address ip []))
    ["127.0.0.1"; "10.1.2.3"; "172.31.255.254"; "192.168.4.5"; "169.254.10.20"; "100.64.0.1"; "::1"; "fe80::1";
     "fd12:3456::1"]%string.

Definition public_addresses_use_the_proxy_by_default : test :=
  for_each (fun address => ip ← unwrap (parse_ip_addr (lit address)); assert_ (negb (is_direct_address ip [])))
    ["1.1.1.1"; "8.8.8.8"; "172.32.0.1"; "2001:4860:4860::8888"]%string.

Definition additional_networks_are_direct : test :=
  network ← unwrap (IpCidr_from_str (lit "203.0.113.0/24"));
  ip ← unwrap (parse_ip_addr (lit "203.0.113.42"));
  assert_ (is_direct_address ip [network]).

(** ** src/http1.rs *)

Definition preserves_bytes_after_connect_head : test :=
  match fst (read_request_head 8193 0 8192 (one_socket [connect_request ++ lit "TLS"])) with
  | Val (head, remaining) =>
    assert_eq (method head) (lit "CONNECT");;
    assert_eq (target head) (lit "example.com:443");;
    assert_eq remaining (lit "TLS")
  | _ => None
  end.

Definition one_header (version_ : Z) (nm v : string) : ResponseHead :=
  {| version := version_; status := 407; headers := [{| name := lit nm; value := lit v |}] |}.

Definition detects_connection_close_case_insensitively : test :=
  assert_ (connection_close (one_header 1 "Connection" "keep-alive, Close")).

Definition treats_http_1_0_as_closed_without_keep_alive : test :=
  assert_ (connection_close {| version := 0; status := 407; headers := [] |});;
  assert_ (negb (connection_close (one_header 0 "Connection" "Keep-Alive"))).

(** ** src/server.rs *)

Definition auto_prefers_negotiate : test :=
  let response := {| version := 1; status := 407;
    headers := [{| name := lit "Proxy-Authenticate"; value := lit "NTLM" |};
                {| name := lit "proxy-authenticate"; value := lit "Negotiate dHlwZTI=" |}] |} in
  '(scheme, challenge) ← unwrap (choose_scheme response AuthAuto);
  assert_eq scheme Negotiate;;
  decoded ← unwrap (decode_challenge challenge);
  tok ← decoded;
  assert_eq tok (lit "type2").

Definition forced_ntlm_uses_ntlm_challenge : test :=
  '(scheme, challenge) ← unwrap (choose_scheme (one_header 1 "Proxy-Authenticate" "Negotiate, NTLM dHlwZTI=") AuthNtlm);
  assert_eq scheme Ntlm;;
  decoded ← unwrap (decode_challenge challenge);
  tok ← decoded;
  assert_eq tok (lit "type2").

Definition unit_tests : list test :=
  [parses_dns_and_ipv6_endpoints; rejects_unsafe_or_ambiguous_endpoints; cidr_normalizes_and_matches_addresses;
   rejects_invalid_cidrs; recognizes_internal_address_ranges; public_addresses_use_the_proxy_by_default;
   additional_networks_are_direct; preserves_bytes_after_connect_head; detects_connection_close_case_insensitively;
   treats_http_1_0_as_closed_without_keep_alive; auto_prefers_negotiate; forced_ntlm_uses_ntlm_challenge].

Example unit_tests_pass : Forall (fun t => t = Some tt) unit_tests.
Proof. repeat (apply Forall_cons_2; [vm_compute; reflexivity|]). apply Forall_nil_2. Qed.

(** ** tests/connect.rs: the provider *)

Record ConnectMockContext := { connect_step : Z }.

Definition starts_with (s prefix : bytes) : bool := bool_decide (take (length prefix) s = prefix).
Definition contains (s pat : bytes) : bool := existsb (fun w => bool_decide (w = pat)) (windows (length pat) s).

(** [{challenge:?}] of an [Option<&[u8]>]. *)
Fixpoint fmt_bytes (bs : bytes) : str :=
  match bs with
  | [] => []
  | [b] => fmt_u b
  | b :: bs' => fmt_u b ++ lit ", " ++ fmt_bytes bs'
  end.
Definition fmt_challenge (challenge : option bytes) : str :=
  match challenge with
  | None => lit "None"
  | Some bs => lit "Some([" ++ fmt_bytes bs ++ lit "])"
  end.

Definition connect_create {W} (scheme : AuthScheme) (target_name : str) (w : W) : result AuthError ConnectMockContext * W :=
  (if negb (bool_decide (scheme = Ntlm)) then Err (Native (lit "expected NTLM"))
   else if negb (starts_with target_name (lit "HTTP/127.0.0.1"))
   then Err (Native (lit "unexpected target name " ++ target_name))
   else Ok {| connect_step := 0 |}, w).

Definition connect_mock_step {W} (self : ConnectMockContext) (challenge : option bytes) (w : W) :
  (result AuthError bytes * ConnectMockContext) * W :=
  let next := {| connect_step := uint_add 64 (connect_step self) 1 |} in
  if (connect_step self =? 0) && bool_decide (challenge = None) then ((Ok (lit "type1"), next), w)
  else if (connect_step self =? 1) && bool_decide (challenge = Some (lit "type2")) then ((Ok (lit "type3"), next), w)
  else ((Err (Native (lit "unexpected mock auth step " ++ fmt_u (connect_step self) ++ lit " with challenge " ++
                      fmt_challenge challenge)), self), w).

#[local] Instance connect_provider : AuthFactory Script := {|
  AuthContext := ConnectMockContext;
  create := connect_create;
  step := connect_mock_step;
|}.

(** ** The exchanges

    Socket 0 is the client, the sockets the proxy connects to follow.  What
    the peers of a test assert is checked on what the proxy wrote to them;
    the relayed [ping] and [pong] are those of the scripted relay. *)

Definition spawn_config (mode : AuthMode) (rt : RoutingMode) : ProxyConfig := {|
  listen := SocketV4 2130706433 3128;
  upstream := Endpoint_new (fmt_ip (V4 2130706433)) 8080;
  auth := mode;
  routing := rt;
  direct_cidrs := [];
  dns_timeout := 5;
  connect_timeout := 5;
  idle_timeout := Some 5;
  max_header_bytes := 32 * 1024;
  max_connections := 16;
|}.

Definition spawn_proxy (mode : AuthMode) (rt : RoutingMode) (sockets : list (list bytes)) (connects : list sock)
    (answers : list (list SocketAddr)) : option (st Script) :=
  match handle_client (spawn_config mode rt) (Z.to_nat (32 * 1024 + 1)) 0
          (Build_st {| sc_in := sockets; sc_connects := (fun s => InTime (Ok s)) <$> connects;
                       sc_lookups := (fun l => InTime (Ok l)) <$> answers; sc_out := [] |} []) with
  | (Val _, s) => Some s
  | _ => None
  end.

Definition resp_407 (challenge : string) (more : list string) (body : string) : bytes :=
  http_lines ("HTTP/1.1 407 Proxy Authentication Required"%string :: challenge :: more) body.

(** A head that came without anything after it. *)
Definition head_only (bs : bytes) : bool := bool_decide (find_header_end bs = Some (len bs)).

Definition line (s : string) : bytes := lit s ++ nl.

Definition client_got_200 (s : st Script) : test :=
  match writes_to 0 s with
  | [response] => assert_ (starts_with response (lit "HTTP/1.1 200 "))
  | _ => None
  end.

Definition connect_tunnel_relays_early_client_data : test :=
  s ← spawn_proxy AuthNone RoutingProxyOnly
        [[http_lines ["CONNECT example.test:443 HTTP/1.1"; "Host: example.test:443"]%string "ping"]; [resp_200]] [1%nat] [];
  match writes_to 1 s with
  | [head; request] =>
    assert_ (starts_with head (line "CONNECT example.test:443 HTTP/1.1"));;
    assert_ (head_only head);;
    assert_eq request (lit "ping");;
    client_got_200 s
  | _ => None
  end.

Definition ntlm_handshake_reuses_connection_and_drains_407_body : test :=
  s ← spawn_proxy AuthNtlm RoutingProxyOnly
        [[http_lines ["CONNECT service.test:443 HTTP/1.1"; "Host: service.test:443"]%string ""];
         [resp_407 "Proxy-Authenticate: NTLM" ["Content-Length: 0"]%string "";
          resp_407 "Proxy-Authenticate: NTLM dHlwZTI=" ["Content-Length: 5"]%string "hello"; resp_200]] [1%nat] [];
  match writes_to 1 s with
  | [first; second; third] =>
    assert_ (starts_with first (line "CONNECT service.test:443 HTTP/1.1"));;
    assert_ (negb (contains (map to_ascii_lowercase first) (lit "proxy-authorization")));;
    assert_ (head_only first);;
    assert_ (contains second (line "Proxy-Authorization: NTLM dHlwZTE="));;
    assert_ (head_only second);;
    assert_ (contains third (line "Proxy-Authorization: NTLM dHlwZTM="));;
    assert_ (head_only third);;
    client_got_200 s
  | _ => None
  end.

Definition ntlm_reconnects_after_tokenless_407_closes_probe_socket : test :=
  s ← spawn_proxy AuthNtlm RoutingProxyOnly
        [[http_lines ["CONNECT service.test:443 HTTP/1.1"]%string ""];
         [resp_407 "Proxy-Authenticate: NTLM" ["Connection: close"; "Content-Length: 0"]%string ""];
         [resp_407 "Proxy-Authenticate: NTLM dHlwZTI=" ["Content-Length: 0"]%string ""; resp_200]] [1%nat; 2%nat] [];
  match writes_to 1 s, writes_to 2 s with
  | [probe], [type_one; type_three] =>
    assert_ (head_only probe);;
    assert_ (contains type_one (line "Proxy-Authorization: NTLM dHlwZTE="));;
    assert_ (contains type_three (line "Proxy-Authorization: NTLM dHlwZTM="));;
    client_got_200 s
  | _, _ => None
  end.

(** The only connection is the direct one: the upstream is not dialled. *)
Definition auto_routing_resolves_localhost_and_bypasses_upstream : test :=
  s ← spawn_proxy AuthNone RoutingAuto
        [[http_lines ["CONNECT localhost:9000 HTTP/1.1"; "Host: localhost:9000"]%string ""]; []] [1%nat]
        [[SocketV4 2130706433 9000]];
  client_got_200 s;;
  assert_eq (writes_to 1 s) [];;
  assert_ (negb (existsb (fun ev => match ev with EvConnect (ToHost _ _) _ => true | _ => false end) (trace s))).

Definition auto_routing_sends_public_addresses_through_upstream : test :=
  s ← spawn_proxy AuthNone RoutingAuto
        [[http_lines ["CONNECT 203.0.113.10:443 HTTP/1.1"]%string ""]; [resp_200]] [1%nat] [[SocketV4 3405803786 443]];
  match writes_to 1 s with
  | [head] => assert_ (starts_with head (line "CONNECT 203.0.113.10:443 HTTP/1.1"));; client_got_200 s
  | _ => None
  end.

Definition integration_tests : list test :=
  [connect_tunnel_relays_early_client_data; ntlm_handshake_reuses_connection_and_drains_407_body;
   ntlm_reconnects_after_tokenless_407_closes_probe_socket; auto_routing_resolves_localhost_and_bypasses_upstream;
   auto_routing_sends_public_addresses_through_upstream].

Example integration_tests_pass : Forall (fun t => t = Some tt) integration_tests.
Proof. repeat (apply Forall_cons_2; [vm_compute; reflexivity|]). apply Forall_nil_2. Qed.
